(* ===== verification/_CoqProject ===== *)
-Q . S2P
Prelude.v
Types.v
Name.v
Message.v
Cookie.v
Net.v
Reply.v
Parser.v
Body.v
Samples.v
Sent.v
LocalReply.v
Grammar.v
Retry.v
Answers.v
Routing.v
Io.v
Sim.v
Transport.v
Upstream.v
Forwarding.v
Isolation.v
Diagnosed.v
Server.v
Addr.v
Config.v
Document.v
Pool.v
Service.v
TcpService.v
Lifecycle.v
ServiceLog.v
Shutdown.v
Logging.v
Logger.v
Main.v
Texts.v
Testing.v
DnsTests.v
ConfigTests.v
ExchangeTests.v
ServiceTests.v
