(* ===== verification/Prelude.v ===== *)
(** * Sederial: a verified model of a split-DNS forwarder

    Sederial answers DNS queries over UDP and TCP: some names from local A
    records, the others by forwarding to the upstream group whose configured
    suffix is the longest one of the name.  This library models the program of
    [src/src/] in Rocq and proves what makes it correct.  All file names below
    are relative to [src/src/]; definitions keep the names of the source where
    Rocq allows it, with the type in front for methods.

    ** The program and its model

    A client message travels through the program in this order.

    - [server.rs] takes it in ([receive_udp], [accept_tcp]) and queues it:
      [Server].  The queue and the workers are [server/pool.rs]: [Pool].  Each
      listener with its pool and workers is [Service] (UDP) and [TcpService];
      start, stop and end of the whole are [Lifecycle] and [Shutdown]
      ([Server::run]), with what it logs in [ServiceLog], and [Main] ([main.rs]).
    - [forwarding.rs] answers it ([RequestHandler::respond]): [Forwarding], for
      both transports.  It parses and judges the message ([dns/]), selects a route
      ([routing.rs]: [Routing]), and replies locally or forwards.
    - [dns/name.rs] is [Name]; [dns/types.rs], [dns/error.rs] and [dns.rs] are
      [Types]; [dns/message.rs] is [Message] (header, packet, query policy) and
      [Sent] (queries as sent and accepted responses); [dns/cookie.rs] is
      [Cookie]; [dns/parser.rs] is [Parser], whose specification is the grammar of
      messages in [Grammar]; [dns/reply.rs] is [Reply].
      [LocalReply] and [Answers] prove what the replies say to the client that
      parses them, [Body] that rewriting the ID changes nothing else, and [Retry]
      what a cookie retry asks.
    - [upstream.rs] exchanges it with resolvers ([Forwarder::forward]): [Upstream],
      over the deadlines and frames of [transport.rs]: [Transport].  Their
      specifications account for the calls made: where each connection, datagram and
      write leads, reused streams included, and why a server was given up
      ([Upstream.forwarded]).  [Isolation] and [Diagnosed] say what earlier requests
      leave behind for one, and what it leaves in the log.
    - [config.rs] is [Config], with the grammar of documents in [Document], the
      address syntax of the standard library in [Addr] and its types in [Net];
      [logging.rs] is [Logging] (callers) and [Logger] (the writer thread and the
      guard whose drop flushes it); the texts of errors, warnings, the log of
      start-up and service, and standard output are [Texts].

    [Samples] and [Sim] hold the messages and the scripted environment on which
    witnesses run the code.

    The tests of the repository are written out once more against the model and
    evaluated, so that what the authors expect of the code is known of the
    definitions: [Testing] is the vocabulary, [DnsTests] ([dns/tests.rs],
    [dns/cookie.rs]), [ConfigTests] ([config.rs], [routing.rs]), [ExchangeTests]
    ([transport.rs], [upstream.rs]) and [ServiceTests] ([server.rs],
    [server/pool.rs], [logging.rs]) are the tests, by their names.  A test that
    needs peers or threads runs on a scripted peer, or on a schedule that reaches
    the state it waits for.  Two computations are too long to evaluate and are
    left to theorems: the random corpus of [dns/tests.rs], which is
    [Parser]'s totality, and a configuration of 4096 entries, which is
    [Document]'s completeness.

    ** How code is modelled

    A function that returns [Result] and may panic is a function into [outcome]
    (below); slicing, indexing and arithmetic that panic in Rust are [Panic] here,
    so every "never panics" is proved and not assumed.  Integers are [Z] or [nat]
    with their widths and wrap-around written out where they are reached; bytes
    are [Byte.byte].

    I/O runs in the state monad [M] of [Io] over an arbitrary world that is an
    instance of [Env]: each call of the clock, the stop flag, a socket, the
    entropy source or a queue, and each warning logged, is one constructor of [Sys],
    answered by the instance and recorded in a trace.  [EnvLaws] is all that proofs assume of it:
    the clock is monotone, a call that timed out took time, no call moves more
    bytes than it was offered, and the system does not invent the program's own
    [Cancelled] error.  [Sim] satisfies these laws.

    Threads interleave as step relations: [Pool.step], [Logger.logger_step] and
    [Lifecycle.server_step], with executable schedules ([play], [direct]) that
    produce runs.  A thread holding a lock makes one step; the flags are shared
    state that any step may observe.  The flags are relaxed atomics that carry no
    data, so sequentially consistent interleaving is what their use relies on.

    ** What is proved

    - Parsing is total and accepts exactly the messages of a declarative grammar
      of RFC 1035 and RFC 6891 ([Grammar.message]), within the code's limits, with
      the packet the grammar describes; so do names on their own; encoding and
      presentation are inverted; suffixes match by whole labels.
    - The policy decides every packet; every rejection, local answer, truncation
      and format error is a reply that parses back with the intended meaning and
      size, or is withheld for a stated reason.
    - Selection refines a specification over the rules as a set; exactly the
      documents of a declarative grammar ([Document.document]) are accepted, and
      the configurations they give are valid as a whole.
    - Responses are accepted exactly if they belong to the query as sent; cookie
      retries keep a question that is spelled out; failover ends, stays in the group
      selected and in its order, and goes on only past a server that failed; the
      stream that is cached is the one that answered, and it is used for its own
      endpoint alone; cancellation is reported only on a stop.
    - The log of a request has exactly the lines it calls for, in order
      ([Diagnosed.failures_are_logged]); each is one line, whatever a client, an
      upstream or a setting contains.
    - [respond] refines [Forwarding.served], and is silent for one of the reasons of
      [Forwarding.unanswered]; nothing is sent to other servers, on no stream; replies
      carry the client's ID, and a question that is spelled out.
    - Frames are read and written exactly, whatever the partial progress, and what
      one side writes the other reads.
    - The UDP service is a stateless responder and TCP sessions are answered in
      order, in every interleaving of listener, pool and workers; pools deliver
      each job once, shut down completely and end on a stop; after a stop
      [Server::run] returns, whatever the schedule, and its wake connection takes
      the TCP listener out of [accept]; it ends well exactly if everything did, and
      the exit status says so.
    - Log lines are bounded, valid, single lines and rate limited, and the writer
      keeps them in order, is never stuck before its end and ends when asked;
      dropping the guard is never stuck and joins only a writer that is done.  The
      log announces the end of the service exactly if the TCP thread was joined,
      its listener and its workers having ended well.

    ** Fuel and bounds

    Loops that are not structural take fuel, and running out is [Diverge].
    [Name.DECODE_FUEL] is 384: at most 128 pointers and 127 labels and the end.
    Scans of options and TXT data take the number of bytes left plus one.  An
    exchange needs [Transport.enough]: a pass for each byte of the largest frame
    and for each tick until the deadline, since each failing call takes time;
    [Server.ample] is enough for any budget of a session.  Theorems that say "with
    fuel for the time left" prove termination with it ([wpm true]); [Parser],
    [Name] and [Cookie] prove that their fuel always suffices.  Listeners and
    sessions run for as long as clients do: their rounds are an argument and
    the theorems describe the run after any number of them.  A worker ends within
    four steps of the stop flag, all threads of the service within 165, the writer within
    244 and three for each line still accepted.

    ** Not modelled

    The TOML library is a parameter ([Config.Toml]: a value is what its accessors
    return), and so are its texts and those of the system's errors, of paths, of
    [Debug] and of endpoints; the texts of the errors that the program makes itself
    are [Texts.source_text].  A warning is an event of its caller ([Io.Warning])
    that takes no time; what [logging::warn] makes of it is [Logging] and [Texts].
    Signal handlers are the environment raising the stop flag.  In [Lifecycle] a call
    of [recv_from] may return at any time, as its read timeout makes it, and a call of
    [accept] only with a waiting connection or an error of the listening socket;
    starting the TCP thread and the line that announces it are one step, and a panic of
    that thread is left to [Main].  That the guard of
    the log waits too long is a choice of the schedule.  The panic hook, the sink
    of the log, an overflow of [Instant], and the fairness of the scheduler are
    outside of the model: [Shutdown] counts the moves of threads and shows that one
    is always possible, not when it is made. *)

From Stdlib Require Export ZArith Lia.
From Stdlib Require Export Strings.Byte.
From stdpp Require Export base list option numbers strings.

#[global] Open Scope nat_scope.

(** ** Outcomes of Rust code

    A Rust function that returns [Result<T, E>] and may panic is a function
    into [outcome E T].  A function without an error case is polymorphic in
    [E].  [Diverge] is what a fuelled loop returns when its fuel runs out. *)

Inductive outcome (E A : Type) : Type :=
| Ok (a : A)
| Err (e : E)
| Panic
| Diverge.
Arguments Ok {E A} a.
Arguments Err {E A} e.
Arguments Panic {E A}.
Arguments Diverge {E A}.

Definition obind {E A B} (m : outcome E A) (k : A -> outcome E B) : outcome E B :=
  match m with
  | Ok a => k a
  | Err e => Err e
  | Panic => Panic
  | Diverge => Diverge
  end.

Declare Scope outcome_scope.
Delimit Scope outcome_scope with outcome.
Notation "'let*' x := m 'in' k" := (obind m (fun x => k))
  (at level 10, x pattern, m at level 100, k at level 200,
   format "'[v' 'let*'  x  :=  m  'in' '/' k ']'") : outcome_scope.
#[global] Open Scope outcome_scope.

(** [Option::ok_or]. *)
Definition ok_or {E A} (o : option A) (e : E) : outcome E A :=
  match o with Some a => Ok a | None => Err e end.

(** An [unwrap]-like access: the missing value is a panic. *)
Definition or_panic {E A} (o : option A) : outcome E A :=
  match o with Some a => Ok a | None => Panic end.

(** [Result::map_err]. *)
Definition map_err {E F A} (f : E -> F) (m : outcome E A) : outcome F A :=
  match m with
  | Ok a => Ok a
  | Err e => Err (f e)
  | Panic => Panic
  | Diverge => Diverge
  end.

(** [Option::is_some_and] and [Option::is_none_or]. *)
Definition is_some_and {A} (f : A -> bool) (o : option A) : bool :=
  match o with Some a => f a | None => false end.
Definition is_none_or {A} (f : A -> bool) (o : option A) : bool :=
  match o with Some a => f a | None => true end.
(** [Option::is_some]. *)
Definition is_some {A} (o : option A) : bool :=
  match o with Some _ => true | None => false end.

(** [wp m P]: [m] neither panics nor runs out of fuel, and every value it
    returns satisfies [P]; an error is allowed. *)
Definition wp {E A} (m : outcome E A) (P : A -> Prop) : Prop :=
  match m with Ok a => P a | Err _ => True | Panic | Diverge => False end.

Definition safe {E A} (m : outcome E A) : Prop := wp m (fun _ => True).

Section outcome_lemmas.
Context {E A B : Type}.
Implicit Types (m : outcome E A) (k : A -> outcome E B).

Lemma obind_Ok m k b : obind m k = Ok b <-> exists a, m = Ok a /\ k a = Ok b.
Proof. destruct m; naive_solver. Qed.

Lemma obind_Err m k e :
  obind m k = Err e <-> m = Err e \/ exists a, m = Ok a /\ k a = Err e.
Proof. destruct m; naive_solver. Qed.

Lemma ok_or_Ok (o : option A) (e : E) a : ok_or o e = Ok a <-> o = Some a.
Proof. destruct o; naive_solver. Qed.

Lemma ok_or_Err (o : option A) (e e' : E) : ok_or o e = Err e' <-> o = None /\ e = e'.
Proof. destruct o; naive_solver. Qed.

Lemma or_panic_Ok (o : option A) a : @or_panic E A o = Ok a <-> o = Some a.
Proof. destruct o; naive_solver. Qed.

Lemma wp_bind m k (P : B -> Prop) :
  wp m (fun a => wp (k a) P) -> wp (obind m k) P.
Proof. by destruct m. Qed.

Lemma wp_ok_or (o : option A) (e : E) P :
  (forall a, o = Some a -> P a) -> wp (ok_or o e) P.
Proof. destruct o; naive_solver. Qed.

Lemma wp_or_panic (o : option A) (P : A -> Prop) :
  (exists a, o = Some a /\ P a) -> wp (@or_panic E A o) P.
Proof. by intros (a & -> & HP). Qed.

Lemma wp_mono m (P Q : A -> Prop) : wp m P -> (forall a, P a -> Q a) -> wp m Q.
Proof. destruct m; naive_solver. Qed.

Lemma wp_Ok m (P : A -> Prop) a : wp m P -> m = Ok a -> P a.
Proof. by intros H ->. Qed.

(** A post-condition may use the equation of the value returned. *)
Lemma wp_eq m (P : A -> Prop) : wp m P -> wp m (fun a => m = Ok a /\ P a).
Proof. by destruct m. Qed.

Lemma safe_cases m : safe m <-> (exists a, m = Ok a) \/ (exists e, m = Err e).
Proof. destruct m; naive_solver. Qed.
End outcome_lemmas.

Lemma wp_map_err {E F A} (f : E -> F) (m : outcome E A) P : wp (map_err f m) P <-> wp m P.
Proof. by destruct m. Qed.

Lemma map_err_Ok {E F A} (f : E -> F) (m : outcome E A) a : map_err f m = Ok a <-> m = Ok a.
Proof. destruct m; naive_solver. Qed.

Lemma map_err_Err {E F A} (f : E -> F) (m : outcome E A) e :
  map_err f m = Err e <-> exists e', m = Err e' /\ e = f e'.
Proof. destruct m; naive_solver. Qed.

(** ** Bytes and machine words

    A [u8] is a [byte]; [u16], [u32] and [u64] values are [Z] with their
    range as a predicate; a [usize] is a [nat], since every one the program
    computes is an offset into, or a length of, a vector in memory. *)

#[export] Instance byte_eq_dec : EqDecision byte := byte_eq_dec.
#[export] Instance byte_inhabited : Inhabited byte := populate x00.

(** [u64::from(b)], [u16::from(b)], ... *)
Definition b2z (b : byte) : Z := Z.of_N (Byte.to_N b).
(** [usize::from(b)]. *)
Definition b2n (b : byte) : nat := N.to_nat (Byte.to_N b).
(** [n as u8], which truncates. *)
Definition z2b (z : Z) : byte := default x00 (Byte.of_N (Z.to_N (z mod 256)%Z)).
(** [n as u8] of a [usize]. *)
Definition n2b (n : nat) : byte := z2b (Z.of_nat n).

Definition u8_and (a b : byte) : byte := z2b (Z.land (b2z a) (b2z b)).
Definition u8_eqb (a b : byte) : bool := bool_decide (a = b).

(** [u8::to_ascii_lowercase] and [u8::is_ascii_alphanumeric]. *)
Definition to_ascii_lowercase (b : byte) : byte :=
  if (65 <=? b2z b)%Z && (b2z b <=? 90)%Z then z2b (b2z b + 32) else b.
Definition is_ascii_digit (b : byte) : bool := (48 <=? b2z b)%Z && (b2z b <=? 57)%Z.
Definition is_ascii_alphanumeric (b : byte) : bool :=
  is_ascii_digit b
  || ((65 <=? b2z b)%Z && (b2z b <=? 90)%Z)
  || ((97 <=? b2z b)%Z && (b2z b <=? 122)%Z).

Definition is_u16 (z : Z) : Prop := (0 <= z < 65536)%Z.
Definition is_u32 (z : Z) : Prop := (0 <= z < 4294967296)%Z.

(** [u16::from_be_bytes([hi, lo])] and [u16::to_be_bytes]. *)
Definition be16 (hi lo : byte) : Z := (b2z hi * 256 + b2z lo)%Z.
Definition to_be16 (w : Z) : list byte := [z2b (w / 256); z2b w].
(** [u32::from_be_bytes] and [u32::to_be_bytes]. *)
Definition be32 (a b c d : byte) : Z :=
  (((b2z a * 256 + b2z b) * 256 + b2z c) * 256 + b2z d)%Z.
Definition to_be32 (w : Z) : list byte :=
  [z2b (w / 16777216); z2b (w / 65536); z2b (w / 256); z2b w].

#[global] Arguments b2z : simpl never.
#[global] Arguments b2n : simpl never.
#[global] Arguments z2b : simpl never.
#[global] Arguments n2b : simpl never.
#[global] Arguments be16 : simpl never.
#[global] Arguments be32 : simpl never.
#[global] Arguments to_be16 : simpl never.
#[global] Arguments to_be32 : simpl never.

(** The largest [usize] on the 64-bit targets the project ships for. *)
Definition USIZE_MAX : Z := 18446744073709551615.
(** [usize::checked_add]. *)
Definition checked_add (a b : nat) : option nat :=
  if (Z.of_nat a + Z.of_nat b <=? USIZE_MAX)%Z then Some (a + b) else None.
(** [a - b] on [usize]: an underflow is a fault. *)
Definition usize_sub {E} (a b : nat) : outcome E nat :=
  if b <=? a then Ok (a - b) else Panic.

(** All 256 bytes: a decidable property of a byte is settled by computing. *)
Definition all_bytes : list byte := (fun n => n2b n) <$> seq 0 256.

Lemma all_bytes_complete b : b ∈ all_bytes.
Proof. apply list_elem_of_lookup. exists (b2n b). by destruct b. Qed.

Lemma byte_forall (f : byte -> bool) :
  forallb f all_bytes = true -> forall b, f b = true.
Proof.
  intros H b. rewrite forallb_forall in H. apply H.
  apply list_elem_of_In, all_bytes_complete.
Qed.

(** [byte_compute f]: proves a boolean fact of every byte by evaluation. *)
Ltac byte_compute f :=
  let H := fresh in
  pose proof (byte_forall f eq_refl) as H; cbv beta in H; apply H.

Section bytes.
Local Open Scope Z_scope.

Lemma b2z_range b : 0 <= b2z b < 256.
Proof.
  assert (((0 <=? b2z b) && (b2z b <? 256)) = true)
    by (byte_compute (fun b => (0 <=? b2z b) && (b2z b <? 256))).
  lia.
Qed.

Lemma b2n_b2z b : Z.of_nat (b2n b) = b2z b.
Proof. unfold b2n, b2z. lia. Qed.

Lemma b2n_range b : (b2n b < 256)%nat.
Proof. pose proof (b2z_range b). pose proof (b2n_b2z b). lia. Qed.

Lemma z2b_b2z b : z2b (b2z b) = b.
Proof. by destruct b. Qed.

Lemma b2z_inj a b : b2z a = b2z b -> a = b.
Proof. intros H. by rewrite <- (z2b_b2z a), H, z2b_b2z. Qed.

Lemma b2z_z2b z : b2z (z2b z) = z mod 256.
Proof.
  unfold z2b, b2z. assert (0 <= z mod 256 < 256) as Hr by (apply Z.mod_pos_bound; lia).
  destruct (Byte.of_N (Z.to_N (z mod 256))) as [b|] eqn:Hb; simpl.
  - apply Byte.to_of_N in Hb. lia.
  - apply Byte.of_N_None_iff in Hb. lia.
Qed.

Lemma b2z_z2b_small z : 0 <= z < 256 -> b2z (z2b z) = z.
Proof. intros H. rewrite b2z_z2b. by apply Z.mod_small. Qed.

Lemma b2n_n2b n : (n < 256)%nat -> b2n (n2b n) = n.
Proof.
  intros Hn. apply Nat2Z.inj. rewrite b2n_b2z. unfold n2b.
  rewrite b2z_z2b_small; lia.
Qed.

Lemma n2b_b2n b : n2b (b2n b) = b.
Proof. by destruct b. Qed.

Lemma z2b_mod z : z2b (z mod 256) = z2b z.
Proof. apply b2z_inj. rewrite !b2z_z2b. by rewrite Z.mod_mod by lia. Qed.

Lemma be16_range hi lo : is_u16 (be16 hi lo).
Proof. unfold is_u16, be16. pose proof (b2z_range hi). pose proof (b2z_range lo). lia. Qed.

Lemma be32_range a b c d : is_u32 (be32 a b c d).
Proof.
  unfold is_u32, be32. pose proof (b2z_range a). pose proof (b2z_range b).
  pose proof (b2z_range c). pose proof (b2z_range d). lia.
Qed.

Lemma to_be16_be16 hi lo : to_be16 (be16 hi lo) = [hi; lo].
Proof.
  unfold to_be16, be16. pose proof (b2z_range hi). pose proof (b2z_range lo).
  rewrite Z.div_add_l, (Z.div_small (b2z lo)), Z.add_0_r, z2b_b2z by lia.
  rewrite <- z2b_mod, Z.add_comm, Z.mod_add, Z.mod_small, z2b_b2z by lia. done.
Qed.

Lemma to_be32_be32 a b c d : to_be32 (be32 a b c d) = [a; b; c; d].
Proof.
  unfold to_be32, be32. pose proof (b2z_range a). pose proof (b2z_range b).
  pose proof (b2z_range c). pose proof (b2z_range d).
  repeat f_equal; apply b2z_inj; rewrite b2z_z2b; Z.div_mod_to_equations; lia.
Qed.

Lemma be16_to_be16 w : is_u16 w -> be16 (z2b (w / 256)) (z2b w) = w.
Proof.
  unfold is_u16, be16. intros Hw. rewrite !b2z_z2b.
  Z.div_mod_to_equations. lia.
Qed.

Lemma be32_to_be32 w :
  is_u32 w ->
  be32 (z2b (w / 16777216)) (z2b (w / 65536)) (z2b (w / 256)) (z2b w) = w.
Proof.
  unfold is_u32, be32. intros Hw. rewrite !b2z_z2b.
  Z.div_mod_to_equations. lia.
Qed.

Lemma length_to_be16 w : length (to_be16 w) = 2%nat.
Proof. done. Qed.
Lemma length_to_be32 w : length (to_be32 w) = 4%nat.
Proof. done. Qed.
End bytes.

(** ** Slices

    [slice w a b] is [w.get(a..b)]; [index] and [index_range] are [w[i]] and
    [w[a..b]], which panic out of range; [copy_at w a bs] is
    [w[a..a + bs.len()].copy_from_slice(&bs)]. *)

Definition slice {A} (w : list A) (a b : nat) : option (list A) :=
  if (a <=? b) && (b <=? length w) then Some (take (b - a) (drop a w)) else None.

Definition index {E A} (w : list A) (i : nat) : outcome E A := or_panic (w !! i).
Definition index_range {E A} (w : list A) (a b : nat) : outcome E (list A) :=
  or_panic (slice w a b).
Definition copy_at {E A} (w : list A) (a : nat) (bs : list A) : outcome E (list A) :=
  if a + length bs <=? length w
  then Ok (take a w ++ bs ++ drop (a + length bs) w) else Panic.

(** [u16::from_be_bytes(\[w\[i\], w\[i + 1\]\])]: both bytes are indexed. *)
Definition u16_at {E} (w : list byte) (i : nat) : outcome E Z :=
  let* hi := index w i in
  let* lo := index w (i + 1) in
  Ok (be16 hi lo).

Lemma add_sub_left (a b : nat) : a + b - a = b.
Proof. lia. Qed.

Create HintDb lengths.
#[export] Hint Rewrite @length_app @length_take @length_drop @length_fmap
  @length_reverse @length_replicate @length_cons @length_nil
  length_to_be16 length_to_be32 : lengths.

(** [len]: closes arithmetic goals about the lengths of built lists. *)
Ltac len := simpl; autorewrite with lengths in *; simpl in *; lia.

(** [bool_to_prop]: boolean comparisons in hypotheses become propositions. *)
Ltac bool_to_prop :=
  repeat match goal with
  | H : andb _ _ = true |- _ => apply andb_prop in H; destruct H
  | H : orb _ _ = false |- _ => apply orb_false_elim in H; destruct H
  | H : negb _ = true |- _ => apply negb_true_iff in H
  | H : negb _ = false |- _ => apply negb_false_iff in H
  | H : bool_decide _ = true |- _ => apply bool_decide_eq_true in H
  | H : bool_decide _ = false |- _ => apply bool_decide_eq_false in H
  | H : Nat.leb _ _ = true |- _ => apply Nat.leb_le in H
  | H : Nat.leb _ _ = false |- _ => apply Nat.leb_gt in H
  | H : Nat.ltb _ _ = true |- _ => apply Nat.ltb_lt in H
  | H : Nat.ltb _ _ = false |- _ => apply Nat.ltb_ge in H
  | H : Nat.eqb _ _ = true |- _ => apply Nat.eqb_eq in H
  | H : Nat.eqb _ _ = false |- _ => apply Nat.eqb_neq in H
  | H : Z.leb _ _ = true |- _ => apply Z.leb_le in H
  | H : Z.leb _ _ = false |- _ => apply Z.leb_gt in H
  | H : Z.ltb _ _ = true |- _ => apply Z.ltb_lt in H
  | H : Z.ltb _ _ = false |- _ => apply Z.ltb_ge in H
  | H : Z.eqb _ _ = true |- _ => apply Z.eqb_eq in H
  | H : Z.eqb _ _ = false |- _ => apply Z.eqb_neq in H
  | H : u8_eqb _ _ = true |- _ => apply bool_decide_eq_true in H
  | H : u8_eqb _ _ = false |- _ => apply bool_decide_eq_false in H
  end.

(** [inv_ok]: takes apart every hypothesis saying that a block returned [Ok]. *)
Ltac inv_ok :=
  repeat first
  [ progress simplify_eq
  | match goal with
    | H : obind _ _ = Ok _ |- _ => apply obind_Ok in H; destruct H as (? & ? & H)
    | H : ok_or _ _ = Ok _ |- _ => apply ok_or_Ok in H
    | H : or_panic _ = Ok _ |- _ => apply or_panic_Ok in H
    | H : index _ _ = Ok _ |- _ => apply or_panic_Ok in H
    | H : index_range _ _ _ = Ok _ |- _ => apply or_panic_Ok in H
    | H : map_err _ _ = Ok _ |- _ => apply map_err_Ok in H
    | H : (if ?c then _ else _) = Ok _ |- _ => destruct c eqn:?
    | H : (let (_, _) := ?p in _) = Ok _ |- _ => destruct p
    end ].

Section slices.
Context {A : Type}.
Implicit Types (w s : list A) (a b : nat).

Lemma slice_Some w a b s :
  slice w a b = Some s <-> a <= b <= length w /\ s = take (b - a) (drop a w).
Proof.
  unfold slice. destruct (_ && _) eqn:H; bool_to_prop.
  - naive_solver.
  - apply andb_false_iff in H as [H|H]; bool_to_prop; split; naive_solver lia.
Qed.

Lemma slice_None w a b : slice w a b = None <-> b < a \/ length w < b.
Proof.
  destruct (slice w a b) as [s|] eqn:H.
  - apply slice_Some in H as [??]. split; [done|lia].
  - split; [|done]. intros _.
    destruct (decide (a <= b <= length w)) as [Hd|Hd]; [|lia].
    assert (slice w a b = Some (take (b - a) (drop a w))) by by apply slice_Some.
    congruence.
Qed.

Lemma slice_length w a b s : slice w a b = Some s -> length s = b - a.
Proof. intros [? ->]%slice_Some. rewrite length_take, length_drop. lia. Qed.

Lemma slice_bounds w a b s : slice w a b = Some s -> a <= b <= length w.
Proof. by intros [? _]%slice_Some. Qed.

Lemma slice_is_Some w a b : a <= b <= length w -> exists s, slice w a b = Some s.
Proof. intros H. exists (take (b - a) (drop a w)). by apply slice_Some. Qed.

Lemma slice_app_r w w' a b s : slice w a b = Some s -> slice (w ++ w') a b = Some s.
Proof.
  intros [? ->]%slice_Some. apply slice_Some. rewrite length_app. split; [lia|].
  rewrite drop_app_le by lia. rewrite take_app_le by len. done.
Qed.

Lemma slice_mid (p s q : list A) :
  slice (p ++ s ++ q) (length p) (length p + length s) = Some s.
Proof.
  apply slice_Some. rewrite !length_app. split; [lia|].
  rewrite drop_app_length, Nat.add_comm, Nat.add_sub, take_app_length. done.
Qed.

Lemma slice_mid' (p s q : list A) a b :
  a = length p -> b = a + length s -> slice (p ++ s ++ q) a b = Some s.
Proof. intros -> ->. apply slice_mid. Qed.

Lemma slice_split w a b s :
  slice w a b = Some s -> w = take a w ++ s ++ drop b w.
Proof.
  intros [? ->]%slice_Some. rewrite <- (take_drop a w) at 1. f_equal.
  rewrite <- (take_drop (b - a) (drop a w)) at 1. f_equal.
  rewrite drop_drop. f_equal. lia.
Qed.

Lemma slice_lookup w a b s i :
  slice w a b = Some s -> i < b - a -> s !! i = w !! (a + i).
Proof.
  intros [? ->]%slice_Some Hi. rewrite lookup_take_lt by lia. apply lookup_drop.
Qed.

Lemma copy_at_length {E} w a bs w' : copy_at (E:=E) w a bs = Ok w' -> length w' = length w.
Proof. unfold copy_at. intros H. inv_ok. bool_to_prop. len. Qed.

Lemma copy_at_mid {E} (p old new q : list A) i :
  i = length p -> length old = length new ->
  copy_at (E:=E) (p ++ old ++ q) i new = Ok (p ++ new ++ q).
Proof.
  intros -> Hl. unfold copy_at. rewrite !length_app, (proj2 (Nat.leb_le _ _)) by lia.
  rewrite take_app_length. rewrite <- Hl, drop_app_add, drop_app_length. done.
Qed.

Lemma slice_full w : slice w 0 (length w) = Some w.
Proof. apply slice_Some. split; [lia|]. by rewrite Nat.sub_0_r, drop_0, firstn_all. Qed.

Lemma lookup_mid (p q : list A) (x : A) : (p ++ x :: q) !! length p = Some x.
Proof. rewrite lookup_app_r, Nat.sub_diag by lia. done. Qed.
End slices.

Section wp_access.
Context {E A : Type}.
Implicit Types (w : list A).

Lemma wp_index w i (P : A -> Prop) :
  i < length w -> (forall x, w !! i = Some x -> P x) -> wp (index (E:=E) w i) P.
Proof.
  intros [x Hx]%lookup_lt_is_Some HP. apply wp_or_panic. eauto.
Qed.

Lemma wp_index_range w a b (P : list A -> Prop) :
  a <= b <= length w -> (forall s, slice w a b = Some s -> P s) ->
  wp (index_range (E:=E) w a b) P.
Proof. intros [s Hs]%slice_is_Some HP. apply wp_or_panic. eauto. Qed.

Lemma wp_copy_at w a bs (P : list A -> Prop) :
  a + length bs <= length w ->
  P (take a w ++ bs ++ drop (a + length bs) w) -> wp (copy_at (E:=E) w a bs) P.
Proof. intros Hl HP. unfold copy_at. apply Nat.leb_le in Hl. by rewrite Hl. Qed.

Lemma wp_usize_sub a b (P : nat -> Prop) :
  b <= a -> P (a - b) -> wp (usize_sub (E:=E) a b) P.
Proof. intros Hl HP. unfold usize_sub. apply Nat.leb_le in Hl. by rewrite Hl. Qed.
End wp_access.

Section u16_at.
Context {E : Type}.

Lemma u16_at_Ok w i v :
  u16_at (E:=E) w i = Ok v <-> is_u16 v /\ slice w i (i + 2) = Some (to_be16 v).
Proof.
  unfold u16_at. split.
  - intros H. inv_ok.
    match goal with H1 : w !! i = Some ?a, H2 : w !! (i + 1) = Some ?b |- _ =>
      apply lookup_lt_Some in H1 as L1; apply lookup_lt_Some in H2 as L2 end.
    split; [apply be16_range|]. apply slice_Some. split; [lia|].
    rewrite to_be16_be16. replace (i + 2 - i) with 2 by lia.
    erewrite drop_S by done. replace (S i) with (i + 1) by lia.
    by erewrite drop_S by done.
  - intros [Hv Hs].
    pose proof (slice_lookup _ _ _ _ 0 Hs ltac:(lia)) as H0.
    pose proof (slice_lookup _ _ _ _ 1 Hs ltac:(lia)) as H1.
    rewrite Nat.add_0_r in H0. unfold index. rewrite <- H0, <- H1. simpl.
    by rewrite be16_to_be16.
Qed.

Lemma wp_u16_at w i (P : Z -> Prop) :
  i + 2 <= length w ->
  (forall v, is_u16 v -> slice w i (i + 2) = Some (to_be16 v) -> P v) ->
  wp (u16_at (E:=E) w i) P.
Proof.
  intros Hl HP. destruct (u16_at (E:=E) w i) as [v|e| |] eqn:H; simpl; try done.
  - apply u16_at_Ok in H as [??]. auto.
  - exfalso. unfold u16_at, index in H.
    destruct (lookup_lt_is_Some_2 w i) as [? Hx]; [lia|]. rewrite Hx in H.
    destruct (lookup_lt_is_Some_2 w (i + 1)) as [? Hy]; [lia|]. by rewrite Hy in H.
  - exfalso. unfold u16_at, index in H.
    destruct (lookup_lt_is_Some_2 w i) as [? Hx]; [lia|]. rewrite Hx in H.
    destruct (lookup_lt_is_Some_2 w (i + 1)) as [? Hy]; [lia|]. by rewrite Hy in H.
Qed.

Lemma u16_at_mid pre v post i :
  i = length pre -> is_u16 v -> u16_at (E:=E) (pre ++ to_be16 v ++ post) i = Ok v.
Proof. intros -> Hv. apply u16_at_Ok. split; [done|]. by apply slice_mid'. Qed.
End u16_at.

(** Two bytes are the encoding of a [u16]. *)
Lemma two_bytes_u16 (s : list byte) :
  length s = 2 -> exists v, is_u16 v /\ s = to_be16 v.
Proof.
  destruct s as [|a [|b [|]]]; intros H; simplify_eq/=.
  exists (be16 a b). split; [apply be16_range|by rewrite to_be16_be16].
Qed.

(** ** Ranges of bitwise operations *)

Section bitwise.
Local Open Scope Z_scope.

Lemma is_u16_land_ones z : is_u16 z <-> z = Z.land z 65535.
Proof.
  unfold is_u16. change 65535 with (Z.ones 16). rewrite Z.land_ones by lia.
  change (2 ^ 16) with 65536. split.
  - intros H. by rewrite Z.mod_small.
  - intros ->. apply Z.mod_pos_bound. lia.
Qed.

Lemma is_u16_lor a b : is_u16 a -> is_u16 b -> is_u16 (Z.lor a b).
Proof.
  rewrite !is_u16_land_ones. intros Ha Hb. by rewrite Z.land_lor_distr_l, <- Ha, <- Hb.
Qed.

Lemma is_u16_land a b : is_u16 a -> is_u16 (Z.land a b).
Proof.
  rewrite !is_u16_land_ones. intros Ha.
  by rewrite <- Z.land_assoc, (Z.land_comm b), Z.land_assoc, <- Ha.
Qed.

Lemma is_u16_const z : ((0 <=? z) && (z <? 65536))%bool = true -> is_u16 z.
Proof. unfold is_u16. lia. Qed.
End bitwise.
