(* ===== verification/Types.v ===== *)
(** * DNS field values and structural errors

    [src/src/dns/types.rs] and the error enumeration of
    [src/src/dns/error.rs]; the protocol sizes of [src/src/dns.rs].  Every
    enumeration keeps the constructors of the source, with the numeric code of
    an unrecognised value inside [Unknown]. *)

From S2P Require Import Prelude.

(** ** Sizes of the protocol ([src/src/dns.rs]) *)

Definition HEADER_LENGTH : nat := 12.
Definition MAX_MESSAGE_LENGTH : Z := 65535.
Definition CLASSIC_UDP_LENGTH : Z := 512.
Definition SERVER_UDP_LENGTH : Z := 1232.

(** ** Field values ([src/src/dns/types.rs]) *)

(** [TransactionId(u16)] is its number. *)
Notation TransactionId := Z (only parsing).

Inductive MessageType := MtQuery | MtResponse.
#[export] Instance MessageType_eq_dec : EqDecision MessageType.
Proof. solve_decision. Defined.

Inductive Opcode :=
| OpQuery | OpIQuery | OpStatus | OpNotify | OpUpdate | OpUnknown (n : Z).
#[export] Instance Opcode_eq_dec : EqDecision Opcode.
Proof. solve_decision. Defined.

Definition opcode_from_wire (value : Z) : Opcode :=
  match value with
  | 0 => OpQuery
  | 1 => OpIQuery
  | 2 => OpStatus
  | 4 => OpNotify
  | 5 => OpUpdate
  | n => OpUnknown n
  end%Z.

Inductive ResponseCode :=
| NoError | FormatError | ServerFailure | NameError | NotImplemented
| RcRefused | BadVersion | BadCookie | RcUnknown (n : Z).
#[export] Instance ResponseCode_eq_dec : EqDecision ResponseCode.
Proof. solve_decision. Defined.

Definition rcode_from_wire (value : Z) : ResponseCode :=
  match value with
  | 0 => NoError
  | 1 => FormatError
  | 2 => ServerFailure
  | 3 => NameError
  | 4 => NotImplemented
  | 5 => RcRefused
  | 16 => BadVersion
  | 23 => BadCookie
  | n => RcUnknown n
  end%Z.

Definition rcode_wire (c : ResponseCode) : Z :=
  match c with
  | NoError => 0
  | FormatError => 1
  | ServerFailure => 2
  | NameError => 3
  | NotImplemented => 4
  | RcRefused => 5
  | BadVersion => 16
  | BadCookie => 23
  | RcUnknown n => n
  end%Z.

(** [HeaderResponseCode(u8)]: a code that fits the header's four bits. *)
Record HeaderResponseCode := HeaderRcode { header_rcode : Z }.
Definition HRC_FORMAT_ERROR : HeaderResponseCode := HeaderRcode 1.
Definition as_response (c : HeaderResponseCode) : ResponseCode :=
  rcode_from_wire (header_rcode c).

Inductive RecordType :=
| TA | TNs | TCname | TSoa | TPtr | TMx | TTxt | TAaaa | TSrv | TOpt | TSig
| TTkey | TTsig | TIxfr | TAxfr | TAny | TUnknown (n : Z).
#[export] Instance RecordType_eq_dec : EqDecision RecordType.
Proof. solve_decision. Defined.

Definition rtype_from_wire (value : Z) : RecordType :=
  match value with
  | 1 => TA
  | 2 => TNs
  | 5 => TCname
  | 6 => TSoa
  | 12 => TPtr
  | 15 => TMx
  | 16 => TTxt
  | 24 => TSig
  | 28 => TAaaa
  | 33 => TSrv
  | 41 => TOpt
  | 249 => TTkey
  | 250 => TTsig
  | 251 => TIxfr
  | 252 => TAxfr
  | 255 => TAny
  | n => TUnknown n
  end%Z.

Definition rtype_wire (t : RecordType) : Z :=
  match t with
  | TA => 1
  | TNs => 2
  | TCname => 5
  | TSoa => 6
  | TPtr => 12
  | TMx => 15
  | TTxt => 16
  | TSig => 24
  | TAaaa => 28
  | TSrv => 33
  | TOpt => 41
  | TTkey => 249
  | TTsig => 250
  | TIxfr => 251
  | TAxfr => 252
  | TAny => 255
  | TUnknown n => n
  end%Z.

Inductive RecordClass := CIn | CCh | CHs | CUnknown (n : Z).
#[export] Instance RecordClass_eq_dec : EqDecision RecordClass.
Proof. solve_decision. Defined.

Definition rclass_from_wire (value : Z) : RecordClass :=
  match value with
  | 1 => CIn
  | 3 => CCh
  | 4 => CHs
  | n => CUnknown n
  end%Z.

Definition rclass_wire (c : RecordClass) : Z :=
  match c with
  | CIn => 1
  | CCh => 3
  | CHs => 4
  | CUnknown n => n
  end%Z.

(** ** Structural errors ([src/src/dns/error.rs]) *)

Inductive ParseError :=
| UnexpectedEnd | OversizedMessage | InvalidLabel | NameTooLong
| InvalidPointer | CompressionLoop | CompressionDepth | InvalidCount
| InvalidRecord | InvalidEdns | TrailingData.
#[export] Instance ParseError_eq_dec : EqDecision ParseError.
Proof. solve_decision. Defined.

(** ** Lemmas *)

(** [wire_code_cases]: an equation between a number and a decoded constructor
    is settled by going through the bits of the number. *)
Ltac wire_code_cases :=
  repeat match goal with
  | |- context [match ?z with Z0 => _ | Zpos _ => _ | Zneg _ => _ end] => is_var z; destruct z
  | |- context [match ?p with xH => _ | xO _ => _ | xI _ => _ end] => is_var p; destruct p
  end; simpl; try done.

Lemma rcode_wire_from_wire n : rcode_wire (rcode_from_wire n) = n.
Proof. unfold rcode_from_wire. wire_code_cases. Qed.

Lemma rtype_wire_from_wire n : rtype_wire (rtype_from_wire n) = n.
Proof. unfold rtype_from_wire. wire_code_cases. Qed.

Lemma rclass_wire_from_wire n : rclass_wire (rclass_from_wire n) = n.
Proof. unfold rclass_from_wire. wire_code_cases. Qed.

(** A value is canonical when it is the decoding of its own code: [Unknown]
    never carries a recognised code. *)
Definition rcode_canonical (c : ResponseCode) : Prop := rcode_from_wire (rcode_wire c) = c.
Definition rtype_canonical (t : RecordType) : Prop := rtype_from_wire (rtype_wire t) = t.
Definition rclass_canonical (c : RecordClass) : Prop := rclass_from_wire (rclass_wire c) = c.

Lemma rcode_from_wire_canonical n : rcode_canonical (rcode_from_wire n).
Proof. unfold rcode_canonical. by rewrite rcode_wire_from_wire. Qed.
Lemma rtype_from_wire_canonical n : rtype_canonical (rtype_from_wire n).
Proof. unfold rtype_canonical. by rewrite rtype_wire_from_wire. Qed.
Lemma rclass_from_wire_canonical n : rclass_canonical (rclass_from_wire n).
Proof. unfold rclass_canonical. by rewrite rclass_wire_from_wire. Qed.

Lemma rcode_from_wire_inj m n : rcode_from_wire m = rcode_from_wire n -> m = n.
Proof. intros H. by rewrite <- (rcode_wire_from_wire m), H, rcode_wire_from_wire. Qed.
Lemma rtype_from_wire_inj m n : rtype_from_wire m = rtype_from_wire n -> m = n.
Proof. intros H. by rewrite <- (rtype_wire_from_wire m), H, rtype_wire_from_wire. Qed.

#[export] Hint Resolve rcode_from_wire_canonical rtype_from_wire_canonical
  rclass_from_wire_canonical : core.
