(* ===== verification/Name.v ===== *)
(** * Domain names

    [src/src/dns/name.rs]: bounded decoding of possibly compressed names,
    case-insensitive comparison by complete labels, the configuration syntax
    and the presentation format. *)

From S2P Require Import Prelude Types.

Definition MAX_LABEL_LENGTH : nat := 63.
Definition MAX_NAME_LENGTH : nat := 255.
Definition POINTER_TAG : byte := xc0.
Definition LABEL_TAG_MASK : byte := xc0.
Definition POINTER_OFFSET_MASK : byte := x3f.
Definition MAX_POINTERS : nat := 128.

(** [struct DomainName(Vec<Vec<u8>>)]. *)
Record DomainName := MkName { labels : list (list byte) }.

(** ** Comparison *)

(** [<[u8]>::eq_ignore_ascii_case]. *)
Definition eq_ignore_ascii_case (a b : list byte) : bool :=
  bool_decide (to_ascii_lowercase <$> a = to_ascii_lowercase <$> b).

Definition label_count (n : DomainName) : nat := length (labels n).

Definition is_subdomain_of (self suffix : DomainName) : bool :=
  (length (labels suffix) <=? length (labels self))
  && forallb (fun '(a, b) => eq_ignore_ascii_case a b)
       (zip (reverse (labels self)) (reverse (labels suffix))).

(** [impl PartialEq for DomainName]. *)
Definition name_eqb (self other : DomainName) : bool :=
  (length (labels self) =? length (labels other)) && is_subdomain_of self other.

(** ** Decoding

    One iteration of the [loop] per unit of fuel.  [visited] is the filled
    part [visited\[..hops\]] of the array, so [hops] is its length.  The result
    carries the caller's cursor as the code leaves it. *)

Fixpoint decode_loop (fuel : nat) (wire : list byte) (cursor position : nat)
    (jumped : bool) (expanded : nat) (visited : list nat) (acc : list (list byte))
    : outcome ParseError (DomainName * nat) :=
  match fuel with
  | O => Diverge
  | S fuel =>
    let* head := ok_or (wire !! position) UnexpectedEnd in
    let tag := u8_and head LABEL_TAG_MASK in
    if u8_eqb tag POINTER_TAG then
      let* tail := ok_or (wire !! (position + 1)) UnexpectedEnd in
      let target := Z.to_nat (be16 (u8_and head POINTER_OFFSET_MASK) tail) in
      if bool_decide (target ∈ visited) then Err CompressionLoop
      else if (target <? HEADER_LENGTH) || (position <=? target) then Err InvalidPointer
      else if length visited =? MAX_POINTERS then Err CompressionDepth
      else
        let cursor := if jumped then cursor else position + 2 in
        decode_loop fuel wire cursor target true expanded (visited ++ [target]) acc
    else if u8_eqb tag x00 then
      let position := position + 1 in
      if u8_eqb head x00 then
        Ok (MkName acc, if jumped then cursor else position)
      else
        let len := b2n head in
        let expanded := expanded + (len + 1) in
        if MAX_NAME_LENGTH <? expanded then Err NameTooLong
        else
          let* label := ok_or (slice wire position (position + len)) UnexpectedEnd in
          decode_loop fuel wire cursor (position + len) jumped expanded visited (acc ++ [label])
    else Err InvalidLabel
  end.

Arguments decode_loop : simpl never.

(** Every iteration that continues either records a pointer, of which at most
    [MAX_POINTERS] are accepted, or adds at least two to [expanded], which
    stays at most [MAX_NAME_LENGTH]. *)
Definition DECODE_FUEL : nat := 384.

(** [DomainName::decode(wire, &mut cursor)]. *)
Definition name_decode (wire : list byte) (cursor : nat)
    : outcome ParseError (DomainName * nat) :=
  decode_loop DECODE_FUEL wire cursor cursor false 1 [] [].

(** [DomainName::encode]. *)
Definition name_encode (n : DomainName) : list byte :=
  concat ((fun label => n2b (length label) :: label) <$> labels n) ++ [x00].

(** ** Configuration syntax ([impl FromStr for DomainName]) *)

(** [str::split('.')]; the text is its UTF-8 bytes. *)
Fixpoint split_dot (text : list byte) : list (list byte) :=
  match text with
  | [] => [[]]
  | c :: text =>
    if u8_eqb c x2e then [] :: split_dot text
    else match split_dot text with
         | part :: parts => (c :: part) :: parts
         | [] => [[c]]
         end
  end.

(** [str::strip_suffix('.')]. *)
Definition strip_suffix_dot (text : list byte) : option (list byte) :=
  match reverse text with
  | c :: rest => if u8_eqb c x2e then Some (reverse rest) else None
  | [] => None
  end.

Definition is_config_byte (b : byte) : bool :=
  is_ascii_alphanumeric b || u8_eqb b x2d || u8_eqb b x5f.

Fixpoint from_str_loop (parts : list (list byte)) (acc : list (list byte)) (len : nat)
    : outcome ParseError DomainName :=
  match parts with
  | [] => Ok (MkName acc)
  | label :: parts =>
    if (length label =? 0) || (MAX_LABEL_LENGTH <? length label)
       || negb (forallb is_config_byte label)
    then Err InvalidLabel
    else
      let len := len + (length label + 1) in
      if MAX_NAME_LENGTH <? len then Err NameTooLong
      else from_str_loop parts (acc ++ [label]) len
  end.

Definition name_from_str (text : list byte) : outcome ParseError DomainName :=
  if bool_decide (text = [x2e]) then Ok (MkName [])
  else
    let text := default text (strip_suffix_dot text) in
    from_str_loop (split_dot text) [] 1.

(** ** Presentation format ([impl Display for DomainName]) *)

(** [{byte:03}]. *)
Definition decimal3 (b : byte) : list byte :=
  [z2b (48 + b2z b / 100); z2b (48 + b2z b / 10 mod 10); z2b (48 + b2z b mod 10)].

Definition display_byte (b : byte) : list byte :=
  if is_config_byte b then [b] else x5c :: decimal3 b.

Definition name_display (n : DomainName) : list byte :=
  if length (labels n) =? 0 then [x2e]
  else concat ((fun label => concat (display_byte <$> label) ++ [x2e]) <$> labels n).

(** ** Well-formed names and the grammar of encoded names *)

Definition wire_size (ls : list (list byte)) : nat :=
  sum_list ((fun l => length l + 1) <$> ls).

Lemma wire_size_nil : wire_size [] = 0.
Proof. done. Qed.
Lemma wire_size_cons l ls : wire_size (l :: ls) = length l + 1 + wire_size ls.
Proof. done. Qed.

Definition label_wf (l : list byte) : Prop := 1 <= length l <= MAX_LABEL_LENGTH.

Definition name_wf (n : DomainName) : Prop :=
  Forall label_wf (labels n) /\ wire_size (labels n) + 1 <= MAX_NAME_LENGTH.

(** [name_at wire p hops ls e]: by RFC 1035 section 4.1.4, the bytes at [p]
    denote the labels [ls] through [hops] compression pointers, and the encoded
    name physically ends before [e].  A pointer refers to a prior occurrence
    that is not inside the header. *)
Inductive name_at (wire : list byte) : nat -> nat -> list (list byte) -> nat -> Prop :=
| name_at_root p :
    wire !! p = Some x00 -> name_at wire p 0 [] (p + 1)
| name_at_label p head l rest hops e :
    wire !! p = Some head -> 1 <= b2n head <= MAX_LABEL_LENGTH ->
    slice wire (p + 1) (p + 1 + b2n head) = Some l ->
    name_at wire (p + 1 + b2n head) hops rest e ->
    name_at wire p hops (l :: rest) e
| name_at_pointer p head tail target hops ls e :
    wire !! p = Some head -> wire !! (p + 1) = Some tail -> 192 <= b2n head ->
    target = (b2n head - 192) * 256 + b2n tail ->
    HEADER_LENGTH <= target < p ->
    name_at wire target hops ls e ->
    name_at wire p (S hops) ls (p + 2).

(** ** Byte classes *)

Lemma tag_is_pointer head :
  u8_eqb (u8_and head LABEL_TAG_MASK) POINTER_TAG = (192 <=? b2n head).
Proof.
  apply eqb_prop.
  byte_compute (fun head =>
    Bool.eqb (u8_eqb (u8_and head LABEL_TAG_MASK) POINTER_TAG) (192 <=? b2n head)).
Qed.

Lemma tag_is_label head :
  u8_eqb (u8_and head LABEL_TAG_MASK) x00 = (b2n head <=? MAX_LABEL_LENGTH).
Proof.
  apply eqb_prop.
  byte_compute (fun head =>
    Bool.eqb (u8_eqb (u8_and head LABEL_TAG_MASK) x00) (b2n head <=? MAX_LABEL_LENGTH)).
Qed.

Lemma pointer_offset head :
  192 <= b2n head -> b2n (u8_and head POINTER_OFFSET_MASK) = b2n head - 192.
Proof.
  intros H.
  assert ((if 192 <=? b2n head
           then b2n (u8_and head POINTER_OFFSET_MASK) =? b2n head - 192 else true) = true)
    as Hc by byte_compute (fun head => if 192 <=? b2n head
           then b2n (u8_and head POINTER_OFFSET_MASK) =? b2n head - 192 else true).
  apply Nat.leb_le in H. rewrite H in Hc. by apply Nat.eqb_eq.
Qed.

Lemma u8_eqb_zero head : u8_eqb head x00 = (b2n head =? 0).
Proof. apply eqb_prop. byte_compute (fun h => Bool.eqb (u8_eqb h x00) (b2n h =? 0)). Qed.

Lemma b2n_zero head : b2n head = 0 -> head = x00.
Proof. intros H. rewrite <- (n2b_b2n head), H. done. Qed.

Lemma pointer_target head tail :
  192 <= b2n head ->
  Z.to_nat (be16 (u8_and head POINTER_OFFSET_MASK) tail)
  = (b2n head - 192) * 256 + b2n tail.
Proof.
  intros H. unfold be16. rewrite <- (pointer_offset head H).
  rewrite <- !b2n_b2z. lia.
Qed.

(** ** One step of the loop

    [decode_step] folds the loop's tests into the three shapes of an encoded
    name; every fact about [decode_loop] goes through it. *)
Section decode_step.
Context (wire : list byte).

Lemma decode_loop_S fuel cursor p jumped expanded visited acc :
  decode_loop (S fuel) wire cursor p jumped expanded visited acc =
  match wire !! p with
  | None => Err UnexpectedEnd
  | Some head =>
    if 192 <=? b2n head then
      match wire !! (p + 1) with
      | None => Err UnexpectedEnd
      | Some tail =>
        let target := (b2n head - 192) * 256 + b2n tail in
        if bool_decide (target ∈ visited) then Err CompressionLoop
        else if (target <? HEADER_LENGTH) || (p <=? target) then Err InvalidPointer
        else if length visited =? MAX_POINTERS then Err CompressionDepth
        else decode_loop fuel wire (if jumped then cursor else p + 2) target true
               expanded (visited ++ [target]) acc
      end
    else if b2n head <=? MAX_LABEL_LENGTH then
      if b2n head =? 0 then Ok (MkName acc, if jumped then cursor else p + 1)
      else if MAX_NAME_LENGTH <? expanded + (b2n head + 1) then Err NameTooLong
      else
        match slice wire (p + 1) (p + 1 + b2n head) with
        | None => Err UnexpectedEnd
        | Some l =>
          decode_loop fuel wire cursor (p + 1 + b2n head) jumped
            (expanded + (b2n head + 1)) visited (acc ++ [l])
        end
    else Err InvalidLabel
  end.
Proof.
  unfold decode_loop; fold decode_loop. destruct (wire !! p) as [head|]; [|done]. cbn [ok_or obind].
  rewrite tag_is_pointer, tag_is_label, u8_eqb_zero.
  destruct (192 <=? b2n head) eqn:Hp.
  - destruct (wire !! (p + 1)) as [tail|]; [|done]. cbn [ok_or obind].
    rewrite pointer_target by by apply Nat.leb_le. done.
  - destruct (b2n head <=? MAX_LABEL_LENGTH); [|done].
    destruct (b2n head =? 0); [done|].
    destruct (MAX_NAME_LENGTH <? _); [done|].
    by destruct (slice wire (p + 1) _).
Qed.
End decode_step.

(** ** Decoding follows the grammar *)

Section decode_sound.
Context (wire : list byte).

Lemma decode_loop_sound fuel cursor p jumped expanded visited acc n c :
  expanded <= MAX_NAME_LENGTH -> length visited <= MAX_POINTERS ->
  decode_loop fuel wire cursor p jumped expanded visited acc = Ok (n, c) ->
  exists hops ls e,
    name_at wire p hops ls e /\ labels n = acc ++ ls
    /\ c = (if jumped then cursor else e)
    /\ length visited + hops <= MAX_POINTERS
    /\ expanded + wire_size ls <= MAX_NAME_LENGTH.
Proof.
  revert cursor p jumped expanded visited acc.
  induction fuel as [|fuel IH]; intros cursor p jumped expanded visited acc He Hv H;
    [done|].
  rewrite decode_loop_S in H.
  destruct (wire !! p) as [head|] eqn:Hhead; [|done].
  destruct (192 <=? b2n head) eqn:Hptr; bool_to_prop.
  - destruct (wire !! (p + 1)) as [tail|] eqn:Htail; [|done]. cbn zeta in H.
    destruct (bool_decide _) eqn:?; [done|]. destruct (_ || _) eqn:Hb; [done|].
    destruct (length visited =? _) eqn:?; [done|]. bool_to_prop.
    apply IH in H as (hops & ls & e & Hn & Hl & Hc & Hh & Hs); [|lia|len].
    exists (S hops), ls, (p + 2). rewrite length_app in Hh. simpl in Hh.
    split_and!; try done; [|lia].
    eapply name_at_pointer; eauto.
  - destruct (b2n head <=? MAX_LABEL_LENGTH) eqn:?; [|done]. bool_to_prop.
    destruct (b2n head =? 0) eqn:?; bool_to_prop.
    + simplify_eq. exists 0, [], (p + 1).
      rewrite (b2n_zero head) in Hhead by done.
      split_and!; [by apply name_at_root | by rewrite app_nil_r | done | lia | rewrite wire_size_nil; lia].
    + destruct (MAX_NAME_LENGTH <? _) eqn:?; [done|]. bool_to_prop.
      destruct (slice wire _ _) as [l|] eqn:Hl; [|done].
      apply IH in H as (hops & ls & e & Hn & Hls & Hc & Hh & Hs); [|lia|lia].
      exists hops, (l :: ls), e.
      split_and!; [|by rewrite Hls, <- app_assoc | done | done |].
      * eapply name_at_label; eauto. lia.
      * apply slice_length in Hl. rewrite wire_size_cons. lia.
Qed.
End decode_sound.

(** The denotation of a position is unique. *)
Lemma name_at_det wire p h1 l1 e1 h2 l2 e2 :
  name_at wire p h1 l1 e1 -> name_at wire p h2 l2 e2 -> h1 = h2 /\ l1 = l2 /\ e1 = e2.
Proof.
  assert (b2n x00 = 0) as H0 by done. intros Hn1. revert h2 l2 e2.
  induction Hn1; intros h2 l2 e2 Hn2; inversion Hn2; simplify_eq;
    unfold MAX_LABEL_LENGTH in *; try lia; auto.
  all: edestruct IHHn1 as (-> & -> & ->); eauto.
Qed.

Lemma name_at_labels_wf wire p hops ls e :
  name_at wire p hops ls e -> Forall label_wf ls.
Proof.
  induction 1; [constructor| |done].
  constructor; [|done]. apply slice_length in H1. unfold label_wf. lia.
Qed.

Lemma name_at_bounds wire p hops ls e :
  name_at wire p hops ls e -> p < e <= length wire.
Proof.
  induction 1.
  - apply lookup_lt_Some in H. lia.
  - lia.
  - apply lookup_lt_Some in H, H0. lia.
Qed.

Lemma wire_size_length ls : Forall label_wf ls -> 2 * length ls <= wire_size ls.
Proof.
  unfold label_wf. induction 1; rewrite ?wire_size_cons; simpl; lia.
Qed.

Section decode_complete.
Context (wire : list byte).

(** Every visited target denotes a name through at least as many pointers as
    the current position, so a position about to be revisited would denote a
    name through two different numbers of pointers. *)
Definition visited_above (visited : list nat) (hops : nat) : Prop :=
  forall t, t ∈ visited -> exists h ls e, name_at wire t h ls e /\ hops <= h.

Lemma decode_loop_complete p hops ls e :
  name_at wire p hops ls e ->
  forall fuel cursor jumped expanded visited acc,
    hops + length ls < fuel ->
    length visited + hops <= MAX_POINTERS ->
    expanded + wire_size ls <= MAX_NAME_LENGTH ->
    visited_above visited hops ->
    decode_loop fuel wire cursor p jumped expanded visited acc
    = Ok (MkName (acc ++ ls), if jumped then cursor else e).
Proof.
  induction 1 as [p Hz|p head l rest hops e Hhead Hlen Hl Hn IH
                 |p head tail target hops ls e Hhead Htail Hp Ht Hlt Hn IH];
    intros fuel cursor jumped expanded visited acc Hf Hv Hs Hab;
    (destruct fuel as [|fuel]; [lia|]); rewrite decode_loop_S.
  - rewrite Hz. cbn. by rewrite app_nil_r.
  - rewrite Hhead. unfold MAX_LABEL_LENGTH in *.
    rewrite (proj2 (Nat.leb_gt 192 _)), (proj2 (Nat.leb_le _ 63)),
      (proj2 (Nat.eqb_neq _ 0)) by lia.
    pose proof (slice_length _ _ _ _ Hl).
    rewrite wire_size_cons in Hs. simpl in Hf.
    rewrite (proj2 (Nat.ltb_ge _ _)) by lia. rewrite Hl.
    rewrite IH by (try done; lia). by rewrite <- app_assoc.
  - rewrite Hhead, Htail, (proj2 (Nat.leb_le 192 _)) by lia.
    cbn zeta. rewrite <- Ht.
    rewrite bool_decide_eq_false_2.
    2: { intros Hin. destruct (Hab _ Hin) as (h & ls' & e' & Hn' & Hh).
         destruct (name_at_det _ _ _ _ _ _ _ _ Hn Hn') as [-> _]. lia. }
    rewrite (proj2 (Nat.ltb_ge _ _)), (proj2 (Nat.leb_gt _ _)) by lia. cbn [orb].
    rewrite (proj2 (Nat.eqb_neq _ _)) by lia.
    rewrite IH; [|lia|len|done|]; [by destruct jumped|].
    intros t [Ht'|Ht']%elem_of_app.
    + destruct (Hab _ Ht') as (h & ls' & e' & Hn' & Hh). exists h, ls', e'. split; [done|lia].
    + apply list_elem_of_singleton in Ht' as ->. eauto.
Qed.
End decode_complete.

(** With the fuel of [name_decode] the loop always comes to an end. *)
Lemma decode_loop_safe wire fuel cursor p jumped expanded visited acc :
  expanded <= MAX_NAME_LENGTH -> length visited <= MAX_POINTERS ->
  (MAX_NAME_LENGTH - expanded) + (MAX_POINTERS - length visited) < fuel ->
  safe (decode_loop fuel wire cursor p jumped expanded visited acc).
Proof.
  revert cursor p jumped expanded visited acc.
  induction fuel as [|fuel IH]; intros cursor p jumped expanded visited acc He Hv Hf; [lia|].
  rewrite decode_loop_S.
  destruct (wire !! p) as [head|]; [|done]. destruct (192 <=? b2n head).
  - destruct (wire !! (p + 1)); [|done]. cbn zeta. destruct (bool_decide _); [done|].
    destruct (_ || _); [done|]. destruct (_ =? _) eqn:?; [done|]. bool_to_prop.
    apply IH; len.
  - destruct (_ <=? _); [|done]. destruct (_ =? _); [done|].
    destruct (_ <? _) eqn:?; [done|]. destruct (slice _ _ _); [|done]. bool_to_prop.
    apply IH; lia.
Qed.

Lemma name_decode_safe wire cursor : safe (name_decode wire cursor).
Proof.
  apply decode_loop_safe; unfold MAX_NAME_LENGTH, MAX_POINTERS, DECODE_FUEL;
    cbn [length]; lia.
Qed.

Lemma name_decode_sound wire cursor n c :
  name_decode wire cursor = Ok (n, c) ->
  exists hops, name_at wire cursor hops (labels n) c /\ hops <= MAX_POINTERS
    /\ wire_size (labels n) + 1 <= MAX_NAME_LENGTH.
Proof.
  unfold name_decode. generalize DECODE_FUEL as fuel. intros fuel H.
  apply decode_loop_sound in H as (hops & ls & e & Hn & Hl & Hc & Hh & Hs);
    [|unfold MAX_NAME_LENGTH; lia|cbn [length]; lia].
  cbn [app length] in *. subst. exists hops. split_and!; [done|lia|lia].
Qed.

Lemma name_decode_complete wire cursor hops n c :
  name_at wire cursor hops (labels n) c -> hops <= MAX_POINTERS ->
  wire_size (labels n) + 1 <= MAX_NAME_LENGTH ->
  name_decode wire cursor = Ok (n, c).
Proof.
  intros Hn Hh Hs. destruct n as [ls]. cbn [labels] in *.
  pose proof (wire_size_length _ (name_at_labels_wf _ _ _ _ _ Hn)) as Hw.
  assert (hops + length ls < DECODE_FUEL) as Hf
    by (unfold MAX_POINTERS, MAX_NAME_LENGTH, DECODE_FUEL in *; lia).
  unfold name_decode. revert Hf. generalize DECODE_FUEL as fuel. intros fuel Hf.
  erewrite (decode_loop_complete wire cursor hops ls c Hn); [done|done|cbn [length]; lia|lia|].
  by intros t ?%not_elem_of_nil.
Qed.

(** ** Encoding *)

Lemma name_encode_nil : name_encode (MkName []) = [x00].
Proof. done. Qed.
Lemma name_encode_cons l ls :
  name_encode (MkName (l :: ls)) = n2b (length l) :: l ++ name_encode (MkName ls).
Proof. unfold name_encode. simpl. by rewrite <- app_assoc. Qed.

Lemma length_name_encode n : length (name_encode n) = wire_size (labels n) + 1.
Proof.
  destruct n as [ls]. induction ls as [|l ls IH]; [done|].
  rewrite name_encode_cons. simpl in *. rewrite length_app, IH, wire_size_cons. lia.
Qed.

Lemma name_encode_at pre n post :
  Forall label_wf (labels n) ->
  name_at (pre ++ name_encode n ++ post) (length pre) 0 (labels n)
    (length pre + length (name_encode n)).
Proof.
  destruct n as [ls]. simpl. intros Hwf. revert pre.
  induction Hwf as [|l ls Hl Hwf IH]; intros pre.
  - rewrite name_encode_nil. simpl. apply name_at_root, lookup_mid.
  - rewrite name_encode_cons. unfold label_wf, MAX_LABEL_LENGTH in Hl. simpl.
    rewrite <- (app_assoc l).
    eapply (name_at_label _ _ (n2b (length l)) l); rewrite ?b2n_n2b by lia; [apply lookup_mid|unfold MAX_LABEL_LENGTH; lia| |].
    + rewrite (cons_middle _ pre), app_assoc. apply slice_mid'; len.
    + specialize (IH (pre ++ n2b (length l) :: l)).
      rewrite <- (app_assoc pre), <- app_comm_cons in IH.
      rewrite length_app in IH. simpl in IH.
      replace (length pre + 1 + length l) with (length pre + S (length l)) by lia.
      rewrite length_app.
      replace (length pre + S (length l + length (name_encode (MkName ls))))
        with (length pre + S (length l) + length (name_encode (MkName ls))) by lia.
      exact IH.
Qed.

Lemma name_decode_encode_at pre n post :
  name_wf n ->
  name_decode (pre ++ name_encode n ++ post) (length pre)
  = Ok (n, length pre + length (name_encode n)).
Proof.
  intros [Hl Hs]. eapply name_decode_complete; [by apply name_encode_at|lia|done].
Qed.

Lemma name_decode_wf wire cursor n c :
  name_decode wire cursor = Ok (n, c) -> name_wf n /\ cursor < c <= length wire.
Proof.
  intros (hops & Hn & Hh & Hs)%name_decode_sound.
  split; [|by eapply name_at_bounds]. split; [by eapply name_at_labels_wf|done].
Qed.

(** ** Case-insensitive comparison *)

Definition lower_label (l : list byte) : list byte := to_ascii_lowercase <$> l.
Definition lower (n : DomainName) : list (list byte) :=
  lower_label <$> labels n.

Lemma eq_ignore_ascii_case_spec a b :
  eq_ignore_ascii_case a b = true <-> lower_label a = lower_label b.
Proof. apply bool_decide_eq_true. Qed.

Lemma zip_eq_prefix (x y : list (list byte)) :
  length y <= length x ->
  forallb (fun '(a, b) => eq_ignore_ascii_case a b) (zip x y) = true
  <-> (lower_label <$> y) `prefix_of` (lower_label <$> x).
Proof.
  revert x. induction y as [|b y IH]; intros [|a x] Hl; simpl in *; try lia.
  - split; [intros; apply prefix_nil | done].
  - split; [intros; apply prefix_nil | done].
  - rewrite andb_true_iff, eq_ignore_ascii_case_spec, IH by lia. split.
    + intros [-> Hp]. by apply prefix_cons.
    + intros Hp. split; [symmetry; by eapply prefix_cons_inv_1|by eapply prefix_cons_inv_2].
Qed.

Lemma is_subdomain_of_suffix n s :
  is_subdomain_of n s = true <-> lower s `suffix_of` lower n.
Proof.
  unfold is_subdomain_of, lower. rewrite andb_true_iff, Nat.leb_le, suffix_prefix_reverse.
  rewrite <- !fmap_reverse. split.
  - intros [Hl Hz]. apply zip_eq_prefix in Hz; [done|len].
  - intros Hp. assert (length (labels s) <= length (labels n)) as Hl.
    { apply prefix_length in Hp. len. }
    split; [done|]. apply zip_eq_prefix; [len|done].
Qed.

Lemma name_eqb_lower n s : name_eqb n s = true <-> lower n = lower s.
Proof.
  unfold name_eqb. rewrite andb_true_iff, Nat.eqb_eq, is_subdomain_of_suffix. split.
  - intros [Hl [k Hk]]. apply (f_equal length) in Hk as Hk'. unfold lower in Hk'.
    rewrite length_app, !length_fmap in Hk'.
    destruct k; [by rewrite Hk | simpl in Hk'; lia].
  - intros H. split; [|by rewrite H].
    apply (f_equal length) in H. unfold lower in H. by rewrite !length_fmap in H.
Qed.

(** Names are compared by [==]; [≡] is that relation, coarser than equality. *)
#[export] Instance name_equiv : Equiv DomainName := fun a b => name_eqb a b = true.
#[export] Instance name_equiv_dec : RelDecision (≡@{DomainName}).
Proof. intros a b. unfold equiv, name_equiv. apply _. Defined.
#[export] Instance name_equivalence : Equivalence (≡@{DomainName}).
Proof.
  unfold equiv, name_equiv. split; red; intros *; rewrite !name_eqb_lower; congruence.
Qed.
#[export] Instance lower_proper : Proper ((≡) ==> (=)) lower.
Proof. intros a b H. by apply name_eqb_lower. Qed.
#[export] Instance label_count_proper : Proper ((≡) ==> (=)) label_count.
Proof.
  intros a b H%name_eqb_lower. apply (f_equal length) in H.
  unfold lower in H. by rewrite !length_fmap in H.
Qed.
#[export] Instance is_subdomain_of_proper : Proper ((≡) ==> (≡) ==> (=)) is_subdomain_of.
Proof.
  intros a b Hab s t Hst. apply eq_true_iff_eq. by rewrite !is_subdomain_of_suffix, Hab, Hst.
Qed.
#[export] Instance name_eqb_proper : Proper ((≡) ==> (≡) ==> (=)) name_eqb.
Proof. intros a b Hab s t Hst. apply eq_true_iff_eq. by rewrite !name_eqb_lower, Hab, Hst. Qed.

Lemma name_equiv_lower (a b : DomainName) : a ≡ b <-> lower a = lower b.
Proof. apply name_eqb_lower. Qed.

Lemma name_eqb_equiv (a b : DomainName) : name_eqb a b = true <-> a ≡ b.
Proof. done. Qed.

Lemma is_subdomain_of_refl n : is_subdomain_of n n = true.
Proof. by apply is_subdomain_of_suffix. Qed.

Lemma is_subdomain_of_count n s : is_subdomain_of n s = true -> label_count s <= label_count n.
Proof.
  rewrite is_subdomain_of_suffix. intros H%suffix_length. unfold lower in H.
  by rewrite !length_fmap in H.
Qed.

(** Two suffixes of one name are ordered by their number of labels. *)
Lemma is_subdomain_of_chain n s t :
  is_subdomain_of n s = true -> is_subdomain_of n t = true ->
  label_count s <= label_count t -> is_subdomain_of t s = true.
Proof.
  rewrite !is_subdomain_of_suffix. intros Hs Ht Hl.
  destruct (suffix_weak_total _ _ _ Hs Ht) as [Hd|Hd]; [done|].
  apply suffix_length_eq in Hd as ->; [done|].
  unfold lower. rewrite !length_fmap. done.
Qed.

(** ** Configuration names *)

Definition config_label (l : list byte) : Prop := label_wf l /\ forallb is_config_byte l = true.

(** Labels separated, not terminated, by dots. *)
Fixpoint join_dot (ls : list (list byte)) : list byte :=
  match ls with
  | [] => []
  | [l] => l
  | l :: ls => l ++ x2e :: join_dot ls
  end.

Lemma config_byte_not_dot b : is_config_byte b = true -> u8_eqb b x2e = false.
Proof.
  assert (negb (is_config_byte b && u8_eqb b x2e) = true) as H
    by byte_compute (fun b => negb (is_config_byte b && u8_eqb b x2e)).
  intros Hb. rewrite Hb in H. by apply negb_true_iff.
Qed.

Lemma split_dot_cons_config l text :
  forallb is_config_byte l = true -> split_dot (l ++ x2e :: text) = l :: split_dot text.
Proof.
  induction l as [|b l IH]; intros H; [done|]. simpl in *. apply andb_prop in H as [Hb Hl].
  by rewrite (config_byte_not_dot _ Hb), IH.
Qed.

Lemma split_dot_config l : forallb is_config_byte l = true -> split_dot l = [l].
Proof.
  induction l as [|b l IH]; intros H; [done|]. simpl in *. apply andb_prop in H as [Hb Hl].
  by rewrite (config_byte_not_dot _ Hb), IH.
Qed.

Lemma split_dot_join ls :
  ls <> [] -> Forall config_label ls -> split_dot (join_dot ls) = ls.
Proof.
  intros Hne Hf. induction Hf as [|l ls [_ Hl] Hf IH]; [done|].
  destruct ls as [|l' ls]; [by apply split_dot_config|].
  simpl in *. rewrite split_dot_cons_config by done. by rewrite IH.
Qed.

Lemma split_dot_nonempty text : split_dot text <> [].
Proof. destruct text as [|b text]; simpl; [done|]. repeat case_match; done. Qed.

Lemma join_split_dot text : join_dot (split_dot text) = text.
Proof.
  induction text as [|b text IH]; [done|]. simpl.
  destruct (u8_eqb b x2e) eqn:Hb.
  - bool_to_prop. subst. simpl. destruct (split_dot text) eqn:Hs; [|by rewrite <- IH].
    by apply split_dot_nonempty in Hs.
  - destruct (split_dot text) as [|part parts]; [by rewrite <- IH|].
    rewrite <- IH. by destruct parts.
Qed.

Lemma strip_suffix_dot_snoc text : strip_suffix_dot (text ++ [x2e]) = Some text.
Proof. unfold strip_suffix_dot. rewrite reverse_snoc. simpl. by rewrite reverse_involutive. Qed.

Lemma strip_suffix_dot_Some text t : strip_suffix_dot text = Some t -> text = t ++ [x2e].
Proof.
  unfold strip_suffix_dot. destruct (reverse text) as [|c rest] eqn:Hr; [done|].
  destruct (u8_eqb c x2e) eqn:Hc; [|done]. intros [= <-]. bool_to_prop. subst.
  by rewrite <- (reverse_involutive text), Hr, reverse_cons.
Qed.

Lemma from_str_loop_spec parts acc len n :
  len <= MAX_NAME_LENGTH ->
  from_str_loop parts acc len = Ok n
  <-> labels n = acc ++ parts /\ Forall config_label parts
      /\ len + wire_size parts <= MAX_NAME_LENGTH.
Proof.
  revert acc len. induction parts as [|l parts IH]; intros acc len Hlen; simpl.
  - rewrite app_nil_r, wire_size_nil, Nat.add_0_r. destruct n. simpl. naive_solver.
  - rewrite Forall_cons, wire_size_cons. unfold config_label at 1, label_wf.
    destruct (_ || _) eqn:Hb.
    + split; [done|]. intros (_ & [[[Hl1 Hl2] Hc] _] & _). exfalso.
      apply orb_true_iff in Hb as [Hb|Hb]; [apply orb_true_iff in Hb as [Hb|Hb]|];
        bool_to_prop; [lia|lia|congruence].
    + bool_to_prop. destruct (MAX_NAME_LENGTH <? _) eqn:Hs; bool_to_prop.
      * split; [done|]. intros (_ & _ & Hw). lia.
      * rewrite IH by lia. rewrite <- app_assoc. simpl.
        split; intros (? & ? & ?); split_and!; naive_solver lia.
Qed.

(** The bytes of a name that the configuration syntax can express are shown
    as they are. *)
Lemma display_config_label l :
  forallb is_config_byte l = true -> concat (display_byte <$> l) = l.
Proof.
  induction l as [|b l IH]; intros H; [done|]. cbn [forallb] in H. apply andb_prop in H as [Hb Hl].
  rewrite fmap_cons. cbn [concat]. rewrite IH by done.
  unfold display_byte. by rewrite Hb.
Qed.

Lemma name_display_join ls :
  ls <> [] -> Forall config_label ls -> name_display (MkName ls) = join_dot ls ++ [x2e].
Proof.
  unfold name_display. cbn [labels]. intros Hne Hf.
  destruct ls as [|l ls]; [done|]. clear Hne. cbn [length Nat.eqb].
  revert l Hf. induction ls as [|l' ls IH]; intros l Hf.
  - apply Forall_cons in Hf as [[_ Hl] _]. rewrite list_fmap_singleton.
    cbn [concat join_dot]. by rewrite display_config_label, app_nil_r.
  - apply Forall_cons in Hf as [[_ Hl] Hf]. rewrite fmap_cons. cbn [concat].
    rewrite IH by done. rewrite display_config_label by done.
    cbn [join_dot]. by rewrite <- !app_assoc.
Qed.

Lemma name_from_str_spec text n :
  name_from_str text = Ok n ->
  name_wf n /\ Forall config_label (labels n)
  /\ (name_display n = text \/ name_display n = text ++ [x2e]).
Proof.
  unfold name_from_str. destruct (bool_decide _) eqn:Ht; bool_to_prop.
  - intros [= <-]. subst. unfold name_wf, MAX_NAME_LENGTH.
    cbn [labels]. rewrite wire_size_nil.
    split_and!; [constructor|lia|constructor|by left].
  - intros H. apply from_str_loop_spec in H as (Hl & Hf & Hs);
      [|unfold MAX_NAME_LENGTH; lia]. simpl in Hl. rewrite <- Hl in Hf, Hs.
    assert (labels n <> []) as Hne by (rewrite Hl; apply split_dot_nonempty).
    split_and!.
    + split; [|lia]. eapply Forall_impl; [exact Hf|]. by intros ? [??].
    + done.
    + destruct n as [ls]. simpl in *. rewrite name_display_join by done.
      rewrite Hl, join_split_dot.
      destruct (strip_suffix_dot text) as [t|] eqn:Hst; simpl; [|by right].
      left. symmetry. by apply strip_suffix_dot_Some.
Qed.

Lemma name_from_str_display n :
  name_wf n -> Forall config_label (labels n) -> name_from_str (name_display n) = Ok n.
Proof.
  intros [_ Hs] Hf. destruct n as [ls]. simpl in *.
  destruct (decide (ls = [])) as [->|Hne]; [done|].
  rewrite name_display_join by done. unfold name_from_str.
  rewrite bool_decide_eq_false_2.
  - rewrite strip_suffix_dot_snoc. simpl. rewrite split_dot_join by done.
    apply from_str_loop_spec; simpl; unfold MAX_NAME_LENGTH in *; [lia|].
    split_and!; [done|done|lia].
  - intros Hj. apply (f_equal length) in Hj. rewrite length_app in Hj. simpl in Hj.
    destruct ls as [|l ls]; [done|]. apply Forall_cons in Hf as [[[Hl _] _] _].
    destruct ls; simpl in Hj; [lia|]. rewrite length_app in Hj. lia.
Qed.

(** The texts that stand for a name: the root dot, or labels of letters, digits,
    hyphens and underscores separated by dots, with or without a dot at the end. *)
Inductive domain_text : list byte -> DomainName -> Prop :=
| text_root : domain_text [x2e] (MkName [])
| text_labels ls tail :
    ls <> [] -> Forall config_label ls -> wire_size ls + 1 <= MAX_NAME_LENGTH -> tail ∈ [[]; [x2e]] ->
    domain_text (join_dot ls ++ tail) (MkName ls).

Lemma split_dot_snoc text : split_dot (text ++ [x2e]) = split_dot text ++ [[]].
Proof.
  induction text as [|b text IH]; [done|]. cbn [app split_dot]. rewrite IH.
  destruct (u8_eqb b x2e); [done|].
  destruct (split_dot text) eqn:Hs; [by apply split_dot_nonempty in Hs|done].
Qed.

Lemma strip_suffix_dot_join ls :
  ls <> [] -> Forall config_label ls -> strip_suffix_dot (join_dot ls) = None.
Proof.
  intros Hne Hf. destruct (strip_suffix_dot _) as [t|] eqn:Ht; [|done].
  apply strip_suffix_dot_Some, (f_equal split_dot) in Ht.
  rewrite split_dot_join, split_dot_snoc in Ht by done. subst.
  apply Forall_app in Hf as [_ [[[Hl _] _] _]%Forall_cons]. simpl in Hl. lia.
Qed.

Lemma join_dot_not_dot ls : Forall config_label ls -> join_dot ls <> [x2e].
Proof.
  intros Hf Hj. destruct (decide (ls = [])) as [->|Hne]; [done|].
  pose proof (strip_suffix_dot_join ls Hne Hf) as H.
  rewrite Hj in H. change [x2e] with ([] ++ [x2e]) in H. by rewrite strip_suffix_dot_snoc in H.
Qed.

(** Parsing a configured name accepts exactly these texts. *)
Lemma name_from_str_iff text n : name_from_str text = Ok n <-> domain_text text n.
Proof.
  split.
  - unfold name_from_str. destruct (bool_decide _) eqn:Ht; bool_to_prop; [intros [= <-]; subst; constructor|].
    intros H. apply from_str_loop_spec in H as (Hl & Hf & Hs); [|unfold MAX_NAME_LENGTH; lia].
    destruct n as [ls]. cbn [labels app] in Hl.
    assert (text = join_dot ls ++ (if is_some (strip_suffix_dot text) then [x2e] else [])) as ->.
    { rewrite Hl, join_split_dot. destruct (strip_suffix_dot text) as [t|] eqn:Hst; cbn.
      - by apply strip_suffix_dot_Some.
      - by rewrite app_nil_r. }
    rewrite <- Hl in Hf, Hs. constructor; [rewrite Hl; apply split_dot_nonempty|done|lia|].
    destruct (is_some _); [by right; left|by left].
  - intros [|ls tail Hne Hf Hs Htail]; [done|]. unfold name_from_str.
    assert (default (join_dot ls ++ tail) (strip_suffix_dot (join_dot ls ++ tail)) = join_dot ls) as Hd.
    { apply elem_of_cons in Htail as [->|Ht%list_elem_of_singleton]; [|subst; by rewrite strip_suffix_dot_snoc].
      by rewrite app_nil_r, strip_suffix_dot_join. }
    rewrite bool_decide_eq_false_2.
    + cbv zeta. rewrite Hd, split_dot_join by done.
      apply from_str_loop_spec; unfold MAX_NAME_LENGTH in *; [lia|]. split_and!; [done|done|lia].
    + intros Hj. rewrite Hj in Hd. change [x2e] with ([] ++ [x2e]) in Hd.
      rewrite strip_suffix_dot_snoc in Hd. cbn [default] in Hd.
      pose proof (split_dot_join ls Hne Hf) as Hl. rewrite <- Hd in Hl. cbn in Hl. subst.
      apply Forall_cons in Hf as [[[Hl _] _] _]. simpl in Hl. lia.
Qed.

(** The presentation of a byte can be read back from the front of a text. *)
Definition undisplay_byte (text : list byte) : option (byte * list byte) :=
  match text with
  | c :: text =>
    if u8_eqb c x5c then
      match text with
      | d :: e :: f :: text => Some (z2b (100 * (b2z d - 48) + 10 * (b2z e - 48) + (b2z f - 48)), text)
      | _ => None
      end
    else if u8_eqb c x2e then None else Some (c, text)
  | [] => None
  end.

Lemma undisplay_display_byte b text : undisplay_byte (display_byte b ++ text) = Some (b, text).
Proof. by destruct b. Qed.

Lemma display_label_inj l l' text text' :
  concat (display_byte <$> l) ++ x2e :: text = concat (display_byte <$> l') ++ x2e :: text' ->
  l = l' /\ text = text'.
Proof.
  revert l'. induction l as [|b l IH]; intros [|b' l'] H; cbn [fmap list_fmap concat app] in H.
  - by simplify_eq.
  - apply (f_equal undisplay_byte) in H. rewrite <- app_assoc, undisplay_display_byte in H. done.
  - apply (f_equal undisplay_byte) in H. rewrite <- app_assoc, undisplay_display_byte in H. done.
  - apply (f_equal undisplay_byte) in H. rewrite <- !app_assoc, !undisplay_display_byte in H.
    injection H as -> H. by apply IH in H as [-> ->].
Qed.

(** Different names are shown differently. *)
Lemma name_display_inj n n' : name_wf n -> name_wf n' -> name_display n = name_display n' -> n = n'.
Proof.
  assert (forall ls ls',
    concat ((fun label => concat (display_byte <$> label) ++ [x2e]) <$> ls)
    = concat ((fun label => concat (display_byte <$> label) ++ [x2e]) <$> ls') -> ls = ls') as Hinj.
  { induction ls as [|l ls IH]; intros [|l' ls'] H; cbn [fmap list_fmap concat] in H; [done| | |].
    1, 2: by destruct (concat (display_byte <$> _)).
    rewrite <- !app_assoc in H. apply display_label_inj in H as [-> H]. f_equal. by apply IH. }
  assert (forall l ls, label_wf l ->
    concat ((fun label => concat (display_byte <$> label) ++ [x2e]) <$> l :: ls) <> [x2e]) as Hroot.
  { intros [|b l] ls [Hl _] H; [simpl in Hl; lia|]. apply (f_equal undisplay_byte) in H.
    cbn [fmap list_fmap concat app] in H. rewrite <- !app_assoc, undisplay_display_byte in H. done. }
  destruct n as [ls], n' as [ls']. unfold name_wf, name_display. cbn [labels]. intros [Hf _] [Hf' _].
  destruct ls as [|l ls], ls' as [|l' ls']; cbn [length Nat.eqb]; intros H; [done| | |f_equal; by apply Hinj].
  - apply Forall_cons in Hf' as [Hl _]. by symmetry in H; apply Hroot in H.
  - apply Forall_cons in Hf as [Hl _]. by apply Hroot in H.
Qed.

(** ** Properties *)

(** C13: decoding refines the grammar of RFC 1035 names.  [name_decode] returns
    a name and a cursor exactly when the bytes denote that name through at most
    128 strictly backward pointers and the expanded name has at most 255 bytes;
    the cursor is the physical end of the encoding, after its first pointer.
    In particular the cycle check never rejects a name that has a finite
    expansion. *)
Theorem name_decode_refines_grammar wire cursor n c :
  name_decode wire cursor = Ok (n, c)
  <-> exists hops, name_at wire cursor hops (labels n) c /\ hops <= MAX_POINTERS
        /\ wire_size (labels n) + 1 <= MAX_NAME_LENGTH.
Proof.
  split; [apply name_decode_sound|].
  intros (hops & Hn & Hh & Hs). by eapply name_decode_complete.
Qed.

(** Decoding terminates on every input: whatever the bytes and the cursor,
    the loop ends within its fuel with a name or an error, and never panics. *)
Theorem name_decode_terminates wire cursor :
  (exists n c, name_decode wire cursor = Ok (n, c))
  \/ (exists e, name_decode wire cursor = Err e).
Proof.
  destruct (proj1 (safe_cases _) (name_decode_safe wire cursor)) as [[[n c] H]|H]; eauto.
Qed.

(** C25: encoding a well-formed name and decoding it at its offset in any
    surrounding message gives the name back, with the cursor after it. *)
Theorem name_encode_decode_roundtrip pre n post :
  name_wf n ->
  name_decode (pre ++ name_encode n ++ post) (length pre)
  = Ok (n, length (pre ++ name_encode n)).
Proof. intros H. rewrite length_app. by apply name_decode_encode_at. Qed.

Lemma name_encode_decode_roundtrip_witness :
  let n := MkName [[x77; x77; x77]; [xff; x2e]] in
  name_wf n /\ name_decode ([x00; x01] ++ name_encode n ++ [xc0; x0c]) 2 = Ok (n, 10).
Proof.
  assert (name_wf (MkName [[x77; x77; x77]; [xff; x2e]])) as Hwf.
  { split; [repeat constructor; cbv; lia|cbv; lia]. }
  split; [exact Hwf|].
  apply (name_encode_decode_roundtrip [x00; x01] (MkName [[x77; x77; x77]; [xff; x2e]]) [xc0; x0c]).
  exact Hwf.
Defined.

(** C26: suffix matching is by complete labels and ignores ASCII case: a name is
    below a suffix exactly when the lower-cased labels of the suffix end those
    of the name, and [==] is equality of the lower-cased labels. *)
Theorem subdomain_is_label_suffix n s :
  (is_subdomain_of n s = true <-> lower s `suffix_of` lower n)
  /\ (name_eqb n s = true <-> lower n = lower s).
Proof. split; [apply is_subdomain_of_suffix | apply name_eqb_lower]. Qed.

(** C27: a configuration name that parses is well formed, is written back by
    [Display] as the text with exactly one final dot, and that presentation
    parses to the same name; no other name, even one of binary labels, is
    presented alike. *)
Theorem config_name_display_roundtrip text n :
  name_from_str text = Ok n ->
  name_wf n
  /\ (name_display n = text \/ name_display n = text ++ [x2e])
  /\ name_from_str (name_display n) = Ok n
  /\ (forall n', name_wf n' -> name_display n' = name_display n -> n' = n).
Proof.
  intros (Hwf & Hf & Hd)%name_from_str_spec.
  split_and!; [done|done|by apply name_from_str_display|]. intros n' Hwf'. by apply name_display_inj.
Qed.

Lemma config_name_display_roundtrip_witness :
  let text := String.list_byte_of_string "Lab_1.test" in
  let n := MkName [String.list_byte_of_string "Lab_1"; String.list_byte_of_string "test"] in
  name_from_str text = Ok n /\ name_wf n
  /\ (name_display n = text \/ name_display n = text ++ [x2e])
  /\ name_from_str (name_display n) = Ok n
  /\ (forall n', name_wf n' -> name_display n' = name_display n -> n' = n).
Proof.
  split; [vm_compute; reflexivity|].
  apply (config_name_display_roundtrip (String.list_byte_of_string "Lab_1.test")).
  vm_compute. reflexivity.
Defined.
