(* ===== verification/Message.v ===== *)
(** * Parsed messages and query policy

    [src/src/dns/message.rs]: the fixed header, questions, EDNS metadata, the
    packet kept for forwarding, the decision taken on a client query and the
    correlation test of a response.  The COOKIE field a packet carries is the
    data part of [src/src/dns/cookie.rs]. *)

From S2P Require Import Prelude Types Name.

Definition QR_MASK : Z := 0x8000.
Definition OPCODE_MASK : Z := 0x7800.
Definition OPCODE_SHIFT : Z := 11.
Definition TC_MASK : Z := 0x0200.
Definition RD_MASK : Z := 0x0100.
Definition RA_MASK : Z := 0x0080.
Definition CD_MASK : Z := 0x0010.
Definition RCODE_MASK : Z := 0x000f.
Definition DO_MASK : Z := 0x8000.
Definition EDNS_VERSION_SHIFT : Z := 16.
Definition EXTENDED_RCODE_SHIFT : Z := 24.

(** ** Header *)

Record SectionCounts := MkCounts {
  qdcount : Z; ancount : Z; nscount : Z; arcount : Z
}.

Inductive RecordSection := Answer | Authority | Additional.
#[export] Instance RecordSection_eq_dec : EqDecision RecordSection.
Proof. solve_decision. Defined.

Definition record_sections (c : SectionCounts) : list (RecordSection * Z) :=
  [(Answer, ancount c); (Authority, nscount c); (Additional, arcount c)].

Record Header := MkHeader { h_id : Z; h_flags : Z; h_counts : SectionCounts }.

Definition header_parse (wire : list byte) : outcome ParseError Header :=
  if length wire <? HEADER_LENGTH then Err UnexpectedEnd
  else
    let* id := u16_at wire 0 in
    let* flags := u16_at wire 2 in
    let* questions := u16_at wire 4 in
    let* answers := u16_at wire 6 in
    let* authorities := u16_at wire 8 in
    let* additionals := u16_at wire 10 in
    Ok (MkHeader id flags (MkCounts questions answers authorities additionals)).

Definition message_type (h : Header) : MessageType :=
  if (Z.land (h_flags h) QR_MASK =? 0)%Z then MtQuery else MtResponse.

Definition header_opcode (h : Header) : Opcode :=
  opcode_from_wire (Z.shiftr (Z.land (h_flags h) OPCODE_MASK) OPCODE_SHIFT).

Definition header_truncated (h : Header) : bool :=
  negb (Z.land (h_flags h) TC_MASK =? 0)%Z.

Definition header_encode (h : Header) : list byte :=
  to_be16 (h_id h) ++ to_be16 (h_flags h)
  ++ to_be16 (qdcount (h_counts h)) ++ to_be16 (ancount (h_counts h))
  ++ to_be16 (nscount (h_counts h)) ++ to_be16 (arcount (h_counts h)).

(** ** Question and EDNS *)

Record Question := MkQuestion { q_name : DomainName; q_kind : RecordType; q_class : RecordClass }.

(** [#\[derive(PartialEq)\]]: the name compares without case. *)
Definition question_eqb (a b : Question) : bool :=
  name_eqb (q_name a) (q_name b)
  && bool_decide (q_kind a = q_kind b) && bool_decide (q_class a = q_class b).

(** Equality of [Vec<Question>]. *)
Definition questions_eqb (a b : list Question) : bool :=
  (length a =? length b) && forallb (fun '(x, y) => question_eqb x y) (zip a b).

Definition question_encode (q : Question) : list byte :=
  name_encode (q_name q) ++ to_be16 (rtype_wire (q_kind q)) ++ to_be16 (rclass_wire (q_class q)).

Record Edns := MkEdns { udp_size : Z; version : Z; extended_rcode : Z; dnssec_ok : bool }.

(** ** The COOKIE field ([src/src/dns/cookie.rs]) *)

Record CookieSlot := MkSlot {
  length_at : nat; data_at : nat; data_len : nat; rdlength_at : nat
}.

Inductive CookieField := Present (slot : CookieSlot) | Malformed.

(** ** Packet *)

Record Packet := MkPacket {
  wire : list byte;
  header : Header;
  questions : list Question;
  edns : option Edns;
  authenticated : bool;
  cookie : option CookieField
}.

Definition is_truncated (p : Packet) : bool := header_truncated (header p).

(** [wire\[..2\].copy_from_slice(&id.to_be_bytes())]. *)
Definition packet_with_id {E} (p : Packet) (id : Z) : outcome E (list byte) :=
  copy_at (wire p) 0 (to_be16 id).

Definition response_code (p : Packet) : ResponseCode :=
  let extended := match edns p with
                  | Some opt => Z.shiftl (extended_rcode opt) 4
                  | None => 0%Z
                  end in
  rcode_from_wire (Z.lor extended (Z.land (h_flags (header p)) RCODE_MASK)).

Definition udp_limit (p : Packet) : Z :=
  match edns p with
  | None => CLASSIC_UDP_LENGTH
  | Some opt => Z.min (Z.max (udp_size opt) CLASSIC_UDP_LENGTH) SERVER_UDP_LENGTH
  end.

(** A supported query borrowed from its packet. *)
Record Query := MkQuery { query_packet : Packet; query_question : Question }.

Inductive QueryDecision := Forward (q : Query) | Reject (code : ResponseCode) | Ignore.

(** [matches!(self.cookie, Some(CookieField::Malformed))]. *)
Definition cookie_is_malformed (c : option CookieField) : bool :=
  match c with Some Malformed => true | _ => false end.

Definition validate_query {E} (p : Packet) : outcome E QueryDecision :=
  if bool_decide (message_type (header p) <> MtQuery) then Ok Ignore
  else if bool_decide (header_opcode (header p) <> OpQuery) then Ok (Reject NotImplemented)
  else if negb (length (questions p) =? 1) || header_truncated (header p)
          || bool_decide (response_code p <> NoError)
          || negb (ancount (h_counts (header p)) =? 0)%Z
          || negb (nscount (h_counts (header p)) =? 0)%Z
  then Ok (Reject FormatError)
  else if cookie_is_malformed (cookie p)
  then Ok (Reject FormatError)
  else if is_some_and (fun opt => negb (version opt =? 0)%Z) (edns p)
  then Ok (Reject BadVersion)
  else
    let* question := index (questions p) 0 in
    if authenticated p
       || bool_decide (q_kind question ∈ [TAxfr; TIxfr; TTkey; TTsig; TOpt])
    then Ok (Reject RcRefused)
    else Ok (Forward (MkQuery p question)).

Definition corresponds_to (self : Packet) (query : Query) (expected : Z) : bool :=
  let query := query_packet query in
  bool_decide (message_type (header self) = MtResponse)
  && (h_id (header self) =? expected)%Z
  && bool_decide (header_opcode (header self) = header_opcode (header query))
  && questions_eqb (questions self) (questions query)
  && is_none_or (fun opt => version opt =? 0)%Z (edns self)
  && (is_some (edns query) || negb (is_some (edns self)))
  && negb (authenticated self).

(** A complete response correlated to the query that was sent. *)
Record Response := MkResponse { response_packet : Packet }.

(** ** The header *)

Definition counts_wf (c : SectionCounts) : Prop :=
  is_u16 (qdcount c) /\ is_u16 (ancount c) /\ is_u16 (nscount c) /\ is_u16 (arcount c).
Definition header_wf (h : Header) : Prop :=
  is_u16 (h_id h) /\ is_u16 (h_flags h) /\ counts_wf (h_counts h).

Section header.
Context (b0 b1 b2 b3 b4 b5 b6 b7 b8 b9 b10 b11 : byte).

Definition header_of_bytes : Header :=
  MkHeader (be16 b0 b1) (be16 b2 b3)
    (MkCounts (be16 b4 b5) (be16 b6 b7) (be16 b8 b9) (be16 b10 b11)).
Definition header_bytes : list byte := [b0; b1; b2; b3; b4; b5; b6; b7; b8; b9; b10; b11].

Lemma header_parse_bytes rest :
  header_parse (header_bytes ++ rest) = Ok header_of_bytes.
Proof. done. Qed.

Lemma header_encode_of_bytes : header_encode header_of_bytes = header_bytes.
Proof. unfold header_encode, header_of_bytes. cbn [h_id h_flags h_counts qdcount ancount nscount arcount].
  by rewrite !to_be16_be16. Qed.

Lemma header_of_bytes_wf : header_wf header_of_bytes.
Proof. unfold header_wf, counts_wf. simpl. auto 10 using be16_range. Qed.
End header.

Lemma header_parse_cases w :
  (length w < HEADER_LENGTH /\ header_parse w = Err UnexpectedEnd)
  \/ (HEADER_LENGTH <= length w
      /\ exists h, header_parse w = Ok h /\ header_wf h /\ w = header_encode h ++ drop 12 w).
Proof.
  unfold HEADER_LENGTH.
  do 12 (destruct w as [|? w]; [left; split; [simpl; lia|done]|]).
  right. split; [simpl; lia|]. eexists. split; [|split].
  - apply (header_parse_bytes _ _ _ _ _ _ _ _ _ _ _ _ w).
  - apply header_of_bytes_wf.
  - by rewrite header_encode_of_bytes.
Qed.

Lemma header_parse_safe w : safe (header_parse w).
Proof. destruct (header_parse_cases w) as [[_ ->]|[_ (h & -> & _)]]; done. Qed.

Lemma header_parse_Ok w h :
  header_parse w = Ok h ->
  HEADER_LENGTH <= length w /\ header_wf h /\ w = header_encode h ++ drop 12 w.
Proof.
  destruct (header_parse_cases w) as [[_ ->]|[? (h' & -> & ? & ?)]]; [done|].
  intros [= <-]. done.
Qed.

Lemma header_parse_encode h rest : header_wf h -> header_parse (header_encode h ++ rest) = Ok h.
Proof.
  intros (Hid & Hfl & Hq & Ha & Hn & Hr). unfold header_encode, to_be16.
  rewrite <- !app_assoc. simpl app.
  etrans; [exact (header_parse_bytes _ _ _ _ _ _ _ _ _ _ _ _ rest)|].
  unfold header_of_bytes. rewrite !be16_to_be16 by done. by destruct h as [? ? []].
Qed.

Lemma length_header_encode h : length (header_encode h) = HEADER_LENGTH.
Proof. done. Qed.

(** ** Flag words *)

Section flags.
Local Open Scope Z_scope.

(** [flag_algebra]: evaluates masks over a word built by [lor] and [land]. *)
Lemma land_mask_mask f k m : Z.land (Z.land f k) m = Z.land f (Z.land k m).
Proof. by rewrite Z.land_assoc. Qed.
End flags.

Ltac flag_algebra :=
  repeat first
  [ rewrite Z.land_lor_distr_l | rewrite land_mask_mask
  | progress change (Z.land QR_MASK QR_MASK) with QR_MASK ].

(** ** Equality of questions *)

#[export] Instance question_equiv : Equiv Question := fun a b => question_eqb a b = true.

Lemma question_eqb_spec a b :
  question_eqb a b = true
  <-> q_name a ≡ q_name b /\ q_kind a = q_kind b /\ q_class a = q_class b.
Proof.
  unfold question_eqb. rewrite !andb_true_iff, name_eqb_equiv, !bool_decide_eq_true. tauto.
Qed.

#[export] Instance question_equivalence : Equivalence (≡@{Question}).
Proof.
  unfold equiv, question_equiv. split; red; intros *; rewrite !question_eqb_spec.
  - done.
  - by intros (-> & -> & ->).
  - intros (-> & -> & ->) (-> & -> & ->). done.
Qed.

Lemma questions_eqb_spec a b : questions_eqb a b = true <-> a ≡ b.
Proof.
  unfold questions_eqb. revert b. induction a as [|x a IH]; intros [|y b]; simpl.
  - split; [constructor | done].
  - split; [done|]. by inversion 1.
  - split; [done|]. by inversion 1.
  - specialize (IH b). rewrite andb_true_iff, Nat.eqb_eq in *. rewrite andb_true_iff.
    split.
    + intros (Hl & Hq & Hz). constructor; [done|]. apply IH. done.
    + inversion 1 as [|? ? ? ? Hq Hz]; subst. apply IH in Hz as [-> ?]. done.
Qed.

#[export] Instance questions_eqb_proper : Proper ((≡) ==> (≡) ==> (=)) questions_eqb.
Proof.
  intros a b Hab c d Hcd. apply eq_true_iff_eq. by rewrite !questions_eqb_spec, Hab, Hcd.
Qed.

(** ** Query policy *)

Section validate.
Context {E : Type} (p : Packet).

Lemma validate_query_safe : safe (validate_query (E:=E) p).
Proof.
  unfold validate_query. destruct (bool_decide _); [done|].
  destruct (bool_decide _); [done|]. destruct (_ || _) eqn:Hc; [done|].
  destruct (cookie_is_malformed _); [done|].
  destruct (is_some_and _ _); [done|]. bool_to_prop.
  apply wp_bind, wp_index; [lia|]. intros q _. by destruct (_ || _).
Qed.

(** What a forwardable query satisfies. *)
Record forwardable (q : Question) : Prop := {
  fwd_type : message_type (header p) = MtQuery;
  fwd_opcode : header_opcode (header p) = OpQuery;
  fwd_question : questions p = [q];
  fwd_complete : header_truncated (header p) = false;
  fwd_noerror : response_code p = NoError;
  fwd_answers : ancount (h_counts (header p)) = 0%Z;
  fwd_authorities : nscount (h_counts (header p)) = 0%Z;
  fwd_cookie : cookie p <> Some Malformed;
  fwd_version : forall opt, edns p = Some opt -> version opt = 0%Z;
  fwd_unsigned : authenticated p = false;
  fwd_kind : q_kind q ∉ [TAxfr; TIxfr; TTkey; TTsig; TOpt]
}.

Lemma validate_query_forward q' :
  validate_query (E:=E) p = Ok (Forward q')
  <-> query_packet q' = p /\ forwardable (query_question q').
Proof.
  unfold validate_query. split.
  - intros H. inv_ok. bool_to_prop.
    destruct (questions p) as [|q0 [|]] eqn:Hq; simplify_eq/=. split; [done|].
    split; try done; try (by apply dec_stable).
    + intros Hm. by rewrite Hm in *.
    + intros opt Ho. rewrite Ho in *. simpl in *. by bool_to_prop.
  - intros [H [Ht Ho Hq Hc Hn Ha Hau Hck Hv Hu Hk]]. destruct q' as [p' q]. simpl in *.
    subst p'.
    rewrite !bool_decide_eq_false_2 by (intros ?; congruence).
    rewrite Hq, Hc, Ha, Hau. simpl.
    destruct (cookie p) as [[|]|]; simpl; try done;
    destruct (edns p) as [opt|] eqn:He; simpl;
      rewrite ?(Hv opt), ?Hu, ?bool_decide_eq_false_2 by done; done.
Qed.
Lemma validate_query_total : exists d, validate_query (E:=E) p = Ok d.
Proof.
  pose proof validate_query_safe as Hs. unfold validate_query in *.
  repeat match goal with |- context [if ?c then _ else _] => destruct c; [by eexists|] end.
  destruct (index _ _) as [q|e| |] eqn:Hi; [|by unfold index, or_panic in Hi; destruct (questions p !! 0)|done|done].
  cbn [obind]. destruct (_ || _); by eexists.
Qed.
End validate.

(** The policy has no error case, so the error type does not matter. *)
Lemma validate_query_errorless {E F} p d :
  validate_query (E:=E) p = Ok d -> validate_query (E:=F) p = Ok d.
Proof.
  unfold validate_query, index.
  repeat match goal with |- context [if ?c then _ else _] => destruct c; [by intros [= <-]|] end.
  destruct (questions p !! 0); [|done]. cbn [or_panic obind].
  destruct (_ || _); by intros [= <-].
Qed.

(** ** Properties *)

(** C14: the query policy is total and forwards exactly the supported queries.
    Every packet gets a decision without a fault: a response is ignored and
    nothing else is, and a query reaches an upstream exactly when it has opcode
    QUERY, one question of a supported type, no TC, no error code, no answer or
    authority records, no malformed cookie, EDNS version zero and no signature. *)
Theorem query_policy p :
  (validate_query (E:=ParseError) p = Ok Ignore <-> message_type (header p) = MtResponse)
  /\ (forall q, validate_query (E:=ParseError) p = Ok (Forward q)
        <-> query_packet q = p /\ forwardable p (query_question q))
  /\ exists d, validate_query (E:=ParseError) p = Ok d.
Proof.
  split; [|split].
  - unfold validate_query. split.
    + intros H. inv_ok. bool_to_prop. by destruct (message_type (header p)).
    + intros ->. by rewrite bool_decide_eq_true_2.
  - intros q. apply validate_query_forward.
  - apply validate_query_total.
Qed.

(** The header codec loses nothing: a well-formed header is read back from
    its encoding in front of any body, and a message of at least twelve bytes
    is the encoding of the header read from it followed by its body. *)
Theorem header_codec h body w :
  (header_wf h -> header_parse (header_encode h ++ body) = Ok h)
  /\ (header_parse w = Ok h -> header_wf h /\ w = header_encode h ++ drop 12 w).
Proof.
  split; [apply header_parse_encode|]. intros (_ & Hw & Heq)%header_parse_Ok. done.
Qed.

Lemma header_codec_witness :
  let h := MkHeader 0x1234 0x8180 (MkCounts 1 2 3 4) in
  header_parse (header_encode h ++ [x00]) = Ok h /\ header_wf h.
Proof.
  assert (header_wf (MkHeader 0x1234 0x8180 (MkCounts 1 2 3 4))) as Hwf
    by (unfold header_wf, counts_wf, is_u16; cbn; lia).
  split; [|exact Hwf].
  exact (proj1 (header_codec (MkHeader 0x1234 0x8180 (MkCounts 1 2 3 4)) [x00] []) Hwf).
Defined.
