(* ===== verification/Cookie.v ===== *)
(** * DNS COOKIE options

    [src/src/dns/cookie.rs]: locating the COOKIE option of an OPT record, the
    correlation test it gives on a response, and the query sent again with the
    server cookie of a BADCOOKIE response (RFC 7873). *)

From S2P Require Import Prelude Types Name Message.

Definition COOKIE_OPTION : Z := 10.

Inductive ServerCookieRetry :=
| Absent
| Discard
| Current
| Rewrite (w : list byte)
| Tcp.

(** The lengths of a client cookie alone, and with a server cookie. *)
Definition valid_cookie_length (len : nat) : bool :=
  (len =? 8) || ((16 <=? len) && (len <=? 40)).

(** ** Locating the option

    One iteration of the [while] per unit of fuel; every iteration that
    continues moves the cursor by at least four. *)
Fixpoint locate_loop {E} (fuel : nat) (w : list byte) (rdata_at end_ cursor : nat)
    : outcome E (option CookieField) :=
  match fuel with
  | O => Diverge
  | S fuel =>
    if (cursor + 4 <=? end_) && (cursor + 4 <=? length w) then
      let* code := u16_at w cursor in
      let* len := u16_at w (cursor + 2) in
      let len := Z.to_nat len in
      let data_at := cursor + 4 in
      match checked_add data_at len with
      | None => Ok (Some Malformed)
      | Some data_end =>
        if (end_ <? data_end) || (length w <? data_end) then Ok (Some Malformed)
        else if (code =? COOKIE_OPTION)%Z then
          if valid_cookie_length len
          then Ok (Some (Present (MkSlot (cursor + 2) data_at len (rdata_at - 2))))
          else Ok (Some Malformed)
        else locate_loop fuel w rdata_at end_ data_end
      end
    else Ok None
  end.

Definition locate {E} (w : list byte) (rdata_at rdata_len : nat)
    : outcome E (option CookieField) :=
  locate_loop (S (length w)) w rdata_at (rdata_at + rdata_len) rdata_at.

(** ** Correlation *)

Definition response_cookie {E} (p : Packet) : outcome E (option (list byte)) :=
  match cookie p with
  | None => Ok None
  | Some (Present slot) =>
    let* data := index_range (wire p) (data_at slot) (data_at slot + data_len slot) in
    Ok (Some data)
  | Some Malformed => Ok None
  end.

Definition valid_response {E} (sent response : Packet) (required : bool) : outcome E bool :=
  let* received := response_cookie response in
  match received with
  | None =>
    Ok (negb (is_some (cookie response)) && negb required
        && bool_decide (response_code response <> BadCookie))
  | Some received =>
    let* client := response_cookie sent in
    match client with
    | None => Ok false
    | Some client =>
      if (16 <=? length received) && (length received <=? 40) then
        let* mine := index_range client 0 8 in
        let* theirs := index_range received 0 8 in
        Ok (bool_decide (mine = theirs))
      else Ok false
    end
  end.

(** ** The retry query *)

(** [n as i32] and the capacity check of [Vec::with_capacity]. *)
Definition as_i32 (z : Z) : Z := ((z + 2147483648) mod 4294967296 - 2147483648)%Z.
Definition ISIZE_MAX : Z := 9223372036854775807.
Definition with_capacity {E} (z : Z) : outcome E unit :=
  if (z mod (USIZE_MAX + 1) <=? ISIZE_MAX)%Z then Ok tt else Panic.

Definition cookie_rewrite {E} (query : list byte) (slot : CookieSlot) (client server : list byte)
    : outcome E (option (list byte)) :=
  if (length server <? 8) || (32 <? length server) || (data_at slot <? rdlength_at slot + 2)
  then Ok None
  else
    let data_end := data_at slot + data_len slot in
    if length query <? data_end then Ok None
    else
      let new_len := 8 + length server in
      let delta := (as_i32 (Z.of_nat new_len) - as_i32 (Z.of_nat (data_len slot)))%Z in
      let* _ := with_capacity (as_i32 (Z.of_nat (length query)) + delta)%Z in
      let* before := index_range query 0 (data_at slot) in
      let* after := index_range query data_end (length query) in
      let out := before ++ client ++ server ++ after in
      if (MAX_MESSAGE_LENGTH <? Z.of_nat (length out))%Z then Ok None
      else
        let* out := copy_at out (length_at slot) (to_be16 (Z.of_nat new_len)) in
        let* rdlength := u16_at out (rdlength_at slot) in
        let rdlength := (rdlength + delta)%Z in
        if ((rdlength <? 0) || (65535 <? rdlength))%Z then Ok None
        else
          let* out := copy_at out (rdlength_at slot) (to_be16 rdlength) in
          Ok (Some out).

Definition cookie_retry {E} (query response : Packet) : outcome E ServerCookieRetry :=
  let sent := wire query in
  match cookie query with
  | None => Ok Absent
  | Some Malformed => Ok Discard
  | Some (Present query_cookie) =>
    match cookie response with
    | None | Some Malformed => Ok Discard
    | Some (Present response_cookie) =>
      match slice sent (data_at query_cookie) (data_at query_cookie + data_len query_cookie) with
      | None => Ok Discard
      | Some query_data =>
        match slice (wire response) (data_at response_cookie)
                (data_at response_cookie + data_len response_cookie) with
        | None => Ok Discard
        | Some response_data =>
          if (length query_data <? 8) || (length response_data <? 16) then Ok Discard
          else
            let* mine := index_range query_data 0 8 in
            let* theirs := index_range response_data 0 8 in
            if negb (bool_decide (mine = theirs)) then Ok Discard
            else
              let* server := index_range response_data 8 (length response_data) in
              let* current :=
                (if 8 <? length query_data then
                   let* old := index_range query_data 8 (length query_data) in
                   Ok (bool_decide (old = server))
                 else Ok false) in
              if current : bool then Ok Current
              else
                let data_end := data_at query_cookie + data_len query_cookie in
                let new_len := 8 + length server in
                if negb (new_len =? data_len query_cookie) && negb (data_end =? length sent)
                then Ok Tcp
                else
                  let* client := index_range query_data 0 8 in
                  let* out := cookie_rewrite sent query_cookie client server in
                  Ok (match out with Some w => Rewrite w | None => Discard end)
        end
      end
    end
  end.

(** ** Where a located option lies *)

Record slot_wf (n : nat) (slot : CookieSlot) : Prop := {
  slot_rdlength : rdlength_at slot + 4 <= length_at slot;
  slot_length : length_at slot + 2 = data_at slot;
  slot_end : data_at slot + data_len slot <= n;
  slot_size : valid_cookie_length (data_len slot) = true
}.

Definition field_wf (n : nat) (c : option CookieField) : Prop :=
  forall slot, c = Some (Present slot) -> slot_wf n slot.

Lemma valid_cookie_length_spec len :
  valid_cookie_length len = true <-> len = 8 \/ 16 <= len <= 40.
Proof.
  unfold valid_cookie_length.
  rewrite orb_true_iff, andb_true_iff, Nat.eqb_eq, !Nat.leb_le. done.
Qed.

(** Where the slot says RDLENGTH is. *)
Definition field_at (rdata_at : nat) (c : option CookieField) : Prop :=
  forall slot, c = Some (Present slot) -> rdlength_at slot = rdata_at - 2.

Lemma locate_loop_wp {E} fuel w rdata_at end_ cursor :
  2 <= rdata_at <= cursor -> length w < fuel + cursor -> cursor <= end_ <= length w ->
  wp (locate_loop (E:=E) fuel w rdata_at end_ cursor)
    (fun c => field_wf end_ c /\ field_at rdata_at c).
Proof.
  revert cursor. induction fuel as [|fuel IH]; intros cursor Hc Hf He.
  - lia.
  - cbn [locate_loop]. destruct (_ && _) eqn:Hb; [|done]. bool_to_prop.
    apply wp_bind, wp_u16_at; [lia|]. intros code _ _.
    apply wp_bind, wp_u16_at; [lia|]. intros len _ _. cbn zeta.
    unfold checked_add. destruct (_ <=? USIZE_MAX)%Z; [|done].
    destruct (_ || _) eqn:Hd; [done|]. bool_to_prop.
    destruct (code =? COOKIE_OPTION)%Z; [|apply IH; lia].
    destruct (valid_cookie_length _) eqn:Hv; [|done].
    split; intros slot [= <-]; [|done]. split; simpl; [lia|lia|lia|done].
Qed.

Lemma locate_wp {E} w rdata_at rdata_len :
  2 <= rdata_at -> rdata_at + rdata_len <= length w ->
  wp (locate (E:=E) w rdata_at rdata_len)
    (fun c => field_wf (rdata_at + rdata_len) c /\ field_at rdata_at c).
Proof. intros. apply locate_loop_wp; lia. Qed.

(** The scan has no error case. *)
Lemma locate_no_error {E} w rdata_at rdata_len (e : E) : locate w rdata_at rdata_len <> Err e.
Proof.
  unfold locate. generalize (rdata_at + rdata_len) as stop. generalize rdata_at at 2 as cursor.
  generalize (S (length w)) as fuel.
  induction fuel as [|fuel IH]; intros cursor stop; [done|]. cbn [locate_loop].
  destruct (_ && _); [|done]. unfold u16_at, index.
  repeat (destruct (w !! _); [|done]; cbn [or_panic obind]).
  destruct (checked_add _ _); [|done]. destruct (_ || _); [done|].
  destruct (_ =? _)%Z; [by destruct (valid_cookie_length _)|]. apply IH.
Qed.

(** ** The options of an OPT record as a list *)

Definition edns_option := (Z * list byte)%type.
Definition option_bytes (o : edns_option) : list byte :=
  to_be16 (fst o) ++ to_be16 (Z.of_nat (length (snd o))) ++ snd o.
Definition options_bytes (os : list edns_option) : list byte :=
  concat (option_bytes <$> os).
Definition option_wf (o : edns_option) : Prop :=
  is_u16 (fst o) /\ is_u16 (Z.of_nat (length (snd o))).

Lemma length_option_bytes o : length (option_bytes o) = 4 + length (snd o).
Proof. done. Qed.
Lemma options_bytes_cons o os : options_bytes (o :: os) = option_bytes o ++ options_bytes os.
Proof. done. Qed.

(** What [locate] promises: the first COOKIE option decides. *)
Fixpoint first_cookie (rd at_ : nat) (os : list edns_option) : option CookieField :=
  match os with
  | [] => None
  | (code, data) :: os =>
    if (code =? COOKIE_OPTION)%Z then
      Some (if valid_cookie_length (length data)
            then Present (MkSlot (at_ + 2) (at_ + 4) (length data) rd) else Malformed)
    else first_cookie rd (at_ + 4 + length data) os
  end.

Section locate_options.
Context {E : Type} (w : list byte) (post : list byte) (rdata_at : nat).
Hypothesis w_size : (Z.of_nat (length w) <= MAX_MESSAGE_LENGTH)%Z.

Lemma locate_loop_options os : forall fuel pre,
  w = pre ++ options_bytes os ++ post -> Forall option_wf os ->
  length os < fuel ->
  locate_loop (E:=E) fuel w rdata_at (length pre + length (options_bytes os)) (length pre)
  = Ok (first_cookie (rdata_at - 2) (length pre) os).
Proof.
  induction os as [|[code data] os IH]; intros fuel pre Hw Hwf Hf;
    (destruct fuel as [|fuel]; [simpl in Hf; lia|]).
  - cbn [locate_loop first_cookie]. unfold options_bytes. simpl.
    by rewrite (proj2 (Nat.leb_gt _ _)) by lia.
  - apply Forall_cons in Hwf as [[Hcode Hlen] Hwf]. simpl in Hcode, Hlen, Hf.
    rewrite options_bytes_cons, length_app, length_option_bytes. cbn [snd].
    assert (length w = length pre + (4 + length data + length (options_bytes os)) + length post)
      as Hlw by (rewrite Hw, options_bytes_cons; len).
    cbn [locate_loop].
    rewrite (proj2 (Nat.leb_le _ _)), (proj2 (Nat.leb_le _ _)) by lia. cbn [andb].
    rewrite options_bytes_cons in Hw. unfold option_bytes in Hw. cbn [fst snd] in Hw.
    replace (u16_at w (length pre)) with (Ok (E:=E) code); cycle 1.
    { rewrite Hw, <- !app_assoc. symmetry. by apply u16_at_mid. }
    replace (u16_at w (length pre + 2)) with (Ok (E:=E) (Z.of_nat (length data))); cycle 1.
    { rewrite Hw, <- !app_assoc, (app_assoc pre). symmetry. apply u16_at_mid; [len|done]. }
    cbn [obind]. rewrite Nat2Z.id. unfold checked_add.
    unfold MAX_MESSAGE_LENGTH, USIZE_MAX in *.
    rewrite (proj2 (Z.leb_le _ _)) by lia.
    rewrite (proj2 (Nat.ltb_ge _ _)), (proj2 (Nat.ltb_ge _ _)) by lia. cbn [orb].
    cbn [first_cookie]. destruct (code =? COOKIE_OPTION)%Z.
    { by destruct (valid_cookie_length _). }
    specialize (IH fuel (pre ++ to_be16 code ++ to_be16 (Z.of_nat (length data)) ++ data)).
    replace (length pre + 4 + length data) with
      (length (pre ++ to_be16 code ++ to_be16 (Z.of_nat (length data)) ++ data)) by len.
    rewrite <- IH; [f_equal; len| by rewrite Hw, <- !app_assoc | done | lia].
Qed.
End locate_options.

Lemma options_bytes_length os : 4 * length os <= length (options_bytes os).
Proof.
  induction os as [|o os IH]; [done|].
  rewrite options_bytes_cons, length_app, length_option_bytes. simpl in *. lia.
Qed.

Lemma locate_options {E} pre os post :
  (Z.of_nat (length (pre ++ options_bytes os ++ post)) <= MAX_MESSAGE_LENGTH)%Z ->
  Forall option_wf os ->
  locate (E:=E) (pre ++ options_bytes os ++ post) (length pre) (length (options_bytes os))
  = Ok (first_cookie (length pre - 2) (length pre) os).
Proof.
  intros Hs Hwf. unfold locate. eapply locate_loop_options; [done|done|done|].
  pose proof (options_bytes_length os). len.
Qed.

(** ** The bytes of a located cookie *)

Definition slot_data (w : list byte) (slot : CookieSlot) : list byte :=
  take (data_len slot) (drop (data_at slot) w).

Definition present_cookie (p : Packet) : option (list byte) :=
  match cookie p with Some (Present slot) => Some (slot_data (wire p) slot) | _ => None end.

Definition cookie_wf (p : Packet) : Prop := field_wf (length (wire p)) (cookie p).

Lemma slot_slice w slot :
  slot_wf (length w) slot ->
  slice w (data_at slot) (data_at slot + data_len slot) = Some (slot_data w slot).
Proof.
  intros [_ _ He _]. apply slice_Some. split; [lia|].
  unfold slot_data. by rewrite Nat.add_comm, Nat.add_sub.
Qed.

Lemma length_slot_data w slot : slot_wf (length w) slot -> length (slot_data w slot) = data_len slot.
Proof. intros [_ _ He _]. unfold slot_data. len. Qed.

Lemma present_cookie_length p c :
  cookie_wf p -> present_cookie p = Some c -> valid_cookie_length (length c) = true.
Proof.
  unfold present_cookie, cookie_wf, field_wf. intros Hwf Hc.
  destruct (cookie p) as [[slot|]|] eqn:Hp; simplify_eq.
  rewrite length_slot_data by auto. by apply (Hwf slot).
Qed.

Lemma response_cookie_present {E} p :
  cookie_wf p -> response_cookie (E:=E) p = Ok (present_cookie p).
Proof.
  unfold cookie_wf, response_cookie, present_cookie. intros Hwf.
  destruct (cookie p) as [[slot|]|]; [|done|done].
  unfold index_range. by rewrite slot_slice by by apply Hwf.
Qed.

(** The client half of a cookie. *)
Definition client_half (c : list byte) : list byte := take 8 c.

Lemma index_range_take {E} (c : list byte) :
  8 <= length c -> index_range (E:=E) c 0 8 = Ok (client_half c).
Proof.
  intros Hl. unfold index_range. rewrite (proj2 (slice_Some _ _ _ (take 8 c))); [done|].
  split; [lia|]. by rewrite drop_0.
Qed.

Lemma index_range_drop {E} (c : list byte) :
  8 <= length c -> index_range (E:=E) c 8 (length c) = Ok (drop 8 c).
Proof.
  intros Hl. unfold index_range. rewrite (proj2 (slice_Some _ _ _ (drop 8 c))); [done|].
  split; [lia|]. symmetry. apply take_ge. len.
Qed.

Definition correlated_cookie (sent response : Packet) : Prop :=
  exists mine theirs,
    present_cookie sent = Some mine /\ present_cookie response = Some theirs
    /\ 16 <= length theirs <= 40 /\ client_half mine = client_half theirs.

Lemma valid_response_spec {E} sent response required :
  cookie_wf sent -> cookie_wf response ->
  exists b, valid_response (E:=E) sent response required = Ok b
  /\ (b = true <->
      (cookie response = None /\ required = false /\ response_code response <> BadCookie)
      \/ correlated_cookie sent response).
Proof.
  intros Hs Hr. unfold valid_response. rewrite !response_cookie_present by done. cbn [obind].
  unfold correlated_cookie.
  destruct (present_cookie response) as [theirs|] eqn:Ht; cycle 1.
  { eexists. split; [done|]. rewrite !andb_true_iff, !negb_true_iff, bool_decide_eq_true.
    destruct (cookie response) eqn:Hc; simpl; naive_solver. }
  assert (cookie response <> None) as Hne
    by (unfold present_cookie in Ht; by destruct (cookie response)).
  destruct (present_cookie sent) as [mine|] eqn:Hm; cbn [obind]; cycle 1.
  { eexists. split; [done|]. naive_solver. }
  apply present_cookie_length, valid_cookie_length_spec in Hm as Hml; [|done].
  destruct (_ && _) eqn:Hl.
  - bool_to_prop. rewrite !index_range_take by lia. cbn [obind]. eexists. split; [done|].
    rewrite bool_decide_eq_true. split; [|naive_solver]. intros Heq. right. eauto 10.
  - eexists. split; [done|]. split; [done|].
    intros [[? _]|(? & ? & ? & [= <-] & ? & _)]; [done|].
    apply andb_false_iff in Hl as [Hl|Hl]; bool_to_prop; lia.
Qed.

(** ** Rewriting the option *)

(** The message around a cookie: RDLENGTH and the option's length are the two
    fields a rewrite changes besides the cookie itself. *)
Lemma slot_decompose w slot :
  slot_wf (length w) slot ->
  exists pre rdlen mid len data post,
    w = pre ++ to_be16 rdlen ++ mid ++ to_be16 len ++ data ++ post
    /\ is_u16 rdlen /\ length pre = rdlength_at slot
    /\ length_at slot = rdlength_at slot + 2 + length mid
    /\ data = slot_data w slot /\ post = drop (data_at slot + data_len slot) w.
Proof.
  intros Hwf. pose proof (slot_slice _ _ Hwf) as Hd. destruct Hwf as [Hr Hl He Hv].
  destruct (slice_is_Some w (rdlength_at slot) (rdlength_at slot + 2)) as [r Hrs]; [lia|].
  destruct (slice_is_Some w (length_at slot) (length_at slot + 2)) as [l Hls]; [lia|].
  destruct (two_bytes_u16 r) as (rdlen & Hrdlen & ->); [by apply slice_length in Hrs; lia|].
  destruct (two_bytes_u16 l) as (len & Hlen & ->); [by apply slice_length in Hls; lia|].
  set (mid := take (length_at slot - (rdlength_at slot + 2)) (drop (rdlength_at slot + 2) w)).
  exists (take (rdlength_at slot) w), rdlen, mid, len, (slot_data w slot),
    (drop (data_at slot + data_len slot) w).
  split_and!; try done; [|len|unfold mid; len].
  apply slice_split in Hrs, Hls, Hd.
  assert (drop (rdlength_at slot + 2) w = mid ++ drop (length_at slot) w) as Hmid.
  { unfold mid. rewrite <- (take_drop (length_at slot - (rdlength_at slot + 2)) (drop _ w)) at 1.
    f_equal. rewrite drop_drop. f_equal. lia. }
  rewrite Hrs at 1. do 2 f_equal. rewrite Hmid. f_equal.
  rewrite Hls at 1. rewrite drop_app_ge by len.
  replace (length_at slot - length (take (length_at slot) w)) with 0 by len.
  rewrite drop_0. f_equal. rewrite Hl. rewrite Hd at 1. rewrite drop_app_ge by len.
  replace (data_at slot - length (take (data_at slot) w)) with 0 by len. by rewrite drop_0.
Qed.

Lemma as_i32_small z : (0 <= z < 2147483648)%Z -> as_i32 z = z.
Proof. intros H. unfold as_i32. Z.div_mod_to_equations. lia. Qed.

Definition rewritten (pre : list byte) (rdlen : Z) (mid : list byte)
    (client server post : list byte) (old_len : nat) : list byte :=
  pre ++ to_be16 (rdlen + (8 + Z.of_nat (length server)) - Z.of_nat old_len)
  ++ mid ++ to_be16 (Z.of_nat (8 + length server)) ++ client ++ server ++ post.

Lemma cookie_rewrite_spec {E} pre rdlen mid len data post client server slot :
  let w := pre ++ to_be16 rdlen ++ mid ++ to_be16 len ++ data ++ post in
  (Z.of_nat (length w) <= MAX_MESSAGE_LENGTH)%Z ->
  is_u16 rdlen -> length pre = rdlength_at slot ->
  length_at slot = rdlength_at slot + 2 + length mid ->
  data_at slot = length_at slot + 2 -> data_len slot = length data ->
  length client = 8 -> 8 <= length server <= 32 ->
  let out := rewritten pre rdlen mid client server post (length data) in
  let rdlen' := (rdlen + (8 + Z.of_nat (length server)) - Z.of_nat (length data))%Z in
  cookie_rewrite (E:=E) w slot client server
  = Ok (if ((MAX_MESSAGE_LENGTH <? Z.of_nat (length out)) || (rdlen' <? 0) || (65535 <? rdlen'))%Z
        then None else Some out).
Proof.
  intros w Hw Hrd Hpre Hla Hda Hdl Hc Hs out rdlen'. unfold MAX_MESSAGE_LENGTH in *.
  assert (length w = length pre + 2 + length mid + 2 + length data + length post) as Hlw
    by (unfold w; len).
  unfold cookie_rewrite.
  rewrite (proj2 (Nat.ltb_ge _ _)), (proj2 (Nat.ltb_ge _ _)), (proj2 (Nat.ltb_ge _ _)) by lia.
  cbn [orb]. rewrite (proj2 (Nat.ltb_ge _ _)) by lia.
  rewrite !as_i32_small by lia. unfold with_capacity, USIZE_MAX, ISIZE_MAX.
  rewrite Z.mod_small by lia. rewrite (proj2 (Z.leb_le _ _)) by lia. cbn [obind].
  unfold index_range.
  rewrite (proj2 (slice_Some w 0 (data_at slot) (pre ++ to_be16 rdlen ++ mid ++ to_be16 len))); cycle 1.
  { split; [lia|]. rewrite drop_0, Nat.sub_0_r. unfold w. rewrite !app_assoc, <- (app_assoc _ data).
    symmetry. apply take_app_length'. len. }
  rewrite (proj2 (slice_Some w _ (length w) post)); cycle 1.
  { split; [lia|]. unfold w. rewrite !app_assoc, drop_app_length' by len.
    symmetry. apply take_ge. rewrite <- !app_assoc. fold w. lia. }
  cbn [or_panic obind].
  assert (length ((pre ++ to_be16 rdlen ++ mid ++ to_be16 len) ++ client ++ server ++ post)
          = length out) as Hlo by (unfold out, rewritten; len).
  rewrite Hlo. unfold MAX_MESSAGE_LENGTH.
  destruct (65535 <? Z.of_nat (length out))%Z eqn:Hbig; [done|]. cbn [orb].
  rewrite <- !app_assoc, (app_assoc _ mid), (app_assoc pre).
  rewrite copy_at_mid by len. cbn [obind].
  rewrite <- !app_assoc. rewrite u16_at_mid by (try done; lia). cbn [obind].
  replace (rdlen + (Z.of_nat (8 + length server) - Z.of_nat (data_len slot)))%Z with rdlen'
    by (unfold rdlen'; lia).
  destruct (_ || _) eqn:Hr; [done|]. rewrite copy_at_mid by len. done.
Qed.

(** ** The decision on a BADCOOKIE response *)

(** [sent] with the cookie [mine] replaced by the client half of [mine] and the
    server half of [theirs], and RDLENGTH by [rdlength]; every byte before the
    option keeps its place, and so does every byte after it unless the option
    ends the message. *)
Definition replaces_cookie (sent : list byte) (slot : CookieSlot) (mine theirs out : list byte)
    (rdlength : Z) : Prop :=
  exists pre rdlen mid len post, length pre = rdlength_at slot
    /\ sent = pre ++ to_be16 rdlen ++ mid ++ to_be16 len ++ mine ++ post
    /\ out = rewritten pre rdlen mid (client_half mine) (drop 8 theirs) post (length mine)
    /\ rdlength = (rdlen + (8 + Z.of_nat (length (drop 8 theirs))) - Z.of_nat (length mine))%Z
    /\ (length theirs = length mine \/ post = []).

(** The response echoes the client cookie sent, with a server cookie. *)
Definition echoes (query response : Packet) (mine theirs : list byte) : Prop :=
  present_cookie query = Some mine /\ present_cookie response = Some theirs
  /\ 16 <= length theirs /\ client_half mine = client_half theirs.

Definition representable (out : list byte) (rdlength : Z) : Prop :=
  (Z.of_nat (length out) <= MAX_MESSAGE_LENGTH)%Z /\ is_u16 rdlength.

(** The decision, case by case; no two cases overlap. *)
Definition retry_spec (query response : Packet) (d : ServerCookieRetry) : Prop :=
  match d with
  | Absent => cookie query = None
  | Discard =>
    cookie query <> None
    /\ ((forall mine theirs, ~ echoes query response mine theirs)
        \/ exists slot mine theirs out rdlength, cookie query = Some (Present slot)
             /\ echoes query response mine theirs /\ mine <> theirs
             /\ replaces_cookie (wire query) slot mine theirs out rdlength
             /\ ~ representable out rdlength)
  | Current => exists mine theirs, echoes query response mine theirs /\ mine = theirs
  | Tcp =>
    exists mine theirs, echoes query response mine theirs /\ mine <> theirs
      /\ length theirs <> length mine /\ exists pre post, post <> [] /\ wire query = pre ++ mine ++ post
  | Rewrite out =>
    exists slot mine theirs rdlength, cookie query = Some (Present slot)
      /\ echoes query response mine theirs /\ mine <> theirs
      /\ replaces_cookie (wire query) slot mine theirs out rdlength /\ representable out rdlength
  end.

Lemma halves_eq (a b : list byte) :
  8 <= length a -> client_half a = client_half b -> drop 8 a = drop 8 b -> a = b.
Proof.
  intros _ Hc Hd. rewrite <- (take_drop 8 a), <- (take_drop 8 b).
  unfold client_half in Hc. congruence.
Qed.

Section retry.
Context {E : Type} (query response : Packet).
Hypothesis query_wf : cookie_wf query.
Hypothesis response_wf : cookie_wf response.
Hypothesis query_size : (Z.of_nat (length (wire query)) <= MAX_MESSAGE_LENGTH)%Z.

Lemma cookie_rewrite_slot slot theirs :
  slot_wf (length (wire query)) slot -> 16 <= length theirs <= 40 ->
  let mine := slot_data (wire query) slot in
  (length theirs = length mine \/ data_at slot + data_len slot = length (wire query)) ->
  exists out rdlength,
    replaces_cookie (wire query) slot mine theirs out rdlength
    /\ (cookie_rewrite (E:=E) (wire query) slot (client_half mine) (drop 8 theirs) = Ok (Some out)
          /\ representable out rdlength
        \/ cookie_rewrite (E:=E) (wire query) slot (client_half mine) (drop 8 theirs) = Ok None
          /\ ~ representable out rdlength).
Proof.
  intros Hwf Ht mine Hfit.
  pose proof (length_slot_data _ _ Hwf) as Hml. fold mine in Hml.
  destruct (slot_decompose _ _ Hwf) as (pre & rdlen & mid & len & data & post & Hw & Hr & Hp & Hla & Hd & Hpost).
  pose proof (slot_length _ _ Hwf) as Hda. pose proof (slot_size _ _ Hwf) as Hsz.
  apply valid_cookie_length_spec in Hsz. fold mine in Hd. subst data.
  assert (length (client_half mine) = 8) as Hc by (unfold client_half; rewrite length_take; lia).
  assert (8 <= length (drop 8 theirs) <= 32) as Hs by (rewrite length_drop; lia).
  pose proof (cookie_rewrite_spec (E:=E) pre rdlen mid len mine post (client_half mine)
    (drop 8 theirs) slot) as Hspec. cbn zeta in Hspec. rewrite <- Hw in Hspec.
  rewrite Hspec by (done || lia). clear Hspec.
  eexists _, _. split.
  - exists pre, rdlen, mid, len, post. split_and!; [done|done|reflexivity|reflexivity|].
    destruct Hfit as [Hfit|Hfit]; [by left|right]. rewrite Hpost. apply drop_ge. lia.
  - destruct (_ || _) eqn:Hb.
    + right. split; [done|]. intros [? ?]. unfold is_u16 in *.
      apply orb_true_iff in Hb as [[Hb|Hb]%orb_true_iff|Hb];
        [apply Z.ltb_lt in Hb|apply Z.ltb_lt in Hb|apply Z.ltb_lt in Hb]; lia.
    + left. split; [done|]. bool_to_prop. split; [done|]. unfold is_u16. lia.
Qed.

Lemma not_echoes_length slot rslot :
  cookie query = Some (Present slot) -> cookie response = Some (Present rslot) ->
  length (slot_data (wire response) rslot) < 16 ->
  forall mine theirs, ~ echoes query response mine theirs.
Proof.
  intros Hq Hr Hl mine theirs (_ & Ht & ? & _). unfold present_cookie in Ht.
  rewrite Hr in Ht. simplify_eq. lia.
Qed.

(** Is the server half already there?  For a query with a client half alone, no. *)
Lemma current_test mine theirs :
  8 <= length mine -> 16 <= length theirs -> client_half mine = client_half theirs ->
  (if 8 <? length mine then
     let* old := index_range mine 8 (length mine) in Ok (bool_decide (old = drop 8 theirs))
   else Ok false) = @Ok E bool (bool_decide (mine = theirs)).
Proof.
  intros Hm Ht Hh. destruct (8 <? length mine) eqn:H8; bool_to_prop.
  - rewrite index_range_drop by lia. cbn [obind]. f_equal. apply bool_decide_ext. split.
    + intros Hd. apply halves_eq; [lia|done|done].
    + by intros ->.
  - f_equal. symmetry. apply bool_decide_eq_false_2. intros Heq. rewrite Heq in *. lia.
Qed.

(** Two present cookies echo each other exactly when their client halves agree
    and the response has a server half. *)
Lemma echoes_present mine theirs :
  present_cookie query = Some mine -> present_cookie response = Some theirs ->
  forall m t, echoes query response m t ->
  m = mine /\ t = theirs /\ 16 <= length theirs /\ client_half mine = client_half theirs.
Proof. intros Hm Ht m t (H1 & H2 & H3 & H4). rewrite Hm in H1. rewrite Ht in H2. by simplify_eq. Qed.

Lemma cookie_retry_wp : wp (cookie_retry (E:=E) query response) (retry_spec query response).
Proof.
  unfold cookie_retry. unfold cookie_wf, field_wf in *.
  destruct (cookie query) as [[slot|]|] eqn:Hq; [| |done]; cycle 1.
  { simpl. rewrite Hq. split; [done|left]. intros ? ? (H & _). unfold present_cookie in H.
    by rewrite Hq in H. }
  destruct (cookie response) as [[rslot|]|] eqn:Hr; cycle 1.
  1, 2: simpl; rewrite Hq; split; [done|left]; intros ? ? (_ & H & _);
    unfold present_cookie in H; by rewrite Hr in H.
  specialize (query_wf slot eq_refl). specialize (response_wf rslot eq_refl).
  rewrite !slot_slice by done.
  assert (present_cookie query = Some (slot_data (wire query) slot)) as Hmine
    by (unfold present_cookie; by rewrite Hq).
  assert (present_cookie response = Some (slot_data (wire response) rslot)) as Htheirs
    by (unfold present_cookie; by rewrite Hr).
  pose proof (length_slot_data _ _ query_wf) as Hml.
  pose proof (length_slot_data _ _ response_wf) as Htl.
  pose proof (proj1 (valid_cookie_length_spec _) (slot_size _ _ query_wf)) as Hms.
  pose proof (proj1 (valid_cookie_length_spec _) (slot_size _ _ response_wf)) as Hts.
  pose proof (cookie_rewrite_slot slot (slot_data (wire response) rslot) query_wf) as Hrw.
  pose proof (slot_slice _ _ query_wf) as Hmid.
  cbn zeta in Hrw. rewrite Hml, Htl in Hrw.
  set (mine := slot_data (wire query) slot) in *.
  set (theirs := slot_data (wire response) rslot) in *.
  assert (cookie query <> None) as Hne by (by rewrite Hq).
  pose proof (echoes_present mine theirs Hmine Htheirs) as Hech.
  destruct (_ || _) eqn:Hlen.
  { split; [done|left]. intros m t (-> & -> & H16 & _)%Hech.
    apply orb_true_iff in Hlen as [Hlen|Hlen]; apply Nat.ltb_lt in Hlen; lia. }
  bool_to_prop. rewrite !index_range_take, index_range_drop by lia. cbn [obind].
  destruct (bool_decide _) eqn:Hhalf; bool_to_prop; cbn [negb]; cycle 1.
  { split; [done|left]. by intros m t (-> & -> & _ & ?)%Hech. }
  assert (echoes query response mine theirs) as Hecho by (split_and!; done || lia).
  rewrite current_test by (done || lia).
  cbn [obind]. destruct (bool_decide (mine = theirs)) eqn:Heq; bool_to_prop.
  { simpl. eauto. }
  destruct (_ && _) eqn:Hfit; bool_to_prop.
  { simpl. exists mine, theirs. split; [done|]. split; [done|]. split; [len|].
    apply slice_split in Hmid. eexists _, _. split; [|exact Hmid].
    intros Hd%(f_equal length). rewrite length_drop in Hd. simpl in Hd.
    pose proof (slot_end _ _ query_wf). lia. }
  destruct Hrw as (out & rdl & Hrep & [[-> Hok]|[-> Hok]]); [lia| | |]; cbn [obind].
  - apply andb_false_iff in Hfit as [Hf|Hf]; bool_to_prop; [left|right]; len.
  - simpl. by exists slot, mine, theirs, rdl.
  - simpl. split; [done|right]. by exists slot, mine, theirs, out, rdl.
Qed.
End retry.

(** [no_error]: takes a straight-line block apart, innermost choice first. *)
Ltac no_error :=
  unfold with_capacity, index_range, copy_at, u16_at, index, or_panic, obind;
  cbv zeta;
  repeat match goal with
  | |- context [match ?x with _ => _ end] =>
    lazymatch x with context [match _ with _ => _ end] => fail | _ => destruct x eqn:? end; try done
  end.

(** Neither operation of a retry has an error case. *)
Lemma cookie_rewrite_no_error {E} q slot c s (e : E) : cookie_rewrite q slot c s <> Err e.
Proof. unfold cookie_rewrite. no_error. Qed.

Lemma cookie_retry_no_error {E} query response (e : E) : cookie_retry query response <> Err e.
Proof.
  unfold cookie_retry. no_error. all: exfalso; by eapply cookie_rewrite_no_error.
Qed.

Lemma cookie_retry_total {E} query response :
  cookie_wf query -> cookie_wf response ->
  (Z.of_nat (length (wire query)) <= MAX_MESSAGE_LENGTH)%Z ->
  exists d, cookie_retry (E:=E) query response = Ok d /\ retry_spec query response d.
Proof.
  intros Hq Hr Hs. pose proof (cookie_retry_wp (E:=E) query response Hq Hr Hs) as Hw.
  destruct (cookie_retry query response) as [d|e| |] eqn:Hd; try done; [by eexists|].
  by apply cookie_retry_no_error in Hd.
Qed.

(** ** Properties *)

(** The scan of an OPT record finds its first COOKIE option.  On any list
    of encoded options, wherever it lies in a message of admissible size, the
    result is the first option with code 10: its position and length when the
    length is 8 or 16 to 40, malformed otherwise; nothing when there is none. *)
Theorem locate_first_cookie pre os post :
  (Z.of_nat (length (pre ++ options_bytes os ++ post)) <= MAX_MESSAGE_LENGTH)%Z ->
  Forall option_wf os ->
  locate (E:=ParseError) (pre ++ options_bytes os ++ post) (length pre) (length (options_bytes os))
  = Ok (first_cookie (length pre - 2) (length pre) os).
Proof. apply locate_options. Qed.

Definition sample_options : list edns_option :=
  [(3%Z, [x61; x62]); (10%Z, n2b <$> seq 1 8); (10%Z, [x00])].

Lemma locate_first_cookie_witness :
  locate (E:=ParseError) ([x00; x00; x00; x1b] ++ options_bytes sample_options ++ [xff]) 4 23
  = Ok (Some (Present (MkSlot 12 14 8 2))).
Proof.
  apply (locate_first_cookie [x00; x00; x00; x1b] sample_options [xff]).
  - vm_compute. intros [=].
  - repeat constructor; vm_compute; solve [intros [=] | reflexivity].
Defined.

(** Cookie correlation.  A response is valid for the query as sent exactly
    when it carries a client and server cookie whose first eight bytes are the
    client cookie sent, or carries no COOKIE option at all where none is
    required and its code is not BADCOOKIE.  The test never faults. *)
Theorem cookie_correlation sent response required :
  cookie_wf sent -> cookie_wf response ->
  exists b, valid_response (E:=ParseError) sent response required = Ok b
  /\ (b = true <->
      (cookie response = None /\ required = false /\ response_code response <> BadCookie)
      \/ correlated_cookie sent response).
Proof. apply valid_response_spec. Qed.

(** A packet that is only a COOKIE option: RDLENGTH, the option, its data. *)
Definition cookie_packet (data : list byte) : Packet :=
  MkPacket (to_be16 (Z.of_nat (4 + length data)) ++ option_bytes (10%Z, data))
    (MkHeader 0 0 (MkCounts 0 0 0 0)) [] None false
    (Some (Present (MkSlot 4 6 (length data) 0))).

Lemma cookie_packet_wf data :
  valid_cookie_length (length data) = true -> cookie_wf (cookie_packet data).
Proof.
  intros Hv slot [= <-]. split; cbn [rdlength_at length_at data_at data_len]; [lia|lia| |done].
  unfold cookie_packet, option_bytes. cbn [wire fst snd]. len.
Qed.

Lemma cookie_correlation_witness :
  let sent := cookie_packet (n2b <$> seq 1 8) in
  let response := cookie_packet (n2b <$> seq 1 16) in
  exists b, valid_response (E:=ParseError) sent response true = Ok b
  /\ (b = true <->
      (cookie response = None /\ true = false /\ response_code response <> BadCookie)
      \/ correlated_cookie sent response).
Proof. apply cookie_correlation; apply cookie_packet_wf; reflexivity. Defined.

(** C19: the reaction to a BADCOOKIE response.  It never faults, and it is: no
    retry without a cookie; a discard when the response does not echo the
    client cookie with a server cookie; [Current] when the server cookie is the
    one already sent; and otherwise a query that differs from the one sent only
    in the cookie, its length and RDLENGTH - unless bytes after the option would
    move, in which case the query is kept for TCP. *)
Theorem badcookie_reaction query response :
  cookie_wf query -> cookie_wf response ->
  (Z.of_nat (length (wire query)) <= MAX_MESSAGE_LENGTH)%Z ->
  exists d, cookie_retry (E:=ParseError) query response = Ok d /\ retry_spec query response d.
Proof. apply cookie_retry_total. Qed.

Lemma badcookie_reaction_witness :
  let query := cookie_packet (n2b <$> seq 1 8) in
  let response := cookie_packet (n2b <$> seq 1 16) in
  exists d, cookie_retry (E:=ParseError) query response = Ok d /\ retry_spec query response d.
Proof.
  apply badcookie_reaction; [apply cookie_packet_wf; reflexivity | apply cookie_packet_wf; reflexivity |].
  vm_compute. intros [=].
Defined.
