(* ===== verification/Net.v ===== *)
(** * Internet addresses of the Rust standard library

    [std::net]: what the program uses of IPv4 and IPv6 addresses and socket
    addresses.  An IPv6 address is its sixteen octets. *)

From S2P Require Import Prelude.

(** [Ipv4Addr], by its octets. *)
Record Ipv4Addr := Ipv4 { v4_0 : byte; v4_1 : byte; v4_2 : byte; v4_3 : byte }.
#[export] Instance Ipv4Addr_eq_dec : EqDecision Ipv4Addr.
Proof. solve_decision. Defined.

(** [Ipv4Addr::octets]. *)
Definition octets (a : Ipv4Addr) : list byte := [v4_0 a; v4_1 a; v4_2 a; v4_3 a].

Lemma length_octets a : length (octets a) = 4.
Proof. done. Qed.
#[export] Hint Rewrite length_octets : lengths.

(** [IpAddr]. *)
Inductive IpAddr := V4 (a : Ipv4Addr) | V6 (octets : list byte).
#[export] Instance IpAddr_eq_dec : EqDecision IpAddr.
Proof. solve_decision. Defined.

(** [SocketAddr]; equality of IPv6 endpoints includes flow and scope. *)
Inductive SocketAddr :=
| SocketV4 (a : Ipv4Addr) (port : Z)
| SocketV6 (octets : list byte) (port flowinfo scope_id : Z).
#[export] Instance SocketAddr_eq_dec : EqDecision SocketAddr.
Proof. solve_decision. Defined.

Definition socket_ip (s : SocketAddr) : IpAddr :=
  match s with SocketV4 a _ => V4 a | SocketV6 o _ _ _ => V6 o end.
Definition socket_port (s : SocketAddr) : Z :=
  match s with SocketV4 _ p => p | SocketV6 _ p _ _ => p end.
(** [SocketAddr::new]. *)
Definition socket_new (ip : IpAddr) (port : Z) : SocketAddr :=
  match ip with V4 a => SocketV4 a port | V6 o => SocketV6 o port 0 0 end.

Definition is_ipv4 (ip : IpAddr) : bool := match ip with V4 _ => true | V6 _ => false end.

(** [IpAddr::to_canonical]: an IPv4-mapped IPv6 address becomes IPv4. *)
Definition V4_MAPPED_PREFIX : list byte := replicate 10 x00 ++ [xff; xff].
Definition to_canonical (ip : IpAddr) : IpAddr :=
  match ip with
  | V4 _ => ip
  | V6 o =>
    if bool_decide (take 12 o = V4_MAPPED_PREFIX)
    then match drop 12 o with [a; b; c; d] => V4 (Ipv4 a b c d) | _ => ip end
    else ip
  end.

Definition is_unspecified (ip : IpAddr) : bool :=
  match ip with
  | V4 a => bool_decide (a = Ipv4 x00 x00 x00 x00)
  | V6 o => bool_decide (o = replicate 16 x00)
  end.
(** 224.0.0.0/4 and ff00::/8. *)
Definition is_multicast (ip : IpAddr) : bool :=
  match ip with
  | V4 a => (224 <=? b2z (v4_0 a))%Z && (b2z (v4_0 a) <=? 239)%Z
  | V6 o => bool_decide (head o = Some xff)
  end.
(** [ip == Ipv4Addr::BROADCAST]. *)
Definition is_v4_broadcast (ip : IpAddr) : bool := bool_decide (ip = V4 (Ipv4 xff xff xff xff)).

Lemma to_canonical_v4 a : to_canonical (V4 a) = V4 a.
Proof. done. Qed.

(** A canonical address is IPv4, or an IPv6 address unchanged. *)
Lemma to_canonical_cases ip :
  (exists a, to_canonical ip = V4 a) \/ (is_ipv4 ip = false /\ to_canonical ip = ip).
Proof.
  destruct ip as [a|o]; [left; by eexists|].
  unfold to_canonical. destruct (bool_decide _); [|by right].
  destruct (drop 12 o) as [|a [|b [|c [|d [|]]]]]; (by left; eexists) || by right.
Qed.

Lemma to_canonical_idemp ip : to_canonical (to_canonical ip) = to_canonical ip.
Proof. destruct (to_canonical_cases ip) as [[a ->]|[_ H]]; [done|by rewrite !H]. Qed.
