(* ===== verification/Reply.v ===== *)
(** * Locally generated replies

    [src/src/dns/reply.rs]: errors, local A answers and TC replies, always
    encoded afresh from checked fields. *)

From S2P Require Import Prelude Types Name Message Cookie Net.

(** [!b] on [u8]. *)
Definition u8_not (b : byte) : byte := z2b (255 - b2z b).

(** [wire\[3\] &= !(RA_MASK as u8)]. *)
Definition without_recursion {E} (w : list byte) : outcome E (list byte) :=
  let* flags := index w 3 in
  Ok (<[3 := u8_and flags (u8_not (z2b RA_MASK))]> w).

Inductive GeneratedOpt :=
| OptAbsent
| OptPresent (opt_dnssec_ok : bool) (opt_cookie : option (list byte)).

Definition generated_opt (e : option Edns) : GeneratedOpt :=
  match e with
  | Some opt => OptPresent (dnssec_ok opt) None
  | None => OptAbsent
  end.

Definition reply_flags (h : Header) (code : ResponseCode) (truncated : bool) : Z :=
  Z.lor (Z.lor (Z.lor (Z.lor
    (Z.land (h_flags h) (Z.lor (Z.lor OPCODE_MASK RD_MASK) CD_MASK))
    QR_MASK) RA_MASK) (Z.land (rcode_wire code) RCODE_MASK))
    (if truncated then TC_MASK else 0).

Definition answer_bytes (answer : option (Ipv4Addr * Z)) : list byte :=
  match answer with
  | Some (address, ttl) =>
    [xc0; x0c] ++ to_be16 (rtype_wire TA) ++ to_be16 (rclass_wire CIn)
    ++ to_be32 ttl ++ to_be16 4 ++ octets address
  | None => []
  end.

Definition opt_ttl (code : ResponseCode) (dnssec_ok : bool) : Z :=
  let extended := b2z (z2b (Z.shiftr (rcode_wire code) 4)) in
  Z.lor (Z.shiftl extended EXTENDED_RCODE_SHIFT) (if dnssec_ok then DO_MASK else 0).

Definition opt_bytes (code : ResponseCode) (edns : GeneratedOpt) : list byte :=
  match edns with
  | OptPresent dnssec_ok cookie =>
    let length_ := match cookie with Some c => 4 + length c | None => 0 end in
    [x00] ++ to_be16 (rtype_wire TOpt) ++ to_be16 SERVER_UDP_LENGTH
    ++ to_be32 (opt_ttl code dnssec_ok) ++ to_be16 (Z.of_nat length_)
    ++ match cookie with
       | Some c => to_be16 10 ++ to_be16 (Z.of_nat (length c)) ++ c
       | None => []
       end
  | OptAbsent => []
  end.

Definition bool_u16 (b : bool) : Z := if b then 1 else 0.

Definition opt_is_present (edns : GeneratedOpt) : bool :=
  match edns with OptPresent _ _ => true | OptAbsent => false end.

Definition make_reply (h : Header) (question : option Question) (code : ResponseCode)
    (truncated : bool) (edns : GeneratedOpt) (answer : option (Ipv4Addr * Z)) : list byte :=
  header_encode
    (MkHeader (h_id h) (reply_flags h code truncated)
       (MkCounts (bool_u16 (is_some question)) (bool_u16 (is_some answer)) 0
          (bool_u16 (opt_is_present edns))))
  ++ match question with Some q => question_encode q | None => [] end
  ++ answer_bytes answer
  ++ opt_bytes code edns.

(** [Header::error_reply]. *)
Definition header_error_reply (h : Header) (code : HeaderResponseCode) : list byte :=
  make_reply h None (as_response code) false OptAbsent None.

Record ReplyContext := MkContext {
  ctx_header : Header; ctx_question : option Question; ctx_edns : option Edns
}.

Definition format_reply (c : ReplyContext) : list byte :=
  if negb (is_some (ctx_edns c)) then header_error_reply (ctx_header c) HRC_FORMAT_ERROR
  else make_reply (ctx_header c) (ctx_question c) FormatError false
         (generated_opt (ctx_edns c)) None.

(** [Packet::error_reply]. *)
Definition error_reply (p : Packet) (code : ResponseCode) : list byte :=
  make_reply (header p) (head (questions p)) code false (generated_opt (edns p)) None.

Definition local_a_reply {E} (p : Packet) (address : Ipv4Addr) (ttl : Z)
    : outcome E (option (list byte)) :=
  let* c := response_cookie p in
  if is_some_and (fun c => 8 <? length c) c then Ok None
  else
    match head (questions p) with
    | None => Ok None
    | Some question =>
      let in_class := bool_decide (q_class question = CIn) in
      let code := if in_class then NoError else RcRefused in
      let answer :=
        if in_class && bool_decide (q_kind question ∈ [TA; TAny])
        then Some (address, ttl) else None in
      Ok (Some (make_reply (header p) (Some question) code false
                  (generated_opt (edns p)) answer))
    end.

Definition local_error_reply {E} (p : Packet) (code : ResponseCode)
    : outcome E (option (list byte)) :=
  let* c := response_cookie p in
  if is_some_and (fun c => 8 <? length c) c then Ok None
  else Ok (Some (error_reply p code)).

Definition truncated_reply {E} (p : Packet) (response : Response) : outcome E (list byte) :=
  let* opt :=
    (match generated_opt (edns p) with
     | OptPresent dnssec_ok _ =>
       let* c := response_cookie (response_packet response) in
       Ok (OptPresent dnssec_ok c)
     | OptAbsent => Ok OptAbsent
     end) in
  Ok (make_reply (header p) (head (questions p))
        (response_code (response_packet response)) true opt None).
