(* ===== verification/Parser.v ===== *)
(** * Structural validation of messages

    [src/src/dns/parser.rs], with [ParseFailure] of [src/src/dns/error.rs] and
    [Packet::parse] of [src/src/dns/message.rs].  The [Reader] over a message
    is its cursor; the reply context that [parse_inner] updates through a
    mutable reference travels with the error it is used for. *)

From S2P Require Import Prelude Types Name Message Cookie Net Reply.

Definition QUESTION_FIXED_LENGTH : nat := 4.
Definition RECORD_FIXED_LENGTH : nat := 10.

(** ** Reader *)

Section reader.
Context (w : list byte).

Definition reader_take (cursor len : nat) : outcome ParseError (list byte * nat) :=
  let* end_ := ok_or (checked_add cursor len) UnexpectedEnd in
  let* bytes := ok_or (slice w cursor end_) UnexpectedEnd in
  Ok (bytes, end_).

Definition reader_word (cursor : nat) : outcome ParseError (Z * nat) :=
  let* (bytes, cursor) := reader_take cursor 2 in
  let* b0 := index bytes 0 in
  let* b1 := index bytes 1 in
  Ok (be16 b0 b1, cursor).

Definition reader_double_word (cursor : nat) : outcome ParseError (Z * nat) :=
  let* (bytes, cursor) := reader_take cursor 4 in
  let* b0 := index bytes 0 in
  let* b1 := index bytes 1 in
  let* b2 := index bytes 2 in
  let* b3 := index bytes 3 in
  Ok (be32 b0 b1 b2 b3, cursor).

Definition reader_question (cursor : nat) : outcome ParseError (Question * nat) :=
  let* (name, cursor) := name_decode w cursor in
  let* (kind, cursor) := reader_word cursor in
  let* (class, cursor) := reader_word cursor in
  Ok (MkQuestion name (rtype_from_wire kind) (rclass_from_wire class), cursor).
End reader.

(** CLASS of an ordinary record, or the UDP payload size of OPT. *)
Inductive ClassField := ClassDns (c : RecordClass) | UdpPayload (size : Z).

Record ResourceRecord := MkRecord {
  rr_owner : DomainName; rr_kind : RecordType; rr_class : ClassField; rr_ttl : Z;
  rr_start : nat; rr_end : nat
}.
(** [record.data.len()]. *)
Definition rr_len (r : ResourceRecord) : nat := rr_end r - rr_start r.

Definition resource_record (w : list byte) (cursor : nat)
    : outcome ParseError (ResourceRecord * nat) :=
  let* (owner, cursor) := name_decode w cursor in
  let* (kind, cursor) := reader_word w cursor in
  let kind := rtype_from_wire kind in
  let* (class_wire, cursor) := reader_word w cursor in
  let class := if bool_decide (kind = TOpt) then UdpPayload class_wire
               else ClassDns (rclass_from_wire class_wire) in
  let* (ttl, cursor) := reader_double_word w cursor in
  let* (data_length, cursor) := reader_word w cursor in
  Ok (MkRecord owner kind class ttl cursor (cursor + Z.to_nat data_length), cursor).

(** ** Record data *)

(** The [while] of [validate_options]: every iteration takes four bytes. *)
Fixpoint validate_options_loop (fuel : nat) (bytes : list byte) (cursor : nat)
    : outcome ParseError unit :=
  match fuel with
  | O => Diverge
  | S fuel =>
    if cursor <? length bytes then
      let* (_, cursor) := map_err (fun _ => InvalidEdns) (reader_word bytes cursor) in
      let* (len, cursor) := map_err (fun _ => InvalidEdns) (reader_word bytes cursor) in
      let* (_, cursor) :=
        map_err (fun _ => InvalidEdns) (reader_take bytes cursor (Z.to_nat len)) in
      validate_options_loop fuel bytes cursor
    else Ok tt
  end.

Definition validate_options (bytes : list byte) : outcome ParseError unit :=
  validate_options_loop (S (length bytes)) bytes 0.

(** The [while] over the character strings of TXT: at least one byte each. *)
Fixpoint txt_loop (fuel : nat) (w : list byte) (cursor end_ : nat) : outcome ParseError nat :=
  match fuel with
  | O => Diverge
  | S fuel =>
    if cursor <? end_ then
      let* (b, cursor) := reader_take w cursor 1 in
      let* len := index b 0 in
      let* (_, cursor) := reader_take w cursor (b2n len) in
      txt_loop fuel w cursor end_
    else Ok cursor
  end.

Definition validate_data (w : list byte) (record : ResourceRecord) : outcome ParseError unit :=
  let cursor := rr_start record in
  match rr_class record with
  | UdpPayload _ => Err InvalidRecord
  | ClassDns class =>
    let* cursor :=
      match rr_kind record, class with
      | TA, CIn => let* (_, cursor) := reader_take w cursor 4 in Ok cursor
      | TAaaa, CIn => let* (_, cursor) := reader_take w cursor 16 in Ok cursor
      | TNs, _ | TCname, _ | TPtr, _ =>
        let* (_, cursor) := name_decode w cursor in Ok cursor
      | TMx, _ =>
        let* (_, cursor) := reader_word w cursor in
        let* (_, cursor) := name_decode w cursor in Ok cursor
      | TSoa, _ =>
        let* (_, cursor) := name_decode w cursor in
        let* (_, cursor) := name_decode w cursor in
        let* (_, cursor) := reader_take w cursor 20 in Ok cursor
      | TSrv, _ =>
        let* (_, cursor) := reader_take w cursor 6 in
        let* (_, cursor) := name_decode w cursor in Ok cursor
      | TTxt, _ =>
        if rr_start record =? rr_end record then Err InvalidRecord
        else txt_loop (S (length w)) w cursor (rr_end record)
      | _, _ => Ok (rr_end record)
      end in
    if negb (cursor =? rr_end record) then Err InvalidRecord else Ok tt
  end.

(** ** Sections *)

(** The locals of [parse_inner] that the record loop updates. *)
Record ParseState := MkState {
  ps_cursor : nat;
  ps_edns : option Edns;
  ps_cookie : option CookieField;
  ps_authenticated : bool;
  ps_context : option ReplyContext
}.

Definition ParseM := outcome (ParseError * option ReplyContext).

(** [?] inside [parse_inner]: the failure keeps the context reached so far. *)
Definition with_context {A} (ctx : option ReplyContext) (m : outcome ParseError A) : ParseM A :=
  map_err (fun e => (e, ctx)) m.

Definition context_set_question (q : option Question) (c : ReplyContext) : ReplyContext :=
  MkContext (ctx_header c) q (ctx_edns c).
Definition context_set_edns (e : option Edns) (c : ReplyContext) : ReplyContext :=
  MkContext (ctx_header c) (ctx_question c) e.

Definition edns_of_ttl (udp_size ttl : Z) : Edns :=
  MkEdns udp_size
    (Z.shiftr ttl EDNS_VERSION_SHIFT mod 256) (Z.shiftr ttl EXTENDED_RCODE_SHIFT mod 256)
    (negb (Z.land ttl DO_MASK =? 0)%Z).

(** [authenticated |= ...]. *)
Definition authenticates (section : RecordSection) (kind : RecordType) : bool :=
  bool_decide (kind ∈ [TTsig; TTkey])
  || (bool_decide (section = Additional) && bool_decide (kind = TSig)).

(** The OPT branch of the record loop. *)
Definition parse_opt (w : list byte) (section : RecordSection) (record : ResourceRecord)
    (st : ParseState) : ParseM ParseState :=
  let ctx := ps_context st in
  if bool_decide (section <> Additional) || is_some (ps_edns st)
     || negb (label_count (rr_owner record) =? 0)
  then Err (InvalidEdns, ctx)
  else
    match rr_class record with
    | ClassDns _ => Err (InvalidEdns, ctx)
    | UdpPayload size =>
      let edns := Some (edns_of_ttl size (rr_ttl record)) in
      let ctx := context_set_edns edns <$> ctx in
      let* (_, cursor) := with_context ctx
        (map_err (fun _ => InvalidEdns) (reader_take w (ps_cursor st) (rr_len record))) in
      let* bytes := index_range w (rr_start record) (rr_end record) in
      let* _ := with_context ctx (validate_options bytes) in
      let* cookie := locate w (rr_start record) (rr_len record) in
      Ok (MkState cursor edns cookie (ps_authenticated st) ctx)
    end.

(** The other branch of the record loop. *)
Definition parse_plain (w : list byte) (record : ResourceRecord) (st : ParseState)
    : ParseM ParseState :=
  let ctx := ps_context st in
  let* (_, cursor) := with_context ctx (reader_take w (ps_cursor st) (rr_len record)) in
  let* _ := with_context ctx (validate_data w record) in
  Ok (MkState cursor (ps_edns st) (ps_cookie st) (ps_authenticated st) ctx).

(** One iteration of [for _ in 0..count]. *)
Definition parse_record (w : list byte) (section : RecordSection) (st : ParseState)
    : ParseM ParseState :=
  let* (record, cursor) := with_context (ps_context st) (resource_record w (ps_cursor st)) in
  let st := MkState cursor (ps_edns st) (ps_cookie st) (ps_authenticated st) (ps_context st) in
  let* st := (if bool_decide (rr_kind record = TOpt) then parse_opt w section record st
              else parse_plain w record st) in
  Ok (MkState (ps_cursor st) (ps_edns st) (ps_cookie st)
        (ps_authenticated st || authenticates section (rr_kind record)) (ps_context st)).

Fixpoint parse_records (w : list byte) (section : RecordSection) (count : nat)
    (st : ParseState) : ParseM ParseState :=
  match count with
  | O => Ok st
  | S count => let* st := parse_record w section st in parse_records w section count st
  end.

Fixpoint parse_sections (w : list byte) (sections : list (RecordSection * Z))
    (st : ParseState) : ParseM ParseState :=
  match sections with
  | [] => Ok st
  | (section, count) :: sections =>
    let* st := parse_records w section (Z.to_nat count) st in
    parse_sections w sections st
  end.

Fixpoint parse_questions (w : list byte) (count cursor : nat) (acc : list Question)
    : outcome ParseError (list Question * nat) :=
  match count with
  | O => Ok (acc, cursor)
  | S count =>
    let* (q, cursor) := reader_question w cursor in
    parse_questions w count cursor (acc ++ [q])
  end.

(** ** Messages *)

Definition parse_inner (w : list byte) : ParseM Packet :=
  if (MAX_MESSAGE_LENGTH <? Z.of_nat (length w))%Z then Err (OversizedMessage, None)
  else
    let* h := with_context None (header_parse w) in
    let ctx := if bool_decide (message_type h = MtQuery)
               then Some (MkContext h None None) else None in
    let question_count := Z.to_nat (qdcount (h_counts h)) in
    if (1 <? question_count) && bool_decide (header_opcode h = OpQuery)
    then Err (InvalidCount, ctx)
    else
      let record_count :=
        sum_list ((fun '(_, count) => Z.to_nat count) <$> record_sections (h_counts h)) in
      let* available := usize_sub (length w) HEADER_LENGTH in
      if available <? question_count * (QUESTION_FIXED_LENGTH + 1)
                      + record_count * (RECORD_FIXED_LENGTH + 1)
      then Err (InvalidCount, ctx)
      else
        let* (questions, cursor) :=
          with_context ctx (parse_questions w question_count HEADER_LENGTH []) in
        let ctx := context_set_question (head questions) <$> ctx in
        let* st := parse_sections w (record_sections (h_counts h))
                     (MkState cursor None None false ctx) in
        if negb (ps_cursor st =? length w) then Err (TrailingData, ps_context st)
        else Ok (MkPacket w h questions (ps_edns st) (ps_authenticated st) (ps_cookie st)).

Record ParseFailure := MkFailure { pf_error : ParseError; pf_context : option ReplyContext }.

(** [parse], the closure passed to [map_err] included. *)
Definition parse (w : list byte) : outcome ParseFailure Packet :=
  map_err
    (fun '(error, context) =>
       MkFailure error
         (if bool_decide (error <> InvalidEdns)
          then (fun c => MkContext (ctx_header c) None None) <$> context
          else context))
    (parse_inner w).

(** [Packet::parse]. *)
Definition packet_parse (w : list byte) : outcome ParseError Packet := map_err pf_error (parse w).

(** [ParseFailure::format_reply]. *)
Definition failure_format_reply (f : ParseFailure) : option (list byte) :=
  format_reply <$> pf_context f.

(** [matches_truncated]: only the header and the question of the datagram. *)
Definition matches_truncated {E} (query : Packet) (w : list byte) (id : Z) : outcome E bool :=
  match header_parse w with
  | Err _ => Ok false
  | Panic => Panic
  | Diverge => Diverge
  | Ok h =>
    if negb (header_truncated h) || negb (h_id h =? id)%Z
       || bool_decide (message_type h <> MtResponse)
       || bool_decide (header_opcode h <> header_opcode (header query))
       || negb (qdcount (h_counts h) =? 1)%Z
    then Ok false
    else
      match reader_question w HEADER_LENGTH with
      | Ok (question, _) => Ok (questions_eqb (questions query) [question])
      | Err _ => Ok false
      | Panic => Panic
      | Diverge => Diverge
      end
  end.

(** ** Safety and well-formedness

    Every reader step, from any cursor, returns or reports an error, and what
    it returns lies inside the message. *)

Definition question_wf (q : Question) : Prop :=
  name_wf (q_name q) /\ rtype_canonical (q_kind q) /\ rclass_canonical (q_class q)
  /\ is_u16 (rtype_wire (q_kind q)) /\ is_u16 (rclass_wire (q_class q)).

Definition edns_wf (e : Edns) : Prop :=
  is_u16 (udp_size e) /\ (0 <= version e < 256)%Z /\ (0 <= extended_rcode e < 256)%Z.

Record packet_wf (p : Packet) : Prop := {
  pw_size : (Z.of_nat (length (wire p)) <= MAX_MESSAGE_LENGTH)%Z;
  pw_header : header_parse (wire p) = Ok (header p);
  pw_count : length (questions p) = Z.to_nat (qdcount (h_counts (header p)));
  pw_single : header_opcode (header p) = OpQuery -> length (questions p) <= 1;
  pw_questions : Forall question_wf (questions p);
  pw_edns : forall e, edns p = Some e -> edns_wf e;
  pw_cookie : cookie_wf p;
  pw_cookie_edns : is_Some (cookie p) -> is_Some (edns p);
  pw_body : exists stop,
    parse_questions (wire p) (Z.to_nat (qdcount (h_counts (header p)))) HEADER_LENGTH []
    = Ok (questions p, stop)
    /\ forall slot, cookie p = Some (Present slot) -> stop <= rdlength_at slot
}.

Section reader_wp.
Context (w : list byte).

Lemma reader_take_wp cursor n P :
  (forall s, slice w cursor (cursor + n) = Some s -> cursor + n <= length w ->
     P (s, cursor + n)) ->
  wp (reader_take w cursor n) P.
Proof.
  intros HP. apply wp_bind, wp_ok_or. intros e He.
  unfold checked_add in He. destruct (_ <=? USIZE_MAX)%Z; simplify_eq.
  apply wp_bind, wp_ok_or. intros s Hs. apply HP; [done|]. apply slice_bounds in Hs. lia.
Qed.

Lemma reader_word_wp cursor P :
  (forall v, is_u16 v -> cursor + 2 <= length w -> P (v, cursor + 2)) ->
  wp (reader_word w cursor) P.
Proof.
  intros HP. apply wp_bind, reader_take_wp. intros s Hs Hl. apply slice_length in Hs.
  apply wp_bind, wp_index; [lia|]. intros b0 _.
  apply wp_bind, wp_index; [lia|]. intros b1 _. apply HP; [apply be16_range|done].
Qed.

Lemma reader_double_word_wp cursor P :
  (forall v, is_u32 v -> cursor + 4 <= length w -> P (v, cursor + 4)) ->
  wp (reader_double_word w cursor) P.
Proof.
  intros HP. apply wp_bind, reader_take_wp. intros s Hs Hl. apply slice_length in Hs.
  do 4 (apply wp_bind, wp_index; [lia|]; intros ? _). apply HP; [apply be32_range|done].
Qed.

Lemma name_decode_wp cursor P :
  (forall n c, name_wf n -> cursor < c <= length w -> P (n, c)) ->
  wp (name_decode w cursor) P.
Proof.
  intros HP. pose proof (name_decode_safe w cursor) as Hs.
  destruct (name_decode w cursor) as [[n c]| | |] eqn:Hd; try done.
  simpl. apply HP; by eapply name_decode_wf.
Qed.

Lemma reader_question_wp cursor P :
  (forall q c, question_wf q -> cursor < c <= length w -> P (q, c)) ->
  wp (reader_question w cursor) P.
Proof.
  intros HP. apply wp_bind, name_decode_wp. intros n c Hn Hc.
  apply wp_bind, reader_word_wp. intros k Hk Hc2.
  apply wp_bind, reader_word_wp. intros cl Hcl Hc3.
  apply HP; [|lia]. unfold question_wf. simpl.
  rewrite rtype_wire_from_wire, rclass_wire_from_wire. auto.
Qed.

Definition record_wf (r : ResourceRecord) : Prop :=
  name_wf (rr_owner r) /\ is_u32 (rr_ttl r) /\ rr_start r <= rr_end r
  /\ (rr_kind r = TOpt <-> exists size, rr_class r = UdpPayload size)
  /\ (forall size, rr_class r = UdpPayload size -> is_u16 size).

Lemma resource_record_wp cursor P :
  (forall r c, record_wf r -> cursor + 11 <= c <= length w -> c = rr_start r -> P (r, c)) ->
  wp (resource_record w cursor) P.
Proof.
  intros HP. apply wp_bind, name_decode_wp. intros n c Hn Hc.
  apply wp_bind, reader_word_wp. intros k Hk Hc2. cbn zeta.
  apply wp_bind, reader_word_wp. intros cl Hcl Hc3.
  apply wp_bind, reader_double_word_wp. intros ttl Httl Hc4.
  apply wp_bind, reader_word_wp. intros len Hlen Hc5.
  apply HP; simpl; [|lia|lia]. unfold record_wf. simpl. split; [done|]. split; [done|].
  split; [lia|]. split.
  - destruct (bool_decide _) eqn:Hb; bool_to_prop; split; naive_solver.
  - intros size. destruct (bool_decide _); naive_solver.
Qed.

Lemma txt_loop_safe fuel cursor end_ :
  length w < fuel + cursor -> cursor <= length w -> safe (txt_loop fuel w cursor end_).
Proof.
  revert cursor. induction fuel as [|fuel IH]; intros cursor Hf Hc; [lia|].
  cbn [txt_loop]. destruct (cursor <? end_); [|done].
  apply wp_bind, reader_take_wp. intros s Hs Hl. apply slice_length in Hs.
  apply wp_bind, wp_index; [lia|]. intros b _.
  apply wp_bind, reader_take_wp. intros s' _ Hl'. apply IH; lia.
Qed.
End reader_wp.

Ltac wp_reader :=
  repeat (apply wp_bind;
    first [apply reader_take_wp | apply reader_word_wp | apply name_decode_wp];
    intros; cbn beta iota).

Lemma validate_data_safe w r : rr_start r <= length w -> safe (validate_data w r).
Proof.
  intros Hs. unfold validate_data. destruct (rr_class r) as [class|]; [|done].
  apply wp_bind.
  assert (forall c, safe (E:=ParseError)
    (if negb (c =? rr_end r) then Err InvalidRecord else Ok tt)) as Hend
    by (intros c; by destruct (negb _)).
  destruct (rr_kind r), class; try apply Hend; wp_reader; try apply Hend;
    (destruct (_ =? _); [done|]; eapply wp_mono; [apply txt_loop_safe; lia|];
     intros c _; apply Hend).
Qed.

Lemma validate_options_safe bytes : safe (validate_options bytes).
Proof.
  unfold validate_options. generalize (Nat.le_0_l (length bytes)).
  assert (length bytes < S (length bytes) + 0) as Hf by lia. revert Hf.
  generalize (S (length bytes)) as fuel. generalize 0 as cursor.
  intros cursor fuel. revert cursor.
  induction fuel as [|fuel IH]; intros cursor Hf Hc; [lia|]. cbn [validate_options_loop].
  destruct (_ <? _); [|done].
  apply wp_bind, wp_map_err, reader_word_wp. intros code _ H1. cbn beta iota.
  apply wp_bind, wp_map_err, reader_word_wp. intros len _ H2. cbn beta iota.
  apply wp_bind, wp_map_err, reader_take_wp. intros s _ H3. cbn beta iota. apply IH; lia.
Qed.

Section parse_wp.
Context (w : list byte).

(** [low] is the end of the questions: no record starts before it. *)
Record state_wf (low : nat) (st : ParseState) : Prop := {
  sw_cursor : low <= ps_cursor st <= length w;
  sw_after : forall slot, ps_cookie st = Some (Present slot) -> low <= rdlength_at slot;
  sw_edns : forall e, ps_edns st = Some e -> edns_wf e;
  sw_cookie : field_wf (length w) (ps_cookie st);
  sw_cookie_edns : is_Some (ps_cookie st) -> is_Some (ps_edns st)
}.

Lemma field_wf_mono m n c : m <= n -> field_wf m c -> field_wf n c.
Proof. intros Hl Hf slot Hs. destruct (Hf slot Hs). split; auto; lia. Qed.

Lemma edns_of_ttl_wf size ttl : is_u16 size -> edns_wf (edns_of_ttl size ttl).
Proof.
  intros Hs. unfold edns_wf, edns_of_ttl. cbn [udp_size version extended_rcode].
  split; [done|]. split; apply Z.mod_pos_bound; lia.
Qed.

Lemma parse_record_wp low section st :
  state_wf low st -> wp (parse_record w section st) (state_wf low).
Proof.
  intros [Hc Haf He Hk Hke]. unfold parse_record.
  apply wp_bind, wp_map_err, resource_record_wp. intros r c (Hn & Httl & Hse & Hopt & Hsz) Hcc ->.
  cbn beta iota. apply wp_bind. destruct (bool_decide _) eqn:Hb; bool_to_prop.
  - unfold parse_opt. cbn [ps_context ps_edns ps_cursor]. destruct (_ || _); [done|].
    destruct (rr_class r) as [|size] eqn:Hclass; [done|].
    apply wp_bind, wp_map_err, wp_map_err, reader_take_wp. intros s _ Hl.
    unfold rr_len in *. cbn beta iota.
    apply wp_bind, wp_index_range; [lia|]. intros bytes _.
    apply wp_bind, wp_map_err. eapply wp_mono; [apply validate_options_safe|]. intros [] _.
    apply wp_bind. eapply wp_mono; [apply locate_wp; lia|]. intros ck [Hck Hat].
    split; simpl; [lia|by intros slot ->%Hat; lia| |eapply field_wf_mono; [|done]; lia|by eexists].
    intros e [= <-]. apply edns_of_ttl_wf. eauto.
  - unfold parse_plain. cbn [ps_context ps_edns ps_cursor].
    apply wp_bind, wp_map_err, reader_take_wp. intros s _ Hl. unfold rr_len in *.
    apply wp_bind, wp_map_err. eapply wp_mono; [apply validate_data_safe; lia|].
    intros [] _. split; simpl; [lia|done|done|done|done].
Qed.

Lemma parse_records_wp low section count st :
  state_wf low st -> wp (parse_records w section count st) (state_wf low).
Proof.
  revert st. induction count as [|count IH]; intros st Hst; [done|].
  apply wp_bind. eapply wp_mono; [by apply parse_record_wp|]. apply IH.
Qed.

Lemma parse_sections_wp low sections st :
  state_wf low st -> wp (parse_sections w sections st) (state_wf low).
Proof.
  revert st. induction sections as [|[section count] sections IH]; intros st Hst; [done|].
  apply wp_bind. eapply wp_mono; [by apply parse_records_wp|]. apply IH.
Qed.

Lemma parse_questions_wp count cursor acc :
  cursor <= length w -> Forall question_wf acc ->
  wp (parse_questions w count cursor acc) (fun '(qs, c) =>
    c <= length w /\ Forall question_wf qs /\ length qs = length acc + count).
Proof.
  revert cursor acc. induction count as [|count IH]; intros cursor acc Hc Ha.
  - simpl. split_and!; [done|done|lia].
  - apply wp_bind, reader_question_wp. intros q c Hq Hqc. cbn beta iota.
    eapply wp_mono; [apply IH; [lia|]|].
    + apply Forall_app. split; [done|]. by constructor.
    + intros [qs c'] (? & ? & Hl). rewrite length_app in Hl. simpl in Hl.
      split_and!; [done|done|lia].
Qed.

Lemma parse_inner_wp : wp (parse_inner w) (fun p => packet_wf p /\ wire p = w).
Proof.
  unfold parse_inner. destruct (_ <? _)%Z eqn:Hsize; [done|]. bool_to_prop.
  apply wp_bind, wp_map_err. pose proof (header_parse_safe w) as Hs.
  destruct (header_parse w) as [h| | |] eqn:Hh; [|done|done|done]. cbn [wp].
  destruct (header_parse_Ok _ _ Hh) as (Hlen & Hwf & _). cbn zeta.
  destruct (_ && _) eqn:Hsingle; [done|].
  apply wp_bind, wp_usize_sub; [done|]. cbn beta.
  destruct (_ - _ <? _); [done|].
  apply wp_bind, wp_map_err.
  assert (wp (parse_questions w (Z.to_nat (qdcount (h_counts h))) HEADER_LENGTH [])
    (fun '(qs, c) => c <= length w /\ Forall question_wf qs
       /\ length qs = 0 + Z.to_nat (qdcount (h_counts h)))) as Hq
    by (apply parse_questions_wp; [done|constructor]).
  destruct (parse_questions w _ _ _) as [[qs c]| | |] eqn:Hqp; [|done..].
  destruct Hq as (Hc & Hqs & Hql). cbn [wp].
  apply wp_bind. eapply wp_mono; [apply (parse_sections_wp c); split; simpl; [done|done|done|by intros ?|by intros [? ?]]|].
  intros st [Hsc Haf Hse Hsk Hske]. destruct (negb _); [done|]. simpl in *.
  split; [|done]. split; simpl; try done.
  - intros Hop. apply andb_false_iff in Hsingle as [Hb|Hb]; bool_to_prop; [lia|done].
  - by exists c.
Qed.
End parse_wp.

Lemma parse_wp w : wp (parse w) (fun p => packet_wf p /\ wire p = w).
Proof. apply wp_map_err, parse_inner_wp. Qed.

Lemma packet_parse_wp w : wp (packet_parse w) (fun p => packet_wf p /\ wire p = w).
Proof. apply wp_map_err, parse_wp. Qed.

Lemma packet_parse_Ok w p : packet_parse w = Ok p -> packet_wf p /\ wire p = w.
Proof. intros H. exact (wp_Ok _ _ _ (packet_parse_wp w) H). Qed.

(** ** What a failure keeps

    The partial context of a failed parse: the decoded header, and the first
    question and EDNS view as far as they were validated. *)

(** Partial correctness with an error case. *)
Definition pc {E A} (m : outcome E A) (P : A -> Prop) (Q : E -> Prop) : Prop :=
  match m with Ok a => P a | Err e => Q e | Panic | Diverge => True end.

Lemma pc_bind {E A B} (m : outcome E A) (k : A -> outcome E B) P Q :
  pc m (fun a => pc (k a) P Q) Q -> pc (obind m k) P Q.
Proof. by destruct m. Qed.

Lemma pc_with_context {A} ctx (m : outcome ParseError A) P Q :
  (forall e, Q (e, ctx)) -> (forall a, m = Ok a -> P a) -> pc (with_context ctx m) P Q.
Proof. destruct m; simpl; eauto. Qed.

Lemma pc_mono {E A} (m : outcome E A) (P P' : A -> Prop) Q :
  pc m P Q -> (forall a, P a -> P' a) -> pc m P' Q.
Proof. destruct m; simpl; eauto. Qed.

(** A query of admissible size whose header is complete. *)
Definition query_header (w : list byte) (h : Header) : Prop :=
  (Z.of_nat (length w) <= MAX_MESSAGE_LENGTH)%Z /\ header_parse w = Ok h /\ message_type h = MtQuery.

(** The context is kept from the moment a query's header is decoded, and holds
    validated fields only. *)
Definition kept_context (w : list byte) (c : option ReplyContext) : Prop :=
  (forall h, query_header w h -> is_Some c)
  /\ forall c', c = Some c' ->
       query_header w (ctx_header c')
       /\ (forall q, ctx_question c' = Some q -> question_wf q)
       /\ (forall e, ctx_edns c' = Some e -> edns_wf e).

Section context.
Context (w : list byte).
Let err_ok (e : ParseError * option ReplyContext) : Prop := kept_context w (snd e).

Lemma kept_none : (forall h, ~ query_header w h) -> kept_context w None.
Proof. intros H. split; [|done]. intros h Hh. by destruct (H h). Qed.

Lemma kept_edns c e :
  edns_wf e -> kept_context w c -> kept_context w (context_set_edns (Some e) <$> c).
Proof.
  intros He [Hs Hc]. split.
  - intros h Hh. destruct (Hs h Hh) as [c' ->]. by eexists.
  - intros c' (c0 & (? & ? & ?)%Hc & ->)%fmap_Some. naive_solver.
Qed.

Lemma kept_question c q :
  (forall q', q = Some q' -> question_wf q') -> kept_context w c ->
  kept_context w (context_set_question q <$> c).
Proof.
  intros He [Hs Hc]. split.
  - intros h Hh. destruct (Hs h Hh) as [c' ->]. by eexists.
  - intros c' (c0 & (? & ? & ?)%Hc & ->)%fmap_Some. naive_solver.
Qed.

Lemma parse_record_context section st :
  kept_context w (ps_context st) ->
  pc (parse_record w section st) (fun st => kept_context w (ps_context st)) err_ok.
Proof.
  intros Hc. unfold parse_record. apply pc_bind, pc_with_context; [done|].
  intros [r c] Hr.
  assert (record_wf r) as (_ & _ & _ & _ & Hsz).
  { pose proof (resource_record_wp w (ps_cursor st) (fun '(r, _) => record_wf r)) as Hw.
    rewrite Hr in Hw. by apply Hw. }
  apply pc_bind. destruct (bool_decide _).
  - unfold parse_opt. cbn [ps_context ps_edns ps_cursor]. destruct (_ || _); [done|].
    destruct (rr_class r) as [|size]; [done|].
    specialize (Hsz size eq_refl). pose proof (edns_of_ttl_wf size (rr_ttl r) Hsz) as He.
    pose proof (kept_edns _ _ He Hc) as Hctx. cbn zeta.
    apply pc_bind, pc_with_context; [done|]. intros [x c'] _.
    apply pc_bind. destruct (index_range w _ _) as [bytes| | |] eqn:Hi; try done;
      [|unfold index_range, or_panic in Hi; by destruct (slice w _ _)].
    apply pc_bind, pc_with_context; [done|]. intros [] _.
    apply pc_bind. destruct (locate w _ _) as [k|e| |] eqn:Hk; try done.
    by apply locate_no_error in Hk.
  - unfold parse_plain. apply pc_bind, pc_with_context; [done|]. intros [x c'] _.
    apply pc_bind, pc_with_context; [done|]. intros [] _. done.
Qed.

Lemma parse_records_context section count st :
  kept_context w (ps_context st) ->
  pc (parse_records w section count st) (fun st => kept_context w (ps_context st)) err_ok.
Proof.
  revert st. induction count as [|count IH]; intros st Hc; [done|]. cbn [parse_records].
  apply pc_bind. eapply pc_mono; [by apply parse_record_context|]. apply IH.
Qed.

Lemma parse_sections_context sections st :
  kept_context w (ps_context st) ->
  pc (parse_sections w sections st) (fun st => kept_context w (ps_context st)) err_ok.
Proof.
  revert st. induction sections as [|[section count] sections IH]; intros st Hc; [done|].
  cbn [parse_sections]. apply pc_bind. eapply pc_mono; [by apply parse_records_context|]. apply IH.
Qed.

Lemma parse_inner_context : pc (parse_inner w) (fun _ => True) err_ok.
Proof.
  unfold parse_inner. destruct (_ <? _)%Z eqn:Hsize; bool_to_prop.
  { apply kept_none. intros h (? & _). lia. }
  destruct (header_parse w) as [h|e| |] eqn:Hh; try done; cbn [with_context map_err obind]; cycle 1.
  { apply kept_none. intros h (_ & ? & _). congruence. }
  cbn zeta.
  assert (kept_context w (if bool_decide (message_type h = MtQuery)
                          then Some (MkContext h None None) else None)) as Hc.
  { case_bool_decide as Ht.
    - split; [by eexists|]. by intros c' [= <-].
    - apply kept_none. intros h' (_ & ? & ?). congruence. }
  destruct (_ && _); [done|]. apply pc_bind.
  destruct (usize_sub _ _) as [n| e| |] eqn:Hu; try done;
    [|by unfold usize_sub in Hu; destruct (_ <=? _)].
  cbn [pc]. destruct (n <? _); [done|]. apply pc_bind, pc_with_context; [done|]. intros [qs c] Hqs.
  assert (Forall question_wf qs) as Hwf.
  { pose proof (parse_questions_wp w (Z.to_nat (qdcount (h_counts h))) HEADER_LENGTH []) as Hp.
    rewrite Hqs in Hp. apply Hp; [|constructor]. by destruct (header_parse_Ok _ _ Hh). }
  apply pc_bind. eapply pc_mono.
  - apply parse_sections_context. cbn [ps_context]. apply kept_question; [|done].
    destruct qs as [|q qs]; [done|]. intros q' [= <-]. by apply Forall_cons in Hwf as [? _].
  - intros st Hst. by destruct (negb _).
Qed.
End context.

(** What [parse] hands to the caller with an error. *)
Lemma parse_failure w f :
  parse w = Err f ->
  kept_context w (pf_context f)
  /\ (pf_error f <> InvalidEdns ->
      forall c, pf_context f = Some c -> ctx_question c = None /\ ctx_edns c = None).
Proof.
  intros H. apply map_err_Err in H as ([e c] & H & ->).
  pose proof (parse_inner_context w) as Hc. rewrite H in Hc. simpl in Hc.
  destruct Hc as [Hs Hc]. cbn [pf_context pf_error]. case_bool_decide as He.
  - split.
    + split.
      * intros h Hh. destruct (Hs h Hh) as [c' ->]. by eexists.
      * intros c' (c0 & (? & _)%Hc & ->)%fmap_Some. done.
    + intros _ c' (c0 & _ & ->)%fmap_Some. done.
  - split; [by split|]. intros Hne. by destruct He.
Qed.

(** ** The truncation test *)

Lemma matches_truncated_spec {E} query w id :
  exists b, matches_truncated (E:=E) query w id = Ok b
  /\ (b = true <->
      exists h q c, header_parse w = Ok h /\ reader_question w HEADER_LENGTH = Ok (q, c)
        /\ header_truncated h = true /\ h_id h = id /\ message_type h = MtResponse
        /\ header_opcode h = header_opcode (header query) /\ qdcount (h_counts h) = 1%Z
        /\ questions query ≡ [q]).
Proof.
  unfold matches_truncated. pose proof (header_parse_safe w) as Hs.
  destruct (header_parse w) as [h|e| |] eqn:Hh; try done; cycle 1.
  { eexists. split; [done|]. split; [done|]. naive_solver. }
  destruct (_ || _) eqn:Hc.
  { eexists. split; [done|]. split; [done|]. intros (h' & q & c & [= <-] & _ & Ht & Hi & Hm & Ho & Hq & _).
    rewrite Ht, Hi, Hm, Ho, Hq, Z.eqb_refl in Hc. simpl in Hc.
    rewrite !bool_decide_eq_false_2 in Hc by (intros ?; congruence). done. }
  bool_to_prop. pose proof (reader_question_wp w HEADER_LENGTH (fun _ => True) ltac:(done)) as Hw.
  destruct (reader_question w HEADER_LENGTH) as [[q c]|e| |] eqn:Hr; try done; cycle 1.
  { eexists. split; [done|]. split; [done|]. naive_solver. }
  eexists. split; [done|]. rewrite questions_eqb_spec. split; [|naive_solver].
  intros Hqs. exists h, q, c. split_and!; try done; by apply dec_stable.
Qed.

(** ** Properties *)

(** Parsing is total and establishes the packet invariant.  On every input
    it returns a packet or an error, never a fault and never without end; a
    packet keeps the input bytes, and its header, question count, names, EDNS
    view and cookie position are those of a well-formed message. *)
Theorem packet_parse_total w :
  (exists p, packet_parse w = Ok p /\ packet_wf p /\ wire p = w)
  \/ (exists e, packet_parse w = Err e).
Proof.
  pose proof (packet_parse_wp w) as H.
  destruct (packet_parse w) as [p|e| |]; [left|right|done|done]; eauto.
Qed.

(** A datagram is taken for a truncated response exactly when its header is
    a TC response with the expected ID and opcode and one question, and that
    question, read alone, is the query's.  The rest of the datagram is never
    looked at, and no datagram makes the test fail. *)
Theorem truncation_test query w id :
  exists b, matches_truncated (E:=ParseError) query w id = Ok b
  /\ (b = true <->
      exists h q c, header_parse w = Ok h /\ reader_question w HEADER_LENGTH = Ok (q, c)
        /\ header_truncated h = true /\ h_id h = id /\ message_type h = MtResponse
        /\ header_opcode h = header_opcode (header query) /\ qdcount (h_counts h) = 1%Z
        /\ questions query ≡ [q]).
Proof. apply matches_truncated_spec. Qed.
