(* ===== verification/Body.v ===== *)
(** * Parsing and the transaction ID

    A message is sent upstream with its two-byte ID replaced and nothing else
    ([Packet::with_id]).  No reader of [Parser] looks at the header again once
    it is decoded - compression pointers into it are refused - so the packet of
    the rewritten message is the packet of the original with the new ID. *)

From S2P Require Import Prelude Types Name Message Cookie Net Reply Parser.

(** Messages that agree after the header. *)
Definition same_body (w w' : list byte) : Prop :=
  length w = length w' /\ drop HEADER_LENGTH w = drop HEADER_LENGTH w'.

Lemma same_body_drop w w' i : same_body w w' -> HEADER_LENGTH <= i -> drop i w = drop i w'.
Proof.
  intros [_ Hd] Hi. replace i with (HEADER_LENGTH + (i - HEADER_LENGTH)) by lia.
  by rewrite <- !drop_drop, Hd.
Qed.

Section body.
Context (w w' : list byte).
Hypothesis same : same_body w w'.

Lemma body_lookup i : HEADER_LENGTH <= i -> w !! i = w' !! i.
Proof.
  intros Hi. pose proof (same_body_drop _ _ _ same Hi) as Hd.
  rewrite <- (Nat.add_0_r i), <- !lookup_drop. by rewrite Hd.
Qed.

Lemma body_slice a b : HEADER_LENGTH <= a -> slice w a b = slice w' a b.
Proof.
  intros Ha. unfold slice. rewrite (proj1 same). by rewrite (same_body_drop _ _ _ same Ha).
Qed.

Lemma body_decode_loop fuel cursor position jumped expanded visited acc :
  HEADER_LENGTH <= position ->
  decode_loop fuel w cursor position jumped expanded visited acc
  = decode_loop fuel w' cursor position jumped expanded visited acc.
Proof.
  revert cursor position jumped expanded visited acc.
  induction fuel as [|fuel IH]; intros * Hp; [done|].
  unfold decode_loop. fold decode_loop. rewrite !(body_lookup position) by done.
  rewrite !(body_lookup (position + 1)) by lia.
  destruct (w' !! position) as [hd|]; [|done]. cbn [ok_or obind].
  destruct (u8_eqb _ _).
  - destruct (w' !! (position + 1)) as [tl|]; [|done]. cbn [ok_or obind].
    destruct (bool_decide _); [done|]. destruct (_ || _) eqn:Ht; [done|]. bool_to_prop.
    destruct (_ =? _); [done|]. apply IH. lia.
  - destruct (u8_eqb _ _); [|done]. destruct (u8_eqb _ _); [done|].
    destruct (_ <? _); [done|]. rewrite body_slice by lia.
    destruct (slice _ _ _); [|done]. apply IH. lia.
Qed.

Lemma body_name cursor : HEADER_LENGTH <= cursor -> name_decode w cursor = name_decode w' cursor.
Proof. apply body_decode_loop. Qed.

Lemma body_take cursor n :
  HEADER_LENGTH <= cursor -> reader_take w cursor n = reader_take w' cursor n.
Proof.
  intros H. unfold reader_take. destruct (checked_add _ _); [|done]. cbn [ok_or obind].
  by rewrite body_slice.
Qed.

Lemma body_word cursor : HEADER_LENGTH <= cursor -> reader_word w cursor = reader_word w' cursor.
Proof. intros H. unfold reader_word. by rewrite body_take. Qed.

Lemma body_double_word cursor :
  HEADER_LENGTH <= cursor -> reader_double_word w cursor = reader_double_word w' cursor.
Proof. intros H. unfold reader_double_word. by rewrite body_take. Qed.
End body.

(** [body_step]: rewrites one reader of [w] into that of [w'], and goes past it
    on every outcome; the cursor only moves forward. *)
Lemma name_decode_forward w c n c' : name_decode w c = Ok (n, c') -> c < c'.
Proof.
  intros H. assert (wp (name_decode w c) (fun '(_, c') => c < c')) as Hw
    by (apply name_decode_wp; intros; lia). by rewrite H in Hw.
Qed.

Lemma reader_take_forward w c n s c' : reader_take w c n = Ok (s, c') -> c' = c + n.
Proof.
  intros H. assert (wp (reader_take w c n) (fun '(_, c') => c' = c + n)) as Hw
    by (by apply reader_take_wp). by rewrite H in Hw.
Qed.

Lemma reader_word_forward w c v c' : reader_word w c = Ok (v, c') -> c' = c + 2.
Proof.
  intros H. assert (wp (reader_word w c) (fun '(_, c') => c' = c + 2)) as Hw
    by (by apply reader_word_wp). by rewrite H in Hw.
Qed.

Lemma reader_double_word_forward w c v c' : reader_double_word w c = Ok (v, c') -> c' = c + 4.
Proof.
  intros H. assert (wp (reader_double_word w c) (fun '(_, c') => c' = c + 4)) as Hw
    by (by apply reader_double_word_wp). by rewrite H in Hw.
Qed.

Ltac body_step :=
  match goal with
  | H : same_body ?w ?w' |- context [name_decode ?w ?c] =>
    rewrite (body_name w w' H c) by lia;
    let E := fresh in destruct (name_decode w' c) as [[? ?]| | |] eqn:E;
    [apply name_decode_forward in E|..]
  | H : same_body ?w ?w' |- context [reader_word ?w ?c] =>
    rewrite (body_word w w' H c) by lia;
    let E := fresh in destruct (reader_word w' c) as [[? ?]| | |] eqn:E;
    [apply reader_word_forward in E|..]
  | H : same_body ?w ?w' |- context [reader_double_word ?w ?c] =>
    rewrite (body_double_word w w' H c) by lia;
    let E := fresh in destruct (reader_double_word w' c) as [[? ?]| | |] eqn:E;
    [apply reader_double_word_forward in E|..]
  | H : same_body ?w ?w' |- context [reader_take ?w ?c ?n] =>
    rewrite (body_take w w' H c n) by lia;
    let E := fresh in destruct (reader_take w' c n) as [[? ?]| | |] eqn:E;
    [apply reader_take_forward in E|..]
  end; cbn [obind map_err with_context]; try done.

Section body_records.
Context (w w' : list byte).
Hypothesis same : same_body w w'.

Lemma body_question cursor :
  HEADER_LENGTH <= cursor -> reader_question w cursor = reader_question w' cursor.
Proof. intros H. unfold reader_question. repeat body_step. Qed.

Lemma body_resource_record cursor :
  HEADER_LENGTH <= cursor -> resource_record w cursor = resource_record w' cursor.
Proof. intros H. unfold resource_record. repeat body_step. Qed.

Lemma body_txt_loop fuel cursor end_ :
  HEADER_LENGTH <= cursor -> txt_loop fuel w cursor end_ = txt_loop fuel w' cursor end_.
Proof.
  revert cursor. induction fuel as [|fuel IH]; intros cursor H; [done|].
  cbn [txt_loop]. destruct (_ <? _); [|done]. body_step.
  destruct (index _ _) as [b| | |]; try done. cbn [obind]. body_step. apply IH. lia.
Qed.

Lemma body_validate_data r :
  HEADER_LENGTH <= rr_start r -> validate_data w r = validate_data w' r.
Proof.
  intros H. unfold validate_data. destruct (rr_class r) as [class|]; [|done].
  destruct (rr_kind r), class; try done; repeat body_step;
    rewrite body_txt_loop, (proj1 same) by done; done.
Qed.

Lemma body_locate {E} a n :
  HEADER_LENGTH <= a -> locate (E:=E) w a n = locate (E:=E) w' a n.
Proof.
  intros Ha. unfold locate. rewrite (proj1 same). generalize (a + n) as e.
  generalize Ha. generalize a at 1 3 5 as c. generalize (S (length w')) as fuel.
  intros fuel. induction fuel as [|fuel IH]; intros c Hc e; [done|].
  cbn [locate_loop]. rewrite (proj1 same). destruct (_ && _); [|done].
  unfold u16_at, index. rewrite !(body_lookup w w' same c), !(body_lookup w w' same (c + 1)),
    !(body_lookup w w' same (c + 2)), !(body_lookup w w' same (c + 2 + 1)) by lia.
  repeat (destruct (w' !! _) as [?|]; [|done]; cbn [or_panic obind]).
  destruct (checked_add _ _) as [d|] eqn:Hd; [|done]. destruct (_ || _); [done|].
  destruct (_ =? _)%Z; [done|]. apply IH.
  unfold checked_add in Hd. destruct (_ <=? _)%Z; simplify_eq. lia.
Qed.
End body_records.

(** ** The record loop *)

(** The fields of the loop state that end up in the packet. *)
Definition same_state (a b : ParseState) : Prop :=
  ps_cursor a = ps_cursor b /\ ps_edns a = ps_edns b /\ ps_cookie a = ps_cookie b
  /\ ps_authenticated a = ps_authenticated b.

Lemma resource_record_start w c r c' :
  resource_record w c = Ok (r, c') -> c < rr_start r /\ c' = rr_start r /\ rr_start r <= rr_end r.
Proof.
  intros H. pose proof (resource_record_wp w c (fun '(r, c') =>
    c < rr_start r /\ c' = rr_start r /\ rr_start r <= rr_end r)) as Hw.
  rewrite H in Hw. apply Hw. intros r0 c0 (_ & _ & Hle & _) Hb ->. split; [lia|done].
Qed.

Lemma with_context_Ok {A} ctx ctx' (m : outcome ParseError A) a :
  with_context ctx m = Ok a -> with_context ctx' m = Ok a.
Proof. by destruct m. Qed.

Section body_loop.
Context (w w' : list byte).
Hypothesis same : same_body w w'.

Lemma body_parse_opt section r a b s :
  HEADER_LENGTH <= ps_cursor a -> rr_start r = ps_cursor a -> same_state a b ->
  parse_opt w section r a = Ok s ->
  exists s', parse_opt w' section r b = Ok s' /\ same_state s s' /\ ps_cursor a <= ps_cursor s.
Proof.
  intros Hc Hr (Hcur & He & _ & Hau) H. unfold parse_opt in *. rewrite <- He, <- Hcur.
  destruct (_ || _); [done|]. destruct (rr_class r) as [|size]; [done|].
  rewrite (body_take _ _ same) in H by done. destruct (reader_take w' _ _) as [[x c]| | |] eqn:Ht;
    try done. cbn [map_err with_context obind] in *.
  unfold index_range in *. rewrite (body_slice _ _ same) in H by (rewrite Hr; done).
  destruct (slice w' _ _) as [bytes|]; [|done]. cbn [or_panic obind] in *.
  destruct (validate_options bytes) as [[]| | |]; try done. cbn [map_err with_context obind] in *.
  rewrite (body_locate _ _ same) in H by (rewrite Hr; done). inv_ok.
  match goal with H : locate w' _ _ = Ok _ |- _ => rewrite H end. cbn [obind].
  eexists. split; [done|]. apply reader_take_forward in Ht. simpl.
  split; [|lia]. by rewrite <- Hau.
Qed.

Lemma body_parse_plain r a b s :
  HEADER_LENGTH <= ps_cursor a -> rr_start r = ps_cursor a -> same_state a b ->
  parse_plain w r a = Ok s ->
  exists s', parse_plain w' r b = Ok s' /\ same_state s s' /\ ps_cursor a <= ps_cursor s.
Proof.
  intros Hc Hr (Hcur & He & Hk & Hau) H. unfold parse_plain in *. rewrite <- Hcur.
  rewrite (body_take _ _ same) in H by done. destruct (reader_take w' _ _) as [[x c]| | |] eqn:Ht;
    try done. cbn [map_err with_context obind] in *.
  rewrite (body_validate_data _ _ same) in H by (rewrite Hr; done).
  destruct (validate_data w' r) as [[]| | |]; try done. cbn [map_err with_context obind] in *.
  injection H as <-. eexists. split; [done|]. apply reader_take_forward in Ht. simpl.
  split; [done|lia].
Qed.

#[local] Opaque resource_record parse_opt parse_plain.

Lemma body_parse_record section a b s :
  HEADER_LENGTH <= ps_cursor a -> same_state a b ->
  parse_record w section a = Ok s ->
  exists s', parse_record w' section b = Ok s' /\ same_state s s' /\ ps_cursor a <= ps_cursor s.
Proof.
  intros Hc Hab H. pose proof Hab as (Hcur & He & Hk & Hau). unfold parse_record in *.
  rewrite <- Hcur. rewrite (body_resource_record _ _ same) in H by done.
  destruct (resource_record w' (ps_cursor a)) as [[r c]| | |] eqn:Hr; try done.
  cbn [map_err with_context obind] in *. apply resource_record_start in Hr as (Hlt & -> & _).
  apply obind_Ok in H as (s1 & H1 & H). injection H as <-.
  cbv zeta in *.
  match goal with |- exists _, obind ?m _ = _ /\ _ =>
    assert (exists s', m = Ok s' /\ same_state s1 s' /\ rr_start r <= ps_cursor s1)
      as (s' & Hs' & Hss & Hle) end.
  { destruct (bool_decide _); [eapply body_parse_opt in H1|eapply body_parse_plain in H1];
      try exact H1; try done; simpl; lia. }
  rewrite Hs'. cbn [obind]. eexists. split; [done|]. destruct Hss as (? & ? & ? & Ha).
  cbn [ps_cursor]. split; [|lia]. unfold same_state.
  cbn [ps_cursor ps_edns ps_cookie ps_authenticated]. by rewrite <- Ha.
Qed.

Lemma body_parse_records section count : forall a b s,
  HEADER_LENGTH <= ps_cursor a -> same_state a b ->
  parse_records w section count a = Ok s ->
  exists s', parse_records w' section count b = Ok s' /\ same_state s s' /\ ps_cursor a <= ps_cursor s.
Proof.
  induction count as [|count IH]; intros a b s Hc Hab H; cbn [parse_records] in *.
  - injection H as <-. eauto.
  - apply obind_Ok in H as (s1 & H1 & H).
    eapply body_parse_record in H1 as (s1' & -> & Hs1 & Hle); [|done|done]. cbn [obind].
    eapply IH in H as (s' & -> & Hs & Hle'); [|lia|done]. eexists. split; [done|]. split; [done|lia].
Qed.

Lemma body_parse_sections sections : forall a b s,
  HEADER_LENGTH <= ps_cursor a -> same_state a b ->
  parse_sections w sections a = Ok s ->
  exists s', parse_sections w' sections b = Ok s' /\ same_state s s'.
Proof.
  induction sections as [|[section count] sections IH]; intros a b s Hc Hab H;
    cbn [parse_sections] in *.
  - injection H as <-. eauto.
  - apply obind_Ok in H as (s1 & H1 & H).
    eapply body_parse_records in H1 as (s1' & -> & Hs1 & Hle); [|done|done]. cbn [obind].
    eapply IH in H as (s' & -> & Hs); [|lia|done]. eauto.
Qed.

#[local] Opaque reader_question parse_record.

Lemma body_parse_questions count cursor acc :
  HEADER_LENGTH <= cursor ->
  parse_questions w count cursor acc = parse_questions w' count cursor acc.
Proof.
  revert cursor acc. induction count as [|count IH]; intros cursor acc Hc; [done|].
  cbn [parse_questions]. rewrite (body_question _ _ same) by done.
  destruct (reader_question w' cursor) as [[q c]| | |] eqn:Hq; try done. cbn [obind].
  apply IH. assert (wp (reader_question w' cursor) (fun '(_, c') => cursor < c')) as Hw
    by (apply reader_question_wp; intros; lia). rewrite Hq in Hw. simpl in Hw. lia.
Qed.

Lemma parse_questions_forward v count cursor acc qs c :
  HEADER_LENGTH <= cursor -> parse_questions v count cursor acc = Ok (qs, c) -> HEADER_LENGTH <= c.
Proof.
  revert cursor acc. induction count as [|count IH]; intros cursor acc Hc H; cbn in H.
  - naive_solver.
  - apply obind_Ok in H as ([q c'] & Hq & H). apply IH in H; [done|].
    assert (wp (reader_question v cursor) (fun '(_, c') => cursor < c')) as Hw
      by (apply reader_question_wp; intros; lia). rewrite Hq in Hw. simpl in Hw. lia.
Qed.
End body_loop.

(** ** Replacing the ID *)

Definition header_set_id (h : Header) (id : Z) : Header := MkHeader id (h_flags h) (h_counts h).

Definition packet_set_id (p : Packet) (id : Z) : Packet :=
  MkPacket (to_be16 id ++ drop 2 (wire p)) (header_set_id (header p) id) (questions p) (edns p)
    (authenticated p) (cookie p).

Lemma header_parse_set_id w h id :
  is_u16 id -> header_parse w = Ok h ->
  header_parse (to_be16 id ++ drop 2 w) = Ok (header_set_id h id)
  /\ same_body w (to_be16 id ++ drop 2 w).
Proof.
  intros Hid Hh. destruct (header_parse_Ok _ _ Hh) as (Hl & (_ & Hf & Hc) & Hw).
  assert (to_be16 id ++ drop 2 w = header_encode (header_set_id h id) ++ drop 12 w) as Heq.
  { rewrite Hw at 1. unfold header_encode. by rewrite <- !app_assoc. }
  split.
  - rewrite Heq. by apply header_parse_encode.
  - split.
    + unfold HEADER_LENGTH in *. rewrite length_app, length_drop, length_to_be16. lia.
    + rewrite Heq. by rewrite drop_app_length' by done.
Qed.

(** No later step reads the header again: only the counts, the opcode and the
    message type it was decoded to matter. *)
Lemma packet_parse_same_body w w' p h' :
  same_body w w' -> header_parse w' = Ok h' -> packet_parse w = Ok p ->
  h_counts h' = h_counts (header p) -> header_opcode h' = header_opcode (header p) ->
  message_type h' = message_type (header p) ->
  packet_parse w' = Ok (MkPacket w' h' (questions p) (edns p) (authenticated p) (cookie p)).
Proof.
  intros Hb Hh' Hp Hcounts Hop Hty. pose proof (packet_parse_Ok _ _ Hp) as [Hwf Hwire].
  pose proof (pw_header _ Hwf) as Hh. rewrite Hwire in Hh. rename Hp into H.
  apply map_err_Ok, map_err_Ok in H. unfold parse_inner in H.
  destruct (_ <? _)%Z eqn:Hsize; [done|].
  rewrite Hh in H. cbn [with_context map_err obind] in H. cbn zeta in H.
  unfold packet_parse, parse, parse_inner.
  rewrite <- (proj1 Hb), Hsize, Hh'. cbn [with_context map_err obind]. cbn zeta.
  rewrite Hcounts, Hop, Hty.
  destruct (_ && _); [done|].
  destruct (usize_sub _ _) as [n| | |]; try done. cbn [obind] in *. destruct (n <? _); [done|].
  rewrite <- (body_parse_questions w w' Hb) by lia.
  destruct (parse_questions w _ _ _) as [[qs c]| | |] eqn:Hq; try done.
  cbn [with_context map_err obind] in *. apply parse_questions_forward in Hq; [|lia].
  apply obind_Ok in H as (st & Hst & H).
  match goal with |- context [parse_sections w' _ ?b] =>
    eapply (body_parse_sections w w' Hb _ _ b) in Hst as (st' & Hst' & (Hc & He & Hk & Ha));
      [|done|done] end.
  rewrite Hst'.
  cbn [obind]. rewrite <- Hc. destruct (negb _); [done|]. injection H as <-. cbn [map_err].
  cbn [questions edns authenticated cookie]. by rewrite He, Hk, Ha.
Qed.

Lemma packet_parse_set_id w p id :
  is_u16 id -> packet_parse w = Ok p ->
  packet_parse (to_be16 id ++ drop 2 w) = Ok (packet_set_id p id).
Proof.
  intros Hid H. pose proof (packet_parse_Ok _ _ H) as [Hwf Hwire].
  pose proof (pw_header _ Hwf) as Hh. rewrite Hwire in Hh.
  destruct (header_parse_set_id w (header p) id Hid Hh) as [Hh' Hb].
  unfold packet_set_id. rewrite Hwire. by eapply packet_parse_same_body.
Qed.

(** ** Clearing RA *)

Definition header_clear_ra (h : Header) : Header :=
  MkHeader (h_id h) (Z.ldiff (h_flags h) RA_MASK) (h_counts h).

Definition set_flags (w : list byte) (h : Header) : list byte := header_encode h ++ drop 12 w.

Definition packet_clear_ra (p : Packet) : Packet :=
  let h := header_clear_ra (header p) in
  MkPacket (set_flags (wire p) h) h (questions p) (edns p) (authenticated p) (cookie p).

Lemma clear_ra_flags hi lo :
  be16 hi (u8_and lo (u8_not (z2b RA_MASK))) = Z.ldiff (be16 hi lo) RA_MASK.
Proof.
  assert (forall hi lo,
    (be16 hi (u8_and lo (u8_not (z2b RA_MASK))) =? Z.ldiff (be16 hi lo) RA_MASK)%Z = true) as H.
  { intros hi'. apply byte_forall. revert hi'. apply byte_forall. vm_compute. reflexivity. }
  apply Z.eqb_eq, H.
Qed.

(** [without_recursion] clears RA and nothing else: the reply parses to the same
    packet with that flag cleared. *)
Section without_recursion.
Context (b0 b1 b2 b3 b4 b5 b6 b7 b8 b9 b10 b11 : byte) (rest : list byte).
Let w := header_bytes b0 b1 b2 b3 b4 b5 b6 b7 b8 b9 b10 b11 ++ rest.
Let cleared :=
  header_bytes b0 b1 b2 (u8_and b3 (u8_not (z2b RA_MASK))) b4 b5 b6 b7 b8 b9 b10 b11 ++ rest.

Lemma header_parse_cleared :
  header_parse cleared = Ok (header_clear_ra (header_of_bytes b0 b1 b2 b3 b4 b5 b6 b7 b8 b9 b10 b11)).
Proof.
  unfold cleared. rewrite header_parse_bytes. unfold header_of_bytes, header_clear_ra.
  cbn [h_id h_flags h_counts]. by rewrite clear_ra_flags.
Qed.

Lemma clear_ra_keeps_type h :
  message_type (header_clear_ra h) = message_type h
  /\ header_opcode (header_clear_ra h) = header_opcode h.
Proof.
  unfold message_type, header_opcode, header_clear_ra. cbn [h_flags].
  assert (forall m, Z.land RA_MASK m = 0%Z -> Z.land (Z.ldiff (h_flags h) RA_MASK) m
            = Z.land (h_flags h) m) as Hm.
  { intros m H0. apply Z.bits_inj'. intros i _. rewrite !Z.land_spec, Z.ldiff_spec.
    apply (f_equal (fun z => Z.testbit z i)) in H0. rewrite Z.land_spec, Z.bits_0 in H0.
    destruct (Z.testbit RA_MASK i), (Z.testbit m i), (Z.testbit (h_flags h) i); done. }
  by rewrite !Hm by done.
Qed.

Lemma without_recursion_bytes {E} p :
  packet_parse w = Ok p ->
  without_recursion (E:=E) w = Ok (wire (packet_clear_ra p))
  /\ packet_parse (wire (packet_clear_ra p)) = Ok (packet_clear_ra p).
Proof.
  intros Hp. pose proof (packet_parse_Ok _ _ Hp) as [Hwf Hwire].
  pose proof (pw_header _ Hwf) as Hh. rewrite Hwire in Hh.
  unfold w in Hh. rewrite header_parse_bytes in Hh. injection Hh as Hh.
  assert (wire (packet_clear_ra p) = cleared) as Hw.
  { unfold packet_clear_ra, set_flags. cbn [wire]. rewrite <- Hh, Hwire.
    unfold header_encode, header_clear_ra, header_of_bytes.
    cbn [h_id h_flags h_counts qdcount ancount nscount arcount].
    by rewrite <- clear_ra_flags, !to_be16_be16. }
  split; [by rewrite Hw|]. unfold packet_clear_ra. cbv zeta.
  change (set_flags (wire p) (header_clear_ra (header p))) with (wire (packet_clear_ra p)).
  rewrite Hw. destruct (clear_ra_keeps_type (header p)).
  apply (packet_parse_same_body w cleared p); [done| |done|done|done|done].
  rewrite header_parse_cleared. by rewrite Hh.
Qed.
End without_recursion.

Lemma without_recursion_spec {E} w p :
  packet_parse w = Ok p ->
  without_recursion (E:=E) w = Ok (wire (packet_clear_ra p))
  /\ packet_parse (wire (packet_clear_ra p)) = Ok (packet_clear_ra p).
Proof.
  intros Hp. pose proof (packet_parse_Ok _ _ Hp) as [Hwf Hwire].
  destruct (header_parse_Ok _ _ (pw_header _ Hwf)) as (Hl & _ & _).
  rewrite Hwire in Hl. unfold HEADER_LENGTH in Hl.
  do 12 (destruct w as [|? w]; [simpl in Hl; lia|]). by apply without_recursion_bytes.
Qed.
