(* ===== verification/Samples.v ===== *)
(** * Sample messages

    Concrete messages at which the witnesses of the development evaluate its
    definitions: the query [a.test A IN] with and without EDNS, upstream
    responses to it, and malformed variants. *)

From S2P Require Import Prelude Types Name Message Parser.

Definition bytes_of (l : list nat) : list byte := n2b <$> l.

(** The question [a.test A IN], and [a.test AXFR IN]. *)
Definition question_a : list nat := [1; 97; 4; 116; 101; 115; 116; 0; 0; 1; 0; 1].
Definition question_axfr : list nat := [1; 97; 4; 116; 101; 115; 116; 0; 0; 252; 0; 1].

(** An OPT record with version [v], the DO bit, and the options [os]. *)
Definition opt_of (v : nat) (os : list nat) : list nat :=
  [0; 0; 41; 4; 208; 0; v; 128; 0; 0; length os] ++ os.
(** COOKIE options with a client cookie alone, and with a server cookie. *)
Definition client_cookie : list nat := [0; 10; 0; 8; 1; 2; 3; 4; 5; 6; 7; 8].
Definition server_cookie (s : nat) : list nat :=
  [0; 10; 0; 16; 1; 2; 3; 4; 5; 6; 7; 8; s; s; s; s; s; s; s; s].

(** Header words: QR set or clear, RD, the response code. *)
Definition sample_query : list byte :=
  bytes_of ([18; 52; 1; 0; 0; 1; 0; 0; 0; 0; 0; 0] ++ question_a).
Definition sample_edns_query : list byte :=
  bytes_of ([18; 52; 1; 0; 0; 1; 0; 0; 0; 0; 0; 1] ++ question_a ++ opt_of 0 []).
Definition sample_cookie_query : list byte :=
  bytes_of ([18; 52; 1; 0; 0; 1; 0; 0; 0; 0; 0; 1] ++ question_a ++ opt_of 0 client_cookie).
Definition sample_badvers_query : list byte :=
  bytes_of ([18; 52; 1; 0; 0; 1; 0; 0; 0; 0; 0; 1] ++ question_a ++ opt_of 1 []).
Definition sample_axfr_query : list byte :=
  bytes_of ([18; 52; 1; 0; 0; 1; 0; 0; 0; 0; 0; 0] ++ question_axfr).
(** A query whose OPT record names an option longer than the record. *)
Definition sample_bad_options : list byte :=
  bytes_of ([18; 52; 1; 0; 0; 1; 0; 0; 0; 0; 0; 1] ++ question_a ++ opt_of 0 [0; 10; 0; 9]).

(** Responses: an A record, BADCOOKIE with a server cookie, and TC. *)
Definition sample_response : list byte :=
  bytes_of ([18; 52; 129; 128; 0; 1; 0; 1; 0; 0; 0; 0] ++ question_a
            ++ [192; 12; 0; 1; 0; 1; 0; 0; 0; 60; 0; 4; 192; 0; 2; 1]).
Definition sample_badcookie_response : list byte :=
  bytes_of ([18; 52; 129; 135; 0; 1; 0; 0; 0; 0; 0; 1] ++ question_a
            ++ [0; 0; 41; 4; 208; 1; 0; 128; 0; 0; 20] ++ server_cookie 9).
Definition sample_truncated_response : list byte :=
  bytes_of ([18; 52; 131; 128; 0; 1; 0; 1; 0; 0; 0; 0] ++ question_a ++ [192]).

(** The packet of a message that parses. *)
Definition parsed (w : list byte) : Packet :=
  match packet_parse w with
  | Ok p => p
  | _ => MkPacket [] (MkHeader 0 0 (MkCounts 0 0 0 0)) [] None false None
  end.
