(* ===== verification/Sent.v ===== *)
(** * Queries as sent, and the responses accepted for them

    The last part of [src/src/dns/message.rs]: [Query], [SentQuery] and
    [Response].  The outgoing bytes and their decoded view travel together, and
    a response is accepted only against the query actually sent. *)

From S2P Require Import Prelude Types Name Message Cookie Net Reply Parser Body Samples.

(** ** [Query] *)

Definition query_local_a_reply {E} (q : Query) (address : Ipv4Addr) (ttl : Z)
    : outcome E (option (list byte)) := local_a_reply (query_packet q) address ttl.
Definition query_get_name (q : Query) : DomainName := q_name (query_question q).
Definition query_id (q : Query) : Z := h_id (header (query_packet q)).
Definition query_with_id {E} (q : Query) (id : Z) : outcome E (list byte) :=
  packet_with_id (query_packet q) id.
Definition query_udp_limit (q : Query) : Z := udp_limit (query_packet q).
Definition query_error_reply {E} (q : Query) (code : ResponseCode) : outcome E (option (list byte)) :=
  local_error_reply (query_packet q) code.
Definition query_truncated_reply {E} (q : Query) (response : Response) : outcome E (list byte) :=
  truncated_reply (query_packet q) response.

(** ** [SentQuery] *)

Record SentQuery := MkSent { sent_packet : Packet; cookie_required : bool }.

Definition query_sent {E} (q : Query) (id : Z) : outcome E SentQuery :=
  let p := query_packet q in
  let* w := query_with_id q id in
  Ok (MkSent
        (MkPacket w (MkHeader id (h_flags (header p)) (h_counts (header p)))
           (questions p) (edns p) (authenticated p) (cookie p))
        false).

Definition sent_wire (s : SentQuery) : list byte := wire (sent_packet s).

Definition sent_matches_truncated {E} (s : SentQuery) (w : list byte) : outcome E bool :=
  matches_truncated (sent_packet s) w (h_id (header (sent_packet s))).

Definition validate_response {E} (s : SentQuery) (response : Packet) : outcome E (option Response) :=
  let* decision := validate_query (sent_packet s) in
  match decision with
  | Forward query =>
    if is_truncated response
       || negb (corresponds_to response query (h_id (header (sent_packet s))))
    then Ok None
    else
      let* valid := valid_response (sent_packet s) response (cookie_required s) in
      if valid : bool then Ok (Some (MkResponse response)) else Ok None
  | _ => Ok None
  end.

Definition server_cookie_retry {E} (s : SentQuery) (response : Response)
    : outcome E ServerCookieRetry :=
  cookie_retry (sent_packet s) (response_packet response).

Definition sent_retry (w : list byte) (id : Z) : outcome ParseError SentQuery :=
  let* w := copy_at w 0 (to_be16 id) in
  let* p := packet_parse w in
  Ok (MkSent p true).

(** ** [Response] *)

Definition response_wire (r : Response) : list byte := wire (response_packet r).
Definition response_rcode (r : Response) : ResponseCode := response_code (response_packet r).
Definition response_with_id {E} (r : Response) (id : Z) : outcome E (list byte) :=
  packet_with_id (response_packet r) id.

(** ** Replacing the ID *)

Lemma copy_at_id {E} (w : list byte) id :
  2 <= length w -> copy_at (E:=E) w 0 (to_be16 id) = Ok (to_be16 id ++ drop 2 w).
Proof.
  intros H. unfold copy_at. rewrite length_to_be16, (proj2 (Nat.leb_le _ _)) by lia. done.
Qed.

Lemma packet_with_id_Ok {E} p id :
  packet_wf p -> packet_with_id (E:=E) p id = Ok (to_be16 id ++ drop 2 (wire p)).
Proof.
  intros Hp. apply copy_at_id. destruct (header_parse_Ok _ _ (pw_header _ Hp)) as [Hl _].
  unfold HEADER_LENGTH in *. lia.
Qed.

(** ** Consistency of a query as sent *)

(** A sent query holds the packet of its own bytes, and could be forwarded. *)
Record sent_wf (s : SentQuery) : Prop := {
  sent_parses : packet_parse (sent_wire s) = Ok (sent_packet s);
  sent_forwardable : exists q, forwardable (sent_packet s) q
}.

Lemma packet_wf_parses w p : packet_parse w = Ok p -> w = wire p.
Proof. by intros [_ ->]%packet_parse_Ok. Qed.

Lemma forwardable_set_id p q id : forwardable p q -> forwardable (packet_set_id p id) q.
Proof. intros []. by split. Qed.

Lemma query_sent_set_id {E} w p q id :
  packet_parse w = Ok p -> query_packet q = p ->
  query_sent (E:=E) q id = Ok (MkSent (packet_set_id p id) false).
Proof.
  intros [Hp _]%packet_parse_Ok Hq. unfold query_sent, query_with_id. rewrite Hq.
  by rewrite packet_with_id_Ok.
Qed.

Lemma query_sent_wf {E} w p q id :
  packet_parse w = Ok p -> validate_query (E:=E) p = Ok (Forward q) -> is_u16 id ->
  exists s, query_sent (E:=E) q id = Ok s /\ sent_wf s /\ cookie_required s = false
    /\ sent_packet s = packet_set_id p id.
Proof.
  intros Hw Hv Hid. apply validate_query_forward in Hv as [Hq Hf].
  rewrite (query_sent_set_id w p) by done. eexists. split; [done|]. split; [|done].
  pose proof (packet_wf_parses _ _ Hw). subst w. split.
  - unfold sent_wire. cbn [sent_packet packet_set_id wire]. by apply packet_parse_set_id.
  - eexists. by apply forwardable_set_id.
Qed.

Lemma sent_packet_wf s : sent_wf s -> packet_wf (sent_packet s).
Proof. intros [Hp _]. by apply packet_parse_Ok in Hp as [? _]. Qed.

(** ** Accepting a response *)

(** What makes [r] a response to the query [s] as sent. *)
Record accepts (s : SentQuery) (r : Packet) : Prop := {
  ac_type : message_type (header r) = MtResponse;
  ac_id : h_id (header r) = h_id (header (sent_packet s));
  ac_opcode : header_opcode (header r) = OpQuery;
  ac_complete : is_truncated r = false;
  ac_questions : questions r ≡ questions (sent_packet s);
  ac_version : forall e, edns r = Some e -> version e = 0%Z;
  ac_edns : is_Some (edns r) -> is_Some (edns (sent_packet s));
  ac_unsigned : authenticated r = false;
  ac_cookie :
    (cookie r = None /\ cookie_required s = false /\ response_code r <> BadCookie)
    \/ correlated_cookie (sent_packet s) r
}.

Lemma corresponds_to_spec r q id :
  corresponds_to r q id = true <->
  message_type (header r) = MtResponse /\ h_id (header r) = id
  /\ header_opcode (header r) = header_opcode (header (query_packet q))
  /\ questions r ≡ questions (query_packet q)
  /\ (forall e, edns r = Some e -> version e = 0%Z)
  /\ (is_Some (edns r) -> is_Some (edns (query_packet q)))
  /\ authenticated r = false.
Proof.
  unfold corresponds_to.
  rewrite !andb_true_iff, !bool_decide_eq_true, Z.eqb_eq, questions_eqb_spec, negb_true_iff.
  assert (is_none_or (fun opt => version opt =? 0)%Z (edns r) = true
          <-> forall e, edns r = Some e -> version e = 0%Z) as ->.
  { destruct (edns r); simpl; [rewrite Z.eqb_eq|]; naive_solver. }
  assert (is_some (edns (query_packet q)) || negb (is_some (edns r)) = true
          <-> (is_Some (edns r) -> is_Some (edns (query_packet q)))) as ->.
  { destruct (edns r), (edns (query_packet q)); simpl; split; try done; try naive_solver. }
  tauto.
Qed.

Lemma validate_response_spec {E} s r :
  sent_wf s -> packet_wf r ->
  exists o, validate_response (E:=E) s r = Ok o
    /\ (o = Some (MkResponse r) /\ accepts s r \/ o = None /\ ~ accepts s r).
Proof.
  intros Hs Hr. pose proof (sent_packet_wf _ Hs) as Hp. destruct Hs as [_ [q Hq]].
  unfold validate_response.
  rewrite (proj2 (validate_query_forward (sent_packet s) (MkQuery (sent_packet s) q))) by done.
  cbn [obind]. set (id := h_id _).
  pose proof (corresponds_to_spec r (MkQuery (sent_packet s) q) id) as Hc. cbn [query_packet] in Hc.
  pose proof (fwd_opcode _ _ Hq) as Hop. rewrite Hop in Hc.
  destruct (is_truncated r || _) eqn:Ht.
  { eexists. split; [done|]. right. split; [done|]. intros [].
    apply orb_true_iff in Ht as [Ht|Ht]; [congruence|]. apply negb_true_iff in Ht.
    rewrite (proj2 Hc) in Ht; done. }
  bool_to_prop. match goal with H : corresponds_to _ _ _ = true |- _ => apply Hc in H as Hcc end.
  destruct (valid_response_spec (E:=E) (sent_packet s) r (cookie_required s)) as (b & -> & Hb);
    [apply Hp|apply Hr|].
  cbn [obind]. destruct b; eexists; (split; [done|]).
  - left. split; [done|]. apply proj1 in Hb. specialize (Hb eq_refl).
    destruct Hcc as (? & ? & ? & ? & ? & ? & ?). by split.
  - right. split; [done|]. intros []. by apply (proj2 Hb) in ac_cookie0.
Qed.

Lemma validate_response_accepts {E} s r o :
  sent_wf s -> packet_wf r -> validate_response (E:=E) s r = Ok (Some o) ->
  response_packet o = r /\ accepts s r.
Proof.
  intros Hs Hr H. destruct (validate_response_spec (E:=E) s r Hs Hr) as (o' & Ho & [[-> ?]|[-> ?]]);
    rewrite H in Ho; simplify_eq. done.
Qed.

(** The same for any sent query whose packet is that of its bytes: the policy
    is checked again on the way back. *)
Lemma validate_response_any {E} s r :
  packet_parse (sent_wire s) = Ok (sent_packet s) -> packet_wf r ->
  exists o, validate_response (E:=E) s r = Ok o
    /\ forall x, o = Some x -> response_packet x = r /\ sent_wf s /\ accepts s r.
Proof.
  intros Hs Hr. destruct (validate_query_total (E:=E) (sent_packet s)) as [d Hd].
  destruct d as [q| |]; [|eexists; unfold validate_response; by rewrite Hd..].
  assert (sent_wf s) as Hwf.
  { split; [done|]. apply validate_query_forward in Hd as [_ ?]. by eexists. }
  destruct (validate_response_spec (E:=E) s r Hwf Hr) as (o & Ho & [[-> ?]|[-> ?]]);
    eexists; (split; [exact Ho|]); [by intros x [= <-]|done].
Qed.

(** A retry holds the packet of its own bytes and requires a cookie. *)
Lemma sent_retry_wp w id :
  2 <= length w ->
  wp (sent_retry w id) (fun s =>
    packet_parse (sent_wire s) = Ok (sent_packet s) /\ cookie_required s = true).
Proof.
  intros Hl. unfold sent_retry. rewrite copy_at_id by done. cbn [obind].
  pose proof (packet_parse_wp (to_be16 id ++ drop 2 w)) as Hp.
  destruct (packet_parse _) as [p|e| |] eqn:Hw; [|done..]. simpl.
  destruct Hp as [_ Hwire]. unfold sent_wire. cbn [sent_packet]. by rewrite Hwire.
Qed.

(** ** Properties *)

(** C12: a query is sent with its ID replaced and nothing else, and the decoded
    view that travels with it is exactly the packet of the bytes sent: parsing
    them again gives it back, still forwardable, for every ID. *)
Theorem sent_query_is_reparsed w p q id :
  packet_parse w = Ok p -> validate_query (E:=ParseError) p = Ok (Forward q) -> is_u16 id ->
  exists s, query_sent (E:=ParseError) q id = Ok s
    /\ sent_wire s = to_be16 id ++ drop 2 w
    /\ packet_parse (sent_wire s) = Ok (sent_packet s)
    /\ validate_query (E:=ParseError) (sent_packet s)
       = Ok (Forward (MkQuery (sent_packet s) (query_question q)))
    /\ h_id (header (sent_packet s)) = id.
Proof.
  intros Hw Hv Hid. pose proof (packet_wf_parses _ _ Hw) as Hww.
  destruct (query_sent_wf w p q id Hw Hv Hid) as (s & Hs & [Hp _] & _ & Hsp).
  exists s. split; [done|]. unfold sent_wire in *. rewrite Hsp in *.
  split; [by rewrite Hww|]. split; [done|]. split; [|done].
  apply validate_query_forward. split; [done|]. apply forwardable_set_id.
  by apply validate_query_forward in Hv as [_ ?].
Qed.

Lemma sent_query_is_reparsed_witness :
  let p := parsed sample_edns_query in
  exists s, query_sent (E:=ParseError)
      (MkQuery p (MkQuestion (MkName [[x61]; [x74; x65; x73; x74]]) TA CIn)) 0xbeef = Ok s
    /\ sent_wire s = to_be16 0xbeef ++ drop 2 sample_edns_query
    /\ packet_parse (sent_wire s) = Ok (sent_packet s)
    /\ validate_query (E:=ParseError) (sent_packet s)
       = Ok (Forward (MkQuery (sent_packet s) (MkQuestion (MkName [[x61]; [x74; x65; x73; x74]]) TA CIn)))
    /\ h_id (header (sent_packet s)) = 0xbeef%Z.
Proof.
  apply (sent_query_is_reparsed sample_edns_query (parsed sample_edns_query)
    (MkQuery (parsed sample_edns_query) (MkQuestion (MkName [[x61]; [x74; x65; x73; x74]]) TA CIn)));
    [vm_compute; reflexivity | vm_compute; reflexivity | vm_compute; split; [intros [=]|reflexivity]].
Defined.

(** C6: a response is accepted exactly when it is complete, carries the ID the
    query was sent with, answers the same question, keeps to EDNS version zero
    only where the query used EDNS, is unsigned, and either shares the client
    cookie that was sent or carries none where none is required. *)
Theorem response_accepted_iff s w' r :
  sent_wf s -> packet_parse w' = Ok r ->
  (validate_response (E:=ParseError) s r = Ok (Some (MkResponse r)) <-> accepts s r)
  /\ (validate_response (E:=ParseError) s r = Ok None <-> ~ accepts s r).
Proof.
  intros Hs [Hr _]%packet_parse_Ok.
  destruct (validate_response_spec (E:=ParseError) s r Hs Hr) as (o & -> & [[-> ?]|[-> ?]]);
    (split; split; [done|done|done|done]).
Qed.

(** The sample query as sent with its own ID. *)
Definition sample_sent : SentQuery := MkSent (parsed sample_query) false.

Lemma sample_sent_wf : sent_wf sample_sent.
Proof.
  assert (validate_query (E:=ParseError) (parsed sample_query)
    = Ok (Forward (MkQuery (parsed sample_query) (MkQuestion (MkName [[x61]; [x74; x65; x73; x74]]) TA CIn))))
    as H by by vm_compute.
  apply validate_query_forward in H as [_ H]. split; [by vm_compute|by eexists].
Qed.

Lemma response_accepted_iff_witness :
  let r := parsed sample_response in
  validate_response (E:=ParseError) sample_sent r = Ok (Some (MkResponse r))
  /\ (validate_response (E:=ParseError) sample_sent r = Ok (Some (MkResponse r))
      <-> accepts sample_sent r)
  /\ (validate_response (E:=ParseError) sample_sent r = Ok None <-> ~ accepts sample_sent r).
Proof.
  split; [vm_compute; reflexivity|]. apply (response_accepted_iff _ sample_response);
    [exact sample_sent_wf | vm_compute; reflexivity].
Defined.
