(* ===== verification/LocalReply.v ===== *)
(** * Local replies parse back

    What the encoder of [Reply] promises to clients: every reply it makes is a
    complete message, which the parser of [Parser] reads as a response to the
    packet it answers. *)

From S2P Require Import Prelude Types Name Message Cookie Net Reply Parser.

(** ** Reading freshly encoded fields *)

Definition fits (w : list byte) : Prop := (Z.of_nat (length w) <= MAX_MESSAGE_LENGTH)%Z.

Section read_back.
Context (w pre post : list byte).
Hypothesis w_fits : fits w.

Lemma reader_take_mid s n :
  w = pre ++ s ++ post -> n = length s ->
  reader_take w (length pre) n = Ok (s, length pre + n).
Proof.
  unfold fits, MAX_MESSAGE_LENGTH in w_fits. intros Hw ->. unfold reader_take, checked_add.
  assert (length w = length pre + length s + length post) as Hl by (rewrite Hw; len).
  unfold USIZE_MAX. rewrite (proj2 (Z.leb_le _ _)) by lia. cbn [ok_or obind].
  rewrite Hw, slice_mid. done.
Qed.

Lemma reader_word_mid v :
  w = pre ++ to_be16 v ++ post -> is_u16 v ->
  reader_word w (length pre) = Ok (v, length pre + 2).
Proof.
  intros Hw Hv. unfold reader_word. rewrite (reader_take_mid (to_be16 v)) by done.
  unfold to_be16, index. cbn. by rewrite be16_to_be16.
Qed.

Lemma reader_double_word_mid v :
  w = pre ++ to_be32 v ++ post -> is_u32 v ->
  reader_double_word w (length pre) = Ok (v, length pre + 4).
Proof.
  intros Hw Hv. unfold reader_double_word. rewrite (reader_take_mid (to_be32 v)) by done.
  unfold to_be32, index. cbn. by rewrite be32_to_be32.
Qed.
End read_back.

Lemma length_question_encode q :
  length (question_encode q) = wire_size (labels (q_name q)) + 5.
Proof. unfold question_encode. rewrite length_app, length_name_encode. len. Qed.

Lemma reader_question_mid w pre q post :
  fits w -> w = pre ++ question_encode q ++ post -> question_wf q ->
  reader_question w (length pre) = Ok (q, length pre + length (question_encode q)).
Proof.
  intros Hf Hw (Hn & Hk & Hc & Hk16 & Hc16). unfold reader_question.
  unfold question_encode in Hw. rewrite <- !app_assoc in Hw.
  rewrite Hw at 1. rewrite name_decode_encode_at by done. cbn [obind].
  rewrite <- length_app.
  rewrite (reader_word_mid w (pre ++ name_encode (q_name q)) (to_be16 (rclass_wire (q_class q)) ++ post)
    Hf (rtype_wire (q_kind q))) by (rewrite ?Hw, <- ?app_assoc; done).
  cbn [obind].
  replace (length (pre ++ name_encode (q_name q)) + 2)
    with (length (pre ++ name_encode (q_name q) ++ to_be16 (rtype_wire (q_kind q)))) by len.
  rewrite (reader_word_mid w _ post Hf (rclass_wire (q_class q)))
    by (rewrite ?Hw, <- ?app_assoc; done).
  cbn [obind]. unfold rtype_canonical, rclass_canonical in *. rewrite Hk, Hc.
  destruct q. do 2 f_equal. unfold question_encode. len.
Qed.

(** A record envelope behind an owner that decodes to [owner]. *)
Lemma resource_record_mid w pre ob owner kind class ttl len data :
  fits w ->
  w = (pre ++ ob) ++ to_be16 kind ++ to_be16 class ++ to_be32 ttl ++ to_be16 len ++ data ->
  name_decode w (length pre) = Ok (owner, length (pre ++ ob)) ->
  is_u16 kind -> is_u16 class -> is_u32 ttl -> is_u16 len ->
  let start := length (pre ++ ob) + 10 in
  resource_record w (length pre) =
  Ok (MkRecord owner (rtype_from_wire kind)
        (if bool_decide (rtype_from_wire kind = TOpt) then UdpPayload class
         else ClassDns (rclass_from_wire class))
        ttl start (start + Z.to_nat len), start).
Proof.
  intros Hf Hw Hn Hk Hc Ht Hl start. unfold resource_record. rewrite Hn. cbn [obind].
  set (p := pre ++ ob) in *.
  rewrite (reader_word_mid w p _ Hf kind Hw Hk). cbn [obind].
  replace (length p + 2) with (length (p ++ to_be16 kind)) by len.
  rewrite (reader_word_mid w _ (to_be32 ttl ++ to_be16 len ++ data) Hf class)
    by (rewrite ?Hw, <- ?app_assoc; done). cbn [obind].
  replace (length (p ++ to_be16 kind) + 2)
    with (length (p ++ to_be16 kind ++ to_be16 class)) by len.
  rewrite (reader_double_word_mid w _ (to_be16 len ++ data) Hf ttl)
    by (rewrite ?Hw, <- ?app_assoc; done). cbn [obind].
  replace (length (p ++ to_be16 kind ++ to_be16 class) + 4)
    with (length (p ++ to_be16 kind ++ to_be16 class ++ to_be32 ttl)) by len.
  rewrite (reader_word_mid w _ data Hf len)
    by (rewrite ?Hw, <- ?app_assoc; done). cbn [obind].
  replace (length (p ++ to_be16 kind ++ to_be16 class ++ to_be32 ttl) + 2) with start
    by (unfold start; len).
  done.
Qed.

Lemma name_decode_root w p : w !! p = Some x00 -> name_decode w p = Ok (MkName [], p + 1).
Proof.
  intros H. eapply (name_decode_complete _ _ 0); [by apply name_at_root|lia|].
  unfold MAX_NAME_LENGTH. simpl. lia.
Qed.

(** The pointer [c0 0c] to a name encoded right after the header. *)
Lemma name_decode_pointer w p n c :
  name_at w HEADER_LENGTH 0 (labels n) c -> wire_size (labels n) + 1 <= MAX_NAME_LENGTH ->
  HEADER_LENGTH < p -> w !! p = Some xc0 -> w !! (p + 1) = Some x0c ->
  name_decode w p = Ok (n, p + 2).
Proof.
  intros Hn Hs Hp H0 H1. eapply (name_decode_complete _ _ 1); [|unfold MAX_POINTERS; lia|done].
  eapply (name_at_pointer _ _ xc0 x0c HEADER_LENGTH); [done|done| | |unfold HEADER_LENGTH in *; lia|exact Hn];
    vm_compute; [lia|done].
Qed.

(** ** Option lists *)

Lemma validate_options_loop_bytes bytes os : forall fuel pre,
  fits bytes -> bytes = pre ++ options_bytes os -> Forall option_wf os ->
  length os < fuel -> validate_options_loop fuel bytes (length pre) = Ok tt.
Proof.
  induction os as [|[code data] os IH]; intros fuel pre Hf Hb Hwf Hfuel;
    (destruct fuel as [|fuel]; [simpl in Hfuel; lia|]); cbn [validate_options_loop].
  - unfold options_bytes in Hb. simpl in Hb. rewrite app_nil_r in Hb.
    by rewrite Hb, Nat.ltb_irrefl.
  - apply Forall_cons in Hwf as [[Hcode Hlen] Hwf]. simpl in Hcode, Hlen, Hfuel.
    rewrite options_bytes_cons in Hb. unfold option_bytes in Hb. cbn [fst snd] in Hb.
    rewrite <- !app_assoc in Hb.
    rewrite (proj2 (Nat.ltb_lt _ _)) by (rewrite Hb; len).
    rewrite (reader_word_mid bytes pre _ Hf code Hb Hcode). cbn [map_err obind].
    replace (length pre + 2) with (length (pre ++ to_be16 code)) by len.
    rewrite (reader_word_mid bytes _ (data ++ options_bytes os) Hf (Z.of_nat (length data)))
      by (rewrite ?Hb, <- ?app_assoc; done). cbn [map_err obind]. rewrite Nat2Z.id.
    replace (length (pre ++ to_be16 code) + 2)
      with (length (pre ++ to_be16 code ++ to_be16 (Z.of_nat (length data)))) by len.
    rewrite (reader_take_mid bytes _ (options_bytes os) Hf data)
      by (rewrite ?Hb, <- ?app_assoc; done). cbn [map_err obind].
    rewrite <- length_app. apply IH; [done| |done|lia]. by rewrite Hb, <- !app_assoc.
Qed.

Lemma validate_options_bytes os :
  fits (options_bytes os) -> Forall option_wf os -> validate_options (options_bytes os) = Ok tt.
Proof.
  intros Hf Hwf. apply (validate_options_loop_bytes _ os _ []); [done|done|done|].
  pose proof (options_bytes_length os). lia.
Qed.

Lemma fits_app_r a b : fits (a ++ b) -> fits b.
Proof. unfold fits. rewrite length_app. lia. Qed.

(** ** The answer and the OPT record of a reply *)

Lemma parse_record_answer w pre address ttl post n c st :
  fits w -> w = pre ++ answer_bytes (Some (address, ttl)) ++ post ->
  name_at w HEADER_LENGTH 0 (labels n) c -> wire_size (labels n) + 1 <= MAX_NAME_LENGTH ->
  HEADER_LENGTH < length pre -> is_u32 ttl -> ps_cursor st = length pre ->
  parse_record w Answer st
  = Ok (MkState (length pre + 16) (ps_edns st) (ps_cookie st) (ps_authenticated st) (ps_context st)).
Proof.
  intros Hf Hw Hn Hs Hp Httl Hst. unfold parse_record. rewrite Hst.
  unfold answer_bytes in Hw. rewrite <- !app_assoc in Hw.
  rewrite (resource_record_mid w pre [xc0; x0c] n (rtype_wire TA) (rclass_wire CIn) ttl 4
    (octets address ++ post)); cycle 1.
  { done. }
  { by rewrite Hw, <- !app_assoc. }
  { rewrite length_app. eapply name_decode_pointer; [done|done|done| |].
    - rewrite Hw. apply lookup_mid.
    - rewrite Hw. cbn [app]. rewrite (cons_middle xc0), app_assoc.
      replace (length pre + 1) with (length (pre ++ [xc0])) by len. apply lookup_mid. }
  { done. } { done. } { done. } { done. }
  cbn [with_context map_err obind rr_kind].
  change (rtype_from_wire (rtype_wire TA)) with TA.
  rewrite !bool_decide_eq_false_2 by done. unfold parse_plain.
  cbn [ps_cursor ps_context ps_edns ps_cookie ps_authenticated rr_len rr_end rr_start].
  unfold rr_len. cbn [rr_end rr_start]. rewrite add_sub_left.
  set (p := pre ++ [xc0; x0c] ++ to_be16 (rtype_wire TA) ++ to_be16 (rclass_wire CIn)
              ++ to_be32 ttl ++ to_be16 4).
  replace (length (pre ++ [xc0; x0c]) + 10) with (length p) by (unfold p; len).
  assert (reader_take w (length p) 4 = Ok (octets address, length p + 4)) as Htake.
  { apply (reader_take_mid w p post Hf); [|done]. unfold p. by rewrite Hw, <- !app_assoc. }
  change (Z.to_nat 4) with 4. rewrite Htake. cbn [with_context map_err obind].
  unfold validate_data. cbn [rr_class rr_kind rr_start rr_end].
  change (rclass_from_wire (rclass_wire CIn)) with CIn. cbn iota.
  rewrite Htake. cbn [obind]. rewrite Nat.eqb_refl.
  cbn [negb with_context map_err obind].
  cbn [ps_cursor ps_edns ps_cookie ps_authenticated ps_context].
  change (authenticates Answer TA) with false. rewrite orb_false_r.
  do 2 f_equal. unfold p. len.
Qed.

Definition opt_options (c : option (list byte)) : list edns_option :=
  match c with Some c => [(10%Z, c)] | None => [] end.

Definition reply_edns (code : ResponseCode) (opt : GeneratedOpt) : option Edns :=
  match opt with
  | OptPresent dnssec_ok _ =>
    Some (MkEdns SERVER_UDP_LENGTH 0 (Z.shiftr (rcode_wire code) 4) dnssec_ok)
  | OptAbsent => None
  end.

Lemma opt_bytes_options code d c :
  opt_bytes code (OptPresent d c)
  = [x00] ++ to_be16 (rtype_wire TOpt) ++ to_be16 SERVER_UDP_LENGTH ++ to_be32 (opt_ttl code d)
    ++ to_be16 (Z.of_nat (length (options_bytes (opt_options c)))) ++ options_bytes (opt_options c).
Proof.
  unfold opt_bytes. destruct c as [c|]; [|done].
  unfold options_bytes, option_bytes. cbn [opt_options fmap list_fmap concat fst snd].
  by rewrite app_nil_r.
Qed.

Lemma opt_ttl_edns code d :
  (0 <= rcode_wire code < 4096)%Z ->
  is_u32 (opt_ttl code d)
  /\ edns_of_ttl SERVER_UDP_LENGTH (opt_ttl code d)
     = MkEdns SERVER_UDP_LENGTH 0 (Z.shiftr (rcode_wire code) 4) d.
Proof.
  intros Hc. unfold opt_ttl.
  assert (0 <= Z.shiftr (rcode_wire code) 4 < 256)%Z as Hx.
  { rewrite Z.shiftr_div_pow2 by lia. change (2 ^ 4)%Z with 16%Z. Z.div_mod_to_equations. lia. }
  rewrite <- (b2z_z2b_small _ Hx) at 3.
  generalize (z2b (Z.shiftr (rcode_wire code) 4)) as b. intros b.
  set (ttl b := Z.lor (Z.shiftl (b2z b) EXTENDED_RCODE_SHIFT) (if d then DO_MASK else 0)).
  set (e b := edns_of_ttl SERVER_UDP_LENGTH (ttl b)).
  assert (((0 <=? ttl b) && (ttl b <? 4294967296) && (version (e b) =? 0)
           && (extended_rcode (e b) =? b2z b))%Z && Bool.eqb (dnssec_ok (e b)) d = true) as H.
  { unfold e, ttl. destruct d.
    - byte_compute (fun b => let t := Z.lor (Z.shiftl (b2z b) EXTENDED_RCODE_SHIFT) DO_MASK in
        let e := edns_of_ttl SERVER_UDP_LENGTH t in
        ((0 <=? t) && (t <? 4294967296) && (version e =? 0)
           && (extended_rcode e =? b2z b))%Z && Bool.eqb (dnssec_ok e) true).
    - byte_compute (fun b => let t := Z.lor (Z.shiftl (b2z b) EXTENDED_RCODE_SHIFT) 0 in
        let e := edns_of_ttl SERVER_UDP_LENGTH t in
        ((0 <=? t) && (t <? 4294967296) && (version e =? 0)
           && (extended_rcode e =? b2z b))%Z && Bool.eqb (dnssec_ok e) false). }
  bool_to_prop. match goal with H : Bool.eqb _ _ = true |- _ => apply eqb_prop in H as Hd end.
  split; [unfold is_u32; fold (ttl b); lia|]. fold (ttl b). fold (e b).
  destruct (e b) as [u v x d'] eqn:He. simpl in *. subst.
  assert (u = SERVER_UDP_LENGTH) as -> by (unfold e, edns_of_ttl in He; congruence). done.
Qed.

Lemma parse_record_opt w pre code d c st :
  fits w -> w = pre ++ opt_bytes code (OptPresent d c) ->
  (0 <= rcode_wire code < 4096)%Z -> ps_edns st = None -> ps_cursor st = length pre ->
  let e := reply_edns code (OptPresent d c) in
  parse_record w Additional st
  = Ok (MkState (length w) e
          (first_cookie (length pre + 9) (length pre + 11) (opt_options c))
          (ps_authenticated st) (context_set_edns e <$> ps_context st)).
Proof.
  intros Hf Hw Hcode He Hst e. unfold parse_record. rewrite Hst.
  destruct (opt_ttl_edns code d Hcode) as [Httl Hedns].
  rewrite opt_bytes_options in Hw.
  set (ob := options_bytes (opt_options c)) in *.
  assert (fits ob) as Hfo by (rewrite Hw, !app_assoc in Hf; by apply fits_app_r in Hf).
  assert (is_u16 (Z.of_nat (length ob))) as Hlen by (unfold fits, is_u16, MAX_MESSAGE_LENGTH in *; lia).
  assert (Forall option_wf (opt_options c)) as Hwf.
  { destruct c as [c|]; constructor; [|constructor]. split; [done|]. simpl.
    unfold ob, options_bytes in Hlen. simpl in Hlen. unfold is_u16 in *. len. }
  rewrite (resource_record_mid w pre [x00] (MkName []) (rtype_wire TOpt) SERVER_UDP_LENGTH
    (opt_ttl code d) (Z.of_nat (length ob)) ob); try done; cycle 1.
  { by rewrite Hw, <- !app_assoc. }
  { rewrite length_app. apply name_decode_root. rewrite Hw. apply lookup_mid. }
  cbn [with_context map_err obind rr_kind].
  change (rtype_from_wire (rtype_wire TOpt)) with TOpt.
  rewrite !bool_decide_eq_true_2 by done. unfold parse_opt.
  cbn [ps_cursor ps_context ps_edns ps_cookie ps_authenticated rr_owner rr_class rr_ttl].
  rewrite bool_decide_eq_false_2 by (intros Hx; by apply Hx). rewrite He. cbn [is_some orb].
  change (negb (label_count (MkName []) =? 0)) with false. cbn iota. rewrite Hedns.
  fold (reply_edns code (OptPresent d c)). fold e.
  unfold rr_len. cbn [rr_end rr_start]. rewrite Nat2Z.id.
  rewrite add_sub_left.
  set (p := pre ++ [x00] ++ to_be16 (rtype_wire TOpt) ++ to_be16 SERVER_UDP_LENGTH
              ++ to_be32 (opt_ttl code d) ++ to_be16 (Z.of_nat (length ob))).
  assert (w = p ++ ob ++ []) as Hwp by (unfold p; by rewrite Hw, app_nil_r, <- !app_assoc).
  replace (length (pre ++ [x00]) + 10) with (length p) by (unfold p; len).
  assert (length p = length pre + 11) as Hpl by (unfold p; len).
  assert (length w = length p + length ob) as Hwl by (rewrite Hwp; len).
  rewrite (reader_take_mid w p [] Hf ob) by done. cbn [with_context map_err obind].
  unfold index_range. rewrite Hwp at 1.
  rewrite (slice_mid' p ob []) by lia. cbn [or_panic obind].
  unfold ob at 1. rewrite validate_options_bytes by done. cbn [with_context map_err obind].
  rewrite Hwp at 1. unfold ob. rewrite locate_options; [|fold ob; by rewrite <- Hwp|done].
  fold ob. cbn [obind ps_cursor ps_edns ps_cookie ps_authenticated ps_context].
  change (authenticates Additional TOpt) with false. rewrite orb_false_r.
  rewrite Hpl. replace (length pre + 11 - 2) with (length pre + 9) by lia.
  by rewrite Hwl, <- Hpl.
Qed.

(** ** The flag word of a reply *)

Section reply_flags.
Local Open Scope Z_scope.
Context (h : Header) (code : ResponseCode) (tr : bool).

Lemma reply_flags_u16 : header_wf h -> is_u16 (reply_flags h code tr).
Proof.
  intros (_ & Hf & _). unfold reply_flags.
  repeat apply is_u16_lor; try (by apply is_u16_const).
  - by apply is_u16_land.
  - rewrite Z.land_comm. by apply is_u16_land, is_u16_const.
  - by destruct tr; apply is_u16_const.
Qed.

(** What a mask sees of the word: [k] is the part of the mask echoed from the
    request, [c] the constant part, [m] the part in the response code. *)
Lemma reply_flags_mask m :
  Z.land (reply_flags h code tr) m
  = Z.lor (Z.lor (Z.lor (Z.lor
      (Z.land (h_flags h) (Z.land (Z.lor (Z.lor OPCODE_MASK RD_MASK) CD_MASK) m))
      (Z.land QR_MASK m)) (Z.land RA_MASK m))
      (Z.land (rcode_wire code) (Z.land RCODE_MASK m)))
      (Z.land (if tr then TC_MASK else 0) m).
Proof. unfold reply_flags. rewrite 4!Z.land_lor_distr_l. by rewrite !Z.land_assoc. Qed.

(** [flag_bits]: the mask is a constant, so every part but one vanishes. *)
Ltac flag_bits :=
  rewrite reply_flags_mask; destruct tr;
  repeat match goal with
  | |- context [Z.land ?a ?b] =>
    lazymatch a with h_flags _ => fail | rcode_wire _ => fail | _ => idtac end;
    let v := eval vm_compute in (Z.land a b) in
    lazymatch v with
    | Z0 => change (Z.land a b) with 0
    | Zpos _ => change (Z.land a b) with v
    end
  end;
  rewrite ?Z.land_0_r, ?Z.lor_0_r, ?Z.lor_0_l; try done.

Lemma reply_flags_qr : Z.land (reply_flags h code tr) QR_MASK = QR_MASK.
Proof. flag_bits. Qed.
Lemma reply_flags_opcode :
  Z.land (reply_flags h code tr) OPCODE_MASK = Z.land (h_flags h) OPCODE_MASK.
Proof. flag_bits. Qed.
Lemma reply_flags_tc :
  Z.land (reply_flags h code tr) TC_MASK = if tr then TC_MASK else 0.
Proof. flag_bits. Qed.
Lemma reply_flags_rd : Z.land (reply_flags h code tr) RD_MASK = Z.land (h_flags h) RD_MASK.
Proof. flag_bits. Qed.
Lemma reply_flags_cd : Z.land (reply_flags h code tr) CD_MASK = Z.land (h_flags h) CD_MASK.
Proof. flag_bits. Qed.
Lemma reply_flags_ra : Z.land (reply_flags h code tr) RA_MASK = RA_MASK.
Proof. flag_bits. Qed.
(** AA (0x0400) and AD (0x0020) are never claimed; Z (0x0040) is zero. *)
Lemma reply_flags_aa_ad_z : Z.land (reply_flags h code tr) 0x0460 = 0.
Proof. flag_bits. Qed.
Lemma reply_flags_rcode :
  Z.land (reply_flags h code tr) RCODE_MASK = Z.land (rcode_wire code) RCODE_MASK.
Proof. flag_bits. Qed.
End reply_flags.

(** ** The message as a whole *)

Section make_reply.
Context (h : Header) (question : option Question) (code : ResponseCode) (tr : bool)
  (opt : GeneratedOpt) (answer : option (Ipv4Addr * Z)).

(** What the callers of [make_reply] guarantee. *)
Record reply_request_wf : Prop := {
  rq_header : header_wf h;
  rq_question : forall q, question = Some q -> question_wf q;
  rq_code : opt_is_present opt = true -> (0 <= rcode_wire code < 4096)%Z;
  rq_answer : forall a ttl, answer = Some (a, ttl) -> is_u32 ttl /\ is_Some question;
  rq_cookie : forall d c, opt = OptPresent d (Some c) -> length c <= 40
}.

Definition reply_header : Header :=
  MkHeader (h_id h) (reply_flags h code tr)
    (MkCounts (bool_u16 (is_some question)) (bool_u16 (is_some answer)) 0
       (bool_u16 (opt_is_present opt))).

Definition question_bytes : list byte :=
  match question with Some q => question_encode q | None => [] end.

Definition before_opt : list byte :=
  header_encode reply_header ++ question_bytes ++ answer_bytes answer.

Definition reply_cookie : option CookieField :=
  match opt with
  | OptPresent _ c => first_cookie (length before_opt + 9) (length before_opt + 11) (opt_options c)
  | OptAbsent => None
  end.

Definition reply_packet : Packet :=
  MkPacket (make_reply h question code tr opt answer) reply_header
    (option_list question) (reply_edns code opt) false reply_cookie.

Hypothesis request_wf : reply_request_wf.

Lemma length_question_bytes : length question_bytes <= 259.
Proof.
  unfold question_bytes. destruct question as [q|] eqn:Hq; [|simpl; lia].
  destruct (rq_question request_wf q Hq) as ([_ Hs] & _).
  rewrite length_question_encode. unfold MAX_NAME_LENGTH in Hs. lia.
Qed.

Lemma length_answer_bytes : length (answer_bytes answer) <= 16.
Proof. unfold answer_bytes. destruct answer as [[a ttl]|]; len. Qed.

Lemma length_opt_bytes : length (opt_bytes code opt) <= 55.
Proof.
  unfold opt_bytes. destruct opt as [|d [c|]] eqn:Ho; [simpl; lia| |len].
  pose proof (rq_cookie request_wf d c Ho). len.
Qed.

Lemma make_reply_split : make_reply h question code tr opt answer = before_opt ++ opt_bytes code opt.
Proof. unfold make_reply, before_opt. by rewrite <- !app_assoc. Qed.

(** Even the largest local reply is far below the classic UDP limit. *)
Lemma length_make_reply : length (make_reply h question code tr opt answer) <= 342.
Proof.
  rewrite make_reply_split. unfold before_opt. rewrite !length_app, length_header_encode.
  pose proof length_question_bytes. pose proof length_answer_bytes.
  pose proof length_opt_bytes. unfold HEADER_LENGTH. lia.
Qed.

Lemma make_reply_fits : fits (make_reply h question code tr opt answer).
Proof. unfold fits, MAX_MESSAGE_LENGTH. pose proof length_make_reply. lia. Qed.
End make_reply.

(** ** Section by section *)

Lemma parse_questions_option w pre question post :
  fits w -> w = pre ++ question_bytes question ++ post -> length pre = HEADER_LENGTH ->
  (forall q, question = Some q -> question_wf q) ->
  parse_questions w (Z.to_nat (bool_u16 (is_some question))) HEADER_LENGTH []
  = Ok (option_list question, length (pre ++ question_bytes question)).
Proof.
  intros Hf Hw Hp Hq. destruct question as [q|]; cbn [question_bytes] in *.
  - change (Z.to_nat (bool_u16 (is_some (Some q)))) with 1. cbn [parse_questions].
    rewrite <- Hp, (reader_question_mid w pre q post Hf Hw) by auto.
    cbn [obind app option_list]. by rewrite length_app.
  - by rewrite app_nil_r, Hp.
Qed.

Lemma parse_answer_option w pre answer post n c st :
  fits w -> w = pre ++ answer_bytes answer ++ post -> ps_cursor st = length pre ->
  (forall a ttl, answer = Some (a, ttl) ->
     is_u32 ttl /\ HEADER_LENGTH < length pre /\ name_at w HEADER_LENGTH 0 (labels n) c
     /\ wire_size (labels n) + 1 <= MAX_NAME_LENGTH) ->
  parse_records w Answer (Z.to_nat (bool_u16 (is_some answer))) st
  = Ok (MkState (length (pre ++ answer_bytes answer)) (ps_edns st) (ps_cookie st)
          (ps_authenticated st) (ps_context st)).
Proof.
  intros Hf Hw Hst Ha. destruct answer as [[a ttl]|].
  - change (Z.to_nat (bool_u16 (is_some (Some (a, ttl))))) with 1. cbn [parse_records].
    destruct (Ha a ttl eq_refl) as (Httl & Hlt & Hn & Hs).
    rewrite (parse_record_answer w pre a ttl post n c st) by done.
    cbn [obind]. do 2 f_equal. len.
  - change (Z.to_nat (bool_u16 (is_some None))) with 0. simpl.
    rewrite app_nil_r, <- Hst. by destruct st.
Qed.

Lemma parse_opt_option w pre code opt st :
  fits w -> w = pre ++ opt_bytes code opt ->
  (opt_is_present opt = true -> (0 <= rcode_wire code < 4096)%Z) ->
  ps_cursor st = length pre -> ps_edns st = None -> ps_cookie st = None ->
  exists ctx,
    parse_records w Additional (Z.to_nat (bool_u16 (opt_is_present opt))) st
    = Ok (MkState (length w) (reply_edns code opt)
            match opt with
            | OptPresent _ c => first_cookie (length pre + 9) (length pre + 11) (opt_options c)
            | OptAbsent => None
            end (ps_authenticated st) ctx).
Proof.
  intros Hf Hw Hcode Hst He Hk. destruct opt as [|d c].
  - exists (ps_context st). change (Z.to_nat (bool_u16 (opt_is_present OptAbsent))) with 0.
    simpl. rewrite Hw. simpl. rewrite app_nil_r, <- Hst, <- He, <- Hk. by destruct st.
  - change (Z.to_nat (bool_u16 (opt_is_present (OptPresent d c)))) with 1. cbn [parse_records].
    rewrite (parse_record_opt w pre code d c st Hf Hw) by auto.
    cbn [obind]. by eexists.
Qed.

Section parse_reply.
Context (h : Header) (question : option Question) (code : ResponseCode) (tr : bool)
  (opt : GeneratedOpt) (answer : option (Ipv4Addr * Z)).
Hypothesis request_wf : reply_request_wf h question code opt answer.

Lemma reply_header_wf : header_wf (reply_header h question code tr opt answer).
Proof.
  destruct (rq_header _ _ _ _ _ request_wf) as (Hid & Hf & Hc).
  split; [done|]. split; [apply reply_flags_u16; by apply (rq_header _ _ _ _ _ request_wf)|].
  unfold counts_wf, reply_header. cbn [h_counts qdcount ancount nscount arcount].
  assert (forall b, is_u16 (bool_u16 b)) by (intros []; by apply is_u16_const).
  assert (is_u16 0) by by apply is_u16_const. auto.
Qed.

(** The counts of the header fit the message. *)
Lemma make_reply_counts :
  length (make_reply h question code tr opt answer) - HEADER_LENGTH
  <? Z.to_nat (bool_u16 (is_some question)) * (QUESTION_FIXED_LENGTH + 1)
     + sum_list [Z.to_nat (bool_u16 (is_some answer)); Z.to_nat 0;
                 Z.to_nat (bool_u16 (opt_is_present opt))] * (RECORD_FIXED_LENGTH + 1)
  = false.
Proof.
  apply Nat.ltb_ge. rewrite make_reply_split. unfold before_opt.
  rewrite !length_app, length_header_encode.
  assert (Z.to_nat (bool_u16 (is_some question)) * 5 <= length (question_bytes question)).
  { destruct question; simpl; [rewrite length_question_encode|]; lia. }
  assert (Z.to_nat (bool_u16 (is_some answer)) * 11 <= length (answer_bytes answer)).
  { destruct answer as [[a ttl]|]; len. }
  assert (Z.to_nat (bool_u16 (opt_is_present opt)) * 11 <= length (opt_bytes code opt)).
  { destruct opt; simpl; [lia|]. len. }
  unfold HEADER_LENGTH, QUESTION_FIXED_LENGTH, RECORD_FIXED_LENGTH. simpl. lia.
Qed.

(** The question's name, where the answer's pointer finds it. *)
Lemma answer_target w hd post :
  w = hd ++ question_bytes question ++ post -> length hd = HEADER_LENGTH ->
  exists n c, forall a ttl, answer = Some (a, ttl) ->
    is_u32 ttl /\ HEADER_LENGTH < length (hd ++ question_bytes question)
    /\ name_at w HEADER_LENGTH 0 (labels n) c
    /\ wire_size (labels n) + 1 <= MAX_NAME_LENGTH.
Proof.
  intros Hw Hhd. pose proof (rq_answer _ _ _ _ _ request_wf) as Ha.
  pose proof (rq_question _ _ _ _ _ request_wf) as Hq.
  destruct question as [q|] eqn:Hquestion; cycle 1.
  { exists (MkName []), 0. intros a ttl H. by destruct (Ha a ttl H) as [_ [? ?]]. }
  destruct (Hq q eq_refl) as ([Hl Hs] & _).
  exists (q_name q), (length hd + length (name_encode (q_name q))). intros a ttl H.
  split; [by apply (Ha a ttl)|]. cbn [question_bytes] in *.
  split; [rewrite length_app, length_question_encode; lia|]. split; [|done].
  rewrite Hw. unfold question_encode. rewrite <- !app_assoc, <- Hhd. by apply name_encode_at.
Qed.

Lemma packet_parse_make_reply :
  packet_parse (make_reply h question code tr opt answer)
  = Ok (reply_packet h question code tr opt answer).
Proof.
  set (w := make_reply h question code tr opt answer).
  set (hd := header_encode (reply_header h question code tr opt answer)).
  assert (fits w) as Hf by by apply make_reply_fits.
  assert (w = hd ++ question_bytes question ++ answer_bytes answer ++ opt_bytes code opt) as Hw.
  { unfold w. rewrite make_reply_split. unfold before_opt. by rewrite <- !app_assoc. }
  assert (header_parse w = Ok (reply_header h question code tr opt answer)) as Hh.
  { rewrite Hw. apply header_parse_encode, reply_header_wf. }
  unfold packet_parse, parse, parse_inner.
  rewrite (proj2 (Z.ltb_ge _ _)) by exact Hf. rewrite Hh.
  cbn [with_context map_err obind]. cbn zeta.
  set (H := reply_header h question code tr opt answer) in *.
  change (qdcount (h_counts H)) with (bool_u16 (is_some question)).
  change (record_sections (h_counts H)) with
    [(Answer, bool_u16 (is_some answer)); (Authority, 0%Z);
     (Additional, bool_u16 (opt_is_present opt))].
  replace (1 <? Z.to_nat (bool_u16 (is_some question))) with false
    by (by destruct question). cbn [andb fmap list_fmap].
  unfold usize_sub. rewrite (proj2 (Nat.leb_le _ _))
    by (rewrite Hw; unfold hd; rewrite length_app, length_header_encode; lia).
  cbn [obind]. unfold w at 1. rewrite make_reply_counts.
  rewrite (parse_questions_option w hd question _ Hf Hw)
    by (done || apply (rq_question _ _ _ _ _ request_wf)).
  cbn [with_context map_err obind parse_sections].
  destruct (answer_target w hd _ Hw eq_refl) as (n & c & Hn).
  rewrite (parse_answer_option w (hd ++ question_bytes question) answer (opt_bytes code opt) n c);
    [|done|by rewrite Hw, <- !app_assoc|done|done].
  cbn [obind parse_records ps_edns ps_cookie ps_authenticated ps_context].
  change (Z.to_nat 0) with 0. cbn [parse_records obind].
  edestruct (parse_opt_option w ((hd ++ question_bytes question) ++ answer_bytes answer) code opt)
    as [ctx Hopt]; [done|by rewrite Hw, <- !app_assoc|apply (rq_code _ _ _ _ _ request_wf)
    | | | |rewrite Hopt]; [done|done|done|].
  cbn [obind ps_cursor ps_edns ps_cookie ps_authenticated ps_context].
  rewrite Nat.eqb_refl. cbn [negb map_err]. unfold reply_packet, reply_cookie, before_opt.
  fold hd. by rewrite <- !app_assoc.
Qed.
End parse_reply.
