(* ===== verification/Grammar.v ===== *)
(** * The grammar of messages

    What a DNS message is, by RFC 1035 sections 4.1 and 3.3 and RFC 6891, without
    a word on how one is read: fields lie one after the other in the bytes, names
    by [name_at], record data by the layout of its type, and at most one OPT record
    says how the message extends the header.  The parser of [Parser] accepts
    exactly these messages, within its limits, and reads from them what the
    grammar says they mean. *)

From S2P Require Import Prelude Types Name Message Cookie Net Reply Parser Body Samples LocalReply.

(** ** Fields *)

Section grammar.
Context (w : list byte).

(** [word_at p v e]: the two bytes at [p] are the number [v] and end before [e]. *)
Definition word_at (p : nat) (v : Z) (e : nat) : Prop :=
  e = p + 2 /\ is_u16 v /\ slice w p e = Some (to_be16 v).
Definition double_word_at (p : nat) (v : Z) (e : nat) : Prop :=
  e = p + 4 /\ is_u32 v /\ slice w p e = Some (to_be32 v).

(** A name within the limits on pointers and length. *)
Definition domain_at (p : nat) (n : DomainName) (e : nat) : Prop :=
  exists hops, name_at w p hops (labels n) e
    /\ hops <= MAX_POINTERS /\ wire_size (labels n) + 1 <= MAX_NAME_LENGTH.

(** ** Header and questions *)

Inductive header_at : Header -> nat -> Prop :=
| header_fields id flags qd an ns ar p1 p2 p3 p4 p5 p6 :
    word_at 0 id p1 -> word_at p1 flags p2 -> word_at p2 qd p3 -> word_at p3 an p4 ->
    word_at p4 ns p5 -> word_at p5 ar p6 ->
    header_at (MkHeader id flags (MkCounts qd an ns ar)) p6.

Inductive question_at (p : nat) : Question -> nat -> Prop :=
| question_fields name kind class p1 p2 e :
    domain_at p name p1 -> word_at p1 kind p2 -> word_at p2 class e ->
    question_at p (MkQuestion name (rtype_from_wire kind) (rclass_from_wire class)) e.

Inductive questions_at : nat -> list Question -> nat -> Prop :=
| no_question p : questions_at p [] p
| one_question p q p1 qs e : question_at p q p1 -> questions_at p1 qs e -> questions_at p (q :: qs) e.

(** ** Records *)

(** The fields of a resource record; CLASS and TTL as numbers, since OPT has its
    own use for them. *)
Record Rr := MkRr {
  g_owner : DomainName; g_kind : RecordType; g_class : Z; g_ttl : Z;
  g_start : nat; g_end : nat
}.

Inductive rr_at (p : nat) : Rr -> Prop :=
| rr_fields owner kind class ttl len p1 p2 p3 p4 start :
    domain_at p owner p1 -> word_at p1 kind p2 -> word_at p2 class p3 ->
    double_word_at p3 ttl p4 -> word_at p4 len start ->
    start + Z.to_nat len <= length w ->
    rr_at p (MkRr owner (rtype_from_wire kind) class ttl start (start + Z.to_nat len)).

(** Character strings, each behind its length. *)
Inductive strings_at : nat -> nat -> Prop :=
| strings_end p : strings_at p p
| strings_more p b e :
    w !! p = Some b -> strings_at (p + 1 + b2n b) e -> strings_at p e.

(** The types whose data is not looked into. *)
Definition opaque (kind : RecordType) (class : RecordClass) : Prop :=
  ~ (kind = TA /\ class = CIn) /\ ~ (kind = TAaaa /\ class = CIn)
  /\ kind ∉ [TNs; TCname; TPtr; TMx; TSoa; TSrv; TTxt].

(** [layout kind class s e]: the bytes from [s] to [e] are data of this type. *)
Inductive layout : RecordType -> RecordClass -> nat -> nat -> Prop :=
| layout_a s : layout TA CIn s (s + 4)
| layout_aaaa s : layout TAaaa CIn s (s + 16)
| layout_name kind class s n e :
    kind ∈ [TNs; TCname; TPtr] -> domain_at s n e -> layout kind class s e
| layout_mx class s n e : domain_at (s + 2) n e -> layout TMx class s e
| layout_soa class s mname p rname e :
    domain_at s mname p -> domain_at p rname e -> layout TSoa class s (e + 20)
| layout_srv class s n e : domain_at (s + 6) n e -> layout TSrv class s e
| layout_txt class s e : s < e -> strings_at s e -> layout TTxt class s e
| layout_opaque kind class s e : opaque kind class -> layout kind class s e.

(** Records one after the other, each with its section. *)
Inductive rrs_at : nat -> list (RecordSection * Rr) -> nat -> Prop :=
| no_rr p : rrs_at p [] p
| one_rr p section r rrs e :
    rr_at p r -> rrs_at (g_end r) rrs e -> rrs_at p ((section, r) :: rrs) e.

Definition is_opt (x : RecordSection * Rr) : Prop := g_kind (snd x) = TOpt.

(** A record other than OPT holds data of its type. *)
Definition plain (x : RecordSection * Rr) : Prop :=
  ~ is_opt x /\ layout (g_kind (snd x)) (rclass_from_wire (g_class (snd x))) (g_start (snd x)) (g_end (snd x)).

(** An OPT record has the root as owner, is in the additional section, and holds
    options. *)
Record opt_record (x : RecordSection * Rr) (os : list edns_option) : Prop := {
  or_kind : is_opt x;
  or_section : fst x = Additional;
  or_owner : labels (g_owner (snd x)) = [];
  or_data : slice w (g_start (snd x)) (g_end (snd x)) = Some (options_bytes os);
  or_options : Forall option_wf os
}.

(** The fields of OPT: the UDP payload size in CLASS; in TTL, from the top, the high
    bits of the response code, the version, and DO. *)
Definition opt_view (class ttl : Z) : Edns :=
  MkEdns class (ttl / 2 ^ 16 mod 256) (ttl / 2 ^ 24 mod 256) (Z.odd (ttl / 2 ^ 15)).

(** At most one record is OPT; it gives the EDNS view and its first COOKIE option
    the cookie. *)
Inductive extended : list (RecordSection * Rr) -> option Edns -> option CookieField -> Prop :=
| ext_none rrs : Forall plain rrs -> extended rrs None None
| ext_opt pre x os post :
    Forall plain pre -> opt_record x os -> Forall plain post ->
    extended (pre ++ x :: post)
      (Some (opt_view (g_class (snd x)) (g_ttl (snd x))))
      (first_cookie (g_start (snd x) - 2) (g_start (snd x)) os).

(** The section of each record, by the counts of the header. *)
Definition record_tags (c : SectionCounts) : list RecordSection :=
  replicate (Z.to_nat (ancount c)) Answer ++ replicate (Z.to_nat (nscount c)) Authority
  ++ replicate (Z.to_nat (arcount c)) Additional.

(** The records that sign a message or negotiate a key. *)
Definition signature (x : RecordSection * Rr) : Prop :=
  g_kind (snd x) = TTsig \/ g_kind (snd x) = TTkey \/ (fst x = Additional /\ g_kind (snd x) = TSig).

(** ** Messages *)

Inductive message : Packet -> Prop :=
| message_fields h qs rrs p e c a :
    fits w -> header_at h HEADER_LENGTH ->
    questions_at HEADER_LENGTH qs p -> rrs_at p rrs (length w) ->
    Z.of_nat (length qs) = qdcount (h_counts h) -> rrs.*1 = record_tags (h_counts h) ->
    (header_opcode h = OpQuery -> length qs <= 1) ->
    extended rrs e c -> (a = true <-> Exists signature rrs) ->
    message (MkPacket w h qs e a c).
End grammar.

(** ** Fields are read as they lie *)

Section fields.
Context (w : list byte) (w_fits : fits w).

Lemma domain_at_decode p n e : name_decode w p = Ok (n, e) <-> domain_at w p n e.
Proof.
  split; [apply name_decode_sound|]. intros (hops & Hn & Hh & Hs). by eapply name_decode_complete.
Qed.

Lemma reader_take_iff p n s e :
  reader_take w p n = Ok (s, e) <-> e = p + n /\ slice w p e = Some s.
Proof.
  unfold reader_take, checked_add. unfold fits, MAX_MESSAGE_LENGTH in w_fits. unfold USIZE_MAX.
  destruct (_ <=? _)%Z eqn:Hle; cbn [ok_or obind]; bool_to_prop; cycle 1.
  { split; [done|]. intros [-> Hs%slice_bounds]. lia. }
  destruct (slice w p (p + n)) eqn:Hs; cbn [ok_or obind]; naive_solver.
Qed.

Lemma reader_word_iff p v e : reader_word w p = Ok (v, e) <-> word_at w p v e.
Proof.
  unfold reader_word, word_at. split.
  - intros ([s e'] & [-> Hs]%reader_take_iff & H)%obind_Ok.
    pose proof (slice_length _ _ _ _ Hs) as Hl. destruct s as [|b0 [|b1 [|]]]; simpl in Hl; try lia.
    cbn in H. simplify_eq. rewrite to_be16_be16. auto using be16_range.
  - intros (-> & Hv & Hs). rewrite (proj2 (reader_take_iff p 2 (to_be16 v) (p + 2))) by done.
    unfold to_be16, index. cbn. by rewrite be16_to_be16.
Qed.

Lemma reader_double_word_iff p v e : reader_double_word w p = Ok (v, e) <-> double_word_at w p v e.
Proof.
  unfold reader_double_word, double_word_at. split.
  - intros ([s e'] & [-> Hs]%reader_take_iff & H)%obind_Ok.
    pose proof (slice_length _ _ _ _ Hs) as Hl. destruct s as [|b0 [|b1 [|b2 [|b3 [|]]]]]; simpl in Hl; try lia.
    cbn in H. simplify_eq. rewrite to_be32_be32. auto using be32_range.
  - intros (-> & Hv & Hs). rewrite (proj2 (reader_take_iff p 4 (to_be32 v) (p + 4))) by done.
    unfold to_be32, index. cbn. by rewrite be32_to_be32.
Qed.

Lemma reader_question_iff p q e : reader_question w p = Ok (q, e) <-> question_at w p q e.
Proof.
  unfold reader_question. split.
  - intros ([n p1] & Hn%domain_at_decode & H)%obind_Ok.
    apply obind_Ok in H as ([k p2] & Hk%reader_word_iff & H).
    apply obind_Ok in H as ([c p3] & Hc%reader_word_iff & H). simplify_eq. by econstructor.
  - intros [n k c p1 p2 e' Hn%domain_at_decode Hk%reader_word_iff Hc%reader_word_iff].
    by rewrite Hn; cbn; rewrite Hk; cbn; rewrite Hc.
Qed.

Lemma parse_questions_iff count p acc qs e :
  parse_questions w count p acc = Ok (qs, e)
  <-> exists new, qs = acc ++ new /\ length new = count /\ questions_at w p new e.
Proof.
  revert p acc. induction count as [|count IH]; intros p acc; cbn [parse_questions]; split.
  - intros [= <- <-]. exists []. split_and!; [by rewrite app_nil_r|done|constructor].
  - intros (new & -> & Hl & Hn). destruct Hn; [by rewrite app_nil_r|done].
  - intros ([q p1] & Hq%reader_question_iff & (new & -> & <- & Hn)%IH)%obind_Ok.
    exists (q :: new). split_and!; [by rewrite <- app_assoc|done|by econstructor].
  - intros (new & -> & Hl & Hn). destruct Hn as [|p q p1 qs e Hq%reader_question_iff Hqs]; [done|].
    rewrite Hq. cbn [obind]. apply IH. exists qs. split_and!; [by rewrite <- app_assoc|by injection Hl|done].
Qed.

(** A record of the grammar as the parser keeps it. *)
Definition record_of (r : Rr) : ResourceRecord :=
  MkRecord (g_owner r) (g_kind r)
    (if bool_decide (g_kind r = TOpt) then UdpPayload (g_class r) else ClassDns (rclass_from_wire (g_class r)))
    (g_ttl r) (g_start r) (g_end r).

Lemma resource_record_complete p r : rr_at w p r -> resource_record w p = Ok (record_of r, g_start r).
Proof.
  intros [n k c t l p1 p2 p3 p4 start Hn%domain_at_decode Hk%reader_word_iff Hc%reader_word_iff
    Ht%reader_double_word_iff Hl%reader_word_iff _]. unfold resource_record.
  by rewrite Hn; cbn; rewrite Hk; cbn; rewrite Hc; cbn; rewrite Ht; cbn; rewrite Hl.
Qed.

Lemma resource_record_sound p rec c :
  resource_record w p = Ok (rec, c) -> rr_end rec <= length w ->
  exists r, rr_at w p r /\ rec = record_of r /\ c = g_start r.
Proof.
  unfold resource_record. intros ([n p1] & Hn%domain_at_decode & H)%obind_Ok Hend.
  apply obind_Ok in H as ([k p2] & Hk%reader_word_iff & H).
  apply obind_Ok in H as ([cl p3] & Hc%reader_word_iff & H).
  apply obind_Ok in H as ([t p4] & Ht%reader_double_word_iff & H).
  apply obind_Ok in H as ([l p5] & Hl%reader_word_iff & H). simplify_eq. cbn [rr_end] in Hend.
  eexists. split; [by econstructor|done].
Qed.

(** The bounds of a record: at least eleven bytes. *)
Lemma rr_at_bounds p r : rr_at w p r -> p + 11 <= g_start r /\ g_start r <= g_end r <= length w.
Proof.
  intros [n k c t l p1 p2 p3 p4 start (hops & Hn%name_at_bounds & _) (-> & _) (-> & _) (-> & _) (-> & _) Hl].
  cbn. lia.
Qed.

Lemma question_at_bounds p q e : question_at w p q e -> p + 5 <= e.
Proof. intros [n k c p1 p2 e' (hops & Hn%name_at_bounds & _) (-> & _) (-> & _)]. lia. Qed.

Lemma questions_at_bounds p qs e : questions_at w p qs e -> p + 5 * length qs <= e.
Proof. induction 1 as [|p q p1 qs e Hq%question_at_bounds _ IH]; cbn [length]; lia. Qed.

Lemma rrs_at_bounds p rrs e : rrs_at w p rrs e -> p + 11 * length rrs <= e.
Proof.
  induction 1 as [|p section r rrs e Hr%rr_at_bounds _ IH]; cbn [length]; lia.
Qed.

(** ** Record data *)

Lemma strings_at_le p e : strings_at w p e -> p <= e.
Proof. induction 1; lia. Qed.

Lemma reader_byte_iff p s e :
  reader_take w p 1 = Ok (s, e) <-> exists b, s = [b] /\ e = p + 1 /\ w !! p = Some b.
Proof.
  rewrite reader_take_iff. split.
  - intros [-> Hs]. pose proof (slice_length _ _ _ _ Hs) as Hl. destruct s as [|b [|]]; simpl in Hl; try lia.
    exists b. split_and!; [done|done|]. pose proof (slice_lookup _ _ _ _ 0 Hs ltac:(lia)) as H.
    by rewrite Nat.add_0_r in H.
  - intros (b & -> & -> & Hb). split; [done|]. pose proof (lookup_lt_Some _ _ _ Hb).
    apply slice_Some. split; [lia|]. rewrite add_sub_left. by rewrite (drop_S _ _ _ Hb).
Qed.

Lemma txt_loop_sound fuel : forall p e, txt_loop fuel w p e = Ok e -> strings_at w p e.
Proof.
  induction fuel as [|fuel IH]; intros p e; [done|]. cbn [txt_loop].
  destruct (p <? e) eqn:Hp; [|intros [= ->]; constructor].
  intros ([s p1] & (b & -> & -> & Hb)%reader_byte_iff & H)%obind_Ok. cbn [index or_panic lookup list_lookup obind] in H.
  apply obind_Ok in H as ([s2 p2] & [-> _]%reader_take_iff & H). by eapply strings_more, IH.
Qed.

Lemma txt_loop_complete p e :
  strings_at w p e -> forall fuel, e <= length w -> length w < fuel + p -> txt_loop fuel w p e = Ok e.
Proof.
  induction 1 as [p|p b e Hb Hs IH]; intros fuel He Hf.
  - destruct fuel; [lia|]. cbn [txt_loop]. by rewrite Nat.ltb_irrefl.
  - apply strings_at_le in Hs. destruct fuel as [|fuel]; [lia|]. cbn [txt_loop].
    rewrite (proj2 (Nat.ltb_lt _ _)) by lia.
    rewrite (proj2 (reader_byte_iff p [b] (p + 1))) by eauto. cbn [index or_panic lookup list_lookup obind].
    destruct (slice_is_Some w (p + 1) (p + 1 + b2n b)) as [s Hs2]; [lia|].
    rewrite (proj2 (reader_take_iff (p + 1) (b2n b) s (p + 1 + b2n b))) by done. cbn [obind].
    apply IH; lia.
Qed.

(** The last check of [validate_data]. *)
Lemma consumes_iff (m : outcome ParseError nat) e :
  (let* cursor := m in if negb (cursor =? e) then Err InvalidRecord else Ok tt) = Ok tt <-> m = Ok e.
Proof.
  rewrite obind_Ok. split.
  - intros (c & -> & H). destruct (c =? e) eqn:Hc; [|done]. bool_to_prop. by subst.
  - intros ->. exists e. by rewrite Nat.eqb_refl.
Qed.

Lemma take_data_iff s n e :
  e <= length w -> (let* (_, cursor) := reader_take w s n in Ok cursor) = Ok e <-> e = s + n.
Proof.
  intros He. rewrite obind_Ok. split.
  - intros ([? c] & [-> _]%reader_take_iff & [= <-]). done.
  - intros ->. destruct (slice_is_Some w s (s + n)) as [x Hx]; [lia|].
    exists (x, s + n). split; [by apply reader_take_iff|done].
Qed.

Lemma name_data_iff s e :
  (let* (_, cursor) := name_decode w s in Ok cursor) = Ok e <-> exists n, domain_at w s n e.
Proof.
  rewrite obind_Ok. split.
  - intros ([n c] & Hn%domain_at_decode & [= <-]). by exists n.
  - intros [n Hn%domain_at_decode]. by exists (n, e).
Qed.

Lemma layout_cases kind class s e :
  layout w kind class s e <->
  match kind, class with
  | TA, CIn => e = s + 4
  | TAaaa, CIn => e = s + 16
  | TNs, _ | TCname, _ | TPtr, _ => exists n, domain_at w s n e
  | TMx, _ => exists n, domain_at w (s + 2) n e
  | TSoa, _ => exists m p r e', domain_at w s m p /\ domain_at w p r e' /\ e = e' + 20
  | TSrv, _ => exists n, domain_at w (s + 6) n e
  | TTxt, _ => s < e /\ strings_at w s e
  | _, _ => True
  end.
Proof.
  split.
  - intros [s'|s'|k c s' n e' Hk Hn|c s' n e' Hn|c s' m p r e' Hm Hr|c s' n e' Hn|c s' e' Hl Hs|k c s' e' (H1 & H2 & H3)];
      try (by eauto 10); try (by destruct c).
    + repeat (apply elem_of_cons in Hk as [->|Hk]; [by eauto|]). by apply not_elem_of_nil in Hk.
    + destruct k, c; try done; try (by destruct H1); try (by destruct H2); (by destruct H3; apply (bool_decide_unpack _)).
  - intros H. destruct kind, class;
      try (destruct H as [? Hn]; first [exact (layout_mx _ _ _ _ _ Hn) | exact (layout_srv _ _ _ _ _ Hn)
        | by eapply layout_name; [apply (bool_decide_unpack _)|exact Hn]]);
      try (by subst; first [apply layout_a | apply layout_aaaa]);
      try (by destruct H; apply layout_txt);
      try (by destruct H as (m & p & r & e' & ? & ? & ->); eapply layout_soa);
      (apply layout_opaque; unfold opaque; split_and!; [naive_solver|naive_solver|by apply (bool_decide_unpack _)]).
Qed.

Lemma domain_at_bounds p n e : domain_at w p n e -> p < e <= length w.
Proof. intros (hops & Hn & _). by eapply name_at_bounds. Qed.

Lemma srv_data_iff s e :
  (let* (_, cursor) := reader_take w s 6 in let* (_, cursor) := name_decode w cursor in Ok cursor) = Ok e
  <-> exists n, domain_at w (s + 6) n e.
Proof.
  rewrite obind_Ok. split.
  - intros ([? c] & [-> _]%reader_take_iff & H%name_data_iff). done.
  - intros [n Hn]. pose proof (domain_at_bounds _ _ _ Hn).
    destruct (slice_is_Some w s (s + 6)) as [x Hx]; [lia|].
    exists (x, s + 6). split; [by apply reader_take_iff|]. apply name_data_iff. by exists n.
Qed.

Lemma mx_data_iff s e :
  (let* (_, cursor) := reader_word w s in let* (_, cursor) := name_decode w cursor in Ok cursor) = Ok e
  <-> exists n, domain_at w (s + 2) n e.
Proof.
  rewrite obind_Ok. split.
  - intros ([? c] & [-> _]%reader_word_iff & H%name_data_iff). done.
  - intros [n Hn]. pose proof (domain_at_bounds _ _ _ Hn).
    destruct (slice_is_Some w s (s + 2)) as [x Hx]; [lia|].
    pose proof (slice_length _ _ _ _ Hx) as Hl. destruct x as [|b0 [|b1 [|]]]; simpl in Hl; try lia.
    exists (be16 b0 b1, s + 2). split; [|apply name_data_iff; by exists n].
    apply reader_word_iff. split; [done|]. rewrite to_be16_be16. auto using be16_range.
Qed.

Lemma soa_data_iff s e :
  e <= length w ->
  (let* (_, cursor) := name_decode w s in let* (_, cursor) := name_decode w cursor in
   let* (_, cursor) := reader_take w cursor 20 in Ok cursor) = Ok e
  <-> exists m p r e', domain_at w s m p /\ domain_at w p r e' /\ e = e' + 20.
Proof.
  intros He. rewrite obind_Ok. split.
  - intros ([m p] & Hm%domain_at_decode & H). apply obind_Ok in H as ([r e'] & Hr%domain_at_decode & H).
    apply take_data_iff in H; [|done]. by exists m, p, r, e'.
  - intros (m & p & r & e' & Hm%domain_at_decode & Hr%domain_at_decode & H).
    exists (m, p). split; [done|]. rewrite Hr. cbn [obind]. by apply take_data_iff.
Qed.

Lemma txt_data_iff s e :
  s <= e <= length w ->
  (if s =? e then Err InvalidRecord else txt_loop (S (length w)) w s e) = Ok e <-> s < e /\ strings_at w s e.
Proof.
  intros He. destruct (s =? e) eqn:Hse; bool_to_prop.
  - split; [done|]. intros [? _]. lia.
  - split; [intros H%txt_loop_sound; split; [lia|done]|]. intros [_ Hs]. apply txt_loop_complete; [done|lia..].
Qed.

(** Data of a type is what [validate_data] accepts. *)
Lemma validate_data_iff r :
  g_kind r <> TOpt -> g_start r <= g_end r <= length w ->
  validate_data w (record_of r) = Ok tt
  <-> layout w (g_kind r) (rclass_from_wire (g_class r)) (g_start r) (g_end r).
Proof.
  intros Ho Hb. unfold validate_data, record_of. cbn [rr_start rr_end rr_kind rr_class].
  rewrite bool_decide_eq_false_2 by done. generalize (rclass_from_wire (g_class r)) as class. intros class.
  destruct r as [owner kind cl ttl s e]. cbn [g_kind g_start g_end] in *. rewrite consumes_iff, layout_cases.
  destruct kind; try done; try apply name_data_iff; destruct class; try (split; done);
    first [apply take_data_iff; lia | apply soa_data_iff; lia | apply mx_data_iff | by apply txt_data_iff
      | apply srv_data_iff].
Qed.

End fields.

Lemma slice_drop (w s : list byte) a b : slice w a b = Some s -> drop a w = s ++ drop b w.
Proof.
  intros [? ->]%slice_Some. rewrite <- (take_drop (b - a) (drop a w)) at 1. f_equal.
  rewrite drop_drop. f_equal. lia.
Qed.

(** Options are what [validate_options] accepts. *)
Lemma validate_options_loop_sound bytes fuel : fits bytes -> forall p,
  validate_options_loop fuel bytes p = Ok tt ->
  exists os, drop p bytes = options_bytes os /\ Forall option_wf os.
Proof.
  intros Hf. induction fuel as [|fuel IH]; intros p; [done|]. cbn [validate_options_loop].
  destruct (p <? length bytes) eqn:Hlt; bool_to_prop; cycle 1.
  { intros _. exists []. split; [by rewrite drop_ge by lia|constructor]. }
  intros ([code p1] & (-> & Hc & H1)%map_err_Ok%(reader_word_iff _ Hf) & H)%obind_Ok.
  apply obind_Ok in H as ([len p2] & (-> & Hl & H2)%map_err_Ok%(reader_word_iff _ Hf) & H).
  apply obind_Ok in H as ([data p3] & [-> H3]%map_err_Ok%(reader_take_iff _ Hf) & H).
  apply IH in H as (os & Ho & Hos). pose proof (slice_length _ _ _ _ H3) as Hd.
  assert (Z.of_nat (length data) = len) as Hlen by (unfold is_u16 in Hl; lia).
  exists ((code, data) :: os). rewrite options_bytes_cons, <- Ho. unfold option_bytes. cbn [fst snd].
  rewrite Hlen, <- !app_assoc. split.
  - by rewrite (slice_drop _ _ _ _ H1), (slice_drop _ _ _ _ H2), (slice_drop _ _ _ _ H3).
  - constructor; [|done]. split; cbn; [done|by rewrite Hlen].
Qed.

Lemma validate_options_iff bytes :
  fits bytes ->
  validate_options bytes = Ok tt <-> exists os, bytes = options_bytes os /\ Forall option_wf os.
Proof.
  intros Hf. unfold validate_options. split.
  - intros (os & Ho & Hos)%validate_options_loop_sound; [|done]. by exists os.
  - intros (os & -> & Hos). apply (validate_options_loop_bytes _ os _ []); [done|done|done|].
    pose proof (options_bytes_length os). lia.
Qed.

(** ** Records *)

Section records.
Context (w : list byte) (w_fits : fits w).

(** A record of a section, before and after it the EDNS view and the cookie. *)
Inductive views : RecordSection * Rr -> option Edns * option CookieField -> option Edns * option CookieField -> Prop :=
| view_plain x v : plain w x -> views x v v
| view_opt x os c :
    opt_record w x os ->
    views x (None, c)
      (Some (edns_of_ttl (g_class (snd x)) (g_ttl (snd x))), first_cookie (g_start (snd x) - 2) (g_start (snd x)) os).

Definition view (st : ParseState) : option Edns * option CookieField := (ps_edns st, ps_cookie st).

Lemma fits_slice s a b : slice w a b = Some s -> fits s.
Proof.
  intros Hs. pose proof (slice_bounds _ _ _ _ Hs). apply slice_length in Hs. unfold fits in *. lia.
Qed.

(** [locate] finds what the options say. *)
Lemma locate_at a b os :
  slice w a b = Some (options_bytes os) -> Forall option_wf os ->
  locate (E := ParseError * option ReplyContext) w a (b - a) = Ok (first_cookie (a - 2) a os).
Proof.
  intros Hs Hos. pose proof (slice_bounds _ _ _ _ Hs). pose proof (slice_length _ _ _ _ Hs) as Hl.
  pose proof (slice_split _ _ _ _ Hs) as Hw. rewrite <- Hl.
  assert (length (take a w) = a) as Ha by (rewrite length_take; lia).
  pose proof (locate_options (E := ParseError * option ReplyContext) (take a w) os (drop b w)) as Hloc.
  rewrite <- Hw, Ha in Hloc. by apply Hloc.
Qed.

Lemma parse_opt_sound section r st st' :
  g_kind r = TOpt -> ps_cursor st = g_start r -> g_start r <= g_end r ->
  parse_opt w section (record_of r) st = Ok st' ->
  ps_cursor st' = g_end r /\ ps_authenticated st' = ps_authenticated st
  /\ views (section, r) (view st) (view st').
Proof.
  intros Hk Hc Hle. unfold parse_opt, record_of, rr_len, view. cbn [rr_owner rr_class rr_start rr_end rr_ttl].
  rewrite (bool_decide_eq_true_2 _ Hk). destruct (_ || _) eqn:Hbad; [done|].
  apply orb_false_iff in Hbad as [[Hs He]%orb_false_iff Ho]. bool_to_prop. apply dec_stable in Hs.
  destruct (ps_edns st) eqn:Hedns; [done|].
  intros ([x c] & [-> Hx]%map_err_Ok%map_err_Ok%(reader_take_iff _ w_fits) & H)%obind_Ok.
  apply obind_Ok in H as (bytes & Hbytes%or_panic_Ok & H).
  apply obind_Ok in H as ([] & Hv%map_err_Ok & H).
  apply validate_options_iff in Hv as (os & -> & Hos); [|by eapply fits_slice].
  rewrite (locate_at _ _ _ Hbytes Hos) in H. cbn [obind] in H. simplify_eq. cbn [ps_cursor ps_authenticated ps_edns ps_cookie].
  split_and!; [lia|done|]. apply (view_opt (_, r)). split; try done. cbn.
  unfold label_count in Ho. by destruct (labels (g_owner r)).
Qed.

Lemma parse_opt_complete section r st :
  g_kind r = TOpt -> ps_cursor st = g_start r -> g_start r <= g_end r -> ps_edns st = None ->
  forall os, opt_record w (section, r) os -> exists ctx,
  parse_opt w section (record_of r) st
  = Ok (MkState (g_end r) (Some (edns_of_ttl (g_class r) (g_ttl r)))
          (first_cookie (g_start r - 2) (g_start r) os) (ps_authenticated st) ctx).
Proof.
  intros Hk Hc Hle He os [_ Hs Ho Hd Hos]. cbn [fst snd] in *.
  unfold parse_opt, record_of, rr_len. cbn [rr_owner rr_class rr_start rr_end rr_ttl].
  rewrite (bool_decide_eq_true_2 _ Hk), He, Hs. unfold label_count. rewrite Ho. cbn [orb is_some length Nat.eqb negb].
  rewrite bool_decide_eq_false_2 by (intros Hn; by apply Hn). cbn [orb].
  rewrite (proj2 (reader_take_iff w w_fits (ps_cursor st) (g_end r - g_start r) (options_bytes os) (g_end r)))
    by (rewrite Hc; split; [lia|done]). cbn [map_err with_context obind].
  unfold index_range. rewrite Hd. cbn [or_panic obind].
  rewrite (proj2 (validate_options_iff _ (fits_slice _ _ _ Hd))) by (by exists os). cbn [with_context map_err obind].
  rewrite (locate_at _ _ _ Hd Hos). cbn [obind]. by eexists.
Qed.

Lemma parse_plain_sound section r st st' :
  g_kind r <> TOpt -> ps_cursor st = g_start r -> g_start r <= g_end r <= length w ->
  parse_plain w (record_of r) st = Ok st' ->
  ps_cursor st' = g_end r /\ ps_authenticated st' = ps_authenticated st
  /\ views (section, r) (view st) (view st').
Proof.
  intros Hk Hc Hle. unfold parse_plain. intros ([x c] & [-> _]%map_err_Ok%(reader_take_iff _ w_fits) & H)%obind_Ok.
  apply obind_Ok in H as ([] & Hd%map_err_Ok & [= <-]). cbn [ps_cursor ps_authenticated].
  unfold rr_len. cbn [record_of rr_start rr_end]. split_and!; [lia|done|].
  apply view_plain. split; [done|]. by apply (validate_data_iff w w_fits) in Hd.
Qed.

(** Both branches check that the data lies in the message. *)
Lemma record_body_end section rec st st' :
  ps_cursor st = rr_start rec -> rr_start rec <= rr_end rec ->
  (if bool_decide (rr_kind rec = TOpt) then parse_opt w section rec st else parse_plain w rec st) = Ok st' ->
  rr_end rec <= length w.
Proof.
  intros Hc Hle. destruct (bool_decide _).
  - unfold parse_opt. destruct (_ || _); [done|]. destruct (rr_class rec); [done|].
    intros ([x c] & [-> Hx%slice_bounds]%map_err_Ok%map_err_Ok%(reader_take_iff _ w_fits) & _)%obind_Ok.
    unfold rr_len in Hx. lia.
  - intros ([x c] & [-> Hx%slice_bounds]%map_err_Ok%(reader_take_iff _ w_fits) & _)%obind_Ok.
    unfold rr_len in Hx. lia.
Qed.

#[local] Opaque resource_record parse_opt parse_plain.
Lemma parse_record_inv section st st' :
  parse_record w section st = Ok st' -> exists rec st1,
  let st0 := MkState (rr_start rec) (ps_edns st) (ps_cookie st) (ps_authenticated st) (ps_context st) in
  resource_record w (ps_cursor st) = Ok (rec, rr_start rec)
  /\ (if bool_decide (rr_kind rec = TOpt) then parse_opt w section rec st0 else parse_plain w rec st0) = Ok st1
  /\ ps_cursor st' = ps_cursor st1 /\ view st' = view st1
  /\ ps_authenticated st' = ps_authenticated st1 || authenticates section (rr_kind rec).
Proof.
  unfold parse_record. intros ([rec c] & Hr%map_err_Ok & H)%obind_Ok.
  destruct (resource_record_start _ _ _ _ Hr) as (_ & -> & _).
  apply obind_Ok in H as (st1 & H & [= <-]). exists rec, st1. done.
Qed.

#[local] Transparent resource_record parse_opt parse_plain.

(** One record, read. *)
Lemma parse_record_sound section st st' :
  parse_record w section st = Ok st' -> exists r,
  rr_at w (ps_cursor st) r /\ ps_cursor st' = g_end r /\ views (section, r) (view st) (view st')
  /\ ps_authenticated st' = ps_authenticated st || authenticates section (g_kind r).
Proof.
  intros (rec & st1 & Hr & H & -> & -> & ->)%parse_record_inv.
  destruct (resource_record_start _ _ _ _ Hr) as (_ & _ & Hle).
  pose proof (record_body_end section rec (MkState (rr_start rec) _ _ _ _) st1 eq_refl Hle H) as Hend.
  destruct (resource_record_sound w w_fits _ _ _ Hr Hend) as (r & Hat & -> & _). exists r. split; [done|].
  destruct (rr_at_bounds w _ _ Hat) as [_ Hb]. change (rr_kind (record_of r)) with (g_kind r) in *.
  destruct (bool_decide (g_kind r = TOpt)) eqn:Hk; bool_to_prop.
  - apply parse_opt_sound in H as (-> & -> & Hv); [done|done|done|lia].
  - apply (parse_plain_sound section) in H as (-> & -> & Hv); done.
Qed.

Lemma parse_record_complete section st r v :
  rr_at w (ps_cursor st) r -> views (section, r) (view st) v -> exists st',
  parse_record w section st = Ok st' /\ ps_cursor st' = g_end r /\ view st' = v
  /\ ps_authenticated st' = ps_authenticated st || authenticates section (g_kind r).
Proof.
  intros Hat Hv. destruct (rr_at_bounds w _ _ Hat) as [_ Hb]. unfold parse_record.
  rewrite (resource_record_complete w w_fits _ _ Hat). cbn [with_context map_err obind].
  change (rr_kind (record_of r)) with (g_kind r). inversion Hv as [x v' [Hk Hl]|x os c Hopt Hx Hvw]; subst.
  - unfold is_opt in Hk. cbn [snd] in *. rewrite bool_decide_eq_false_2 by done.
    unfold parse_plain, rr_len. cbn [ps_cursor ps_context record_of rr_start rr_end].
    destruct (slice_is_Some w (g_start r) (g_end r)) as [x Hx]; [lia|].
    rewrite (proj2 (reader_take_iff w w_fits (g_start r) (g_end r - g_start r) x (g_end r)))
      by (split; [lia|done]). cbn [with_context map_err obind]. fold (record_of r).
    rewrite (proj2 (validate_data_iff w w_fits r Hk Hb) Hl). cbn [with_context map_err obind]. by eexists.
  - unfold view in *. simplify_eq.
    destruct (parse_opt_complete section r
      (MkState (g_start r) (ps_edns st) (ps_cookie st) (ps_authenticated st) (ps_context st)))
      with (os := os) as [ctx Hp]; [by destruct Hopt|done|lia|done|done|].
    rewrite (bool_decide_eq_true_2 (g_kind r = TOpt)) by (by destruct Hopt).
    rewrite <- Hvw in Hp. rewrite Hp. cbn [obind]. by eexists.
Qed.

(** ** Sections *)

(** The record loops are one loop over the sections of the records. *)
Fixpoint parse_tagged (tags : list RecordSection) (st : ParseState) : ParseM ParseState :=
  match tags with
  | [] => Ok st
  | section :: tags => let* st := parse_record w section st in parse_tagged tags st
  end.

Lemma parse_tagged_app tags tags' st :
  parse_tagged (tags ++ tags') st = (let* st := parse_tagged tags st in parse_tagged tags' st).
Proof.
  revert st. induction tags as [|section tags IH]; intros st; [done|]. cbn.
  by destruct (parse_record w section st); cbn.
Qed.

Lemma parse_records_tagged section count st :
  parse_records w section count st = parse_tagged (replicate count section) st.
Proof.
  revert st. induction count as [|count IH]; intros st; [done|]. cbn [parse_records parse_tagged replicate].
  destruct (parse_record w section st); cbn [obind]; auto.
Qed.

Lemma parse_sections_tagged sections st :
  parse_sections w sections st
  = parse_tagged (sections ≫= (fun '(section, count) => replicate (Z.to_nat count) section)) st.
Proof.
  revert st. induction sections as [|[section count] sections IH]; intros st; [done|].
  rewrite bind_cons, parse_tagged_app, <- parse_records_tagged. cbn [parse_sections].
  destruct (parse_records w section _ st); cbn [obind]; auto.
Qed.

Inductive views_all : list (RecordSection * Rr) -> option Edns * option CookieField ->
    option Edns * option CookieField -> Prop :=
| views_nil v : views_all [] v v
| views_cons x rrs v v1 v' : views x v v1 -> views_all rrs v1 v' -> views_all (x :: rrs) v v'.

Definition signs (x : RecordSection * Rr) : bool := authenticates (fst x) (g_kind (snd x)).

Lemma parse_tagged_sound tags : forall st st',
  parse_tagged tags st = Ok st' -> exists rrs,
  rrs.*1 = tags /\ rrs_at w (ps_cursor st) rrs (ps_cursor st') /\ views_all rrs (view st) (view st')
  /\ ps_authenticated st' = ps_authenticated st || existsb signs rrs.
Proof.
  induction tags as [|section tags IH]; intros st st'; cbn [parse_tagged].
  - intros [= <-]. exists []. rewrite orb_false_r. split_and!; [done|constructor|constructor|done].
  - intros (st1 & (r & Hr & Hc & Hv & Ha)%parse_record_sound & (rrs & <- & Hrs & Hvs & Has)%IH)%obind_Ok.
    exists ((section, r) :: rrs). split_and!; [done| |by econstructor|].
    + rewrite Hc in Hrs. by constructor.
    + rewrite Has, Ha. cbn [existsb]. by rewrite orb_assoc.
Qed.

Lemma parse_tagged_complete rrs : forall st e v,
  rrs_at w (ps_cursor st) rrs e -> views_all rrs (view st) v -> exists st',
  parse_tagged rrs.*1 st = Ok st' /\ ps_cursor st' = e /\ view st' = v
  /\ ps_authenticated st' = ps_authenticated st || existsb signs rrs.
Proof.
  induction rrs as [|x rrs IH]; intros st e v Hrs Hvs; inversion Hrs; inversion Hvs; subst.
  - exists st. rewrite orb_false_r. done.
  - destruct (parse_record_complete section st r v1) as (st1 & Hp & Hc & <- & Ha); [done|done|].
    destruct (IH st1 e v) as (st' & Hp' & Hc' & Hv' & Ha'); [by rewrite Hc|done|].
    exists st'. cbn [fmap list_fmap parse_tagged fst]. rewrite Hp. cbn [obind].
    split_and!; [done|done|done|]. rewrite Ha', Ha. cbn [existsb]. by rewrite orb_assoc.
Qed.

Lemma opt_view_eq class ttl : edns_of_ttl class ttl = opt_view class ttl.
Proof.
  unfold edns_of_ttl, opt_view, EDNS_VERSION_SHIFT, EXTENDED_RCODE_SHIFT, DO_MASK.
  rewrite !Z.shiftr_div_pow2 by lia. f_equal.
  rewrite <- Z.shiftr_div_pow2, <- Z.testbit_odd by lia.
  destruct (Z.testbit ttl 15) eqn:Hb.
  - apply negb_true_iff, Z.eqb_neq. intros H%(f_equal (fun x => Z.testbit x 15)).
    by rewrite Z.land_spec, Hb in H.
  - apply negb_false_iff, Z.eqb_eq. apply Z.bits_inj'. intros n Hn.
    change 0x8000%Z with (2 ^ 15)%Z. rewrite Z.land_spec, Z.pow2_bits_eqb, Z.testbit_0_l by lia.
    destruct (Z.eqb_spec 15 n) as [<-|]; [by rewrite Hb|apply andb_false_r].
Qed.

Lemma signs_signature rrs : existsb signs rrs = true <-> Exists signature rrs.
Proof.
  rewrite existsb_exists, Exists_exists. unfold signs, signature, authenticates.
  setoid_rewrite <- list_elem_of_In. setoid_rewrite orb_true_iff. setoid_rewrite andb_true_iff.
  setoid_rewrite bool_decide_eq_true. setoid_rewrite elem_of_cons. setoid_rewrite list_elem_of_singleton.
  naive_solver.
Qed.

(** A chain of views is the extension of the message. *)
Lemma views_all_plain rrs v v' : is_Some (fst v) -> views_all rrs v v' -> v' = v /\ Forall (plain w) rrs.
Proof.
  intros Hs. induction 1 as [v|x rrs v v1 v' Hx _ IH]; [by split|].
  destruct Hx as [x v Hp|x os c _]; [|by destruct Hs]. destruct (IH Hs) as [-> ?]. split; [done|by constructor].
Qed.

Lemma plain_views_all rrs v : Forall (plain w) rrs -> views_all rrs v v.
Proof. induction 1; econstructor; [by apply view_plain|done]. Qed.

Lemma views_all_extended rrs e c : views_all rrs (None, None) (e, c) <-> extended w rrs e c.
Proof.
  split.
  - induction rrs as [|x rrs IH]; intros H; inversion H as [|? ? ? ? ? Hx Hrs]; subst; [by apply ext_none|].
    inversion Hx as [? ? Hp|? os ? Ho]; subst.
    + apply IH in Hrs as [rrs' Hf|pre y os post Hpre Hy Hpost]; [by apply ext_none; constructor|].
      apply (ext_opt w (x :: pre)); [by constructor|done|done].
    + apply views_all_plain in Hrs as [[= -> ->] Hf]; [|done]. rewrite opt_view_eq. by apply (ext_opt w []).
  - intros [rs Hf|pre x os post Hpre Hx Hpost]; [by apply plain_views_all|]. rewrite <- opt_view_eq.
    induction Hpre as [|y pre Hy _ IH]; [|econstructor; [by apply view_plain|done]].
    econstructor; [by apply view_opt|by apply plain_views_all].
Qed.
End records.

(** ** Messages *)

Lemma word_at_u16 w p v e : word_at w p v e -> e = p + 2 /\ 2 + p <= length w /\ u16_at (E:=ParseError) w p = Ok v.
Proof.
  intros (-> & Hv & Hs). pose proof (slice_bounds _ _ _ _ Hs). split_and!; [done|lia|].
  unfold u16_at, index. rewrite <- (Nat.add_0_r p) at 1. rewrite <- !(slice_lookup _ _ _ _ _ Hs) by lia.
  unfold to_be16. cbn. by rewrite be16_to_be16.
Qed.

Lemma word_at_mid w pre v post :
  w = pre ++ to_be16 v ++ post -> is_u16 v -> word_at w (length pre) v (length (pre ++ to_be16 v)).
Proof.
  intros -> Hv. rewrite length_app, length_to_be16. split_and!; [done|done|]. by apply slice_mid'.
Qed.

Lemma header_at_iff w h : header_parse w = Ok h <-> header_at w h HEADER_LENGTH.
Proof.
  split.
  - intros (_ & (Hid & Hfl & Hq & Ha & Hn & Hr) & Hw)%header_parse_Ok. destruct h as [id fl [q a n r]].
    cbn [h_id h_flags h_counts qdcount ancount nscount arcount] in *.
    unfold header_encode in Hw. cbn [h_id h_flags h_counts qdcount ancount nscount arcount] in Hw.
    rewrite <- !app_assoc in Hw.
    eapply (header_fields w id fl q a n r _ _ _ _ _ HEADER_LENGTH).
    + by eapply (word_at_mid w []).
    + by eapply (word_at_mid w (to_be16 id)).
    + by eapply (word_at_mid w (to_be16 id ++ to_be16 fl)); [rewrite <- !app_assoc|].
    + by eapply (word_at_mid w (to_be16 id ++ to_be16 fl ++ to_be16 q)); [rewrite <- !app_assoc|].
    + by eapply (word_at_mid w (to_be16 id ++ to_be16 fl ++ to_be16 q ++ to_be16 a)); [rewrite <- !app_assoc|].
    + by eapply (word_at_mid w (to_be16 id ++ to_be16 fl ++ to_be16 q ++ to_be16 a ++ to_be16 n));
        [rewrite <- !app_assoc|].
  - intros H. remember HEADER_LENGTH as end_ eqn:He.
    destruct H as [id fl q a n r p1 p2 p3 p4 p5 p6 H1%word_at_u16 H2%word_at_u16 H3%word_at_u16 H4%word_at_u16
      H5%word_at_u16 H6%word_at_u16]. destruct H1 as (-> & _ & E1), H2 as (-> & _ & E2), H3 as (-> & _ & E3),
      H4 as (-> & _ & E4), H5 as (-> & _ & E5), H6 as (-> & Hl & E6).
    unfold header_parse, HEADER_LENGTH. rewrite (proj2 (Nat.ltb_ge _ _)) by (simpl in Hl; lia).
    cbn [Nat.add] in *. by rewrite E1, E2, E3, E4, E5, E6.
Qed.

Lemma record_tags_sections c :
  record_tags c = record_sections c ≫= (fun '(section, count) => replicate (Z.to_nat count) section).
Proof. unfold record_tags, record_sections. cbn. by rewrite app_nil_r. Qed.

Lemma length_record_tags c :
  length (record_tags c) = sum_list ((fun '(_, count) => Z.to_nat count) <$> record_sections c).
Proof. unfold record_tags, record_sections. cbn. rewrite !length_app, !length_replicate. simpl. lia. Qed.

(** The counts of a message fit its size: the check before anything is read
    refuses no message. *)
Lemma counts_fit w qs rrs p :
  questions_at w HEADER_LENGTH qs p -> rrs_at w p rrs (length w) ->
  length qs * 5 + length rrs * 11 <= length w - HEADER_LENGTH.
Proof.
  intros Hq%questions_at_bounds Hr%rrs_at_bounds. lia.
Qed.

#[local] Opaque parse_sections parse_questions.
Lemma parse_inner_sound w p : parse_inner w = Ok p -> message w p.
Proof.
  unfold parse_inner. destruct (_ <? _)%Z eqn:Hsize; [done|]. bool_to_prop. change (fits w) in Hsize.
  intros (h & Hh%map_err_Ok & H)%obind_Ok. revert H. cbn zeta.
  destruct (_ && _) eqn:Hsingle; [done|].
  intros (available & _ & H)%obind_Ok. revert H. destruct (available <? _); [done|].
  intros ([qs e] & (new & -> & Hlen & Hq)%map_err_Ok%(parse_questions_iff w Hsize) & H)%obind_Ok.
  revert H. intros (st & Hst & H)%obind_Ok. revert H.
  destruct (negb _) eqn:Hend; [done|]. intros [= <-]. apply negb_false_iff, Nat.eqb_eq in Hend.
  rewrite parse_sections_tagged in Hst.
  apply (parse_tagged_sound w Hsize) in Hst as (rrs & Htags & Hrs & Hvs & ->).
  cbn [ps_cursor ps_authenticated orb] in *. rewrite Hend in Hrs. unfold view in Hvs. cbn [ps_edns ps_cookie] in Hvs.
  destruct (header_parse_Ok _ _ Hh) as (_ & (_ & _ & [Hqd _] & _) & _).
  apply (message_fields w h ([] ++ new) rrs e); try done.
  - by apply header_at_iff.
  - cbn. unfold is_u16 in Hqd. lia.
  - by rewrite Htags, record_tags_sections.
  - intros Hop. apply andb_false_iff in Hsingle as [Hb|Hb]; bool_to_prop; [cbn; lia|done].
  - by apply views_all_extended.
  - by apply signs_signature.
Qed.

Lemma parse_inner_complete w p : message w p -> parse_inner w = Ok p.
Proof.
  intros [h qs rrs e c k a Hf Hh Hq Hr Hlen Htags Hop Hext Hsig]. unfold parse_inner.
  rewrite (proj2 (Z.ltb_ge _ _)) by done. rewrite (proj2 (header_at_iff _ _) Hh). cbn [with_context map_err obind].
  cbn zeta. pose proof (counts_fit _ _ _ _ Hq Hr) as Hfit.
  assert (Z.to_nat (qdcount (h_counts h)) = length qs) as -> by lia.
  assert ((1 <? length qs) && bool_decide (header_opcode h = OpQuery) = false) as ->.
  { apply andb_false_iff. case_bool_decide as Ho; [left|by right]. apply Nat.ltb_ge. by apply Hop. }
  assert (HEADER_LENGTH <= length w) as Hhl.
  { pose proof (proj2 (header_at_iff _ _) Hh) as Hp. by destruct (header_parse_Ok _ _ Hp). }
  unfold usize_sub. rewrite (proj2 (Nat.leb_le _ _) Hhl). cbn [obind].
  rewrite <- length_record_tags, <- Htags, length_fmap.
  rewrite (proj2 (Nat.ltb_ge _ _)) by (unfold QUESTION_FIXED_LENGTH, RECORD_FIXED_LENGTH; lia).
  rewrite (proj2 (parse_questions_iff w Hf (length qs) HEADER_LENGTH [] qs e)) by eauto. cbn [with_context map_err obind].
  rewrite parse_sections_tagged, <- record_tags_sections, <- Htags.
  apply views_all_extended in Hext.
  match goal with |- context [parse_tagged w rrs.*1 ?st] => destruct (parse_tagged_complete w Hf rrs st (length w) (c, k))
    as (st' & -> & Hc & Hv & Ha); [done|done|] end.
  cbn [obind]. rewrite Hc, Nat.eqb_refl. unfold view in Hv. simplify_eq. rewrite Ha. cbn [ps_authenticated orb].
  do 2 f_equal. apply Bool.eq_iff_eq_true. by rewrite Hsig, signs_signature.
Qed.
#[local] Transparent parse_sections parse_questions.

Lemma packet_parse_iff w p : packet_parse w = Ok p <-> message w p.
Proof.
  unfold packet_parse, parse. rewrite !map_err_Ok. split; [apply parse_inner_sound|apply parse_inner_complete].
Qed.

(** C4: parsing is total and accepts exactly the messages of the grammar.  Every
    input, of any length, gives a packet or an error, never a fault and never
    without end; the packet is the one the grammar describes: header and questions
    as they lie in the bytes, the counts of the header as many records after them,
    each with data of the layout of its type and all of them together up to the
    last byte, at most one OPT record, in the additional section and at the root,
    from which the EDNS view and the cookie are taken, and the mark of a signed
    message exactly when a record signs it. *)
Theorem packet_parse_refines_grammar w :
  (forall p, packet_parse w = Ok p <-> message w p)
  /\ ((exists p, packet_parse w = Ok p) \/ (exists e, packet_parse w = Err e)).
Proof.
  split; [apply packet_parse_iff|]. pose proof (packet_parse_wp w) as H.
  destruct (packet_parse w) as [p|e| |]; [left|right|done|done]; eauto.
Qed.

(** No input has two readings. *)
Corollary message_unique w p q : message w p -> message w q -> p = q.
Proof. rewrite <- !packet_parse_iff. by intros -> [= ->]. Qed.

(** The grammar is inhabited by the messages the other files are tried on, and has
    no reading for broken ones. *)
Example samples_are_messages :
  Forall (fun w => exists p, message w p)
    [sample_query; sample_edns_query; sample_cookie_query; sample_badvers_query; sample_axfr_query;
     sample_response; sample_badcookie_response].
Proof.
  repeat (apply Forall_cons; split; [eexists; apply packet_parse_iff; vm_compute; reflexivity|]).
  constructor.
Qed.

Example broken_samples_are_not :
  Forall (fun w => forall p, ~ message w p) [sample_bad_options; sample_truncated_response; []].
Proof.
  repeat (apply Forall_cons; split; [intros p H%packet_parse_iff; vm_compute in H; discriminate|]).
  constructor.
Qed.
