(* ===== verification/Retry.v ===== *)
(** * What is sent for one query

    A query is sent first with another transaction ID, and again after a
    BADCOOKIE response ([Forwarder::finish_badcookie], [SentQuery::retry]): the
    same bytes, or bytes with the cookie replaced, always reparsed. *)

From S2P Require Import Prelude Types Name Message Cookie Net Reply Parser Body Samples Sent.
From S2P Require Import LocalReply.

(** The queries sent on behalf of [q]. *)
Inductive sent_for (q : Packet) : SentQuery -> Prop :=
| sent_first id :
    is_u16 id -> sent_for q (MkSent (packet_set_id q id) false)
| sent_again s id p :
    is_u16 id -> sent_for q s -> packet_parse (to_be16 id ++ drop 2 (sent_wire s)) = Ok p ->
    sent_for q (MkSent p true)
| sent_rewritten s slot mine theirs out rdlength id p :
    is_u16 id -> sent_for q s -> cookie (sent_packet s) = Some (Present slot) ->
    replaces_cookie (sent_wire s) slot mine theirs out rdlength ->
    packet_parse (to_be16 id ++ drop 2 out) = Ok p ->
    sent_for q (MkSent p true).

Lemma sent_for_parses w q s :
  packet_parse w = Ok q -> sent_for q s -> packet_parse (sent_wire s) = Ok (sent_packet s).
Proof.
  intros Hw Hs. destruct Hs as [id Hid|s id p _ _ Hp|s slot mine theirs out rdl id p _ _ _ _ Hp].
  - unfold sent_wire. cbn [sent_packet packet_set_id wire].
    pose proof (packet_wf_parses _ _ Hw). subst w. by apply packet_parse_set_id.
  - unfold sent_wire at 1. cbn [sent_packet]. by rewrite (proj2 (packet_parse_Ok _ _ Hp)).
  - unfold sent_wire. cbn [sent_packet]. by rewrite (proj2 (packet_parse_Ok _ _ Hp)).
Qed.

(** No query gains an OPT record on the way. *)
Lemma sent_for_edns w q s :
  packet_parse w = Ok q -> sent_for q s -> is_Some (edns (sent_packet s)) -> is_Some (edns q).
Proof.
  intros Hw Hs. pose proof Hs as Hs'. revert Hs'.
  induction Hs as [id Hid|s id p Hid Hs IH Hp|s slot mine theirs out rdl id p Hid Hs IH Hc Hr Hp];
    intros _; [done| |]; pose proof (sent_for_parses w q s Hw Hs) as Hps.
  - rewrite (packet_parse_set_id _ _ _ Hid Hps) in Hp. injection Hp as <-. intros He. by apply IH.
  - intros _. apply IH; [done|]. apply packet_parse_Ok in Hps as [Hwf _].
    apply (pw_cookie_edns _ Hwf). by rewrite Hc.
Qed.

(** ** Messages with a given header and first question *)

(** The question is spelled out after the header, without compression. *)
Definition opens_with (h : Header) (question : Question) (w : list byte) : Prop :=
  exists rest, drop 2 w = drop 2 (header_encode h) ++ question_encode question ++ rest.

Lemma opens_with_id h question id w :
  opens_with h question w -> opens_with h question (to_be16 id ++ drop 2 w).
Proof. by intros [rest Hr]; exists rest. Qed.

Lemma parse_one_question w cursor q stop :
  reader_question w cursor = Ok (q, stop) -> parse_questions w (Z.to_nat 1) cursor [] = Ok ([q], stop).
Proof. intros H. change (Z.to_nat 1) with 1. cbn [parse_questions]. by rewrite H. Qed.

#[local] Opaque parse_questions reader_question.

Section opens.
Context (h : Header) (question : Question) (w : list byte) (p : Packet).
Hypothesis h_wf : header_wf h.
Hypothesis question_ok : question_wf question.
Hypothesis one : qdcount (h_counts h) = 1%Z.
Hypothesis parses : packet_parse w = Ok p.
Hypothesis opens : opens_with h question w.

Lemma opens_encode : exists id rest, is_u16 id
  /\ w = header_encode (header_set_id h id) ++ question_encode question ++ rest.
Proof.
  destruct opens as [rest Hr]. apply packet_parse_Ok in parses as [Hp <-].
  destruct (header_parse_Ok _ _ (pw_header _ Hp)) as [Hl _]. unfold HEADER_LENGTH in Hl.
  destruct (wire p) as [|b0 [|b1 tl]]; [simpl in Hl; lia..|].
  exists (be16 b0 b1), rest. split; [apply be16_range|].
  unfold header_encode, header_set_id in *. cbn [h_id h_flags h_counts] in *.
  rewrite to_be16_be16. simpl in Hr |- *. rewrite skipn_0 in Hr. by rewrite Hr.
Qed.

Lemma opens_question :
  questions p = [question] /\ h_flags (header p) = h_flags h /\ h_counts (header p) = h_counts h
  /\ forall slot, cookie p = Some (Present slot) ->
       HEADER_LENGTH + length (question_encode question) <= rdlength_at slot.
Proof.
  destruct opens_encode as (id & rest & Hid & Hw).
  apply packet_parse_Ok in parses as [Hp Hwire]. pose proof (pw_size _ Hp) as Hs.
  pose proof (pw_header _ Hp) as Hh. destruct (pw_body _ Hp) as (stop & Hq & Hslot).
  rewrite Hwire in *. rewrite Hw, header_parse_encode in Hh by (by destruct h_wf).
  injection Hh as Hh. rewrite <- Hh in Hq. cbn [header_set_id h_counts] in Hq.
  rewrite one in Hq.
  pose proof (reader_question_mid w (header_encode (header_set_id h id)) question rest Hs Hw
    question_ok) as Hr.
  rewrite length_header_encode in Hr. apply parse_one_question in Hr.
  rewrite Hr in Hq. injection Hq as Hq Hstop.
  split; [done|]. rewrite <- Hh. split; [done|]. split; [done|]. intros slot Hc.
  specialize (Hslot slot Hc). unfold HEADER_LENGTH in *. lia.
Qed.
End opens.

(** A cookie is replaced after the question. *)
Lemma opens_with_replaced h question w slot mine theirs out rdlength :
  opens_with h question w -> replaces_cookie w slot mine theirs out rdlength ->
  HEADER_LENGTH + length (question_encode question) <= rdlength_at slot ->
  opens_with h question out.
Proof.
  intros [rest Hr] (pre & rdlen & mid & len & post & Hpre & -> & -> & _) Hslot.
  unfold HEADER_LENGTH in Hslot. unfold rewritten. rewrite drop_app_le in Hr by lia.
  assert (drop 2 (header_encode h) ++ question_encode question `prefix_of` drop 2 pre) as [rest' Hp].
  { assert (drop 2 (header_encode h) ++ question_encode question
      `prefix_of` drop 2 pre ++ to_be16 rdlen ++ mid ++ to_be16 len ++ mine ++ post) as Hq
      by (rewrite Hr, app_assoc; by eexists).
    destruct (prefix_weak_total _ _ _ Hq (prefix_app_r _ _ _ (reflexivity (drop 2 pre)))) as [?|Hp];
      [done|].
    apply prefix_length_eq in Hp as ->; [done|].
    rewrite length_app, !length_drop, length_header_encode. unfold HEADER_LENGTH. lia. }
  exists (rest' ++ to_be16 (rdlen + (8 + Z.of_nat (length (drop 8 theirs))) - Z.of_nat (length mine))
    ++ mid ++ to_be16 (Z.of_nat (8 + length (drop 8 theirs))) ++ client_half mine ++ drop 8 theirs ++ post).
  rewrite drop_app_le by lia. by rewrite Hp, <- !app_assoc.
Qed.

(** ** Retries ask the same question *)

Section sent_for.
Context (w : list byte) (q : Packet) (question : Question).
Hypothesis parses : packet_parse w = Ok q.
Hypothesis questions_q : questions q = [question].
Hypothesis plain : opens_with (header q) question w.

Lemma sent_for_wf : header_wf (header q) /\ question_wf question /\ qdcount (h_counts (header q)) = 1%Z.
Proof.
  apply packet_parse_Ok in parses as [Hp _].
  pose proof (header_parse_Ok _ _ (pw_header _ Hp)) as (_ & Hh & _). split; [done|].
  pose proof (pw_questions _ Hp) as Hq. pose proof (pw_count _ Hp) as Hc.
  rewrite questions_q in *. apply Forall_cons in Hq as [Hq _]. split; [done|].
  simpl in Hc. destruct Hh as (_ & _ & [? _] & _). lia.
Qed.

Lemma sent_for_opens s : sent_for q s -> opens_with (header q) question (sent_wire s).
Proof.
  destruct sent_for_wf as (Hh & Hq & Hone).
  induction 1 as [id Hid|s id p _ Hs IH Hp|s slot mine theirs out rdl id p _ Hs IH Hc Hr Hp].
  - unfold sent_wire. cbn [sent_packet packet_set_id wire]. apply opens_with_id.
    by rewrite (proj2 (packet_parse_Ok _ _ parses)).
  - unfold sent_wire. cbn [sent_packet]. rewrite (proj2 (packet_parse_Ok _ _ Hp)).
    by apply opens_with_id.
  - unfold sent_wire. cbn [sent_packet]. rewrite (proj2 (packet_parse_Ok _ _ Hp)).
    apply opens_with_id. eapply opens_with_replaced; [exact IH|exact Hr|].
    apply (opens_question (header q) question (sent_wire s) (sent_packet s)); try done.
    by apply (sent_for_parses w q).
Qed.

(** Whatever was sent, the question, the flags and the counts are the client's. *)
Lemma sent_for_question s :
  sent_for q s ->
  questions (sent_packet s) = questions q
  /\ h_flags (header (sent_packet s)) = h_flags (header q)
  /\ h_counts (header (sent_packet s)) = h_counts (header q).
Proof.
  intros Hs. destruct sent_for_wf as (Hh & Hq & Hone).
  destruct (opens_question (header q) question (sent_wire s) (sent_packet s)) as (Hqs & ? & ? & _);
    [done|done|done|by apply (sent_for_parses w q)|by apply sent_for_opens|].
  by rewrite Hqs, questions_q.
Qed.
End sent_for.

(** The bytes a BADCOOKIE response makes the forwarder send again. *)
Definition retry_bytes (s : SentQuery) (w : list byte) : Prop :=
  w = sent_wire s
  \/ exists slot mine theirs rdlength, cookie (sent_packet s) = Some (Present slot)
       /\ replaces_cookie (sent_wire s) slot mine theirs w rdlength.

Lemma retry_bytes_length s w :
  packet_parse (sent_wire s) = Ok (sent_packet s) -> retry_bytes s w -> 2 <= length w.
Proof.
  intros [Hp _]%packet_parse_Ok [->|(slot & mine & theirs & rdl & _ & Hr)].
  - apply pw_header, header_parse_Ok in Hp as [Hl _]. unfold HEADER_LENGTH, sent_wire in *. lia.
  - destruct Hr as (pre & rdlen & mid & len & post & _ & _ & -> & _). unfold rewritten. len.
Qed.

Lemma server_cookie_retry_bytes {E} s r :
  packet_parse (sent_wire s) = Ok (sent_packet s) -> packet_wf (response_packet r) ->
  exists d, server_cookie_retry (E:=E) s r = Ok d
    /\ forall w, d = Rewrite w -> retry_bytes s w.
Proof.
  intros [Hs _]%packet_parse_Ok Hr.
  destruct (cookie_retry_total (E:=E) (sent_packet s) (response_packet r)) as (d & Hd & Hspec);
    [apply Hs|apply Hr|apply Hs|].
  exists d. split; [done|]. intros w ->. right.
  destruct Hspec as (slot & mine & theirs & rdl & Hc & _ & _ & Hrep & _).
  by exists slot, mine, theirs, rdl.
Qed.

(** A retry is sent for the query it retries. *)
Lemma sent_retry_for q s w id s' :
  is_u16 id -> packet_parse (sent_wire s) = Ok (sent_packet s) -> sent_for q s -> retry_bytes s w ->
  sent_retry w id = Ok s' -> sent_for q s'.
Proof.
  intros Hid Hp Hs Hw. pose proof (retry_bytes_length s w Hp Hw) as Hl.
  unfold sent_retry. rewrite copy_at_id by done. cbn [obind]. intros H.
  apply obind_Ok in H as (p & Hq & [= <-]).
  destruct Hw as [->|(slot & mine & theirs & rdl & Hc & Hr)]; [by eapply sent_again|].
  by eapply sent_rewritten.
Qed.

(** ** Properties *)

(** C20: a cookie retry asks the same question.  Take any query sent for a
    client's message that asks one question and spells it out.  The same bytes again,
    or the bytes the BADCOOKIE reaction asks for, reparse - with another ID - to a query
    with the client's question, flags and record counts, which requires a cookie in the
    response; and the same holds of any retry of it.  The same bytes always reparse;
    rewritten ones may not, and then nothing is sent.  Neither ever panics. *)
Theorem retry_keeps_question w q question s r w' id :
  packet_parse w = Ok q -> questions q = [question] -> opens_with (header q) question w ->
  sent_for q s -> packet_wf (response_packet r) -> is_u16 id ->
  w' = sent_wire s \/ server_cookie_retry (E:=ParseError) s r = Ok (Rewrite w') ->
  match sent_retry w' id with
  | Ok s' =>
    sent_for q s' /\ questions (sent_packet s') = [question]
    /\ h_flags (header (sent_packet s')) = h_flags (header q)
    /\ h_counts (header (sent_packet s')) = h_counts (header q)
    /\ cookie_required s' = true
  | Err _ => w' <> sent_wire s
  | Panic | Diverge => False
  end.
Proof.
  intros Hw Hq Ho Hs Hr Hid Hw'. pose proof (sent_for_parses _ _ _ Hw Hs) as Hp.
  assert (retry_bytes s w') as Hb.
  { destruct Hw' as [->|Hd]; [by left|].
    destruct (server_cookie_retry_bytes (E:=ParseError) s r Hp Hr) as (d & Hd' & Hb).
    rewrite Hd in Hd'. injection Hd' as <-. by apply Hb. }
  pose proof (sent_retry_wp w' id (retry_bytes_length _ _ Hp Hb)) as Hwp.
  destruct (sent_retry w' id) as [s'|e| |] eqn:Hs'; [|intros ->|done|done].
  - pose proof (sent_retry_for q s w' id s' Hid Hp Hs Hb Hs') as Hs''.
    destruct (sent_for_question w q question Hw Hq Ho s' Hs'') as (Hqs & Hf & Hc).
    split; [done|]. rewrite Hqs. split; [done|]. split; [done|]. split; [done|]. apply Hwp.
  - unfold sent_retry in Hs'. rewrite copy_at_id in Hs' by by apply (retry_bytes_length s).
    cbn [obind] in Hs'. rewrite (packet_parse_set_id _ _ _ Hid Hp) in Hs'. done.
Qed.

Definition sample_cookie_sent : SentQuery :=
  MkSent (packet_set_id (parsed sample_cookie_query) 0x1234) false.
(** Its retry with the server cookie of the BADCOOKIE response. *)
Definition sample_rewritten : list byte :=
  bytes_of ([18; 52; 1; 0; 0; 1; 0; 0; 0; 0; 0; 1] ++ question_a ++ opt_of 0 (server_cookie 9)).

Lemma retry_keeps_question_witness :
  let question := MkQuestion (MkName [[x61]; [x74; x65; x73; x74]]) TA CIn in
  let s' := MkSent (packet_set_id (parsed sample_rewritten) 0xbeef) true in
  server_cookie_retry (E:=ParseError) sample_cookie_sent (MkResponse (parsed sample_badcookie_response))
    = Ok (Rewrite sample_rewritten)
  /\ sent_for (parsed sample_cookie_query) s' /\ questions (sent_packet s') = [question].
Proof.
  cbv zeta. split; [vm_compute; reflexivity|].
  assert (sent_retry sample_rewritten 0xbeef = Ok (MkSent (packet_set_id (parsed sample_rewritten) 0xbeef) true))
    as Hretry by (vm_compute; reflexivity).
  pose proof (retry_keeps_question sample_cookie_query (parsed sample_cookie_query)
    (MkQuestion (MkName [[x61]; [x74; x65; x73; x74]]) TA CIn) sample_cookie_sent
    (MkResponse (parsed sample_badcookie_response)) sample_rewritten 0xbeef) as Hkeep.
  rewrite Hretry in Hkeep. destruct Hkeep as (Hs & Hq & _);
    [vm_compute; reflexivity|vm_compute; reflexivity| | | | | |exact (conj Hs Hq)].
  - eexists. vm_compute. reflexivity.
  - apply sent_first. vm_compute. split; [intros [=]|reflexivity].
  - apply (packet_parse_Ok sample_badcookie_response). vm_compute. reflexivity.
  - vm_compute. split; [intros [=]|reflexivity].
  - right. vm_compute. reflexivity.
Defined.

(** The question must be spelled out: a name compressed into the bytes that
    follow it changes when the option lengths inside it do. *)
Definition overlapping_question : list nat := [1; 21; 192; 13; 0; 1; 0; 1].
Definition overlapping_cookie (n : nat) : list nat := [0; 10; 0; n; 0; 2; 3; 4; 5; 6; 7; 8].
Definition overlapping_opt : list nat := opt_of 0 (overlapping_cookie 8).
Definition overlapping_query : list byte :=
  bytes_of ([18; 52; 1; 0; 0; 1; 0; 0; 0; 0; 0; 1] ++ overlapping_question ++ overlapping_opt).
Definition overlapping_badcookie : list byte :=
  bytes_of ([18; 52; 129; 135; 0; 1; 0; 0; 0; 0; 0; 1]
    ++ [1; 21; 21; 192; 13; 0; 1; 0; 1] ++ take 15 overlapping_opt ++ [0; 0; 1; 0; 1]
    ++ [0; 0; 41; 4; 208; 1; 0; 128; 0; 0; 20] ++ overlapping_cookie 16 ++ repeat 9 8).

Example overlapping_question_changes :
  let s := MkSent (parsed overlapping_query) false in
  let r := parsed overlapping_badcookie in
  validate_response (E:=ParseError) s r = Ok (Some (MkResponse r))
  /\ exists w s', server_cookie_retry (E:=ParseError) s (MkResponse r) = Ok (Rewrite w)
       /\ sent_retry w 0x1234 = Ok s'
       /\ questions_eqb (questions (sent_packet s')) (questions (sent_packet s)) = false.
Proof.
  cbv zeta. split; [vm_compute; reflexivity|]. eexists _, _.
  split; [vm_compute; reflexivity|]. split; vm_compute; reflexivity.
Qed.
