(* ===== verification/Answers.v ===== *)
(** * What a local reply says

    The meaning of the replies of [Reply] to the client that reads them: every
    rejection, local answer and TC reply parses as a response to the packet it
    answers, with the response code intended, and fits any client. *)

From S2P Require Import Prelude Types Name Message Cookie Net Reply Parser Samples LocalReply.

(** [replies h q e r code tr n]: [r] is a minimal response to a request with
    header [h], question [q] and EDNS view [e], with [code], TC as [tr] says,
    and [n] answer records. *)
Record replies (h : Header) (q : option Question) (e : option Edns) (r : Packet)
    (code : ResponseCode) (tr : bool) (n : Z) : Prop := {
  as_id : h_id (header r) = h_id h;
  as_type : message_type (header r) = MtResponse;
  as_opcode : header_opcode (header r) = header_opcode h;
  as_tc : is_truncated r = tr;
  as_rd : Z.land (h_flags (header r)) RD_MASK = Z.land (h_flags h) RD_MASK;
  as_cd : Z.land (h_flags (header r)) CD_MASK = Z.land (h_flags h) CD_MASK;
  as_ra : Z.land (h_flags (header r)) RA_MASK = RA_MASK;
  as_unclaimed : Z.land (h_flags (header r)) 0x0460 = 0%Z;
  as_code : response_code r = code;
  as_questions : questions r = option_list q;
  as_count : ancount (h_counts (header r)) = n;
  as_edns : edns r = (fun e => MkEdns SERVER_UDP_LENGTH 0 (Z.shiftr (rcode_wire code) 4)
                                 (dnssec_ok e)) <$> e;
  as_unsigned : authenticated r = false;
  as_size : length (wire r) <= 342
}.

(** [answers p r code tr n]: [r] is such a response to the packet [p]. *)
Definition answers (p r : Packet) (code : ResponseCode) (tr : bool) (n : Z) : Prop :=
  replies (header p) (head (questions p)) (edns p) r code tr n.

(** A code that a reply can carry: the bits above the header's four need an OPT
    record. *)
Definition code_fits (e : option Edns) (code : ResponseCode) : Prop :=
  rcode_canonical code /\ (0 <= rcode_wire code < 4096)%Z
  /\ (e = None -> (rcode_wire code < 16)%Z).

Section codes.
Local Open Scope Z_scope.

Lemma rcode_bits_split c : 0 <= c -> Z.lor (Z.shiftl (Z.shiftr c 4) 4) (Z.land c RCODE_MASK) = c.
Proof.
  intros _. change RCODE_MASK with (Z.ones 4). rewrite <- Z.ldiff_ones_r by lia.
  apply Z.lor_ldiff_and.
Qed.

Lemma rcode_bits_low c : 0 <= c < 16 -> Z.land c RCODE_MASK = c.
Proof. intros H. change RCODE_MASK with (Z.ones 4). rewrite Z.land_ones by lia. by apply Z.mod_small. Qed.

(** The code of a parsed packet has at most twelve bits, four without OPT. *)
Lemma response_code_fits p e :
  packet_wf p -> (e = None -> edns p = None) -> code_fits e (response_code p).
Proof.
  intros Hp He. unfold code_fits, response_code. split; [auto|]. rewrite rcode_wire_from_wire.
  assert (0 <= Z.land (h_flags (header p)) RCODE_MASK < 16) as Hl.
  { change RCODE_MASK with (Z.ones 4). rewrite Z.land_ones by lia. apply Z.mod_pos_bound. lia. }
  destruct (edns p) as [opt|] eqn:Hpe; cycle 1.
  { rewrite Z.lor_0_l. split; [lia|]. intros _. lia. }
  split; [|intros Hq; by specialize (He Hq)].
  destruct (pw_edns _ Hp opt Hpe) as (_ & _ & Hx).
  rewrite Z.shiftl_mul_pow2 by lia. split.
  - apply Z.lor_nonneg. lia.
  - apply Z.log2_lt_cancel. change (Z.log2 4096) with 12.
    rewrite Z.log2_lor by lia. apply Z.max_lub_lt.
    + destruct (Z.eq_dec (extended_rcode opt) 0) as [->|]; [done|].
      rewrite Z.log2_mul_pow2 by lia.
      assert (Z.log2 (extended_rcode opt) < 8) by (apply Z.log2_lt_pow2; lia). lia.
    + destruct (Z.eq_dec (Z.land (h_flags (header p)) RCODE_MASK) 0) as [->|]; [done|].
      assert (Z.log2 (Z.land (h_flags (header p)) RCODE_MASK) < 4)
        by (apply Z.log2_lt_pow2; lia). lia.
Qed.
End codes.

(** The OPT record of a reply follows the request's, with or without a cookie. *)
Definition opt_follows (e : option Edns) (opt : GeneratedOpt) : Prop :=
  match e, opt with
  | Some e, OptPresent d _ => d = dnssec_ok e
  | None, OptAbsent => True
  | _, _ => False
  end.

Lemma generated_opt_follows e : opt_follows e (generated_opt e).
Proof. by destruct e. Qed.

Lemma truncated_flag f (tr : bool) :
  Z.land f TC_MASK = (if tr then TC_MASK else 0%Z) -> negb (Z.land f TC_MASK =? 0)%Z = tr.
Proof. intros ->. by destruct tr. Qed.

Section reply.
Context (h : Header) (q : option Question) (e : option Edns) (code : ResponseCode) (tr : bool)
  (opt : GeneratedOpt) (answer : option (Ipv4Addr * Z)).
Hypothesis h_wf : header_wf h.
Hypothesis q_wf : forall q', q = Some q' -> question_wf q'.
Hypothesis code_ok : code_fits e code.
Hypothesis opt_ok : opt_follows e opt.
Hypothesis answer_ok : forall a ttl, answer = Some (a, ttl) -> is_u32 ttl /\ is_Some q.
Hypothesis cookie_ok : forall d c, opt = OptPresent d (Some c) -> length c <= 40.

Lemma request_wf : reply_request_wf h q code opt answer.
Proof. destruct code_ok as (_ & ? & _). by split. Qed.

Let reply := reply_packet h q code tr opt answer.

Lemma reply_edns_follows :
  edns reply = (fun e => MkEdns SERVER_UDP_LENGTH 0 (Z.shiftr (rcode_wire code) 4) (dnssec_ok e))
                 <$> e.
Proof.
  unfold reply, reply_packet. cbn [edns]. unfold opt_follows in opt_ok.
  destruct e as [e'|], opt as [|d c]; try done. by subst.
Qed.

Lemma reply_code : response_code reply = code.
Proof.
  destruct code_ok as (Hc & Hr & Hs). unfold response_code. rewrite reply_edns_follows.
  unfold reply, reply_packet. cbn [header h_flags reply_header]. rewrite reply_flags_rcode.
  destruct e as [e'|] eqn:He; cbn.
  - fold (rcode_wire code). rewrite rcode_bits_split by lia. exact Hc.
  - rewrite rcode_bits_low by (specialize (Hs eq_refl); lia). exact Hc.
Qed.

Lemma reply_packet_replies : replies h q e reply code tr (bool_u16 (is_some answer)).
Proof.
  pose proof reply_code. pose proof reply_edns_follows. split; try done.
  - unfold message_type. cbn [reply reply_packet reply_header header h_flags].
    by rewrite reply_flags_qr.
  - unfold header_opcode. cbn [reply reply_packet reply_header header h_flags].
    by rewrite reply_flags_opcode.
  - apply truncated_flag, reply_flags_tc.
  - apply reply_flags_rd.
  - apply reply_flags_cd.
  - apply reply_flags_ra.
  - apply reply_flags_aa_ad_z.
  - apply length_make_reply, request_wf.
Qed.

Lemma make_reply_replies :
  exists r, packet_parse (make_reply h q code tr opt answer) = Ok r
    /\ r = reply /\ replies h q e r code tr (bool_u16 (is_some answer)).
Proof.
  exists reply. split; [apply packet_parse_make_reply, request_wf|].
  split; [done|apply reply_packet_replies].
Qed.
End reply.

Lemma packet_header_wf p : packet_wf p -> header_wf (header p).
Proof. intros Hp. by apply header_parse_Ok with (w := wire p), pw_header. Qed.

Lemma packet_question_wf p q : packet_wf p -> head (questions p) = Some q -> question_wf q.
Proof.
  intros Hp Hq. pose proof (pw_questions _ Hp) as Hw.
  destruct (questions p) as [|q' qs]; [done|]. simpl in Hq. simplify_eq.
  by apply Forall_cons in Hw as [? _].
Qed.

Lemma make_reply_answers p code tr opt answer :
  packet_wf p -> code_fits (edns p) code -> opt_follows (edns p) opt ->
  (forall a ttl, answer = Some (a, ttl) -> is_u32 ttl /\ is_Some (head (questions p))) ->
  (forall d c, opt = OptPresent d (Some c) -> length c <= 40) ->
  exists r, packet_parse (make_reply (header p) (head (questions p)) code tr opt answer) = Ok r
    /\ r = reply_packet (header p) (head (questions p)) code tr opt answer
    /\ answers p r code tr (bool_u16 (is_some answer)).
Proof.
  intros. apply make_reply_replies; try done; [by apply packet_header_wf|].
  intros. by eapply packet_question_wf.
Qed.

(** ** Cookies in replies *)

(** The client sent a server cookie, which no local reply can confirm. *)
Definition sent_server_cookie (p : Packet) : Prop :=
  exists c, present_cookie p = Some c /\ 8 < length c.

Lemma sent_server_cookie_spec p :
  is_some_and (fun c => 8 <? length c) (present_cookie p) = true <-> sent_server_cookie p.
Proof.
  unfold sent_server_cookie. destruct (present_cookie p) as [c|]; simpl; [|naive_solver].
  rewrite Nat.ltb_lt. naive_solver.
Qed.

Lemma reply_packet_cookie h question code tr d c answer :
  valid_cookie_length (length c) = true ->
  present_cookie (reply_packet h question code tr (OptPresent d (Some c)) answer) = Some c.
Proof.
  intros Hv. unfold present_cookie, reply_packet, reply_cookie. cbn [cookie wire opt_options].
  cbn [first_cookie]. change (10 =? COOKIE_OPTION)%Z with true. rewrite Hv. f_equal.
  unfold slot_data. cbn [data_len data_at].
  set (b := before_opt _ _ _ _ _ _). rewrite make_reply_split. fold b.
  rewrite opt_bytes_options. unfold options_bytes, option_bytes.
  cbn [opt_options fmap list_fmap concat fst snd]. rewrite app_nil_r.
  rewrite !app_assoc. rewrite drop_app_length' by len. by apply take_ge.
Qed.

Lemma reply_packet_no_cookie h question code tr opt answer :
  (forall d c, opt = OptPresent d c -> c = None) ->
  present_cookie (reply_packet h question code tr opt answer) = None.
Proof.
  intros H. unfold present_cookie, reply_packet, reply_cookie. cbn [cookie].
  destruct opt as [|d c]; [done|]. by rewrite (H d c eq_refl).
Qed.

Lemma generated_opt_no_cookie e d c : generated_opt e = OptPresent d (Some c) -> length c <= 40.
Proof. by destruct e. Qed.

(** ** Errors *)

Section error.
Context (p : Packet) (code : ResponseCode).
Hypothesis p_wf : packet_wf p.
Hypothesis code_ok : code_fits (edns p) code.

Lemma error_reply_answers :
  exists r, packet_parse (error_reply p code) = Ok r /\ answers p r code false 0.
Proof.
  destruct (make_reply_answers p code false (generated_opt (edns p)) None) as (r & Hr & _ & Ha);
    try done; [apply generated_opt_follows|apply generated_opt_no_cookie|]. eauto.
Qed.

Lemma local_error_reply_cases E :
  exists o, local_error_reply (E:=E) p code = Ok o
    /\ (o = None <-> sent_server_cookie p)
    /\ forall bytes, o = Some bytes -> bytes = error_reply p code.
Proof.
  unfold local_error_reply. rewrite response_cookie_present by by apply pw_cookie.
  cbn [obind]. pose proof (sent_server_cookie_spec p) as Hs.
  destruct (is_some_and _ _); eexists; split_and!; naive_solver.
Qed.
End error.

(** The code of a rejection can be carried by the reply. *)
Lemma rejected_code_fits {E} p code :
  validate_query (E:=E) p = Ok (Reject code) -> code_fits (edns p) code.
Proof.
  intros H. unfold validate_query in H. inv_ok; try (split; done).
  by destruct (edns p).
Qed.

Lemma local_code_fits e code : code ∈ [ServerFailure; NameError; FormatError] -> code_fits e code.
Proof.
  intros [->|[->|[->|H]%elem_of_cons]%elem_of_cons]%elem_of_cons; try done.
  by apply not_elem_of_nil in H.
Qed.

(** ** Local A records *)

Definition has_local_data (q : Question) : bool :=
  bool_decide (q_class q = CIn) && bool_decide (q_kind q ∈ [TA; TAny]).
Definition local_code (q : Question) : ResponseCode :=
  if bool_decide (q_class q = CIn) then NoError else RcRefused.

(** The answer record of [bytes]: an IN A record for the name asked for. *)
Definition holds_a_record (bytes : list byte) (q : Question) (address : Ipv4Addr) (ttl : Z) : Prop :=
  exists at_,
    resource_record bytes (HEADER_LENGTH + length (question_encode q))
    = Ok (MkRecord (q_name q) TA (ClassDns CIn) ttl at_ (at_ + 4), at_)
    /\ slice bytes at_ (at_ + 4) = Some (octets address).

Lemma make_reply_a_record h q code tr opt address ttl :
  reply_request_wf h (Some q) code opt (Some (address, ttl)) ->
  holds_a_record (make_reply h (Some q) code tr opt (Some (address, ttl))) q address ttl.
Proof.
  intros Hwf. destruct (rq_question _ _ _ _ _ Hwf q eq_refl) as (Hn & _).
  destruct (rq_answer _ _ _ _ _ Hwf address ttl eq_refl) as (Httl & _).
  pose proof (make_reply_fits h (Some q) code tr opt (Some (address, ttl)) Hwf) as Hf.
  set (w := make_reply _ _ _ _ _ _) in *.
  set (hd := header_encode (reply_header h (Some q) code tr opt (Some (address, ttl)))).
  assert (w = (hd ++ question_encode q) ++ answer_bytes (Some (address, ttl)) ++ opt_bytes code opt)
    as Hw by (unfold w; rewrite make_reply_split; unfold before_opt; by rewrite <- !app_assoc).
  set (pre := hd ++ question_encode q) in *.
  replace (HEADER_LENGTH + _) with (length pre)
    by (unfold pre, hd; by rewrite length_app, length_header_encode).
  unfold holds_a_record. unfold answer_bytes in Hw. rewrite <- !app_assoc in Hw.
  exists (length (pre ++ [xc0; x0c]) + 10). split.
  - apply (resource_record_mid w pre [xc0; x0c] (q_name q) (rtype_wire TA) (rclass_wire CIn) ttl 4
      (octets address ++ opt_bytes code opt)); try done.
    { by rewrite Hw, <- !app_assoc. }
    rewrite length_app.
    assert (exists rest, w = hd ++ name_encode (q_name q) ++ rest) as [rest Hh].
    { eexists. rewrite Hw. unfold pre, question_encode. rewrite <- !app_assoc. done. }
    eapply (name_decode_pointer w (length pre) (q_name q)).
    + rewrite Hh. change HEADER_LENGTH with (length hd). apply name_encode_at, Hn.
    + apply Hn.
    + unfold pre. rewrite length_app, length_question_encode. unfold hd.
      rewrite length_header_encode. lia.
    + rewrite Hw. apply lookup_mid.
    + rewrite Hw. cbn [app]. rewrite (cons_middle xc0), app_assoc.
      replace (length pre + 1) with (length (pre ++ [xc0])) by len. apply lookup_mid.
  - set (p := pre ++ [xc0; x0c] ++ to_be16 (rtype_wire TA) ++ to_be16 (rclass_wire CIn)
                ++ to_be32 ttl ++ to_be16 4).
    assert (w = p ++ octets address ++ opt_bytes code opt) as -> by (unfold p; by rewrite Hw, <- !app_assoc).
    apply slice_mid'; [unfold p; len|done].
Qed.

(** The local A reply of a query for [q]. *)
Section local_a.
Context (p : Packet) (q : Question) (address : Ipv4Addr) (ttl : Z).
Hypothesis p_wf : packet_wf p.
Hypothesis p_question : questions p = [q].
Hypothesis ttl_ok : is_u32 ttl.

Let answer := if has_local_data q then Some (address, ttl) else None.
Let bytes := make_reply (header p) (Some q) (local_code q) false (generated_opt (edns p)) answer.

Lemma local_a_reply_cases E :
  exists o, local_a_reply (E:=E) p address ttl = Ok o
    /\ (o = None <-> sent_server_cookie p) /\ forall b, o = Some b -> b = bytes.
Proof.
  unfold local_a_reply. rewrite response_cookie_present by by apply pw_cookie.
  cbn [obind]. pose proof (sent_server_cookie_spec p) as Hs. rewrite p_question.
  destruct (is_some_and _ _); eexists; split_and!; naive_solver.
Qed.

Lemma local_a_reply_answers :
  exists r, packet_parse bytes = Ok r
    /\ answers p r (local_code q) false (if has_local_data q then 1 else 0)
    /\ (has_local_data q = true -> holds_a_record bytes q address ttl).
Proof.
  assert (head (questions p) = Some q) as Hh by by rewrite p_question.
  assert (code_fits (edns p) (local_code q)) as Hc
    by (unfold local_code; destruct (bool_decide _); done).
  assert (forall a t, answer = Some (a, t) -> is_u32 t /\ is_Some (head (questions p))) as Ha.
  { unfold answer. rewrite Hh. destruct (has_local_data q); naive_solver. }
  destruct (make_reply_answers p (local_code q) false (generated_opt (edns p)) answer) as (r & Hr & _ & Hra);
    try done; [apply generated_opt_follows|apply generated_opt_no_cookie|].
  rewrite Hh in Hr. exists r. split; [done|]. split.
  - unfold answer in Hra. by destruct (has_local_data q).
  - intros Hd. unfold bytes, answer. rewrite Hd. apply make_reply_a_record.
    eapply (request_wf _ _ (edns p)); try done; [by apply packet_header_wf| | |].
    + intros q' [= <-]. by apply (packet_question_wf p).
    + unfold answer in Ha. by rewrite Hh, Hd in Ha.
    + apply generated_opt_no_cookie.
Qed.
End local_a.

(** ** TC replies *)

Section truncated.
Context (p up : Packet).
Hypothesis p_wf : packet_wf p.
Hypothesis up_wf : packet_wf up.
Hypothesis no_new_edns : edns p = None -> edns up = None.

Lemma truncated_reply_answers E :
  exists bytes r, truncated_reply (E:=E) p (MkResponse up) = Ok bytes
    /\ packet_parse bytes = Ok r
    /\ answers p r (response_code up) true 0
    /\ present_cookie r = present_cookie up.
Proof.
  pose proof (response_code_fits up (edns p) up_wf no_new_edns) as Hc.
  unfold truncated_reply. cbn [response_packet].
  destruct (edns p) as [e|] eqn:He; cbn [generated_opt].
  - rewrite response_cookie_present by by apply pw_cookie. cbn [obind].
    set (opt := OptPresent (dnssec_ok e) (present_cookie up)).
    assert (forall c, present_cookie up = Some c -> valid_cookie_length (length c) = true) as Hv
      by (intros c; apply present_cookie_length, up_wf).
    destruct (make_reply_answers p (response_code up) true opt None) as (r & Hr & -> & Ha);
      try done; [by rewrite He|by rewrite He| |].
    { intros d c [= <- Hp]. specialize (Hv c Hp). apply valid_cookie_length_spec in Hv. lia. }
    eexists _, _. split_and!; [done|exact Hr|exact Ha|]. unfold opt.
    destruct (present_cookie up) as [c|]; [by apply reply_packet_cookie, Hv|].
    apply reply_packet_no_cookie. by intros d c [= _ <-].
  - cbn [obind].
    destruct (make_reply_answers p (response_code up) true OptAbsent None) as (r & Hr & -> & Ha);
      try done; [by rewrite He|by rewrite He|].
    eexists _, _. split_and!; [done|exact Hr|exact Ha|].
    rewrite reply_packet_no_cookie by done. unfold present_cookie.
    destruct (cookie up) as [f|] eqn:Hf; [|done].
    destruct (pw_cookie_edns _ up_wf) as [e' He']; [by rewrite Hf|].
    by rewrite no_new_edns in He'.
Qed.
End truncated.

Lemma corresponds_to_no_new_edns r q id :
  corresponds_to r q id = true -> edns (query_packet q) = None -> edns r = None.
Proof.
  unfold corresponds_to. rewrite !andb_true_iff. intros ((_ & H) & _) He.
  rewrite He in H. by destruct (edns r).
Qed.

Lemma udp_limit_range p : (CLASSIC_UDP_LENGTH <= udp_limit p <= SERVER_UDP_LENGTH)%Z.
Proof. unfold udp_limit, CLASSIC_UDP_LENGTH, SERVER_UDP_LENGTH. destruct (edns p); lia. Qed.

(** ** Malformed queries *)

Lemma format_failure_spec w f :
  parse w = Err f ->
  (failure_format_reply f = None <-> forall h, ~ query_header w h)
  /\ forall bytes, failure_format_reply f = Some bytes ->
       exists h q e r, query_header w h /\ packet_parse bytes = Ok r
         /\ replies h q e r FormatError false 0
         /\ (pf_error f <> InvalidEdns -> q = None /\ e = None).
Proof.
  intros [[Hs Hc] Hn]%parse_failure. unfold failure_format_reply.
  destruct (pf_context f) as [c|] eqn:Hf; cbn [fmap option_fmap option_map]; cycle 1.
  { split; [|done]. split; [|done]. intros _ h Hh. by destruct (Hs h Hh). }
  destruct (Hc c eq_refl) as (Hh & Hq & He). split.
  { split; [done|]. intros H. by destruct (H (ctx_header c)). }
  intros bytes [= <-].
  assert (header_wf (ctx_header c)) as Hwf by (eapply header_parse_Ok, Hh).
  assert (forall q e opt, (forall q', q = Some q' -> question_wf q') -> opt_follows e opt ->
    (forall d k, opt = OptPresent d (Some k) -> length k <= 40) ->
    exists r, packet_parse (make_reply (ctx_header c) q FormatError false opt None) = Ok r
      /\ replies (ctx_header c) q e r FormatError false 0) as Hr.
  { intros q e opt Hqw Ho Hk.
    destruct (make_reply_replies (ctx_header c) q e FormatError false opt None) as (r & ? & _ & ?);
      try done. eauto. }
  unfold format_reply, header_error_reply.
  change (as_response HRC_FORMAT_ERROR) with FormatError.
  destruct (ctx_edns c) as [e|] eqn:Hce; cbn [negb is_some].
  - destruct (Hr (ctx_question c) (Some e) (generated_opt (Some e))) as (r & ? & ?); try done.
    exists (ctx_header c), (ctx_question c), (Some e), r. split_and!; try done.
    intros Hne. by destruct (Hn Hne c eq_refl) as [? ?]; simplify_eq.
  - destruct (Hr None None OptAbsent) as (r & ? & ?); try done.
    exists (ctx_header c), None, None, r. done.
Qed.

(** ** Properties *)

(** C15: every rejection is answered.  When a parsed packet is rejected with a
    code, the local error reply is suppressed exactly for a client that sent a
    server cookie; otherwise it is a well-formed response to that packet: same
    ID, opcode, RD, CD and question, RA set, AA, AD and Z clear, OPT present
    exactly when the request's is, and the decoded response code, extended
    bits included, is the one chosen. *)
Theorem rejection_is_answered w p code :
  packet_parse w = Ok p -> validate_query (E:=ParseError) p = Ok (Reject code) ->
  exists o, local_error_reply (E:=ParseError) p code = Ok o
    /\ (o = None <-> sent_server_cookie p)
    /\ forall bytes, o = Some bytes ->
         exists r, packet_parse bytes = Ok r /\ answers p r code false 0.
Proof.
  intros [Hp _]%packet_parse_Ok Hv.
  destruct (local_error_reply_cases p code Hp ParseError) as (o & Ho & Hn & Hb).
  exists o. split; [done|]. split; [done|]. intros bytes ->%Hb.
  apply error_reply_answers; [done|]. by eapply rejected_code_fits.
Qed.

Lemma rejection_is_answered_witness :
  let p := parsed sample_badvers_query in
  validate_query (E:=ParseError) p = Ok (Reject BadVersion)
  /\ exists o, local_error_reply (E:=ParseError) p BadVersion = Ok o
    /\ (o = None <-> sent_server_cookie p)
    /\ forall bytes, o = Some bytes ->
         exists r, packet_parse bytes = Ok r /\ answers p r BadVersion false 0.
Proof.
  split; [vm_compute; reflexivity|].
  apply (rejection_is_answered sample_badvers_query); vm_compute; reflexivity.
Defined.

(** C16: a local A record answers a forwardable query with the configured
    address and TTL for the very name asked for, exactly when the query is for
    A or ANY in class IN; other types get an empty NOERROR and other classes
    REFUSED.  The answer's owner is a compression pointer, and decoding the
    record from the reply gives the question's name back. *)
Theorem local_a_reply_correct w p q address ttl :
  packet_parse w = Ok p -> validate_query (E:=ParseError) p = Ok (Forward q) -> is_u32 ttl ->
  let question := query_question q in
  exists o, local_a_reply (E:=ParseError) p address ttl = Ok o
    /\ (o = None <-> sent_server_cookie p)
    /\ forall bytes, o = Some bytes ->
         exists r, packet_parse bytes = Ok r
           /\ answers p r (local_code question) false (if has_local_data question then 1 else 0)
           /\ (has_local_data question = true -> holds_a_record bytes question address ttl).
Proof.
  intros [Hp _]%packet_parse_Ok [_ Hf]%validate_query_forward Httl question.
  pose proof (fwd_question _ _ Hf) as Hq.
  destruct (local_a_reply_cases p question address ttl Hp Hq ParseError) as (o & Ho & Hn & Hb).
  exists o. split; [done|]. split; [done|]. intros bytes ->%Hb.
  by apply local_a_reply_answers.
Qed.

Lemma local_a_reply_correct_witness :
  let p := parsed sample_edns_query in
  let question := MkQuestion (MkName [[x61]; [x74; x65; x73; x74]]) TA CIn in
  let address := Ipv4 x0a x4d x14 x02 in
  exists o, local_a_reply (E:=ParseError) p address 60 = Ok o
    /\ (o = None <-> sent_server_cookie p)
    /\ forall bytes, o = Some bytes ->
         exists r, packet_parse bytes = Ok r
           /\ answers p r NoError false 1
           /\ (true = true -> holds_a_record bytes question address 60).
Proof.
  apply (local_a_reply_correct sample_edns_query (parsed sample_edns_query)
    (MkQuery (parsed sample_edns_query)
       (MkQuestion (MkName [[x61]; [x74; x65; x73; x74]]) TA CIn)));
    first [vm_compute; reflexivity | vm_compute; split; [intros [=]|reflexivity]].
Defined.

(** C17: a TC reply to a query whose upstream response is too long is a complete
    message that parses, carries TC, the response code of the upstream response
    and its cookie, no records but OPT, and fits every client UDP limit. *)
Theorem truncated_reply_correct w p q w' up id :
  packet_parse w = Ok p -> validate_query (E:=ParseError) p = Ok (Forward q) ->
  packet_parse w' = Ok up -> corresponds_to up q id = true ->
  exists bytes r, truncated_reply (E:=ParseError) p (MkResponse up) = Ok bytes
    /\ packet_parse bytes = Ok r
    /\ answers p r (response_code up) true 0
    /\ present_cookie r = present_cookie up
    /\ (Z.of_nat (length bytes) <= udp_limit p)%Z.
Proof.
  intros [Hp _]%packet_parse_Ok [Hq _]%validate_query_forward [Hup _]%packet_parse_Ok Hc.
  pose proof (corresponds_to_no_new_edns _ _ _ Hc) as He. rewrite Hq in He.
  destruct (truncated_reply_answers p up Hp Hup He ParseError) as (bytes & r & Hb & Hr & Ha & Hk).
  exists bytes, r. split_and!; try done.
  apply packet_parse_Ok in Hr as [_ <-]. pose proof (as_size _ _ _ _ _ _ _ Ha).
  pose proof (udp_limit_range p). unfold CLASSIC_UDP_LENGTH in *. lia.
Qed.

Lemma truncated_reply_correct_witness :
  let p := parsed sample_cookie_query in
  let up := parsed sample_badcookie_response in
  exists bytes r, truncated_reply (E:=ParseError) p (MkResponse up) = Ok bytes
    /\ packet_parse bytes = Ok r
    /\ answers p r BadCookie true 0
    /\ present_cookie r = present_cookie up
    /\ (Z.of_nat (length bytes) <= udp_limit p)%Z.
Proof.
  apply (truncated_reply_correct sample_cookie_query (parsed sample_cookie_query)
    (MkQuery (parsed sample_cookie_query)
       (MkQuestion (MkName [[x61]; [x74; x65; x73; x74]]) TA CIn))
    sample_badcookie_response (parsed sample_badcookie_response) 0x1234);
    vm_compute; reflexivity.
Defined.

(** C18: a malformed query gets FORMERR and a response never does.  When parsing
    fails there is no reply exactly when the input is not a query with a
    complete header of admissible size; otherwise the reply is a well-formed
    FORMERR response to that header.  The question is echoed and an OPT record
    is present only where the failure was in the OPT record itself. *)
Theorem format_error_is_answered w f :
  parse w = Err f ->
  (failure_format_reply f = None <-> forall h, ~ query_header w h)
  /\ forall bytes, failure_format_reply f = Some bytes ->
       exists h q e r, query_header w h /\ packet_parse bytes = Ok r
         /\ replies h q e r FormatError false 0
         /\ (pf_error f <> InvalidEdns -> q = None /\ e = None).
Proof. apply format_failure_spec. Qed.

Lemma format_error_is_answered_witness :
  let f := match parse sample_bad_options with Err f => f | _ => MkFailure InvalidEdns None end in
  parse sample_bad_options = Err f
  /\ (failure_format_reply f = None <-> forall h, ~ query_header sample_bad_options h)
  /\ forall bytes, failure_format_reply f = Some bytes ->
       exists h q e r, query_header sample_bad_options h /\ packet_parse bytes = Ok r
         /\ replies h q e r FormatError false 0
         /\ (pf_error f <> InvalidEdns -> q = None /\ e = None).
Proof.
  split; [vm_compute; reflexivity|]. apply format_error_is_answered. vm_compute. reflexivity.
Defined.
