(* ===== verification/Routing.v ===== *)
(** * Routing policy

    [src/src/routing.rs]: validated endpoints and groups, the routing table and
    longest-label-suffix selection.  Selection is proved against a specification
    over the configured rules, in which their order plays no part. *)

From Stdlib Require Import Sorting.Sorted.
From S2P Require Import Prelude Types Name Net.

Definition MAX_UPSTREAMS : nat := 8.

(** [RouteError]. *)
Inductive RouteError :=
| InvalidAddress
| InvalidGroupSize
| DuplicateServer
| DuplicateRoute (suffix : DomainName).

(** ** Endpoints and groups *)

Record UpstreamAddress := MkUpstream { upstream_socket : SocketAddr }.
#[export] Instance UpstreamAddress_eq_dec : EqDecision UpstreamAddress.
Proof. solve_decision. Defined.

(** [UpstreamAddress::new]. *)
Definition upstream_address_new (address : SocketAddr) : outcome RouteError UpstreamAddress :=
  let ip := to_canonical (socket_ip address) in
  let address := if is_ipv4 ip then socket_new ip (socket_port address) else address in
  if (socket_port address =? 0)%Z || is_unspecified ip || is_multicast ip || is_v4_broadcast ip
  then Err InvalidAddress
  else Ok (MkUpstream address).

Record UpstreamGroup := MkGroup { servers : list UpstreamAddress }.

(** [for (i, x) in xs.iter().enumerate()] with an early return: [seen] is the
    slice [xs\[..i\]] that the test [bad] looks at. *)
Fixpoint scan_loop {A E} (bad : list A -> A -> bool) (err : A -> E) (seen rest : list A)
    : outcome E unit :=
  match rest with
  | [] => Ok tt
  | x :: rest => if bad seen x then Err (err x) else scan_loop bad err (seen ++ [x]) rest
  end.

Definition group_loop (addresses : list UpstreamAddress) : outcome RouteError unit :=
  scan_loop (fun seen address => bool_decide (address ∈ seen)) (fun _ => DuplicateServer)
    [] addresses.

(** [UpstreamGroup::new]. *)
Definition upstream_group_new (addresses : list UpstreamAddress) : outcome RouteError UpstreamGroup :=
  if (length addresses =? 0) || (MAX_UPSTREAMS <? length addresses) then Err InvalidGroupSize
  else let* _ := group_loop addresses in Ok (MkGroup addresses).

(** ** The table *)

Record Route := MkRoute { route_suffix : DomainName; route_upstreams : UpstreamGroup }.
Record LocalRecord := MkLocal { local_suffix : DomainName; local_address : Ipv4Addr; local_ttl : Z }.

Record RoutingTable := MkTable {
  rt_default : option UpstreamGroup; rt_routes : list Route; rt_local : list LocalRecord
}.

Inductive Selection :=
| SelDefault (g : UpstreamGroup)
| SelRouted (r : Route)
| SelLocal (l : LocalRecord)
| SelUnmatched.

(** The first loop of [RoutingTable::new]. *)
Definition routes_loop (routes : list Route) : outcome RouteError unit :=
  scan_loop
    (fun seen route =>
       existsb (fun previous => name_eqb (route_suffix previous) (route_suffix route)) seen)
    (fun route => DuplicateRoute (route_suffix route)) [] routes.

(** The second loop. *)
Definition local_loop (routes : list Route) (local : list LocalRecord) : outcome RouteError unit :=
  scan_loop
    (fun seen record =>
       existsb (fun previous => name_eqb (local_suffix previous) (local_suffix record)) seen
       || existsb (fun route => name_eqb (route_suffix route) (local_suffix record)) routes)
    (fun record => DuplicateRoute (local_suffix record)) [] local.

(** [sort_by_key(|x| Reverse(key(x)))], which is stable: an element goes before
    the first one whose key is not larger. *)
Section sort.
Context {A : Type} (key : A -> nat).

Fixpoint insert_desc (x : A) (l : list A) : list A :=
  match l with
  | [] => [x]
  | y :: l' => if key y <=? key x then x :: l else y :: insert_desc x l'
  end.
Definition sort_desc (l : list A) : list A := foldr insert_desc [] l.
End sort.

(** [RoutingTable::new]. *)
Definition routing_table_new (default : option UpstreamGroup) (routes : list Route)
    (local : list LocalRecord) : outcome RouteError RoutingTable :=
  let* _ := routes_loop routes in
  let* _ := local_loop routes local in
  let routes := sort_desc (fun route => label_count (route_suffix route)) routes in
  let local := sort_desc (fun record => label_count (local_suffix record)) local in
  Ok (MkTable default routes local).

(** [RoutingTable::select]. *)
Definition select (t : RoutingTable) (name : DomainName) : Selection :=
  let route := find (fun route => is_subdomain_of name (route_suffix route)) (rt_routes t) in
  let local := find (fun record => is_subdomain_of name (local_suffix record)) (rt_local t) in
  match route, local with
  | Some route, Some record =>
    if label_count (local_suffix record) <? label_count (route_suffix route)
    then SelRouted route else SelLocal record
  | None, Some record => SelLocal record
  | Some route, None => SelRouted route
  | None, None =>
    match rt_default t with None => SelUnmatched | Some g => SelDefault g end
  end.

(** [RoutingTable::has_upstreams]. *)
Definition has_upstreams (t : RoutingTable) : bool :=
  is_some (rt_default t) || negb (length (rt_routes t) =? 0).

(** ** Early-return scans *)

Section scan.
Context {A K E : Type} (bad : list A -> A -> bool) (err : A -> E) (key : A -> K)
  (extra : A -> Prop).
Hypothesis bad_spec : forall seen x, bad seen x = true <-> key x ∈ key <$> seen \/ extra x.

Lemma scan_loop_Ok_gen seen rest :
  scan_loop bad err seen rest = Ok tt
  <-> NoDup (key <$> rest) /\ forall x, x ∈ rest -> key x ∉ key <$> seen /\ ~ extra x.
Proof.
  revert seen. induction rest as [|x rest IH]; intros seen; cbn [scan_loop].
  - split; [|done]. intros _. split; [constructor|]. by intros x ?%not_elem_of_nil.
  - rewrite fmap_cons, NoDup_cons. destruct (bad seen x) eqn:Hb.
    + apply bad_spec in Hb. split; [done|]. intros [_ H].
      destruct (H x) as [? ?]; [by left|]. tauto.
    + assert (~ (key x ∈ key <$> seen \/ extra x)) as Hn
        by (rewrite <- bad_spec; by rewrite Hb).
      rewrite IH. split.
      * intros [Hd H]. split; [split; [|done]|].
        -- intros (y & Hy & Hin)%list_elem_of_fmap. destruct (H y Hin) as [Hk _].
           apply Hk. rewrite fmap_app, elem_of_app, <- Hy. right. by left.
        -- intros y [->|Hy]%elem_of_cons; [tauto|]. destruct (H y Hy) as [Hk ?].
           split; [|done]. rewrite fmap_app, elem_of_app in Hk. tauto.
      * intros [[Hx Hd] H]. split; [done|]. intros y Hy.
        destruct (H y) as [Hk ?]; [by right|]. split; [|done].
        rewrite fmap_app, elem_of_app. intros [?|He]; [done|].
        apply list_elem_of_singleton in He. apply Hx, list_elem_of_fmap. eauto.
Qed.

Lemma scan_loop_Ok xs :
  scan_loop bad err [] xs = Ok tt <-> NoDup (key <$> xs) /\ forall x, x ∈ xs -> ~ extra x.
Proof.
  rewrite scan_loop_Ok_gen. split; intros [? H]; (split; [done|]); intros x Hx.
  - by destruct (H x Hx).
  - split; [|by apply H]. by apply not_elem_of_nil.
Qed.

Lemma scan_loop_cases xs :
  scan_loop bad err [] xs = Ok tt \/ exists x, x ∈ xs /\ scan_loop bad err [] xs = Err (err x).
Proof.
  generalize (@nil A) as seen. induction xs as [|x xs IH]; intros seen; [by left|].
  cbn [scan_loop]. destruct (bad seen x); [right; exists x; split; [by left|done]|].
  destruct (IH (seen ++ [x])) as [->|(y & Hy & ->)]; [by left|].
  right. exists y. split; [by right|done].
Qed.
End scan.

(** ** Sorting by specificity *)

Section sort_lemmas.
Context {A : Type} (key : A -> nat).
Let above (x y : A) : Prop := key y <= key x.

Lemma insert_desc_perm x l : insert_desc key x l ≡ₚ x :: l.
Proof.
  induction l as [|y l IH]; [done|]. cbn [insert_desc]. destruct (_ <=? _); [done|].
  rewrite IH. constructor.
Qed.

Lemma sort_desc_perm l : sort_desc key l ≡ₚ l.
Proof. induction l as [|x l IH]; [done|]. simpl. by rewrite insert_desc_perm, IH. Qed.

Lemma insert_desc_sorted x l :
  StronglySorted above l -> StronglySorted above (insert_desc key x l).
Proof.
  induction 1 as [|y l Hl IH Hy]; [repeat constructor|].
  cbn [insert_desc]. destruct (_ <=? _) eqn:Hk; bool_to_prop.
  - constructor; [by constructor|]. constructor; [done|].
    eapply Forall_impl; [done|]. unfold above. simpl. lia.
  - constructor; [done|]. rewrite insert_desc_perm. constructor; [unfold above; lia|done].
Qed.

Lemma sort_desc_sorted l : StronglySorted above (sort_desc key l).
Proof. induction l as [|x l IH]; [constructor|]. by apply insert_desc_sorted. Qed.

Lemma find_sorted f s :
  StronglySorted above s ->
  match find f s with
  | Some x => x ∈ s /\ f x = true /\ forall y, y ∈ s -> f y = true -> key y <= key x
  | None => forall y, y ∈ s -> f y = false
  end.
Proof.
  induction 1 as [|x s Hs IH Hx]; simpl.
  - by intros y ?%not_elem_of_nil.
  - destruct (f x) eqn:Hf.
    + split; [by left|]. split; [done|]. intros y [->|Hy]%elem_of_cons _; [done|].
      rewrite Forall_forall in Hx. by apply Hx.
    + destruct (find f s) as [z|].
      * destruct IH as (? & ? & IH). split; [by right|]. split; [done|].
        intros y [->|Hy]%elem_of_cons Hfy; [congruence|by apply IH].
      * intros y [->|Hy]%elem_of_cons; [done|by apply IH].
Qed.

(** The first match in sorted order has the largest key among the matches. *)
Lemma find_sort_desc f l :
  match find f (sort_desc key l) with
  | Some x => x ∈ l /\ f x = true /\ forall y, y ∈ l -> f y = true -> key y <= key x
  | None => forall y, y ∈ l -> f y = false
  end.
Proof.
  pose proof (find_sorted f _ (sort_desc_sorted l)) as H.
  assert (forall y, y ∈ l <-> y ∈ sort_desc key l) as Hin by (intros y; by rewrite sort_desc_perm).
  destruct (find _ _) as [x|].
  - destruct H as (? & ? & H). split; [by apply Hin|]. split; [done|].
    intros y ?%Hin. by apply H.
  - intros y ?%Hin. by apply H.
Qed.
End sort_lemmas.

(** ** The specification of selection *)

(** The rules as configured, in any order. *)
Section spec.
Context (default : option UpstreamGroup) (routes : list Route) (local : list LocalRecord).

Definition suffixes : list DomainName :=
  (route_suffix <$> routes) ++ (local_suffix <$> local).

(** [n] is at or below [s], and no configured suffix of [n] is longer than [s]. *)
Definition longest_suffix (n s : DomainName) : Prop :=
  is_subdomain_of n s = true
  /\ forall s', s' ∈ suffixes -> is_subdomain_of n s' = true -> label_count s' <= label_count s.

Definition selects (n : DomainName) (sel : Selection) : Prop :=
  match sel with
  | SelRouted r => r ∈ routes /\ longest_suffix n (route_suffix r)
  | SelLocal l => l ∈ local /\ longest_suffix n (local_suffix l)
  | SelDefault g => default = Some g /\ forall s, s ∈ suffixes -> is_subdomain_of n s = false
  | SelUnmatched => default = None /\ forall s, s ∈ suffixes -> is_subdomain_of n s = false
  end.

(** No two rules have equal suffixes. *)
Definition unambiguous : Prop := NoDup (lower <$> suffixes).

Lemma route_suffix_elem r : r ∈ routes -> route_suffix r ∈ suffixes.
Proof. intros H. apply elem_of_app. left. by apply list_elem_of_fmap_2. Qed.
Lemma local_suffix_elem l : l ∈ local -> local_suffix l ∈ suffixes.
Proof. intros H. apply elem_of_app. right. by apply list_elem_of_fmap_2. Qed.

Lemma suffixes_elem (P : DomainName -> Prop) :
  (forall r, r ∈ routes -> P (route_suffix r)) -> (forall l, l ∈ local -> P (local_suffix l)) ->
  forall s, s ∈ suffixes -> P s.
Proof.
  intros Hr Hl s [(r & -> & ?)%list_elem_of_fmap|(l & -> & ?)%list_elem_of_fmap]%elem_of_app;
    eauto.
Qed.
End spec.

(** Two suffixes of the same name with as many labels are equal. *)
Lemma suffix_same_count n s s' :
  is_subdomain_of n s = true -> is_subdomain_of n s' = true ->
  label_count s = label_count s' -> lower s = lower s'.
Proof.
  intros H H' Hl. apply name_eqb_lower. unfold name_eqb.
  fold (label_count s) (label_count s').
  rewrite (is_subdomain_of_chain n s' s), andb_true_r by (done || lia). by apply Nat.eqb_eq.
Qed.

Lemma existsb_name_eqb {A} (f : A -> DomainName) (xs : list A) n :
  existsb (fun x => name_eqb (f x) n) xs = true <-> lower n ∈ lower <$> (f <$> xs).
Proof.
  rewrite existsb_exists. setoid_rewrite name_eqb_lower. rewrite <- list_fmap_compose.
  rewrite list_elem_of_fmap. setoid_rewrite list_elem_of_In. unfold compose. naive_solver.
Qed.

Section table.
Context (default : option UpstreamGroup) (routes : list Route) (local : list LocalRecord).

Lemma routes_loop_Ok : routes_loop routes = Ok tt <-> NoDup (lower <$> (route_suffix <$> routes)).
Proof.
  unfold routes_loop.
  rewrite (scan_loop_Ok _ _ (fun r => lower (route_suffix r)) (fun _ => False)).
  - rewrite <- list_fmap_compose. unfold compose. naive_solver.
  - intros seen x. rewrite existsb_name_eqb, <- list_fmap_compose. unfold compose. tauto.
Qed.

Lemma local_loop_Ok :
  local_loop routes local = Ok tt
  <-> NoDup (lower <$> (local_suffix <$> local))
      /\ forall l, l ∈ local -> lower (local_suffix l) ∉ lower <$> (route_suffix <$> routes).
Proof.
  unfold local_loop.
  rewrite (scan_loop_Ok _ _ (fun l => lower (local_suffix l))
    (fun l => lower (local_suffix l) ∈ lower <$> (route_suffix <$> routes))).
  - rewrite <- (list_fmap_compose local_suffix lower local). reflexivity.
  - intros seen x. rewrite orb_true_iff, !existsb_name_eqb, <- !list_fmap_compose. reflexivity.
Qed.

Lemma unambiguous_split :
  unambiguous routes local <-> routes_loop routes = Ok tt /\ local_loop routes local = Ok tt.
Proof.
  rewrite routes_loop_Ok, local_loop_Ok. unfold unambiguous, suffixes.
  rewrite fmap_app, NoDup_app. split.
  - intros (? & Hd & ?). split_and!; [done|done|]. intros l Hl Hr. apply (Hd _ Hr).
    by apply list_elem_of_fmap_2, list_elem_of_fmap_2.
  - intros (? & ? & Hd). split_and!; [done| |done].
    intros n Hr (s & -> & (l & -> & Hl)%list_elem_of_fmap)%list_elem_of_fmap. by apply (Hd l).
Qed.

Lemma longest_intro n k :
  (forall r, r ∈ routes -> is_subdomain_of n (route_suffix r) = true ->
     label_count (route_suffix r) <= k) ->
  (forall l, l ∈ local -> is_subdomain_of n (local_suffix l) = true ->
     label_count (local_suffix l) <= k) ->
  forall s, s ∈ suffixes routes local -> is_subdomain_of n s = true -> label_count s <= k.
Proof.
  intros Hr Hl. by apply (suffixes_elem routes local
    (fun s => is_subdomain_of n s = true -> label_count s <= k)).
Qed.

Definition sorted_table : RoutingTable :=
  MkTable default (sort_desc (fun r => label_count (route_suffix r)) routes)
    (sort_desc (fun l => label_count (local_suffix l)) local).

Lemma routing_table_new_Ok t :
  routing_table_new default routes local = Ok t <-> unambiguous routes local /\ t = sorted_table.
Proof.
  rewrite unambiguous_split. unfold routing_table_new. split.
  - intros H. inv_ok. repeat match goal with x : unit |- _ => destruct x end. done.
  - intros [[-> ->] ->]. done.
Qed.

Lemma routing_table_new_cases :
  (unambiguous routes local /\ routing_table_new default routes local = Ok sorted_table)
  \/ (~ unambiguous routes local
      /\ exists n, n ∈ suffixes routes local
           /\ routing_table_new default routes local = Err (DuplicateRoute n)).
Proof.
  rewrite unambiguous_split. unfold routing_table_new.
  destruct (scan_loop_cases
    (fun seen route =>
      existsb (fun previous => name_eqb (route_suffix previous) (route_suffix route)) seen)
    (fun route => DuplicateRoute (route_suffix route)) routes) as [H|(r & Hr & H)];
    fold (routes_loop routes) in H; rewrite H; cbn [obind].
  - destruct (scan_loop_cases
      (fun seen record =>
        existsb (fun previous => name_eqb (local_suffix previous) (local_suffix record)) seen
        || existsb (fun route => name_eqb (route_suffix route) (local_suffix record)) routes)
      (fun record => DuplicateRoute (local_suffix record)) local) as [H'|(l & Hl & H')];
      fold (local_loop routes local) in H'; rewrite H'; cbn [obind]; [by left|].
    right. split; [by intros [_ ?]|]. eexists. split; [|done]. by apply local_suffix_elem.
  - right. split; [by intros [? _]|]. eexists. split; [|done]. by apply route_suffix_elem.
Qed.

Lemma sorted_table_selects n : selects default routes local n (select sorted_table n).
Proof.
  unfold select, sorted_table. cbn [rt_routes rt_local rt_default].
  pose proof (find_sort_desc (fun r => label_count (route_suffix r))
    (fun r => is_subdomain_of n (route_suffix r)) routes) as Hr.
  pose proof (find_sort_desc (fun l => label_count (local_suffix l))
    (fun l => is_subdomain_of n (local_suffix l)) local) as Hl.
  destruct (find _ (sort_desc _ routes)) as [r|], (find _ (sort_desc _ local)) as [l|].
  - destruct Hr as (Hr & Hrn & Hrm), Hl as (Hl & Hln & Hlm). destruct (_ <? _) eqn:Hc; bool_to_prop.
    + split; [done|]. split; [done|]. apply longest_intro; [done|].
      intros l' Hl' Hm. specialize (Hlm l' Hl' Hm). lia.
    + split; [done|]. split; [done|]. apply longest_intro; [|done].
      intros r' Hr' Hm. specialize (Hrm r' Hr' Hm). lia.
  - destruct Hr as (Hr & Hrn & Hrm). split; [done|]. split; [done|].
    apply longest_intro; [done|]. intros l' Hl' Hm. by rewrite Hl in Hm.
  - destruct Hl as (Hl & Hln & Hlm). split; [done|]. split; [done|].
    apply longest_intro; [|done]. intros r' Hr' Hm. by rewrite Hr in Hm.
  - destruct default as [g|]; (split; [done|]); by apply (suffixes_elem routes local (fun s => is_subdomain_of n s = false)).
Qed.
End table.

(** A table admits one selection for every name. *)
Section deterministic.
Context (default : option UpstreamGroup) (routes : list Route) (local : list LocalRecord).
Hypothesis nodup : unambiguous routes local.

Lemma longest_suffix_unique n s s' :
  s ∈ suffixes routes local -> s' ∈ suffixes routes local ->
  longest_suffix routes local n s -> longest_suffix routes local n s' -> lower s = lower s'.
Proof.
  intros Hs Hs' [Hm Hl] [Hm' Hl']. apply (suffix_same_count n); [done|done|].
  specialize (Hl s' Hs' Hm'). specialize (Hl' s Hs Hm). lia.
Qed.

Lemma nodup_routes r r' :
  r ∈ routes -> r' ∈ routes -> lower (route_suffix r) = lower (route_suffix r') -> r = r'.
Proof.
  intros Hr Hr' Heq. apply unambiguous_split in nodup as [Hn%routes_loop_Ok _].
  rewrite <- list_fmap_compose in Hn.
  apply list_elem_of_lookup in Hr as [i Hi], Hr' as [j Hj].
  assert (i = j) as <-; [|congruence].
  apply (NoDup_lookup _ i j (lower (route_suffix r)) Hn); rewrite list_lookup_fmap.
  - by rewrite Hi.
  - rewrite Hj, Heq. done.
Qed.

Lemma nodup_local l l' :
  l ∈ local -> l' ∈ local -> lower (local_suffix l) = lower (local_suffix l') -> l = l'.
Proof.
  intros Hr Hr' Heq. apply unambiguous_split in nodup as [_ [Hn _]%local_loop_Ok].
  rewrite <- list_fmap_compose in Hn.
  apply list_elem_of_lookup in Hr as [i Hi], Hr' as [j Hj].
  assert (i = j) as <-; [|congruence].
  apply (NoDup_lookup _ i j (lower (local_suffix l)) Hn); rewrite list_lookup_fmap.
  - by rewrite Hi.
  - rewrite Hj, Heq. done.
Qed.

Lemma nodup_route_local r l :
  r ∈ routes -> l ∈ local -> lower (route_suffix r) <> lower (local_suffix l).
Proof.
  intros Hr Hl Heq. apply unambiguous_split in nodup as [_ [_ Hn]%local_loop_Ok].
  apply (Hn l Hl). rewrite <- Heq. by apply list_elem_of_fmap_2, list_elem_of_fmap_2.
Qed.

Lemma selects_unique n sel sel' :
  selects default routes local n sel -> selects default routes local n sel' -> sel = sel'.
Proof.
  pose proof (route_suffix_elem routes local) as Hr.
  pose proof (local_suffix_elem routes local) as Hl.
  destruct sel as [g|r|l|], sel' as [g'|r'|l'|]; cbn [selects];
    intros [Ha Hb] [Ha' Hb']; try congruence;
    try (destruct Hb as [Hm _]; rewrite Hb' in Hm; by auto);
    try (destruct Hb' as [Hm _]; rewrite Hb in Hm; by auto).
  - f_equal. apply nodup_routes; [done|done|]. apply (longest_suffix_unique n); auto.
  - exfalso. eapply (nodup_route_local r l'); [done|done|]. apply (longest_suffix_unique n); auto.
  - exfalso. eapply (nodup_route_local r' l); [done|done|]. apply (longest_suffix_unique n); auto.
  - f_equal. apply nodup_local; [done|done|]. apply (longest_suffix_unique n); auto.
Qed.

Lemma select_iff n sel :
  select (sorted_table default routes local) n = sel <-> selects default routes local n sel.
Proof.
  split; [intros <-; apply sorted_table_selects|].
  intros H. eapply selects_unique; [apply sorted_table_selects|done].
Qed.
End deterministic.

(** The order of the rules is no part of the policy. *)
#[export] Instance suffixes_proper : Proper ((≡ₚ) ==> (≡ₚ) ==> (≡ₚ)) suffixes.
Proof. intros r r' H l l' H'. unfold suffixes. by rewrite H, H'. Qed.

#[export] Instance unambiguous_proper : Proper ((≡ₚ) ==> (≡ₚ) ==> iff) unambiguous.
Proof. intros r r' H l l' H'. unfold unambiguous. by rewrite H, H'. Qed.

#[export] Instance longest_suffix_proper :
  Proper ((≡ₚ) ==> (≡ₚ) ==> (=) ==> (=) ==> iff) longest_suffix.
Proof.
  intros r r' H l l' H' n ? <- s ? <-. unfold longest_suffix.
  assert (forall s', s' ∈ suffixes r l <-> s' ∈ suffixes r' l') as Hs by (intros; by rewrite H, H').
  split; intros [Hm Hl]; (split; [done|]); intros s' Hs'; apply Hl; by apply Hs.
Qed.

#[export] Instance selects_proper :
  Proper ((=) ==> (≡ₚ) ==> (≡ₚ) ==> (=) ==> (=) ==> iff) selects.
Proof.
  intros d ? <- r r' H l l' H' n ? <- sel ? <-.
  assert (forall s', s' ∈ suffixes r l <-> s' ∈ suffixes r' l') as Hs by (intros; by rewrite H, H').
  destruct sel; cbn [selects].
  - setoid_rewrite Hs. done.
  - rewrite (longest_suffix_proper _ _ H _ _ H' n n eq_refl _ _ eq_refl). by rewrite H.
  - rewrite (longest_suffix_proper _ _ H _ _ H' n n eq_refl _ _ eq_refl). by rewrite H'.
  - setoid_rewrite Hs. done.
Qed.

(** ** Endpoints *)

Definition usable_endpoint (ip : IpAddr) (port : Z) : Prop :=
  port <> 0%Z /\ is_unspecified ip = false /\ is_multicast ip = false /\ is_v4_broadcast ip = false.

(** The endpoint an address stands for: IPv4-mapped IPv6 is IPv4. *)
Definition canonical_socket (s : SocketAddr) : SocketAddr :=
  if is_ipv4 (to_canonical (socket_ip s))
  then socket_new (to_canonical (socket_ip s)) (socket_port s) else s.

Lemma canonical_socket_port s : socket_port (canonical_socket s) = socket_port s.
Proof. unfold canonical_socket. destruct (is_ipv4 _); [|done]. by destruct (to_canonical (socket_ip s)). Qed.

Lemma canonical_socket_ip s : socket_ip (canonical_socket s) = to_canonical (socket_ip s).
Proof.
  unfold canonical_socket. destruct (to_canonical_cases (socket_ip s)) as [[a ->]|[Hv ->]]; [done|].
  by rewrite Hv.
Qed.

Lemma canonical_socket_idemp s : canonical_socket (canonical_socket s) = canonical_socket s.
Proof.
  unfold canonical_socket at 1. rewrite canonical_socket_ip, to_canonical_idemp, canonical_socket_port.
  unfold canonical_socket. by destruct (is_ipv4 _).
Qed.

Lemma upstream_address_new_cases a :
  (usable_endpoint (to_canonical (socket_ip a)) (socket_port a)
   /\ upstream_address_new a = Ok (MkUpstream (canonical_socket a)))
  \/ (~ usable_endpoint (to_canonical (socket_ip a)) (socket_port a)
      /\ upstream_address_new a = Err InvalidAddress).
Proof.
  unfold upstream_address_new. fold (canonical_socket a). rewrite canonical_socket_port.
  unfold usable_endpoint. destruct (_ || _) eqn:Hc.
  - right. split; [|done]. intros (H1 & H2 & H3 & H4). rewrite H2, H3, H4, !orb_false_r in Hc.
    by apply Z.eqb_eq in Hc.
  - left. bool_to_prop. done.
Qed.

Lemma group_loop_Ok addresses : group_loop addresses = Ok tt <-> NoDup addresses.
Proof.
  unfold group_loop. rewrite (scan_loop_Ok _ _ id (fun _ => False)).
  - rewrite list_fmap_id. naive_solver.
  - intros seen x. rewrite list_fmap_id, bool_decide_eq_true. naive_solver.
Qed.

Lemma upstream_group_new_Ok addresses g :
  upstream_group_new addresses = Ok g
  <-> g = MkGroup addresses /\ 1 <= length addresses <= MAX_UPSTREAMS /\ NoDup addresses.
Proof.
  unfold upstream_group_new. rewrite <- group_loop_Ok. split.
  - intros H. inv_ok. bool_to_prop. repeat match goal with x : unit |- _ => destruct x end.
    split_and!; [done|lia|done|done].
  - intros (-> & ? & ->).
    rewrite (proj2 (Nat.eqb_neq _ _)), (proj2 (Nat.ltb_ge _ _)) by lia. done.
Qed.

(** ** Properties *)

(** C5: selection is longest-suffix matching.  A table built from configured
    rules selects, for every name, the one rule whose suffix is the longest
    configured suffix of the name, local or routed; the default group only when
    no configured suffix matches; and nothing when there is no default. *)
Theorem select_is_longest_suffix default routes local t n sel :
  routing_table_new default routes local = Ok t ->
  (select t n = sel <-> selects default routes local n sel).
Proof. intros [? ->]%routing_table_new_Ok. by apply select_iff. Qed.

(** Sample rules: [a.test] routed, [test] and [b.a.test] local. *)
Definition sample_endpoint (b : byte) : UpstreamAddress := MkUpstream (SocketV4 (Ipv4 xc0 x00 x02 b) 53).
Definition sample_group (b : byte) : UpstreamGroup := MkGroup [sample_endpoint b].
Definition label_a : list byte := [x61].
Definition label_b : list byte := [x62].
Definition label_test : list byte := [x74; x65; x73; x74].
Definition sample_routes : list Route :=
  [MkRoute (MkName [label_test]) (sample_group x02);
   MkRoute (MkName [label_a; label_test]) (sample_group x03)].
Definition sample_local : list LocalRecord :=
  [MkLocal (MkName [label_b; label_a; label_test]) (Ipv4 x0a x00 x00 x01) 60].

Lemma select_is_longest_suffix_witness :
  let t := sorted_table (Some (sample_group x01)) sample_routes sample_local in
  routing_table_new (Some (sample_group x01)) sample_routes sample_local = Ok t
  /\ selects (Some (sample_group x01)) sample_routes sample_local
       (MkName [[x43]; [x41]; [x54; x45; x53; x54]])
       (SelRouted (MkRoute (MkName [label_a; label_test]) (sample_group x03))).
Proof.
  split; [reflexivity|].
  apply (select_is_longest_suffix (Some (sample_group x01)) sample_routes sample_local
    (sorted_table (Some (sample_group x01)) sample_routes sample_local));
    vm_compute; reflexivity.
Defined.

(** The configuration order of rules does not matter.  Tables built from
    the same rules in two orders select alike for every name, and one exists
    exactly when the other does. *)
Theorem select_order_independent default routes routes' local local' :
  routes ≡ₚ routes' -> local ≡ₚ local' ->
  ((exists t, routing_table_new default routes local = Ok t)
   <-> (exists t, routing_table_new default routes' local' = Ok t))
  /\ forall t t' n, routing_table_new default routes local = Ok t ->
       routing_table_new default routes' local' = Ok t' -> select t n = select t' n.
Proof.
  intros H H'. split.
  - setoid_rewrite routing_table_new_Ok.
    pose proof (unambiguous_proper _ _ H _ _ H') as Hu. naive_solver.
  - intros t t' n [Hu ->]%routing_table_new_Ok [Hu' ->]%routing_table_new_Ok.
    apply select_iff; [done|].
    apply (selects_proper default default eq_refl _ _ H _ _ H' n n eq_refl _ _ eq_refl).
    apply sorted_table_selects.
Qed.

Lemma select_order_independent_witness :
  (exists t, routing_table_new None (reverse sample_routes) sample_local = Ok t)
  /\ forall t t' n, routing_table_new None sample_routes sample_local = Ok t ->
       routing_table_new None (reverse sample_routes) sample_local = Ok t' -> select t n = select t' n.
Proof.
  destruct (select_order_independent None sample_routes (reverse sample_routes) sample_local sample_local)
    as [H1 H2]; [symmetry; apply reverse_Permutation | reflexivity |].
  split; [|exact H2]. apply H1. eexists. vm_compute. reflexivity.
Defined.

(** A table is built exactly from unambiguous rules: no two suffixes, local
    or routed, are equal as names, whatever their case.  The error names one of
    the configured suffixes, and building never faults. *)
Theorem table_rejects_duplicates default routes local :
  (NoDup (lower <$> suffixes routes local)
   /\ routing_table_new default routes local = Ok (sorted_table default routes local))
  \/ (~ NoDup (lower <$> suffixes routes local)
      /\ exists n, n ∈ suffixes routes local
           /\ routing_table_new default routes local = Err (DuplicateRoute n)).
Proof. apply routing_table_new_cases. Qed.

(** An endpoint is accepted exactly when its port is not zero and its
    canonical address is neither unspecified, multicast nor broadcast; it is
    kept in canonical form, so that the IPv4-mapped spelling of an IPv4 endpoint
    is the same endpoint and cannot evade the test for duplicates.  A group is
    1 to 8 distinct endpoints, in the order configured. *)
Theorem endpoints_are_canonical a addresses g :
  ((usable_endpoint (to_canonical (socket_ip a)) (socket_port a)
    /\ upstream_address_new a = Ok (MkUpstream (canonical_socket a)))
   \/ (~ usable_endpoint (to_canonical (socket_ip a)) (socket_port a)
       /\ upstream_address_new a = Err InvalidAddress))
  /\ upstream_address_new (canonical_socket a) = upstream_address_new a
  /\ (upstream_group_new addresses = Ok g
      <-> g = MkGroup addresses /\ 1 <= length addresses <= MAX_UPSTREAMS /\ NoDup addresses).
Proof.
  split; [apply upstream_address_new_cases|]. split; [|apply upstream_group_new_Ok].
  unfold upstream_address_new. fold (canonical_socket a). fold (canonical_socket (canonical_socket a)).
  by rewrite canonical_socket_idemp, canonical_socket_ip, to_canonical_idemp.
Qed.
