(* ===== verification/Io.v ===== *)
(** * The operating system as an interface

    The code that does I/O runs against an environment: the clock, the stop
    flag, sockets and the entropy source.  Every call is one [Sys] operation,
    answered by an instance of [Env] over an arbitrary world and recorded in a
    trace.  [EnvLaws] states what the termination proofs rely on. *)

From S2P Require Import Prelude Types Net Routing.

(** ** Errors ([std::io::Error]) *)

(** [io::ErrorKind]; [KOther] stands for the kinds the program does not name. *)
Inductive ErrorKind :=
| KWouldBlock | KTimedOut | KInterrupted | KUnexpectedEof | KInvalidData | KInvalidInput
| KWriteZero | KConnectionAborted | KConnectionReset | KNetworkDown | KNetworkUnreachable
| KHostUnreachable | KOther.
#[export] Instance ErrorKind_eq_dec : EqDecision ErrorKind.
Proof. solve_decision. Defined.

(** What the program gives as the source of an error it makes itself: [Cancelled],
    or a text, which [Texts] writes out; the last one quotes the kind and the errno
    of another error. *)
Inductive IoSource :=
| Cancelled | DeadlineExpired | PartialFrame | ShortFrame | MissingBody | BadFrameLength | WroteZero
| WorkersIncomplete | WorkersFailed | ListenerPanicked | ListenerLate (wake : option (ErrorKind * option Z)).

(** An error is its kind, the source the program gave it, and its errno. *)
Record IoError := MkIoError { err_kind : ErrorKind; err_source : option IoSource; err_os : option Z }.

(** [get_ref().is_some_and(|source| source.is::<Cancelled>())]. *)
Definition err_cancelled (e : IoError) : bool :=
  match err_source e with Some Cancelled => true | _ => false end.

(** An error of the system, and one of the program. *)
Definition io_error (k : ErrorKind) : IoError := MkIoError k None None.
Definition own_error (k : ErrorKind) (source : IoSource) : IoError := MkIoError k (Some source) None.

(** [io::Result<T>] as a value. *)
Notation ioresult A := (IoError + A)%type.

(** ** Diagnostics *)

(** [ForwardError] of [src/src/upstream.rs]. *)
Inductive ForwardError :=
| FwTimeout
| FwCancelled
| FwIo (e : IoError)
| FwParse (e : ParseError)
| FwInvalidResponse
| FwServerFailure
| FwRefused.

(** The calls of [logging::warn], by what their text is made from; [Texts] writes
    it out. *)
Inductive Warning :=
| MalformedPacket (e : ParseError)
| ReplySuppressed
| ForwardingFailed (e : ForwardError)
| UpstreamFailed (a : UpstreamAddress) (e : ForwardError)
| UncorrelatedResponse (a : UpstreamAddress)
| UdpCapacity
| TcpCapacity
| HandshakeIgnored (e : IoError)
| UdpReplyFailed (e : IoError)
| TcpClientFailed (e : IoError).

(** ** Operations *)

(** A socket handle. *)
Notation Handle := nat (only parsing).

Inductive Sys : Type -> Type :=
| Now : Sys Z
| Stop : Sys bool
| TcpConnect (a : SocketAddr) (timeout : Z) : Sys (ioresult nat)
| SetNodelay (h : Handle) : Sys (ioresult unit)
| SetReadTimeout (h : Handle) (d : Z) : Sys (ioresult unit)
| SetWriteTimeout (h : Handle) (d : Z) : Sys (ioresult unit)
| Read (h : Handle) (n : nat) : Sys (ioresult (list byte))
| Write (h : Handle) (bs : list byte) : Sys (ioresult nat)
| UdpBind (ipv4 : bool) : Sys (ioresult nat)
| UdpConnect (h : Handle) (a : SocketAddr) : Sys (ioresult unit)
| UdpSend (h : Handle) (bs : list byte) : Sys (ioresult nat)
| UdpRecv (h : Handle) (n : nat) : Sys (ioresult (list byte))
| Entropy : Sys (ioresult (byte * byte))
(* The listeners: the bound sockets, and the bounded queues of the worker pools as
   a listener sees them. *)
| SetNonblocking (h : Handle) (b : bool) : Sys (ioresult unit)
| Accept : Sys (ioresult (nat * SocketAddr))
| RecvFrom (n : nat) : Sys (ioresult (list byte * SocketAddr))
| SendTo (bs : list byte) (a : SocketAddr) : Sys (ioresult nat)
| SubmitUdp (wire : list byte) (peer : SocketAddr) (deadline : Z) : Sys bool
| SubmitTcp (h : Handle) (deadline : Z) : Sys bool
(* [logging::warn]. *)
| Warn (w : Warning) : Sys unit.

(** The environment: what each operation answers, and the world after it. *)
Class Env (W : Type) := { env_step R : Sys R -> W -> R * W }.
Arguments env_step {W _} {R} e w.

Inductive event : Type :=
| Ev (R : Type) (e : Sys R) (r : R).
Arguments Ev {R} e r.

(** The world, the calls made so far, and the state owned by the caller. *)
Record state (W X : Type) := MkIo { world : W; trace : list event; own : X }.
Arguments MkIo {W X} _ _ _.
Arguments world {W X} _.
Arguments trace {W X} _.
Arguments own {W X} _.

(** ** The monad *)

Definition M (W X E A : Type) : Type := state W X -> outcome E A * state W X.

Section monad.
Context {W : Type} `{!Env W} {X : Type}.

Definition mlift {E A} (o : outcome E A) : M W X E A := fun s => (o, s).
Definition mret {E A} (a : A) : M W X E A := mlift (Ok a).
Definition mraise {E A} (e : E) : M W X E A := mlift (Err e).

Definition mbind {E A B} (m : M W X E A) (k : A -> M W X E B) : M W X E B :=
  fun s =>
    match m s with
    | (Ok a, s') => k a s'
    | (Err e, s') => (Err e, s')
    | (Panic, s') => (Panic, s')
    | (Diverge, s') => (Diverge, s')
    end.

(** [Result::map_err] on an effectful result. *)
Definition mmap_err {E F A} (f : E -> F) (m : M W X E A) : M W X F A :=
  fun s => let '(o, s') := m s in (map_err f o, s').

(** The result of a block as a value, for [match] and [Result::is_err]. *)
Definition mtry {E F A} (m : M W X E A) : M W X F (E + A) :=
  fun s =>
    match m s with
    | (Ok a, s') => (Ok (inr a), s')
    | (Err e, s') => (Ok (inl e), s')
    | (Panic, s') => (Panic, s')
    | (Diverge, s') => (Diverge, s')
    end.

Definition mget {E} : M W X E X := fun s => (Ok (own s), s).
Definition mput {E} (x : X) : M W X E unit := fun s => (Ok tt, MkIo (world s) (trace s) x).

Definition mcall {E R} (e : Sys R) : M W X E R :=
  fun s => let '(r, w) := env_step e (world s) in (Ok r, MkIo w (trace s ++ [Ev e r]) (own s)).

(** [logging::warn]. *)
Definition warn {E} (w : Warning) : M W X E unit := mcall (Warn w).

(** A call followed by [?]. *)
Definition mio {R} (e : Sys (ioresult R)) : M W X IoError R :=
  mbind (mcall e) (fun r => match r with inl err => mraise err | inr a => mret a end).
End monad.

Declare Scope io_scope.
Notation "'let!' x := m 'in' k" := (mbind m (fun x => k))
  (at level 10, x pattern, m at level 100, k at level 200,
   format "'[v' 'let!'  x  :=  m  'in' '/' k ']'") : io_scope.
#[global] Open Scope io_scope.

(** ** Weakest preconditions

    [wpm t m P Q s]: run from [s], [m] does not panic, and its result satisfies
    [P], or [Q] for an error.  With [t] it does not run out of fuel either. *)

Definition wpm {W X E A} (t : bool) (m : M W X E A) (P : A -> state W X -> Prop)
    (Q : E -> state W X -> Prop) (s : state W X) : Prop :=
  match m s with
  | (Ok a, s') => P a s'
  | (Err e, s') => Q e s'
  | (Panic, _) => False
  | (Diverge, _) => t = false
  end.

(** A run whose result is known. *)
Lemma wpm_Ok {W X E A} t (m : M W X E A) P Q s a : wpm t m P Q s -> fst (m s) = Ok a -> P a (snd (m s)).
Proof. unfold wpm. destruct (m s) as [o s']. cbn. by intros H ->. Qed.
Lemma wpm_Err {W X E A} t (m : M W X E A) P Q s e : wpm t m P Q s -> fst (m s) = Err e -> Q e (snd (m s)).
Proof. unfold wpm. destruct (m s) as [o s']. cbn. by intros H ->. Qed.

(** Running a computation one call at a time. *)
Section run.
Context {W : Type} `{!Env W} {X : Type}.
Implicit Types s : state W X.

Lemma run_call {E R A} (e : Sys R) (k : R -> M W X E A) s :
  mbind (mcall e) k s
  = let '(r, w) := env_step e (world s) in k r (MkIo w (trace s ++ [Ev e r]) (own s)).
Proof. unfold mbind, mcall. by destruct (env_step e (world s)). Qed.

Lemma run_bind {E A B D} (m : M W X E A) (k : A -> M W X E B) (k' : B -> M W X E D) s :
  mbind (mbind m k) k' s = mbind m (fun a => mbind (k a) k') s.
Proof. unfold mbind. by destruct (m s) as [[a|e| |] s']. Qed.

Lemma run_ret {E A B} (a : A) (k : A -> M W X E B) s : mbind (mret a) k s = k a s.
Proof. done. Qed.
End run.

Section wpm.
Context {W : Type} `{!Env W} {X : Type} (t : bool).

Lemma wpm_bind {E A B} (m : M W X E A) (k : A -> M W X E B) P Q s :
  wpm t m (fun a => wpm t (k a) P Q) Q s -> wpm t (mbind m k) P Q s.
Proof. unfold wpm, mbind. destruct (m s) as [[a|e| |] s']; auto. Qed.

Lemma wpm_mono {E A} (m : M W X E A) (P P' : A -> state W X -> Prop) (Q Q' : E -> state W X -> Prop) s :
  wpm t m P Q s -> (forall a s', P a s' -> P' a s') -> (forall e s', Q e s' -> Q' e s') ->
  wpm t m P' Q' s.
Proof. unfold wpm. destruct (m s) as [[a|e| |] s']; auto. Qed.

Lemma wpm_ret {E A} (a : A) (P : A -> state W X -> Prop) (Q : E -> state W X -> Prop) s :
  P a s -> wpm t (mret a) P Q s.
Proof. done. Qed.

Lemma wpm_raise {E A} (e : E) (P : A -> state W X -> Prop) (Q : E -> state W X -> Prop) s :
  Q e s -> wpm t (mraise e) P Q s.
Proof. done. Qed.

Lemma wpm_lift {E A} (o : outcome E A) (P : A -> state W X -> Prop) (Q : E -> state W X -> Prop) s :
  safe o -> (forall a, o = Ok a -> P a s) -> (forall e, o = Err e -> Q e s) ->
  wpm t (mlift o) P Q s.
Proof. unfold wpm, mlift. destruct o; naive_solver. Qed.

Lemma wpm_map_err {E F A} (f : E -> F) (m : M W X E A) P Q s :
  wpm t m P (fun e => Q (f e)) s -> wpm t (mmap_err f m) P Q s.
Proof. unfold wpm, mmap_err. destruct (m s) as [[a|e| |] s']; auto. Qed.

Lemma wpm_try {E F A} (m : M W X E A) P (Q : F -> state W X -> Prop) s :
  wpm t m (fun a => P (inr a)) (fun e => P (inl e)) s -> wpm t (mtry m) P Q s.
Proof. unfold wpm, mtry. destruct (m s) as [[a|e| |] s']; auto. Qed.

Lemma wpm_get {E} (P : X -> state W X -> Prop) (Q : E -> state W X -> Prop) s :
  P (own s) s -> wpm t mget P Q s.
Proof. done. Qed.

Lemma wpm_put {E} (x : X) P (Q : E -> state W X -> Prop) s :
  P tt (MkIo (world s) (trace s) x) -> wpm t (mput x) P Q s.
Proof. done. Qed.

Lemma wpm_call {E R} (e : Sys R) (P : R -> state W X -> Prop) (Q : E -> state W X -> Prop) s :
  (forall r w, env_step e (world s) = (r, w) -> P r (MkIo w (trace s ++ [Ev e r]) (own s))) ->
  wpm t (mcall e) P Q s.
Proof. unfold wpm, mcall. destruct (env_step e (world s)) as [r w] eqn:H. eauto. Qed.

Lemma wpm_io {R} (e : Sys (ioresult R)) (P : R -> state W X -> Prop)
    (Q : IoError -> state W X -> Prop) s :
  (forall a w, env_step e (world s) = (inr a, w) -> P a (MkIo w (trace s ++ [Ev e (inr a)]) (own s))) ->
  (forall x w, env_step e (world s) = (inl x, w) -> Q x (MkIo w (trace s ++ [Ev e (inl x)]) (own s))) ->
  wpm t (mio e) P Q s.
Proof.
  intros HP HQ. apply wpm_bind, wpm_call. intros [x|a] w H; [by apply wpm_raise, HQ|by apply wpm_ret, HP].
Qed.
End wpm.

(** ** What the environment guarantees *)

(** [transient] of [src/src/transport.rs]. *)
Definition transient (e : IoError) : bool :=
  bool_decide (err_kind e ∈ [KWouldBlock; KTimedOut; KInterrupted]).

(** An error of the operating system is not the program's [Cancelled]. *)
Definition os_result {A} (r : ioresult A) : Prop :=
  match r with inl e => err_cancelled e = false | inr _ => True end.
Definition os_event (ev : event) : Prop :=
  let 'Ev e r := ev in
  match e in Sys R return R -> Prop with
  | Now => fun _ => True
  | Stop => fun _ => True
  | TcpConnect _ _ => os_result
  | SetNodelay _ => os_result
  | SetReadTimeout _ _ => os_result
  | SetWriteTimeout _ _ => os_result
  | Read _ _ => os_result
  | Write _ _ => os_result
  | UdpBind _ => os_result
  | UdpConnect _ _ => os_result
  | UdpSend _ _ => os_result
  | UdpRecv _ _ => os_result
  | Entropy => os_result
  | SetNonblocking _ _ => os_result
  | Accept => os_result
  | RecvFrom _ => os_result
  | SendTo _ _ => os_result
  | SubmitUdp _ _ _ => fun _ => True
  | SubmitTcp _ _ => fun _ => True
  | Warn _ => fun _ => True
  end r.

(** The clock is monotone, [Instant::now] reads it, a call that gives up after
    its timeout has let time pass, no call moves more bytes than asked, and
    errors are the operating system's own. *)
Class EnvLaws (W : Type) `{Env W} := {
  clock : W -> Z;
  clock_mono R (e : Sys R) w r w' : env_step e w = (r, w') -> (clock w <= clock w')%Z;
  clock_now w t w' : env_step Now w = (t, w') -> t = clock w';
  read_timeout h n w e w' :
    env_step (Read h n) w = (inl e, w') -> transient e = true -> (clock w < clock w')%Z;
  write_timeout h bs w e w' :
    env_step (Write h bs) w = (inl e, w') -> transient e = true -> (clock w < clock w')%Z;
  recv_timeout h n w e w' :
    env_step (UdpRecv h n) w = (inl e, w') -> transient e = true -> (clock w < clock w')%Z;
  read_bound h n w bs w' : env_step (Read h n) w = (inr bs, w') -> length bs <= n;
  write_bound h bs w k w' : env_step (Write h bs) w = (inr k, w') -> k <= length bs;
  recv_bound h n w bs w' : env_step (UdpRecv h n) w = (inr bs, w') -> length bs <= n;
  recv_from_bound n w bs a w' : env_step (RecvFrom n) w = (inr (bs, a), w') -> length bs <= n;
  os_errors R (e : Sys R) w r w' : env_step e w = (r, w') -> os_event (Ev e r)
}.

(** ** Reading a trace *)

(** The bytes received from the stream [h]. *)
Definition received1 (h : Handle) (ev : event) : list byte :=
  let 'Ev e r := ev in
  match e in Sys R return R -> list byte with
  | Read h' _ => fun r => match r with inr bs => if h =? h' then bs else [] | inl _ => [] end
  | _ => fun _ => []
  end r.

(** The bytes the stream [h] accepted. *)
Definition transmitted1 (h : Handle) (ev : event) : list byte :=
  let 'Ev e r := ev in
  match e in Sys R return R -> list byte with
  | Write h' bs => fun r => match r with inr k => if h =? h' then take k bs else [] | inl _ => [] end
  | _ => fun _ => []
  end r.

(** The endpoint a call contacts. *)
Definition contacted1 (ev : event) : list SocketAddr :=
  let 'Ev e r := ev in
  match e in Sys R return R -> list SocketAddr with
  | TcpConnect a _ => fun _ => [a]
  | UdpConnect _ a => fun _ => [a]
  | _ => fun _ => []
  end r.

Definition received (h : Handle) (tr : list event) : list byte := tr ≫= received1 h.
Definition transmitted (h : Handle) (tr : list event) : list byte := tr ≫= transmitted1 h.
Definition contacted (tr : list event) : list SocketAddr := tr ≫= contacted1.

Lemma received_snoc h tr ev : received h (tr ++ [ev]) = received h tr ++ received1 h ev.
Proof. unfold received. rewrite bind_app. simpl. by rewrite app_nil_r. Qed.
Lemma transmitted_snoc h tr ev : transmitted h (tr ++ [ev]) = transmitted h tr ++ transmitted1 h ev.
Proof. unfold transmitted. rewrite bind_app. simpl. by rewrite app_nil_r. Qed.
Lemma contacted_snoc tr ev : contacted (tr ++ [ev]) = contacted tr ++ contacted1 ev.
Proof. unfold contacted. rewrite bind_app. simpl. by rewrite app_nil_r. Qed.

(** The lines of the log. *)
Definition warned1 (ev : event) : list Warning :=
  let 'Ev e _ := ev in match e with Warn w => [w] | _ => [] end.
Definition warned (tr : list event) : list Warning := tr ≫= warned1.

Lemma contacted_app tr tr' : contacted (tr ++ tr') = contacted tr ++ contacted tr'.
Proof. apply bind_app. Qed.
Lemma warned_app tr tr' : warned (tr ++ tr') = warned tr ++ warned tr'.
Proof. apply bind_app. Qed.

Lemma warned_snoc tr ev : warned (tr ++ [ev]) = warned tr ++ warned1 ev.
Proof. rewrite warned_app. unfold warned at 2. simpl. by rewrite app_nil_r. Qed.

Lemma bind_none {A B} (f : A -> list B) (ok : A -> Prop) l :
  (forall a, ok a -> f a = []) -> Forall ok l -> l ≫= f = [].
Proof. intros Hf. induction 1 as [|a l Ha _ IH]; [done|]. rewrite bind_cons, IH, (Hf a Ha). done. Qed.


(** From [s] to [s'] the call [ev] was made. *)
Definition seen {W X Y} (ev : event) (s : state W X) (s' : state W Y) : Prop :=
  exists l, trace s' = trace s ++ l /\ ev ∈ l.

Lemma seen_after {W X Y Z} ev (s1 : state W X) (s2 : state W Y) (s3 : state W Z) :
  trace s1 `prefix_of` trace s2 -> seen ev s2 s3 -> seen ev s1 s3.
Proof.
  intros [l1 H1] (l2 & H2 & Hin). exists (l1 ++ l2). split; [by rewrite H2, H1, app_assoc|].
  apply elem_of_app. by right.
Qed.

Lemma seen_before {W X Y Z} ev (s1 : state W X) (s2 : state W Y) (s3 : state W Z) :
  seen ev s1 s2 -> trace s2 `prefix_of` trace s3 -> seen ev s1 s3.
Proof.
  intros (l1 & H1 & Hin) [l2 H2]. exists (l1 ++ l2). split; [by rewrite H2, H1, app_assoc|].
  apply elem_of_app. by left.
Qed.

Lemma seen_last {W X Y} ev (s : state W X) (w : W) (y : Y) : seen ev s (MkIo w (trace s ++ [ev]) y).
Proof. exists [ev]. split; [done|by left]. Qed.

(** The stop flag was seen raised. *)
Notation stopped := (seen (Ev Stop true)).

(** The error of a call; of a read, a write or a receive only one after which it is
    not tried again. *)
Definition failure {A} (r : ioresult A) : option IoError := match r with inl e => Some e | inr _ => None end.
Definition lasting {A} (r : ioresult A) : option IoError :=
  match r with inl e => if transient e then None else Some e | inr _ => None end.
Definition fatal_error (ev : event) : option IoError :=
  let 'Ev e r := ev in
  match e in Sys R return R -> option IoError with
  | TcpConnect _ _ => failure
  | SetNodelay _ => failure
  | SetReadTimeout _ _ => failure
  | SetWriteTimeout _ _ => failure
  | SetNonblocking _ _ => failure
  | Read _ _ => lasting
  | Write _ _ => lasting
  | UdpBind _ => failure
  | UdpConnect _ _ => failure
  | UdpSend _ _ => failure
  | UdpRecv _ _ => lasting
  | Entropy => failure
  | _ => fun _ => None
  end r.

(** A call failed with [x], for good. *)
Definition failed_call {W X Y} (x : IoError) (s : state W X) (s' : state W Y) : Prop :=
  err_cancelled x = false /\ exists ev, seen ev s s' /\ fatal_error ev = Some x.

Lemma failed_call_after {W X Y Z} x (s1 : state W X) (s2 : state W Y) (s3 : state W Z) :
  trace s1 `prefix_of` trace s2 -> failed_call x s2 s3 -> failed_call x s1 s3.
Proof. intros Hp (Hc & ev & Hs & Hf). split; [done|]. exists ev. split; [by eapply seen_after|done]. Qed.
Lemma failed_call_before {W X Y Z} x (s1 : state W X) (s2 : state W Y) (s3 : state W Z) :
  failed_call x s1 s2 -> trace s2 `prefix_of` trace s3 -> failed_call x s1 s3.
Proof. intros (Hc & ev & Hs & Hf) Hp. split; [done|]. exists ev. split; [by eapply seen_before|done]. Qed.

(** The error of a call is the operating system's. *)
Lemma fatal_error_os ev x : os_event ev -> fatal_error ev = Some x -> err_cancelled x = false.
Proof.
  destruct ev as [R e r]. destruct e; cbn; try done; destruct r as [y|?]; cbn; try done;
    try (by intros ? [= <-]); destruct (transient y); try done; by intros ? [= <-].
Qed.
Lemma failed_call_last {W X Y} `{EnvLaws W} {R} (e : Sys R) r w w' x (s : state W X) (y : Y) :
  env_step e w = (r, w') -> fatal_error (Ev e r) = Some x -> failed_call x s (MkIo w' (trace s ++ [Ev e r]) y).
Proof.
  intros He Hf. split; [eapply fatal_error_os; [by eapply os_errors|done]|]. exists (Ev e r).
  split; [apply seen_last|done].
Qed.

(** From [s] to [s'] time and the trace only went on. *)
Definition spans {W X Y} `{EnvLaws W} (s : state W X) (s' : state W Y) : Prop :=
  (clock (world s) <= clock (world s'))%Z /\ trace s `prefix_of` trace s'.

Lemma spans_refl {W X} `{EnvLaws W} (s : state W X) : spans s s.
Proof. by split. Qed.
Lemma spans_trans {W X Y Z} `{EnvLaws W} (s1 : state W X) (s2 : state W Y) (s3 : state W Z) :
  spans s1 s2 -> spans s2 s3 -> spans s1 s3.
Proof. intros [C1 P1] [C2 P2]. split; [lia|by etrans]. Qed.
Lemma spans_call {W X Y} `{EnvLaws W} {R} (e : Sys R) r w (s : state W X) (y : Y) :
  env_step e (world s) = (r, w) -> spans s (MkIo w (trace s ++ [Ev e r]) y).
Proof. intros He. split; [by eapply clock_mono|by apply prefix_app_r]. Qed.
#[export] Hint Resolve spans_refl : core.

(** ** Cancellation

    [cancels c d m]: [m] only extends the trace, and whenever it fails with an
    error that [c] recognises, or returns a value that [d] recognises, it saw
    the stop flag raised on the way. *)

Definition cancels {W X E A} (c : E -> bool) (d : A -> bool) (m : M W X E A) : Prop :=
  forall s, exists l, trace (snd (m s)) = trace s ++ l
    /\ (forall e, fst (m s) = Err e -> c e = true -> Ev Stop true ∈ l)
    /\ (forall a, fst (m s) = Ok a -> d a = true -> Ev Stop true ∈ l).

(** No value is recognised. *)
Definition plain {A} (_ : A) : bool := false.

(** A caught failure carries the error. *)
Definition carried {E A} (c : E -> bool) (r : E + A) : bool :=
  match r with inl e => c e | inr _ => false end.

Section cancels.
Context {W : Type} `{EnvLaws W} {X : Type}.

Lemma cancels_weaken {E A} (c c' : E -> bool) (d d' : A -> bool) (m : M W X E A) :
  cancels c d m -> (forall e, c' e = true -> c e = true) -> (forall a, d' a = true -> d a = true) ->
  cancels c' d' m.
Proof.
  intros Hm Hc Hd s. destruct (Hm s) as (l & Hl & He & Ha). exists l. split; [done|]. split; eauto.
Qed.

Lemma cancels_lift {E A} c d (o : outcome E A) :
  (forall e, o = Err e -> c e = false) -> (forall a, o = Ok a -> d a = false) ->
  cancels c d (mlift (W:=W) (X:=X) o).
Proof.
  intros He Ha s. exists []. split; [by rewrite app_nil_r|].
  split; simpl; intros x Hx Hr; [rewrite (He x Hx) in Hr|rewrite (Ha x Hx) in Hr]; done.
Qed.

Lemma cancels_ret {E A} (c : E -> bool) d (a : A) :
  d a = false -> cancels c d (mret (W:=W) (X:=X) a).
Proof. intros Hd. apply cancels_lift; [done|]. by intros ? [= <-]. Qed.

Lemma cancels_raise {E A} (c : E -> bool) (d : A -> bool) (e : E) :
  c e = false -> cancels c d (mraise (W:=W) (X:=X) e).
Proof. intros Hc. apply cancels_lift; [|done]. by intros ? [= <-]. Qed.

(** What was recognised in the first part is already accounted for. *)
Lemma cancels_bind_value {E A B} c d d' (m : M W X E A) (k : A -> M W X E B) :
  cancels c d m ->
  (forall a, cancels (fun e => c e && negb (d a)) (fun b => d' b && negb (d a)) (k a)) ->
  cancels c d' (mbind m k).
Proof.
  intros Hm Hk s. unfold mbind. destruct (Hm s) as (l & Hl & He & Ha).
  destruct (m s) as [[a|e| |] s1] eqn:Hs; cbn [fst snd] in *;
    [|exists l; split; [done|split; [intros ? [= <-]; by apply He|done]]|by exists l|by exists l].
  destruct (Hk a s1) as (l' & Hl' & He' & Ha'). exists (l ++ l').
  split; [by rewrite Hl', Hl, app_assoc|].
  destruct (d a) eqn:Hd; [split; intros; apply elem_of_app; left; eauto|].
  split; intros x Hx Hc; apply elem_of_app; right; [apply (He' x Hx)|apply (Ha' x Hx)];
    by rewrite Hc.
Qed.

Lemma cancels_bind {E A B} c d (m : M W X E A) (k : A -> M W X E B) :
  cancels c plain m -> (forall a, cancels c d (k a)) -> cancels c d (mbind m k).
Proof.
  intros Hm Hk. eapply cancels_bind_value; [done|]. intros a.
  eapply cancels_weaken; [apply Hk|by intros ? [? _]%andb_true_iff..].
Qed.

Lemma cancels_map_err {E F A} (f : E -> F) c c' d (m : M W X E A) :
  cancels c d m -> (forall e, c' (f e) = true -> c e = true) -> cancels c' d (mmap_err f m).
Proof.
  intros Hm Hc s. unfold mmap_err. destruct (Hm s) as (l & Hl & He & Ha). exists l.
  destruct (m s) as [[a|e| |] s1] eqn:Hs; cbn [fst snd map_err] in *; (split; [done|]); try done.
  - split; [done|]. intros ? [= <-]. by apply Ha.
  - split; [|done]. intros ? [= <-] Hc'. by apply (He e), Hc.
Qed.

Lemma cancels_try {E F A} c (c' : F -> bool) (m : M W X E A) :
  cancels c plain m -> cancels c' (carried c) (mtry m).
Proof.
  intros Hm s. unfold mtry. destruct (Hm s) as (l & Hl & He & _). exists l.
  destruct (m s) as [[a|e| |] s1] eqn:Hs; cbn [fst snd] in *; (split; [done|]); try done;
    (split; [done|]); intros r [= <-] Hr; [done|by apply (He e)].
Qed.

Lemma cancels_call {E R} (c : E -> bool) (e : Sys R) : cancels c plain (mcall (X:=X) e).
Proof.
  intros s. unfold mcall. destruct (env_step e (world s)) as [r w]. by exists [Ev e r].
Qed.

Lemma cancels_get {E} (c : E -> bool) : cancels c plain (mget (W:=W) (X:=X)).
Proof. intros s. exists []. split; [by rewrite app_nil_r|done]. Qed.
Lemma cancels_put {E} (c : E -> bool) (x : X) : cancels c plain (mput (W:=W) x).
Proof. intros s. exists []. split; [by rewrite app_nil_r|done]. Qed.

(** The result of a call is the operating system's. *)
Lemma cancels_call_bind {E R A} (c : E -> bool) d (e : Sys R) (k : R -> M W X E A) :
  (forall r, os_event (Ev e r) -> cancels c d (k r)) -> cancels c d (mbind (mcall e) k).
Proof.
  intros Hk s. unfold mbind, mcall. destruct (env_step e (world s)) as [r w] eqn:He.
  destruct (Hk r (os_errors _ _ _ _ _ He) (MkIo w (trace s ++ [Ev e r]) (own s))) as (l & Hl & Hc & Hd).
  exists (Ev e r :: l). cbn [trace] in Hl. split; [by rewrite Hl, <- app_assoc|].
  split; intros; apply elem_of_cons; right; eauto.
Qed.

Lemma cancels_io {R} (e : Sys (ioresult R)) :
  (forall r, os_event (Ev e r) -> os_result r) -> cancels err_cancelled plain (mio (X:=X) e).
Proof.
  intros Hr. apply cancels_call_bind. intros [err|a] Ho; [|by apply cancels_ret].
  apply cancels_raise. by apply Hr in Ho.
Qed.

(** Reading the stop flag: an error after it was seen raised is accounted for. *)
Lemma cancels_stop {E A} (c : E -> bool) (d : A -> bool) (k : bool -> M W X E A) :
  cancels c d (k false) -> cancels plain plain (k true) -> cancels c d (mbind (mcall Stop) k).
Proof.
  intros Hf Ht s. unfold mbind, mcall. destruct (env_step Stop (world s)) as [b w].
  set (s1 := MkIo w (trace s ++ [Ev Stop b]) (own s)). destruct b.
  - destruct (Ht s1) as (l & Hl & _). exists (Ev Stop true :: l). cbn [s1 trace] in Hl.
    split; [by rewrite Hl, <- app_assoc|]. split; intros; by left.
  - destruct (Hf s1) as (l & Hl & He & Hd). exists (Ev Stop false :: l). cbn [s1 trace] in Hl.
    split; [by rewrite Hl, <- app_assoc|]. split; intros; right; eauto.
Qed.
Lemma wpm_cancels {E A} t c d (m : M W X E A) (P : A -> state W X -> Prop)
    (Q : E -> state W X -> Prop) s :
  cancels c d m -> wpm t m P Q s ->
  wpm t m P (fun e s' => Q e s' /\ (c e = true -> stopped s s')) s.
Proof.
  intros Hm Hw. destruct (Hm s) as (l & Hl & He & _). unfold wpm in *.
  destruct (m s) as [[a|e| |] s']; try done. split; [done|]. intros Hc. exists l. simpl in *. eauto.
Qed.
End cancels.
