(* ===== verification/Sim.v ===== *)
(** * A scripted environment

    An instance of [Env] that satisfies [EnvLaws], at which the witnesses run
    the I/O code: streams and sockets deliver a script of chunks and datagrams,
    and time passes only while a call waits. *)

From S2P Require Import Prelude Types Net Io.

(** The clock, the instant the stop flag is raised, the chunks the streams
    deliver (an empty chunk is end of file), the datagrams, the endpoints that
    refuse connections, the next results of the entropy source ([None] is a
    failure; 0x1234 when the script is over), and those of [accept]. *)
Record Sim := MkSim {
  sim_time : Z;
  sim_stop : option Z;
  sim_chunks : list (list byte);
  sim_datagrams : list (list byte);
  sim_refused : list SocketAddr;
  sim_entropy : list (option (byte * byte));
  sim_accepts : list (ioresult nat)
}.

(** Every client of the simulation has this address. *)
Definition sim_peer : SocketAddr := SocketV4 (Ipv4 x7f x00 x00 x01) 5300.

(** A read or receive that gives up has waited for 100 ms. *)
Definition sim_wait (w : Sim) : Sim :=
  MkSim (sim_time w + 100000000) (sim_stop w) (sim_chunks w) (sim_datagrams w) (sim_refused w)
    (sim_entropy w) (sim_accepts w).

Definition sim_step (R : Type) (e : Sys R) (w : Sim) : R * Sim :=
  match e in Sys R return R * Sim with
  | Now => (sim_time w, w)
  | Stop => (match sim_stop w with Some t => (t <=? sim_time w)%Z | None => false end, w)
  | TcpConnect a _ => (if bool_decide (a ∈ sim_refused w) then inl (io_error KOther) else inr 1, w)
  | SetNodelay _ => (inr tt, w)
  | SetReadTimeout _ _ => (inr tt, w)
  | SetWriteTimeout _ _ => (inr tt, w)
  | Read _ n =>
    match sim_chunks w with
    | [] => (inl (io_error KWouldBlock), sim_wait w)
    | c :: cs =>
      (inr (take n c),
       MkSim (sim_time w) (sim_stop w) (if length c <=? n then cs else drop n c :: cs)
         (sim_datagrams w) (sim_refused w) (sim_entropy w) (sim_accepts w))
    end
  | Write _ bs => (inr (length bs), w)
  | UdpBind _ => (inr 2, w)
  | UdpConnect _ a => (if bool_decide (a ∈ sim_refused w) then inl (io_error KOther) else inr tt, w)
  | UdpSend _ bs => (inr (length bs), w)
  | UdpRecv _ n =>
    match sim_datagrams w with
    | [] => (inl (io_error KWouldBlock), sim_wait w)
    | d :: ds =>
      (inr (take n d), MkSim (sim_time w) (sim_stop w) (sim_chunks w) ds (sim_refused w)
                 (sim_entropy w) (sim_accepts w))
    end
  | Entropy =>
    match sim_entropy w with
    | [] => (inr (x34, x12), w)
    | o :: os =>
      (match o with Some bs => inr bs | None => inl (io_error KOther) end,
       MkSim (sim_time w) (sim_stop w) (sim_chunks w) (sim_datagrams w) (sim_refused w) os
         (sim_accepts w))
    end
  | SetNonblocking _ _ => (inr tt, w)
  | Accept =>
    match sim_accepts w with
    | [] => (inl (io_error KWouldBlock), sim_wait w)
    | r :: rs =>
      (match r with inl e => inl (MkIoError (err_kind e) None (err_os e)) | inr h => inr (h, sim_peer) end,
       MkSim (sim_time w) (sim_stop w) (sim_chunks w) (sim_datagrams w) (sim_refused w) (sim_entropy w) rs)
    end
  | RecvFrom n =>
    match sim_datagrams w with
    | [] => (inl (io_error KWouldBlock), sim_wait w)
    | d :: ds =>
      (inr (take n d, sim_peer), MkSim (sim_time w) (sim_stop w) (sim_chunks w) ds (sim_refused w)
                 (sim_entropy w) (sim_accepts w))
    end
  | SendTo bs _ => (inr (length bs), w)
  | SubmitUdp _ _ _ => (true, w)
  | SubmitTcp _ _ => (true, w)
  | Warn _ => (tt, w)
  end.

#[export] Instance sim_env : Env Sim := { env_step := sim_step }.

#[export] Program Instance sim_laws : EnvLaws Sim := { clock := sim_time }.
Next Obligation.
  intros R e w r w' He. destruct e; simpl in *;
    repeat case_match; simplify_eq/=; unfold sim_wait; cbn [sim_time]; lia.
Qed.
Next Obligation. intros w t w' He. by simplify_eq/=. Qed.
Next Obligation.
  intros h n w e w' He _. simpl in He. destruct (sim_chunks w); simplify_eq/=; lia.
Qed.
Next Obligation. intros h bs w e w' He. by simplify_eq/=. Qed.
Next Obligation.
  intros h n w e w' He _. simpl in He. destruct (sim_datagrams w); simplify_eq/=; lia.
Qed.
Next Obligation.
  intros h n w bs w' He. simpl in He. destruct (sim_chunks w); simplify_eq/=.
  rewrite length_take. lia.
Qed.
Next Obligation. intros h bs w k w' He. by simplify_eq/=. Qed.
Next Obligation.
  intros h n w bs w' He. simpl in He. destruct (sim_datagrams w); simplify_eq/=.
  rewrite length_take. lia.
Qed.
Next Obligation.
  intros n w bs a w' He. simpl in He. destruct (sim_datagrams w); simplify_eq/=.
  rewrite length_take. lia.
Qed.
Next Obligation.
  intros R e w r w' He. destruct e; simpl in *; repeat case_match; simplify_eq/=; done.
Qed.

(** A state at time zero with nothing done yet. *)
Definition sim_start {X} (chunks datagrams : list (list byte)) (x : X) : state Sim X :=
  MkIo (MkSim 0 None chunks datagrams [] [] []) [] x.

(** Fuel for the deadlines of the witnesses. *)
Definition sample_fuel : nat := Z.to_nat 70000.
