(* ===== verification/Transport.v ===== *)
(** * Deadlines and TCP framing

    [src/src/transport.rs]: absolute deadlines with cancellation, and DNS frames
    read and written under one deadline whatever the socket's partial progress.
    The loops take fuel; [read_frame_wp] and [write_frame_wp] say how much is
    enough and account for every byte that moves. *)

From S2P Require Import Prelude Types Net Io Sim.

(** Durations are in nanoseconds. *)
Definition SECOND : Z := 1000000000.
Definition REQUEST_TIMEOUT : Z := 5 * SECOND.
Definition IO_POLL : Z := 100000000.

Inductive Transport := Udp | Tcp.
#[export] Instance Transport_eq_dec : EqDecision Transport.
Proof. solve_decision. Defined.

Record Deadline := MkDeadline { instant : Z }.

(** [io::Error::new(Interrupted, Cancelled)]. *)
Definition cancelled_error : IoError := own_error KInterrupted Cancelled.
Definition expired_error : IoError := own_error KTimedOut DeadlineExpired.

Section transport.
Context {W : Type} `{!Env W} {X : Type}.

(** [Deadline::after]. *)
Definition deadline_after {E} (d : Z) : M W X E Deadline :=
  let! now := mcall Now in mret (MkDeadline (now + d)).

(** [Deadline::capped]. *)
Definition deadline_capped {E} (self : Deadline) (d : Z) : M W X E Deadline :=
  let! now := mcall Now in mret (MkDeadline (Z.min (instant self) (now + d))).

(** [Deadline::remaining]: [checked_duration_since] is [None] for a deadline in
    the past, and a duration of zero is filtered out. *)
Definition remaining (self : Deadline) : M W X IoError Z :=
  let! stopped := mcall Stop in
  if stopped : bool then mraise cancelled_error
  else
    let! now := mcall Now in
    let budget := if (now <=? instant self)%Z then Some (instant self - now)%Z else None in
    match budget with
    | Some budget => if (budget =? 0)%Z then mraise expired_error else mret budget
    | None => mraise expired_error
    end.

(** The loop of [read_exact]: [acc] is [bytes\[..offset\]].  [None] is the
    result [false], [Some bytes] the filled buffer. *)
Fixpoint read_loop (fuel : nat) (h n : nat) (acc : list byte) (deadline : Deadline)
    : M W X IoError (option (list byte)) :=
  match fuel with
  | O => mlift Diverge
  | S fuel =>
    if length acc <? n then
      let! budget := remaining deadline in
      let! _ := mio (SetReadTimeout h (Z.min budget IO_POLL)) in
      let! r := mcall (Read h (n - length acc)) in
      match r with
      | inr [] => if length acc =? 0 then mret None else mraise (own_error KUnexpectedEof PartialFrame)
      | inr bs => read_loop fuel h n (acc ++ bs) deadline
      | inl e => if transient e then read_loop fuel h n acc deadline else mraise e
      end
    else
      let! _ := remaining deadline in
      mret (Some acc)
  end.

Definition read_exact (fuel h n : nat) (deadline : Deadline)
    : M W X IoError (option (list byte)) := read_loop fuel h n [] deadline.

Definition read_frame (fuel h : nat) (deadline : Deadline) : M W X IoError (option (list byte)) :=
  let! prefix := read_exact fuel h 2 deadline in
  match prefix with
  | None => mret None
  | Some prefix =>
    let! hi := mlift (index prefix 0) in
    let! lo := mlift (index prefix 1) in
    let len := Z.to_nat (be16 hi lo) in
    if len <? HEADER_LENGTH then mraise (own_error KInvalidData ShortFrame)
    else
      let! wire := read_exact fuel h len deadline in
      match wire with
      | None => mraise (own_error KUnexpectedEof MissingBody)
      | Some wire => mret (Some wire)
      end
  end.

(** The loop of [write_frame]. *)
Fixpoint write_loop (fuel h : nat) (frame : list byte) (offset : nat) (deadline : Deadline)
    : M W X IoError unit :=
  match fuel with
  | O => mlift Diverge
  | S fuel =>
    if offset <? length frame then
      let! budget := remaining deadline in
      let! _ := mio (SetWriteTimeout h (Z.min budget IO_POLL)) in
      let! r := mcall (Write h (drop offset frame)) in
      match r with
      | inr 0 => mraise (own_error KWriteZero WroteZero)
      | inr count => write_loop fuel h frame (offset + count) deadline
      | inl e => if transient e then write_loop fuel h frame offset deadline else mraise e
      end
    else
      let! _ := remaining deadline in
      mret tt
  end.

Definition frame_of (wire : list byte) : list byte := to_be16 (Z.of_nat (length wire)) ++ wire.

Definition write_frame (fuel h : nat) (wire : list byte) (deadline : Deadline)
    : M W X IoError unit :=
  if (length wire <? HEADER_LENGTH) || (MAX_MESSAGE_LENGTH <? Z.of_nat (length wire))%Z
  then mraise (own_error KInvalidInput BadFrameLength)
  else write_loop fuel h (frame_of wire) 0 deadline.
End transport.

(** ** Moving bytes *)

(** A call that concerns the stream [h] alone, the clock or the stop flag. *)
Definition about (h : Handle) (ev : event) : Prop :=
  let 'Ev e _ := ev in
  match e with
  | Now | Stop => True
  | SetNodelay h' | SetNonblocking h' _ | SetReadTimeout h' _ | SetWriteTimeout h' _ | Read h' _ | Write h' _ => h' = h
  | _ => False
  end.

Section moved.
Context {W : Type} `{EnvLaws W} {X : Type}.
Implicit Types s : state W X.

(** From [s] to [s'] the stream [h] received [rx] and accepted [tx]; nothing else
    was called and the caller's state is untouched. *)
Record moved (h : nat) (rx tx : list byte) s s' : Prop := {
  mv_clock : (clock (world s) <= clock (world s'))%Z;
  mv_calls : exists l, trace s' = trace s ++ l /\ Forall (about h) l;
  mv_own : own s' = own s;
  mv_received : received h (trace s') = received h (trace s) ++ rx;
  mv_transmitted : transmitted h (trace s') = transmitted h (trace s) ++ tx
}.

Lemma mv_trace h rx tx s s' : moved h rx tx s s' -> trace s `prefix_of` trace s'.
Proof. intros [_ (l & Hl & _) _ _ _]. by exists l. Qed.

Lemma mv_spans h rx tx s s' : moved h rx tx s s' -> spans s s'.
Proof. intros M. split; [apply M|by eapply mv_trace]. Qed.

Lemma about_contacts h l : Forall (about h) l -> contacted l = [].
Proof. apply bind_none. by intros [? []]. Qed.
Lemma about_warns h l : Forall (about h) l -> warned l = [].
Proof. apply bind_none. by intros [? []]. Qed.

Lemma mv_contacted h rx tx s s' : moved h rx tx s s' -> contacted (trace s') = contacted (trace s).
Proof. intros [_ (l & -> & Hl) _ _ _]. by rewrite contacted_app, (about_contacts h l Hl), app_nil_r. Qed.

Lemma moved_refl h s : moved h [] [] s s.
Proof. split; rewrite ?app_nil_r; try done. exists []. by rewrite app_nil_r. Qed.

Lemma moved_trans h rx rx' tx tx' s1 s2 s3 :
  moved h rx tx s1 s2 -> moved h rx' tx' s2 s3 -> moved h (rx ++ rx') (tx ++ tx') s1 s3.
Proof.
  intros [C1 (l1 & L1 & A1) O1 R1 T1] [C2 (l2 & L2 & A2) O2 R2 T2].
  split; [lia| |congruence|by rewrite R2, R1, app_assoc|by rewrite T2, T1, app_assoc].
  exists (l1 ++ l2). by rewrite L2, L1, app_assoc, Forall_app.
Qed.

Lemma moved_call {R} h (e : Sys R) r w s :
  env_step e (world s) = (r, w) -> about h (Ev e r) ->
  moved h (received1 h (Ev e r)) (transmitted1 h (Ev e r)) s (MkIo w (trace s ++ [Ev e r]) (own s)).
Proof.
  intros He Hc. split; cbn [world trace own].
  - by eapply clock_mono.
  - exists [Ev e r]. split; [done|by repeat constructor].
  - done.
  - by rewrite received_snoc.
  - by rewrite transmitted_snoc.
Qed.

(** A step that moves nothing. *)
Lemma moved_then h rx tx s1 s2 s3 :
  moved h [] [] s1 s2 -> moved h rx tx s2 s3 -> moved h rx tx s1 s3.
Proof. apply moved_trans. Qed.

Lemma moved_silent {R} h (e : Sys R) r w s :
  env_step e (world s) = (r, w) -> about h (Ev e r) ->
  received1 h (Ev e r) = [] -> transmitted1 h (Ev e r) = [] ->
  moved h [] [] s (MkIo w (trace s ++ [Ev e r]) (own s)).
Proof. intros He Hc Hr Ht. rewrite <- Hr at 1. rewrite <- Ht. by apply moved_call. Qed.
End moved.

#[export] Hint Resolve moved_refl : core.

(** Budget left at [s], as a number of clock ticks. *)
Definition ticks {W X} `{EnvLaws W} (d : Deadline) (s : state W X) : nat :=
  Z.to_nat (instant d - clock (world s)).

Section transport_wp.
Context {W : Type} `{EnvLaws W} {X : Type} (t : bool).
Implicit Types s : state W X.

Lemma deadline_after_wp {E} d (P : Deadline -> state W X -> Prop) (Q : E -> state W X -> Prop) s :
  (forall s' dl, (forall h, moved h [] [] s s') -> instant dl = (clock (world s') + d)%Z -> P dl s') ->
  wpm t (deadline_after d) P Q s.
Proof.
  intros HP. apply wpm_bind, wpm_call. intros r w Hr. apply wpm_ret, HP.
  - intros h. by apply moved_silent.
  - simpl. by rewrite (clock_now _ _ _ Hr).
Qed.

Lemma deadline_capped_wp {E} dl d (P : Deadline -> state W X -> Prop)
    (Q : E -> state W X -> Prop) s :
  (forall s' dl', (forall h, moved h [] [] s s') ->
     instant dl' = Z.min (instant dl) (clock (world s') + d) -> P dl' s') ->
  wpm t (deadline_capped dl d) P Q s.
Proof.
  intros HP. apply wpm_bind, wpm_call. intros r w Hr. apply wpm_ret, HP.
  - intros h. by apply moved_silent.
  - simpl. by rewrite (clock_now _ _ _ Hr).
Qed.

(** Why [remaining] ends the enclosing operation. *)
Definition out_of_time (dl : Deadline) (e : IoError) s s' : Prop :=
  e = cancelled_error /\ stopped s s'
  \/ e = expired_error /\ (instant dl <= clock (world s'))%Z.

(** Why a loop over a stream ends before its work is done: time, or a call that
    failed for good; the end of the stream; a write of nothing. *)
Definition interrupted dl x s s' : Prop := out_of_time dl x s s' \/ failed_call x s s'.
Definition hung_up (h : Handle) s s' : Prop := exists n, seen (Ev (Read h n) (inr [])) s s'.
Inductive read_fault h dl x s s' : Prop :=
| rf_interrupted : interrupted dl x s s' -> read_fault h dl x s s'
| rf_partial : x = own_error KUnexpectedEof PartialFrame -> hung_up h s s' -> read_fault h dl x s s'
| rf_missing : x = own_error KUnexpectedEof MissingBody -> hung_up h s s' -> read_fault h dl x s s'.
Inductive write_fault h dl x s s' : Prop :=
| wf_interrupted : interrupted dl x s s' -> write_fault h dl x s s'
| wf_zero bs : x = own_error KWriteZero WroteZero -> seen (Ev (Write h bs) (inr 0)) s s' -> write_fault h dl x s s'.

Lemma out_of_time_after dl x s1 s2 s3 :
  trace s1 `prefix_of` trace s2 -> out_of_time dl x s2 s3 -> out_of_time dl x s1 s3.
Proof. intros Hp [[? ?]|?]; [left|by right]. split; [done|by eapply seen_after]. Qed.
Lemma interrupted_after dl x s1 s2 s3 :
  trace s1 `prefix_of` trace s2 -> interrupted dl x s2 s3 -> interrupted dl x s1 s3.
Proof. intros Hp [?|?]; [left; by eapply out_of_time_after|right; by eapply failed_call_after]. Qed.
Lemma hung_up_after h s1 s2 s3 : trace s1 `prefix_of` trace s2 -> hung_up h s2 s3 -> hung_up h s1 s3.
Proof. intros Hp [n ?]. exists n. by eapply seen_after. Qed.
Lemma read_fault_after h dl x s1 s2 s3 :
  trace s1 `prefix_of` trace s2 -> read_fault h dl x s2 s3 -> read_fault h dl x s1 s3.
Proof.
  intros Hp []; [eapply rf_interrupted, interrupted_after|eapply rf_partial, hung_up_after|eapply rf_missing, hung_up_after]; done.
Qed.
Lemma write_fault_after h dl x s1 s2 s3 :
  trace s1 `prefix_of` trace s2 -> write_fault h dl x s2 s3 -> write_fault h dl x s1 s3.
Proof. intros Hp []; [eapply wf_interrupted, interrupted_after|eapply wf_zero, seen_after]; done. Qed.

Lemma remaining_wp dl (P : Z -> state W X -> Prop) (Q : IoError -> state W X -> Prop) s :
  (forall s', (forall h, moved h [] [] s s') -> (clock (world s') < instant dl)%Z ->
     P (instant dl - clock (world s'))%Z s') ->
  (forall e s', (forall h, moved h [] [] s s') -> out_of_time dl e s s' -> Q e s') ->
  wpm t (remaining dl) P Q s.
Proof.
  intros HP HQ. apply wpm_bind, wpm_call. intros b w Hs.
  assert (forall h, moved h [] [] s (MkIo w (trace s ++ [Ev Stop b]) (own s))) as Hm
    by (intros h; by apply moved_silent).
  destruct b.
  { apply wpm_raise, HQ; [done|]. left. split; [done|]. exists [Ev Stop true]. split; [done|by left]. }
  apply wpm_bind, wpm_call. cbn [world trace own] in *. intros now w' Hn.
  pose proof (clock_now _ _ _ Hn) as ->.
  assert (forall h, moved h [] [] s (MkIo w' ((trace s ++ [Ev Stop false]) ++ [Ev Now (clock w')]) (own s)))
    as Hm'.
  { intros h. eapply moved_then; [apply Hm|]. by apply (moved_silent h Now (clock w') w'
      (MkIo w (trace s ++ [Ev Stop false]) (own s))). }
  destruct (_ <=? _)%Z eqn:Hle; bool_to_prop.
  - destruct (_ =? 0)%Z eqn:Hz; bool_to_prop.
    + apply wpm_raise, HQ; [done|]. right. simpl. split; [done|lia].
    + apply wpm_ret. apply (HP _ Hm'). simpl. lia.
  - apply wpm_raise, HQ; [done|]. right. simpl. split; [done|lia].
Qed.

(** The head of both loops: a checkpoint, and a socket timeout set from it. *)
Lemma poll_wp {A} dl h (e : Z -> Sys (ioresult unit)) (k : M W X IoError A)
    (P : A -> state W X -> Prop) (Q : IoError -> state W X -> Prop) s :
  (forall d r, about h (Ev (e d) r) /\ received1 h (Ev (e d) r) = [] /\ transmitted1 h (Ev (e d) r) = []
               /\ fatal_error (Ev (e d) r) = failure r) ->
  (forall s', moved h [] [] s s' -> (clock (world s) < instant dl)%Z -> wpm t k P Q s') ->
  (forall x s', moved h [] [] s s' -> interrupted dl x s s' -> Q x s') ->
  wpm t (let! budget := remaining dl in let! _ := mio (e (Z.min budget IO_POLL)) in k) P Q s.
Proof.
  intros He Hk HQ. apply wpm_bind, remaining_wp; [|intros x s' Hm Ho; apply HQ; [apply Hm|by left]].
  intros s1 Hm1 Hc. pose proof (mv_clock _ _ _ _ _ (Hm1 h)).
  apply wpm_bind, wpm_io; intros r w Hw; [apply Hk; [|lia]|apply HQ].
  1, 2: eapply moved_then; [apply Hm1|]; apply moved_silent; try done; apply He.
  right. eapply failed_call_after; [by eapply mv_trace, (Hm1 h)|]. eapply failed_call_last; [done|].
  by destruct (He (Z.min (instant dl - clock (world s1)) IO_POLL) (inl r)) as (_ & _ & _ & ->).
Qed.

(** What a read loop promises: the field filled in time; the stream at its end before
    the field; or a fault, before the field is filled unless time is over. *)
Definition read_ok dl h n acc s (o : option (list byte)) s' : Prop :=
  match o with
  | Some bs => length bs = n /\ (clock (world s') < instant dl)%Z
               /\ exists rx, bs = acc ++ rx /\ moved h rx [] s s'
  | None => acc = [] /\ 0 < n /\ moved h [] [] s s' /\ hung_up h s s'
  end.
Definition read_failed dl h n (acc : list byte) s x s' : Prop :=
  read_fault h dl x s s'
  /\ exists rx, moved h rx [] s s' /\ (length (acc ++ rx) < n \/ out_of_time dl x s s').

(** The loop goes on after it received [bs]. *)
Lemma read_ok_then dl h n acc bs s1 s2 o s3 :
  moved h bs [] s1 s2 -> (bs = [] \/ acc ++ bs <> []) ->
  read_ok dl h n (acc ++ bs) s2 o s3 -> read_ok dl h n acc s1 o s3.
Proof.
  intros M Hb. destruct o as [got|]; cbn.
  - intros (Hl & Hc & rx & -> & M'). split; [done|]. split; [done|]. exists (bs ++ rx).
    split; [by rewrite app_assoc|]. by apply (moved_trans h bs rx [] [] s1 s2).
  - intros ([-> ->]%app_eq_nil & Hn & M' & Hh). split; [done|]. split; [done|].
    split; [by eapply moved_then|]. eapply hung_up_after; [by eapply mv_trace|done].
Qed.
Lemma read_failed_then dl h n acc bs s1 s2 x s3 :
  moved h bs [] s1 s2 -> read_failed dl h n (acc ++ bs) s2 x s3 -> read_failed dl h n acc s1 x s3.
Proof.
  intros M (Hf & rx & M' & Hl). pose proof (mv_trace _ _ _ _ _ M) as Hp.
  split; [by eapply read_fault_after|]. exists (bs ++ rx). split; [by apply (moved_trans h bs rx [] [] s1 s2)|].
  rewrite app_assoc. destruct Hl; [by left|right; by eapply out_of_time_after].
Qed.

(** A read or write of [h] that is given up, or moves something, makes progress
    towards the bound on the iterations. *)
Lemma read_loop_wp dl h n : forall fuel acc s,
  (t = true -> n - length acc + ticks dl s < fuel) -> length acc <= n ->
  wpm t (read_loop fuel h n acc dl) (read_ok dl h n acc s) (read_failed dl h n acc s) s.
Proof.
  induction fuel as [|fuel IH]; intros acc s Hf Hl.
  { cbn. destruct t; [specialize (Hf eq_refl); lia|done]. }
  cbn [read_loop]. destruct (_ <? n) eqn:Hn; bool_to_prop; cycle 1.
  { apply wpm_bind, remaining_wp.
    - intros s' Hm Hc. apply wpm_ret. split; [lia|]. split; [done|]. exists []. by rewrite app_nil_r.
    - intros x s' Hm Ho. split; [by apply rf_interrupted; left|]. exists []. split; [done|by right]. }
  assert (forall x s', moved h [] [] s s' -> read_fault h dl x s s' -> read_failed dl h n acc s x s') as Hstop
    by (intros x s' M Hx; split; [done|]; exists []; rewrite app_nil_r; auto).
  apply (poll_wp dl h (SetReadTimeout h)); [done| |intros; apply Hstop; [done|by apply rf_interrupted]].
  intros s2 Hm2 Hc. apply wpm_bind, wpm_call. intros r w' Hr. set (s3 := MkIo w' _ _).
  pose proof (moved_call h (Read h (n - length acc)) r w' s2 Hr eq_refl) as Hm3.
  cbn [received1 transmitted1] in Hm3. rewrite Nat.eqb_refl in Hm3. fold s3 in Hm3.
  pose proof (mv_clock _ _ _ _ _ Hm2) as Hck. pose proof (mv_trace _ _ _ _ _ Hm2) as Hp2.
  pose proof (moved_then _ _ _ _ _ _ Hm2 Hm3) as Hm23.
  destruct r as [e|bs].
  - destruct (transient e) eqn:Ht.
    + pose proof (read_timeout _ _ _ _ _ Hr Ht) as Hlt.
      eapply wpm_mono; [apply IH; [|done]| |].
      * intros Hb. specialize (Hf Hb). unfold ticks in *. cbn [s3 world]. lia.
      * intros o s' Ho. eapply (read_ok_then _ _ _ _ []); [done|by left|by rewrite app_nil_r].
      * intros x s' Hx. eapply (read_failed_then _ _ _ _ []); [done|by rewrite app_nil_r].
    + apply wpm_raise, Hstop; [done|]. apply rf_interrupted. right. eapply failed_call_after; [done|].
      eapply failed_call_last; [done|]. cbn. by rewrite Ht.
  - pose proof (read_bound _ _ _ _ _ Hr) as Hb. destruct bs as [|b bs].
    + assert (hung_up h s s3) as Hh by (eexists; eapply seen_after; [exact Hp2|apply seen_last]).
      destruct (_ =? 0) eqn:Hz; bool_to_prop.
      * apply wpm_ret. split; [by destruct acc|]. split; [lia|done].
      * apply wpm_raise, Hstop; [done|]. by apply rf_partial.
    + eapply wpm_mono; [apply IH| |].
      * intros Htt. specialize (Hf Htt). pose proof (mv_clock _ _ _ _ _ Hm3).
        unfold ticks in *. rewrite length_app. cbn [length s3 world] in *. lia.
      * rewrite length_app. cbn [length] in *. lia.
      * intros o s' Ho. eapply read_ok_then; [exact Hm23| |exact Ho]. right. by intros [_ ?]%app_eq_nil.
      * intros x s' Hx. by eapply read_failed_then.
Qed.

(** What a write loop leaves behind when it fails. *)
Definition write_failed dl h (bytes : list byte) s x s' : Prop :=
  write_fault h dl x s s'
  /\ exists k, moved h [] (take k bytes) s s' /\ (k < length bytes \/ out_of_time dl x s s').

Lemma write_failed_then dl h (bytes : list byte) count s1 s2 x s3 :
  moved h [] (take count bytes) s1 s2 -> count <= length bytes ->
  write_failed dl h (drop count bytes) s2 x s3 -> write_failed dl h bytes s1 x s3.
Proof.
  intros M Hc (Hf & k & M' & Hk). pose proof (mv_trace _ _ _ _ _ M) as Hp.
  split; [by eapply write_fault_after|]. exists (count + k). split.
  - rewrite <- (take_take_drop bytes count k). by apply (moved_trans h [] [] _ _ s1 s2).
  - rewrite length_drop in Hk. destruct Hk; [left; lia|right; by eapply out_of_time_after].
Qed.

Lemma write_loop_wp dl h frame : forall fuel offset s,
  (t = true -> length frame - offset + ticks dl s < fuel) -> offset <= length frame ->
  wpm t (write_loop fuel h frame offset dl)
    (fun _ s' => (clock (world s') < instant dl)%Z /\ moved h [] (drop offset frame) s s')
    (write_failed dl h (drop offset frame) s) s.
Proof.
  induction fuel as [|fuel IH]; intros offset s Hf Hl.
  { cbn. destruct t; [specialize (Hf eq_refl); lia|done]. }
  cbn [write_loop]. destruct (offset <? _) eqn:Hn; bool_to_prop; cycle 1.
  { apply wpm_bind, remaining_wp.
    - intros s' Hm Hc. apply wpm_ret. split; [done|]. by rewrite drop_ge by lia.
    - intros x s' Hm Ho. split; [by apply wf_interrupted; left|]. exists 0. split; [done|by right]. }
  assert (forall x s', moved h [] [] s s' -> write_fault h dl x s s' -> write_failed dl h (drop offset frame) s x s')
    as Hstop by (intros x s' M Hx; split; [done|]; exists 0; rewrite length_drop; split; [done|left; lia]).
  apply (poll_wp dl h (SetWriteTimeout h)); [done| |intros; apply Hstop; [done|by apply wf_interrupted]].
  intros s2 Hm2 Hc. apply wpm_bind, wpm_call. intros r w' Hr. set (s3 := MkIo w' _ _).
  pose proof (moved_call h (Write h (drop offset frame)) r w' s2 Hr eq_refl) as Hm3.
  cbn [received1 transmitted1] in Hm3. rewrite Nat.eqb_refl in Hm3. fold s3 in Hm3.
  pose proof (mv_clock _ _ _ _ _ Hm2) as Hck. pose proof (mv_trace _ _ _ _ _ Hm2) as Hp2.
  pose proof (moved_then _ _ _ _ _ _ Hm2 Hm3) as Hm23.
  destruct r as [e|count].
  - destruct (transient e) eqn:Ht.
    + pose proof (write_timeout _ _ _ _ _ Hr Ht) as Hlt.
      eapply wpm_mono; [apply IH; [|done]| |].
      * intros Hb. specialize (Hf Hb). unfold ticks in *. cbn [s3 world]. lia.
      * intros _ s' [? Hm]. split; [done|]. by eapply moved_then.
      * intros x s' Hx. eapply (write_failed_then _ _ _ 0); [by rewrite take_0|lia|done].
    + apply wpm_raise, Hstop; [done|]. apply wf_interrupted. right. eapply failed_call_after; [done|].
      eapply failed_call_last; [done|]. cbn. by rewrite Ht.
  - pose proof (write_bound _ _ _ _ _ Hr) as Hb. rewrite length_drop in Hb.
    destruct count as [|count].
    + apply wpm_raise, Hstop; [done|]. eapply wf_zero; [done|]. eapply seen_after; [exact Hp2|apply seen_last].
    + eapply wpm_mono; [apply IH; [|lia]| |].
      * intros Htt. specialize (Hf Htt). pose proof (mv_clock _ _ _ _ _ Hm3).
        unfold ticks in *. cbn [s3 world] in *. lia.
      * intros _ s' [? Hm]. split; [done|].
        rewrite <- (take_drop (S count) (drop offset frame)), drop_drop.
        by eapply (moved_trans _ [] []).
      * intros x s' Hx. eapply (write_failed_then _ _ _ (S count)); [exact Hm23|rewrite length_drop; lia|].
        by rewrite drop_drop.
Qed.
End transport_wp.

(** ** Frames *)

(** Enough iterations for any field of a frame within the time left. *)
Definition enough {W X} `{EnvLaws W} (fuel : nat) (dl : Deadline) (s : state W X) : Prop :=
  (65537 + Z.of_nat (ticks dl s) < Z.of_nat fuel)%Z.

Lemma length_frame_of wire : length (frame_of wire) = 2 + length wire.
Proof. done. Qed.

Lemma frame_of_inj wire wire' rest :
  (Z.of_nat (length wire) <= MAX_MESSAGE_LENGTH)%Z ->
  (Z.of_nat (length wire') <= MAX_MESSAGE_LENGTH)%Z ->
  frame_of wire `prefix_of` frame_of wire' ++ rest -> wire = wire'.
Proof.
  unfold MAX_MESSAGE_LENGTH. intros Hl Hl' [k Hk]. unfold frame_of, to_be16 in Hk.
  cbn [app] in Hk. injection Hk as H1 H2 Hk.
  assert (Z.of_nat (length wire) = Z.of_nat (length wire')) as Hlen.
  { rewrite <- (be16_to_be16 (Z.of_nat (length wire))) by (unfold is_u16; lia).
    rewrite <- (be16_to_be16 (Z.of_nat (length wire'))) by (unfold is_u16; lia).
    by rewrite H1, H2. }
  symmetry. apply (app_inj_1 wire' wire rest k); [lia|done].
Qed.

(** No complete frame of a message is the beginning of these bytes. *)
Definition unframed (rx : list byte) : Prop :=
  forall wire, HEADER_LENGTH <= length wire -> (Z.of_nat (length wire) <= MAX_MESSAGE_LENGTH)%Z ->
    ~ frame_of wire `prefix_of` rx.

Section frames.
Context {W : Type} `{EnvLaws W} {X : Type} (t : bool).
Implicit Types s : state W X.

Lemma moved_ticks h rx tx dl s s' : moved h rx tx s s' -> ticks dl s' <= ticks dl s.
Proof. intros Hm. pose proof (mv_clock _ _ _ _ _ Hm). unfold ticks. lia. Qed.

Lemma enough_moved h rx tx fuel dl s s' : moved h rx tx s s' -> enough fuel dl s -> enough fuel dl s'.
Proof. unfold enough. intros Hm%(moved_ticks _ _ _ dl). lia. Qed.

Lemma read_exact_wp fuel h n dl s :
  (Z.of_nat n <= 65537)%Z -> (t = true -> enough fuel dl s) ->
  wpm t (read_exact fuel h n dl) (read_ok dl h n [] s) (read_failed dl h n [] s) s.
Proof.
  intros Hn Hf. apply read_loop_wp; [|simpl; lia].
  intros Ht. specialize (Hf Ht). unfold enough in Hf. simpl. lia.
Qed.

(** What [read_frame] promises: a message of a valid length in time, exactly its frame
    taken; or the end of the stream before a frame; or a fault, with no complete
    frame taken unless time is over. *)
Definition frame_read h dl s (o : option (list byte)) s' : Prop :=
  match o with
  | Some wire => HEADER_LENGTH <= length wire /\ (Z.of_nat (length wire) <= MAX_MESSAGE_LENGTH)%Z
                 /\ (clock (world s') < instant dl)%Z /\ moved h (frame_of wire) [] s s'
  | None => moved h [] [] s s' /\ hung_up h s s'
  end.
Definition short_frame x (rx : list byte) : Prop :=
  x = own_error KInvalidData ShortFrame /\ exists n, (0 <= n < 12)%Z /\ rx = to_be16 n.
Definition frame_unread h dl s x s' : Prop :=
  exists rx, moved h rx [] s s' /\ (read_fault h dl x s s' \/ short_frame x rx)
    /\ (unframed rx \/ out_of_time dl x s s').

Lemma unframed_short rx : length rx < 2 -> unframed rx.
Proof. intros Hl wire _ _ [k ->]. rewrite length_app, length_frame_of in Hl. lia. Qed.

Lemma unframed_prefix n rx : is_u16 n -> length rx < Z.to_nat n -> unframed (to_be16 n ++ rx).
Proof.
  intros Hn Hl wire Hw Hm [k Hk]. unfold MAX_MESSAGE_LENGTH, is_u16 in *. unfold frame_of, to_be16 in Hk. cbn [app] in Hk.
  injection Hk as H1 H2 Hk.
  assert (n = Z.of_nat (length wire)) as ->.
  { rewrite <- (be16_to_be16 n), <- (be16_to_be16 (Z.of_nat (length wire))) by (unfold is_u16; lia).
    by rewrite H1, H2. }
  rewrite Hk, length_app in Hl. lia.
Qed.

Lemma unframed_header n : (0 <= n < 12)%Z -> unframed (to_be16 n).
Proof.
  intros Hn wire Hw Hm [k Hk]. unfold MAX_MESSAGE_LENGTH, HEADER_LENGTH in *.
  apply (f_equal length) in Hk. rewrite length_to_be16, length_app, length_frame_of in Hk. lia.
Qed.

Lemma read_frame_wp fuel h dl s :
  (t = true -> enough fuel dl s) -> wpm t (read_frame fuel h dl) (frame_read h dl s) (frame_unread h dl s) s.
Proof.
  intros Hf. apply wpm_bind. eapply wpm_mono; [apply read_exact_wp; [lia|done]| |].
  2: { intros x s' (Hx & rx & M & Hl). exists rx. split; [done|]. split; [by left|].
       destruct Hl; [left; by apply unframed_short|by right]. }
  intros [prefix|] s1 H1; [|apply wpm_ret; by destruct H1 as (_ & _ & ? & ?)].
  destruct H1 as (Hl & _ & rx & -> & Hm1). cbn [app] in *. destruct (two_bytes_u16 rx Hl) as (len & Hlen & ->).
  unfold to_be16, index. cbn [lookup list_lookup or_panic].
  apply wpm_bind. cbn [wpm mlift]. apply wpm_bind. cbn [wpm mlift].
  rewrite be16_to_be16 by done. pose proof Hlen as Hlen'. unfold is_u16 in Hlen.
  destruct (_ <? _) eqn:Hh; bool_to_prop.
  { unfold HEADER_LENGTH in Hh. apply wpm_raise. exists (to_be16 len). split; [done|].
    split; [right; split; [done|]; exists len; split; [lia|done]|]. left. apply unframed_header. lia. }
  pose proof (mv_trace _ _ _ _ _ Hm1) as Hp1.
  apply wpm_bind. eapply wpm_mono; [apply (read_exact_wp fuel h (Z.to_nat len) dl s1)| |].
  - lia.
  - intros Ht. eapply enough_moved; [done|auto].
  - intros [wire|] s2 H2.
    + destruct H2 as (Hwl & Hc & rx & -> & Hm2). cbn [app] in *. apply wpm_ret.
      split; [by rewrite Hwl|]. split; [unfold MAX_MESSAGE_LENGTH; rewrite Hwl; lia|]. split; [done|].
      unfold frame_of. rewrite Hwl, Z2Nat.id by lia. by eapply (moved_trans _ _ _ [] []).
    + destruct H2 as (_ & Hpos & Hm2 & Hh2). apply wpm_raise. exists (to_be16 len ++ []).
      split; [by apply (moved_trans h _ [] [] [] s s1)|]. split.
      * left. apply rf_missing; [done|]. by eapply hung_up_after.
      * left. by apply unframed_prefix.
  - intros x s2 (Hx & rx & Hm2 & Hs). exists (to_be16 len ++ rx).
    split; [by apply (moved_trans h _ _ [] [] s s1)|]. split; [left; by eapply read_fault_after|].
    destruct Hs; [left; by apply unframed_prefix|right; by eapply out_of_time_after].
Qed.

(** What [write_frame] promises: the frame written in time, or the beginning of it and
    a fault, or nothing of a message of a wrong length. *)
Definition frame_written h wire dl s (_ : unit) s' : Prop :=
  HEADER_LENGTH <= length wire /\ (Z.of_nat (length wire) <= MAX_MESSAGE_LENGTH)%Z
  /\ (clock (world s') < instant dl)%Z /\ moved h [] (frame_of wire) s s'.
Definition bad_length (wire : list byte) x : Prop :=
  x = own_error KInvalidInput BadFrameLength
  /\ ~ (HEADER_LENGTH <= length wire /\ (Z.of_nat (length wire) <= MAX_MESSAGE_LENGTH)%Z).
Definition frame_unwritten h wire dl s x s' : Prop :=
  bad_length wire x /\ s' = s \/ write_failed dl h (frame_of wire) s x s'.

Lemma frame_unwritten_moved h wire dl s x s' :
  frame_unwritten h wire dl s x s' -> exists k, moved h [] (take k (frame_of wire)) s s'.
Proof. intros [[_ ->]|(_ & k & M & _)]; [by exists 0|by exists k]. Qed.

Lemma write_frame_wp fuel h wire dl s :
  (t = true -> enough fuel dl s) ->
  wpm t (write_frame fuel h wire dl) (frame_written h wire dl s) (frame_unwritten h wire dl s) s.
Proof.
  intros Hf. unfold write_frame. destruct (_ || _) eqn:Hb.
  { apply wpm_raise. left. split; [|done]. split; [done|]. intros [? ?].
    apply orb_true_iff in Hb as [?|?]; bool_to_prop; lia. }
  bool_to_prop. eapply wpm_mono; [apply write_loop_wp| |].
  - intros Ht. specialize (Hf Ht). unfold enough, MAX_MESSAGE_LENGTH in *.
    rewrite length_frame_of. lia.
  - lia.
  - intros [] s' [? ?]. by rewrite drop_0 in *.
  - intros x s' Hx. right. by rewrite drop_0 in *.
Qed.
End frames.

(** ** Properties *)

(** [remaining] is the one checkpoint of every loop.  It returns exactly the
    positive time left, and otherwise fails with [Cancelled] when shutdown was
    requested, whatever the clock says, and with [TimedOut] only once the
    deadline has been reached. *)
Theorem remaining_checks_stop_first {W X} `{EnvLaws W} dl (s : state W X) :
  wpm true (remaining dl)
    (fun left s' => left = (instant dl - clock (world s'))%Z /\ (0 < left)%Z
                    /\ own s' = own s /\ exists now, trace s' = trace s ++ [Ev Stop false; Ev Now now])
    (fun e s' => (e = cancelled_error /\ trace s' = trace s ++ [Ev Stop true])
                 \/ (e = expired_error /\ (instant dl <= clock (world s'))%Z
                     /\ exists now, trace s' = trace s ++ [Ev Stop false; Ev Now now])) s.
Proof.
  apply wpm_bind, wpm_call. intros stopped w Hs. destruct stopped; [apply wpm_raise; by left|].
  apply wpm_bind, wpm_call. cbn [world trace own]. intros now w' Hn.
  pose proof (clock_now _ _ _ Hn) as ->. rewrite <- app_assoc. cbn [app].
  destruct (_ <=? _)%Z eqn:Hle; bool_to_prop.
  - destruct (_ =? 0)%Z eqn:Hz; bool_to_prop.
    + apply wpm_raise. right. cbn [world trace]. split; [done|]. split; [lia|by eexists].
    + apply wpm_ret. cbn [world trace own]. split; [done|]. split; [lia|]. split; [done|by eexists].
  - apply wpm_raise. right. cbn [world trace]. split; [done|]. split; [lia|by eexists].
Qed.

(** C22: reading a frame terminates and accounts for every byte.  Whatever the
    chunks, timeouts and interruptions, with fuel for the time left it returns:
    a message of 12 to 65535 bytes, read before the deadline, for which exactly
    its frame was taken from the stream and nothing after it; nothing, at a
    clean end of the stream; or an error. *)
Theorem read_frame_exact {W X} `{EnvLaws W} fuel h dl (s : state W X) :
  enough fuel dl s ->
  wpm true (read_frame fuel h dl)
    (fun o s' =>
       match o with
       | Some wire => HEADER_LENGTH <= length wire
                      /\ (Z.of_nat (length wire) <= MAX_MESSAGE_LENGTH)%Z
                      /\ (clock (world s') < instant dl)%Z /\ moved h (frame_of wire) [] s s'
       | None => moved h [] [] s s'
       end)
    (fun _ s' => exists rx, moved h rx [] s s') s.
Proof.
  intros Hf. eapply wpm_mono; [apply read_frame_wp; by intros _| |].
  - intros [wire|] s'; [done|by intros [? _]].
  - intros x s' (rx & M & _). by exists rx.
Qed.

(** Two chunks that split both the prefix and the body, and a next frame. *)
Definition sample_chunks : list (list byte) :=
  [[x00]; [x0c; x01; x02; x03]; [x04; x05; x06; x07; x08; x09; x0a; x0b; x0c; x00; x0d]].

Lemma read_frame_exact_witness :
  let s := sim_start sample_chunks [] tt in
  let wire := n2b <$> seq 1 12 in
  fst (read_frame 65540 1 (MkDeadline 1) s) = Ok (Some wire)
  /\ wpm true (read_frame 65540 1 (MkDeadline 1))
    (fun o s' =>
       match o with
       | Some wire => HEADER_LENGTH <= length wire
                      /\ (Z.of_nat (length wire) <= MAX_MESSAGE_LENGTH)%Z
                      /\ (clock (world s') < 1)%Z /\ moved 1 (frame_of wire) [] s s'
       | None => moved 1 [] [] s s'
       end)
    (fun _ s' => exists rx, moved 1 rx [] s s') s.
Proof.
  split; [vm_compute; reflexivity|].
  apply (read_frame_exact 65540 1 (MkDeadline 1) (sim_start sample_chunks [] tt)).
  vm_compute. reflexivity.
Defined.

(** C23: writing a frame terminates within its deadline's fuel and sends the
    frame exactly once: on success the stream accepted the length prefix and
    the message in order, before the deadline; on an error it accepted a prefix
    of that; a message outside 12 to 65535 bytes is refused with nothing sent. *)
Theorem write_frame_exact {W X} `{EnvLaws W} fuel h wire dl (s : state W X) :
  enough fuel dl s ->
  wpm true (write_frame fuel h wire dl)
    (fun _ s' => HEADER_LENGTH <= length wire /\ (Z.of_nat (length wire) <= MAX_MESSAGE_LENGTH)%Z
                 /\ (clock (world s') < instant dl)%Z /\ moved h [] (frame_of wire) s s')
    (fun _ s' => exists k, moved h [] (take k (frame_of wire)) s s') s.
Proof.
  intros Hf. eapply wpm_mono; [apply write_frame_wp; by intros _|done|].
  intros x s'. apply frame_unwritten_moved.
Qed.

Lemma write_frame_exact_witness :
  let s := sim_start [] [] tt in
  let wire := n2b <$> seq 1 12 in
  fst (write_frame 65540 1 wire (MkDeadline 1) s) = Ok tt
  /\ wpm true (write_frame 65540 1 wire (MkDeadline 1))
    (fun _ s' => HEADER_LENGTH <= length wire /\ (Z.of_nat (length wire) <= MAX_MESSAGE_LENGTH)%Z
                 /\ (clock (world s') < 1)%Z /\ moved 1 [] (frame_of wire) s s')
    (fun _ s' => exists k, moved 1 [] (take k (frame_of wire)) s s') s.
Proof.
  split; [vm_compute; reflexivity|].
  apply (write_frame_exact 65540 1 (n2b <$> seq 1 12) (MkDeadline 1) (sim_start [] [] tt)).
  vm_compute. reflexivity.
Defined.

(** What the stream [h] delivers from [s] to [s'] are the bytes [bs], as far as it got. *)
Definition delivers {W X} (h : Handle) (bs : list byte) (s s' : state W X) : Prop :=
  received h (trace s') `prefix_of` received h (trace s) ++ bs.

(** What was put on the stream [h] from [s] to [s']. *)
Definition put_on {W X} (h : Handle) (s s' : state W X) : list byte :=
  drop (length (transmitted h (trace s))) (transmitted h (trace s')).


