(* ===== verification/Upstream.v ===== *)
(** * Exchanges with resolvers

    [src/src/upstream.rs]: one attempt over UDP or TCP, the reaction to BADCOOKIE,
    the reuse of one TCP stream and failover inside the selected group.  The
    state a worker owns is its [Forwarder]; the entropy handle is the
    environment's.

    The specification is about the calls that a run adds to the trace.  [confined]
    says where they lead: connections, datagrams and writes on streams, cached ones
    included.  [tcp_ok], [udp_ok], [attempt_ok] and their failures account for one
    exchange and one attempt, and [forwarded] for the walk over a group: every server
    given up has a reason among the calls, and is named in the log. *)

From S2P Require Import Prelude Types Name Message Cookie Net Reply Parser Body Samples Sent.
From S2P Require Import LocalReply Retry Routing Io Sim Transport.

Definition ATTEMPT_TIMEOUT : Z := 2 * SECOND.
Definition MAX_INVALID_RESPONSES : nat := 64.
Definition TCP_REUSE_IDLE : Z := 2 * SECOND.

Record CachedConnection := MkCached { cc_address : UpstreamAddress; cc_stream : nat; cc_last_used : Z }.

Record Exchange := MkExchange { ex_sent : SentQuery; ex_deadline : Deadline }.

Record Forwarder := MkForwarder { fw_tcp : option CachedConnection }.

(** [Forwarder::new], given the result of opening the entropy source. *)
Definition forwarder_new (entropy : ioresult unit) : ioresult Forwarder :=
  match entropy with inl e => inl e | inr _ => inr (MkForwarder None) end.

(** [impl From<io::Error> for ForwardError]. *)
Definition forward_error_from (e : IoError) : ForwardError :=
  if err_cancelled e then FwCancelled
  else if bool_decide (err_kind e ∈ [KTimedOut; KWouldBlock]) then FwTimeout
  else FwIo e.

Definition retries_in_group (code : ResponseCode) : bool :=
  bool_decide (code ∈ [ServerFailure; RcRefused]).

Definition from_rcode (code : ResponseCode) : ForwardError :=
  match code with RcRefused => FwRefused | _ => FwServerFailure end.

Section upstream.
Context {W : Type} `{!Env W} (fuel : nat).

(** The effects of a [Forwarder] method. *)
Local Notation Fw := (M W Forwarder ForwardError).

(** [?] on an [io::Result]. *)
Definition from_io {A} (m : M W Forwarder IoError A) : Fw A := mmap_err forward_error_from m.

(** [Forwarder::expire_idle]; [Instant::elapsed] is zero for a future instant. *)
Definition expire_idle {E} : M W Forwarder E unit :=
  let! self := mget in
  match fw_tcp self with
  | None => mret tt
  | Some connection =>
    let! now := mcall Now in
    if (TCP_REUSE_IDLE <=? Z.max 0 (now - cc_last_used connection))%Z
    then mput (MkForwarder None) else mret tt
  end.

(** [Exchange::send_over_tcp]. *)
Definition send_over_tcp (stream : nat) (ex : Exchange) : Fw Response :=
  let! _ := from_io (write_frame fuel stream (sent_wire (ex_sent ex)) (ex_deadline ex)) in
  let! bytes := from_io (read_frame fuel stream (ex_deadline ex)) in
  match bytes with
  | None => mraise FwInvalidResponse
  | Some bytes =>
    let! _ := from_io (remaining (ex_deadline ex)) in
    let! response := mlift (map_err FwParse (packet_parse bytes)) in
    let! valid := mlift (validate_response (ex_sent ex) response) in
    mlift (ok_or valid FwInvalidResponse)
  end.

(** [TcpStream::connect_timeout] with the time left. *)
Definition connect (address : UpstreamAddress) (ex : Exchange) : Fw nat :=
  let! left_ := from_io (remaining (ex_deadline ex)) in
  from_io (mio (TcpConnect (upstream_socket address) left_)).

(** [Option::filter] on the cached connection. *)
Definition matching (address : UpstreamAddress) (c : option CachedConnection)
    : option CachedConnection :=
  match c with
  | Some c => if bool_decide (cc_address c = address) then Some c else None
  | None => None
  end.

(** [Forwarder::tcp_exchange]. *)
Definition tcp_exchange (address : UpstreamAddress) (ex : Exchange) : Fw Response :=
  let! _ := expire_idle in
  let! self := mget in
  let! _ := mput (MkForwarder None) in
  let cached := matching address (fw_tcp self) in
  let reused := is_some cached in
  let! stream := match cached with
                 | Some connection => mret (cc_stream connection)
                 | None => connect address ex
                 end in
  let! _ := from_io (mio (SetNodelay stream)) in
  let! result := mtry (send_over_tcp stream ex) in
  let! (stream, result) :=
    (match result with
     | inl _ =>
       if reused then
         let! stream := connect address ex in
         let! _ := from_io (mio (SetNodelay stream)) in
         let! result := mtry (send_over_tcp stream ex) in
         mret (stream, result)
       else mret (stream, result)
     | inr _ => mret (stream, result)
     end) in
  match result with
  | inr response =>
    let! now := mcall Now in
    let! _ := mput (MkForwarder (Some (MkCached address stream now))) in
    mret response
  | inl e => mraise e
  end.

(** [Packet::parse(..).ok().and_then(|response| ..validate_response(response))]. *)
Definition accept_datagram (ex : Exchange) (bytes : list byte) : outcome ForwardError (option Response) :=
  match packet_parse bytes with
  | Ok response => validate_response (ex_sent ex) response
  | Err _ => Ok None
  | Panic => Panic
  | Diverge => Diverge
  end.

(** The [loop] of [udp_exchange]. *)
Fixpoint udp_loop (k : nat) (socket : nat) (address : UpstreamAddress) (ex : Exchange)
    (invalid_responses : nat) : Fw Response :=
  match k with
  | O => mlift Diverge
  | S k =>
    let! left_ := from_io (remaining (ex_deadline ex)) in
    let! _ := from_io (mio (SetReadTimeout socket (Z.min left_ IO_POLL))) in
    let! received := mcall (UdpRecv socket (Z.to_nat MAX_MESSAGE_LENGTH)) in
    match received with
    | inl e =>
      if transient e then udp_loop k socket address ex invalid_responses
      else mraise (forward_error_from e)
    | inr bytes =>
      let! _ := from_io (remaining (ex_deadline ex)) in
      let! truncated := mlift (sent_matches_truncated (ex_sent ex) bytes) in
      if truncated : bool then tcp_exchange address ex
      else
        let! accepted := mlift (accept_datagram ex bytes) in
        match accepted with
        | Some response => mret response
        | None =>
          let invalid_responses := S invalid_responses in
          if invalid_responses =? MAX_INVALID_RESPONSES then mraise FwInvalidResponse
          else
            let! _ := (if invalid_responses =? 1 then warn (UncorrelatedResponse address) else mret tt) in
            udp_loop k socket address ex invalid_responses
        end
    end
  end.

(** [Forwarder::udp_exchange]. *)
Definition udp_exchange (address : UpstreamAddress) (ex : Exchange) : Fw Response :=
  let! socket := from_io (mio (UdpBind (is_ipv4 (socket_ip (upstream_socket address))))) in
  let! _ := from_io (mio (UdpConnect socket (upstream_socket address))) in
  let! left_ := from_io (remaining (ex_deadline ex)) in
  let! _ := from_io (mio (SetWriteTimeout socket left_)) in
  let! _ := from_io (mio (UdpSend socket (sent_wire (ex_sent ex)))) in
  udp_loop fuel socket address ex 0.

Definition exchange (transport : Transport) (address : UpstreamAddress) (ex : Exchange) : Fw Response :=
  match transport with
  | Tcp => tcp_exchange address ex
  | Udp => udp_exchange address ex
  end.

(** [Forwarder::next_transaction_id]; [from_ne_bytes] is little-endian on the
    targets the project ships for. *)
Definition next_transaction_id : M W Forwarder IoError Z :=
  let! (b0, b1) := mio Entropy in mret (be16 b1 b0).

(** [Forwarder::retry_exchange]. *)
Definition retry_exchange (ex : Exchange) (w : list byte) : Fw Exchange :=
  let! _ := from_io (remaining (ex_deadline ex)) in
  let! id := from_io next_transaction_id in
  let! sent := mlift (map_err FwParse (sent_retry w id)) in
  mret (MkExchange sent (ex_deadline ex)).

(** [Forwarder::finish_badcookie]. *)
Definition finish_badcookie (address : UpstreamAddress) (ex : Exchange) (response : Response)
    (transport : Transport) : Fw Response :=
  let! decision := mlift (server_cookie_retry (ex_sent ex) response) in
  match decision with
  | Absent => mret response
  | Discard => mraise FwInvalidResponse
  | Current | Cookie.Tcp =>
    match transport with
    | Tcp => mret response
    | Udp =>
      let! retry := retry_exchange ex (sent_wire (ex_sent ex)) in
      tcp_exchange address retry
    end
  | Rewrite w =>
    let! retry := retry_exchange ex w in
    let! retried := exchange transport address retry in
    if bool_decide (response_rcode retried <> BadCookie) || bool_decide (transport = Tcp)
    then mret retried
    else
      let! decision := mlift (server_cookie_retry (ex_sent retry) retried) in
      let! w := (match decision with
                 | Rewrite w => mret w
                 | Current | Cookie.Tcp => mret (sent_wire (ex_sent retry))
                 | Absent | Discard => mraise FwInvalidResponse
                 end) in
      let! retry := retry_exchange retry w in
      tcp_exchange address retry
  end.

(** One pass of the loop in [forward], up to the response of this endpoint: both
    [match]es on errors treat them alike, so the exchange and the BADCOOKIE
    handling form one fallible block. *)
Definition attempt (q : Query) (transport : Transport) (address : UpstreamAddress)
    (deadline : Deadline) (id : Z) : Fw Response :=
  let! sent := mlift (query_sent q id) in
  let ex := MkExchange sent deadline in
  let! response := exchange transport address ex in
  if bool_decide (response_rcode response = BadCookie)
  then finish_badcookie address ex response transport
  else mret response.

(** The [for] over the servers of the group. *)
Fixpoint forward_loop (q : Query) (transport : Transport) (request_deadline : Deadline)
    (addresses : list UpstreamAddress) (last_error : ForwardError)
    (relayed_failure : option Response) : Fw Response :=
  match addresses with
  | [] =>
    let! _ := from_io (remaining request_deadline) in
    mlift (ok_or relayed_failure last_error)
  | address :: addresses =>
    let! deadline := deadline_capped request_deadline ATTEMPT_TIMEOUT in
    let! _ := from_io (remaining deadline) in
    let! id := from_io next_transaction_id in
    let! result := mtry (attempt q transport address deadline id) in
    match result with
    | inl FwCancelled => mraise FwCancelled
    | inl error =>
      let! _ := warn (UpstreamFailed address error) in
      forward_loop q transport request_deadline addresses error relayed_failure
    | inr response =>
      let! _ := from_io (remaining request_deadline) in
      let code := response_rcode response in
      if bool_decide (code = BadCookie) || negb (retries_in_group code) then mret response
      else
        let! _ := warn (UpstreamFailed address (from_rcode code)) in
        forward_loop q transport request_deadline addresses (from_rcode code) (Some response)
    end
  end.

(** [Forwarder::forward]. *)
Definition forward (q : Query) (upstreams : UpstreamGroup) (transport : Transport)
    (request_deadline : Deadline) : Fw Response :=
  forward_loop q transport request_deadline (servers upstreams) FwTimeout None.
End upstream.

(** ** What exchanges do to the world *)

Section did.
Context {W : Type} `{EnvLaws W} {X : Type}.
Implicit Types s : state W X.

(** From [s] to [s'] exactly the endpoints [l] were contacted, in this order. *)
Record did (l : list SocketAddr) s s' : Prop := {
  did_clock : (clock (world s) <= clock (world s'))%Z;
  did_trace : trace s `prefix_of` trace s';
  did_contacted : contacted (trace s') = contacted (trace s) ++ l
}.

Lemma did_refl s : did [] s s.
Proof. split; [lia|done|by rewrite app_nil_r]. Qed.

Lemma did_trans l1 l2 s1 s2 s3 : did l1 s1 s2 -> did l2 s2 s3 -> did (l1 ++ l2) s1 s3.
Proof. intros [C1 P1 K1] [C2 P2 K2]. split; [lia|by etrans|]. by rewrite K2, K1, app_assoc. Qed.

Lemma did_then l s1 s2 s3 : did [] s1 s2 -> did l s2 s3 -> did l s1 s3.
Proof. apply did_trans. Qed.

Lemma did_moved h rx tx s s' : moved h rx tx s s' -> did [] s s'.
Proof.
  intros M. split; [apply M|by eapply mv_trace|]. by rewrite app_nil_r, (mv_contacted _ _ _ _ _ M).
Qed.

Lemma did_call {R} (e : Sys R) r w s :
  env_step e (world s) = (r, w) ->
  did (contacted1 (Ev e r)) s (MkIo w (trace s ++ [Ev e r]) (own s)).
Proof. intros He. split; [by eapply clock_mono|by apply prefix_app_r|apply contacted_snoc]. Qed.

Lemma did_own l s s' x : did l s s' -> did l s (MkIo (world s') (trace s') x).
Proof. by intros []. Qed.

Lemma enough_clock fuel dl dl' s s' :
  (clock (world s) <= clock (world s'))%Z -> (instant dl' <= instant dl)%Z ->
  enough fuel dl s -> enough fuel dl' s'.
Proof. unfold enough, ticks. lia. Qed.
End did.

(** ** Whom requests reach

    A request leaves on a stream or a socket.  It reaches [a] when that was opened to
    [a], or is the stream cached for [a]. *)

(** The stream or socket a call sends on. *)
Definition writes_to (ev : event) : option Handle :=
  let 'Ev e _ := ev in match e with Write h _ | UdpSend h _ => Some h | _ => None end.

(** The call opened [h] to [a]. *)
Definition opens (a : UpstreamAddress) (h : Handle) (ev : event) : Prop :=
  let 'Ev e r := ev in
  match e in Sys R return R -> Prop with
  | TcpConnect a' _ => fun r => a' = upstream_socket a /\ r = inr h
  | UdpConnect h' a' => fun r => h' = h /\ a' = upstream_socket a /\ r = inr tt
  | _ => fun _ => False
  end r.

(** With [c] cached before the calls [l], [h] leads to an endpoint of [A]. *)
Definition bound (A : UpstreamAddress -> Prop) (c : option CachedConnection) (l : list event) (h : Handle) : Prop :=
  exists a, A a /\ ((exists ev, ev ∈ l /\ opens a h ev)
                    \/ exists c', c = Some c' /\ cc_address c' = a /\ cc_stream c' = h).

(** The calls [l] stay among the endpoints of [A]: only those are contacted, everything
    is sent on what leads to one of them, and a stream cached afterwards was cached
    before, or leads to the endpoint in [A] it is cached for. *)
Record confined (A : UpstreamAddress -> Prop) (c : option CachedConnection) (l : list event)
    (c' : option CachedConnection) : Prop := {
  cf_contacted : Forall (fun s => exists a, A a /\ upstream_socket a = s) (contacted l);
  cf_sent l1 ev l2 h : l = l1 ++ ev :: l2 -> writes_to ev = Some h -> bound A c l1 h;
  cf_cached c1 : c' = Some c1 -> c = Some c1 \/ A (cc_address c1) /\ bound (eq (cc_address c1)) c l (cc_stream c1)
}.

Lemma bound_mono (A A' : UpstreamAddress -> Prop) c l l' h :
  (forall a, A a -> A' a) -> bound A c l h -> bound A' c (l ++ l') h.
Proof.
  intros HA (a & Ha & Hb). exists a. split; [by apply HA|]. destruct Hb as [(ev & Hin & Ho)|Hc]; [left|by right].
  exists ev. split; [apply elem_of_app; by left|done].
Qed.

Lemma confined_nil A c : confined A c [] c.
Proof. split; [constructor|by intros [] ? ? ?|by left]. Qed.

Lemma confined_mono (A A' : UpstreamAddress -> Prop) c l c' :
  (forall a, A a -> A' a) -> confined A c l c' -> confined A' c l c'.
Proof.
  intros HA [Hc Hs Hd]. split.
  - eapply Forall_impl; [exact Hc|]. intros s (a & Ha & Hs'). exists a. auto.
  - intros l1 ev l2 h Hl Hw. rewrite <- (app_nil_r l1). eapply bound_mono; [exact HA|by eapply Hs].
  - intros c1 [?|[? ?]]%Hd; [by left|right; auto].
Qed.

(** What is bound after the first calls is bound from the start. *)
Lemma bound_trans A c l c1 l' h : confined A c l c1 -> bound A c1 l' h -> bound A c (l ++ l') h.
Proof.
  intros Hc (a & Ha & [(ev & Hin & Ho)|(c' & -> & Hca & Hch)]).
  - exists a. split; [done|]. left. exists ev. split; [apply elem_of_app; by right|done].
  - destruct (cf_cached _ _ _ _ Hc c' eq_refl) as [->|[_ Hb]].
    + exists a. split; [done|]. right. by exists c'.
    + rewrite <- Hch. eapply bound_mono; [|exact Hb]. intros a' <-. by rewrite Hca.
Qed.

Lemma confined_app A c l c1 l' c2 : confined A c l c1 -> confined A c1 l' c2 -> confined A c (l ++ l') c2.
Proof.
  intros H1 H2. pose proof H1 as [Hc Hs Hd]. pose proof H2 as [Hc' Hs' Hd']. split.
  - rewrite contacted_app. by apply Forall_app.
  - intros l1 ev l2 h Hl Hw. apply app_eq_app in Hl as (k & [[-> Hk]|[-> Hk]]).
    + destruct k as [|ev' k]; cbn in Hk.
      * rewrite app_nil_r in H1. rewrite <- (app_nil_r l1). eapply bound_trans; [exact H1|by eapply (Hs' [])].
      * injection Hk as -> ->. by eapply Hs.
    + eapply bound_trans; [done|]. by eapply Hs'.
  - intros c3 Hc3. destruct (Hd' c3 Hc3) as [->|[Ha Hb]].
    + destruct (Hd c3 eq_refl) as [?|[? Hb]]; [by left|right]. split; [done|]. eapply bound_mono; [|done]. done.
    + right. split; [done|]. destruct Hb as (a & <- & [(ev & Hin & Ho)|(c' & -> & Hca & Hch)]).
      * exists (cc_address c3). split; [done|]. left. exists ev. split; [apply elem_of_app; by right|done].
      * destruct (Hd c' eq_refl) as [->|[_ Hb]]; [exists (cc_address c3); split; [done|]; right; by exists c'|].
        rewrite <- Hca, <- Hch. eapply bound_mono; [|done]. done.
Qed.

(** More calls that contact only [A] and send only on what leads there. *)
Lemma confined_more A c l c' l' :
  confined A c l c' ->
  Forall (fun ev => Forall (fun s => exists a, A a /\ upstream_socket a = s) (contacted1 ev)
                    /\ forall h, writes_to ev = Some h -> bound A c l h) l' ->
  confined A c (l ++ l') c'.
Proof.
  intros [Hc Hs Hd] Hl. split.
  - rewrite contacted_app. apply Forall_app. split; [done|]. clear - Hl.
    induction Hl as [|ev l' [Hev _] _ IH]; [constructor|]. unfold contacted. rewrite bind_cons. by apply Forall_app.
  - intros l1 ev l2 h He Hw. apply app_eq_app in He as (k & [[-> Hk]|[-> Hk]]).
    + destruct k as [|ev' k]; cbn in Hk.
      * subst l'. rewrite app_nil_r in Hl. apply Forall_cons in Hl as [[_ Hb] _]. by apply Hb.
      * injection Hk as -> ->. by eapply Hs.
    + subst l'. apply Forall_app in Hl as [_ Hl]. apply Forall_cons in Hl as [[_ Hb] _].
      eapply bound_mono; [|by apply Hb]. done.
  - intros c1 [?|[? ?]]%Hd; [by left|right]. split; [done|]. eapply bound_mono; [|done]. done.
Qed.

(** The lines of the log from [s] to [s']. *)
Definition logged {W X Y} (ws : list Warning) (s : state W X) (s' : state W Y) : Prop :=
  exists l, trace s' = trace s ++ l /\ warned l = ws.

Lemma logged_app {W X Y Z} ws ws' (s1 : state W X) (s2 : state W Y) (s3 : state W Z) :
  logged ws s1 s2 -> logged ws' s2 s3 -> logged (ws ++ ws') s1 s3.
Proof.
  intros (l & L & <-) (l' & L' & <-). exists (l ++ l'). by rewrite L', L, app_assoc, warned_app.
Qed.

(** The datagrams received on the socket [h]. *)
Definition datagrams1 (h : Handle) (ev : event) : list (list byte) :=
  let 'Ev e r := ev in
  match e in Sys R return R -> list (list byte) with
  | UdpRecv h' _ => fun r => match r with inr bs => if h =? h' then [bs] else [] | inl _ => [] end
  | _ => fun _ => []
  end r.
Definition datagrams (h : Handle) (tr : list event) : list (list byte) := tr ≫= datagrams1 h.

(** Nobody is contacted, nothing is sent, no datagram received, and the log is silent. *)
Definition quiet (ev : event) : Prop :=
  contacted1 ev = [] /\ writes_to ev = None /\ warned1 ev = [] /\ forall h, datagrams1 h ev = [].

Section makes.
Context {W : Type} `{EnvLaws W} {X : Type}.
Implicit Types s : state W X.

(** Calls that leave the caller's state as it is. *)
Definition makes (ok : event -> Prop) s s' : Prop :=
  (clock (world s) <= clock (world s'))%Z /\ own s' = own s /\ exists l, trace s' = trace s ++ l /\ Forall ok l.
Definition idle : state W X -> state W X -> Prop := makes quiet.

Lemma makes_refl ok s : makes ok s s.
Proof. split; [done|]. split; [done|]. exists []. by rewrite app_nil_r. Qed.
Lemma makes_trans ok s1 s2 s3 : makes ok s1 s2 -> makes ok s2 s3 -> makes ok s1 s3.
Proof.
  intros (C1 & O1 & l1 & L1 & F1) (C2 & O2 & l2 & L2 & F2). split; [lia|]. split; [congruence|].
  exists (l1 ++ l2). by rewrite L2, L1, app_assoc, Forall_app.
Qed.
Lemma makes_call {R} ok (e : Sys R) r w s :
  env_step e (world s) = (r, w) -> ok (Ev e r) -> makes ok s (MkIo w (trace s ++ [Ev e r]) (own s)).
Proof.
  intros He Ho. split; [by eapply clock_mono|]. split; [done|]. exists [Ev e r]. split; [done|by repeat constructor].
Qed.
Lemma makes_spans ok s s' : makes ok s s' -> spans s s'.
Proof. intros (C & _ & l & L & _). split; [done|by exists l]. Qed.
Lemma makes_moved h rx tx s s' : moved h rx tx s s' -> makes (about h) s s'.
Proof. intros [C L O _ _]. by split. Qed.

(** A checkpoint concerns no stream. *)
Lemma idle_moved s s' : (forall h, moved h [] [] s s') -> idle s s'.
Proof.
  intros M. destruct (M 0) as [C (l & L & F0) O _ _]. destruct (M 1) as [_ (l' & L' & F1) _ _ _].
  rewrite L in L'. apply app_inv_head in L' as <-. split; [done|]. split; [done|]. exists l. split; [done|].
  apply Forall_forall. intros [R e r] Hin. pose proof (proj1 (Forall_forall _ _) F0 _ Hin) as A0.
  pose proof (proj1 (Forall_forall _ _) F1 _ Hin) as A1. destruct e; cbn in *; try done; congruence.
Qed.

Lemma idle_logged s s' : idle s s' -> logged [] s s'.
Proof.
  intros (_ & _ & l & L & F). exists l. split; [done|]. apply (bind_none _ quiet); [|done]. by intros ev (_ & _ & ? & _).
Qed.
Lemma idle_datagrams h s s' : idle s s' -> datagrams h (trace s') = datagrams h (trace s).
Proof.
  intros (_ & _ & l & -> & F). unfold datagrams. rewrite bind_app, (bind_none (datagrams1 h) quiet l), app_nil_r; [done| |done].
  by intros ev (_ & _ & _ & ?).
Qed.
End makes.

Section only.
Context {W : Type} `{EnvLaws W}.
Implicit Types (a : UpstreamAddress) (s : state W Forwarder).

(** From [s] to [s'] at most [n] contacts and nothing sent elsewhere than to [a], and at
    most [m] lines in the log, all about what was ignored from [a]. *)
Record only a (n m : nat) s s' : Prop := {
  on_clock : (clock (world s) <= clock (world s'))%Z;
  on_calls : exists l, trace s' = trace s ++ l /\ confined (eq a) (fw_tcp (own s)) l (fw_tcp (own s'))
                       /\ length (contacted l) <= n
                       /\ exists k, k <= m /\ warned l = repeat (UncorrelatedResponse a) k
}.

Lemma on_spans a n m s s' : only a n m s s' -> spans s s'.
Proof. intros [C (l & L & _)]. split; [done|by exists l]. Qed.

Lemma only_refl a s : only a 0 0 s s.
Proof.
  split; [done|]. exists []. rewrite app_nil_r. split; [done|]. split; [apply confined_nil|]. split; [done|by exists 0].
Qed.

Lemma only_mono a n m n' m' s s' : n <= n' -> m <= m' -> only a n m s s' -> only a n' m' s s'.
Proof.
  intros Hn Hm [C (l & L & K & N & k & Hk & Hw)]. split; [done|]. exists l. split; [done|]. split; [done|].
  split; [lia|]. exists k. split; [lia|done].
Qed.

Lemma only_trans a n m n' m' s1 s2 s3 :
  only a n m s1 s2 -> only a n' m' s2 s3 -> only a (n + n') (m + m') s1 s3.
Proof.
  intros [C1 (l1 & L1 & K1 & N1 & k1 & H1 & W1)] [C2 (l2 & L2 & K2 & N2 & k2 & H2 & W2)]. split; [lia|].
  exists (l1 ++ l2). split; [by rewrite L2, L1, app_assoc|]. split; [by eapply confined_app|].
  rewrite contacted_app, warned_app, length_app. split; [lia|].
  exists (k1 + k2). split; [lia|]. by rewrite W1, W2, repeat_app.
Qed.

Lemma only_compose a n m n' m' N M s1 s2 s3 :
  only a n m s1 s2 -> only a n' m' s2 s3 -> n + n' <= N -> m + m' <= M -> only a N M s1 s3.
Proof. intros H1 H2 ? ?. eapply only_mono; [..|by eapply only_trans]; done. Qed.

(** [h] leads to [a] by the time of [s']. *)
Definition leads_to a s s' h : Prop := exists l, trace s' = trace s ++ l /\ bound (eq a) (fw_tcp (own s)) l h.

Lemma leads_to_later a s s1 s2 h : trace s1 `prefix_of` trace s2 -> leads_to a s s1 h -> leads_to a s s2 h.
Proof.
  intros [l2 L2] (l & L & Hb). exists (l ++ l2). split; [by rewrite L2, L, app_assoc|]. by eapply bound_mono.
Qed.

(** More calls to the same endpoint. *)
Lemma only_makes a n m s s1 s2 :
  only a n m s s1 ->
  makes (fun ev => contacted1 ev = [] /\ warned1 ev = [] /\ forall h, writes_to ev = Some h -> leads_to a s s1 h) s1 s2 ->
  only a n m s s2.
Proof.
  intros [C (l & L & K & N & k & Hk & Hw)] (C' & O' & l' & L' & F). split; [lia|]. exists (l ++ l').
  split; [by rewrite L', L, app_assoc|]. rewrite O'.
  assert (contacted l' = []) as Hc by (eapply (bind_none contacted1); [|exact F]; by intros ev [? _]).
  assert (warned l' = []) as Hl by (eapply (bind_none warned1); [|exact F]; by intros ev (_ & ? & _)).
  split; [|rewrite contacted_app, warned_app, Hc, Hl, !app_nil_r; eauto].
  apply confined_more; [done|]. eapply Forall_impl; [exact F|]. intros ev (-> & _ & Hb). split; [constructor|].
  intros h (l0 & L0 & Hbd)%Hb. rewrite L in L0. by apply app_inv_head in L0 as <-.
Qed.

Lemma only_idle a n m s s1 s2 : only a n m s s1 -> idle s1 s2 -> only a n m s s2.
Proof.
  intros Ho (C & O & l & L & F). apply (only_makes a n m s s1); [done|]. split; [done|]. split; [done|].
  exists l. split; [done|]. eapply Forall_impl; [exact F|]. by intros ev (? & -> & ? & _).
Qed.

Lemma idle_only a s s' : idle s s' -> only a 0 0 s s'.
Proof. intros Hi. by eapply only_idle; [apply only_refl|]. Qed.

Lemma only_moved a n m s s1 s2 h rx tx :
  only a n m s s1 -> leads_to a s s1 h -> moved h rx tx s1 s2 -> only a n m s s2.
Proof.
  intros Ho Hb (C & O & l & L & F)%makes_moved. apply (only_makes a n m s s1); [done|]. split; [done|]. split; [done|].
  exists l. split; [done|]. eapply Forall_impl; [exact F|]. intros [R e r] Ha. destruct e; try done;
    (split; [done|]; split; [done|]; cbn; intros ? [= <-]; by rewrite Ha).
Qed.

Lemma only_contact {R} a n m s s1 (e : Sys R) r w :
  only a n m s s1 -> env_step e (world s1) = (r, w) -> contacted1 (Ev e r) = [upstream_socket a] ->
  writes_to (Ev e r) = None -> warned1 (Ev e r) = [] ->
  only a (S n) m s (MkIo w (trace s1 ++ [Ev e r]) (own s1)).
Proof.
  intros [C (l & L & K & N & k & Hk & Hw)] He Hc Hs Hl. split.
  { pose proof (clock_mono _ _ _ _ _ He). cbn. lia. }
  exists (l ++ [Ev e r]). cbn [trace own]. split; [by rewrite L, app_assoc|]. split.
  - apply confined_more; [done|]. constructor; [|done]. rewrite Hc, Hs. split; [|done].
    constructor; [by exists a|constructor].
  - rewrite contacted_snoc, warned_snoc, Hc, Hl, length_app, app_nil_r. split; [simpl; lia|by exists k].
Qed.

Lemma only_opened {R} a s s1 (e : Sys R) r w h :
  spans s s1 -> opens a h (Ev e r) -> leads_to a s (MkIo w (trace s1 ++ [Ev e r]) (own s1)) h.
Proof.
  intros [_ [l L]] Ho. exists (l ++ [Ev e r]). cbn [trace]. split; [by rewrite L, app_assoc|].
  exists a. split; [done|]. left. exists (Ev e r). split; [apply elem_of_app; right; by left|done].
Qed.

Lemma only_dropped a n m s s' : only a n m s s' -> only a n m s (MkIo (world s') (trace s') (MkForwarder None)).
Proof. intros [C (l & L & [Kc Ks _] & N)]. split; [done|]. exists l. split; [done|]. by split. Qed.

Lemma only_cached a n m s s' h now :
  only a n m s s' -> leads_to a s s' h ->
  only a n m s (MkIo (world s') (trace s') (MkForwarder (Some (MkCached a h now)))).
Proof.
  intros [C (l & L & [Kc Ks _] & N)] (l' & L' & Hb). rewrite L in L'. apply app_inv_head in L' as <-.
  split; [done|]. exists l. split; [done|]. split; [|done]. split; [done|done|]. cbn. intros c1 [= <-]. by right.
Qed.
End only.

(** ** What an exchange hears *)

Definition ex_ok (ex : Exchange) : Prop :=
  packet_parse (sent_wire (ex_sent ex)) = Ok (sent_packet (ex_sent ex)).

(** [r] is a response to the query as sent, correlated by [accepts]. *)
Record accepted (ex : Exchange) (r : Response) : Prop := {
  acc_sent : sent_wf (ex_sent ex);
  acc_response : accepts (ex_sent ex) (response_packet r);
  acc_parses : packet_parse (response_wire r) = Ok (response_packet r)
}.

Lemma accepted_wf ex r : accepted ex r -> packet_wf (response_packet r).
Proof. intros []. by apply (packet_parse_Ok (response_wire r)). Qed.

(** What is received does not answer the query. *)
Definition unacceptable (ex : Exchange) (bytes : list byte) : Prop :=
  forall p, packet_parse bytes = Ok p -> ~ (sent_wf (ex_sent ex) /\ accepts (ex_sent ex) p).

Section heard.
Context {W : Type} `{EnvLaws W}.
Implicit Types s : state W Forwarder.

(** The query was written on the stream [h], and then the response read from it. *)
Definition conversed (h : Handle) (ex : Exchange) (r : Response) s s' : Prop :=
  exists s1, moved h [] (frame_of (sent_wire (ex_sent ex))) s s1 /\ moved h (frame_of (response_wire r)) [] s1 s'.

(** The response came from where the query was sent before. *)
Inductive heard (ex : Exchange) (r : Response) s s' : Prop :=
| heard_tcp h s1 s2 :
    trace s `prefix_of` trace s1 -> conversed h ex r s1 s2 -> trace s2 `prefix_of` trace s' -> heard ex r s s'
| heard_udp h n k l1 l2 l3 :
    trace s' = trace s ++ l1 ++ Ev (UdpSend h (sent_wire (ex_sent ex))) (inr k)
                 :: l2 ++ Ev (UdpRecv h n) (inr (response_wire r)) :: l3 ->
    heard ex r s s'.

Lemma heard_within ex r s0 s1 s2 s3 : spans s0 s1 -> heard ex r s1 s2 -> spans s2 s3 -> heard ex r s0 s3.
Proof.
  intros H1 [h s1' s2' Ha Hc Hb|h n k l1 l2 l3 Hl] H3.
  - eapply heard_tcp; [by etrans; [apply H1|]|done|by etrans; [|apply H3]].
  - destruct H1 as [_ [l L]], H3 as [_ [l' L']]. apply (heard_udp ex r s0 s3 h n k (l ++ l1) l2 (l3 ++ l')).
    rewrite L', Hl, L. by rewrite <- !app_assoc, <- !app_comm_cons, <- !app_assoc, <- !app_comm_cons.
Qed.

(** Between [s] and [s'] the frame of [bytes] was taken from a stream. *)
Definition took (bytes : list byte) s s' : Prop :=
  exists h s1 s2, trace s `prefix_of` trace s1 /\ moved h (frame_of bytes) [] s1 s2 /\ trace s2 `prefix_of` trace s'.

(** Between [s] and [s'] the socket received these datagrams, one after the other. *)
Definition received_datagrams (ds : list (list byte)) s s' : Prop :=
  exists h s1 s2, trace s `prefix_of` trace s1 /\ datagrams h (trace s2) = datagrams h (trace s1) ++ ds
    /\ trace s2 `prefix_of` trace s'.

(** Why an exchange fails: its time is over or a call failed; the other side hung up,
    took nothing, or sent a frame too short for a message; the query is too long for a
    frame; or what came was no message, or not the response, 64 times over UDP. *)
Inductive fault (ex : Exchange) : ForwardError -> state W Forwarder -> state W Forwarder -> Prop :=
| fa_interrupted x s s' : interrupted (ex_deadline ex) x s s' -> fault ex (forward_error_from x) s s'
| fa_hung_up h e s s' :
    hung_up h s s' ->
    e ∈ [FwInvalidResponse; FwIo (own_error KUnexpectedEof PartialFrame); FwIo (own_error KUnexpectedEof MissingBody)] ->
    fault ex e s s'
| fa_stuck h bs s s' :
    seen (Ev (Write h bs) (inr 0)) s s' -> fault ex (FwIo (own_error KWriteZero WroteZero)) s s'
| fa_short h n s s1 s2 s' :
    trace s `prefix_of` trace s1 -> moved h (to_be16 n) [] s1 s2 -> (0 <= n < 12)%Z -> trace s2 `prefix_of` trace s' ->
    fault ex (FwIo (own_error KInvalidData ShortFrame)) s s'
| fa_long s s' :
    (MAX_MESSAGE_LENGTH < Z.of_nat (length (sent_wire (ex_sent ex))))%Z ->
    fault ex (FwIo (own_error KInvalidInput BadFrameLength)) s s'
| fa_garbled bytes e s s' : took bytes s s' -> packet_parse bytes = Err e -> fault ex (FwParse e) s s'
| fa_rejected bytes p s s' :
    took bytes s s' -> packet_parse bytes = Ok p -> unacceptable ex bytes -> fault ex FwInvalidResponse s s'
| fa_flooded ds s s' :
    received_datagrams ds s s' -> length ds = MAX_INVALID_RESPONSES -> Forall (unacceptable ex) ds ->
    fault ex FwInvalidResponse s s'.

Lemma out_of_time_before dl x s1 s2 s3 : out_of_time (X:=Forwarder) dl x s1 s2 -> spans s2 s3 -> out_of_time dl x s1 s3.
Proof.
  intros [[-> Hs]|[-> Hc]] [C P]; [left|right; split; [done|lia]]. split; [done|]. by eapply seen_before.
Qed.

Lemma interrupted_within dl x s0 s1 s2 s3 :
  spans s0 s1 -> interrupted (X:=Forwarder) dl x s1 s2 -> spans s2 s3 -> interrupted dl x s0 s3.
Proof.
  intros [_ P] [Ho|Hc] H3.
  - left. eapply out_of_time_after; [done|]. by eapply out_of_time_before.
  - right. eapply failed_call_after; [done|]. eapply failed_call_before; [done|apply H3].
Qed.

Lemma fault_within ex e s0 s1 s2 s3 : spans s0 s1 -> fault ex e s1 s2 -> spans s2 s3 -> fault ex e s0 s3.
Proof.
  intros H1 Hf H3. revert H1 H3.
  assert (forall a b c : state W Forwarder, spans a b -> trace b `prefix_of` trace c -> trace a `prefix_of` trace c) as Ht1
    by (intros a b c [_ ?] ?; by etrans).
  assert (forall a b c : state W Forwarder, trace a `prefix_of` trace b -> spans b c -> trace a `prefix_of` trace c) as Ht2
    by (intros a b c ? [_ ?]; by etrans).
  destruct Hf as [x s s' Hi|h e s s' [n Hh] He|h bs s s' Hs|h n s s1' s2' s' Ha Hm Hn Hb|s s' Hl
    |bytes e s s' (h & s1' & s2' & Ha & Hm & Hb) Hp|bytes p s s' (h & s1' & s2' & Ha & Hm & Hb) Hp Hu
    |ds s s' (h & s1' & s2' & Ha & Hd & Hb) Hl Hu]; intros H1 H3.
  - eapply fa_interrupted. by eapply interrupted_within.
  - eapply fa_hung_up; [|done]. exists n. eapply seen_after; [apply H1|]. eapply seen_before; [done|apply H3].
  - eapply fa_stuck. eapply seen_after; [apply H1|]. eapply seen_before; [done|apply H3].
  - eapply (fa_short ex h n s0 s1' s2' s3); by eauto.
  - by eapply fa_long.
  - eapply fa_garbled; [|done]. exists h, s1', s2'. by eauto.
  - eapply fa_rejected; [|done|done]. exists h, s1', s2'. by eauto.
  - eapply fa_flooded; [|done|done]. exists h, s1', s2'. by eauto.
Qed.

Lemma interrupted_cancelled dl x s s' :
  interrupted (X:=Forwarder) dl x s s' -> forward_error_from x = FwCancelled -> stopped s s'.
Proof.
  intros [[[-> ?]|[-> _]]|[Hc _]] Hx; [done|done|]. unfold forward_error_from in Hx. rewrite Hc in Hx.
  by destruct (bool_decide _).
Qed.

(** Only the stop flag cancels. *)
Lemma fault_cancelled ex e s s' : fault ex e s s' -> e = FwCancelled -> stopped s s'.
Proof.
  intros Hf. destruct Hf as [x s s' Hi|h e s s' _ He|h bs s s' _|h n s s1' s2' s' _ _ _ _|s s' _
    |bytes e s s' _ _|bytes p s s' _ _ _|ds s s' _ _ _]; try done.
  - by eapply interrupted_cancelled.
  - intros ->. rewrite !elem_of_cons in He. destruct He as [?|[?|[?|He]]]; try done. by apply elem_of_nil in He.
Qed.
End heard.

(** What trying a server gives, and what [forward] returns. *)
Notation verdict := (ForwardError + Response)%type.

Section upstream_wp.
Context {W : Type} `{EnvLaws W} (fuel : nat) (t : bool).
Implicit Types s : state W Forwarder.

Definition fueled (dl : Deadline) s : Prop := t = true -> enough fuel dl s.

Lemma fueled_clock dl dl' s s' :
  (clock (world s) <= clock (world s'))%Z -> (instant dl' <= instant dl)%Z ->
  fueled dl s -> fueled dl' s'.
Proof. intros Hc Hd Hf Ht. eapply enough_clock; eauto. Qed.

Lemma fueled_spans dl s s' : spans s s' -> fueled dl s -> fueled dl s'.
Proof. intros [Hc _]. by apply fueled_clock. Qed.

Lemma remaining_idle dl (P : Z -> state W Forwarder -> Prop) Q s :
  (forall s' left_, idle s s' -> (clock (world s') < instant dl)%Z -> P left_ s') ->
  (forall x s', idle s s' -> out_of_time dl x s s' -> Q (forward_error_from x) s') ->
  wpm t (from_io (remaining dl)) P Q s.
Proof.
  intros HP HQ. apply wpm_map_err, remaining_wp.
  - intros s' Hm Hc. apply HP; [by apply idle_moved|done].
  - intros x s' Hm Ho. apply HQ; [by apply idle_moved|done].
Qed.

(** A call that is quiet, followed by [?]. *)
Lemma io_idle {R} (e : Sys (ioresult R)) (P : R -> state W Forwarder -> Prop) Q s :
  (forall r, quiet (Ev e r)) -> (forall r, fatal_error (Ev e r) = failure r) ->
  (forall a s', idle s s' -> trace s' = trace s ++ [Ev e (inr a)] -> P a s') ->
  (forall x s', idle s s' -> failed_call x s s' -> Q (forward_error_from x) s') ->
  wpm t (from_io (mio e)) P Q s.
Proof.
  intros Hc Hx HP HQ. apply wpm_map_err, wpm_io.
  - intros a w Hw. apply HP; [by apply (makes_call quiet e)|done].
  - intros x w Hw. apply HQ; [by apply (makes_call quiet e)|]. eapply failed_call_last; [done|by rewrite Hx].
Qed.

(** A response that was parsed is accepted, or it is not one to this query. *)
Lemma validate_lift ex bytes response (P : option Response -> state W Forwarder -> Prop)
    (Q : ForwardError -> state W Forwarder -> Prop) s :
  ex_ok ex -> packet_parse bytes = Ok response ->
  (unacceptable ex bytes -> P None s) -> (forall r, accepted ex r -> response_wire r = bytes -> P (Some r) s) ->
  wpm t (mlift (validate_response (ex_sent ex) response)) P Q s.
Proof.
  intros He Hp HN HS. pose proof (packet_parse_Ok _ _ Hp) as [Hr Hw].
  destruct (validate_response_any (E:=ForwardError) _ response He Hr) as (o & Ho & Hx).
  unfold wpm, mlift. rewrite Ho. destruct o as [r|].
  - destruct (Hx r eq_refl) as (Hrp & Hs & Ha). assert (response_wire r = bytes) as Hb by (unfold response_wire; by rewrite Hrp).
    apply HS; [|done]. split; [done|by rewrite Hrp|]. by rewrite Hb, Hrp.
  - apply HN. intros p' Hp' [Hs Ha]. rewrite Hp in Hp'. injection Hp' as <-.
    destruct (validate_response_spec (E:=ForwardError) _ response Hs Hr) as (o & Ho' & [[-> ?]|[-> ?]]); congruence.
Qed.

(** What [Exchange::send_over_tcp] promises on its stream. *)
Definition unanswered_on (h : Handle) (ex : Exchange) s (e : ForwardError) s' : Prop :=
  (exists rx tx, moved h rx tx s s') /\ fault ex e s s'.

Lemma write_fault_faults ex h x s s' :
  write_fault h (ex_deadline ex) x s s' -> fault ex (forward_error_from x) s s'.
Proof. intros [?|bs -> ?]; [by apply fa_interrupted|by eapply fa_stuck]. Qed.

Lemma read_fault_faults ex h x s s' :
  read_fault h (ex_deadline ex) x s s' -> fault ex (forward_error_from x) s s'.
Proof.
  intros [?| -> ?| -> ?]; [by apply fa_interrupted|eapply fa_hung_up; [done|by repeat first [by left|right]]..].
Qed.

Lemma write_frame_unanswered ex h x s s' :
  ex_ok ex -> frame_unwritten h (sent_wire (ex_sent ex)) (ex_deadline ex) s x s' ->
  unanswered_on h ex s (forward_error_from x) s'.
Proof.
  intros Hok Hx. split; [apply frame_unwritten_moved in Hx as [k ?]; by eexists _, _|].
  destruct Hx as [[[-> Hl] ->]|[Hf _]]; [|by eapply write_fault_faults].
  apply fa_long. apply packet_parse_Ok in Hok as [Hok _]. apply pw_header, header_parse_Ok in Hok as [Hlen _].
  unfold HEADER_LENGTH, sent_wire in *. lia.
Qed.

Lemma read_frame_unanswered ex h x s s' :
  frame_unread h (ex_deadline ex) s x s' -> unanswered_on h ex s (forward_error_from x) s'.
Proof.
  intros (rx & M & [Hf|(-> & n & Hn & ->)] & _); (split; [by eexists _, _|]); [by eapply read_fault_faults|].
  by eapply (fa_short ex h n s s s' s').
Qed.

Lemma unanswered_on_after h rx tx ex s1 s2 e s3 :
  moved h rx tx s1 s2 -> unanswered_on h ex s2 e s3 -> unanswered_on h ex s1 e s3.
Proof.
  intros M [(rx' & tx' & M') Hf]. split; [exists (rx ++ rx'), (tx ++ tx'); by eapply moved_trans|].
  eapply fault_within; [by eapply mv_spans|done|done].
Qed.

Lemma send_over_tcp_wp h ex s :
  fueled (ex_deadline ex) s -> ex_ok ex ->
  wpm t (send_over_tcp fuel h ex) (fun r s' => conversed h ex r s s' /\ accepted ex r) (unanswered_on h ex s) s.
Proof.
  intros Hf Hok. apply wpm_bind, wpm_map_err.
  eapply wpm_mono; [by apply write_frame_wp| |intros x s1; by apply write_frame_unanswered].
  intros [] s1 (_ & _ & _ & M1). pose proof (mv_spans _ _ _ _ _ M1) as S1.
  assert (forall e s', unanswered_on h ex s1 e s' -> unanswered_on h ex s e s') as Hback
    by (intros e s'; by apply (unanswered_on_after h _ _ _ _ _ _ _ M1)).
  apply wpm_bind, wpm_map_err.
  eapply wpm_mono; [by apply read_frame_wp; eapply fueled_spans| |intros x s2 Hx; by apply Hback, read_frame_unanswered].
  intros [bytes|] s2 H2; cycle 1.
  { destruct H2 as [M2 Hh]. apply wpm_raise, Hback. split; [by eexists _, _|]. eapply fa_hung_up; [done|by repeat first [by left|right]]. }
  destruct H2 as (_ & _ & _ & M2). pose proof (mv_spans _ _ _ _ _ M2) as S2.
  assert (forall e s', (exists rx tx, moved h rx tx s1 s') -> fault ex e s1 s' -> unanswered_on h ex s e s') as Hfail
    by (intros e s' ? ?; by apply Hback).
  apply wpm_bind, wpm_map_err, remaining_wp.
  2: { intros x s3 M3 Ho. apply Hfail; [eexists _, _; by eapply moved_trans|]. apply fa_interrupted. left.
       by eapply out_of_time_after; [apply S2|]. }
  intros s3 M3 _. specialize (M3 h). pose proof (moved_trans _ _ _ _ _ _ _ _ M2 M3) as M23. rewrite !app_nil_r in M23.
  assert (took bytes s1 s3) as Htook
    by (exists h, s1, s2; split; [done|]; split; [done|by eapply mv_trace]).
  apply wpm_bind, wpm_lift.
  { apply wp_map_err. eapply wp_mono; [apply packet_parse_wp|done]. }
  - intros response Hp%map_err_Ok. apply wpm_bind. eapply validate_lift; [done|done| |].
    + intros Hu. apply wpm_raise, Hfail; [by eexists _, _|]. by eapply fa_rejected.
    + intros r Hr Hb. apply wpm_ret. split; [|done]. exists s1. by rewrite Hb.
  - intros e (pe & Hp & ->)%map_err_Err. apply Hfail; [by eexists _, _|]. by eapply fa_garbled.
Qed.

(** The cached stream was one to [a], and idle for less than the limit when the clock
    was read, which is all that happened. *)
Definition reused a (h : Handle) s s1 : Prop :=
  exists c now, fw_tcp (own s) = Some c /\ cc_address c = a /\ cc_stream c = h
    /\ (now - cc_last_used c < TCP_REUSE_IDLE)%Z /\ trace s1 = trace s ++ [Ev Now now].
(** No stream to [a] was cached, or it had been idle for too long. *)
Definition unusable a s s1 : Prop :=
  forall c, fw_tcp (own s) = Some c -> cc_address c = a -> (TCP_REUSE_IDLE <= clock (world s1) - cc_last_used c)%Z.
(** The last thing done is that [a] was contacted, which gave [h]. *)
Definition connected a (h : Handle) s s1 : Prop :=
  exists l d, trace s1 = trace s ++ l ++ [Ev (TcpConnect (upstream_socket a) d) (inr h)].

(** Where the stream of an exchange comes from: the cache, or a new connection when
    that had nothing to offer or the exchange over what it had failed. *)
Definition obtained a ex (h : Handle) s s1 : Prop :=
  reused a h s s1 \/ connected a h s s1 /\ (unusable a s s1 \/ exists e, fault ex e s s1).

(** The exchange took place on that very stream. *)
Definition answered_on a ex (h : Handle) (r : Response) s s3 : Prop :=
  accepted ex r
  /\ exists s1 s2, obtained a ex h s s1 /\ trace s2 = trace s1 ++ [Ev (SetNodelay h) (inr tt)] /\ conversed h ex r s2 s3.

(** What [tcp_exchange] promises: at most one connection, and nothing sent to anybody
    else; on success the stream on which query and response travelled is cached, with
    the time; on failure nothing is cached. *)
Definition tcp_ok a ex s (r : Response) s' : Prop :=
  only a 1 0 s s'
  /\ exists h s3, answered_on a ex h r s s3 /\ trace s' = trace s3 ++ [Ev Now (clock (world s'))]
       /\ own s' = MkForwarder (Some (MkCached a h (clock (world s')))).
Definition tcp_failed a ex s (e : ForwardError) s' : Prop :=
  only a 1 0 s s' /\ own s' = MkForwarder None /\ fault ex e s s'.

(** In the middle of [tcp_exchange] the stream is nobody's but the exchange's. *)
Definition underway a n s0 s : Prop := only a n 0 s0 s /\ own s = MkForwarder None.

Lemma underway_failed a ex n s0 s e : n <= 1 -> underway a n s0 s -> fault ex e s0 s -> tcp_failed a ex s0 e s.
Proof. intros Hn [Ho Hown] Hf. split; [|done]. by eapply only_mono; [|exact (Nat.le_refl 0)|]. Qed.

Lemma underway_idle a n s0 s1 s2 : underway a n s0 s1 -> idle s1 s2 -> underway a n s0 s2.
Proof. intros [Ho Hown] Hi. split; [by eapply only_idle|]. destruct Hi as (_ & -> & _). done. Qed.

Lemma expire_idle_wp {E} (P : unit -> state W Forwarder -> Prop) (Q : E -> state W Forwarder -> Prop) s :
  (forall s', idle s s' -> (forall c, fw_tcp (own s) = Some c ->
      (clock (world s') - cc_last_used c < TCP_REUSE_IDLE)%Z /\ trace s' = trace s ++ [Ev Now (clock (world s'))]) ->
   P tt s') ->
  (forall s', idle s s' -> (forall c, fw_tcp (own s) = Some c -> (TCP_REUSE_IDLE <= clock (world s') - cc_last_used c)%Z) ->
   P tt (MkIo (world s') (trace s') (MkForwarder None))) ->
  wpm t expire_idle P Q s.
Proof.
  intros HP HN. apply wpm_bind, wpm_get. destruct (fw_tcp (own s)) as [c|] eqn:Hc.
  2: { apply wpm_ret, HP; [apply makes_refl|done]. }
  apply wpm_bind, wpm_call. intros now w Hn. pose proof (clock_now _ _ _ Hn) as ->.
  assert (idle s (MkIo w (trace s ++ [Ev Now (clock w)]) (own s))) as Hi by by apply (makes_call quiet Now).
  destruct (_ <=? _)%Z eqn:Hle; bool_to_prop; unfold TCP_REUSE_IDLE, SECOND in *.
  - apply wpm_put, (HN (MkIo w (trace s ++ [Ev Now (clock w)]) (own s))); [done|]. intros ? [= <-]. cbn [world]. lia.
  - apply wpm_ret, HP; [done|]. intros ? [= <-]. cbn [world]. split; [lia|done].
Qed.

(** The cached stream is taken out before it is used. *)
Lemma take_cached_wp {A} a (k : Forwarder -> M W Forwarder ForwardError A) P Q s :
  (forall self s1, underway a 0 s s1 ->
     (forall c1, matching a (fw_tcp self) = Some c1 -> reused a (cc_stream c1) s s1 /\ leads_to a s s1 (cc_stream c1)) ->
     (matching a (fw_tcp self) = None -> unusable a s s1) -> wpm t (k self) P Q s1) ->
  wpm t (let! _ := expire_idle in let! self := mget in let! _ := mput (MkForwarder None) in k self) P Q s.
Proof.
  intros Hk. pose proof (only_refl a s) as Hr. apply wpm_bind, expire_idle_wp; intros s1 Hi Hc.
  - apply wpm_bind, wpm_get, wpm_bind, wpm_put. pose proof Hi as (_ & O & l & L & _). rewrite O.
    apply Hk; [split; [by apply only_dropped; eapply only_idle|done]| |].
    + intros c1. unfold matching. destruct (fw_tcp (own s)) as [c|] eqn:Hcs; [|done].
      destruct (Hc c eq_refl) as [Hlt Ht]. case_bool_decide; [|done]. intros [= <-]. split; [by exists c, (clock (world s1))|].
      exists l. split; [done|]. exists a. split; [done|]. right. by exists c.
    + unfold matching. intros Hn c Hcs Ha. rewrite Hcs, bool_decide_eq_true_2 in Hn by done. done.
  - apply wpm_bind, wpm_get, wpm_bind, wpm_put. cbn [own fw_tcp world trace]. apply (Hk (MkForwarder None)); [|done|].
    + split; [by apply only_dropped; eapply only_idle|done].
    + intros _ c Hcs _. by apply Hc.
Qed.

Lemma connect_wp a ex n s0 s :
  underway a n s0 s ->
  wpm t (connect a ex) (fun h s' => underway a (S n) s0 s' /\ leads_to a s0 s' h /\ connected a h s s' /\ spans s s')
    (fun e s' => underway a (S n) s0 s' /\ fault ex e s s') s.
Proof.
  intros Hu. apply wpm_bind, remaining_idle.
  2: { intros x s1 Hi Ho. split; [|apply fa_interrupted; by left].
       pose proof (underway_idle _ _ _ _ _ Hu Hi) as [? ?]. split; [|done]. eapply only_mono; [| |done]; lia. }
  intros s1 left_ Hi _. destruct (underway_idle _ _ _ _ _ Hu Hi) as [Ho1 O1]. pose proof (makes_spans _ _ _ Hi) as S1.
  apply wpm_map_err, wpm_io.
  - intros h w Hw. split; [split; [by apply (only_contact _ _ _ _ _ (TcpConnect (upstream_socket a) left_))|done]|]. split.
    { apply (only_opened _ _ _ (TcpConnect (upstream_socket a) left_)); [by eapply on_spans|done]. }
    split; [|eapply spans_trans; [done|by apply (spans_call (TcpConnect (upstream_socket a) left_))]].
    destruct S1 as [_ [l L]]. exists l, left_. cbn [trace]. by rewrite L, app_assoc.
  - intros x w Hw. split; [split; [by apply (only_contact _ _ _ _ _ (TcpConnect (upstream_socket a) left_))|done]|].
    apply fa_interrupted. right. eapply failed_call_after; [apply S1|]. by eapply failed_call_last.
Qed.

(** One try on the stream [h]. *)
Lemma try_stream_wp {A} a ex n h s0 s1 (k : ForwardError + Response -> M W Forwarder ForwardError A) P Q :
  fueled (ex_deadline ex) s0 -> ex_ok ex -> underway a n s0 s1 -> leads_to a s0 s1 h -> obtained a ex h s0 s1 ->
  (forall r s3, underway a n s0 s3 -> leads_to a s0 s3 h -> answered_on a ex h r s0 s3 -> wpm t (k (inr r)) P Q s3) ->
  (forall e s3, underway a n s0 s3 -> fault ex e s0 s3 -> wpm t (k (inl e)) P Q s3) ->
  (forall e s3, underway a n s0 s3 -> fault ex e s0 s3 -> Q e s3) ->
  wpm t (let! _ := from_io (mio (SetNodelay h)) in let! result := mtry (send_over_tcp fuel h ex) in k result) P Q s1.
Proof.
  intros Hf Hok Hu Hl Hob Hr He HQ. pose proof (on_spans _ _ _ _ _ (proj1 Hu)) as S1.
  apply wpm_bind, io_idle; [done|done| |].
  2: { intros x s2 Hi Hx. apply HQ; [by eapply underway_idle|]. apply fa_interrupted. right.
       eapply failed_call_after; [apply S1|done]. }
  intros [] s2 Hi L2. pose proof (underway_idle _ _ _ _ _ Hu Hi) as [Ho2 O2]. pose proof (makes_spans _ _ _ Hi) as S2.
  pose proof (spans_trans _ _ _ S1 S2) as S02. pose proof (leads_to_later _ _ _ _ _ (proj2 S2) Hl) as Hl2.
  assert (forall rx tx s3, moved h rx tx s2 s3 -> underway a n s0 s3) as Hon.
  { intros rx tx s3 M. split; [by eapply only_moved|]. rewrite (mv_own _ _ _ _ _ M). done. }
  apply wpm_bind, wpm_try. eapply wpm_mono; [apply send_over_tcp_wp; [by eapply fueled_spans|done]| |].
  - intros r s3 [(sm & M1 & M2) Ha]. pose proof (moved_trans _ _ _ _ _ _ _ _ M1 M2) as M.
    apply Hr; [by eapply Hon|eapply leads_to_later; [by eapply mv_trace|done]|]. split; [done|].
    exists s1, s2. split; [done|]. split; [done|by exists sm].
  - intros e s3 [(rx & tx & M) Hx]. apply He; [by eapply Hon|]. eapply fault_within; [|done|done]. done.
Qed.

(** The end of [tcp_exchange]. *)
Lemma tcp_finish_wp a ex n h r s0 s :
  n <= 1 -> underway a n s0 s -> leads_to a s0 s h -> answered_on a ex h r s0 s ->
  wpm t (let! now := mcall Now in let! _ := mput (MkForwarder (Some (MkCached a h now))) in mret r)
    (tcp_ok a ex s0) (tcp_failed a ex s0) s.
Proof.
  intros Hn [Ho Hown] Hl Ha. apply wpm_bind, wpm_call. intros now w Hw. pose proof (clock_now _ _ _ Hw) as ->.
  apply wpm_bind, wpm_put, wpm_ret. split; [|by exists h, s].
  eapply only_mono; [exact Hn|exact (Nat.le_refl 0)|].
  pose proof (makes_call quiet Now _ _ _ Hw ltac:(done)) as Hi.
  apply (only_cached _ _ _ _ (MkIo w (trace s ++ [Ev Now (clock w)]) (own s))); [by eapply only_idle|].
  eapply leads_to_later; [apply (makes_spans _ _ _ Hi)|done].
Qed.

Lemma tcp_exchange_wp a ex s :
  fueled (ex_deadline ex) s -> ex_ok ex ->
  wpm t (tcp_exchange fuel a ex) (tcp_ok a ex s) (tcp_failed a ex s) s.
Proof.
  intros Hf Hok. apply (take_cached_wp a). intros self s1 Hu Hsome Hnone. cbv zeta.
  destruct (matching a (fw_tcp self)) as [c1|]; cbn [is_some].
  - destruct (Hsome c1 eq_refl) as [Hre Hl]. apply wpm_bind, wpm_ret.
    apply (try_stream_wp a ex 0 _ s); [done|done|done|done|by left| | |intros e s3; by apply underway_failed; lia].
    + intros r s3 Hu3 Hl3 Ha. apply wpm_bind, wpm_ret. apply (tcp_finish_wp a ex 0); [lia|done..].
    + intros e s3 Hu3 Hx. apply wpm_bind, wpm_bind. eapply wpm_mono; [by apply (connect_wp a ex 0 s)| |].
      2: { intros e' s4 [Hu4 Hx']. apply (underway_failed a ex 1); [lia|done|].
           eapply fault_within; [by eapply on_spans, Hu3|done|done]. }
      intros h s4 (Hu4 & Hl4 & Hco & S4).
      apply (try_stream_wp a ex 1 _ s); [done|done|done|done| | | |].
      * right. split; [|right; exists e; by eapply fault_within].
        destruct Hco as (l & d & L). destruct (on_spans _ _ _ _ _ (proj1 Hu3)) as [_ [l' L']].
        exists (l' ++ l), d. by rewrite L, L', <- !app_assoc.
      * intros r s5 Hu5 Hl5 Ha. apply wpm_ret. by apply (tcp_finish_wp a ex 1).
      * intros e' s5 Hu5 Hx'. apply wpm_ret, wpm_raise. by apply (underway_failed a ex 1).
      * intros e' s5 Hu5 Hx'. by apply (underway_failed a ex 1).
  - apply wpm_bind. eapply wpm_mono; [by apply (connect_wp a ex 0 s)| |].
    2: { intros e s3 [Hu3 Hx]. apply (underway_failed a ex 1); [lia|done|].
         eapply fault_within; [by eapply on_spans, Hu|done|done]. }
    intros h s3 (Hu3 & Hl3 & Hco & S3).
    apply (try_stream_wp a ex 1 _ s); [done|done|done|done| | | |intros e s4; by apply underway_failed].
    + right. split; [|left; intros c' Hc' Ha; specialize (Hnone eq_refl c' Hc' Ha); destruct S3; lia].
      destruct Hco as (l & d & L). destruct (on_spans _ _ _ _ _ (proj1 Hu)) as [_ [l' L']].
      exists (l' ++ l), d. by rewrite L, L', <- !app_assoc.
    + intros r s4 Hu4 Hl4 Ha. apply wpm_bind, wpm_ret. by apply (tcp_finish_wp a ex 1).
    + intros e s4 Hu4 Hx. apply wpm_bind, wpm_ret, wpm_raise. by apply (underway_failed a ex 1).
Qed.

(** What an exchange with [a] promises, whatever the transport. *)
Definition exchange_ok a ex (n m : nat) s (r : Response) s' : Prop :=
  only a n m s s' /\ accepted ex r /\ heard ex r s s'.
Definition exchange_failed a ex (n m : nat) s (e : ForwardError) s' : Prop := only a n m s s' /\ fault ex e s s'.

Lemma obtained_trace a ex h s s1 : obtained a ex h s s1 -> trace s `prefix_of` trace s1.
Proof. intros [(c & now & _ & _ & _ & _ & ->)|[(l & d & ->) _]]; by eexists. Qed.

Lemma tcp_ok_exchange a ex s r s' : tcp_ok a ex s r s' -> exchange_ok a ex 1 0 s r s'.
Proof.
  intros (Ho & h & s3 & [Ha (s1 & s2 & Hob%obtained_trace & L2 & Hc)] & L & _). split; [done|]. split; [done|].
  apply (heard_tcp ex r s s' h s2 s3); [|done|rewrite L; by eexists].
  etrans; [exact Hob|]. rewrite L2. by eexists.
Qed.

Lemma exchange_ok_within a ex n m n' m' N M s1 s2 r s3 :
  only a n' m' s1 s2 -> exchange_ok a ex n m s2 r s3 -> n' + n <= N -> m' + m <= M -> exchange_ok a ex N M s1 r s3.
Proof.
  intros Ho (Ho' & Ha & Hh) ? ?. split; [by eapply only_compose|]. split; [done|].
  eapply heard_within; [by eapply on_spans|done|done].
Qed.
Lemma exchange_failed_within a ex n m n' m' N M s1 s2 e s3 :
  only a n' m' s1 s2 -> exchange_failed a ex n m s2 e s3 -> n' + n <= N -> m' + m <= M -> exchange_failed a ex N M s1 e s3.
Proof.
  intros Ho (Ho' & Hf) ? ?. split; [by eapply only_compose|]. eapply fault_within; [by eapply on_spans|done|done].
Qed.

(** What is promised of a socket on which [invalid] datagrams were ignored before: a
    response that it received, or one over TCP; a fault, or that the limit is reached. *)
Definition flooded ex (h n : nat) s s' : Prop :=
  exists ds, datagrams h (trace s') = datagrams h (trace s) ++ ds /\ length ds = n /\ Forall (unacceptable ex) ds.
Definition udp_ok h a ex invalid s (r : Response) s' : Prop :=
  only a 1 (1 - invalid) s s' /\ accepted ex r
  /\ (heard ex r s s' \/ exists n, seen (Ev (UdpRecv h n) (inr (response_wire r))) s s').
Definition udp_failed h a ex invalid s (e : ForwardError) s' : Prop :=
  only a 1 (1 - invalid) s s'
  /\ (fault ex e s s' \/ e = FwInvalidResponse /\ flooded ex h (MAX_INVALID_RESPONSES - invalid) s s').

Lemma udp_ok_after h a ex invalid k m s1 s2 r s3 :
  only a 0 m s1 s2 -> m + (1 - k) <= 1 - invalid -> udp_ok h a ex k s2 r s3 -> udp_ok h a ex invalid s1 r s3.
Proof.
  intros Ho Hm (Ho' & Ha & Hh). pose proof (on_spans _ _ _ _ _ Ho) as S. split; [by eapply only_compose|].
  split; [done|]. destruct Hh as [Hh|[n Hs]]; [left; by eapply heard_within|right; exists n].
  eapply seen_after; [apply S|done].
Qed.

(** One more datagram, or none. *)
Lemma udp_failed_after h a ex invalid ds m s1 s2 e s3 :
  only a 0 m s1 s2 -> m + (1 - (invalid + length ds)) <= 1 - invalid ->
  invalid + length ds <= MAX_INVALID_RESPONSES -> Forall (unacceptable ex) ds ->
  datagrams h (trace s2) = datagrams h (trace s1) ++ ds ->
  udp_failed h a ex (invalid + length ds) s2 e s3 -> udp_failed h a ex invalid s1 e s3.
Proof.
  intros Ho Hm Hi Hu Hd (Ho' & Hf). pose proof (on_spans _ _ _ _ _ Ho) as S. split; [by eapply only_compose|].
  destruct Hf as [Hf|(-> & ds' & Hd' & Hl & Hu')]; [left; by eapply fault_within|right]. split; [done|].
  exists (ds ++ ds'). split; [by rewrite Hd', Hd, app_assoc|]. split; [|by apply Forall_app].
  rewrite length_app, Hl. lia.
Qed.

Lemma accept_datagram_lift ex bytes (P : option Response -> state W Forwarder -> Prop)
    (Q : ForwardError -> state W Forwarder -> Prop) s :
  ex_ok ex -> (unacceptable ex bytes -> P None s) ->
  (forall r, accepted ex r -> response_wire r = bytes -> P (Some r) s) ->
  wpm t (mlift (accept_datagram ex bytes)) P Q s.
Proof.
  intros He HN HS. unfold accept_datagram. pose proof (packet_parse_wp bytes) as Hp.
  destruct (packet_parse bytes) as [response|e| |] eqn:Hr; try done.
  - by eapply validate_lift.
  - apply HN. intros p Hp'. congruence.
Qed.

(** What is done with a datagram received in time; [next] is the loop's next pass. *)
Lemma datagram_wp h a ex bytes invalid next s0 s :
  fueled (ex_deadline ex) s -> ex_ok ex -> invalid < MAX_INVALID_RESPONSES ->
  only a 0 0 s0 s -> datagrams h (trace s) = datagrams h (trace s0) ++ [bytes] ->
  (exists n, seen (Ev (UdpRecv h n) (inr bytes)) s0 s) ->
  (S invalid < MAX_INVALID_RESPONSES -> unacceptable ex bytes ->
   wpm t next (udp_ok h a ex invalid s0) (udp_failed h a ex invalid s0) s) ->
  wpm t (let! truncated := mlift (sent_matches_truncated (ex_sent ex) bytes) in
         if truncated : bool then tcp_exchange fuel a ex
         else
           let! accepted := mlift (accept_datagram ex bytes) in
           match accepted with
           | Some response => mret response
           | None => if S invalid =? MAX_INVALID_RESPONSES then mraise FwInvalidResponse else next
           end)
    (udp_ok h a ex invalid s0) (udp_failed h a ex invalid s0) s.
Proof.
  intros Hf Hok Hi Ho Hd [n Hn] Hnext. pose proof (on_spans _ _ _ _ _ Ho) as S0.
  assert (only a 1 (1 - invalid) s0 s) as Ho1 by (eapply only_mono; [| |done]; lia).
  destruct (matches_truncated_spec (E:=ForwardError) (sent_packet (ex_sent ex)) bytes
    (h_id (header (sent_packet (ex_sent ex))))) as (b & Hb & _).
  apply wpm_bind. unfold sent_matches_truncated. rewrite Hb. cbn [wpm mlift]. destruct b.
  { eapply wpm_mono; [by apply tcp_exchange_wp| |].
    - intros r s' (Ho' & Ha & Hh)%tcp_ok_exchange. split; [eapply only_compose; [exact Ho|exact Ho'|lia|lia]|]. split; [done|].
      left. by eapply heard_within.
    - intros e s' (Ho' & _ & Hx). split; [eapply only_compose; [exact Ho|exact Ho'|lia|lia]|]. left. by eapply fault_within. }
  apply wpm_bind, accept_datagram_lift; [done| |].
  - intros Hu. destruct (_ =? _) eqn:Hmax; bool_to_prop; [|apply Hnext; [lia|done]].
    apply wpm_raise. split; [done|]. right. split; [done|]. exists [bytes]. split; [done|].
    split; [simpl; lia|by repeat constructor].
  - intros r Ha <-. apply wpm_ret. split; [done|]. split; [done|]. right. by exists n.
Qed.

(** Between two datagrams the first that was ignored is logged. *)
Lemma udp_next_wp {A} a (first : bool) (next : M W Forwarder ForwardError A) P Q s :
  (forall s', only a 0 (if first then 1 else 0) s s' -> (forall h, datagrams h (trace s') = datagrams h (trace s)) ->
     wpm t next P Q s') ->
  wpm t (let! _ := (if first then warn (UncorrelatedResponse a) else mret tt) in next) P Q s.
Proof.
  intros Hn. apply wpm_bind. destruct first; [|apply wpm_ret, Hn; [apply only_refl|done]].
  apply wpm_call. intros [] w Hw. apply Hn.
  - split; [by eapply clock_mono|]. exists [Ev (Warn (UncorrelatedResponse a)) tt]. split; [done|]. split.
    + apply (confined_more _ _ []); [apply confined_nil|]. repeat constructor. by intros h.
    + split; [done|by exists 1].
  - intros h. unfold datagrams. cbn [trace]. rewrite bind_app. simpl. by rewrite app_nil_r.
Qed.

(** A datagram is received, or an error. *)
Lemma recv_wp h a s (P : ioresult (list byte) -> state W Forwarder -> Prop) (Q : ForwardError -> state W Forwarder -> Prop) :
  (forall x s', idle s s' -> (transient x = true -> (clock (world s) < clock (world s'))%Z) ->
     (transient x = false -> failed_call x s s') -> P (inl x) s') ->
  (forall bytes s', only a 0 0 s s' -> datagrams h (trace s') = datagrams h (trace s) ++ [bytes] ->
     (exists n, seen (Ev (UdpRecv h n) (inr bytes)) s s') -> P (inr bytes) s') ->
  wpm t (mcall (UdpRecv h (Z.to_nat MAX_MESSAGE_LENGTH))) P Q s.
Proof.
  intros HP HQ. apply wpm_call. intros [x|bytes] w Hr.
  - apply HP; [by apply (makes_call quiet (UdpRecv _ _))|by eapply recv_timeout|].
    intros Ht. eapply failed_call_last; [done|]. cbn. by rewrite Ht.
  - apply HQ.
    + eapply only_makes; [apply only_refl|]. by apply (makes_call _ (UdpRecv _ _)).
    + unfold datagrams. cbn [trace]. rewrite bind_app. simpl. by rewrite Nat.eqb_refl.
    + eexists. apply seen_last.
Qed.

Lemma udp_loop_wp a ex h : forall k invalid s,
  (t = true -> (Z.of_nat (MAX_INVALID_RESPONSES - invalid + ticks (ex_deadline ex) s) < Z.of_nat k)%Z) ->
  invalid < MAX_INVALID_RESPONSES -> fueled (ex_deadline ex) s -> ex_ok ex ->
  wpm t (udp_loop fuel k h a ex invalid) (udp_ok h a ex invalid s) (udp_failed h a ex invalid s) s.
Proof.
  induction k as [|k IH]; intros invalid s Hk Hi Hf Hok.
  { cbn. destruct t; [specialize (Hk eq_refl); lia|done]. }
  assert (forall x s1 s', idle s s1 -> idle s1 s' -> interrupted (ex_deadline ex) x s1 s' ->
    udp_failed h a ex invalid s (forward_error_from x) s') as Hstop.
  { intros x s1 s' H1 H2 Hx. split; [eapply only_mono; [| |by apply idle_only; eapply makes_trans]; lia|].
    left. apply fa_interrupted. eapply interrupted_within; [by eapply makes_spans|done|done]. }
  cbn [udp_loop]. apply wpm_bind, remaining_idle.
  2: { intros x s1 H1 Ho. eapply Hstop; [apply makes_refl|done|by left]. }
  intros s1 budget H1 Hc1. apply wpm_bind, io_idle; [done|done| |].
  2: { intros x s2 H2 Hx. eapply Hstop; [done|done|by right]. }
  intros _ s2 H2 _. pose proof (makes_trans _ _ _ _ H1 H2) as H12. apply wpm_bind, (recv_wp h a).
  - intros x s3 H3 Ht Hx. pose proof (makes_trans _ _ _ _ H12 H3) as H13.
    destruct (transient x); [|apply wpm_raise; eapply Hstop; [exact H12|done|right; by apply Hx]].
    specialize (Ht eq_refl). destruct H12 as [C2 _], H1 as [C1 _]. eapply wpm_mono; [apply (IH invalid)| |].
    + intros Hb. specialize (Hk Hb). unfold ticks in *. lia.
    + done.
    + by eapply fueled_spans; [by eapply makes_spans|].
    + done.
    + intros r s'. by eapply udp_ok_after; [by apply idle_only|].
    + intros e s' He. apply (udp_failed_after h a ex invalid [] 0 s s3); [by apply idle_only|simpl; lia|simpl; lia|done| |].
      * by rewrite app_nil_r, (idle_datagrams _ _ _ H13).
      * simpl. by rewrite Nat.add_0_r.
  - intros bytes s3 Ho3 Hd3 Hn3. pose proof (on_spans _ _ _ _ _ Ho3) as S3. apply wpm_bind, remaining_idle.
    { intros s4 _ H4 _. pose proof (makes_spans _ _ _ H4) as S4.
      assert (only a 0 0 s s4) as Ho by (eapply only_idle; [|done]; by eapply (only_trans a 0 0 0 0); [apply idle_only|]).
      assert (datagrams h (trace s4) = datagrams h (trace s) ++ [bytes]) as Hd
        by (by rewrite (idle_datagrams _ _ _ H4), Hd3, (idle_datagrams _ _ _ H12)).
      pose proof (on_spans _ _ _ _ _ Ho) as S04. eapply datagram_wp; [by eapply fueled_spans|done|done|done|done| |].
      - destruct Hn3 as [n Hn]. exists n. eapply seen_after; [by eapply makes_spans|]. eapply seen_before; [done|apply S4].
      - intros Hmax Hu. apply udp_next_wp. intros s5 Ho5 Hd5. pose proof (on_spans _ _ _ _ _ Ho5) as S5.
        pose proof (spans_trans _ _ _ S04 S5) as [C5 _].
        assert (only a 0 (if S invalid =? 1 then 1 else 0) s s5) as Ho05 by by apply (only_trans a 0 0 0 _ s s4 s5).
        assert ((if S invalid =? 1 then 1 else 0) + (1 - S invalid) <= 1 - invalid) as Hm
          by (destruct (Nat.eqb_spec (S invalid) 1); lia).
        eapply wpm_mono; [apply (IH (S invalid)); [|done|eapply fueled_spans; [exact (spans_trans _ _ _ S04 S5)|done]|done]| |].
        + intros Htt. specialize (Hk Htt). unfold ticks, MAX_INVALID_RESPONSES in *. lia.
        + intros r s'. by eapply udp_ok_after.
        + intros e s' He. apply (udp_failed_after h a ex invalid [bytes] _ s s5 e s' Ho05).
          * simpl. by rewrite Nat.add_1_r.
          * simpl. lia.
          * by repeat constructor.
          * by rewrite Hd5, Hd.
          * simpl. by rewrite Nat.add_1_r. }
    intros x s4 H4 Ho. pose proof (makes_spans _ _ _ H12) as S12. split.
    + eapply only_mono; [| |eapply only_idle; [by eapply (only_trans a 0 0 0 0); [apply idle_only|]|done]]; lia.
    + left. apply fa_interrupted. eapply interrupted_within; [by eapply spans_trans|by left|done].
Qed.

Lemma udp_exchange_wp a ex s :
  fueled (ex_deadline ex) s -> ex_ok ex ->
  wpm t (udp_exchange fuel a ex) (exchange_ok a ex 2 1 s) (exchange_failed a ex 2 1 s) s.
Proof.
  intros Hf Hok.
  assert (forall x s1 s', only a 1 0 s s1 -> idle s1 s' -> interrupted (ex_deadline ex) x s1 s' ->
    exchange_failed a ex 2 1 s (forward_error_from x) s') as Hstop.
  { intros x s1 s' H1 H2 Hx. split; [eapply only_mono; [| |by eapply only_idle]; lia|].
    apply fa_interrupted. eapply interrupted_within; [by eapply on_spans|done|done]. }
  assert (only a 1 0 s s) as Hr by (eapply only_mono; [| |apply only_refl]; lia).
  apply wpm_bind, io_idle; [done|done| |]; cycle 1.
  { intros x s1 H1 Hx. eapply Hstop; [exact Hr|done|by right]. }
  intros h s1 H1 _. apply wpm_bind, wpm_map_err, wpm_io; intros r w Hw;
    pose proof (only_contact a 0 0 s s1 (UdpConnect h (upstream_socket a)) _ _ (idle_only a _ _ H1) Hw eq_refl eq_refl eq_refl)
      as Ho2.
  2: { split; [eapply only_mono; [| |done]; lia|]. apply fa_interrupted. right.
       eapply failed_call_after; [by eapply makes_spans|]. by eapply failed_call_last. }
  pose proof (only_opened a s s1 (UdpConnect h (upstream_socket a)) (inr r) w h (makes_spans _ _ _ H1)
    ltac:(by destruct r)) as Hl.
  set (s2 := MkIo w _ _) in *.
  apply wpm_bind, remaining_idle; [|intros x s3 H3 Ho; eapply Hstop; [exact Ho2|done|by left]]. intros s3 budget H3 _.
  apply wpm_bind, io_idle; [done|done| |intros x s4 H4 Hx; eapply Hstop; [by eapply only_idle|done|by right]].
  intros [] s4 H4 _. pose proof (makes_trans _ _ _ _ H3 H4) as H24.
  pose proof (only_idle _ _ _ _ _ _ Ho2 H24) as Ho4. pose proof (leads_to_later _ _ _ _ _ (proj2 (makes_spans _ _ _ H24)) Hl) as Hl4.
  apply wpm_bind, wpm_map_err, wpm_io.
  2: { intros x w' Hw'. assert (makes (fun ev => contacted1 ev = [] /\ warned1 ev = []
      /\ forall h', writes_to ev = Some h' -> leads_to a s s4 h') s4 (MkIo w' (trace s4 ++ [Ev (UdpSend h (sent_wire (ex_sent ex))) (inl x)]) (own s4)))
      as Hc by (apply makes_call; [done|]; split; [done|]; split; [done|]; by intros ? [= <-]).
    split; [eapply only_mono; [| |by eapply only_makes]; lia|]. apply fa_interrupted. right.
    eapply failed_call_after; [by eapply on_spans|]. by eapply failed_call_last. }
  intros k w' Hw'. assert (makes (fun ev => contacted1 ev = [] /\ warned1 ev = []
      /\ forall h', writes_to ev = Some h' -> leads_to a s s4 h') s4 (MkIo w' (trace s4 ++ [Ev (UdpSend h (sent_wire (ex_sent ex))) (inr k)]) (own s4)))
      as Hc by (apply makes_call; [done|]; split; [done|]; split; [done|]; by intros ? [= <-]).
  pose proof (only_makes _ _ _ _ _ _ Ho4 Hc) as Ho5. set (s5 := MkIo w' _ _) in *. pose proof (on_spans _ _ _ _ _ Ho5) as S5.
  eapply wpm_mono; [apply udp_loop_wp; [|unfold MAX_INVALID_RESPONSES; lia|by eapply fueled_spans|done]| |].
  - intros Ht. destruct S5 as [C5 _]. specialize (Hf Ht). unfold enough, ticks, MAX_INVALID_RESPONSES in *. lia.
  - intros r' s' (Ho & Ha & Hh). split; [eapply only_compose; [exact Ho5|exact Ho|lia|lia]|]. split; [done|].
    destruct Hh as [Hh|(n & l & Hll & Hin)]; [by eapply heard_within|].
    apply list_elem_of_split in Hin as (l2 & l3 & ->). destruct (on_spans _ _ _ _ _ Ho4) as [_ [l1 L1]].
    apply (heard_udp ex r' s s' h n k l1 l2 l3). rewrite Hll. cbn [s5 trace]. rewrite L1.
    by rewrite <- !app_assoc.
  - intros e s' (Ho & Hx). split; [eapply only_compose; [exact Ho5|exact Ho|lia|lia]|].
    destruct Hx as [Hx|(-> & ds & Hd & Hlen & Hu)]; [by eapply fault_within|].
    eapply fa_flooded; [|done|done]. exists h, s5, s'. split; [apply S5|]. split; [done|done].
Qed.

Lemma exchange_wp transport a ex s :
  fueled (ex_deadline ex) s -> ex_ok ex ->
  wpm t (exchange fuel transport a ex) (exchange_ok a ex 2 1 s) (exchange_failed a ex 2 1 s) s.
Proof.
  intros Hf Hok. destruct transport; [by apply udp_exchange_wp|].
  eapply wpm_mono; [by apply tcp_exchange_wp| |].
  - intros r s' Ho%tcp_ok_exchange. by eapply exchange_ok_within; [apply only_refl|exact Ho|lia|lia].
  - intros e s' (Ho & _ & Hx). split; [|done]. eapply only_mono; [| |done]; lia.
Qed.

Lemma next_transaction_id_wp (P : Z -> state W Forwarder -> Prop) Q s :
  (forall id s', is_u16 id -> idle s s' -> P id s') ->
  (forall x s', idle s s' -> failed_call x s s' -> Q (forward_error_from x) s') ->
  wpm t (from_io next_transaction_id) P Q s.
Proof.
  intros HP HQ. apply wpm_map_err, wpm_bind, wpm_io.
  - intros [b0 b1] w Hw. apply wpm_ret, HP; [apply be16_range|by apply (makes_call quiet Entropy)].
  - intros x w Hw. apply HQ; [by apply (makes_call quiet Entropy)|by eapply failed_call_last].
Qed.

(** ** One attempt

    An attempt is the exchange of a query and its retries after BADCOOKIE responses. *)

(** [r] answers [q], as it was sent at first or in a retry. *)
Definition answered (q : Query) (r : Response) s s' : Prop :=
  exists ex, sent_for (query_packet q) (ex_sent ex) /\ accepted ex r /\ heard ex r s s'.

(** Why an attempt fails: one of its exchanges does; a retry does not parse; or the
    server's BADCOOKIE response leaves no cookie to retry with. *)
Inductive attempt_fault (q : Query) (dl : Deadline) : ForwardError -> state W Forwarder -> state W Forwarder -> Prop :=
| af_exchange ex e s s' :
    sent_for (query_packet q) (ex_sent ex) -> ex_deadline ex = dl -> fault ex e s s' -> attempt_fault q dl e s s'
| af_retry sent w id e s s' :
    sent_for (query_packet q) sent -> retry_bytes sent w -> is_u16 id -> sent_retry w id = Err e ->
    attempt_fault q dl (FwParse e) s s'
| af_cookie ex r d s s' :
    sent_for (query_packet q) (ex_sent ex) -> accepted ex r -> heard ex r s s' -> response_rcode r = BadCookie ->
    server_cookie_retry (E:=ForwardError) (ex_sent ex) r = Ok d ->
    d = Discard \/ d = Absent /\ cookie_required (ex_sent ex) = true ->
    attempt_fault q dl FwInvalidResponse s s'.

Lemma attempt_fault_within q dl e s0 s1 s2 s3 :
  spans s0 s1 -> attempt_fault q dl e s1 s2 -> spans s2 s3 -> attempt_fault q dl e s0 s3.
Proof.
  intros S1 Hf S3. revert S1 S3. destruct Hf; intros S1 S3.
  - eapply af_exchange; [done|done|by eapply fault_within].
  - by eapply af_retry.
  - eapply af_cookie; try done. by eapply heard_within.
Qed.

Lemma attempt_fault_cancelled q dl s s' : attempt_fault q dl FwCancelled s s' -> stopped s s'.
Proof. intros Hf. inversion Hf; subst. by eapply fault_cancelled. Qed.

Lemma answered_within q r s0 s1 s2 s3 : spans s0 s1 -> answered q r s1 s2 -> spans s2 s3 -> answered q r s0 s3.
Proof.
  intros H1 (ex & Hs & Ha & Hh) H3. exists ex. split; [done|]. split; [done|]. by eapply heard_within.
Qed.

(** What is promised of exchanges with [a] for [q] that end in [s']: [s0] is the state
    before all of them, [s] before those counted. *)
Definition attempt_ok q a n m s0 s (r : Response) s' : Prop := only a n m s s' /\ answered q r s0 s'.
Definition attempt_failed q dl a n m s0 s (e : ForwardError) s' : Prop := only a n m s s' /\ attempt_fault q dl e s0 s'.

Lemma exchange_ok_attempt q a ex n m n' m' N M s0 s1 s2 r s3 :
  sent_for (query_packet q) (ex_sent ex) -> spans s0 s2 -> only a n' m' s1 s2 -> exchange_ok a ex n m s2 r s3 ->
  n' + n <= N -> m' + m <= M -> attempt_ok q a N M s0 s1 r s3.
Proof.
  intros Hs H02 Ho (Ho' & Ha & Hh) ? ?. split; [by eapply only_compose|]. exists ex. split; [done|]. split; [done|].
  by eapply heard_within.
Qed.
Lemma exchange_failed_attempt q dl a ex n m n' m' N M s0 s1 s2 e s3 :
  sent_for (query_packet q) (ex_sent ex) -> ex_deadline ex = dl -> spans s0 s2 -> only a n' m' s1 s2 ->
  exchange_failed a ex n m s2 e s3 -> n' + n <= N -> m' + m <= M -> attempt_failed q dl a N M s0 s1 e s3.
Proof.
  intros Hs Hdl H02 Ho (Ho' & Hf) ? ?. split; [by eapply only_compose|]. eapply af_exchange; [done|done|].
  by eapply fault_within.
Qed.

(** [ex'] retries [ex] for the same query, within the same budget. *)
Record retry_of (q : Query) (ex ex' : Exchange) : Prop := {
  ro_ok : ex_ok ex';
  ro_deadline : ex_deadline ex' = ex_deadline ex;
  ro_sent : sent_for (query_packet q) (ex_sent ex');
  ro_cookie : cookie_required (ex_sent ex') = true
}.

Lemma retry_exchange_wp q ex w (P : Exchange -> state W Forwarder -> Prop) Q s :
  ex_ok ex -> sent_for (query_packet q) (ex_sent ex) -> retry_bytes (ex_sent ex) w ->
  (forall ex' s', idle s s' -> retry_of q ex ex' -> P ex' s') ->
  (forall e s', idle s s' -> attempt_fault q (ex_deadline ex) e s s' -> Q e s') ->
  wpm t (retry_exchange ex w) P Q s.
Proof.
  intros Hok Hq Hw HP HQ. pose proof (retry_bytes_length _ _ Hok Hw) as Hl.
  assert (forall x s', interrupted (ex_deadline ex) x s s' -> attempt_fault q (ex_deadline ex) (forward_error_from x) s s')
    as Hx by (intros; by eapply af_exchange, fa_interrupted).
  apply wpm_bind, remaining_idle; [|intros x s1 H1 Ho; apply HQ; [done|apply Hx; by left]]. intros s1 _ H1 _.
  apply wpm_bind, next_transaction_id_wp.
  2: { intros x s2 H2 Hc. apply HQ; [by eapply makes_trans|]. apply Hx. right.
       eapply failed_call_after; [by eapply makes_spans|done]. }
  intros id s2 Hid H2. pose proof (makes_trans _ _ _ _ H1 H2) as H02.
  pose proof (sent_retry_wp w id Hl) as Hs. apply wpm_bind, wpm_lift.
  - apply wp_map_err. by eapply wp_mono; [exact Hs|].
  - intros sent Hr%map_err_Ok. pose proof Hr as Hr'. rewrite Hr' in Hs. destruct Hs as [Hp Hc].
    apply wpm_ret, HP; [done|]. split; [done|done| |done]. by apply (sent_retry_for _ (ex_sent ex) w id).
  - intros e (pe & Hr & ->)%map_err_Err. apply HQ; [done|]. by eapply af_retry.
Qed.

Lemma server_cookie_retry_lift ex r (P : ServerCookieRetry -> state W Forwarder -> Prop)
    (Q : ForwardError -> state W Forwarder -> Prop) s :
  ex_ok ex -> accepted ex r ->
  (forall d, server_cookie_retry (E:=ForwardError) (ex_sent ex) r = Ok d ->
     (forall w, d = Rewrite w -> retry_bytes (ex_sent ex) w) -> P d s) ->
  wpm t (mlift (server_cookie_retry (ex_sent ex) r)) P Q s.
Proof.
  intros Hok Ha HP. unfold wpm, mlift.
  destruct (server_cookie_retry_bytes (E:=ForwardError) (ex_sent ex) r Hok) as (d & Hd & Hw);
    [by eapply accepted_wf|]. rewrite Hd. by apply HP.
Qed.

(** A retry over TCP. *)
Lemma retry_tcp_wp q a ex w n m s0 s1 s :
  fueled (ex_deadline ex) s -> ex_ok ex -> sent_for (query_packet q) (ex_sent ex) -> retry_bytes (ex_sent ex) w ->
  spans s0 s -> only a n m s1 s ->
  wpm t (let! retry := retry_exchange ex w in tcp_exchange fuel a retry)
    (attempt_ok q a (S n) m s0 s1) (attempt_failed q (ex_deadline ex) a (S n) m s0 s1) s.
Proof.
  intros Hf Hok Hq Hw S00 Ho. apply wpm_bind, (retry_exchange_wp q); [done|done|done| |].
  - intros ex' s2 H2 [Hok' Hd Hc _]. pose proof (makes_spans _ _ _ H2) as S2.
    pose proof (only_idle _ _ _ _ _ _ Ho H2) as Ho2. pose proof (spans_trans _ _ _ S00 S2) as H02.
    eapply wpm_mono; [apply tcp_exchange_wp; [rewrite Hd; eapply fueled_spans; [exact S2|done]|done]| |].
    + intros r s' Hr%tcp_ok_exchange. eapply exchange_ok_attempt; [exact Hc|exact H02|exact Ho2|exact Hr|lia|lia].
    + intros e s' (Ho' & _ & Hx).
      eapply exchange_failed_attempt; [exact Hc|done|exact H02|exact Ho2|split; [exact Ho'|done]|lia|lia].
  - intros e s2 H2 Hx. split; [eapply only_mono; [| |by eapply only_idle]; lia|].
    eapply attempt_fault_within; [done|done|done].
Qed.

(** The second reaction, after a retry with another cookie: over TCP, or none. *)
Lemma second_retry_wp q a ex r s0 s1 s :
  fueled (ex_deadline ex) s -> ex_ok ex -> sent_for (query_packet q) (ex_sent ex) -> cookie_required (ex_sent ex) = true ->
  accepted ex r -> heard ex r s0 s -> response_rcode r = BadCookie -> spans s0 s -> only a 2 1 s1 s ->
  wpm t (let! decision := mlift (server_cookie_retry (ex_sent ex) r) in
         let! w := (match decision with
                    | Rewrite w => mret w
                    | Current | Cookie.Tcp => mret (sent_wire (ex_sent ex))
                    | Absent | Discard => mraise FwInvalidResponse
                    end) in
         let! retry := retry_exchange ex w in
         tcp_exchange fuel a retry)
    (attempt_ok q a 3 1 s0 s1) (attempt_failed q (ex_deadline ex) a 3 1 s0 s1) s.
Proof.
  intros Hf Hok Hq Hcr Ha Hh Hbad S00 Ho.
  assert (forall w, retry_bytes (ex_sent ex) w ->
    wpm t (let! retry := retry_exchange ex w in tcp_exchange fuel a retry)
      (attempt_ok q a 3 1 s0 s1) (attempt_failed q (ex_deadline ex) a 3 1 s0 s1) s) as Hlast
    by (intros w Hw; by apply (retry_tcp_wp q a ex w 2 1)).
  pose proof (or_introl eq_refl : retry_bytes (ex_sent ex) (sent_wire (ex_sent ex))) as Hl1.
  apply wpm_bind, server_cookie_retry_lift; [done|done|]. intros d Hd Hw.
  assert (forall d', d = d' -> d' = Discard \/ d' = Absent -> attempt_failed q (ex_deadline ex) a 3 1 s0 s1 FwInvalidResponse s)
    as Hnone.
  { intros d' <- Hd'. split; [eapply only_mono; [| |exact Ho]; lia|]. eapply af_cookie; try done.
    destruct Hd' as [->| ->]; [by left|by right]. }
  destruct d as [| | |w2|]; apply wpm_bind;
    first [apply wpm_raise; eapply Hnone; [done|auto] | apply wpm_ret, Hlast; auto].
Qed.

Lemma finish_badcookie_wp q a ex response transport s0 s :
  fueled (ex_deadline ex) s -> ex_ok ex -> sent_for (query_packet q) (ex_sent ex) ->
  accepted ex response -> heard ex response s0 s -> response_rcode response = BadCookie -> spans s0 s ->
  wpm t (finish_badcookie fuel a ex response transport)
    (attempt_ok q a 3 1 s0 s) (attempt_failed q (ex_deadline ex) a 3 1 s0 s) s.
Proof.
  intros Hf Hok Hq Ha Hh Hbad S00. pose proof (only_refl a s) as Hrefl.
  assert (only a 3 1 s s) as Hrefl' by (eapply only_mono; [| |done]; lia).
  assert (attempt_ok q a 3 1 s0 s response s) as Hdone by (split; [done|by exists ex]).
  assert (wpm t (let! retry := retry_exchange ex (sent_wire (ex_sent ex)) in tcp_exchange fuel a retry)
    (attempt_ok q a 3 1 s0 s) (attempt_failed q (ex_deadline ex) a 3 1 s0 s) s) as Htcp
    by (apply (retry_tcp_wp q a ex _ 2 1); [done|done|done|by left|done|eapply only_mono; [| |exact Hrefl]; lia]).
  apply wpm_bind, server_cookie_retry_lift; [done|done|]. intros d Hd Hw.
  destruct d as [| | |w|];
    [by apply wpm_ret|apply wpm_raise; split; [done|eapply af_cookie; try done; by left]| | |];
    try by destruct transport.
  apply wpm_bind, (retry_exchange_wp q); [done|done|by apply Hw| |].
  2: { intros e s1 H1 Hx. split; [eapply only_mono; [| |by apply idle_only]; lia|].
       by eapply attempt_fault_within; [exact S00|exact Hx|]. }
  intros ex1 s1 H1 [Hok1 Hd1 Hq1 Hc1]. pose proof (makes_spans _ _ _ H1) as S1. pose proof (spans_trans _ _ _ S00 S1) as H01.
  rewrite <- Hd1. apply wpm_bind. eapply wpm_mono; [apply exchange_wp; [rewrite Hd1; eapply fueled_spans; [exact S1|done]|done]| |].
  2: { intros e s2 Hx. by eapply exchange_failed_attempt; [exact Hq1| |exact H01|by apply idle_only|exact Hx|lia|lia]. }
  intros retried s2 Hr2. pose proof Hr2 as (Ho2 & Ha2 & Hh2). pose proof (on_spans _ _ _ _ _ Ho2) as S2.
  destruct (_ || _) eqn:Hend.
  { apply wpm_ret. eapply exchange_ok_attempt; [exact Hq1|exact H01|by apply idle_only|exact Hr2|lia|lia]. }
  apply orb_false_iff in Hend as [Hbad2 _]. bool_to_prop.
  apply (second_retry_wp q a ex1 retried); [|done|done|done|done| | | |].
  - rewrite Hd1. eapply fueled_spans; [exact (spans_trans _ _ _ S1 S2)|done].
  - by eapply heard_within.
  - by apply dec_stable.
  - by eapply spans_trans.
  - by apply (only_trans a 0 0 2 1 s s1 s2); [apply idle_only|].
Qed.

(** ** Failover *)

(** A query taken from a parsed message, as [validate_query] returns it. *)
Definition query_ok (q : Query) : Prop :=
  exists w, packet_parse w = Ok (query_packet q)
    /\ validate_query (E:=ForwardError) (query_packet q) = Ok (Forward q).

(** [r] was accepted for something sent on behalf of [q]. *)
Definition response_for (q : Query) (r : Response) : Prop :=
  packet_parse (response_wire r) = Ok (response_packet r)
  /\ exists sent, sent_for (query_packet q) sent /\ sent_wf sent /\ accepts sent (response_packet r).

Lemma answered_response q r s s' : answered q r s s' -> response_for q r.
Proof. intros (ex & Hs & [Hw Ha Hp] & _). split; [done|]. by exists (ex_sent ex). Qed.

Lemma attempt_wp q transport a dl id s :
  fueled dl s -> query_ok q -> is_u16 id ->
  wpm t (attempt fuel q transport a dl id) (attempt_ok q a 5 2 s s) (attempt_failed q dl a 5 2 s s) s.
Proof.
  intros Hf (w & Hw & Hv) Hid.
  destruct (query_sent_wf w (query_packet q) q id Hw Hv Hid) as (sent & Hs & Hwf & Hc & Hsp).
  apply wpm_bind. unfold wpm at 1, mlift. rewrite Hs. set (ex := MkExchange sent dl).
  assert (ex_ok ex) as Hok by apply Hwf.
  assert (sent_for (query_packet q) (ex_sent ex)) as Hfor.
  { destruct sent as [p c]. simpl in Hsp, Hc. subst. by apply sent_first. }
  pose proof (only_refl a s) as Hr. apply wpm_bind. eapply wpm_mono; [by apply exchange_wp| |].
  2: { intros e s1 Hx. by eapply exchange_failed_attempt; [exact Hfor|done|exact (spans_refl s)|exact Hr|exact Hx|lia|lia]. }
  intros r s1 H1. pose proof H1 as (Ho1 & Ha1 & Hh1). pose proof (on_spans _ _ _ _ _ Ho1) as S1. case_bool_decide as Hbad.
  - eapply wpm_mono; [apply (finish_badcookie_wp q a ex r transport s s1); try done; by eapply fueled_spans| |].
    + intros r' s2 [Ho2 Hr']. split; [|done]. by apply (only_trans a 2 1 3 1 s s1 s2).
    + intros e s2 [Ho2 Hx]. split; [|done]. by apply (only_trans a 2 1 3 1 s s1 s2).
  - apply wpm_ret. by eapply exchange_ok_attempt; [exact Hfor|exact (spans_refl s)|exact Hr|exact H1|lia|lia].
Qed.

(** After a failure, and after a SERVFAIL or REFUSED response, comes the next server. *)
Definition wants_next (v : verdict) : bool :=
  match v with inl _ => true | inr r => retries_in_group (response_rcode r) end.
Definition reason (v : verdict) : ForwardError :=
  match v with inl e => e | inr r => from_rcode (response_rcode r) end.

(** What a group that was tried in vain comes to: the last response of its servers,
    or else the last error. *)
Definition response_of (v : verdict) : option Response := match v with inl _ => None | inr r => Some r end.
Definition error_of (v : verdict) : option ForwardError := match v with inl e => Some e | inr _ => None end.
Definition settle (relayed : option Response) (error : ForwardError) (vs : list verdict) : verdict :=
  match last (omap response_of vs), relayed with
  | Some r, _ => inr r
  | None, Some r => inr r
  | None, None => inl (default error (last (omap error_of vs)))
  end.

Lemma settle_cons relayed error v vs :
  settle (match v with inl _ => relayed | inr r => Some r end) (reason v) vs = settle relayed error (v :: vs).
Proof.
  unfold settle. destruct v as [e|r]; cbn [omap list_omap response_of error_of reason]; rewrite last_cons;
    by destruct (last (omap response_of vs)), (last (omap error_of vs)).
Qed.

(** The server [a] was tried, for two seconds at most and within the deadline of the
    request: it gave a response to the query, or failed with a reason.  [ws] are the
    lines about what was ignored from it. *)
Definition tried (q : Query) (D : Deadline) a (v : verdict) (ws : list Warning) s s' : Prop :=
  only a 5 2 s s' /\ logged ws s s'
  /\ match v with
     | inr r => answered q r s s'
     | inl e => e <> FwCancelled
         /\ exists dl s1, idle s s1 /\ instant dl = Z.min (instant D) (clock (world s1) + ATTEMPT_TIMEOUT)
                          /\ attempt_fault q dl e s s'
     end.

(** Nothing happens but that the log names the server and the reason it is given up. *)
Definition given_up a (e : ForwardError) s s' : Prop :=
  makes (fun ev => contacted1 ev = [] /\ writes_to ev = None) s s' /\ logged [UpstreamFailed a e] s s'.

(** The servers tried one after the other, each given up. *)
Inductive visits (q : Query) (D : Deadline) :
  list UpstreamAddress -> list verdict -> list Warning -> state W Forwarder -> state W Forwarder -> Prop :=
| vs_nil s : visits q D [] [] [] s s
| vs_cons a v ws addresses vs ws' s s1 s2 s' :
    tried q D a v ws s s1 -> wants_next v = true -> given_up a (reason v) s1 s2 ->
    visits q D addresses vs ws' s2 s' ->
    visits q D (a :: addresses) (v :: vs) (ws ++ UpstreamFailed a (reason v) :: ws') s s'.

(** The request ends while servers are left: its time is over, or the two seconds of
    an attempt that has not begun, or the entropy source failed; the stop flag was
    raised during an attempt; or the time is over when a response is there. *)
Inductive cut (q : Query) (D : Deadline) :
  list UpstreamAddress -> list Warning -> ForwardError -> state W Forwarder -> state W Forwarder -> Prop :=
| cut_idle dl x addresses s s1 s' :
    idle s s1 -> instant dl = instant D \/ instant dl = Z.min (instant D) (clock (world s1) + ATTEMPT_TIMEOUT) ->
    idle s s' -> interrupted dl x s s' -> cut q D addresses [] (forward_error_from x) s s'
| cut_stopped a addresses ws s s' :
    only a 5 2 s s' -> logged ws s s' -> stopped s s' -> cut q D (a :: addresses) ws FwCancelled s s'
| cut_late a addresses r ws x s s1 s' :
    tried q D a (inr r) ws s s1 -> idle s1 s' -> out_of_time D x s1 s' ->
    cut q D (a :: addresses) ws (forward_error_from x) s s'.

(** Forwarding [q] to a group within the deadline [D]: every server was tried and given
    up, and what they come to is returned in time; or the servers before one were, and
    that one gave a response that ends the search; or the request was cut short. *)
Inductive forwarded (q : Query) (D : Deadline) (relayed : option Response) (error : ForwardError)
    (addresses : list UpstreamAddress) : list Warning -> verdict -> state W Forwarder -> state W Forwarder -> Prop :=
| fwd_all vs ws s s1 s' :
    visits q D addresses vs ws s s1 -> idle s1 s' -> (clock (world s') < instant D)%Z ->
    forwarded q D relayed error addresses ws (settle relayed error vs) s s'
| fwd_final before a after vs ws ws' r s s1 s2 s' :
    addresses = before ++ a :: after -> visits q D before vs ws s s1 ->
    tried q D a (inr r) ws' s1 s2 -> wants_next (inr r) = false -> idle s2 s' -> (clock (world s') < instant D)%Z ->
    forwarded q D relayed error addresses (ws ++ ws') (inr r) s s'
| fwd_cut before after vs ws ws' e s s1 s' :
    addresses = before ++ after -> visits q D before vs ws s s1 -> cut q D after ws' e s1 s' ->
    forwarded q D relayed error addresses (ws ++ ws') (inl e) s s'.

Lemma forwarded_cons q D relayed error a v ws addresses ws' v' s s1 s2 s' :
  tried q D a v ws s s1 -> wants_next v = true -> given_up a (reason v) s1 s2 ->
  forwarded q D (match v with inl _ => relayed | inr r => Some r end) (reason v) addresses ws' v' s2 s' ->
  forwarded q D relayed error (a :: addresses) (ws ++ UpstreamFailed a (reason v) :: ws') v' s s'.
Proof.
  intros Ht Hw Hg Hf.
  assert (forall before vs ws' s', visits q D before vs ws' s2 s' ->
    visits q D (a :: before) (v :: vs) (ws ++ UpstreamFailed a (reason v) :: ws') s s') as Hv
    by (intros; by eapply vs_cons).
  destruct Hf as [vs ws'' s0 s3 s4 Hvs|before b after vs ws1 ws2 r s0 s3 s4 s5 -> Hvs|before after vs ws1 ws2 e s0 s3 s4 -> Hvs Hc].
  - rewrite (settle_cons relayed error v vs). by eapply fwd_all; [apply Hv|..].
  - rewrite (app_comm_cons ws1 ws2), (app_assoc ws). by eapply (fwd_final q D relayed error (a :: before ++ b :: after) (a :: before)); [done|apply Hv|..].
  - rewrite (app_comm_cons ws1 ws2), (app_assoc ws). by eapply (fwd_cut q D relayed error (a :: before ++ after) (a :: before)); [done|apply Hv|..].
Qed.

Lemma forwarded_here q D relayed error addresses ws e s s' :
  cut q D addresses ws e s s' -> forwarded q D relayed error addresses ws (inl e) s s'.
Proof. intros Hc. by eapply (fwd_cut q D relayed error addresses [] addresses [] []); [done|apply vs_nil|]. Qed.

(** The end of the group. *)
Lemma forward_last_wp q D error relayed s :
  wpm t (let! _ := from_io (remaining D) in mlift (ok_or relayed error))
    (fun r s' => exists ws, forwarded q D relayed error [] ws (inr r) s s')
    (fun e s' => exists ws, forwarded q D relayed error [] ws (inl e) s s') s.
Proof.
  apply wpm_bind, remaining_idle.
  2: { intros x s1 H1 Ho. exists []. apply forwarded_here. eapply cut_idle; [apply makes_refl|by left|done|by left]. }
  intros s1 _ H1 Hc.
  assert (forwarded q D relayed error [] [] (settle relayed error []) s s1) as Hend by (eapply fwd_all; [apply vs_nil|done..]).
  destruct relayed as [r|]; by exists [].
Qed.

(** The beginning of a pass: a deadline of its own and an ID. *)
Lemma attempt_start_wp {A} q D relayed error addresses (k : Deadline -> Z -> M W Forwarder ForwardError A) P s :
  (forall dl id s0 s1, idle s s0 -> instant dl = Z.min (instant D) (clock (world s0) + ATTEMPT_TIMEOUT) ->
     idle s s1 -> is_u16 id ->
     wpm t (k dl id) P (fun e s' => exists ws, forwarded q D relayed error addresses ws (inl e) s s') s1) ->
  wpm t (let! deadline := deadline_capped D ATTEMPT_TIMEOUT in
         let! _ := from_io (remaining deadline) in
         let! id := from_io next_transaction_id in k deadline id) P
    (fun e s' => exists ws, forwarded q D relayed error addresses ws (inl e) s s') s.
Proof.
  intros Hk. apply wpm_bind, deadline_capped_wp. intros s1 dl Hm1 Hdl. pose proof (idle_moved _ _ Hm1) as H1.
  assert (forall x s', idle s s' -> interrupted dl x s s' ->
    exists ws, forwarded q D relayed error addresses ws (inl (forward_error_from x)) s s') as Hcut
    by (intros x s' Hi Hx; exists []; apply forwarded_here; eapply cut_idle; [exact H1|by right|done|done]).
  apply wpm_bind, remaining_idle.
  2: { intros x s2 H2 Ho. apply Hcut; [by eapply makes_trans|left].
       eapply out_of_time_after; [apply (makes_spans _ _ _ H1)|done]. }
  intros s2 _ H2 _. pose proof (makes_trans _ _ _ _ H1 H2) as H02. apply wpm_bind, next_transaction_id_wp.
  - intros id s3 Hid H3. apply (Hk dl id s1); [done|done|by eapply makes_trans|done].
  - intros x s3 H3 Hc. apply Hcut; [by eapply makes_trans|right].
    eapply failed_call_after; [apply (makes_spans _ _ _ H02)|done].
Qed.

Lemma warn_given_up {A} a e (k : M W Forwarder ForwardError A) P Q s0 s :
  idle s0 s -> (forall s', given_up a e s0 s' -> wpm t k P Q s') -> wpm t (let! _ := warn (UpstreamFailed a e) in k) P Q s.
Proof.
  intros (C & O & l & L & F) Hk. apply wpm_bind, wpm_call. intros [] w Hw. apply Hk. split.
  - eapply (makes_trans _ s0 s); [|by apply (makes_call _ (Warn (UpstreamFailed a e)))].
    split; [done|]. split; [done|]. exists l. split; [done|]. eapply Forall_impl; [exact F|]. by intros ev (? & ? & _).
  - exists (l ++ [Ev (Warn (UpstreamFailed a e)) tt]). cbn [trace]. split; [by rewrite L, app_assoc|].
    rewrite warned_snoc. assert (warned l = []) as -> by (apply (bind_none warned1 quiet); [by intros ev (_ & _ & ? & _)|done]).
    done.
Qed.

Lemma only_logged a n m s s' : only a n m s s' -> exists ws, logged ws s s'.
Proof. intros [_ (l & L & _)]. by exists (warned l), l. Qed.

Lemma tried_idle q D a v ws s0 s s' : idle s0 s -> tried q D a v ws s s' -> tried q D a v ws s0 s'.
Proof.
  intros Hi (Ho & Hl & Hv). pose proof (makes_spans _ _ _ Hi) as S0.
  split; [by apply (only_trans a 0 0 5 2 s0 s s'); [apply idle_only|]|].
  split; [by apply (logged_app [] ws s0 s s'); [apply idle_logged|]|]. destruct v as [e|r].
  - destruct Hv as (He & dl & s1 & H1 & Hdl & Hf). split; [done|]. exists dl, s1.
    split; [by eapply makes_trans|]. split; [done|]. by eapply attempt_fault_within.
  - by eapply answered_within.
Qed.

Lemma forward_loop_wp q transport D : forall addresses error relayed s,
  fueled D s -> query_ok q ->
  wpm t (forward_loop fuel q transport D addresses error relayed)
    (fun r s' => exists ws, forwarded q D relayed error addresses ws (inr r) s s')
    (fun e s' => exists ws, forwarded q D relayed error addresses ws (inl e) s s') s.
Proof.
  induction addresses as [|a addresses IH]; intros error relayed s Hf Hq; cbn [forward_loop]; [apply forward_last_wp|].
  apply (attempt_start_wp q D relayed error (a :: addresses)). intros dl id s0 s1 Hi0 Hdl H1 Hid.
  pose proof (makes_spans _ _ _ H1) as S1.
  assert (forall v ws s2 s3, tried q D a v ws s s2 -> wants_next v = true -> idle s2 s3 ->
    wpm t (let! _ := warn (UpstreamFailed a (reason v)) in
           forward_loop fuel q transport D addresses (reason v) (match v with inl _ => relayed | inr r => Some r end))
      (fun r s' => exists ws, forwarded q D relayed error (a :: addresses) ws (inr r) s s')
      (fun e s' => exists ws, forwarded q D relayed error (a :: addresses) ws (inl e) s s') s3) as Hnext.
  { intros v ws s2 s3 Ht Hw Hi. eapply warn_given_up; [exact Hi|]. intros s4 Hg. eapply wpm_mono; [apply IH; [|done]| |].
    - destruct Ht as [Ho2 _]. eapply fueled_spans; [|exact Hf]. eapply spans_trans; [by eapply on_spans|].
      by eapply makes_spans, Hg.
    - intros r s' [ws' Hr]. eexists. by eapply forwarded_cons.
    - intros e s' [ws' He]. eexists. by eapply forwarded_cons. }
  apply wpm_bind, wpm_try. eapply wpm_mono; [apply attempt_wp; [|done|done]| |].
  { eapply fueled_clock; [apply S1| |done]. rewrite Hdl. lia. }
  - intros r s2 [Ho Hr]. destruct (only_logged _ _ _ _ _ Ho) as [ws Hl].
    assert (tried q D a (inr r) ws s s2) as Ht by (eapply tried_idle; [exact H1|by split]).
    apply wpm_bind, remaining_idle.
    2: { intros x s3 H3 Hx. exists ws. apply forwarded_here. by eapply cut_late. }
    intros s3 _ H3 Hc. cbn zeta. destruct (_ || negb _) eqn:Hfinal; [|eapply (Hnext (inr r)); [exact Ht| |exact H3]].
    + apply wpm_ret. exists ([] ++ ws). eapply (fwd_final q D relayed error (a :: addresses) []); [done|apply vs_nil|exact Ht| |done|done].
      cbn. unfold retries_in_group in *. apply orb_true_iff in Hfinal as [Hb|Hb]; [|by apply negb_true_iff].
      bool_to_prop. by rewrite Hb.
    + cbn. apply orb_false_iff in Hfinal as [_ Hb]. by apply negb_false_iff.
  - intros e s2 [Ho Hx]. destruct (only_logged _ _ _ _ _ Ho) as [ws Hl].
    assert (forall Hne : e <> FwCancelled, tried q D a (inl e) ws s s2) as Ht.
    { intros Hne. split; [by apply (only_trans a 0 0 5 2 s s1 s2); [apply idle_only|]|].
      split; [by apply (logged_app [] ws s s1 s2); [apply idle_logged|]|]. split; [done|]. exists dl, s0.
      split; [done|]. split; [done|]. by eapply attempt_fault_within. }
    destruct e; try (by eapply (Hnext (inl _)); [by apply Ht|done|apply makes_refl]).
    apply wpm_raise. exists ws. apply forwarded_here, cut_stopped.
    + by apply (only_trans a 0 0 5 2 s s1 s2); [apply idle_only|].
    + by apply (logged_app [] ws s s1 s2); [apply idle_logged|].
    + eapply seen_after; [apply S1|by eapply attempt_fault_cancelled].
Qed.
End upstream_wp.

(** ** What forwarding leaves behind *)

Section forwarded.
Context {W : Type} `{EnvLaws W}.
Implicit Types s : state W Forwarder.

(** The endpoints of a group visited in order, with at most five contacts each. *)
Definition walk {X} (addresses : list UpstreamAddress) (s s' : state W X) : Prop :=
  exists ls, did (concat ls) s s'
    /\ Forall2 (fun a l => length l <= 5 /\ Forall (eq (upstream_socket a)) l) addresses ls.
(** The first endpoints were visited. *)
Definition walked {X} (addresses : list UpstreamAddress) (s s' : state W X) : Prop :=
  exists n, walk (take n addresses) s s'.

Lemma walk_nil {X} (s s' : state W X) : did [] s s' -> walk [] s s'.
Proof. intros Hd. by exists []. Qed.
Lemma walk_then {X} addresses (s1 s2 s3 : state W X) : did [] s1 s2 -> walk addresses s2 s3 -> walk addresses s1 s3.
Proof. intros D (ls & D' & F). exists ls. split; [by eapply did_then|done]. Qed.
Lemma walk_after {X} addresses (s1 s2 s3 : state W X) : walk addresses s1 s2 -> did [] s2 s3 -> walk addresses s1 s3.
Proof.
  intros (ls & D & F) D'. exists ls. split; [|done]. rewrite <- (app_nil_r (concat ls)). by eapply did_trans.
Qed.
Lemma walk_app {X} l l' (s1 s2 s3 : state W X) : walk l s1 s2 -> walk l' s2 s3 -> walk (l ++ l') s1 s3.
Proof.
  intros (ls & D & F) (ls' & D' & F'). exists (ls ++ ls'). rewrite concat_app.
  split; [by eapply did_trans|by apply Forall2_app].
Qed.
Lemma walk_prefix {X} l l' (s1 s2 : state W X) : walk l s1 s2 -> walked (l ++ l') s1 s2.
Proof. intros Hw. exists (length l). by rewrite take_app_length. Qed.
Lemma walked_none {X} addresses (s s' : state W X) : did [] s s' -> walked addresses s s'.
Proof. intros D. exists 0. by apply walk_nil. Qed.

Lemma idle_did s s' : idle s s' -> did [] s s'.
Proof.
  intros (C & _ & l & L & F). split; [done|by exists l|]. rewrite L, contacted_app. f_equal.
  apply (bind_none contacted1 quiet); [by intros ev [? _]|done].
Qed.
Lemma only_walk a m s s' : only a 5 m s s' -> walk [a] s s'.
Proof.
  intros [C (l & L & [Hc _ _] & N & _)]. exists [contacted l]. cbn [concat]. rewrite app_nil_r.
  split; [split; [done|by exists l|by rewrite L, contacted_app]|]. constructor; [|constructor].
  split; [done|]. eapply Forall_impl; [exact Hc|]. by intros e (a' & -> & ->).
Qed.
Lemma given_up_did a e s s' : given_up a e s s' -> did [] s s'.
Proof.
  intros [(C & _ & l & L & F) _]. split; [done|by exists l|]. rewrite L, contacted_app. f_equal.
  apply (bind_none contacted1 (fun ev => contacted1 ev = [] /\ writes_to ev = None)); [by intros ev [? _]|done].
Qed.

Lemma visits_walk q D addresses vs ws s s' : visits q D addresses vs ws s s' -> walk addresses s s'.
Proof.
  induction 1 as [s|a v ws addresses vs ws' s s1 s2 s' [Ho _] _ Hg _ IH]; [by apply walk_nil, did_refl|].
  apply (walk_app [a] addresses s s1); [by eapply only_walk|]. eapply walk_then; [by eapply given_up_did|done].
Qed.

Lemma cut_walked q D addresses ws e s s' : cut q D addresses ws e s s' -> walked addresses s s'.
Proof.
  destruct 1 as [dl x addresses s s1 s' _ _ Hi _|a addresses ws s s' Ho _ _|a addresses r ws x s s1 s' [Ho _] Hi _].
  - by apply walked_none, idle_did.
  - apply (walk_prefix [a]). by eapply only_walk.
  - apply (walk_prefix [a]). eapply walk_after; [by eapply only_walk|by apply idle_did].
Qed.

(** Only the group was contacted, in its order. *)
Lemma forwarded_walked q D relayed error addresses ws v s s' :
  forwarded q D relayed error addresses ws v s s' -> walked addresses s s'.
Proof.
  destruct 1 as [vs ws s s1 s' Hv%visits_walk Hi _|before a after vs ws ws' r s s1 s2 s' -> Hv%visits_walk [Ho _] _ Hi _
    |before after vs ws ws' e s s1 s' -> Hv%visits_walk Hc%cut_walked].
  - rewrite <- (app_nil_r addresses). apply walk_prefix. eapply walk_after; [done|by apply idle_did].
  - change (a :: after) with ([a] ++ after). rewrite app_assoc. apply walk_prefix. eapply walk_app; [done|].
    eapply walk_after; [by eapply only_walk|by apply idle_did].
  - destruct Hc as [n Hc]. exists (length before + n). rewrite take_app_add. by eapply walk_app.
Qed.

(** Nothing was sent elsewhere. *)
Definition confined_to (A : UpstreamAddress -> Prop) s s' : Prop :=
  exists l, trace s' = trace s ++ l /\ confined A (fw_tcp (own s)) l (fw_tcp (own s')).

Lemma confined_to_trans A s1 s2 s3 : confined_to A s1 s2 -> confined_to A s2 s3 -> confined_to A s1 s3.
Proof.
  intros (l & L & K) (l' & L' & K'). exists (l ++ l'). rewrite L', L, app_assoc. split; [done|by eapply confined_app].
Qed.
Lemma confined_to_mono (A A' : UpstreamAddress -> Prop) s s' :
  (forall a, A a -> A' a) -> confined_to A s s' -> confined_to A' s s'.
Proof. intros HA (l & L & K). exists l. split; [done|by eapply confined_mono]. Qed.
Lemma makes_confined A ok s s' :
  (forall ev, ok ev -> contacted1 ev = [] /\ writes_to ev = None) -> makes ok s s' -> confined_to A s s'.
Proof.
  intros Hok (_ & O & l & L & F). exists l. split; [done|]. rewrite O. apply (confined_more A _ []); [apply confined_nil|].
  eapply Forall_impl; [exact F|]. intros ev [-> ->]%Hok. split; [constructor|done].
Qed.
Lemma idle_confined A s s' : idle s s' -> confined_to A s s'.
Proof. apply makes_confined. by intros ev (? & ? & _). Qed.
Lemma only_confined (A : UpstreamAddress -> Prop) a n m s s' : A a -> only a n m s s' -> confined_to A s s'.
Proof. intros Ha [_ (l & L & K & _)]. exists l. split; [done|]. eapply confined_mono; [|done]. by intros a' <-. Qed.

Lemma visits_confined (A : UpstreamAddress -> Prop) q D addresses vs ws s s' :
  Forall A addresses -> visits q D addresses vs ws s s' -> confined_to A s s'.
Proof.
  intros HA Hv. revert HA. induction Hv as [s|a v ws addresses vs ws' s s1 s2 s' [Ho _] _ [Hg _] _ IH]; intros HA.
  - by apply idle_confined, makes_refl.
  - apply Forall_cons in HA as [Ha HA]. eapply confined_to_trans; [by eapply only_confined|].
    eapply confined_to_trans; [by apply (makes_confined A _ _ _ (fun _ Hev => Hev) Hg)|by apply IH].
Qed.

Lemma cut_confined (A : UpstreamAddress -> Prop) q D addresses ws e s s' :
  Forall A addresses -> cut q D addresses ws e s s' -> confined_to A s s'.
Proof.
  intros HA Hc. revert HA.
  destruct Hc as [dl x addresses s s1 s' _ _ Hi _|a addresses ws s s' Ho _ _|a addresses r ws x s s1 s' [Ho _] Hi _];
    [intros _; by apply idle_confined|intros [Ha _]%Forall_cons..]; [by eapply only_confined|].
  eapply confined_to_trans; [by eapply only_confined|by apply idle_confined].
Qed.

Lemma forwarded_confined q D relayed error addresses ws v s s' :
  forwarded q D relayed error addresses ws v s s' -> confined_to (fun a => a ∈ addresses) s s'.
Proof.
  assert (forall l l', addresses = l ++ l' ->
    Forall (fun a => a ∈ addresses) l /\ Forall (fun a => a ∈ addresses) l') as HA
    by (intros l l' Hl; apply Forall_app; rewrite <- Hl; by apply Forall_forall).
  destruct 1 as [vs ws s s1 s' Hv Hi _|before a after vs ws ws' r s s1 s2 s' Ha Hv [Ho _] _ Hi _
    |before after vs ws ws' e s s1 s' Ha Hv Hc].
  - destruct (HA addresses []) as [Hall _]; [by rewrite app_nil_r|].
    eapply confined_to_trans; [by eapply visits_confined|by apply idle_confined].
  - destruct (HA _ _ Ha) as [Hb [Hin _]%Forall_cons].
    eapply confined_to_trans; [by eapply visits_confined|].
    eapply confined_to_trans; [by eapply only_confined|by apply idle_confined].
  - destruct (HA _ _ Ha) as [Hb Hafter].
    eapply confined_to_trans; [exact (visits_confined _ _ _ _ _ _ _ _ Hb Hv)|exact (cut_confined _ _ _ _ _ _ _ _ Hafter Hc)].
Qed.

(** The lines of the log are those listed. *)
Lemma visits_logged q D addresses vs ws s s' : visits q D addresses vs ws s s' -> logged ws s s'.
Proof.
  induction 1 as [s|a v ws addresses vs ws' s s1 s2 s' (_ & Hl & _) _ [_ Hg] _ IH]; [by apply idle_logged, makes_refl|].
  eapply logged_app; [done|]. by apply (logged_app [_] ws' s1 s2 s').
Qed.
Lemma cut_logged q D addresses ws e s s' : cut q D addresses ws e s s' -> logged ws s s'.
Proof.
  destruct 1 as [dl x addresses s s1 s' _ _ Hi _|a addresses ws s s' _ Hl _|a addresses r ws x s s1 s' (_ & Hl & _) Hi _];
    [by apply idle_logged|done|].
  rewrite <- (app_nil_r ws). eapply logged_app; [done|by apply idle_logged].
Qed.
Lemma forwarded_logged q D relayed error addresses ws v s s' :
  forwarded q D relayed error addresses ws v s s' -> logged ws s s'.
Proof.
  destruct 1 as [vs ws s s1 s' Hv%visits_logged Hi%idle_logged _
    |before a after vs ws ws' r s s1 s2 s' _ Hv%visits_logged (_ & Hl & _) _ Hi%idle_logged _
    |before after vs ws ws' e s s1 s' _ Hv%visits_logged Hc%cut_logged].
  - rewrite <- (app_nil_r ws). by eapply logged_app.
  - eapply logged_app; [done|]. rewrite <- (app_nil_r ws'). by eapply logged_app.
  - by eapply logged_app.
Qed.

Lemma last_omap_elem {A B} (f : A -> option B) l b : last (omap f l) = Some b -> exists a, a ∈ l /\ f a = Some b.
Proof. intros Hl%last_Some_elem_of. by apply list_elem_of_omap in Hl. Qed.

(** A response answers the query, whichever server gave it. *)
Lemma visits_response q D addresses vs ws s s' r : visits q D addresses vs ws s s' -> inr r ∈ vs -> response_for q r.
Proof.
  induction 1 as [s|a v ws addresses vs ws' s s1 s2 s' (_ & _ & Hv) _ _ _ IH]; [by intros ?%elem_of_nil|].
  intros [<-|?]%elem_of_cons; [by eapply answered_response|by apply IH].
Qed.
Lemma forwarded_response q D addresses ws r s s' :
  forwarded q D None FwTimeout addresses ws (inr r) s s' -> response_for q r.
Proof.
  intros Hf. remember (inr r) as v eqn:Hr.
  destruct Hf as [vs ws s s1 s' Hv _ _|before a after vs ws ws' r' s s1 s2 s' _ _ (_ & _ & Ha) _ _ _|]; simplify_eq.
  - unfold settle in Hr. destruct (last (omap response_of vs)) as [r'|] eqn:Hl; simplify_eq.
    apply last_omap_elem in Hl as ([e|r'] & Hin & [= ->]). by eapply visits_response.
  - by eapply answered_response.
Qed.

(** Only the stop flag cancels. *)
Lemma visits_error q D addresses vs ws s s' e : visits q D addresses vs ws s s' -> inl e ∈ vs -> e <> FwCancelled.
Proof.
  induction 1 as [s|a v ws addresses vs ws' s s1 s2 s' (_ & _ & Hv) _ _ _ IH]; [by intros ?%elem_of_nil|].
  intros [<-|?]%elem_of_cons; [apply Hv|by apply IH].
Qed.
Lemma visits_trace q D addresses vs ws s s' : visits q D addresses vs ws s s' -> trace s `prefix_of` trace s'.
Proof. intros (l & L & _)%visits_logged. by exists l. Qed.
Lemma cut_cancelled q D addresses ws s s' : cut q D addresses ws FwCancelled s s' -> stopped s s'.
Proof.
  intros Hc. remember FwCancelled as e eqn:He.
  destruct Hc as [dl x addresses s s1 s' _ _ _ Hx|a addresses ws s s' _ _ Hs|a addresses r ws x s s1 s' [Ho _] _ Hx]; [|done|].
  - by eapply interrupted_cancelled.
  - eapply seen_after; [apply (on_spans _ _ _ _ _ Ho)|]. eapply interrupted_cancelled; [by left|done].
Qed.
Lemma forwarded_cancelled q D addresses ws s s' :
  forwarded q D None FwTimeout addresses ws (inl FwCancelled) s s' -> stopped s s'.
Proof.
  intros Hf. remember (inl FwCancelled) as v eqn:Hr.
  destruct Hf as [vs ws s s1 s' Hv _ _| |before after vs ws ws' e s s1 s' _ Hv Hc]; simplify_eq.
  - exfalso. unfold settle in Hr. destruct (last (omap response_of vs)); [done|].
    destruct (last (omap error_of vs)) as [e|] eqn:Hl; [|done]. cbn in Hr. injection Hr as ->.
    apply last_omap_elem in Hl as ([e|r'] & Hin & [= ->]). by eapply visits_error.
  - eapply seen_after; [by eapply visits_trace|by eapply cut_cancelled].
Qed.
End forwarded.

(** ** Properties *)


Definition sample_question : Question := MkQuestion (MkName [label_a; label_test]) TA CIn.
Definition sample_forward (w : list byte) : Query := MkQuery (parsed w) sample_question.
Definition sample_servers : UpstreamGroup := MkGroup [sample_endpoint x01; sample_endpoint x02].

(** A SERVFAIL from the first server, an answer from the second. *)
Definition sample_servfail : list byte :=
  bytes_of ([18; 52; 129; 130; 0; 1; 0; 0; 0; 0; 0; 0] ++ question_a).
Definition sample_failover : state Sim Forwarder :=
  sim_start [] [sample_servfail; sample_response] (MkForwarder None).


(** C21: a stream is never shared between endpoints and never reused after a
    failed exchange.  A TCP exchange terminates with at most one connection, to its
    endpoint, and sends nothing but on a stream to that.  On success the query was
    written on and the response read from one stream, which is then cached for the
    endpoint, with the time: the stream cached for it before, if that was idle for less
    than the limit, or one connected when there was none or it failed.  On failure,
    which has a reason in the calls made, nothing is cached. *)
Theorem tcp_exchange_owns_stream {W} `{EnvLaws W} fuel a ex (s : state W Forwarder) :
  enough fuel (ex_deadline ex) s -> ex_ok ex ->
  wpm true (tcp_exchange fuel a ex) (tcp_ok a ex s) (tcp_failed a ex s) s.
Proof. intros Hf Hok. apply tcp_exchange_wp; [by intros _|done]. Qed.

(** A cached stream that is at its end, and a fresh one that answers. *)
Definition sample_reuse : state Sim Forwarder :=
  sim_start [[]; frame_of sample_response] []
    (MkForwarder (Some (MkCached (sample_endpoint x01) 7 0))).
Definition sample_exchange : Exchange := MkExchange sample_sent (MkDeadline 1000).

Lemma tcp_exchange_owns_stream_witness :
  let run := tcp_exchange sample_fuel (sample_endpoint x01) sample_exchange sample_reuse in
  own (snd run) = MkForwarder (Some (MkCached (sample_endpoint x01) 1 0))
  /\ tcp_ok (sample_endpoint x01) sample_exchange sample_reuse (MkResponse (parsed sample_response)) (snd run).
Proof.
  cbv zeta. split; [vm_compute; reflexivity|].
  refine (wpm_Ok _ _ _ _ _ _ (tcp_exchange_owns_stream sample_fuel (sample_endpoint x01) sample_exchange sample_reuse
    _ _) _); vm_compute; reflexivity.
Defined.

(** A failure of the entropy source on the BADCOOKIE path does not end the walk:
    the next server is tried and its answer returned. *)
Example entropy_failure_fails_over :
  let s := MkIo (MkSim 0 None [] [sample_badcookie_response; sample_response] []
                   [Some (x34, x12); None; Some (x34, x12)] []) [] (MkForwarder None) in
  let '(o, s') := forward 100 (sample_forward sample_cookie_query) sample_servers Udp
                    (MkDeadline 1000) s in
  o = Ok (MkResponse (parsed sample_response))
  /\ contacted (trace s') = upstream_socket <$> servers sample_servers.
Proof. vm_compute. split; reflexivity. Qed.
