(* ===== verification/Forwarding.v ===== *)
(** * Answering one request

    [src/src/forwarding.rs]: the path both client transports use, from the bytes
    of a client message to the bytes of the reply, or to silence.  A handler is
    its routing table and its [Forwarder]; the stop flag is the environment's.

    [served] lists the replies a message may get from a table and from what
    forwarding it came to, [withheld] the replies that are not sent, and
    [request_log] the lines it leaves; [relays] ties all three to the calls made, by
    [forwarded] of [Upstream]. *)

From S2P Require Import Prelude Types Name Message Cookie Net Reply Parser Body Samples Sent.
From S2P Require Import LocalReply Answers Retry Routing Io Sim Transport Upstream.

Record RequestHandler := MkHandler { rh_routing : RoutingTable; rh_forwarder : Forwarder }.

(** [RequestHandler::new]. *)
Definition handler_new (routing : RoutingTable) (entropy : ioresult unit) : ioresult RequestHandler :=
  match forwarder_new entropy with inl e => inl e | inr forwarder => inr (MkHandler routing forwarder) end.

(** [None] of an [Option]-valued method is the error [tt]. *)
Notation silence := (mraise tt).

Section forwarding.
Context {W : Type} `{!Env W} (fuel : nat).

(** The effects of a [RequestHandler] method that returns an [Option]. *)
Local Notation Rh := (M W RequestHandler unit).

(** A method call on [self.forwarder]. *)
Definition with_forwarder {E A} (m : M W Forwarder E A) : M W RequestHandler E A :=
  fun s =>
    let '(o, s') := m (MkIo (world s) (trace s) (rh_forwarder (own s))) in
    (o, MkIo (world s') (trace s') (MkHandler (rh_routing (own s)) (own s'))).

(** [.ok()?]. *)
Definition or_silence {E A} (m : M W RequestHandler E A) : Rh A := mmap_err (fun _ => tt) m.

(** [RequestHandler::expire_idle]. *)
Definition handler_expire_idle {E} : M W RequestHandler E unit := with_forwarder expire_idle.

(** A reply that is [None] for want of a response cookie is logged. *)
Definition reply_or_warn (reply : option (list byte)) : Rh (list byte) :=
  match reply with
  | Some reply => mret reply
  | None => let! _ := warn ReplySuppressed in silence
  end.

(** The part of [respond_inner] that forwards. *)
Definition relay (query : Query) (upstreams : UpstreamGroup) (transport : Transport)
    (deadline : Deadline) : Rh (list byte) :=
  let! result := mtry (with_forwarder (forward fuel query upstreams transport deadline)) in
  match result with
  | inl FwCancelled => silence
  | inl error =>
    let! _ := or_silence (remaining deadline) in
    let! _ := warn (ForwardingFailed error) in
    let! reply := mlift (query_error_reply query ServerFailure) in
    reply_or_warn reply
  | inr response =>
    let! _ := or_silence (remaining deadline) in
    if bool_decide (transport = Udp)
       && (query_udp_limit query <? Z.of_nat (length (response_wire response)))%Z
    then mlift (query_truncated_reply query response)
    else mlift (response_with_id response (query_id query))
  end.

Definition respond_inner (w : list byte) (transport : Transport) (deadline : Deadline)
    : Rh (list byte) :=
  let! _ := or_silence (remaining deadline) in
  let! header := mtry (mlift (header_parse w)) in
  match header with
  | inl error => let! _ := warn (MalformedPacket error) in silence
  | inr header =>
    if bool_decide (message_type header <> MtQuery) then silence
    else
      let! parsed := mtry (mlift (parse w)) in
      match parsed with
      | inl failure =>
        let! _ := warn (MalformedPacket (pf_error failure)) in
        mlift (ok_or (failure_format_reply failure) tt)
      | inr packet =>
        let! decision := mlift (validate_query packet) in
        match decision with
        | Reject code =>
          let! reply := mlift (local_error_reply packet code) in
          reply_or_warn reply
        | Ignore => silence
        | Forward query =>
          let! self := mget in
          match select (rh_routing self) (query_get_name query) with
          | SelLocal record =>
            let! reply := mlift (query_local_a_reply query (local_address record) (local_ttl record)) in
            mlift (ok_or reply tt)
          | SelUnmatched =>
            let! reply := mlift (query_error_reply query NameError) in
            mlift (ok_or reply tt)
          | SelDefault group => relay query group transport deadline
          | SelRouted route => relay query (route_upstreams route) transport deadline
          end
        end
      end
  end.

(** [RequestHandler::respond]. *)
Definition respond (w : list byte) (transport : Transport) (deadline : Deadline) : Rh (list byte) :=
  let! reply := respond_inner w transport deadline in
  let! _ := or_silence (remaining deadline) in
  let! self := mget in
  if has_upstreams (rh_routing self) then mret reply else mlift (without_recursion reply).
End forwarding.

(** ** What a reply may be *)

(** The servers a request may be forwarded to. *)
Definition eligible (table : RoutingTable) (w : list byte) : list UpstreamAddress :=
  match packet_parse w with
  | Ok p =>
    match validate_query (E:=ParseError) p with
    | Ok (Forward q) =>
      match select table (query_get_name q) with
      | SelDefault group => servers group
      | SelRouted route => servers (route_upstreams route)
      | SelLocal _ | SelUnmatched => []
      end
    | _ => []
    end
  | _ => []
  end.

(** [w] parses to [p], which may be forwarded as [q]. *)
Definition forwards (w : list byte) (p : Packet) (q : Query) : Prop :=
  packet_parse w = Ok p /\ validate_query (E:=ParseError) p = Ok (Forward q).

Definition selected (table : RoutingTable) (q : Query) (group : UpstreamGroup) : Prop :=
  select table (query_get_name q) = SelDefault group
  \/ exists route, select table (query_get_name q) = SelRouted route /\ route_upstreams route = group.

(** A name that is local, or matches nothing. *)
Definition answered_here (table : RoutingTable) (q : Query) : Prop :=
  match select table (query_get_name q) with SelLocal _ | SelUnmatched => True | SelDefault _ | SelRouted _ => False end.

(** What is said below of a request depends on what forwarding its query to a group
    came to, and on what that logged: [fwd]. *)
Section served.
Context (fwd : Query -> UpstreamGroup -> verdict -> list Warning -> Prop) (table : RoutingTable) (w : list byte).

(** The query was forwarded to the group selected for its name, which gave [v]. *)
Inductive forwarding (p : Packet) (q : Query) (v : verdict) (ws : list Warning) : Prop :=
| forwarding_group group : forwards w p q -> selected table q group -> fwd q group v ws -> forwarding p q v ws.

(** The replies to [w], case by case. *)
Inductive served (transport : Transport) : Packet -> Prop :=
| served_malformed f h q e r :
    parse w = Err f -> query_header w h -> replies h q e r FormatError false 0 ->
    served transport r
| served_rejected p code r :
    packet_parse w = Ok p -> validate_query (E:=ParseError) p = Ok (Reject code) ->
    answers p r code false 0 -> served transport r
| served_local p q record r :
    forwards w p q -> select table (query_get_name q) = SelLocal record ->
    answers p r (local_code (query_question q)) false
      (if has_local_data (query_question q) then 1 else 0) ->
    (has_local_data (query_question q) = true ->
     holds_a_record (wire r) (query_question q) (local_address record) (local_ttl record)) ->
    served transport r
| served_unmatched p q r :
    forwards w p q -> select table (query_get_name q) = SelUnmatched ->
    answers p r NameError false 0 -> served transport r
| served_failed p q e ws r :
    forwarding p q (inl e) ws -> e <> FwCancelled -> answers p r ServerFailure false 0 ->
    served transport r
| served_truncated p q response ws r :
    forwarding p q (inr response) ws -> response_for q response -> transport = Udp ->
    (udp_limit p < Z.of_nat (length (response_wire response)))%Z ->
    answers p r (response_rcode response) true 0 -> served transport r
| served_relayed p q response ws :
    forwarding p q (inr response) ws -> response_for q response ->
    (transport = Udp -> (Z.of_nat (length (response_wire response)) <= udp_limit p)%Z) ->
    served transport (packet_set_id (response_packet response) (h_id (header p))).

(** The replies that are withheld from a client that sent a server cookie, which they
    could not return. *)
Inductive withheld : Prop :=
| withheld_rejected p code :
    packet_parse w = Ok p -> validate_query (E:=ParseError) p = Ok (Reject code) -> sent_server_cookie p -> withheld
| withheld_local p q record :
    forwards w p q -> select table (query_get_name q) = SelLocal record -> sent_server_cookie p -> withheld
| withheld_unmatched p q :
    forwards w p q -> select table (query_get_name q) = SelUnmatched -> sent_server_cookie p -> withheld
| withheld_failed p q e ws :
    forwarding p q (inl e) ws -> e <> FwCancelled -> sent_server_cookie p -> withheld.

(** The lines a request leaves in the log, when it gets a reply ([true]) and when it
    does not; [ended] says that its time was over or the stop flag raised. *)
Inductive request_log (ended : Prop) : bool -> list Warning -> Prop :=
| rl_header e : header_parse w = Err e -> request_log ended false [MalformedPacket e]
| rl_not_query h :
    header_parse w = Ok (E:=ParseError) h -> message_type h <> MtQuery -> request_log ended false []
| rl_malformed f h :
    header_parse w = Ok (E:=ParseError) h -> message_type h = MtQuery -> parse w = Err f ->
    request_log ended (is_some (failure_format_reply f)) [MalformedPacket (pf_error f)]
| rl_rejected p code :
    packet_parse w = Ok p -> validate_query (E:=ParseError) p = Ok (Reject code) -> request_log ended true []
| rl_suppressed p code :
    packet_parse w = Ok p -> validate_query (E:=ParseError) p = Ok (Reject code) -> sent_server_cookie p ->
    request_log ended false [ReplySuppressed]
| rl_answered p q :
    forwards w p q -> answered_here table q -> request_log ended true []
| rl_unanswered p q :
    forwards w p q -> answered_here table q -> sent_server_cookie p -> request_log ended false []
| rl_relayed p q response ws :
    forwarding p q (inr response) ws -> request_log ended true ws
| rl_failed p q e ws :
    forwarding p q (inl e) ws -> e <> FwCancelled -> request_log ended true (ws ++ [ForwardingFailed e])
| rl_withheld p q e ws :
    forwarding p q (inl e) ws -> e <> FwCancelled -> sent_server_cookie p ->
    request_log ended false (ws ++ [ForwardingFailed e; ReplySuppressed])
| rl_cancelled p q ws : forwarding p q (inl FwCancelled) ws -> request_log ended false ws
| rl_over p q v ws : forwarding p q v ws -> ended -> request_log ended false ws.
End served.

Section served_mono.
Context (fwd fwd' : Query -> UpstreamGroup -> verdict -> list Warning -> Prop) (table : RoutingTable) (w : list byte).
Hypothesis later : forall q group v ws, fwd q group v ws -> fwd' q group v ws.

Lemma forwarding_mono p q v ws : forwarding fwd table w p q v ws -> forwarding fwd' table w p q v ws.
Proof. intros [group]. econstructor; eauto. Qed.
Lemma served_mono transport r : served fwd table w transport r -> served fwd' table w transport r.
Proof.
  destruct 1;
    [by eapply served_malformed|by eapply served_rejected|by eapply served_local|by eapply served_unmatched
    |eapply served_failed|eapply served_truncated|eapply served_relayed]; eauto using forwarding_mono.
Qed.
Lemma withheld_mono : withheld fwd table w -> withheld fwd' table w.
Proof.
  destruct 1;
    [by eapply withheld_rejected|by eapply withheld_local|by eapply withheld_unmatched|eapply withheld_failed];
    eauto using forwarding_mono.
Qed.
Lemma request_log_mono (ended ended' : Prop) replied ws :
  (ended -> ended') -> request_log fwd table w ended replied ws -> request_log fwd' table w ended' replied ws.
Proof.
  intros He [].
  - by apply rl_header.
  - by eapply rl_not_query.
  - by eapply rl_malformed.
  - by eapply rl_rejected.
  - by eapply rl_suppressed.
  - by eapply rl_answered.
  - by eapply rl_unanswered.
  - eapply rl_relayed; eauto using forwarding_mono.
  - eapply rl_failed; eauto using forwarding_mono.
  - eapply rl_withheld; eauto using forwarding_mono.
  - eapply rl_cancelled; eauto using forwarding_mono.
  - eapply rl_over; eauto using forwarding_mono.
Qed.
End served_mono.

Section during.
Context {W : Type} `{EnvLaws W}.
Implicit Types s : state W RequestHandler.

(** What forwarding came to between [s] and [s']. *)
Definition relays (dl : Deadline) s s' (q : Query) (group : UpstreamGroup) (v : verdict) (ws : list Warning) : Prop :=
  exists s1 s2 : state W Forwarder,
    spans s s1 /\ forwarded q dl None FwTimeout (servers group) ws v s1 s2 /\ spans s2 s'.

(** The request is over: shutdown, or its deadline. *)
Definition over (dl : Deadline) s s' : Prop := stopped s s' \/ (instant dl <= clock (world s'))%Z.

(** Why a request may go unanswered: shutdown, its deadline, an input that is
    not a query with a readable header, or a client that sent a server cookie
    and so must not get the unverified local reply called for. *)
Definition unanswered (table : RoutingTable) (w : list byte) (dl : Deadline) s s' : Prop :=
  over dl s s' \/ (forall h, ~ query_header w h) \/ withheld (relays dl s s') table w.

Lemma relays_within dl s0 s1 s2 s3 q group v ws :
  spans s0 s1 -> spans s2 s3 -> relays dl s1 s2 q group v ws -> relays dl s0 s3 q group v ws.
Proof.
  intros H01 H23 (f1 & f2 & H1 & Hf & H2). exists f1, f2. split; [by eapply spans_trans|].
  split; [done|by eapply spans_trans].
Qed.
Lemma over_within dl s0 s1 s2 s3 : spans s0 s1 -> spans s2 s3 -> over dl s1 s2 -> over dl s0 s3.
Proof.
  intros H01 H23 [Hs|Hc]; [left|right; destruct H23; lia].
  eapply seen_after; [apply H01|]. eapply seen_before; [done|apply H23].
Qed.
Lemma unanswered_within table w dl s0 s1 s2 s3 :
  spans s0 s1 -> spans s2 s3 -> unanswered table w dl s1 s2 -> unanswered table w dl s0 s3.
Proof.
  intros H01 H23 [Ho|[Hn|Hw]]; [left; by eapply over_within|by right; left|right; right].
  eapply withheld_mono; [|exact Hw]. intros. by eapply relays_within.
Qed.
End during.

Section forwarding_wp.
Context {W : Type} `{EnvLaws W} (fuel : nat) (t : bool).
Implicit Types s : state W RequestHandler.

(** The forwarder's share of a state, and a state with another share. *)
Definition focus s : state W Forwarder := MkIo (world s) (trace s) (rh_forwarder (own s)).
Definition refocus s (f : state W Forwarder) : state W RequestHandler :=
  MkIo (world f) (trace f) (MkHandler (rh_routing (own s)) (own f)).

Lemma wpm_forwarder {E A} (m : M W Forwarder E A) P Q s :
  wpm t m (fun a f => P a (refocus s f)) (fun e f => Q e (refocus s f)) (focus s) ->
  wpm t (with_forwarder m) P Q s.
Proof. unfold wpm, with_forwarder, focus. destruct (m _) as [[a|e| |] f]; done. Qed.

(** A step of a handler that served from the table it had: at most the servers [l] were
    visited, in order, and nothing was sent elsewhere. *)
Record handled (l : list UpstreamAddress) s s' : Prop := {
  hd_clock : (clock (world s) <= clock (world s'))%Z;
  hd_walked : walked l s s';
  hd_confined : confined_to (fun a => a ∈ l) (focus s) (focus s');
  hd_table : rh_routing (own s') = rh_routing (own s)
}.

Lemma handled_spans l s s' : handled l s s' -> spans s s'.
Proof. intros [C _ (k & L & _) _]. split; [done|by exists k]. Qed.

Lemma walked_then l s1 s2 s3 : did [] s1 s2 -> walked l s2 s3 -> walked l s1 s3.
Proof. intros D [n Hw]. exists n. by eapply walk_then. Qed.
Lemma walked_after l s1 s2 s3 : walked l s1 s2 -> did [] s2 s3 -> walked l s1 s3.
Proof. intros [n Hw] D. exists n. by eapply walk_after. Qed.

(** A step beside the exchanges: it contacts nobody and sends nothing. *)
Definition beside s s' : Prop := makes (fun ev => contacted1 ev = [] /\ writes_to ev = None) s s'.

Lemma idle_beside s s' : idle s s' -> beside s s'.
Proof.
  intros (C & O & l & L & F). split; [done|]. split; [done|]. exists l. split; [done|].
  eapply Forall_impl; [exact F|]. by intros ev (? & ? & _).
Qed.

Lemma beside_did s s' : beside s s' -> did [] s s'.
Proof.
  intros (C & _ & l & L & F). split; [done|by exists l|]. rewrite L, contacted_app. f_equal.
  apply (bind_none contacted1 (fun ev => contacted1 ev = [] /\ writes_to ev = None)); [by intros ev [? _]|done].
Qed.

Lemma beside_confined A s s' : beside s s' -> confined_to A (focus s) (focus s').
Proof.
  intros (C & O & l & L & F). unfold focus. rewrite O.
  apply (makes_confined A (fun ev => contacted1 ev = [] /\ writes_to ev = None)); [done|]. split; [done|]. split; [done|by exists l].
Qed.

Lemma handled_refl l s : handled l s s.
Proof.
  split; [done|by apply walked_none, did_refl| |done]. apply beside_confined, makes_refl.
Qed.
Lemma handled_after l s1 s2 s3 : handled l s1 s2 -> beside s2 s3 -> handled l s1 s3.
Proof.
  intros [C Hw Hc Ht] Hb. pose proof Hb as (C' & O & _).
  split; [lia|by eapply walked_after, beside_did| |by rewrite O].
  eapply confined_to_trans; [done|by apply beside_confined].
Qed.
Lemma handled_then l s1 s2 s3 : beside s1 s2 -> handled l s2 s3 -> handled l s1 s3.
Proof.
  intros Hb [C Hw Hc Ht]. pose proof Hb as (C' & O & _).
  split; [lia|eapply walked_then; [by apply beside_did|done]| |by rewrite <- O].
  eapply confined_to_trans; [by apply beside_confined|done].
Qed.

Lemma handled_forwarded q dl addresses ws v s f :
  forwarded q dl None FwTimeout addresses ws v (focus s) f -> handled addresses s (refocus s f).
Proof.
  intros Hf. pose proof (forwarded_walked _ _ _ _ _ _ _ _ _ Hf) as (n & ls & [Hc Ht Hk] & F).
  split; [done|exists n, ls; split; [by split|done]| |done].
  apply forwarded_confined in Hf as (l & L & K). by exists l.
Qed.

Lemma relays_refocus dl q group v ws s f :
  forwarded q dl None FwTimeout (servers group) ws v (focus s) f -> relays dl s (refocus s f) q group v ws.
Proof. intros Hf. by exists (focus s), f. Qed.

(** The checkpoint of every step. *)
Lemma remaining_silence dl (P : Z -> state W RequestHandler -> Prop) Q s :
  (forall left_ s', idle s s' -> (clock (world s') < instant dl)%Z -> P left_ s') ->
  (forall s', idle s s' -> over dl s s' -> Q tt s') ->
  wpm t (or_silence (remaining dl)) P Q s.
Proof.
  intros HP HQ. apply wpm_map_err, remaining_wp.
  - intros s' Hm Hc. apply HP; [by apply idle_moved|done].
  - intros e s' Hm Ho. apply HQ; [by apply idle_moved|]. destruct Ho as [[_ ?]|[_ ?]]; [by left|by right].
Qed.

(** A line in the log. *)
Lemma warn_aside {E A} wr (k : M W RequestHandler E A) P Q s :
  (forall s', beside s s' -> logged [wr] s s' -> wpm t k P Q s') -> wpm t (let! _ := warn wr in k) P Q s.
Proof.
  intros Hk. apply wpm_bind, wpm_call. intros [] w' Hw. apply Hk; [by apply (makes_call _ (Warn wr))|].
  by exists [Ev (Warn wr) tt].
Qed.

(** What [respond_inner] promises of a reply, and of silence. *)
Definition inner_ok (l : list UpstreamAddress) w transport dl s (bytes : list byte) s' : Prop :=
  handled l s s'
  /\ (exists r, packet_parse bytes = Ok r /\ served (relays dl s s') (rh_routing (own s)) w transport r)
  /\ exists ws, logged ws s s' /\ request_log (relays dl s s') (rh_routing (own s)) w (over dl s s') true ws.
Definition inner_silent (l : list UpstreamAddress) w dl s s' : Prop :=
  handled l s s' /\ unanswered (rh_routing (own s)) w dl s s'
  /\ exists ws, logged ws s s'
       /\ (request_log (relays dl s s') (rh_routing (own s)) w (over dl s s') false ws \/ ws = [] /\ over dl s s').

Lemma inner_ok_then l w transport dl s0 s bytes s' :
  idle s0 s -> inner_ok l w transport dl s bytes s' -> inner_ok l w transport dl s0 bytes s'.
Proof.
  intros Hi (Hh & (r & Hr & Hs) & ws & Hl & Hlog). pose proof Hi as (_ & O & _). rewrite O in *.
  pose proof (makes_spans _ _ _ Hi) as S0.
  assert (forall q group v ws, relays dl s s' q group v ws -> relays dl s0 s' q group v ws) as Hre
    by (intros; by eapply relays_within).
  split; [eapply handled_then; [by apply idle_beside|done]|]. split.
  - exists r. split; [done|]. by eapply served_mono.
  - exists ws. split; [by apply (logged_app [] ws s0 s s'); [apply idle_logged|]|].
    eapply request_log_mono; [done| |done]. by eapply over_within.
Qed.

Lemma inner_silent_then l w dl s0 s s' : idle s0 s -> inner_silent l w dl s s' -> inner_silent l w dl s0 s'.
Proof.
  intros Hi (Hh & Hu & ws & Hl & Hlog). pose proof Hi as (_ & O & _). rewrite O in *.
  pose proof (makes_spans _ _ _ Hi) as S0.
  assert (forall q group v ws, relays dl s s' q group v ws -> relays dl s0 s' q group v ws) as Hre
    by (intros; by eapply relays_within).
  split; [eapply handled_then; [by apply idle_beside|done]|]. split; [by eapply unanswered_within|].
  exists ws. split; [by apply (logged_app [] ws s0 s s'); [apply idle_logged|]|].
  destruct Hlog as [Hlog|[-> Ho]]; [left|right; split; [done|by eapply over_within]].
  eapply request_log_mono; [done| |done]. by eapply over_within.
Qed.

(** A local reply that only a server cookie suppresses, which is logged or not; [ws0] is
    what the request logged before. *)
Lemma local_reply_wp (log : bool) l w transport dl s0 s ws0 (m : outcome unit (option (list byte))) :
  handled l s0 s -> logged ws0 s0 s ->
  (exists o, m = Ok o
     /\ (o = None ->
         withheld (relays dl s0 s) (rh_routing (own s0)) w
         /\ request_log (relays dl s0 s) (rh_routing (own s0)) w (over dl s0 s) false
              (ws0 ++ if log then [ReplySuppressed] else []))
     /\ forall bytes, o = Some bytes ->
          exists r, packet_parse bytes = Ok r /\ served (relays dl s0 s) (rh_routing (own s0)) w transport r
            /\ request_log (relays dl s0 s) (rh_routing (own s0)) w (over dl s0 s) true ws0) ->
  wpm t (let! reply := mlift m in if log then reply_or_warn reply else mlift (ok_or reply tt))
    (inner_ok l w transport dl s0) (fun _ => inner_silent l w dl s0) s.
Proof.
  intros Hd Hl (o & -> & Hn & Hb). apply wpm_bind. unfold wpm at 1, mlift at 1.
  destruct o as [bytes|].
  - destruct (Hb bytes eq_refl) as (r & Hr & Hs & Hlog).
    destruct log; (split; [exact Hd|split; [by exists r|by exists ws0]]).
  - destruct (Hn eq_refl) as [Hw Hlog]. destruct log; cbn [reply_or_warn ok_or].
    2: { split; [exact Hd|]. split; [by right; right|]. exists ws0. rewrite app_nil_r in Hlog. auto. }
    apply warn_aside. intros s' Hb' Hl'. pose proof (makes_spans _ _ _ Hb') as S'.
    assert (forall q group v ws, relays dl s0 s q group v ws -> relays dl s0 s' q group v ws) as Hre
      by (intros; by eapply relays_within).
    apply wpm_raise. split; [by eapply handled_after|]. split; [right; right; by eapply withheld_mono|].
    eexists. split; [by eapply logged_app|]. left. eapply request_log_mono; [done| |done]. by eapply over_within.
Qed.

Lemma forwards_query_ok w p q : forwards w p q -> query_ok q.
Proof.
  intros [Hp Hv]. pose proof (proj1 (validate_query_forward _ _) Hv) as [Hq _].
  exists w. rewrite Hq. split; [done|by eapply validate_query_errorless].
Qed.

Lemma forwards_packet w p q : forwards w p q -> query_packet q = p.
Proof. intros [_ Hv]. by apply validate_query_forward in Hv as [? _]. Qed.

(** The bytes a relayed response becomes. *)
Lemma relayed_reply_wp fwd table w p q transport response ws s P Q :
  forwarding fwd table w p q (inr response) ws -> response_for q response ->
  (forall bytes r, served fwd table w transport r -> packet_parse bytes = Ok r -> P bytes s) ->
  wpm (W:=W) (X:=RequestHandler) (E:=unit) t
    (if bool_decide (transport = Udp)
        && (query_udp_limit q <? Z.of_nat (length (response_wire response)))%Z
     then mlift (query_truncated_reply q response)
     else mlift (response_with_id response (query_id q))) P Q s.
Proof.
  intros Hfw Hresp HP. pose proof Hfw as [group Hf _ _]. pose proof (forwards_packet _ _ _ Hf) as Hq.
  pose proof Hf as [Hp%packet_parse_Ok _]. destruct Hp as [Hwf _].
  pose proof Hresp as [Hparse (sent & Hsent & _ & Hacc)].
  pose proof (packet_parse_Ok _ _ Hparse) as [Hrwf _].
  unfold query_truncated_reply, query_udp_limit, query_id, response_with_id. rewrite Hq in *.
  destruct (_ && _) eqn:Hbig; unfold wpm, mlift.
  - assert (edns p = None -> edns (response_packet response) = None) as Hedns.
    { intros Hn. destruct (edns (response_packet response)) as [e|] eqn:He; [|done].
      destruct (sent_for_edns w p sent) as [e' He']; [apply Hf|done| |congruence].
      apply (ac_edns _ _ Hacc). by rewrite He. }
    destruct (truncated_reply_answers p (response_packet response) Hwf Hrwf Hedns unit)
      as (bytes & r & Hb & Hr & Ha & _).
    destruct response as [up]. cbn [response_packet] in *. rewrite Hb.
    apply (HP bytes r); [|done]. bool_to_prop. by eapply served_truncated.
  - rewrite packet_with_id_Ok by done.
    apply (HP _ (packet_set_id (response_packet response) (h_id (header p)))).
    + eapply served_relayed; try done. intros ->. bool_to_prop.
      apply andb_false_iff in Hbig as [Hb|Hb]; bool_to_prop; done.
    + apply packet_parse_set_id; [|exact Hparse].
      by destruct (header_parse_Ok _ _ (pw_header _ Hwf)) as (_ & (Hid & _) & _).
Qed.

(** After [forward]: what is known of the request from here on. *)
Record relayed (l : list UpstreamAddress) w p q dl (v : verdict) (ws : list Warning) s0 s : Prop := {
  re_handled : handled l s0 s;
  re_logged : logged ws s0 s;
  re_forwarding : forwarding (relays dl s0 s) (rh_routing (own s0)) w p q v ws
}.

Lemma relayed_idle l w p q dl v ws s0 s s' : relayed l w p q dl v ws s0 s -> idle s s' -> relayed l w p q dl v ws s0 s'.
Proof.
  intros [Hh Hl Hf] Hi. pose proof (makes_spans _ _ _ Hi) as S'. split.
  - eapply handled_after; [done|by apply idle_beside].
  - rewrite <- (app_nil_r ws). eapply logged_app; [done|by apply idle_logged].
  - eapply forwarding_mono; [|done]. intros. by eapply relays_within.
Qed.

Lemma relayed_over l w p q dl v ws s0 s s' :
  relayed l w p q dl v ws s0 s -> idle s s' -> over dl s s' -> inner_silent l w dl s0 s'.
Proof.
  intros Hr Hi Ho. pose proof (relayed_idle _ _ _ _ _ _ _ _ _ _ Hr Hi) as [Hh Hl Hf].
  assert (over dl s0 s') as Ho' by (eapply over_within; [by eapply handled_spans, Hr|done|done]).
  split; [done|]. split; [by left|]. exists ws. split; [done|]. left. by eapply rl_over.
Qed.

(** Forwarding failed: SERVFAIL. *)
Lemma relay_failed_wp l w p q transport dl e ws s0 s :
  relayed l w p q dl (inl e) ws s0 s -> e <> FwCancelled ->
  wpm t (let! _ := or_silence (remaining dl) in
         let! _ := warn (ForwardingFailed e) in
         let! reply := mlift (query_error_reply q ServerFailure) in
         reply_or_warn reply)
    (inner_ok l w transport dl s0) (fun _ => inner_silent l w dl s0) s.
Proof.
  intros Hr He. apply wpm_bind, remaining_silence; [|intros s1 Hi Ho; by eapply relayed_over].
  intros _ s1 Hi _. pose proof (relayed_idle _ _ _ _ _ _ _ _ _ _ Hr Hi) as [Hh Hl Hf].
  apply warn_aside. intros s2 Hb Hl2. pose proof (makes_spans _ _ _ Hb) as S2.
  assert (forwarding (relays dl s0 s2) (rh_routing (own s0)) w p q (inl e) ws) as Hf2
    by (eapply forwarding_mono; [|done]; intros; by eapply relays_within).
  pose proof Hf2 as [group Hfw _ _]. pose proof (forwards_packet _ _ _ Hfw) as Hq.
  destruct Hfw as [Hp _]. pose proof (packet_parse_Ok _ _ Hp) as [Hwf _].
  apply (local_reply_wp true l w transport dl s0 s2 (ws ++ [ForwardingFailed e]));
    [by eapply handled_after|by eapply logged_app|].
  unfold query_error_reply. rewrite Hq.
  destruct (local_error_reply_cases p ServerFailure Hwf unit) as (o & Ho & Hn & Hb').
  exists o. split; [done|]. split.
  - intros Hnone%Hn. split; [by eapply withheld_failed|]. rewrite <- app_assoc. by eapply rl_withheld.
  - intros bytes ->%Hb'. destruct (error_reply_answers p ServerFailure Hwf) as (r & Hr' & Ha);
      [apply local_code_fits; left|].
    exists r. split; [done|]. split; [by eapply served_failed|by eapply rl_failed].
Qed.

Lemma relay_wp w p q group transport dl s :
  forwards w p q -> selected (rh_routing (own s)) q group -> (t = true -> enough fuel dl s) ->
  wpm t (relay fuel q group transport dl)
    (inner_ok (servers group) w transport dl s) (fun _ => inner_silent (servers group) w dl s) s.
Proof.
  intros Hf Hsel Hfuel.
  assert (forall v ws f, forwarded q dl None FwTimeout (servers group) ws v (focus s) f ->
    relayed (servers group) w p q dl v ws s (refocus s f)) as Hrel.
  { intros v ws f Hfd. split; [by eapply handled_forwarded|by apply forwarded_logged in Hfd|].
    exists group; [done|done|by apply relays_refocus]. }
  apply wpm_bind, wpm_try, wpm_forwarder. eapply wpm_mono.
  { apply forward_loop_wp; [exact Hfuel|by eapply forwards_query_ok]. }
  - intros response f [ws Hfd]. pose proof (forwarded_response _ _ _ _ _ _ _ Hfd) as Hresp. apply Hrel in Hfd.
    apply wpm_bind, remaining_silence; [|intros s1 Hi Ho; by eapply relayed_over].
    intros _ s1 Hi _. pose proof (relayed_idle _ _ _ _ _ _ _ _ _ _ Hfd Hi) as [Hh Hl Hfw].
    eapply relayed_reply_wp; [exact Hfw|done|]. intros bytes r Hs Hb. split; [done|]. split; [by exists r|].
    exists ws. split; [done|by eapply rl_relayed].
  - intros e f [ws Hfd]. pose proof Hfd as Hr%Hrel.
    assert (e = FwCancelled \/ e <> FwCancelled) as [->|He] by (destruct e; auto).
    + apply wpm_raise. apply forwarded_cancelled in Hfd as Hst. pose proof Hr as [Hh Hl Hfw].
      split; [done|]. split; [by left; left|]. exists ws. split; [done|]. left. by eapply rl_cancelled.
    + pose proof (relay_failed_wp _ _ _ _ transport _ _ _ _ _ Hr He) as Hfail. by destruct e.
Qed.

(** The TTL of a local record is a [u32]. *)
Definition table_wf (table : RoutingTable) : Prop :=
  Forall (fun record => is_u32 (local_ttl record)) (rt_local table).

Lemma select_local_wf table name record :
  table_wf table -> select table name = SelLocal record -> is_u32 (local_ttl record).
Proof.
  intros Ht Hs. unfold select in Hs.
  assert (find (fun record => is_subdomain_of name (local_suffix record)) (rt_local table) = Some record)
    as Hf by (destruct (find _ (rt_routes table)), (find _ (rt_local table)), (rt_default table);
              repeat case_match; by simplify_eq).
  apply find_some in Hf as [Hin%list_elem_of_In _]. by apply (Forall_forall _ _) with record in Ht.
Qed.

(** A name that is answered here. *)
Lemma answer_here_wp w p q transport dl s (m : outcome unit (option (list byte))) :
  forwards w p q -> answered_here (rh_routing (own s)) q ->
  (exists o, m = Ok o /\ (o = None -> sent_server_cookie p /\ withheld (relays dl s s) (rh_routing (own s)) w)
     /\ forall bytes, o = Some bytes ->
          exists r, packet_parse bytes = Ok r /\ served (relays dl s s) (rh_routing (own s)) w transport r) ->
  wpm t (let! reply := mlift m in mlift (ok_or reply tt))
    (inner_ok [] w transport dl s) (fun _ => inner_silent [] w dl s) s.
Proof.
  intros Hf Hhere (o & Hm & Hn & Hb). pose proof (idle_logged _ _ (makes_refl quiet s)) as Hl.
  apply (local_reply_wp false [] w transport dl s s []); [apply handled_refl|done|].
  exists o. split; [done|]. split.
  - intros Ho. destruct (Hn Ho) as [Hc Hw]. split; [done|]. by eapply rl_unanswered.
  - intros bytes Ho. destruct (Hb bytes Ho) as (r & Hr & Hs). exists r. split; [done|]. split; [done|].
    by eapply rl_answered.
Qed.

(** The query of a request, served from the table or forwarded. *)
Lemma serve_query_wp w p q transport dl s :
  forwards w p q -> table_wf (rh_routing (own s)) -> (t = true -> enough fuel dl s) ->
  let l := eligible (rh_routing (own s)) w in
  wpm t
    (match select (rh_routing (own s)) (query_get_name q) with
     | SelLocal record =>
       let! reply := mlift (query_local_a_reply q (local_address record) (local_ttl record)) in
       mlift (ok_or reply tt)
     | SelUnmatched =>
       let! reply := mlift (query_error_reply q NameError) in
       mlift (ok_or reply tt)
     | SelDefault group => relay fuel q group transport dl
     | SelRouted route => relay fuel q (route_upstreams route) transport dl
     end) (inner_ok l w transport dl s) (fun _ => inner_silent l w dl s) s.
Proof.
  intros Hf Ht Hfuel. pose proof Hf as [Hp Hv]. pose proof (forwards_packet _ _ _ Hf) as Hq.
  pose proof (packet_parse_Ok _ _ Hp) as [Hwf _].
  pose proof (proj1 (validate_query_forward _ _) Hv) as [_ Hfwd].
  unfold eligible. rewrite Hp, Hv. cbv zeta.
  destruct (select _ _) as [group|route|record|] eqn:Hsel.
  - apply (relay_wp w p); [done|by left|done].
  - apply (relay_wp w p); [done|right; by exists route|done].
  - apply (answer_here_wp w p q); [done|unfold answered_here; by rewrite Hsel|].
    pose proof (select_local_wf _ _ _ Ht Hsel) as Httl.
    pose proof (fwd_question _ _ Hfwd) as Hqs.
    unfold query_local_a_reply. rewrite Hq.
    destruct (local_a_reply_cases p (query_question q) (local_address record) (local_ttl record)
      Hwf Hqs unit) as (o & Ho & Hn & Hb).
    exists o. split; [done|]. split; [intros Hnone%Hn; split; [done|by eapply withheld_local]|].
    intros bytes Hbytes.
    destruct (local_a_reply_answers p (query_question q) (local_address record) (local_ttl record)
      Hwf Hqs Httl) as (r & Hr & Ha & Hd).
    rewrite <- (Hb bytes Hbytes) in *. exists r. split; [done|].
    eapply served_local; [done|done|done|].
    by rewrite (proj2 (packet_parse_Ok _ _ Hr)).
  - apply (answer_here_wp w p q); [done|unfold answered_here; by rewrite Hsel|].
    unfold query_error_reply. rewrite Hq.
    destruct (local_error_reply_cases p NameError Hwf unit) as (o & Ho & Hn & Hb).
    exists o. split; [done|]. split; [intros Hnone%Hn; split; [done|by eapply withheld_unmatched]|].
    intros bytes ->%Hb. destruct (error_reply_answers p NameError Hwf) as (r & Hr & Ha);
      [apply local_code_fits; right; left|].
    exists r. split; [done|]. by eapply served_unmatched.
Qed.

(** Silence that is called for. *)
Lemma inner_silent_nothing l w dl s s' ws :
  beside s s' -> logged ws s s' -> unanswered (rh_routing (own s)) w dl s s' ->
  request_log (relays dl s s') (rh_routing (own s)) w (over dl s s') false ws \/ ws = [] /\ over dl s s' ->
  inner_silent l w dl s s'.
Proof.
  intros Hb Hl Hu Hlog. split; [eapply handled_after; [apply handled_refl|done]|]. split; [done|]. by exists ws.
Qed.

Lemma no_query_header table w dl s s' : (forall h, ~ query_header w h) -> unanswered table w dl s s'.
Proof. intros Hn. right. by left. Qed.

(** From the parse on: [s] is the state in which the client's header was read. *)
Lemma answer_wp w h transport dl s :
  header_parse w = Ok h -> message_type h = MtQuery ->
  table_wf (rh_routing (own s)) -> (t = true -> enough fuel dl s) ->
  let l := eligible (rh_routing (own s)) w in
  wpm t
    (let! parsed := mtry (mlift (E:=ParseFailure) (parse w)) in
     match parsed with
     | inl failure =>
       let! _ := warn (MalformedPacket (pf_error failure)) in
       mlift (ok_or (failure_format_reply failure) tt)
     | inr packet =>
       let! decision := mlift (validate_query packet) in
       match decision with
       | Reject code =>
         let! reply := mlift (local_error_reply packet code) in
         reply_or_warn reply
       | Ignore => silence
       | Forward query =>
         let! self := mget in
         match select (rh_routing self) (query_get_name query) with
         | SelLocal record =>
           let! reply := mlift (query_local_a_reply query (local_address record) (local_ttl record)) in
           mlift (ok_or reply tt)
         | SelUnmatched =>
           let! reply := mlift (query_error_reply query NameError) in
           mlift (ok_or reply tt)
         | SelDefault group => relay fuel query group transport dl
         | SelRouted route => relay fuel query (route_upstreams route) transport dl
         end
       end
     end) (inner_ok l w transport dl s) (fun _ => inner_silent l w dl s) s.
Proof.
  intros Hh Hty Ht Hfuel l. apply wpm_bind, wpm_try, wpm_lift.
  - eapply wp_mono; [apply parse_wp|done].
  - intros p Hparse. assert (packet_parse w = Ok p) as Hp by (unfold packet_parse; by rewrite Hparse).
    pose proof (packet_parse_Ok _ _ Hp) as [Hwf Hwire].
    destruct (validate_query_total (E:=unit) p) as [d Hd]. apply wpm_bind.
    unfold wpm at 1, mlift at 1. rewrite Hd. pose proof (validate_query_errorless (F:=ParseError) _ _ Hd) as Hv.
    destruct d as [q|code|].
    + apply wpm_bind, wpm_get. by apply (serve_query_wp w p).
    + apply (local_reply_wp true l w transport dl s s []); [apply handled_refl|apply idle_logged, makes_refl|].
      destruct (local_error_reply_cases p code Hwf unit) as (o & Ho & Hn & Hb).
      exists o. split; [done|].
      split; [intros Hnone%Hn; split; [by eapply withheld_rejected|by eapply rl_suppressed]|].
      intros bytes ->%Hb. destruct (error_reply_answers p code Hwf) as (r & Hr & Ha); [by eapply rejected_code_fits|].
      exists r. split; [done|]. split; [by eapply served_rejected|by eapply rl_rejected].
    + exfalso. unfold validate_query in Hv. pose proof (pw_header _ Hwf) as Hph.
      rewrite Hwire, Hh in Hph. injection Hph as ->.
      rewrite bool_decide_eq_false_2 in Hv by (by intros ?). inv_ok.
  - intros f Hf. destruct (format_failure_spec w f Hf) as [Hn Hb].
    apply warn_aside. intros s1 Hb1 Hl1.
    pose proof (rl_malformed (relays dl s s1) (rh_routing (own s)) w (over dl s s1) f h Hh Hty Hf) as Hlog.
    destruct (failure_format_reply f) as [bytes|] eqn:Hr; unfold wpm, mlift; cbn [ok_or is_some] in *.
    + destruct (Hb bytes eq_refl) as (h' & q & e & r & Hq & Hp & Hrep & _).
      split; [eapply handled_after; [apply handled_refl|done]|]. split; [|by exists [MalformedPacket (pf_error f)]].
      exists r. split; [done|by eapply served_malformed].
    + eapply inner_silent_nothing; [done|done| |by left]. apply no_query_header. by apply Hn.
Qed.

Lemma respond_inner_wp w transport dl s :
  table_wf (rh_routing (own s)) -> (t = true -> enough fuel dl s) ->
  let l := eligible (rh_routing (own s)) w in
  wpm t (respond_inner fuel w transport dl)
    (inner_ok l w transport dl s) (fun _ => inner_silent l w dl s) s.
Proof.
  intros Ht Hfuel l. apply wpm_bind, remaining_silence.
  2: { intros s1 Hi Ho. eapply inner_silent_nothing; [by apply idle_beside|by apply idle_logged|by left|by right]. }
  intros _ s1 Hi _. pose proof Hi as (C & O & _). apply wpm_bind, wpm_try, wpm_lift; [apply header_parse_safe| |].
  - intros h Hh. destruct (bool_decide _) eqn:Hty; bool_to_prop.
    + apply wpm_raise. eapply inner_silent_nothing; [by apply idle_beside|by apply idle_logged| |].
      * apply no_query_header. intros h' (_ & Hh' & Hq). rewrite Hh in Hh'. by simplify_eq.
      * left. by eapply rl_not_query.
    + apply dec_stable in Hty. rewrite <- O in Ht. subst l. rewrite <- O.
      eapply wpm_mono; [apply (answer_wp w h); [done|done|done|]| |].
      * intros Htt. eapply enough_clock; [exact C| |by apply Hfuel]. lia.
      * intros bytes s'. by apply inner_ok_then.
      * intros u s'. by apply inner_silent_then.
  - intros e He. apply warn_aside. intros s2 Hb Hl.
    pose proof (makes_trans _ _ _ _ (idle_beside _ _ Hi) Hb) as Hb2.
    eapply inner_silent_nothing; [done|by apply (logged_app [] [MalformedPacket e] s s1 s2); [apply idle_logged|]| |].
    + apply no_query_header. intros h (_ & Hh & _). congruence.
    + left. by apply rl_header.
Qed.

(** What [respond] promises of a reply, and of silence. *)
Record responds (table : RoutingTable) (w : list byte) (transport : Transport) (dl : Deadline)
    s (bytes : list byte) s' : Prop := {
  rs_handled : handled (eligible table w) s s';
  rs_in_time : (clock (world s') < instant dl)%Z;
  rs_reply : exists r, served (relays dl s s') table w transport r /\ packet_parse (wire r) = Ok r
    /\ packet_parse bytes = Ok (if has_upstreams table then r else packet_clear_ra r)
}.

(** The log of a request, with a reply and without. *)
Definition diagnosed (table : RoutingTable) w dl s (replied : bool) s' : Prop :=
  exists ws, logged ws s s'
    /\ (request_log (relays dl s s') table w (over dl s s') replied ws
        \/ replied = false /\ over dl s s'
           /\ (ws = [] \/ request_log (relays dl s s') table w (over dl s s') true ws)).

Lemma respond_wp w transport dl s :
  table_wf (rh_routing (own s)) -> (t = true -> enough fuel dl s) ->
  let table := rh_routing (own s) in
  wpm t (respond fuel w transport dl)
    (fun bytes s' => responds table w transport dl s bytes s' /\ diagnosed table w dl s true s')
    (fun _ s' => (handled (eligible table w) s s' /\ unanswered table w dl s s') /\ diagnosed table w dl s false s') s.
Proof.
  intros Ht Hfuel table. apply wpm_bind. eapply wpm_mono; [by apply respond_inner_wp| |].
  2: { intros [] s1 (Hh & Hu & ws & Hl & Hlog). split; [done|]. exists ws. split; [done|].
       destruct Hlog as [?|[? ?]]; [by left|right; auto]. }
  intros bytes s1 (Hh & (r & Hr & Hs) & ws & Hl & Hlog). pose proof Hh as [_ _ _ Hrt]. pose proof (handled_spans _ _ _ Hh) as S1.
  assert (packet_parse (wire r) = Ok r) as Hrr by by rewrite (proj2 (packet_parse_Ok _ _ Hr)).
  assert (forall s2, idle s1 s2 -> handled (eligible table w) s s2 /\ logged ws s s2
    /\ served (relays dl s s2) table w transport r
    /\ request_log (relays dl s s2) table w (over dl s s2) true ws) as Hlater.
  { intros s2 Hi. pose proof (makes_spans _ _ _ Hi) as S2.
    assert (forall q group v ws', relays dl s s1 q group v ws' -> relays dl s s2 q group v ws') as Hre
      by (intros; eapply relays_within; [exact (spans_refl s)|exact S2|done]).
    split; [eapply handled_after; [done|by apply idle_beside]|]. split.
    { rewrite <- (app_nil_r ws). eapply logged_app; [done|by apply idle_logged]. }
    split; [by eapply served_mono|]. eapply request_log_mono; [done| |done]. exact (over_within _ _ _ _ _ (spans_refl s) S2). }
  apply wpm_bind, remaining_silence.
  - intros _ s2 Hi Hc. destruct (Hlater s2 Hi) as (Hh2 & Hl2 & Hs2 & Hlog2). pose proof Hi as (_ & O & _).
    apply wpm_bind, wpm_get. rewrite O, Hrt. fold table.
    assert (diagnosed table w dl s true s2) as Hdi by (exists ws; auto).
    destruct (has_upstreams table) eqn:Hup.
    + apply wpm_ret. split; [|done]. split; [done|done|]. exists r. by rewrite Hup.
    + destruct (without_recursion_spec (E:=unit) _ _ Hr) as [Hwr Hpr].
      unfold wpm, mlift. rewrite Hwr. split; [|done]. split; [done|done|]. exists r. by rewrite Hup.
  - intros s2 Hi Ho. destruct (Hlater s2 Hi) as (Hh2 & Hl2 & Hs2 & Hlog2). pose proof (makes_spans _ _ _ Hi) as S2.
    assert (over dl s s2) as Ho2 by exact (over_within _ _ _ _ _ S1 (spans_refl s2) Ho).
    split; [split; [done|by left]|]. exists ws. auto 6.
Qed.
End forwarding_wp.

(** ** Consequences *)

(** The UDP limit of the client that sent [w]. *)
Definition client_limit (w : list byte) : Z :=
  match packet_parse w with Ok p => udp_limit p | _ => CLASSIC_UDP_LENGTH end.

Lemma client_limit_classic w : (CLASSIC_UDP_LENGTH <= client_limit w)%Z.
Proof. unfold client_limit. destruct (packet_parse w); try done. apply udp_limit_range. Qed.

(** [fits_client h r]: a response with the ID of the request [h], short enough. *)
Record fits_client (w : list byte) (transport : Transport) (r : Packet) : Prop := {
  fc_query : exists h, query_header w h /\ h_id (header r) = h_id h;
  fc_type : message_type (header r) = MtResponse;
  fc_size : transport = Udp -> (Z.of_nat (length (wire r)) <= client_limit w)%Z
}.

Lemma query_header_parsed w p :
  packet_parse w = Ok p -> message_type (header p) = MtQuery -> query_header w (header p).
Proof.
  intros [Hwf <-]%packet_parse_Ok Hty. split; [apply Hwf|]. split; [apply Hwf|done].
Qed.

Lemma validate_query_type {E} p d :
  validate_query (E:=E) p = Ok d -> d <> Ignore -> message_type (header p) = MtQuery.
Proof.
  unfold validate_query. case_bool_decide as Hm; [by intros [= <-]|]. intros _ _.
  destruct (message_type (header p)); [done|]. by destruct Hm.
Qed.

Lemma replies_fits w transport h q e r code tr n :
  query_header w h -> replies h q e r code tr n -> fits_client w transport r.
Proof.
  intros Hq []. split; [by exists h|done|]. intros _. pose proof (client_limit_classic w).
  unfold CLASSIC_UDP_LENGTH in *. lia.
Qed.

Lemma served_fits fwd table w transport r : served fwd table w transport r -> fits_client w transport r.
Proof.
  assert (forall p q r code tr n, forwards w p q -> answers p r code tr n ->
    fits_client w transport r) as Hfwd.
  { intros p q r' code tr n [Hp Hv] Ha. eapply replies_fits; [|exact Ha].
    apply query_header_parsed; [done|]. by eapply validate_query_type. }
  intros [f h q e r' Hf Hq Hr|p code r' Hp Hv Ha|p q rec r' Hf _ Ha _|p q r' Hf _ Ha
         |p q e ws r' [g Hf _ _] _ Ha|p q up ws r' [g Hf _ _] _ _ _ Ha|p q up ws [g Hf _ _] Hresp Hsize]; try by eapply Hfwd.
  - by eapply replies_fits.
  - eapply replies_fits; [|exact Ha]. apply query_header_parsed; [done|].
    by eapply validate_query_type.
  - destruct Hf as [Hp Hv]. destruct Hresp as [Hup (sent & _ & _ & Hacc)].
    split.
    + exists (header p). split; [|done]. apply query_header_parsed; [done|].
      by eapply validate_query_type.
    + apply (ac_type _ _ Hacc).
    + intros ->. unfold client_limit. rewrite Hp. cbn [wire packet_set_id].
      specialize (Hsize eq_refl). apply packet_parse_Ok in Hup as [Hwf _].
      destruct (header_parse_Ok _ _ (pw_header _ Hwf)) as (Hl & _ & _).
      unfold HEADER_LENGTH, response_wire in *. rewrite length_app, length_drop, length_to_be16. lia.
Qed.

Lemma clear_ra_fits w transport r :
  packet_parse (wire r) = Ok r -> fits_client w transport r -> fits_client w transport (packet_clear_ra r).
Proof.
  intros [Hwf _]%packet_parse_Ok [Hq Ht Hs]. split; [done| |].
  - etrans; [apply clear_ra_keeps_type|done].
  - intros Hu. cbn [wire packet_clear_ra]. unfold set_flags.
    destruct (header_parse_Ok _ _ (pw_header _ Hwf)) as (Hl & _ & _). specialize (Hs Hu).
    rewrite length_app, length_header_encode, length_drop. unfold HEADER_LENGTH in *. lia.
Qed.

(** Every reply to a message that parses repeats its question. *)
Lemma served_question fwd table w transport p question r :
  packet_parse w = Ok p -> questions p = [question] -> opens_with (header p) question w ->
  served fwd table w transport r -> questions r ≡ questions p.
Proof.
  intros Hp Hqs Hopen Hs.
  assert (forall p', packet_parse w = Ok p' -> p' = p) as Hsame by (intros p' Hp'; rewrite Hp in Hp'; by simplify_eq).
  assert (forall p' code tr n, packet_parse w = Ok p' -> answers p' r code tr n -> questions r ≡ questions p) as Hans.
  { intros p' code tr n Hp' Ha. rewrite (as_questions _ _ _ _ _ _ _ Ha). by rewrite (Hsame p' Hp'), Hqs. }
  destruct Hs as [f h q' e r' Hf' Hq Hr|p' code r' Hp' Hv' Ha|p' q' rec r' [Hp' _] _ Ha _|p' q' r' [Hp' _] _ Ha
         |p' q' e ws r' [g [Hp' _] _ _] _ Ha|p' q' up ws r' [g [Hp' _] _ _] _ _ _ Ha|p' q' up ws [g Hf' _ _] Hresp Hsize];
    try by eapply Hans.
  - unfold packet_parse in Hp. by rewrite Hf' in Hp.
  - destruct Hresp as [_ (sent & Hsent & _ & Hacc)]. cbn [questions packet_set_id].
    rewrite (ac_questions _ _ Hacc). rewrite (forwards_packet _ _ _ Hf'), (Hsame p' (proj1 Hf')) in Hsent.
    by destruct (sent_for_question w p question Hp Hqs Hopen sent Hsent) as (-> & _).
Qed.

(** ** Properties *)


(** A handler with a default group and one local name. *)
Definition sample_table : RoutingTable :=
  MkTable (Some sample_servers) []
    [MkLocal (MkName [[x6c; x61; x6e]]) (Ipv4 x0a x00 x00 x01) 60].
Definition sample_handler (datagrams : list (list byte)) : state Sim RequestHandler :=
  sim_start [] datagrams (MkHandler sample_table (MkForwarder None)).

Lemma sample_table_wf : table_wf sample_table.
Proof. repeat constructor; vm_compute; solve [intros [=] | reflexivity]. Qed.


(** C3: a reply can only be a reply.  Whatever [respond] returns parses as a
    response, carries the transaction ID of the request, which was a query with
    a readable header - so no response is ever answered and no loop of
    reflections starts - and over UDP it fits the size the client announced, or
    512 bytes when it announced none. *)
Theorem reply_matches_request {W} `{EnvLaws W} fuel w transport dl (s : state W RequestHandler) :
  table_wf (rh_routing (own s)) -> enough fuel dl s ->
  wpm true (respond fuel w transport dl)
    (fun bytes _ => exists r, packet_parse bytes = Ok r /\ fits_client w transport r)
    (fun _ _ => True) s.
Proof.
  intros Ht He. eapply wpm_mono; [apply (respond_wp fuel true); [done|by intros _]| |done].
  intros bytes s' [[_ _ (r & Hs & Hrr & Hr)] _]. apply served_fits in Hs. eexists. split; [exact Hr|].
  destruct (has_upstreams _); [done|]. by apply clear_ra_fits.
Qed.

Lemma reply_matches_request_witness :
  let s := sample_handler [sample_response] in
  fst (respond sample_fuel sample_edns_query Udp (MkDeadline 1000) s) = Ok sample_response
  /\ wpm true (respond sample_fuel sample_edns_query Udp (MkDeadline 1000))
       (fun bytes _ => exists r, packet_parse bytes = Ok r /\ fits_client sample_edns_query Udp r)
       (fun _ _ => True) s.
Proof.
  cbv zeta. split; [vm_compute; reflexivity|].
  apply (reply_matches_request sample_fuel sample_edns_query Udp (MkDeadline 1000)
    (sample_handler [sample_response])); [exact sample_table_wf|].
  vm_compute. reflexivity.
Defined.

(** C2: no query leaks.  Whether the request is answered or not, every connection made
    for it is to a server of the group selected for its name, and every byte it sends
    goes over a stream or socket that leads to one: opened to it for this request, or
    cached for it before.  For a name that is local or matches nothing, a rejected query
    and a malformed message there is no such server: nobody is contacted and nothing is
    sent.  And a stream is only ever cached for the server it leads to. *)
Theorem no_query_leaks {W} `{EnvLaws W} fuel w transport dl (s : state W RequestHandler) :
  table_wf (rh_routing (own s)) -> enough fuel dl s ->
  let kept s' := confined_to (fun a => a ∈ eligible (rh_routing (own s)) w) (focus s) (focus s') in
  wpm true (respond fuel w transport dl) (fun _ => kept) (fun _ => kept) s.
Proof.
  intros Ht He kept. eapply wpm_mono; [apply (respond_wp fuel true); [done|by intros _]| |].
  - intros bytes s' [[[] _ _] _]. done.
  - intros _ s' [[[] _] _]. done.
Qed.

(** A query for the local name, in capitals. *)
Definition sample_lan_query : list byte :=
  bytes_of [18; 52; 1; 0; 0; 1; 0; 0; 0; 0; 0; 0; 3; 76; 65; 78; 0; 0; 1; 0; 1].

(** The stream of a server that is not in the group is cached: a new one is used. *)
Definition sample_stranger : state Sim RequestHandler :=
  sim_start [frame_of sample_response] []
    (MkHandler sample_table (MkForwarder (Some (MkCached (sample_endpoint x09) 7 0)))).

Lemma no_query_leaks_witness :
  let run := respond sample_fuel sample_query Tcp (MkDeadline 1000) sample_stranger in
  fst run = Ok sample_response /\ transmitted 7 (trace (snd run)) = []
  /\ eligible sample_table sample_query = servers sample_servers /\ eligible sample_table sample_lan_query = []
  /\ confined_to (fun a => a ∈ eligible sample_table sample_query) (focus sample_stranger) (focus (snd run)).
Proof.
  cbv zeta.
  assert (fst (respond sample_fuel sample_query Tcp (MkDeadline 1000) sample_stranger) = Ok sample_response) as Hrun
    by (vm_compute; reflexivity).
  split; [exact Hrun|]. split; [vm_compute; reflexivity|]. split; [vm_compute; reflexivity|].
  split; [vm_compute; reflexivity|].
  refine (wpm_Ok _ _ _ _ _ _ (no_query_leaks sample_fuel sample_query Tcp (MkDeadline 1000) sample_stranger
    sample_table_wf _) Hrun).
  vm_compute. reflexivity.
Defined.

(** C8: the reply is about the question asked.  When the message parses, asks one
    question and spells it out, every reply [respond] returns - local, a rejection,
    relayed after any number of cookie retries, or a substitute - carries the same
    question, up to ASCII case. *)
Theorem reply_repeats_question {W} `{EnvLaws W} fuel w p question transport dl (s : state W RequestHandler) :
  table_wf (rh_routing (own s)) -> enough fuel dl s ->
  packet_parse w = Ok p -> questions p = [question] -> opens_with (header p) question w ->
  wpm true (respond fuel w transport dl)
    (fun bytes _ => exists r, packet_parse bytes = Ok r /\ questions r ≡ [question])
    (fun _ _ => True) s.
Proof.
  intros Ht He Hp Hqs Ho. eapply wpm_mono; [apply (respond_wp fuel true); [done|by intros _]| |done].
  intros bytes s' [[_ _ (r & Hs & _ & Hr)] _].
  eapply served_question in Hs; [|done|done|done]. rewrite Hqs in Hs. eexists. split; [exact Hr|].
  by destruct (has_upstreams _).
Qed.

(** What a server answers to the retry, with the cookies. *)
Definition sample_cookie_response : list byte :=
  bytes_of ([18; 52; 129; 128; 0; 1; 0; 0; 0; 0; 0; 1] ++ question_a ++ opt_of 0 (server_cookie 9)).

Lemma reply_repeats_question_witness :
  let s := sample_handler [sample_badcookie_response; sample_cookie_response] in
  let run := respond sample_fuel sample_cookie_query Udp (MkDeadline 1000) s in
  exists bytes r, fst run = Ok bytes /\ packet_parse bytes = Ok r /\ questions r ≡ [sample_question].
Proof.
  cbv zeta.
  assert (exists bytes, fst (respond sample_fuel sample_cookie_query Udp (MkDeadline 1000)
    (sample_handler [sample_badcookie_response; sample_cookie_response])) = Ok bytes) as [bytes Hrun]
    by (eexists; vm_compute; reflexivity).
  assert (opens_with (header (parsed sample_cookie_query)) sample_question sample_cookie_query) as Ho
    by (eexists; vm_compute; reflexivity).
  assert (packet_parse sample_cookie_query = Ok (parsed sample_cookie_query)) as Hp by (vm_compute; reflexivity).
  assert (questions (parsed sample_cookie_query) = [sample_question]) as Hqs by (vm_compute; reflexivity).
  assert (enough sample_fuel (MkDeadline 1000) (sample_handler [sample_badcookie_response; sample_cookie_response])) as He
    by (vm_compute; reflexivity).
  destruct (wpm_Ok _ _ _ _ _ _ (reply_repeats_question sample_fuel sample_cookie_query (parsed sample_cookie_query)
    sample_question Udp (MkDeadline 1000) (sample_handler [sample_badcookie_response; sample_cookie_response])
    sample_table_wf He Hp Hqs Ho) Hrun)
    as (r & Hr & Hq).
  exists bytes, r. split; [exact Hrun|]. split; [exact Hr|exact Hq].
Defined.
