(* ===== verification/Isolation.v ===== *)
(** * What answering a request leaves alone

    A request is answered between reading it from its client and writing the
    reply.  In between, the exchanges of [Upstream] use connections of their own:
    no byte of a client's stream, no datagram of the listener and no queue is
    touched.  The rules of [keeps] take every function of [Transport],
    [Upstream] and [Forwarding] apart. *)

From S2P Require Import Prelude Types Name Message Cookie Net Reply Parser Body Samples Sent.
From S2P Require Import LocalReply Answers Retry Routing Io Sim Transport Upstream Forwarding.

(** [keeps I ok d m]: where the caller's state satisfies [I], [m] leaves it so,
    makes only calls that satisfy [ok], and returns only values that satisfy [d]. *)
Definition keeps {W X E A} (I : X -> Prop) (ok : event -> Prop) (d : A -> Prop) (m : M W X E A) : Prop :=
  forall s, I (own s) ->
    I (own (snd (m s)))
    /\ (exists l, trace (snd (m s)) = trace s ++ l /\ Forall ok l)
    /\ (forall a, fst (m s) = Ok a -> d a).

Definition any {A} (_ : A) : Prop := True.
(** A caught failure is not restricted. *)
Definition when_ok {E A} (d : A -> Prop) (r : E + A) : Prop :=
  match r with inl _ => True | inr a => d a end.

Section keeps.
Context {W : Type} `{Env W} {X : Type} (I : X -> Prop) (ok : event -> Prop).

Lemma keeps_weaken {E A} (d d' : A -> Prop) (m : M W X E A) :
  keeps I ok d m -> (forall a, d a -> d' a) -> keeps I ok d' m.
Proof. intros Hm Hd s Hs. destruct (Hm s Hs) as (? & ? & ?). auto. Qed.

Lemma keeps_lift {E A} (d : A -> Prop) (o : outcome E A) :
  (forall a, o = Ok a -> d a) -> keeps I ok d (mlift (W:=W) o).
Proof. intros Hd s Hs. split; [done|]. split; [|done]. exists []. by rewrite app_nil_r. Qed.

Lemma keeps_ret {E A} (d : A -> Prop) (a : A) : d a -> keeps I ok d (mret (W:=W) (E:=E) a).
Proof. intros Hd. apply keeps_lift. by intros ? [= <-]. Qed.
Lemma keeps_raise {E A} (d : A -> Prop) (e : E) : keeps I ok d (mraise (W:=W) e).
Proof. by apply keeps_lift. Qed.

Lemma keeps_bind {E A B} (d : A -> Prop) (d' : B -> Prop) (m : M W X E A) (k : A -> M W X E B) :
  keeps I ok d m -> (forall a, d a -> keeps I ok d' (k a)) -> keeps I ok d' (mbind m k).
Proof.
  intros Hm Hk s Hs. unfold mbind. destruct (Hm s Hs) as (H1 & (l & Hl & Fl) & Hd).
  destruct (m s) as [[a|e| |] s1]; cbn [fst snd] in *; try (split; [done|]; split; [by exists l|done]).
  destruct (Hk a (Hd a eq_refl) s1 H1) as (H2 & (l' & Hl' & Fl') & Hd').
  split; [done|]. split; [|done]. exists (l ++ l').
  split; [by rewrite Hl', Hl, app_assoc|by apply Forall_app].
Qed.

Lemma keeps_map_err {E F A} (f : E -> F) (d : A -> Prop) (m : M W X E A) :
  keeps I ok d m -> keeps I ok d (mmap_err f m).
Proof.
  intros Hm s Hs. unfold mmap_err. destruct (Hm s Hs) as (? & ? & Hd).
  destruct (m s) as [[a|e| |] s1]; cbn [fst snd map_err] in *; split; try done; split; try done.
  intros ? [= <-]. by apply Hd.
Qed.

Lemma keeps_try {E F A} (d : A -> Prop) (m : M W X E A) :
  keeps I ok d m -> keeps I ok (when_ok d) (mtry (F:=F) m).
Proof.
  intros Hm s Hs. unfold mtry. destruct (Hm s Hs) as (? & ? & Hd).
  destruct (m s) as [[a|e| |] s1]; cbn [fst snd] in *; split; try done; split; try done;
    intros ? [= <-]; [by apply Hd|done].
Qed.

Lemma keeps_call {E R} (d : R -> Prop) (e : Sys R) :
  (forall w r w', env_step e w = (r, w') -> ok (Ev e r) /\ d r) ->
  keeps I ok d (mcall (E:=E) e).
Proof.
  intros Hok s Hs. unfold mcall. destruct (env_step e (world s)) as [r w] eqn:He.
  destruct (Hok _ _ _ He). cbn [fst snd own trace]. split; [done|].
  split; [exists [Ev e r]; split; [done|by constructor]|by intros ? [= <-]].
Qed.

Lemma keeps_io {R} (d : R -> Prop) (e : Sys (ioresult R)) :
  (forall w r w', env_step e w = (r, w') -> ok (Ev e r) /\ when_ok d r) ->
  keeps I ok d (mio e).
Proof.
  intros Hok. eapply keeps_bind; [by apply keeps_call|].
  intros [x|a] Ha; [apply keeps_raise|by apply keeps_ret].
Qed.

Lemma keeps_get {E} : keeps I ok I (mget (W:=W) (E:=E)).
Proof.
  intros s Hs. split; [done|]. split; [exists []; by rewrite app_nil_r|by intros ? [= <-]].
Qed.
Lemma keeps_put {E} (x : X) : I x -> keeps I ok any (mput (W:=W) (E:=E) x).
Proof. intros Hx s Hs. split; [done|]. split; [exists []; by rewrite app_nil_r|done]. Qed.
End keeps.

(** A triple, with what [keeps] adds to it. *)
Lemma wpm_keeps {W X E A} `{Env W} t (I : X -> Prop) ok (d : A -> Prop) (m : M W X E A)
    (P : A -> state W X -> Prop) (Q : E -> state W X -> Prop) s :
  keeps I ok d m -> I (own s) -> wpm t m P Q s ->
  wpm t m (fun a s' => P a s' /\ I (own s') /\ exists l, trace s' = trace s ++ l /\ Forall ok l)
          (fun e s' => Q e s' /\ I (own s') /\ exists l, trace s' = trace s ++ l /\ Forall ok l) s.
Proof.
  intros Hm Hs Hw. destruct (Hm s Hs) as (? & ? & _). unfold wpm in *.
  by destruct (m s) as [[a|e| |] s'].
Qed.

(** A call of an exchange: no listener's business, and no stream of [C]. *)
Definition upstream_call (C : Handle -> Prop) (ev : event) : Prop :=
  let 'Ev e r := ev in
  match e with
  | Read h _ => ~ C h
  | Write h _ => ~ C h
  | SetNonblocking _ _ | Accept | RecvFrom _ | SendTo _ _ | SubmitUdp _ _ _ | SubmitTcp _ _ => False
  | _ => True
  end.

(** The handles of [C] are in use by clients: no new connection gets one. *)
Definition reserved {W} `{Env W} (C : Handle -> Prop) : Prop :=
  forall a d w h w', env_step (TcpConnect a d) w = (inr h, w') -> ~ C h.

(** Such calls move nothing on a client's stream, and answer no datagram. *)
Definition apart {W X Y} (C : Handle -> Prop) (s : state W X) (s' : state W Y) : Prop :=
  exists l, trace s' = trace s ++ l /\ Forall (upstream_call C) l.

(** The datagrams sent to clients, and what the listeners took in and queued. *)
Definition sent_to1 (ev : event) : list (list byte * SocketAddr) :=
  let 'Ev e r := ev in match e with SendTo bs a => [(bs, a)] | _ => [] end.
Definition sent_to (tr : list event) : list (list byte * SocketAddr) := tr ≫= sent_to1.

Lemma sent_to_app tr tr' : sent_to (tr ++ tr') = sent_to tr ++ sent_to tr'.
Proof. unfold sent_to. by rewrite bind_app. Qed.

Lemma apart_sent {W X Y} C (s : state W X) (s' : state W Y) :
  apart C s s' -> sent_to (trace s') = sent_to (trace s).
Proof.
  intros (l & -> & Hl). rewrite sent_to_app. unfold sent_to at 2.
  rewrite (bind_none _ (upstream_call C) l); [by rewrite app_nil_r|by intros [? [] ?]|done].
Qed.

Lemma apart_stream {W X Y} (C : Handle -> Prop) h (s : state W X) (s' : state W Y) :
  C h -> apart C s s' ->
  received h (trace s') = received h (trace s) /\ transmitted h (trace s') = transmitted h (trace s).
Proof.
  intros Hh (l & -> & Hl). unfold received, transmitted. rewrite !bind_app.
  rewrite !(bind_none _ (upstream_call C) l), !app_nil_r; [done| |done| |done];
    intros [? [] r]; try done; cbn; destruct r; try done; case_match; bool_to_prop; by subst.
Qed.

Create HintDb keeps.
#[export] Hint Resolve keeps_get : keeps.

(** One layer of a computation, as in [cancels_step]. *)
Ltac keeps_step :=
  lazymatch goal with
  | |- keeps _ _ _ (mbind _ _) => eapply keeps_bind; [|intros ? ?]
  | |- keeps _ _ _ (mtry _) => apply keeps_try
  | |- keeps _ _ _ (mmap_err _ _) => apply keeps_map_err
  | |- keeps _ _ _ (from_io _) => apply keeps_map_err
  | |- keeps _ _ _ (or_silence _) => apply keeps_map_err
  | |- keeps _ _ _ (mraise _) => apply keeps_raise
  | |- keeps _ _ ?d (mret _) => first [is_evar d; apply (keeps_ret _ _ any); done | apply keeps_ret; try done]
  | |- keeps _ _ ?d (mlift _) => first [is_evar d; apply (keeps_lift _ _ any); done | apply keeps_lift; try done]
  | |- keeps _ _ ?d (mput _) => apply keeps_put; try done
  | |- keeps _ _ _ (match ?x with _ => _ end) => destruct x eqn:?
  | |- keeps _ _ _ _ =>
    first [ solve [eauto with keeps]
          | apply (keeps_call _ _ any); intros; split; done
          | apply (keeps_io _ _ any); intros ? [?|?] ? ?; split; done
          | eapply keeps_weaken; [solve [eauto with keeps]|done] ]
  end.
Ltac keeps := repeat (cbv zeta; keeps_step).

Section transport.
Context {W : Type} `{Env W} {X : Type} (I : X -> Prop) (C : Handle -> Prop).
Local Notation keeps_up := (keeps (W:=W) I (upstream_call C)).

Lemma deadline_capped_keeps {E} dl d : keeps_up any (deadline_capped (E:=E) dl d).
Proof. unfold deadline_capped. keeps. Qed.
Lemma remaining_keeps dl : keeps_up any (remaining dl).
Proof. unfold remaining. keeps. Qed.
#[local] Hint Resolve remaining_keeps : keeps.

Lemma read_loop_keeps fuel h n acc dl : ~ C h -> keeps_up any (read_loop fuel h n acc dl).
Proof. intros Hh. revert acc. induction fuel as [|fuel IH]; intros acc; cbn [read_loop]; keeps. Qed.
Lemma write_loop_keeps fuel h frame offset dl : ~ C h -> keeps_up any (write_loop fuel h frame offset dl).
Proof. intros Hh. revert offset. induction fuel as [|fuel IH]; intros offset; cbn [write_loop]; keeps. Qed.
#[local] Hint Resolve read_loop_keeps write_loop_keeps : keeps.

Lemma read_frame_keeps fuel h dl : ~ C h -> keeps_up any (read_frame fuel h dl).
Proof. intros Hh. unfold read_frame, read_exact. keeps. Qed.
Lemma write_frame_keeps fuel h w dl : ~ C h -> keeps_up any (write_frame fuel h w dl).
Proof. intros Hh. unfold write_frame. keeps. Qed.
End transport.

#[export] Hint Resolve deadline_capped_keeps remaining_keeps read_frame_keeps write_frame_keeps : keeps.

(** No client's stream is cached for reuse. *)
Definition away (C : Handle -> Prop) (f : Forwarder) : Prop :=
  match fw_tcp f with Some c => ~ C (cc_stream c) | None => True end.

Section upstream.
Context {W : Type} `{Env W} (C : Handle -> Prop) (HC : reserved (W:=W) C) (fuel : nat).
Local Notation keeps_fw := (keeps (W:=W) (away C) (upstream_call C)).

Lemma send_over_tcp_keeps stream ex : ~ C stream -> keeps_fw any (send_over_tcp fuel stream ex).
Proof. intros Hs. unfold send_over_tcp. keeps. Qed.

Lemma connect_keeps a ex : keeps_fw (fun h => ~ C h) (connect a ex).
Proof.
  unfold connect. keeps_step; [keeps|]. keeps_step. apply keeps_io. intros w [x|h] w' He; [done|].
  split; [done|]. by eapply HC.
Qed.

Lemma expire_idle_keeps {E} : keeps_fw any (expire_idle (E:=E)).
Proof. unfold expire_idle. keeps. Qed.
#[local] Hint Resolve send_over_tcp_keeps connect_keeps expire_idle_keeps : keeps.

Lemma tcp_exchange_keeps a ex : keeps_fw any (tcp_exchange fuel a ex).
Proof.
  unfold tcp_exchange. keeps_step; [keeps|]. keeps_step; [apply keeps_get|].
  keeps_step; [by apply keeps_put|]. cbv zeta.
  apply (keeps_bind _ _ (fun h => ~ C h)).
  { destruct (matching a (fw_tcp a1)) as [c|] eqn:Hm; [|apply connect_keeps]. apply keeps_ret.
    unfold matching in Hm. unfold away in *. destruct (fw_tcp a1) as [c'|]; [|done].
    case_bool_decide; by simplify_eq. }
  intros stream Hs. keeps_step; [keeps|]. keeps_step; [keeps|].
  apply (keeps_bind _ _ (fun r => ~ C (fst r))).
  { destruct a4; [|by apply keeps_ret]. destruct (is_some _); [|by apply keeps_ret].
    keeps_step; [apply connect_keeps|]. keeps_step; [keeps|]. keeps_step; [keeps|]. by apply keeps_ret. }
  intros [stream' result] Hs'. destruct result; [keeps|].
  keeps_step; [keeps|]. keeps_step; [by apply keeps_put|]. keeps.
Qed.
#[local] Hint Resolve tcp_exchange_keeps : keeps.

Lemma udp_loop_keeps k socket a ex invalid : keeps_fw any (udp_loop fuel k socket a ex invalid).
Proof. revert invalid. induction k as [|k IH]; intros invalid; cbn [udp_loop]; keeps. Qed.
#[local] Hint Resolve udp_loop_keeps : keeps.

Lemma exchange_keeps transport a ex : keeps_fw any (exchange fuel transport a ex).
Proof. unfold exchange, udp_exchange. keeps. Qed.
Lemma next_transaction_id_keeps : keeps_fw any next_transaction_id.
Proof. unfold next_transaction_id. keeps. Qed.
#[local] Hint Resolve exchange_keeps next_transaction_id_keeps : keeps.

Lemma retry_exchange_keeps ex w : keeps_fw any (retry_exchange ex w).
Proof. unfold retry_exchange. keeps. Qed.
#[local] Hint Resolve retry_exchange_keeps : keeps.

Lemma finish_badcookie_keeps a ex response transport :
  keeps_fw any (finish_badcookie fuel a ex response transport).
Proof. unfold finish_badcookie. keeps. Qed.
#[local] Hint Resolve finish_badcookie_keeps : keeps.

Lemma attempt_keeps q transport a dl id : keeps_fw any (attempt fuel q transport a dl id).
Proof. unfold attempt. keeps. Qed.
#[local] Hint Resolve attempt_keeps : keeps.

Lemma forward_keeps q g transport dl : keeps_fw any (forward fuel q g transport dl).
Proof.
  unfold forward. generalize FwTimeout (@None Response).
  induction (servers g) as [|a addresses IH]; intros last_error relayed; cbn [forward_loop]; keeps.
Qed.

(** ** [src/src/forwarding.rs] *)

Definition handler_away (h : RequestHandler) : Prop := away C (rh_forwarder h).
Local Notation keeps_rh := (keeps (W:=W) handler_away (upstream_call C)).

Lemma with_forwarder_keeps {E A} (d : A -> Prop) (m : M W Forwarder E A) :
  keeps_fw d m -> keeps_rh d (with_forwarder m).
Proof.
  intros Hm s Hs. unfold with_forwarder.
  destruct (Hm (MkIo (world s) (trace s) (rh_forwarder (own s))) Hs) as (? & ? & ?).
  destruct (m _) as [o s']. done.
Qed.
#[local] Hint Resolve with_forwarder_keeps forward_keeps expire_idle_keeps : keeps.

Lemma handler_expire_idle_keeps {E} : keeps_rh any (handler_expire_idle (E:=E)).
Proof. unfold handler_expire_idle. keeps. Qed.

Lemma reply_or_warn_keeps reply : keeps_rh any (reply_or_warn reply).
Proof. unfold reply_or_warn. keeps. Qed.
#[local] Hint Resolve reply_or_warn_keeps : keeps.

Lemma relay_keeps q g transport dl : keeps_rh any (relay fuel q g transport dl).
Proof. unfold relay. keeps. Qed.
#[local] Hint Resolve relay_keeps : keeps.

Lemma respond_inner_keeps w transport dl : keeps_rh any (respond_inner fuel w transport dl).
Proof. unfold respond_inner. keeps. Qed.
#[local] Hint Resolve respond_inner_keeps : keeps.

Lemma respond_keeps w transport dl : keeps_rh any (respond fuel w transport dl).
Proof. unfold respond. keeps. Qed.
End upstream.
