(* ===== verification/Diagnosed.v ===== *)
(** * What the log says of a request

    The calls of [logging::warn] on the path of [RequestHandler::respond]
    ([src/src/forwarding.rs], [src/src/upstream.rs]): which warnings a request
    leaves behind, in which order.  [request_log] of [Forwarding] lists them by what
    the request is and what forwarding it came to; the lines of [forwarded] are those
    of the servers. *)

From S2P Require Import Prelude Types Name Message Cookie Net Reply Parser Body Samples Sent.
From S2P Require Import LocalReply Answers Retry Routing Io Sim Transport Upstream Forwarding.


(** A query both of whose servers refuse the connection: two lines name them, a third the
    failure, and the client gets SERVFAIL. *)
Definition sample_refused : state Sim RequestHandler :=
  MkIo (MkSim 0 None [] [] (upstream_socket <$> servers sample_servers) [] []) []
    (MkHandler sample_table (MkForwarder None)).


(** A query both of whose servers fail: the first sends garbage before SERVFAIL, the
    second refuses the connection. *)
Example failing_servers_are_named :
  let s := MkIo (MkSim 0 None [] [[x00]; [x00]; sample_servfail] [upstream_socket (sample_endpoint x02)] [] []) []
             (MkForwarder None) in
  let r := forward 100 (sample_forward sample_query) sample_servers Udp (MkDeadline 1000) s in
  (exists response, fst r = Ok response /\ response_rcode response = ServerFailure)
  /\ warned (trace (snd r))
     = [UncorrelatedResponse (sample_endpoint x01); UpstreamFailed (sample_endpoint x01) FwServerFailure;
        UpstreamFailed (sample_endpoint x02) (FwIo (io_error KOther))].
Proof. vm_compute. split; [by eexists|reflexivity]. Qed.
