(* ===== verification/Server.v ===== *)
(** * Listeners and client sessions

    [src/src/server.rs]: what the UDP and TCP listeners take in and queue, which
    accept errors they survive, and what a worker does with one datagram or one
    connection.  The pools appear here only through the answer of a submission;
    [Pool] is their model, and [Service] puts both together. *)

From S2P Require Import Prelude Types Name Message Cookie Net Reply Parser Body Samples Sent.
From S2P Require Import LocalReply Answers Retry Routing Io Sim Transport Upstream Forwarding Isolation.

Definition UDP_WORKERS : nat := 8.
Definition TCP_WORKERS : nat := 16.
Definition UDP_QUEUE : nat := 64.
Definition TCP_QUEUE : nat := 16.
Definition CLIENT_FRAME_TIMEOUT : Z := 10 * SECOND.
Definition CLIENT_WRITE_TIMEOUT : Z := 2 * SECOND.

Record Datagram := MkDatagram { dg_wire : list byte; dg_peer : SocketAddr; dg_deadline : Deadline }.
Record Connection := MkConnection { cn_stream : nat; cn_first_deadline : Deadline }.

(** ** Errors of [accept] *)

Definition linux_accept_error_is_retryable (errno : option Z) : bool :=
  match errno with
  | Some n => bool_decide (n ∈ [64; 71; 92; 95; 100; 101; 103; 104; 112; 113]%Z)
  | None => false
  end.

Definition accept_error_is_retryable (error : IoError) : bool :=
  if transient error then true
  else
    match err_kind error with
    | KConnectionAborted | KConnectionReset | KNetworkDown | KNetworkUnreachable | KHostUnreachable => true
    | _ => linux_accept_error_is_retryable (err_os error)
    end.

(** ** Listeners *)

Section listeners.
Context {W : Type} `{!Env W} {X : Type}.
Local Notation Io := (M W X IoError).

(** [accept_clients], for a number of calls of [accept]. *)
Fixpoint accept_clients (rounds : nat) (accept : Io (ioresult (nat * SocketAddr)))
    (enqueue : nat -> Io bool) : Io unit :=
  match rounds with
  | O => mlift Diverge
  | S rounds =>
    let! stopped := mcall Stop in
    if stopped : bool then mret tt
    else
      let! accepted := accept in
      match accepted with
      | inr (stream, _) =>
        let! stopped := mcall Stop in
        if stopped : bool then mret tt
        else
          let! queued := enqueue stream in
          let! _ := (if queued : bool then mret tt else warn TcpCapacity) in
          accept_clients rounds accept enqueue
      | inl error =>
        if accept_error_is_retryable error then
          let! _ := warn (HandshakeIgnored error) in
          accept_clients rounds accept enqueue
        else mraise error
      end
  end.

Definition accept_tcp (rounds : nat) : Io unit :=
  accept_clients rounds (mcall Accept)
    (fun stream =>
       let! first_deadline := deadline_after CLIENT_FRAME_TIMEOUT in
       mcall (SubmitTcp stream (instant first_deadline))).

(** [receive_udp], for a number of calls of [recv_from]. *)
Fixpoint receive_udp (rounds : nat) : Io unit :=
  match rounds with
  | O => mlift Diverge
  | S rounds =>
    let! stopped := mcall Stop in
    if stopped : bool then mret tt
    else
      let! received := mcall (RecvFrom (Z.to_nat MAX_MESSAGE_LENGTH)) in
      match received with
      | inr (wire, peer) =>
        let! deadline := deadline_after REQUEST_TIMEOUT in
        let! stopped := mcall Stop in
        if stopped : bool then mret tt
        else
          let! queued := mcall (SubmitUdp wire peer (instant deadline)) in
          let! _ := (if queued : bool then mret tt else warn UdpCapacity) in
          receive_udp rounds
      | inl error => if transient error then receive_udp rounds else mraise error
      end
  end.
End listeners.

(** ** Workers *)

Section workers.
Context {W : Type} `{!Env W} (fuel : nat).

(** [UdpWorker::handle]. *)
Definition udp_handle {E} (job : Datagram) : M W RequestHandler E unit :=
  let! reply := mtry (respond fuel (dg_wire job) Udp (dg_deadline job)) in
  match reply with
  | inr wire =>
    let! sent := mcall (SendTo wire (dg_peer job)) in
    match sent with inl error => warn (UdpReplyFailed error) | inr _ => mret tt end
  | inl _ => mret tt
  end.

(** One pass of the loop of [serve_tcp]: the deadline of the next frame, or
    nothing at the end of the session. *)
Definition serve_turn (h : nat) (deadline : Deadline) : M W RequestHandler IoError (option Deadline) :=
  let! stopped := mcall Stop in
  if stopped : bool then mret None
  else
    let! wire := read_frame fuel h deadline in
    match wire with
    | None => mret None
    | Some wire =>
      let! request_deadline := deadline_after REQUEST_TIMEOUT in
      let! response := mtry (respond fuel wire Tcp request_deadline) in
      let! _ := (match response with
                 | inr response =>
                   let! write_deadline := deadline_capped request_deadline CLIENT_WRITE_TIMEOUT in
                   write_frame fuel h response write_deadline
                 | inl _ => mret tt
                 end) in
      let! deadline := deadline_after CLIENT_FRAME_TIMEOUT in
      mret (Some deadline)
    end.

Fixpoint serve_loop (rounds h : nat) (deadline : Deadline) : M W RequestHandler IoError unit :=
  match rounds with
  | O => mlift Diverge
  | S rounds =>
    let! next := serve_turn h deadline in
    match next with
    | None => mret tt
    | Some deadline => serve_loop rounds h deadline
    end
  end.

(** [serve_tcp], for a number of frames. *)
Definition serve_tcp (rounds : nat) (client : Connection) : M W RequestHandler IoError unit :=
  let! _ := mio (SetNonblocking (cn_stream client) false) in
  let! _ := mio (SetNodelay (cn_stream client)) in
  serve_loop rounds (cn_stream client) (cn_first_deadline client).

(** [TcpWorker::handle]. *)
Definition tcp_handle {E} (rounds : nat) (job : Connection) : M W RequestHandler E unit :=
  let! result := mtry (serve_tcp rounds job) in
  match result with
  | inl error =>
    let! stopped := mcall Stop in
    if negb stopped && bool_decide (err_kind error <> KTimedOut)
    then warn (TcpClientFailed error) else mret tt
  | inr _ => mret tt
  end.
End workers.

(** ** What the listeners do *)

(** A loop that makes calls: [turns] complete passes, then an end. *)
Inductive loop_trace (pass : list event -> Prop) (last : list event -> Prop) : nat -> list event -> Prop :=
| lt_last l : last l -> loop_trace pass last 0 l
| lt_pass n l l' : pass l -> loop_trace pass last n l' -> loop_trace pass last (S n) (l ++ l').

(** A line in the log unless the job was queued. *)
Definition logged_unless (queued : bool) (w : Warning) : list event :=
  if queued then [] else [Ev (Warn w) tt].

(** A pass of the TCP listener: an error it survives, or a connection queued
    with ten seconds for its first frame from the moment it was accepted; what it
    ignores or drops it logs. *)
Inductive tcp_pass : list event -> Prop :=
| tp_retry e :
    accept_error_is_retryable e = true ->
    tcp_pass [Ev Stop false; Ev Accept (inl e); Ev (Warn (HandshakeIgnored e)) tt]
| tp_queue h a now b :
    tcp_pass ([Ev Stop false; Ev Accept (inr (h, a)); Ev Stop false; Ev Now now;
               Ev (SubmitTcp h (now + CLIENT_FRAME_TIMEOUT)) b] ++ logged_unless b TcpCapacity).

(** Its ends: a raised flag, seen before or after an accept (the connection is
    closed then), and an error of the listening socket. *)
Inductive tcp_last : outcome IoError unit -> list event -> Prop :=
| tl_stop : tcp_last (Ok tt) [Ev Stop true]
| tl_wake h a : tcp_last (Ok tt) [Ev Stop false; Ev Accept (inr (h, a)); Ev Stop true]
| tl_error e :
    accept_error_is_retryable e = false -> tcp_last (Err e) [Ev Stop false; Ev Accept (inl e)]
| tl_more : tcp_last Diverge [].

(** The same for UDP: five seconds for the whole request from its receipt. *)
Inductive udp_pass : list event -> Prop :=
| up_retry e :
    transient e = true -> udp_pass [Ev Stop false; Ev (RecvFrom 65535) (inl e)]
| up_queue w a now b :
    udp_pass ([Ev Stop false; Ev (RecvFrom 65535) (inr (w, a)); Ev Now now; Ev Stop false;
               Ev (SubmitUdp w a (now + REQUEST_TIMEOUT)) b] ++ logged_unless b UdpCapacity).
Inductive udp_last : outcome IoError unit -> list event -> Prop :=
| ul_stop : udp_last (Ok tt) [Ev Stop true]
| ul_late w a now : udp_last (Ok tt) [Ev Stop false; Ev (RecvFrom 65535) (inr (w, a)); Ev Now now; Ev Stop true]
| ul_error e :
    transient e = false -> udp_last (Err e) [Ev Stop false; Ev (RecvFrom 65535) (inl e)]
| ul_more : udp_last Diverge [].

(** [calls pass last m rounds]: [m] ends in one of its ways after at most
    [rounds] passes, and exactly [rounds] passes when it has not ended. *)
Definition calls {W X} (pass : list event -> Prop) (last : outcome IoError unit -> list event -> Prop)
    (rounds : nat) (r : outcome IoError unit * state W X) (s : state W X) : Prop :=
  exists n l, trace (snd r) = trace s ++ l /\ loop_trace pass (last (fst r)) n l
    /\ n <= rounds /\ (fst r = Diverge -> n = rounds) /\ own (snd r) = own s.

Section listeners_spec.
Context {W : Type} `{Env W} {X : Type}.
Implicit Types s : state W X.

Lemma calls_end pass last rounds o s s' l :
  trace s' = trace s ++ l -> last o l -> own s' = own s -> (o = Diverge -> rounds = 0) ->
  calls pass last rounds (o, s') s.
Proof. intros Ht Hl Ho Hd. exists 0, l. split_and!; auto; [by constructor|lia|]. intros Ho'. by rewrite Hd. Qed.

Lemma calls_pass pass last rounds r s s1 l :
  calls pass last rounds r s1 -> own s1 = own s -> pass l -> trace s1 = trace s ++ l ->
  calls pass last (S rounds) r s.
Proof.
  intros (n & l' & Ht' & Hl & Hn & Hd & Ho') Ho Hp Ht.
  exists (S n), (l ++ l'). split_and!.
  - by rewrite Ht', Ht, app_assoc.
  - by constructor.
  - lia.
  - intros Hr. by rewrite (Hd Hr).
  - congruence.
Qed.

(** Runs one call. *)
Ltac next_call :=
  unfold warn; rewrite ?run_bind, run_call;
  match goal with |- context [env_step ?e ?w] => destruct (env_step e w) as [? ?] end;
  rewrite ?run_ret; cbn [world trace own instant].
Ltac trace_eq := cbn [snd trace]; by rewrite <- !app_assoc.
(** Logs a job that was not queued. *)
Ltac next_unless :=
  match goal with |- context [if ?q then mret tt else _] => destruct q end;
  [rewrite run_ret | next_call; match goal with u : unit |- _ => destruct u end].

Lemma accept_tcp_calls rounds s : calls tcp_pass tcp_last rounds (accept_tcp rounds s) s.
Proof.
  unfold accept_tcp. revert s. induction rounds as [|rounds IH]; intros s.
  { eapply (calls_end _ _ _ _ _ _ []); [by rewrite app_nil_r|constructor|done..]. }
  cbn [accept_clients]. next_call. destruct b.
  { eapply calls_end; [done|constructor|done..]. }
  next_call. destruct s0 as [e|[h a]].
  - destruct (accept_error_is_retryable e) eqn:He.
    + next_call. destruct u. eapply calls_pass; [apply IH|done|by apply (tp_retry e)|trace_eq].
    + eapply calls_end; [trace_eq|by apply tl_error|done..].
  - next_call. destruct b.
    { eapply calls_end; [trace_eq|by apply tl_wake|done..]. }
    unfold deadline_after. next_call. next_call.
    next_unless; (eapply calls_pass; [apply IH|done| |trace_eq]).
    + apply (tp_queue _ _ _ true).
    + apply (tp_queue _ _ _ false).
Qed.

Lemma receive_udp_calls rounds s : calls udp_pass udp_last rounds (receive_udp rounds s) s.
Proof.
  revert s. induction rounds as [|rounds IH]; intros s.
  { eapply (calls_end _ _ _ _ _ _ []); [by rewrite app_nil_r|constructor|done..]. }
  cbn [receive_udp]. next_call. destruct b.
  { eapply calls_end; [done|constructor|done..]. }
  next_call. destruct s0 as [e|[wire a]].
  - destruct (transient e) eqn:He.
    + eapply calls_pass; [apply IH|done|by apply (up_retry e)|trace_eq].
    + eapply calls_end; [trace_eq|by apply ul_error|done..].
  - unfold deadline_after. next_call. next_call. destruct b.
    { eapply calls_end; [trace_eq|by apply ul_late|done..]. }
    next_call. next_unless; (eapply calls_pass; [apply IH|done| |trace_eq]).
    + apply (up_queue _ _ _ true).
    + apply (up_queue _ _ _ false).
Qed.
End listeners_spec.

(** ** One datagram, one connection *)

(** Iterations for whatever a worker does within one client budget. *)
Definition ample (fuel : nat) : Prop := (65537 + CLIENT_FRAME_TIMEOUT < Z.of_nat fuel)%Z.

Lemma ample_enough {W X} `{EnvLaws W} fuel dl (s : state W X) :
  ample fuel -> (instant dl <= clock (world s) + CLIENT_FRAME_TIMEOUT)%Z -> enough fuel dl s.
Proof. unfold ample, enough, ticks, CLIENT_FRAME_TIMEOUT, SECOND. lia. Qed.

(** [bytes] is a reply to [w] from this table; [fwd] is what forwarding came to. *)
Definition reply_to (fwd : Query -> UpstreamGroup -> verdict -> list Warning -> Prop) (table : RoutingTable)
    (w : list byte) (transport : Transport) (bytes : list byte) : Prop :=
  exists r, served fwd table w transport r
    /\ packet_parse bytes = Ok (if has_upstreams table then r else packet_clear_ra r).

Lemma reply_to_mono (fwd fwd' : Query -> UpstreamGroup -> verdict -> list Warning -> Prop) table w transport bytes :
  (forall q group v ws, fwd q group v ws -> fwd' q group v ws) ->
  reply_to fwd table w transport bytes -> reply_to fwd' table w transport bytes.
Proof. intros Hm (r & Hs & Hp). exists r. split; [by eapply served_mono|done]. Qed.

Section sessions.
Context {W : Type} `{EnvLaws W} (h : nat) (Hh : reserved (W:=W) (eq h)).
Implicit Types s : state W RequestHandler.

(** What a worker is between frames: its table is sound and the client's stream
    is not its cached upstream connection. *)
Record ready s : Prop := {
  rd_table : table_wf (rh_routing (own s));
  rd_away : handler_away (eq h) (own s)
}.

(** From [s] to [s'] the client stream delivered [rx] and took [tx], the servers
    [l] were walked, and the worker is as ready as before. *)
Record session_step (rx tx : list byte) (l : list UpstreamAddress) s s' : Prop := {
  ss_clock : (clock (world s) <= clock (world s'))%Z;
  ss_trace : trace s `prefix_of` trace s';
  ss_received : received h (trace s') = received h (trace s) ++ rx;
  ss_transmitted : transmitted h (trace s') = transmitted h (trace s) ++ tx;
  ss_table : rh_routing (own s') = rh_routing (own s);
  ss_away : handler_away (eq h) (own s');
  ss_walked : walked l s s'
}.

(** A new worker is ready for any client. *)
Lemma handler_new_ready table entropy handler s :
  table_wf table -> handler_new table entropy = inr handler -> own s = handler -> ready s.
Proof.
  unfold handler_new, forwarder_new. intros Ht Hn Ho. destruct entropy; [done|]. injection Hn as <-.
  split; by rewrite Ho.
Qed.

Lemma session_moved rx tx s s' : ready s -> moved h rx tx s s' -> session_step rx tx [] s s'.
Proof.
  intros [Ht Ha] M. pose proof M as [Hc _ Ho Hr Hx]. split; rewrite ?Ho; auto; [by eapply mv_trace|].
  by eapply walked_none, did_moved.
Qed.

Lemma session_spans rx tx l s s' : session_step rx tx l s s' -> spans s s'.
Proof. by intros []. Qed.

Lemma session_ready rx tx l s s' : session_step rx tx l s s' -> ready s -> ready s'.
Proof. intros [] [Ht Ha]. split; [congruence|done]. Qed.

(** A step around an exchange: what comes before and after contacts nobody. *)
Lemma session_before rx tx rx' tx' l s1 s2 s3 :
  moved h rx tx s1 s2 -> session_step rx' tx' l s2 s3 -> session_step (rx ++ rx') (tx ++ tx') l s1 s3.
Proof.
  intros M [C P R T Tb A Wk]. pose proof M as [C1 _ O1 R1 T1]. pose proof (mv_trace _ _ _ _ _ M) as P1.
  split; [lia|by etrans|by rewrite R, R1, app_assoc|by rewrite T, T1, app_assoc|congruence|done|].
  eapply walked_then; [by eapply did_moved|done].
Qed.
Lemma session_after rx tx rx' tx' l s1 s2 s3 :
  session_step rx tx l s1 s2 -> moved h rx' tx' s2 s3 -> session_step (rx ++ rx') (tx ++ tx') l s1 s3.
Proof.
  intros [C P R T Tb A Wk] M. pose proof M as [C1 _ O1 R1 T1]. pose proof (mv_trace _ _ _ _ _ M) as P1.
  split; [lia|by etrans|by rewrite R1, R, app_assoc|by rewrite T1, T, app_assoc|congruence|congruence|].
  eapply walked_after; [done|by eapply did_moved].
Qed.

Lemma session_apart l s s' :
  ready s -> handled l s s' -> handler_away (eq h) (own s') -> apart (eq h) s s' ->
  session_step [] [] l s s'.
Proof.
  intros [Ht Ha] Hd Haway Hap. destruct (apart_stream (eq h) h s s' eq_refl Hap) as [Hr Hx].
  destruct (handled_spans _ _ _ Hd) as [Hc Hp]. destruct Hd. split; rewrite ?app_nil_r; auto.
Qed.

(** The reply a frame gets within a session, if any. *)
Definition reply_bytes (o : option (list byte)) : list byte :=
  match o with Some bytes => frame_of bytes | None => [] end.

(** A complete turn: the frame [w] was read, answered with [reply] within the deadline
    of the request, or not answered for a reason, and the reply written, in this order
    and with nothing else on the stream. *)
Record turn (w : list byte) (reply : option (list byte)) s s' : Prop := {
  tn_step : session_step (frame_of w) (reply_bytes reply)
              (eligible (rh_routing (own s)) w) s s';
  tn_size : HEADER_LENGTH <= length w /\ (Z.of_nat (length w) <= MAX_MESSAGE_LENGTH)%Z;
  tn_reply : exists dl s1, spans s s1 /\ spans s1 s' /\ instant dl = (clock (world s1) + REQUEST_TIMEOUT)%Z
    /\ match reply with
       | Some bytes => reply_to (relays dl s s') (rh_routing (own s)) w Tcp bytes
       | None => unanswered (rh_routing (own s)) w dl s s'
       end
}.

(** Answering a frame. *)
Lemma respond_session fuel (t : bool) w dl s :
  ready s -> (t = true -> enough fuel dl s) ->
  wpm t (respond fuel w Tcp dl)
    (fun bytes s' => session_step [] [] (eligible (rh_routing (own s)) w) s s'
                     /\ reply_to (relays dl s s') (rh_routing (own s)) w Tcp bytes)
    (fun _ s' => session_step [] [] (eligible (rh_routing (own s)) w) s s'
                 /\ unanswered (rh_routing (own s)) w dl s s') s.
Proof.
  intros Hr Hf. eapply wpm_mono.
  - apply (wpm_keeps _ (handler_away (eq h)) (upstream_call (eq h)) any).
    + by apply respond_keeps.
    + by destruct Hr.
    + apply respond_wp; [by destruct Hr|done].
  - intros bytes s' (([Hh' _ (r & Hs & _ & Hp)] & _) & Ha & Hap). split; [by apply session_apart|].
    by exists r.
  - intros _ s' (((Hh' & Hu) & _) & Ha & Hap). split; [by apply session_apart|done].
Qed.

Lemma reply_to_within dl s0 s1 s2 s3 table w transport bytes :
  spans s0 s1 -> spans s2 s3 -> reply_to (relays dl s1 s2) table w transport bytes ->
  reply_to (relays dl s0 s3) table w transport bytes.
Proof. intros H01 H23. apply reply_to_mono. intros. by eapply relays_within. Qed.

(** How a session breaks, with the error [e]: while a frame is read, which is not
    complete unless the time [dl] for it is over; or while the reply to a complete
    frame is written. *)
Inductive broken (dl : Deadline) (e : IoError) s s' : Prop :=
| broken_read rx :
    session_step rx [] [] s s' -> read_fault h dl e s s' \/ short_frame e rx ->
    unframed rx \/ out_of_time dl e s s' -> broken dl e s s'
| broken_write w bytes k rd wd s1 s2 :
    session_step (frame_of w) (take k (frame_of bytes)) (eligible (rh_routing (own s)) w) s s' ->
    spans s s1 -> instant rd = (clock (world s1) + REQUEST_TIMEOUT)%Z ->
    spans s1 s2 -> instant wd = Z.min (instant rd) (clock (world s2) + CLIENT_WRITE_TIMEOUT) -> spans s2 s' ->
    reply_to (relays rd s s') (rh_routing (own s)) w Tcp bytes ->
    write_fault h wd e s s' \/ bad_length bytes e ->
    k < length (frame_of bytes) \/ out_of_time wd e s s' -> broken dl e s s'.

(** The session ends: on shutdown, or at the end of the stream. *)
Definition closed s s' : Prop := stopped s s' \/ hung_up h s s'.

(** The reply to the frame [w], read between [s] and [s2], is written. *)
Lemma write_reply_wp fuel w bytes dl rd s1 s s3 :
  ample fuel -> instant rd = (clock (world s1) + REQUEST_TIMEOUT)%Z -> spans s s1 -> spans s1 s3 ->
  HEADER_LENGTH <= length w /\ (Z.of_nat (length w) <= MAX_MESSAGE_LENGTH)%Z ->
  session_step (frame_of w) [] (eligible (rh_routing (own s)) w) s s3 ->
  reply_to (relays rd s s3) (rh_routing (own s)) w Tcp bytes ->
  wpm true (let! wd := deadline_capped rd CLIENT_WRITE_TIMEOUT in write_frame fuel h bytes wd)
    (fun _ s' => turn w (Some bytes) s s') (fun e s' => broken dl e s s') s3.
Proof.
  intros Hf Hrd S1 S13 Hsz S03 Hrep. apply wpm_bind, deadline_capped_wp. intros s4 wd Hm4 Hwd.
  pose proof (session_after _ _ _ _ _ _ _ _ S03 (Hm4 h)) as S04. rewrite !app_nil_r in S04.
  pose proof (mv_spans _ _ _ _ _ (Hm4 h)) as S34.
  assert (forall s5, spans s4 s5 -> reply_to (relays rd s s5) (rh_routing (own s)) w Tcp bytes) as Hrep'.
  { intros s5 S45. eapply reply_to_within; [exact (spans_refl s)|exact (spans_trans _ _ _ S34 S45)|done]. }
  eapply wpm_mono; [apply (write_frame_wp true fuel h bytes wd s4)| |].
  - intros _. apply ample_enough; [done|]. rewrite Hwd.
    unfold CLIENT_WRITE_TIMEOUT, CLIENT_FRAME_TIMEOUT, SECOND. lia.
  - intros [] s5 (_ & _ & _ & M5). pose proof (mv_spans _ _ _ _ _ M5) as S45.
    pose proof (session_after _ _ _ _ _ _ _ _ S04 M5) as S05. rewrite app_nil_r in S05. cbn [app] in S05.
    split; [done|done|]. exists rd, s1. split; [done|]. split; [|by auto].
    exact (spans_trans _ _ _ S13 (spans_trans _ _ _ S34 S45)).
  - intros e s5 Hx. destruct (frame_unwritten_moved _ _ _ _ _ _ Hx) as [k0 M0]. pose proof (mv_spans _ _ _ _ _ M0) as S45.
    pose proof (spans_trans _ _ _ S13 S34) as S14. pose proof (session_spans _ _ _ _ _ S04) as [_ P04].
    destruct Hx as [[Hbad ->]|(Hw & k & M5 & Hk)].
    + eapply (broken_write _ _ _ _ w bytes 0 rd wd s1 s4); [by rewrite take_0|done..|by apply Hrep'|by right|left].
      rewrite length_frame_of. lia.
    + pose proof (session_after _ _ _ _ _ _ _ _ S04 M5) as S05. rewrite app_nil_r in S05. cbn [app] in S05.
      eapply (broken_write _ _ _ _ w bytes k rd wd s1 s4); [done..|by apply Hrep'| |].
      * left. by eapply write_fault_after.
      * destruct Hk; [by left|right]. by eapply out_of_time_after.
Qed.

(** After the frame [w] was read. *)
Lemma answer_frame_wp fuel w dl s s1 :
  ready s -> ample fuel -> moved h (frame_of w) [] s s1 ->
  HEADER_LENGTH <= length w /\ (Z.of_nat (length w) <= MAX_MESSAGE_LENGTH)%Z ->
  wpm true
    (let! request_deadline := deadline_after REQUEST_TIMEOUT in
     let! response := mtry (respond fuel w Tcp request_deadline) in
     let! _ := (match response with
                | inr response =>
                  let! write_deadline := deadline_capped request_deadline CLIENT_WRITE_TIMEOUT in
                  write_frame fuel h response write_deadline
                | inl _ => mret tt
                end) in
     let! deadline := deadline_after CLIENT_FRAME_TIMEOUT in
     mret (Some deadline))
    (fun next s' => exists dl' reply, next = Some dl' /\ turn w reply s s'
                    /\ instant dl' = (clock (world s') + CLIENT_FRAME_TIMEOUT)%Z)
    (fun e s' => broken dl e s s') s1.
Proof.
  intros Hr Hf M01 Hsz. apply wpm_bind, deadline_after_wp. intros s2 rd Hm2 Hrd.
  pose proof (moved_trans _ _ _ _ _ _ _ _ M01 (Hm2 h)) as M02. rewrite !app_nil_r in M02.
  pose proof (mv_spans _ _ _ _ _ M02) as S02.
  assert (ready s2) as Hr2 by (eapply session_ready; [by eapply session_moved|done]).
  assert (rh_routing (own s2) = rh_routing (own s)) as Ht2 by (f_equal; apply M02).
  apply wpm_bind, wpm_try. eapply wpm_mono.
  { apply respond_session; [done|]. intros _. apply ample_enough; [done|].
    unfold REQUEST_TIMEOUT, CLIENT_FRAME_TIMEOUT, SECOND in *. lia. }
  - intros bytes s3 [S3 Hrep]. rewrite Ht2 in S3, Hrep. pose proof (session_spans _ _ _ _ _ S3) as S23.
    pose proof (session_before _ _ _ _ _ _ _ _ M02 S3) as S03. rewrite app_nil_r in S03. cbn [app] in S03.
    apply wpm_bind. eapply wpm_mono; [apply (write_reply_wp fuel w bytes dl rd s2 s s3); try done| |done].
    { eapply reply_to_within; [exact S02|exact (spans_refl s3)|done]. }
    intros [] s5 [T5 _ (rd' & s0 & ? & S5 & ? & Hrep5)]. apply wpm_bind, deadline_after_wp.
    intros s6 dl' Hm6 Hdl'. apply wpm_ret. exists dl', (Some bytes). split; [done|]. split; [|done].
    pose proof (session_after _ _ _ _ _ _ _ _ T5 (Hm6 h)) as S06. rewrite !app_nil_r in S06.
    pose proof (mv_spans _ _ _ _ _ (Hm6 h)) as S56. split; [done|done|]. exists rd', s0.
    split; [done|]. split; [by eapply spans_trans|]. split; [done|].
    eapply reply_to_within; [exact (spans_refl s)|exact S56|done].
  - intros [] s3 [S3 Hun]. rewrite Ht2 in S3, Hun. pose proof (session_spans _ _ _ _ _ S3) as S23.
    pose proof (session_before _ _ _ _ _ _ _ _ M02 S3) as S03. rewrite app_nil_r in S03. cbn [app] in S03.
    apply wpm_bind, wpm_ret, wpm_bind, deadline_after_wp. intros s6 dl' Hm6 Hdl'. apply wpm_ret.
    pose proof (session_after _ _ _ _ _ _ _ _ S03 (Hm6 h)) as S06. rewrite !app_nil_r in S06.
    pose proof (mv_spans _ _ _ _ _ (Hm6 h)) as S36.
    exists dl', None. split; [done|]. split; [|done]. split; [done|done|]. exists rd, s2. split; [done|].
    split; [by eapply spans_trans|]. split; [done|]. eapply unanswered_within; [exact S02|exact S36|done].
Qed.

Lemma serve_turn_wp fuel dl s :
  ready s -> ample fuel -> (instant dl <= clock (world s) + CLIENT_FRAME_TIMEOUT)%Z ->
  wpm true (serve_turn fuel h dl)
    (fun next s' =>
       match next with
       | Some dl' => exists w reply, turn w reply s s'
                     /\ instant dl' = (clock (world s') + CLIENT_FRAME_TIMEOUT)%Z
       | None => session_step [] [] [] s s' /\ closed s s'
       end)
    (fun e s' => broken dl e s s') s.
Proof.
  intros Hr Hf Hdl. apply wpm_bind, wpm_call. intros b w0 Hs. set (s0 := MkIo w0 _ _).
  assert (moved h [] [] s s0) as M0 by by apply moved_silent.
  destruct b; [apply wpm_ret; split; [by apply session_moved|left; apply seen_last]|].
  pose proof (mv_clock _ _ _ _ _ M0) as Hc0. pose proof (mv_trace _ _ _ _ _ M0) as P0.
  apply wpm_bind. eapply wpm_mono; [apply read_frame_wp; intros _; apply ample_enough; [done|lia]| |].
  2: { intros e s1 (rx & M1 & Hx & Hu). apply (broken_read _ _ _ _ rx).
       - apply session_moved; [done|by eapply moved_then].
       - destruct Hx; [left; by eapply read_fault_after|by right].
       - destruct Hu; [by left|right; by eapply out_of_time_after]. }
  intros [w|] s1 H1.
  - destruct H1 as (Hl & Hu & _ & M1). eapply wpm_mono; [apply (answer_frame_wp fuel w dl s s1); try done| |done].
    + by eapply moved_then.
    + intros next s' (dl' & reply & -> & Ht & Hdl'). by exists w, reply.
  - destruct H1 as [M1 Hh1]. apply wpm_ret. split; [apply session_moved; [done|by eapply moved_then]|].
    right. by eapply hung_up_after.
Qed.

(** A session: turns one after the other, and nothing on the stream in between. *)
Inductive session : list (list byte * option (list byte)) -> state W RequestHandler -> state W RequestHandler -> Prop :=
| session_nil s s' : session_step [] [] [] s s' -> session [] s s'
| session_cons w reply ts s s1 s' :
    turn w reply s s1 -> session ts s1 s' -> session ((w, reply) :: ts) s s'.

Lemma session_start ts s s1 s' :
  moved h [] [] s s1 -> session ts s1 s' -> session ts s s'.
Proof.
  intros M Hs. revert M. destruct Hs as [s2 s3 S|w reply ts' s2 s4 s3 [S Sz (dl & s5 & S5 & S54 & Hdl & Rp)] Ses]; intros M.
  - apply session_nil. exact (session_before [] [] [] [] _ _ _ _ M S).
  - apply (session_cons _ _ _ _ s4); [|done]. pose proof (mv_spans _ _ _ _ _ M) as S2.
    assert (rh_routing (own s2) = rh_routing (own s)) as Ht by (f_equal; by destruct M).
    rewrite Ht in *. split; [exact (session_before [] [] _ _ _ _ _ _ M S)|done|].
    exists dl, s5. split; [by eapply spans_trans|]. split; [done|]. split; [done|].
    destruct reply as [bytes|];
      [eapply reply_to_within|eapply unanswered_within]; [exact S2|exact (spans_refl s4)|done|exact S2|exact (spans_refl s4)|done].
Qed.

Lemma session_bytes ts s s' :
  session ts s s' ->
  received h (trace s') = received h (trace s) ++ concat ((fun t => frame_of (fst t)) <$> ts)
  /\ transmitted h (trace s') = transmitted h (trace s) ++ concat ((fun t => reply_bytes (snd t)) <$> ts)
  /\ rh_routing (own s') = rh_routing (own s).
Proof.
  induction 1 as [s s' []|w reply ts s s1 s' [[] _ _] _ (R & X & T)]; [done|]. cbn [fmap list_fmap concat fst snd].
  rewrite R, X, T. split_and!; [by rewrite ss_received0, app_assoc|by rewrite ss_transmitted0, app_assoc|done].
Qed.

Lemma session_during ts s s' : session ts s s' -> spans s s'.
Proof.
  induction 1 as [s s' S|w reply ts s s1 s' [S _ _] _ IH]; apply session_spans in S; [done|by eapply spans_trans].
Qed.

(** The deadline of the frame read at [s1]: the first one, or ten seconds from the end
    of a turn. *)
Definition frame_deadline (first dl : Deadline) s s1 : Prop :=
  dl = first \/ exists s2, spans s s2 /\ spans s2 s1 /\ instant dl = (clock (world s2) + CLIENT_FRAME_TIMEOUT)%Z.

(** How a session that was to last [rounds] turns went. *)
Definition session_result (first : Deadline) (rounds : nat) (ts : list (list byte * option (list byte)))
    (r : outcome IoError unit * state W RequestHandler) s : Prop :=
  match fst r with
  | Ok _ => session ts s (snd r) /\ length ts < rounds /\ closed s (snd r)
  | Err e => exists s1, session ts s s1
      /\ ((exists dl, frame_deadline first dl s s1 /\ broken dl e s1 (snd r))
          \/ moved h [] [] s1 (snd r) /\ failed_call e s1 (snd r))
  | Diverge => session ts s (snd r) /\ length ts = rounds
  | Panic => False
  end.

Lemma closed_after s1 s2 s3 : trace s1 `prefix_of` trace s2 -> closed s2 s3 -> closed s1 s3.
Proof. intros Hp [?|?]; [left; by eapply seen_after|right; by eapply hung_up_after]. Qed.

Lemma session_result_cons first dl rounds w reply ts r s s1 :
  turn w reply s s1 -> instant dl = (clock (world s1) + CLIENT_FRAME_TIMEOUT)%Z ->
  session_result dl rounds ts r s1 -> session_result first (S rounds) ((w, reply) :: ts) r s.
Proof.
  intros Ht Hdl. pose proof (session_spans _ _ _ _ _ (tn_step _ _ _ _ Ht)) as S1. unfold session_result.
  destruct r as [[[]|e| |] s2]; cbn [fst snd]; try done.
  - intros (Hs & Hl & Hc). split; [by eapply session_cons|]. split; [simpl; lia|]. eapply closed_after; [apply S1|done].
  - intros (s3 & Hs & Hb). exists s3. split; [by eapply session_cons|]. pose proof (session_during _ _ _ Hs) as S13.
    destruct Hb as [(dl' & Hd & Hb)|?]; [left|by right]. exists dl'. split; [|done]. right.
    destruct Hd as [->|(s4 & S4 & S43 & Hd)]; [by exists s1|]. exists s4. split; [by eapply spans_trans|done].
  - intros [Hs Hl]. split; [by eapply session_cons|simpl; lia].
Qed.

Lemma session_result_start first rounds ts r s s1 :
  moved h [] [] s s1 -> session_result first rounds ts r s1 -> session_result first rounds ts r s.
Proof.
  intros M. pose proof (mv_spans _ _ _ _ _ M) as S1. unfold session_result.
  destruct r as [[[]|e| |] s2]; cbn [fst snd]; try done.
  - intros (Hs & Hl & Hc). split; [by eapply session_start|]. split; [done|]. eapply closed_after; [apply S1|done].
  - intros (s3 & Hs & Hb). exists s3. split; [by eapply session_start|].
    destruct Hb as [(dl' & Hd & Hb)|?]; [left|by right]. exists dl'. split; [|done].
    destruct Hd as [->|(s4 & S4 & S43 & Hd)]; [by left|right]. exists s4. split; [by eapply spans_trans|done].
  - intros [Hs Hl]. split; [by eapply session_start|done].
Qed.

Lemma serve_loop_result fuel rounds : forall dl s,
  ready s -> ample fuel -> (instant dl <= clock (world s) + CLIENT_FRAME_TIMEOUT)%Z ->
  exists ts, session_result dl rounds ts (serve_loop fuel rounds h dl s) s.
Proof.
  assert (forall s, ready s -> session_step [] [] [] s s) as Hrefl
    by (intros s Hr; by apply session_moved).
  induction rounds as [|rounds IH]; intros dl s Hr Hf Hdl.
  { exists []. split; [by apply session_nil, Hrefl|done]. }
  pose proof (serve_turn_wp fuel dl s Hr Hf Hdl) as Hturn. cbn [serve_loop].
  unfold wpm in Hturn. unfold mbind. destruct (serve_turn fuel h dl s) as [[[dl'|]|e| |] s1]; try done.
  - destruct Hturn as (w & reply & Ht & Hdl').
    destruct (IH dl' s1) as (ts & Hts); [by eapply session_ready; [apply Ht|]|done|lia|].
    exists ((w, reply) :: ts). by eapply session_result_cons.
  - destruct Hturn as [Hs Hc]. exists []. split; [by apply session_nil|]. split; [simpl; lia|done].
  - exists []. exists s. split; [by apply session_nil, Hrefl|left]. exists dl. split; [by left|done].
Qed.
End sessions.

(** ** Datagrams *)

Section datagrams.
Context {W : Type} `{EnvLaws W}.
Implicit Types s : state W RequestHandler.

(** What became of the request [job]: [reply] is the datagram sent back. *)
Record datagram_handled (job : Datagram) (reply : option (list byte)) s s' : Prop := {
  dh_handled : handled (eligible (rh_routing (own s)) (dg_wire job)) s s';
  dh_sent : sent_to (trace s')
    = sent_to (trace s) ++ match reply with Some bytes => [(bytes, dg_peer job)] | None => [] end;
  dh_reply : match reply with
             | Some bytes => reply_to (relays (dg_deadline job) s s') (rh_routing (own s)) (dg_wire job) Udp bytes
             | None => unanswered (rh_routing (own s)) (dg_wire job) (dg_deadline job) s s'
             end
}.

(** What follows the answer is beside it. *)
Lemma datagram_after job bytes s s1 s2 :
  handled (eligible (rh_routing (own s)) (dg_wire job)) s s1 ->
  reply_to (relays (dg_deadline job) s s1) (rh_routing (own s)) (dg_wire job) Udp bytes -> beside s1 s2 ->
  sent_to (trace s2) = sent_to (trace s) ++ [(bytes, dg_peer job)] -> datagram_handled job (Some bytes) s s2.
Proof.
  intros Hh Hr Hb Hs. pose proof (makes_spans _ _ _ Hb) as S12. split; [by eapply handled_after|done|].
  eapply reply_to_within; [exact (spans_refl s)|exact S12|done].
Qed.

Lemma udp_handle_wp {E} fuel job s :
  table_wf (rh_routing (own s)) -> enough fuel (dg_deadline job) s ->
  wpm true (udp_handle (E:=E) fuel job)
    (fun _ s' => exists reply, datagram_handled job reply s s') (fun _ _ => False) s.
Proof.
  intros Ht Hf. apply wpm_bind, wpm_try. eapply wpm_mono.
  - apply (wpm_keeps _ (handler_away (fun _ => False)) (upstream_call (fun _ => False)) any).
    + apply respond_keeps. by intros ? ? ? ? ? ? [].
    + unfold handler_away, away. by case_match; [intros []|].
    + apply respond_wp; [done|by intros _].
  - intros bytes s1 (([Hh _ (r & Hs & _ & Hp)] & _) & _ & Hap). apply wpm_bind, wpm_call. intros n w Hw.
    assert (reply_to (relays (dg_deadline job) s s1) (rh_routing (own s)) (dg_wire job) Udp bytes) as Hrep by by exists r.
    pose proof (makes_call (fun ev => contacted1 ev = [] /\ writes_to ev = None) (SendTo bytes (dg_peer job)) _ _ _ Hw ltac:(done)) as Hb.
    assert (sent_to (trace s1 ++ [Ev (SendTo bytes (dg_peer job)) n]) = sent_to (trace s) ++ [(bytes, dg_peer job)]) as Hsent
      by (rewrite sent_to_app; by rewrite (apart_sent _ _ _ Hap)).
    destruct n as [e|n]; [|apply wpm_ret; exists (Some bytes); by eapply datagram_after].
    apply wpm_call. intros [] w' Hw'. exists (Some bytes). eapply datagram_after; [done|done| |].
    + eapply makes_trans; [exact Hb|]. by apply (makes_call _ (Warn (UdpReplyFailed e))).
    + cbn [trace] in *. by rewrite sent_to_app, app_nil_r.
  - intros _ s1 (((Hh & Hu) & _) & _ & Hap). apply wpm_ret. exists None. split; [done| |done].
    by rewrite (apart_sent _ _ _ Hap), app_nil_r.
Qed.

Lemma serve_tcp_result fuel rounds client s :
  reserved (W:=W) (eq (cn_stream client)) -> ready (cn_stream client) s -> ample fuel ->
  (instant (cn_first_deadline client) <= clock (world s) + CLIENT_FRAME_TIMEOUT)%Z ->
  exists ts, session_result (cn_stream client) (cn_first_deadline client) rounds ts (serve_tcp fuel rounds client s) s.
Proof.
  destruct client as [h dl]. cbn [cn_stream cn_first_deadline]. intros Hh Hr Hf Hdl.
  assert (forall s', moved h [] [] s s' -> ready h s') as Hready.
  { intros s' M. by eapply session_ready; [apply session_moved|]. }
  assert (forall s', moved h [] [] s s' ->
    exists ts, session_result h dl rounds ts (serve_loop fuel rounds h dl s') s) as Hloop.
  { intros s' M. destruct (serve_loop_result h Hh fuel rounds dl s') as (ts & Hts); auto.
    { pose proof (mv_clock _ _ _ _ _ M). lia. }
    exists ts. by eapply session_result_start. }
  assert (forall (e : IoError) s', moved h [] [] s s' -> failed_call e s s' -> exists ts, session_result h dl rounds ts (Err e, s') s)
    as Herr.
  { intros e s' M Hx. exists [], s. split; [|by right]. apply session_nil. by apply session_moved. }
  unfold serve_tcp, mio. cbn [cn_stream cn_first_deadline]. rewrite run_bind, run_call.
  destruct (env_step (SetNonblocking h false) (world s)) as [[e|[]] w] eqn:H1.
  { apply Herr; [by apply moved_silent|by eapply failed_call_last]. }
  rewrite run_ret, run_bind, run_call.
  assert (moved h [] [] s (MkIo w (trace s ++ [Ev (SetNonblocking h false) (inr tt)]) (own s))) as M1
    by by apply moved_silent.
  destruct (env_step (SetNodelay h) _) as [[e|[]] w'] eqn:H2.
  - apply Herr; [eapply moved_then; [exact M1|]; by apply moved_silent|].
    eapply failed_call_after; [by eapply mv_trace|]. by eapply failed_call_last.
  - rewrite run_ret. apply Hloop. eapply moved_then; [exact M1|]. by apply moved_silent.
Qed.
End datagrams.

(** ** Properties *)

(** C11: TCP sessions are answered in order.  On a client's stream, [serve_tcp]
    reads one frame, writes its reply or finds a reason for silence, and only
    then reads the next: after any number of turns the bytes received are
    exactly the frames and the bytes sent exactly the frames of their replies,
    in the same order; each reply is one [respond] may give to its frame, and
    only servers eligible for that frame were contacted.  The session ends at
    the end of the stream or on shutdown, or breaks while one more frame is read
    or its reply written; with none of these it goes on for as many turns as it
    is given, and it never panics. *)
Theorem tcp_session_in_order {W} `{EnvLaws W} fuel rounds client (s : state W RequestHandler) :
  reserved (W:=W) (eq (cn_stream client)) -> ready (cn_stream client) s -> ample fuel ->
  (instant (cn_first_deadline client) <= clock (world s) + CLIENT_FRAME_TIMEOUT)%Z ->
  exists ts, session_result (cn_stream client) (cn_first_deadline client) rounds ts (serve_tcp fuel rounds client s) s
    /\ forall s1, session (cn_stream client) ts s s1 ->
         received (cn_stream client) (trace s1)
         = received (cn_stream client) (trace s) ++ concat ((fun t => frame_of (fst t)) <$> ts)
         /\ transmitted (cn_stream client) (trace s1)
            = transmitted (cn_stream client) (trace s) ++ concat ((fun t => reply_bytes (snd t)) <$> ts).
Proof.
  intros Hh Hr Hf Hdl. destruct (serve_tcp_result fuel rounds client s Hh Hr Hf Hdl) as (ts & Hts).
  exists ts. split; [done|]. intros s1 Hs. by destruct (session_bytes _ _ _ _ Hs) as (? & ? & _).
Qed.

(** A client on stream 9 asks [a.test], which goes upstream over TCP, and [lan],
    which is local, and closes. *)
Definition sample_client : Connection := MkConnection 9 (MkDeadline 1000).
Definition sample_session : state Sim RequestHandler :=
  sim_start [frame_of sample_query; frame_of sample_response; frame_of sample_lan_query; []] []
    (MkHandler sample_table (MkForwarder None)).

Lemma sample_reserved h : h <> 1 -> reserved (W:=Sim) (eq h).
Proof.
  intros Hh a d w h' w' He <-. unfold env_step in He. cbn in He. case_bool_decide; by simplify_eq.
Qed.

(** Both are answered in order, on one stream, before its end is read. *)
Example sample_session_replies :
  let r := serve_tcp sample_fuel 10 sample_client sample_session in
  fst r = Ok tt
  /\ received 9 (trace (snd r)) = frame_of sample_query ++ frame_of sample_lan_query
  /\ exists local, transmitted 9 (trace (snd r)) = frame_of sample_response ++ frame_of local
       /\ contacted (trace (snd r)) = [upstream_socket (sample_endpoint x01)].
Proof.
  cbv zeta. split; [vm_compute; reflexivity|]. split; [vm_compute; reflexivity|].
  exists (drop (4 + length sample_response)
            (transmitted 9 (trace (snd (serve_tcp sample_fuel 10 sample_client sample_session))))).
  split; vm_compute; reflexivity.
Qed.

Lemma tcp_session_in_order_witness :
  exists ts, session_result 9 (MkDeadline 1000) 10 ts (serve_tcp (Z.to_nat 20000000000) 10 sample_client sample_session) sample_session
    /\ forall s1, session 9 ts sample_session s1 ->
         received 9 (trace s1) = received 9 (trace sample_session) ++ concat ((fun t => frame_of (fst t)) <$> ts)
         /\ transmitted 9 (trace s1)
            = transmitted 9 (trace sample_session) ++ concat ((fun t => reply_bytes (snd t)) <$> ts).
Proof.
  apply (tcp_session_in_order (Z.to_nat 20000000000) 10 sample_client sample_session).
  - apply sample_reserved. discriminate.
  - split; [exact sample_table_wf|exact I].
  - unfold ample, CLIENT_FRAME_TIMEOUT, SECOND. rewrite Z2Nat.id; lia.
  - unfold CLIENT_FRAME_TIMEOUT, SECOND. simpl. lia.
Defined.

(** C29: the listeners do what they take in and nothing else.  Whatever [accept]
    and [recv_from] return, each pass of a listener checks the flag, takes in
    one connection or datagram and queues exactly that one, with a deadline that
    starts at its receipt; it survives the errors classified as retryable, ends
    well only after it saw the flag raised, and ends with an error only for an
    error of its socket.  It never panics. *)
Theorem listeners_follow_protocol {W X} `{Env W} rounds (s : state W X) :
  calls tcp_pass tcp_last rounds (accept_tcp rounds s) s
  /\ calls udp_pass udp_last rounds (receive_udp rounds s) s.
Proof. split; [apply accept_tcp_calls|apply receive_udp_calls]. Qed.

(** The errors of [per_connection_accept_errors_do_not_stop_the_listener] and
    the error that ends it. *)
Example handshake_errors_survived :
  let os n := MkIoError KOther None (Some n) in
  let s := MkIo (MkSim 0 None [] [] [] []
             [inl (io_error KConnectionAborted); inl (io_error KHostUnreachable); inl (os 71%Z); inr 9;
              inl (io_error KInvalidInput); inr 10]) [] tt in
  let r := accept_tcp 10 s in
  fst r = Err (io_error KInvalidInput)
  /\ trace (snd r) !! 8 = Some (Ev (Warn (HandshakeIgnored (os 71%Z))) tt)
  /\ trace (snd r) !! 9 = Some (Ev Stop false)
  /\ trace (snd r) !! 13 = Some (Ev (SubmitTcp 9 CLIENT_FRAME_TIMEOUT) true)
  /\ length (trace (snd r)) = 16.
Proof. cbv zeta. split_and!; vm_compute; reflexivity. Qed.
