(* ===== verification/Addr.v ===== *)
(** * Parsing of Internet addresses

    [std::net::parser] of the Rust standard library, as far as
    [src/src/config.rs] uses it through [str::parse]: IPv4 and IPv6 addresses
    and socket addresses.  The parser's state is the rest of the text; a failed
    [read_atomically] leaves it where it was. *)

From S2P Require Import Prelude Net.

(** A reader: what it read and the rest of the text, or nothing. *)
Definition reader (A : Type) : Type := list byte -> option (A * list byte).

(** [char::to_digit(radix)] on a byte. *)
Definition to_digit (radix : Z) (c : byte) : option Z :=
  let v := b2z c in
  let d := (if (48 <=? v) && (v <=? 57) then v - 48
            else if (97 <=? v) && (v <=? 122) then v - 87
            else if (65 <=? v) && (v <=? 90) then v - 55
            else 99)%Z in
  if (d <? radix)%Z then Some d else None.

(** [read_given_char]. *)
Definition read_given_char (target : byte) : reader unit := fun text =>
  match text with
  | c :: rest => if u8_eqb c target then Some (tt, rest) else None
  | [] => None
  end.

(** The digits loop of [read_number]: value, number of digits and rest. *)
Fixpoint read_digits (radix : Z) (acc : Z) (count : nat) (text : list byte) : Z * nat * list byte :=
  match text with
  | c :: rest =>
    match to_digit radix c with
    | Some d => read_digits radix (acc * radix + d) (S count) rest
    | None => (acc, count, text)
    end
  | [] => (acc, count, text)
  end.

(** [read_number(radix, max_digits, allow_zero_prefix)] for a type of values up
    to [max_value].  The digits are bounded by [max_digits] where given and by
    checked arithmetic otherwise; either way an oversized number is refused, and
    a prefix of an oversized number is oversized only together with it. *)
Definition read_number (radix : Z) (max_digits : option nat) (allow_zero_prefix : bool)
    (max_value : Z) : reader Z := fun text =>
  let '(value, count, rest) := read_digits radix 0 0 text in
  let has_leading_zero := match text with c :: _ => u8_eqb c x30 | [] => false end in
  if match max_digits with Some n => n <? count | None => false end then None
  else if count =? 0 then None
  else if negb allow_zero_prefix && has_leading_zero && (1 <? count) then None
  else if (value <=? max_value)%Z then Some (value, rest) else None.

(** [read_separator]. *)
Definition read_separator {A} (sep : byte) (index : nat) (inner : reader A) : reader A := fun text =>
  match index with
  | O => inner text
  | S _ =>
    match read_given_char sep text with
    | Some (_, text) => inner text
    | None => None
    end
  end.

(** [read_ipv4_addr]: octal numbers are refused. *)
Definition read_octet (index : nat) : reader byte := fun text =>
  match read_separator x2e index (read_number 10 (Some 3) false 255) text with
  | Some (v, rest) => Some (z2b v, rest)
  | None => None
  end.

Definition read_ipv4_addr : reader Ipv4Addr := fun text =>
  match read_octet 0 text with
  | None => None
  | Some (a, text) =>
    match read_octet 1 text with
    | None => None
    | Some (b, text) =>
      match read_octet 2 text with
      | None => None
      | Some (c, text) =>
        match read_octet 3 text with
        | None => None
        | Some (d, text) => Some (Ipv4 a b c d, text)
        end
      end
    end
  end.

(** [read_groups] over the slots from [i] to [limit]: the groups read as octets,
    whether they end in an embedded IPv4 address, and the rest. *)
Fixpoint read_groups (slots : nat) (i limit : nat) (groups : list byte) (text : list byte)
    : list byte * bool * list byte :=
  match slots with
  | O => (groups, false, text)
  | S slots =>
    match (if i <? limit - 1 then read_separator x3a i read_ipv4_addr text else None) with
    | Some (v4, rest) => (groups ++ octets v4, true, rest)
    | None =>
      match read_separator x3a i (read_number 16 (Some 4) true 65535) text with
      | Some (group, rest) => read_groups slots (S i) limit (groups ++ to_be16 group) rest
      | None => (groups, false, text)
      end
    end
  end.

(** [read_ipv6_addr]: [head] and [tail] are octets, two per group. *)
Definition read_ipv6_addr : reader (list byte) := fun text =>
  let '(head, head_ipv4, text) := read_groups 8 0 8 [] text in
  if length head =? 16 then Some (head, text)
  else if head_ipv4 : bool then None
  else
    match read_given_char x3a text with
    | None => None
    | Some (_, text) =>
      match read_given_char x3a text with
      | None => None
      | Some (_, text) =>
        let limit := 8 - (length head / 2 + 1) in
        let '(tail, _, text) := read_groups limit 0 limit [] text in
        Some (head ++ replicate (16 - length head - length tail) x00 ++ tail, text)
      end
    end.

(** [read_port], [read_scope_id]. *)
Definition read_port : reader Z := fun text =>
  match read_given_char x3a text with
  | Some (_, text) => read_number 10 None true 65535 text
  | None => None
  end.
Definition read_scope_id : reader Z := fun text =>
  match read_given_char x25 text with
  | Some (_, text) => read_number 10 None true 4294967295 text
  | None => None
  end.

Definition read_socket_addr_v4 : reader SocketAddr := fun text =>
  match read_ipv4_addr text with
  | None => None
  | Some (ip, text) =>
    match read_port text with
    | Some (port, text) => Some (SocketV4 ip port, text)
    | None => None
    end
  end.

Definition read_socket_addr_v6 : reader SocketAddr := fun text =>
  match read_given_char x5b text with
  | None => None
  | Some (_, text) =>
    match read_ipv6_addr text with
    | None => None
    | Some (ip, text) =>
      let '(scope_id, text) := default (0%Z, text) (read_scope_id text) in
      match read_given_char x5d text with
      | None => None
      | Some (_, text) =>
        match read_port text with
        | Some (port, text) => Some (SocketV6 ip port 0 scope_id, text)
        | None => None
        end
      end
    end
  end.

(** [parse_with]: the whole text must have been read. *)
Definition parse_with {A} (inner : reader A) (text : list byte) : option A :=
  match inner text with
  | Some (a, []) => Some a
  | _ => None
  end.

Definition or_else {A} (r1 r2 : reader A) : reader A := fun text =>
  match r1 text with Some x => Some x | None => r2 text end.
Definition map_reader {A B} (f : A -> B) (r : reader A) : reader B := fun text =>
  match r text with Some (a, rest) => Some (f a, rest) | None => None end.

(** [str::parse] at [Ipv4Addr], [Ipv6Addr], [IpAddr] and [SocketAddr]. *)
Definition ipv4_from_str (text : list byte) : option Ipv4Addr :=
  if 15 <? length text then None else parse_with read_ipv4_addr text.
Definition ipv6_from_str (text : list byte) : option (list byte) := parse_with read_ipv6_addr text.
Definition ip_from_str (text : list byte) : option IpAddr :=
  parse_with (or_else (map_reader V4 read_ipv4_addr) (map_reader V6 read_ipv6_addr)) text.
Definition socket_from_str (text : list byte) : option SocketAddr :=
  parse_with (or_else read_socket_addr_v4 read_socket_addr_v6) text.

(** ** What is read is in range *)

Definition ip_wf (ip : IpAddr) : Prop := match ip with V4 _ => True | V6 o => length o = 16 end.
Definition socket_wf (a : SocketAddr) : Prop := ip_wf (socket_ip a) /\ is_u16 (socket_port a).

Lemma to_digit_nonneg radix c d : to_digit radix c = Some d -> (0 <= d)%Z.
Proof.
  unfold to_digit. pose proof (b2z_range c). repeat case_match; intros; simplify_eq; lia.
Qed.

Lemma read_digits_nonneg radix text : forall acc count v n rest,
  (0 <= radix)%Z -> (0 <= acc)%Z -> read_digits radix acc count text = (v, n, rest) -> (0 <= v)%Z.
Proof.
  induction text as [|c text IH]; intros acc count v n rest Hr Ha H; cbn [read_digits] in H.
  - by simplify_eq.
  - destruct (to_digit radix c) as [d|] eqn:Hd; [|by simplify_eq].
    apply to_digit_nonneg in Hd. eapply IH; [done| |exact H]. nia.
Qed.

Lemma read_number_range radix n z m text v rest :
  (0 <= radix)%Z -> read_number radix n z m text = Some (v, rest) -> (0 <= v <= m)%Z.
Proof.
  intros Hr H. unfold read_number in H. destruct (read_digits _ _ _ _) as [[v' k] rest'] eqn:Hd.
  apply read_digits_nonneg in Hd; [|done|lia].
  repeat case_match; simplify_eq; bool_to_prop; lia.
Qed.

Lemma read_groups_length slots : forall i limit groups text g b rest,
  i + slots = limit -> length groups = 2 * i -> read_groups slots i limit groups text = (g, b, rest) ->
  exists k, i <= k <= limit /\ length g = 2 * k.
Proof.
  induction slots as [|slots IH]; intros i limit groups text g b rest Hi Hg H; cbn [read_groups] in H.
  - exists i. injection H as <- _ _. lia.
  - destruct (if i <? limit - 1 then read_separator x3a i read_ipv4_addr text else None)
      as [[v4 r]|] eqn:Hv.
    + injection H as <- _ _. destruct (i <? _) eqn:Hl; [|done]. bool_to_prop. exists (i + 2).
      rewrite length_app, length_octets. lia.
    + destruct (read_separator x3a i (read_number _ _ _ _) text) as [[v r]|]; [|exists i; injection H as <- _ _; lia].
      apply IH in H as (k & ? & ?); [|lia|rewrite length_app, length_to_be16; lia].
      exists k. lia.
Qed.

Lemma read_ipv6_length text ip rest : read_ipv6_addr text = Some (ip, rest) -> length ip = 16.
Proof.
  unfold read_ipv6_addr. intros H.
  destruct (read_groups 8 _ _ _ _) as [[hd v4] text1] eqn:Hh.
  apply read_groups_length in Hh as (k & Hk & Hl); [|done|done].
  destruct (length hd =? 16) eqn:H16; [by simplify_eq; bool_to_prop|]. bool_to_prop.
  destruct v4; [done|]. destruct (read_given_char _ _) as [[[] text2]|]; [|done].
  destruct (read_given_char _ _) as [[[] text3]|]; [|done]. cbv zeta in H.
  rewrite Hl in *. rewrite Nat.mul_comm, Nat.div_mul in H by lia.
  destruct (read_groups _ _ _ _ _) as [[tl v4] text4] eqn:Ht.
  apply read_groups_length in Ht as (k' & Hk' & Hl'); [|done|done].
  injection H as <- _. rewrite !length_app, length_replicate. lia.
Qed.

Lemma parse_with_Some {A} (r : reader A) text a : parse_with r text = Some a <-> r text = Some (a, []).
Proof. unfold parse_with. destruct (r text) as [[x [|]]|]; naive_solver. Qed.

Lemma ipv6_from_str_length text ip : ipv6_from_str text = Some ip -> length ip = 16.
Proof. intros H%parse_with_Some. by eapply read_ipv6_length. Qed.

Lemma ip_from_str_wf text ip : ip_from_str text = Some ip -> ip_wf ip.
Proof.
  intros H%parse_with_Some. unfold or_else, map_reader in H.
  destruct (read_ipv4_addr text) as [[a r]|]; [by simplify_eq|].
  destruct (read_ipv6_addr text) as [[o r]|] eqn:Ho; [|done]. simplify_eq.
  by eapply read_ipv6_length.
Qed.

Lemma read_port_u16 text port rest : read_port text = Some (port, rest) -> is_u16 port.
Proof.
  unfold read_port. destruct (read_given_char _ _) as [[? ?]|]; [|done].
  intros H%read_number_range; [|done]. unfold is_u16. lia.
Qed.

Lemma socket_from_str_wf text a : socket_from_str text = Some a -> socket_wf a.
Proof.
  intros H%parse_with_Some. unfold or_else in H.
  destruct (read_socket_addr_v4 text) as [[a' r]|] eqn:H4.
  - simplify_eq. unfold read_socket_addr_v4 in H4.
    destruct (read_ipv4_addr text) as [[ip r1]|]; [|done].
    destruct (read_port r1) as [[port r2]|] eqn:Hp; [|done]. simplify_eq.
    split; [done|by eapply read_port_u16].
  - unfold read_socket_addr_v6 in H. destruct (read_given_char _ _) as [[? r1]|]; [|done].
    destruct (read_ipv6_addr r1) as [[ip r2]|] eqn:Hip; [|done].
    destruct (default _ _) as [scope r3]. destruct (read_given_char _ r3) as [[? r4]|]; [|done].
    destruct (read_port r4) as [[port r5]|] eqn:Hp; [|done]. simplify_eq.
    split; [by eapply read_ipv6_length|by eapply read_port_u16].
Qed.

(** ** Dotted decimal text *)

(** [Display] of a number and of an IPv4 address. *)
Fixpoint decimal_loop (fuel : nat) (n : Z) (acc : list byte) : list byte :=
  match fuel with
  | O => acc
  | S fuel =>
    let acc := z2b (48 + n mod 10) :: acc in
    if (n <? 10)%Z then acc else decimal_loop fuel (n / 10) acc
  end.
(** A [u16] has at most five digits. *)
Definition decimal (n : Z) : list byte := decimal_loop 5 n [].

Definition ipv4_display (a : Ipv4Addr) : list byte :=
  decimal (b2z (v4_0 a)) ++ [x2e] ++ decimal (b2z (v4_1 a)) ++ [x2e]
  ++ decimal (b2z (v4_2 a)) ++ [x2e] ++ decimal (b2z (v4_3 a)).

(** Text that does not go on with a digit. *)
Definition no_digit (text : list byte) : Prop :=
  match text with c :: _ => to_digit 10 c = None | [] => True end.

Lemma read_digits_app ds rest : forall acc count v n,
  read_digits 10 acc count ds = (v, n, []) -> no_digit rest ->
  read_digits 10 acc count (ds ++ rest) = (v, n, rest).
Proof.
  induction ds as [|c ds IH]; intros acc count v n H Hr; cbn [read_digits app] in *.
  - simplify_eq. destruct rest as [|c rest]; [done|]. cbn [read_digits]. by rewrite Hr.
  - destruct (to_digit 10 c); [by apply IH|done].
Qed.

Lemma read_number_app max z m ds rest v :
  ds <> [] -> read_number 10 max z m ds = Some (v, []) -> no_digit rest ->
  read_number 10 max z m (ds ++ rest) = Some (v, rest).
Proof.
  intros Hne H Hr. unfold read_number in *. destruct (read_digits 10 0 0 ds) as [[v' n] r] eqn:Hd.
  assert (r = []) as -> by (repeat case_match; by simplify_eq).
  rewrite (read_digits_app _ _ _ _ _ _ Hd Hr). destruct ds as [|c ds]; [done|]. cbn [app].
  repeat case_match; by simplify_eq.
Qed.

Lemma read_octet_decimal b rest :
  no_digit rest ->
  read_number 10 (Some 3) false 255 (decimal (b2z b) ++ rest) = Some (b2z b, rest).
Proof.
  intros Hr. apply read_number_app; [| |done].
  - assert (negb (length (decimal (b2z b)) =? 0) = true) as H
      by byte_compute (fun b => negb (length (decimal (b2z b)) =? 0)).
    by destruct (decimal (b2z b)).
  - apply (bool_decide_eq_true_1 (read_number 10 (Some 3) false 255 (decimal (b2z b)) = Some (b2z b, []))).
    byte_compute (fun b =>
      bool_decide (read_number 10 (Some 3) false 255 (decimal (b2z b)) = Some (b2z b, []))).
Qed.

Lemma read_ipv4_display a rest :
  no_digit rest -> read_ipv4_addr (ipv4_display a ++ rest) = Some (a, rest).
Proof.
  intros Hr. unfold read_ipv4_addr, ipv4_display, read_octet, read_separator, read_given_char.
  rewrite <- !app_assoc. cbn [app].
  rewrite read_octet_decimal by done. rewrite z2b_b2z. cbn [u8_eqb].
  change (u8_eqb x2e x2e) with true. cbn iota.
  rewrite read_octet_decimal by done. rewrite z2b_b2z. change (u8_eqb x2e x2e) with true. cbn iota.
  rewrite read_octet_decimal by done. rewrite z2b_b2z. change (u8_eqb x2e x2e) with true. cbn iota.
  rewrite read_octet_decimal by done. rewrite z2b_b2z. by destruct a.
Qed.

Lemma to_digit_decimal d : (0 <= d < 10)%Z -> to_digit 10 (z2b (48 + d)) = Some d.
Proof.
  intros Hd. unfold to_digit. rewrite b2z_z2b_small by lia.
  rewrite (proj2 (Z.leb_le _ _)), (proj2 (Z.leb_le _ _)) by lia. cbn [andb].
  replace (48 + d - 48)%Z with d by lia. by rewrite (proj2 (Z.ltb_lt _ _)) by lia.
Qed.

Lemma read_digits_decimal fuel : forall n acc,
  (0 <= n < 10 ^ Z.of_nat (S fuel))%Z ->
  exists k, read_digits 10 0 0 (decimal_loop (S fuel) n acc) = read_digits 10 n (S k) acc.
Proof.
  induction fuel as [|fuel IH]; intros n acc Hn.
  - exists 0. change (10 ^ Z.of_nat 1)%Z with 10%Z in Hn. cbn [decimal_loop].
    rewrite (proj2 (Z.ltb_lt _ _)) by lia. cbn [read_digits].
    rewrite Z.mod_small, to_digit_decimal by lia. done.
  - assert (0 <= n mod 10 < 10)%Z as Hm by (apply Z.mod_pos_bound; lia).
    remember (S fuel) as f. cbn [decimal_loop]. destruct (n <? 10)%Z eqn:Hlt; bool_to_prop.
    + exists 0. cbn [read_digits]. rewrite to_digit_decimal by lia.
      by rewrite Z.mod_small by lia.
    + destruct (IH (n / 10)%Z (z2b (48 + n mod 10) :: acc)) as [k Hk].
      { rewrite Nat2Z.inj_succ, Z.pow_succ_r in Hn by lia. split; [by apply Z.div_pos; lia|].
        apply Z.div_lt_upper_bound; lia. }
      exists (S k). rewrite Hk. cbn [read_digits]. rewrite to_digit_decimal by lia.
      f_equal. pose proof (Z.div_mod n 10 ltac:(lia)). lia.
Qed.

Lemma read_port_decimal port :
  is_u16 port -> read_number 10 None true 65535 (decimal port) = Some (port, []).
Proof.
  unfold is_u16. intros Hp. unfold read_number, decimal.
  destruct (read_digits_decimal 4 port []) as [k ->]; [change (10 ^ Z.of_nat 5)%Z with 100000%Z; lia|].
  cbn [read_digits Nat.eqb negb andb]. by rewrite (proj2 (Z.leb_le _ _)) by lia.
Qed.

(** The address of IPv4 text, and the endpoint of IPv4 text with a port. *)
Lemma ipv4_display_parses a : ip_from_str (ipv4_display a) = Some (V4 a).
Proof.
  apply parse_with_Some. unfold or_else, map_reader.
  rewrite <- (app_nil_r (ipv4_display a)), read_ipv4_display by done. done.
Qed.

Lemma ipv4_display_no_bracket a : head (ipv4_display a) <> Some x5b.
Proof.
  assert (forall b, head (decimal (b2z b)) <> Some x5b /\ decimal (b2z b) <> []) as Hb.
  { intros b. assert (bool_decide (head (decimal (b2z b)) <> Some x5b /\ decimal (b2z b) <> []) = true) as H
      by byte_compute (fun b => bool_decide (head (decimal (b2z b)) <> Some x5b /\ decimal (b2z b) <> [])).
    by apply bool_decide_eq_true in H. }
  destruct (Hb (v4_0 a)) as [? ?]. unfold ipv4_display. by destruct (decimal (b2z (v4_0 a))).
Qed.

Lemma ipv4_display_no_socket a : socket_from_str (ipv4_display a) = None.
Proof.
  unfold socket_from_str, parse_with, or_else, read_socket_addr_v4, read_socket_addr_v6.
  rewrite <- (app_nil_r (ipv4_display a)), read_ipv4_display by done. cbn [read_port read_given_char].
  rewrite app_nil_r. pose proof (ipv4_display_no_bracket a) as Hb.
  destruct (ipv4_display a) as [|c ds]; [done|]. cbn [read_given_char].
  destruct (u8_eqb c x5b) eqn:Hc; [|done]. bool_to_prop. by subst.
Qed.

Lemma ipv4_port_parses a port :
  is_u16 port -> socket_from_str (ipv4_display a ++ [x3a] ++ decimal port) = Some (SocketV4 a port).
Proof.
  intros Hp. apply parse_with_Some. unfold or_else, read_socket_addr_v4.
  rewrite read_ipv4_display by done. unfold read_port. cbn [app read_given_char].
  change (u8_eqb x3a x3a) with true. cbn iota. by rewrite read_port_decimal.
Qed.
