(* ===== verification/Config.v ===== *)
(** * Configuration

    [src/src/config.rs]: from the text of the configuration file to listener
    settings and a validated routing table.  The TOML library is a parameter:
    its tables and values through the accessors the code uses. *)

From Stdlib Require Import String.
From S2P Require Import Prelude Types Name Net Addr Routing Io Forwarding.

(** ** The interface of the TOML library *)

Class Toml := {
  toml_value : Type;
  toml_table : Type;
  toml_error : Type;
  (** [DeTable::parse]. *)
  toml_parse : list byte -> toml_error + toml_table;
  table_keys : toml_table -> list (list byte);
  table_get : toml_table -> list byte -> option toml_value;
  value_str : toml_value -> option (list byte);
  value_table : toml_value -> option toml_table;
  value_array : toml_value -> option (list toml_value);
  (** [as_integer]: the digits and the radix. *)
  value_integer : toml_value -> option (list byte * Z)
}.

Definition DEFAULT_DNS_PORT : Z := 53.
Definition MAX_CONFIG_BYTES : Z := 1024 * 1024.
Definition MAX_ROUTES : nat := 4096.

Notation key s := (list_byte_of_string s) (only parsing).
Local Open Scope string_scope.
Definition KEY_LISTEN : list byte := Eval compute in key "listen".
Definition KEY_DEFAULT : list byte := Eval compute in key "default".
Definition KEY_ROUTE : list byte := Eval compute in key "route".
Definition KEY_LOCAL : list byte := Eval compute in key "local".
Definition KEY_SERVERS : list byte := Eval compute in key "servers".
Definition KEY_DOMAIN : list byte := Eval compute in key "domain".
Definition KEY_ADDRESS : list byte := Eval compute in key "address".
Definition KEY_TTL : list byte := Eval compute in key "ttl".
Local Close Scope string_scope.

(** ** Addresses and integers *)

(** [str::strip_prefix('\[')] and [str::strip_suffix('\]')]. *)
Definition strip_open (raw : list byte) : option (list byte) :=
  match raw with c :: rest => if u8_eqb c x5b then Some rest else None | [] => None end.
Definition strip_close (raw : list byte) : option (list byte) :=
  match reverse raw with
  | c :: rest => if u8_eqb c x5d then Some (reverse rest) else None
  | [] => None
  end.

Definition parse_address (raw : list byte) : option SocketAddr :=
  match socket_from_str raw with
  | Some address => Some address
  | None =>
    let ip :=
      match (match strip_open raw with Some s => strip_close s | None => None end) with
      | Some ip => V6 <$> ipv6_from_str ip
      | None => ip_from_str raw
      end in
    (fun ip => socket_new ip DEFAULT_DNS_PORT) <$> ip
  end.

(** [i32::from_str_radix]: an optional sign and digits, with checked steps. *)
Fixpoint i32_digits (radix : Z) (negative : bool) (acc : Z) (text : list byte) : option Z :=
  match text with
  | [] => Some acc
  | c :: rest =>
    match to_digit radix c with
    | None => None
    | Some d =>
      let acc := (if negative then acc * radix - d else acc * radix + d)%Z in
      if ((-2147483648 <=? acc) && (acc <=? 2147483647))%Z
      then i32_digits radix negative acc rest else None
    end
  end.
Definition i32_from_str_radix (text : list byte) (radix : Z) : option Z :=
  match text with
  | [] => None
  | c :: rest =>
    if u8_eqb c x2b || u8_eqb c x2d then
      match rest with [] => None | _ => i32_digits radix (u8_eqb c x2d) 0 rest end
    else i32_digits radix false 0 text
  end.

(** Where in the document an error is, as far as the code says. *)
Inductive Place := InConfiguration | InDefault | InRoute (index : nat) | InLocal (index : nat).

(** What the text of an [Invalid] error is made from; [Texts] writes it out. *)
Inductive Invalid :=
| TooLarge
| UnknownKey (context : Place) (key : list byte)
| NotAString (key : list byte)
| ListenSyntax
| ListenEndpoint (e : RouteError)
| DefaultNotTable
| RouteNotArray
| LocalNotArray
| TooManyRoutes
| TooManyEntries
| NotATable (context : Place)
| BadDomain (context : Place) (e : ParseError)
| BadLocalAddress (context : Place)
| BadTtl (context : Place)
| ServersNotArray
| ServerNotString
| BadServerAddress (raw : list byte).

Section config.
Context {toml : Toml}.

(** [ConfigError]. *)
Inductive ConfigError :=
| CfgIo (e : IoError)
| CfgSyntax (e : toml_error)
| CfgInvalid (reason : Invalid)
| CfgForwardingLoop
| CfgRouting (e : RouteError).

Record Config := MkConfig { listen : SocketAddr; routing : RoutingTable }.

Definition required_string (table : toml_table) (key : list byte) : outcome ConfigError (list byte) :=
  ok_or (match table_get table key with Some v => value_str v | None => None end) (CfgInvalid (NotAString key)).

(** [reject_unknown_keys], its loop over the keys included. *)
Fixpoint reject_keys (keys allowed : list (list byte)) (context : Place) : outcome ConfigError unit :=
  match keys with
  | [] => Ok tt
  | key :: keys =>
    if negb (bool_decide (key ∈ allowed)) then Err (CfgInvalid (UnknownKey context key))
    else reject_keys keys allowed context
  end.
Definition reject_unknown_keys (table : toml_table) (allowed : list (list byte)) (context : Place)
    : outcome ConfigError unit := reject_keys (table_keys table) allowed context.

(** The loop of [parse_upstream_group]. *)
Fixpoint parse_servers (values : list toml_value) (listen : SocketAddr) (acc : list UpstreamAddress)
    : outcome ConfigError (list UpstreamAddress) :=
  match values with
  | [] => Ok acc
  | value :: values =>
    let* raw := ok_or (value_str value) (CfgInvalid ServerNotString) in
    let* address := ok_or (parse_address raw) (CfgInvalid (BadServerAddress raw)) in
    if (socket_port address =? socket_port listen)%Z
       && bool_decide (to_canonical (socket_ip address) = to_canonical (socket_ip listen))
    then Err CfgForwardingLoop
    else
      let* address := map_err CfgRouting (upstream_address_new address) in
      parse_servers values listen (acc ++ [address])
  end.

Definition parse_upstream_group (table : toml_table) (listen : SocketAddr)
    : outcome ConfigError UpstreamGroup :=
  let* values :=
    ok_or (match table_get table KEY_SERVERS with Some v => value_array v | None => None end)
      (CfgInvalid ServersNotArray) in
  let* addresses := parse_servers values listen [] in
  map_err CfgRouting (upstream_group_new addresses).

(** The entries of [default], [route] and [local] in [Config::parse]. *)
Definition parse_default (value : toml_value) (listen : SocketAddr)
    : outcome ConfigError UpstreamGroup :=
  let* default_table := ok_or (value_table value) (CfgInvalid DefaultNotTable) in
  let* _ := reject_unknown_keys default_table [KEY_SERVERS] InDefault in
  parse_upstream_group default_table listen.

Definition parse_domain (table : toml_table) (context : Place) : outcome ConfigError DomainName :=
  let* domain := required_string table KEY_DOMAIN in
  map_err (fun error => CfgInvalid (BadDomain context error)) (name_from_str domain).

Definition parse_route (listen : SocketAddr) (route_index : nat) (value : toml_value)
    : outcome ConfigError Route :=
  let* route_table := ok_or (value_table value) (CfgInvalid (NotATable (InRoute route_index))) in
  let* _ := reject_unknown_keys route_table [KEY_DOMAIN; KEY_SERVERS] (InRoute route_index) in
  let* suffix := parse_domain route_table (InRoute route_index) in
  let* upstreams := parse_upstream_group route_table listen in
  Ok (MkRoute suffix upstreams).

(** [ttl]: zero when absent, otherwise an integer in 0..=2147483647. *)
Definition parse_ttl (value : option toml_value) (context : Place) : outcome ConfigError Z :=
  match value with
  | None => Ok 0%Z
  | Some value =>
    ok_or
      (match value_integer value with
       | Some (text, radix) =>
         match i32_from_str_radix text radix with
         | Some ttl => if (0 <=? ttl)%Z then Some ttl else None
         | None => None
         end
       | None => None
       end) (CfgInvalid (BadTtl context))
  end.

Definition parse_local_record (index : nat) (value : toml_value) : outcome ConfigError LocalRecord :=
  let context := InLocal index in
  let* record := ok_or (value_table value) (CfgInvalid (NotATable context)) in
  let* _ := reject_unknown_keys record [KEY_DOMAIN; KEY_ADDRESS; KEY_TTL] context in
  let* suffix := parse_domain record context in
  let* address := required_string record KEY_ADDRESS in
  let* address := ok_or (ipv4_from_str address) (CfgInvalid (BadLocalAddress context)) in
  let* ttl := parse_ttl (table_get record KEY_TTL) context in
  Ok (MkLocal suffix address ttl).

(** The two loops over numbered entries. *)
Fixpoint parse_entries {A} (parse : nat -> toml_value -> outcome ConfigError A) (index : nat)
    (values : list toml_value) (acc : list A) : outcome ConfigError (list A) :=
  match values with
  | [] => Ok acc
  | value :: values =>
    let* entry := parse index value in parse_entries parse (S index) values (acc ++ [entry])
  end.
Definition parse_routes (values : list toml_value) (listen : SocketAddr) : outcome ConfigError (list Route) :=
  parse_entries (parse_route listen) 0 values [].
Definition parse_local (values : list toml_value) : outcome ConfigError (list LocalRecord) :=
  parse_entries parse_local_record 0 values [].

(** [Config::parse]. *)
Definition config_parse (text : list byte) : outcome ConfigError Config :=
  let* table := (match toml_parse text with inl e => Err (CfgSyntax e) | inr table => Ok table end) in
  let* _ := reject_unknown_keys table [KEY_LISTEN; KEY_DEFAULT; KEY_ROUTE; KEY_LOCAL] InConfiguration in
  let* raw := required_string table KEY_LISTEN in
  let* listen := ok_or (parse_address raw) (CfgInvalid ListenSyntax) in
  let* listen := map_err (fun error => CfgInvalid (ListenEndpoint error)) (upstream_address_new listen) in
  let listen := upstream_socket listen in
  let* default :=
    (match table_get table KEY_DEFAULT with
     | None => Ok None
     | Some value => let* group := parse_default value listen in Ok (Some group)
     end) in
  let* routes :=
    (match table_get table KEY_ROUTE with
     | None => Ok []
     | Some value =>
       let* array := ok_or (value_array value) (CfgInvalid RouteNotArray) in
       if MAX_ROUTES <? length array then Err (CfgInvalid TooManyRoutes)
       else parse_routes array listen
     end) in
  let* local :=
    (match table_get table KEY_LOCAL with
     | None => Ok []
     | Some value =>
       let* array := ok_or (value_array value) (CfgInvalid LocalNotArray) in
       if MAX_ROUTES <? length routes + length array then Err (CfgInvalid TooManyEntries)
       else parse_local array
     end) in
  let* routing := map_err CfgRouting (routing_table_new default routes local) in
  Ok (MkConfig listen routing).

(** [Config::load], from the result of reading at most one byte beyond the limit
    as text. *)
Definition config_load (read : ioresult (list byte)) : outcome ConfigError Config :=
  match read with
  | inl e => Err (CfgIo e)
  | inr text =>
    if (MAX_CONFIG_BYTES <? Z.of_nat (length text))%Z then Err (CfgInvalid TooLarge)
    else config_parse text
  end.
End config.

(** ** What a configuration guarantees *)

(** The endpoint is usable and is not the listener in any spelling. *)
Definition server_wf (listen : SocketAddr) (a : UpstreamAddress) : Prop :=
  let ip := to_canonical (socket_ip (upstream_socket a)) in
  usable_endpoint ip (socket_port (upstream_socket a))
  /\ (socket_port (upstream_socket a) <> socket_port listen \/ ip <> to_canonical (socket_ip listen)).

Definition group_wf (listen : SocketAddr) (g : UpstreamGroup) : Prop :=
  1 <= length (servers g) <= MAX_UPSTREAMS /\ NoDup (servers g)
  /\ Forall (server_wf listen) (servers g).

Definition local_wf (r : LocalRecord) : Prop :=
  name_wf (local_suffix r) /\ (0 <= local_ttl r <= 2147483647)%Z.

Record config_wf (c : Config) : Prop := {
  cw_listen : usable_endpoint (socket_ip (listen c)) (socket_port (listen c))
    /\ to_canonical (socket_ip (listen c)) = socket_ip (listen c);
  cw_default : forall g, rt_default (routing c) = Some g -> group_wf (listen c) g;
  cw_routes : Forall (fun r => name_wf (route_suffix r) /\ group_wf (listen c) (route_upstreams r))
                (rt_routes (routing c));
  cw_local : Forall local_wf (rt_local (routing c));
  cw_size : length (rt_routes (routing c)) + length (rt_local (routing c)) <= MAX_ROUTES;
  cw_table : exists routes local,
    routing_table_new (rt_default (routing c)) routes local = Ok (routing c)
}.

Lemma from_str_loop_safe parts : forall acc len, safe (from_str_loop parts acc len).
Proof.
  induction parts as [|label parts IH]; intros acc len; [done|]. cbn [from_str_loop].
  destruct (_ || _); [done|]. cbv zeta. destruct (_ <? _); [done|]. apply IH.
Qed.

Lemma name_from_str_wp text : wp (name_from_str text) name_wf.
Proof.
  assert (safe (name_from_str text)) as Hs.
  { unfold name_from_str. destruct (bool_decide _); [done|]. apply from_str_loop_safe. }
  destruct (name_from_str text) as [n| | |] eqn:Hn; try done. by apply name_from_str_spec in Hn as [? _].
Qed.

Lemma upstream_address_new_wp a P :
  (usable_endpoint (to_canonical (socket_ip a)) (socket_port a) -> P (MkUpstream (canonical_socket a))) ->
  wp (upstream_address_new a) P.
Proof. intros HP. by destruct (upstream_address_new_cases a) as [[? ->]|[_ ->]]; [apply HP|]. Qed.

Lemma upstream_group_new_wp addresses P :
  (1 <= length addresses <= MAX_UPSTREAMS -> NoDup addresses -> P (MkGroup addresses)) ->
  wp (upstream_group_new addresses) P.
Proof.
  intros HP. assert (safe (upstream_group_new addresses)) as Hs.
  { unfold upstream_group_new. destruct (_ || _); [done|]. apply wp_bind. unfold group_loop.
    destruct (scan_loop_cases (fun seen address => bool_decide (address ∈ seen))
      (fun _ : UpstreamAddress => DuplicateServer) addresses) as [->|(x & _ & ->)]; done. }
  destruct (upstream_group_new addresses) as [g| | |] eqn:Hg; try done.
  apply upstream_group_new_Ok in Hg as (-> & ? & ?). by apply HP.
Qed.

Section config_wp.
Context {toml : Toml}.

Lemma reject_unknown_keys_wp table allowed context (P : unit -> Prop) :
  (Forall (fun k => k ∈ allowed) (table_keys table) -> P tt) ->
  wp (reject_unknown_keys table allowed context) P.
Proof.
  unfold reject_unknown_keys. intros HP.
  assert (wp (reject_keys (table_keys table) allowed context)
    (fun _ => Forall (fun k => k ∈ allowed) (table_keys table))) as Hw.
  { clear HP. induction (table_keys table) as [|k keys IH]; [constructor|]. cbn [reject_keys].
    destruct (bool_decide _) eqn:Hk; [|done]. cbn [negb]. bool_to_prop.
    eapply wp_mono; [exact IH|]. intros ? Hks. by constructor. }
  eapply wp_mono; [exact Hw|]. intros [] Hk. by apply HP.
Qed.

Lemma required_string_safe table key : safe (required_string table key).
Proof. by apply wp_ok_or. Qed.

Lemma parse_servers_wp l values : forall acc,
  Forall (server_wf l) acc -> wp (parse_servers values l acc) (Forall (server_wf l)).
Proof.
  induction values as [|v values IH]; intros acc Ha; [done|]. cbn [parse_servers].
  apply wp_bind, wp_ok_or. intros raw _. apply wp_bind, wp_ok_or. intros a _.
  destruct (_ && _) eqn:Hloop; [done|].
  apply wp_bind, wp_map_err, upstream_address_new_wp. intros Hu. apply IH.
  apply Forall_app. split; [done|]. apply Forall_singleton. unfold server_wf. cbn [upstream_socket].
  rewrite canonical_socket_ip, canonical_socket_port, to_canonical_idemp. split; [done|].
  apply andb_false_iff in Hloop as [Hl|Hl]; bool_to_prop; [by left|by right].
Qed.

Lemma parse_upstream_group_wp table l : wp (parse_upstream_group table l) (group_wf l).
Proof.
  apply wp_bind, wp_ok_or. intros values _. apply wp_bind.
  eapply wp_mono; [by apply parse_servers_wp|]. intros addresses Ha.
  apply wp_map_err, upstream_group_new_wp. intros Hl Hn. by split.
Qed.

Lemma parse_default_wp value l : wp (parse_default value l) (group_wf l).
Proof.
  apply wp_bind, wp_ok_or. intros table _. apply wp_bind, reject_unknown_keys_wp. intros _.
  apply parse_upstream_group_wp.
Qed.

Lemma parse_domain_wp table context : wp (parse_domain table context) name_wf.
Proof.
  apply wp_bind. eapply wp_mono; [apply required_string_safe|]. intros domain _.
  apply wp_map_err, name_from_str_wp.
Qed.

Definition route_wf (l : SocketAddr) (r : Route) : Prop :=
  name_wf (route_suffix r) /\ group_wf l (route_upstreams r).

Lemma parse_route_wp l index value : wp (parse_route l index value) (route_wf l).
Proof.
  apply wp_bind, wp_ok_or. intros table _. apply wp_bind, reject_unknown_keys_wp. intros _.
  apply wp_bind. eapply wp_mono; [apply parse_domain_wp|]. intros suffix Hs.
  apply wp_bind. eapply wp_mono; [apply parse_upstream_group_wp|]. by intros g Hg.
Qed.

(** Entries are parsed one by one; each keeps what is promised of one. *)
Lemma parse_entries_wp {A} (parse : nat -> toml_value -> outcome ConfigError A) (P : A -> Prop) values :
  (forall i value, wp (parse i value) P) -> forall index acc,
  Forall P acc ->
  wp (parse_entries parse index values acc) (fun l => Forall P l /\ length l = length acc + length values).
Proof.
  intros Hp. induction values as [|v values IH]; intros index acc Ha; cbn [parse_entries].
  { split; [done|simpl; lia]. }
  apply wp_bind. eapply wp_mono; [apply Hp|]. intros a Hpa. eapply wp_mono; [apply IH|].
  - apply Forall_app. split; [done|]. by apply Forall_singleton.
  - intros l [? Hl]. split; [done|]. rewrite length_app in Hl. simpl in *. lia.
Qed.

(** The error of a list of entries is that of its first bad entry, by its number. *)
Lemma parse_entries_error {A} (parse : nat -> toml_value -> outcome ConfigError A) values : forall index acc e,
  parse_entries parse index values acc = Err e ->
  exists i value, values !! i = Some value /\ parse (index + i) value = Err e
    /\ forall j w, j < i -> values !! j = Some w -> exists a, parse (index + j) w = Ok a.
Proof.
  induction values as [|v values IH]; intros index acc e; cbn [parse_entries]; [done|].
  destruct (parse index v) as [a|e'| |] eqn:Hv; cbn [obind]; [|intros [= ->]|done..].
  - intros (i & value & Hi & He & Hj)%IH. exists (S i), value. rewrite <- Nat.add_succ_comm.
    split_and!; [done|done|]. intros [|j] w Hlt Hw; cbn in Hw.
    + simplify_eq. rewrite Nat.add_0_r. eauto.
    + rewrite <- Nat.add_succ_comm. eapply Hj; [lia|done].
  - exists 0, v. rewrite Nat.add_0_r. split_and!; [done|done|lia].
Qed.

Lemma i32_digits_range radix negative text : forall acc v,
  (-2147483648 <= acc <= 2147483647)%Z -> i32_digits radix negative acc text = Some v ->
  (-2147483648 <= v <= 2147483647)%Z.
Proof.
  induction text as [|c text IH]; intros acc v Ha H; cbn [i32_digits] in H; [by simplify_eq|].
  destruct (to_digit radix c); [|done]. cbv zeta in H.
  destruct (_ && _) eqn:Hr in H; [|done]. bool_to_prop. by eapply IH in H; [|lia].
Qed.

Lemma i32_from_str_radix_range text radix v :
  i32_from_str_radix text radix = Some v -> (-2147483648 <= v <= 2147483647)%Z.
Proof.
  unfold i32_from_str_radix. destruct text as [|c rest]; [done|]. destruct (_ || _).
  - destruct rest; [done|]. by apply i32_digits_range.
  - by apply i32_digits_range.
Qed.

Lemma parse_ttl_wp value context : wp (parse_ttl value context) (fun ttl => 0 <= ttl <= 2147483647)%Z.
Proof.
  destruct value as [v|]; [|done]. apply wp_ok_or. intros ttl H.
  destruct (value_integer v) as [[text radix]|]; [|done].
  destruct (i32_from_str_radix text radix) as [t|] eqn:Ht; [|done].
  apply i32_from_str_radix_range in Ht. destruct (0 <=? t)%Z eqn:Hz; [|done].
  simplify_eq. bool_to_prop. lia.
Qed.

Lemma parse_local_record_wp index value : wp (parse_local_record index value) local_wf.
Proof.
  unfold parse_local_record. cbv zeta.
  apply wp_bind, wp_ok_or. intros table _. apply wp_bind, reject_unknown_keys_wp. intros _.
  apply wp_bind. eapply wp_mono; [apply parse_domain_wp|]. intros suffix Hs.
  apply wp_bind. eapply wp_mono; [apply required_string_safe|]. intros text _.
  apply wp_bind, wp_ok_or. intros address _.
  apply wp_bind. eapply wp_mono; [apply parse_ttl_wp|]. by intros ttl Ht.
Qed.

(** An optional array of tables with a bound on its length. *)
Lemma optional_array_wp {A} (value : option toml_value) (bound : nat -> bool)
    (parse : list toml_value -> outcome ConfigError (list A)) e1 e2 (P : list A -> Prop) :
  P [] -> (forall array, bound (length array) = false -> wp (parse array) P) ->
  wp (match value with
      | None => Ok []
      | Some value =>
        let* array := ok_or (value_array value) e1 in
        if bound (length array) then Err e2 else parse array
      end) P.
Proof.
  intros Hn Hp. destruct value as [v|]; [|done]. apply wp_bind, wp_ok_or. intros array _.
  destruct (bound _) eqn:Hb; [done|by apply Hp].
Qed.

Lemma config_parse_wp text : wp (config_parse text) config_wf.
Proof.
  unfold config_parse. apply wp_bind. destruct (toml_parse text) as [e|table]; [done|]. cbn [wp].
  apply wp_bind, reject_unknown_keys_wp. intros _.
  apply wp_bind. eapply wp_mono; [apply required_string_safe|]. intros raw _.
  apply wp_bind, wp_ok_or. intros a _.
  apply wp_bind, wp_map_err, upstream_address_new_wp. intros Hu. cbn [upstream_socket]. cbv zeta.
  set (l := canonical_socket a). apply wp_bind.
  assert (wp (match table_get table KEY_DEFAULT with
              | None => Ok None
              | Some value => let* group := parse_default value l in Ok (Some group)
              end) (fun d => forall g, d = Some g -> group_wf l g)) as Hd.
  { destruct (table_get table KEY_DEFAULT); [|done]. apply wp_bind.
    eapply wp_mono; [apply parse_default_wp|]. by intros g Hg g' [= <-]. }
  eapply wp_mono; [exact Hd|]. clear Hd. intros default Hdef. apply wp_bind.
  eapply wp_mono; [apply (optional_array_wp _ (fun n => MAX_ROUTES <? n) (fun array => parse_routes array l) _ _
    (fun routes => Forall (route_wf l) routes /\ length routes <= MAX_ROUTES))| ].
  { by split; [|simpl; lia]. }
  { intros array Hb. bool_to_prop. eapply wp_mono; [by apply parse_entries_wp; [apply parse_route_wp|]|].
    intros routes [? Hl]. simpl in Hl. split; [done|lia]. }
  intros routes [Hr Hrl]. apply wp_bind.
  eapply wp_mono; [apply (optional_array_wp _ (fun n => MAX_ROUTES <? length routes + n)
    parse_local _ _
    (fun local => Forall local_wf local /\ length routes + length local <= MAX_ROUTES))| ].
  { split; [constructor|simpl; lia]. }
  { intros array Hb. bool_to_prop. eapply wp_mono; [by apply parse_entries_wp; [apply parse_local_record_wp|]|].
    intros local [? Hl]. simpl in Hl. split; [done|lia]. }
  intros local [Hl Hll]. apply wp_bind, wp_map_err.
  destruct (routing_table_new_cases default routes local) as [[Hua Ht]|[_ (n & _ & ->)]]; [|done].
  rewrite Ht. cbn [wp]. split; cbn [listen routing].
  - unfold l. rewrite canonical_socket_ip, canonical_socket_port, to_canonical_idemp. by split.
  - exact Hdef.
  - cbn [sorted_table rt_routes]. by rewrite sort_desc_perm.
  - cbn [sorted_table rt_local]. by rewrite sort_desc_perm.
  - cbn [sorted_table rt_local rt_routes]. by rewrite !sort_desc_perm.
  - exists routes, local. exact Ht.
Qed.
End config_wp.

Lemma config_table_wf c : config_wf c -> table_wf (routing c).
Proof.
  intros [_ _ _ Hl _ _]. eapply Forall_impl; [exact Hl|]. intros r [_ Ht]. unfold is_u32. lia.
Qed.

(** ** A TOML library for examples *)

(** Values as a tree; parsing gives back one document whatever the text. *)
Inductive tree :=
| TString (s : list byte)
| TInteger (text : list byte) (radix : Z)
| TArray (l : list tree)
| TTable (l : list (list byte * tree))
| TOther.

Definition tree_toml (document : list (list byte * tree)) : Toml := {|
  toml_value := tree;
  toml_table := list (list byte * tree);
  toml_error := unit;
  toml_parse _ := inr document;
  table_keys t := fst <$> t;
  table_get t k := snd <$> find (fun e => bool_decide (fst e = k)) t;
  value_str v := match v with TString s => Some s | _ => None end;
  value_table v := match v with TTable l => Some l | _ => None end;
  value_array v := match v with TArray l => Some l | _ => None end;
  value_integer v := match v with TInteger text radix => Some (text, radix) | _ => None end
|}.

Local Open Scope string_scope.
(** One server, one local record; the listener is spelled as IPv4-mapped IPv6. *)
Definition sample_document (server : string) : list (list byte * tree) :=
  [(KEY_LISTEN, TString (key "[::ffff:192.0.2.1]:53"));
   (KEY_DEFAULT, TTable [(KEY_SERVERS, TArray [TString (key server)])]);
   (KEY_LOCAL, TArray [TTable [(KEY_DOMAIN, TString (key "lan.")); (KEY_ADDRESS, TString (key "10.0.0.1"));
                               (KEY_TTL, TInteger (key "7fffffff") 16)]])].

Example sample_config_parses :
  config_parse (toml := tree_toml (sample_document "192.0.2.2")) []
  = Ok (MkConfig (SocketV4 (Ipv4 xc0 x00 x02 x01) 53)
          (MkTable (Some (MkGroup [MkUpstream (SocketV4 (Ipv4 xc0 x00 x02 x02) 53)])) []
             [MkLocal (MkName [[x6c; x61; x6e]]) (Ipv4 x0a x00 x00 x01) 2147483647])).
Proof. vm_compute. reflexivity. Qed.

Example sample_loop_is_refused :
  config_parse (toml := tree_toml (sample_document "192.0.2.1:53")) [] = Err CfgForwardingLoop
  /\ config_parse (toml := tree_toml (sample_document "::ffff:c000:201")) [] = Err CfgForwardingLoop.
Proof. vm_compute. split; reflexivity. Qed.
Local Close Scope string_scope.

(** ** Properties *)

(** A server address without a port means port 53.  Every IPv4 address, as it
    is printed, is accepted as a configuration address with the DNS port, and
    with an explicit port of up to 65535 as exactly that endpoint. *)
Theorem address_port_default a port :
  is_u16 port ->
  parse_address (ipv4_display a) = Some (SocketV4 a DEFAULT_DNS_PORT)
  /\ parse_address (ipv4_display a ++ [x3a] ++ decimal port) = Some (SocketV4 a port).
Proof.
  intros Hp. unfold parse_address. rewrite ipv4_port_parses by done. split; [|done].
  rewrite ipv4_display_no_socket.
  replace (strip_open (ipv4_display a)) with (@None (list byte)); [by rewrite ipv4_display_parses|].
  pose proof (ipv4_display_no_bracket a) as Hb. unfold strip_open.
  destruct (ipv4_display a) as [|c rest]; [done|]. destruct (u8_eqb c x5b) eqn:Hc; [|done].
  bool_to_prop. by subst.
Qed.

Lemma address_port_default_witness :
  let a := Ipv4 x0a x00 x00 xff in
  ipv4_display a = key "10.0.0.255"%string
  /\ parse_address (ipv4_display a) = Some (SocketV4 a 53)
  /\ parse_address (ipv4_display a ++ [x3a] ++ decimal 5353) = Some (SocketV4 a 5353).
Proof.
  cbv zeta. split; [vm_compute; reflexivity|].
  apply (address_port_default (Ipv4 x0a x00 x00 xff) 5353). unfold is_u16. lia.
Defined.
