(* ===== verification/Document.v ===== *)
(** * The grammar of configurations

    What a configuration document is: the keys it may hold, the shape of each
    entry, and the settings each entry stands for, without a word on the order in
    which they are read or on the errors reported.  [Config::parse] of [Config]
    accepts exactly these documents and returns the settings they describe. *)

From Stdlib Require Import String.
From S2P Require Import Prelude Types Name Net Addr Routing Io Forwarding Config.

(** ** Numerals *)

Definition digits_value (radix : Z) (acc : Z) (ds : list Z) : Z :=
  fold_left (fun acc d => acc * radix + d)%Z ds acc.

Definition digits_of (radix : Z) (text : list byte) (ds : list Z) : Prop :=
  Forall2 (fun c d => to_digit radix c = Some d) text ds.

Definition is_sign (c : byte) : Prop := c = x2b \/ c = x2d.

(** A 32-bit signed numeral: digits, behind at most one sign. *)
Inductive numeral (radix : Z) : list byte -> Z -> Prop :=
| numeral_unsigned c text ds :
    ~ is_sign c -> digits_of radix (c :: text) ds -> (digits_value radix 0 ds <= 2147483647)%Z ->
    numeral radix (c :: text) (digits_value radix 0 ds)
| numeral_plus text ds :
    text <> [] -> digits_of radix text ds -> (digits_value radix 0 ds <= 2147483647)%Z ->
    numeral radix (x2b :: text) (digits_value radix 0 ds)
| numeral_minus text ds :
    text <> [] -> digits_of radix text ds -> (digits_value radix 0 ds <= 2147483648)%Z ->
    numeral radix (x2d :: text) (- digits_value radix 0 ds).

Lemma to_digit_range radix c d : to_digit radix c = Some d -> (0 <= d < radix)%Z.
Proof.
  unfold to_digit. cbv zeta. destruct (_ <? radix)%Z eqn:Hr; [|done]. intros [= <-]. bool_to_prop.
  split; [|done]. clear Hr. repeat match goal with |- context [if ?b then _ else _] => destruct b eqn:? end; bool_to_prop; lia.
Qed.

Lemma digits_value_mono radix text ds acc :
  digits_of radix text ds -> (0 <= acc)%Z -> (acc <= digits_value radix acc ds)%Z.
Proof.
  intros H. revert acc. induction H as [|c d text ds Hd%to_digit_range _ IH]; intros acc Ha; cbn; [lia|].
  etrans; [|apply IH; nia]. nia.
Qed.

(** Stepwise overflow checks refuse exactly the values out of range: the magnitude
    never shrinks. *)
Lemma i32_digits_iff radix (negative : bool) text : forall acc v,
  (0 <= acc <= if negative then 2147483648 else 2147483647)%Z ->
  i32_digits radix negative (if negative then - acc else acc) text = Some v
  <-> exists ds, digits_of radix text ds
        /\ (digits_value radix acc ds <= if negative then 2147483648 else 2147483647)%Z
        /\ v = (if negative then - digits_value radix acc ds else digits_value radix acc ds)%Z.
Proof.
  induction text as [|c text IH]; intros acc v Ha; cbn [i32_digits].
  - split.
    + intros [= <-]. exists []. split_and!; [constructor|cbn; lia|done].
    + intros (ds & Hd & _ & ->). by inversion Hd.
  - destruct (to_digit radix c) as [d|] eqn:Hd; cycle 1.
    { split; [done|]. intros (ds & H & _). inversion H. congruence. }
    pose proof (to_digit_range _ _ _ Hd) as Hdr. cbv zeta.
    assert ((if negative then (if negative then - acc else acc) * radix - d
             else (if negative then - acc else acc) * radix + d)
            = if negative then - (acc * radix + d) else acc * radix + d)%Z as -> by (destruct negative; lia).
    destruct (_ && _) eqn:Hr.
    + rewrite IH by (destruct negative; bool_to_prop; nia). split.
      * intros (ds & Hds & Hle & ->). exists (d :: ds). by split_and!; [constructor| |].
      * intros (ds & Hds & Hle & ->). inversion Hds; simplify_eq. by eexists.
    + split; [done|]. intros (ds & Hds & Hle & ->). exfalso. inversion Hds as [|? d' ? ds' ? Hds']; simplify_eq.
      pose proof (digits_value_mono radix _ ds' (acc * radix + d)%Z Hds' ltac:(nia)) as Hm.
      cbn in Hle. fold (digits_value radix (acc * radix + d) ds') in Hle.
      apply andb_false_iff in Hr as [Hr|Hr]; destruct negative; bool_to_prop; nia.
Qed.

Lemma i32_rest radix negative rest :
  rest <> [] ->
  match rest with [] => None | _ => i32_digits radix negative 0 rest end = i32_digits radix negative 0 rest.
Proof. by destruct rest. Qed.

Lemma i32_from_str_radix_iff text radix v : i32_from_str_radix text radix = Some v <-> numeral radix text v.
Proof.
  split.
  - destruct text as [|c rest]; [done|]. cbn [i32_from_str_radix]. destruct (_ || _) eqn:Hs.
    + assert (rest = [] \/ rest <> []) as [->|Hne] by (destruct rest; auto); [done|].
      rewrite (i32_rest radix _ rest Hne). destruct (u8_eqb c x2d) eqn:Hm; bool_to_prop.
      * intros (ds & Hds & Hle & ->)%(i32_digits_iff radix true _ 0); [|lia]. subst c. by constructor.
      * intros (ds & Hds & Hle & ->)%(i32_digits_iff radix false _ 0); [|lia].
        rewrite orb_false_r in Hs. bool_to_prop. subst c. by constructor.
    + intros (ds & Hds & Hle & ->)%(i32_digits_iff radix false _ 0); [|lia].
      constructor; [|done|done]. apply orb_false_iff in Hs as [H1 H2]. bool_to_prop. intros [?|?]; congruence.
  - intros [c rest ds Hs Hds Hle|rest ds Hne Hds Hle|rest ds Hne Hds Hle]; cbn [i32_from_str_radix].
    + destruct (_ || _) eqn:Hb.
      * exfalso. apply Hs. apply orb_true_iff in Hb as [H|H]; bool_to_prop; [by left|by right].
      * apply (i32_digits_iff radix false _ 0); [lia|]. by exists ds.
    + rewrite (i32_rest radix _ rest Hne).
      apply (i32_digits_iff radix false _ 0); [lia|]. by exists ds.
    + rewrite (i32_rest radix _ rest Hne).
      apply (i32_digits_iff radix true _ 0); [lia|]. by exists ds.
Qed.

(** ** Endpoints *)

Definition bracketed (raw : list byte) : Prop := exists ip, raw = [x5b] ++ ip ++ [x5d].

(** An address with a port, or one without, which means the DNS port; only IPv6
    addresses are put in brackets. *)
Inductive endpoint_text (raw : list byte) : SocketAddr -> Prop :=
| text_socket a : socket_from_str raw = Some a -> endpoint_text raw a
| text_bracketed text ip :
    socket_from_str raw = None -> raw = [x5b] ++ text ++ [x5d] -> ipv6_from_str text = Some ip ->
    endpoint_text raw (socket_new (V6 ip) DEFAULT_DNS_PORT)
| text_bare ip :
    socket_from_str raw = None -> ~ bracketed raw -> ip_from_str raw = Some ip ->
    endpoint_text raw (socket_new ip DEFAULT_DNS_PORT).

(** Inside the brackets. *)
Definition unbracket (raw : list byte) : option (list byte) :=
  match strip_open raw with Some s => strip_close s | None => None end.

Lemma unbracket_iff raw text : unbracket raw = Some text <-> raw = [x5b] ++ text ++ [x5d].
Proof.
  unfold unbracket, strip_open, strip_close. split.
  - destruct raw as [|c rest]; [done|]. destruct (u8_eqb c x5b) eqn:Hc; [|done].
    destruct (reverse rest) as [|c' text'] eqn:Hr; [done|]. destruct (u8_eqb c' x5d) eqn:Hc'; [|done].
    intros [= <-]. bool_to_prop. subst. cbn. f_equal.
    by rewrite <- (reverse_involutive rest), Hr, reverse_cons.
  - intros ->. simpl. rewrite reverse_snoc. simpl. by rewrite reverse_involutive.
Qed.

Lemma parse_address_iff raw a : parse_address raw = Some a <-> endpoint_text raw a.
Proof.
  unfold parse_address. fold (unbracket raw). destruct (socket_from_str raw) as [a'|] eqn:Hs.
  { split; [intros [= <-]; by constructor|]. intros [a'' H|? ? H|? H]; congruence. }
  destruct (unbracket raw) as [text|] eqn:Hb; rewrite fmap_Some.
  - apply unbracket_iff in Hb as Hraw. setoid_rewrite fmap_Some. split.
    + intros (ip & (ip6 & Hip & ->) & ->). by eapply text_bracketed.
    + intros [a' H|text' ip _ H%unbracket_iff Hip|ip _ Hn]; [congruence| |].
      * simplify_eq. eauto.
      * destruct Hn. by eexists.
  - split.
    + intros (ip & Hip & ->). apply text_bare; [done| |done]. by intros [text H%unbracket_iff]; congruence.
    + intros [a' H|text' ip _ H%unbracket_iff Hip|ip _ Hn]; [congruence|congruence|eauto].
Qed.

(** ** Documents *)

Section document.
Context {toml : Toml}.

(** The keys of a table are among these. *)
Definition keys_within (allowed : list (list byte)) (table : toml_table) : Prop :=
  Forall (fun key => key ∈ allowed) (table_keys table).

(** The entry at a key holds a string, and an array. *)
Definition string_at (table : toml_table) (key s : list byte) : Prop :=
  exists v, table_get table key = Some v /\ value_str v = Some s.
Definition array_at (table : toml_table) (key : list byte) (l : list toml_value) : Prop :=
  exists v, table_get table key = Some v /\ value_array v = Some l.

(** A server: an endpoint that can be sent to and is not the listener, however
    either is spelled. *)
Inductive server_entry (listen : SocketAddr) (v : toml_value) : UpstreamAddress -> Prop :=
| server_endpoint raw a :
    value_str v = Some raw -> endpoint_text raw a ->
    usable_endpoint (to_canonical (socket_ip a)) (socket_port a) ->
    ~ (socket_port a = socket_port listen /\ to_canonical (socket_ip a) = to_canonical (socket_ip listen)) ->
    server_entry listen v (MkUpstream (canonical_socket a)).

(** The servers of a group: one to eight, all different, in order of preference. *)
Inductive group_entry (listen : SocketAddr) (table : toml_table) : UpstreamGroup -> Prop :=
| group_servers values us :
    array_at table KEY_SERVERS values -> Forall2 (server_entry listen) values us ->
    1 <= length us <= MAX_UPSTREAMS -> NoDup us ->
    group_entry listen table (MkGroup us).

Inductive default_entry (listen : SocketAddr) (v : toml_value) : UpstreamGroup -> Prop :=
| default_table table g :
    value_table v = Some table -> keys_within [KEY_SERVERS] table -> group_entry listen table g ->
    default_entry listen v g.

Inductive route_entry (listen : SocketAddr) (v : toml_value) : Route -> Prop :=
| route_table table domain suffix g :
    value_table v = Some table -> keys_within [KEY_DOMAIN; KEY_SERVERS] table ->
    string_at table KEY_DOMAIN domain -> domain_text domain suffix -> group_entry listen table g ->
    route_entry listen v (MkRoute suffix g).

(** The time to live of a local record: zero when it is not given. *)
Inductive ttl_entry (table : toml_table) : Z -> Prop :=
| ttl_absent : table_get table KEY_TTL = None -> ttl_entry table 0
| ttl_given v text radix n :
    table_get table KEY_TTL = Some v -> value_integer v = Some (text, radix) ->
    numeral radix text n -> (0 <= n)%Z -> ttl_entry table n.

Inductive local_entry (v : toml_value) : LocalRecord -> Prop :=
| local_table table domain suffix raw address ttl :
    value_table v = Some table -> keys_within [KEY_DOMAIN; KEY_ADDRESS; KEY_TTL] table ->
    string_at table KEY_DOMAIN domain -> domain_text domain suffix ->
    string_at table KEY_ADDRESS raw -> ipv4_from_str raw = Some address -> ttl_entry table ttl ->
    local_entry v (MkLocal suffix address ttl).

(** The entries of an array that may be absent. *)
Inductive entries {A} (P : toml_value -> A -> Prop) (table : toml_table) (key : list byte) : list A -> Prop :=
| entries_absent : table_get table key = None -> entries P table key []
| entries_given values l : array_at table key values -> Forall2 P values l -> entries P table key l.

Inductive document (table : toml_table) : Config -> Prop :=
| document_fields raw a default routes local :
    keys_within [KEY_LISTEN; KEY_DEFAULT; KEY_ROUTE; KEY_LOCAL] table ->
    string_at table KEY_LISTEN raw -> endpoint_text raw a ->
    usable_endpoint (to_canonical (socket_ip a)) (socket_port a) ->
    match default with
    | None => table_get table KEY_DEFAULT = None
    | Some g => exists v, table_get table KEY_DEFAULT = Some v /\ default_entry (canonical_socket a) v g
    end ->
    entries (route_entry (canonical_socket a)) table KEY_ROUTE routes ->
    entries local_entry table KEY_LOCAL local ->
    length routes + length local <= MAX_ROUTES ->
    unambiguous routes local ->
    document table (MkConfig (canonical_socket a) (sorted_table default routes local)).
End document.

(** ** Parsing accepts exactly the documents *)

Section equivalence.
Context {toml : Toml}.

Lemma reject_unknown_keys_iff table allowed context :
  reject_unknown_keys table allowed context = Ok tt <-> keys_within allowed table.
Proof.
  unfold reject_unknown_keys, keys_within. induction (table_keys table) as [|key keys IH]; [by split|].
  cbn [reject_keys]. rewrite Forall_cons, <- IH. case_bool_decide; cbn [negb]; naive_solver.
Qed.

Lemma required_string_iff table key s : required_string table key = Ok s <-> string_at table key s.
Proof.
  unfold required_string, string_at. rewrite ok_or_Ok. destruct (table_get table key); naive_solver.
Qed.

Lemma array_at_iff table key l :
  match table_get table key with Some v => value_array v | None => None end = Some l <-> array_at table key l.
Proof. unfold array_at. destruct (table_get table key); naive_solver. Qed.

Lemma upstream_address_new_iff a u :
  upstream_address_new a = Ok u
  <-> u = MkUpstream (canonical_socket a) /\ usable_endpoint (to_canonical (socket_ip a)) (socket_port a).
Proof. destruct (upstream_address_new_cases a) as [[? ->]|[? ->]]; naive_solver. Qed.

Lemma parse_servers_iff values listen : forall acc us,
  parse_servers values listen acc = Ok us
  <-> exists new, us = acc ++ new /\ Forall2 (server_entry listen) values new.
Proof.
  induction values as [|v values IH]; intros acc us; cbn [parse_servers]; split.
  - intros [= <-]. exists []. split; [by rewrite app_nil_r|constructor].
  - intros (new & -> & H). inversion H. by rewrite app_nil_r.
  - intros (raw & Hraw%ok_or_Ok & H)%obind_Ok. apply obind_Ok in H as (a & Ha%ok_or_Ok%parse_address_iff & H).
    destruct (_ && _) eqn:Hloop in H; [done|].
    apply obind_Ok in H as (u & [-> Hu]%map_err_Ok%upstream_address_new_iff & (new & -> & Hnew)%IH).
    exists (MkUpstream (canonical_socket a) :: new). split; [by rewrite <- app_assoc|]. constructor; [|done].
    eapply server_endpoint; [done|done|done|]. intros [H1 H2]. rewrite H1, H2 in Hloop.
    by rewrite Z.eqb_refl, bool_decide_eq_true_2 in Hloop.
  - intros (new & -> & H). inversion H as [|? ? ? new' [raw a Hraw Ha%parse_address_iff Hu Hl] Hnew]; subst.
    rewrite Hraw. cbn [ok_or obind]. rewrite Ha. cbn [ok_or obind].
    destruct (_ && _) eqn:Hloop. { apply andb_true_iff in Hloop as [? ?]. bool_to_prop. by destruct Hl. }
    rewrite (proj2 (upstream_address_new_iff a _) (conj eq_refl Hu)). cbn [map_err obind].
    apply IH. exists new'. split; [by rewrite <- app_assoc|done].
Qed.

Lemma parse_upstream_group_iff table listen g :
  parse_upstream_group table listen = Ok g <-> group_entry listen table g.
Proof.
  unfold parse_upstream_group. split.
  - intros (values & Hv%ok_or_Ok%array_at_iff & H)%obind_Ok.
    apply obind_Ok in H as (us & (new & -> & Hs)%parse_servers_iff & H).
    apply map_err_Ok, upstream_group_new_Ok in H as (-> & Hl & Hn). by econstructor.
  - intros [values us Hv%array_at_iff Hs Hl Hn]. rewrite Hv. cbn [ok_or obind].
    rewrite (proj2 (parse_servers_iff values listen [] us)) by eauto. cbn [obind].
    by apply map_err_Ok, upstream_group_new_Ok.
Qed.

Lemma parse_default_iff v listen g : parse_default v listen = Ok g <-> default_entry listen v g.
Proof.
  unfold parse_default. split.
  - intros (table & Ht%ok_or_Ok & H)%obind_Ok.
    apply obind_Ok in H as ([] & Hk%reject_unknown_keys_iff & Hg%parse_upstream_group_iff). by econstructor.
  - intros [table g' Ht Hk Hg]. rewrite Ht. cbn [ok_or obind].
    rewrite (proj2 (reject_unknown_keys_iff _ _ _) Hk). by apply parse_upstream_group_iff.
Qed.

Lemma parse_domain_iff table context n :
  parse_domain table context = Ok n <-> exists domain, string_at table KEY_DOMAIN domain /\ domain_text domain n.
Proof.
  unfold parse_domain. rewrite obind_Ok. setoid_rewrite required_string_iff.
  setoid_rewrite map_err_Ok. setoid_rewrite name_from_str_iff. done.
Qed.

Lemma parse_route_iff listen i v r : parse_route listen i v = Ok r <-> route_entry listen v r.
Proof.
  unfold parse_route. split.
  - intros (table & Ht%ok_or_Ok & H)%obind_Ok. apply obind_Ok in H as ([] & Hk%reject_unknown_keys_iff & H).
    apply obind_Ok in H as (suffix & (domain & Hd & Hn)%parse_domain_iff & H).
    apply obind_Ok in H as (g & Hg%parse_upstream_group_iff & [= <-]). by econstructor.
  - intros [table domain suffix g Ht Hk Hd Hn Hg]. rewrite Ht. cbn [ok_or obind].
    rewrite (proj2 (reject_unknown_keys_iff _ _ _) Hk). cbn [obind].
    rewrite (proj2 (parse_domain_iff _ _ suffix)) by eauto. cbn [obind].
    by rewrite (proj2 (parse_upstream_group_iff _ _ _) Hg).
Qed.

Lemma parse_ttl_iff table context n : parse_ttl (table_get table KEY_TTL) context = Ok n <-> ttl_entry table n.
Proof.
  split.
  - destruct (table_get table KEY_TTL) as [v|] eqn:Hv; cbn [parse_ttl]; [|intros [= <-]; by constructor].
    intros H%ok_or_Ok. destruct (value_integer v) as [[text radix]|] eqn:Hi; [|done].
    destruct (i32_from_str_radix text radix) as [m|] eqn:Hm; [|done].
    destruct (0 <=? m)%Z eqn:Hz; [|done]. bool_to_prop. simplify_eq.
    apply i32_from_str_radix_iff in Hm. by eapply ttl_given.
  - intros [Hn|v text radix m Hv Hi Hm%i32_from_str_radix_iff Hz]; [by rewrite Hn|].
    rewrite Hv. cbn [parse_ttl]. rewrite Hi, Hm. by rewrite (proj2 (Z.leb_le _ _) Hz).
Qed.

Lemma parse_local_record_iff i v r : parse_local_record i v = Ok r <-> local_entry v r.
Proof.
  unfold parse_local_record. cbv zeta. split.
  - intros (table & Ht%ok_or_Ok & H)%obind_Ok. apply obind_Ok in H as ([] & Hk%reject_unknown_keys_iff & H).
    apply obind_Ok in H as (suffix & (domain & Hd & Hn)%parse_domain_iff & H).
    apply obind_Ok in H as (raw & Hr%required_string_iff & H). apply obind_Ok in H as (a & Ha%ok_or_Ok & H).
    apply obind_Ok in H as (ttl & Httl%parse_ttl_iff & [= <-]). by econstructor.
  - intros [table domain suffix raw a ttl Ht Hk Hd Hn Hr Ha Httl]. rewrite Ht. cbn [ok_or obind].
    rewrite (proj2 (reject_unknown_keys_iff _ _ _) Hk). cbn [obind].
    rewrite (proj2 (parse_domain_iff _ _ suffix)) by eauto. cbn [obind].
    rewrite (proj2 (required_string_iff _ _ _) Hr). cbn [obind]. rewrite Ha. cbn [ok_or obind].
    by rewrite (proj2 (parse_ttl_iff _ _ _) Httl).
Qed.

Lemma parse_entries_iff {A} (parse : nat -> toml_value -> outcome ConfigError A) (P : toml_value -> A -> Prop) :
  (forall i v a, parse i v = Ok a <-> P v a) -> forall values i acc l,
  parse_entries parse i values acc = Ok l <-> exists new, l = acc ++ new /\ Forall2 P values new.
Proof.
  intros Hp. induction values as [|v values IH]; intros i acc l; cbn [parse_entries]; split.
  - intros [= <-]. exists []. split; [by rewrite app_nil_r|constructor].
  - intros (new & -> & H). inversion H. by rewrite app_nil_r.
  - intros (a & Ha%Hp & (new & -> & Hn)%IH)%obind_Ok. exists (a :: new).
    split; [by rewrite <- app_assoc|by constructor].
  - intros (new & -> & H). inversion H as [|? a ? new' Ha%(Hp i) Hn]; subst. rewrite Ha. cbn [obind].
    apply IH. exists new'. split; [by rewrite <- app_assoc|done].
Qed.

(** An array of entries that may be absent, within a bound on its length. *)
Lemma optional_entries_iff {A} (parse : nat -> toml_value -> outcome ConfigError A)
    (P : toml_value -> A -> Prop) table key (base : nat) (e1 e2 : ConfigError) l :
  (forall i v a, parse i v = Ok a <-> P v a) -> base <= MAX_ROUTES ->
  match table_get table key with
  | None => Ok []
  | Some value =>
    let* array := ok_or (value_array value) e1 in
    if MAX_ROUTES <? base + length array then Err e2 else parse_entries parse 0 array []
  end = Ok l <-> entries P table key l /\ base + length l <= MAX_ROUTES.
Proof.
  intros Hp Hb. destruct (table_get table key) as [v|] eqn:Hv; cycle 1.
  { split; [intros [= <-]; split; [by constructor|simpl; lia]|].
    intros [[_|values l' (v & Hv' & _) _] _]; congruence. }
  rewrite obind_Ok. setoid_rewrite ok_or_Ok. split.
  - intros (values & Ha & H). destruct (_ <? _) eqn:Hl in H; [done|]. bool_to_prop.
    apply (parse_entries_iff _ _ Hp) in H as (new & -> & Hn). split.
    + eapply entries_given; [by exists v|done].
    + cbn [app]. apply Forall2_length in Hn. lia.
  - intros [[?|values l' (v' & Hv' & Ha) Hn] Hl]; [congruence|]. simplify_eq. exists values. split; [done|].
    rewrite (proj2 (Nat.ltb_ge _ _)) by (apply Forall2_length in Hn; lia).
    apply (parse_entries_iff _ _ Hp). by exists l'.
Qed.

Lemma routing_table_new_iff default routes local t :
  map_err CfgRouting (routing_table_new default routes local) = Ok t
  <-> unambiguous routes local /\ t = sorted_table default routes local.
Proof. by rewrite map_err_Ok, routing_table_new_Ok. Qed.

Lemma optional_default_iff table listen d :
  match table_get table KEY_DEFAULT with
  | None => Ok None
  | Some value => let* group := parse_default value listen in Ok (Some group)
  end = Ok d
  <-> match d with
      | None => table_get table KEY_DEFAULT = None
      | Some g => exists v, table_get table KEY_DEFAULT = Some v /\ default_entry listen v g
      end.
Proof.
  destruct (table_get table KEY_DEFAULT) as [v|]; [|by destruct d; naive_solver].
  rewrite obind_Ok. setoid_rewrite parse_default_iff. destruct d; naive_solver.
Qed.

Lemma config_parse_iff text c :
  config_parse text = Ok c <-> exists table, toml_parse text = inr table /\ document table c.
Proof.
  unfold config_parse. split.
  - intros (table & Ht & H)%obind_Ok. destruct (toml_parse text) as [?|table']; [done|]. simplify_eq.
    exists table. split; [done|]. apply obind_Ok in H as ([] & Hk%reject_unknown_keys_iff & H).
    apply obind_Ok in H as (raw & Hr%required_string_iff & H).
    apply obind_Ok in H as (a & Ha%ok_or_Ok%parse_address_iff & H).
    apply obind_Ok in H as (u & [-> Hu]%map_err_Ok%upstream_address_new_iff & H). cbv zeta in H. cbn [upstream_socket] in H.
    apply obind_Ok in H as (d & Hd%optional_default_iff & H).
    apply obind_Ok in H as (routes & Hro & H).
    apply (optional_entries_iff _ _ _ _ 0 _ _ _ (parse_route_iff _)) in Hro as [Hro Hrl]; [|lia].
    apply obind_Ok in H as (local & Hlo & H).
    apply (optional_entries_iff _ _ _ _ _ _ _ _ parse_local_record_iff) in Hlo as [Hlo Hll]; [|done].
    apply obind_Ok in H as (t & [Hua ->]%routing_table_new_iff & [= <-]). by econstructor.
  - intros (table & -> & [raw a d routes local Hk Hr Ha Hu Hd Hro Hlo Hl Hua]). cbn [obind].
    rewrite (proj2 (reject_unknown_keys_iff _ _ _) Hk). cbn [obind].
    rewrite (proj2 (required_string_iff _ _ _) Hr). cbn [obind].
    rewrite (proj2 (parse_address_iff _ _) Ha). cbn [ok_or obind].
    rewrite (proj2 (upstream_address_new_iff _ _) (conj eq_refl Hu)). cbn [map_err obind upstream_socket]. cbv zeta.
    rewrite (proj2 (optional_default_iff _ _ _) Hd). cbn [obind].
    apply obind_Ok. exists routes. split.
    { apply (optional_entries_iff _ _ table KEY_ROUTE 0 _ _ _ (parse_route_iff _)); [lia|]. split; [done|lia]. }
    apply obind_Ok. exists local. split.
    { by apply (optional_entries_iff _ _ table KEY_LOCAL _ _ _ _ parse_local_record_iff); [lia|]. }
    by rewrite (proj2 (routing_table_new_iff _ _ _ _) (conj Hua eq_refl)).
Qed.
End equivalence.

(** ** Property *)

(** C30: exactly the valid configurations start the server.  Whatever the TOML
    library makes of the text, [Config::parse] returns without panic, and accepts
    the text exactly when it is a document of the grammar above, with the settings
    that document describes: known keys only, endpoints, names, addresses and
    numerals spelled as they must be, groups of one to eight different servers none
    of which is the listener in any spelling, at most 4096 rules with unambiguous
    suffixes.  The settings are fit to serve: the listener is a usable unicast
    endpoint in canonical form, times to live are between 0 and 2147483647, and the
    table meets what [respond] assumes. *)
Theorem config_is_valid (toml : Toml) text :
  (forall c, config_parse text = Ok c <-> exists table, toml_parse text = inr table /\ document table c)
  /\ wp (config_parse text) (fun c => config_wf c /\ table_wf (routing c)).
Proof.
  split; [apply config_parse_iff|].
  eapply wp_mono; [apply config_parse_wp|]. intros c Hc. split; [done|by apply config_table_wf].
Qed.

(** The sample document with a server that is not the listener is one; with the
    listener as its server, it is not. *)
Example sample_is_document :
  exists c, document (toml := tree_toml (sample_document "192.0.2.2"%string)) (sample_document "192.0.2.2"%string) c.
Proof.
  eexists. destruct (proj1 (config_parse_iff (toml := tree_toml (sample_document "192.0.2.2"%string)) [] _)
    sample_config_parses) as (table & [= <-] & H). exact H.
Qed.

Example sample_loop_is_no_document c :
  ~ document (toml := tree_toml (sample_document "192.0.2.1:53"%string)) (sample_document "192.0.2.1:53"%string) c.
Proof.
  intros H. destruct sample_loop_is_refused as [Hr _].
  rewrite (proj2 (config_parse_iff (toml := tree_toml (sample_document "192.0.2.1:53"%string)) [] c)) in Hr; [done|].
  by eexists.
Qed.
