(* ===== verification/Pool.v ===== *)
(** * The worker pool

    [src/src/server/pool.rs]: bounded job delivery and worker lifetime.  The
    operations under the queue lock are functions on the shared state; threads
    interleave as a step relation over phases of the worker loop and of
    [shutdown].  What a job does ([Worker::handle]) is abstract: it ends or
    panics at any time. *)

From S2P Require Import Prelude.

Section pool.
Context {T : Type}.
Implicit Types (job : T).

(** [Jobs]. *)
Record Jobs := MkJobs { queue : list T; capacity : nat; closed : bool }.

(** What the threads share: the jobs and whether their mutex is poisoned, the two
    flags, and the messages in the completion channel. *)
Record Shared := MkShared {
  jobs : Jobs; poisoned : bool; stop : bool; failed : bool; completed : nat
}.

Definition set_jobs (sh : Shared) (j : Jobs) : Shared :=
  MkShared j (poisoned sh) (stop sh) (failed sh) (completed sh).
(** [stop.store(true)]; [failed.store(true)] together with it. *)
Definition raise_stop (sh : Shared) : Shared :=
  MkShared (jobs sh) (poisoned sh) true (failed sh) (completed sh).
Definition raise_failed (sh : Shared) : Shared :=
  MkShared (jobs sh) (poisoned sh) true true (completed sh).

(** [Pool::submit]. *)
Definition submit (job : T) (sh : Shared) : bool * Shared :=
  if poisoned sh then (false, raise_failed sh)
  else
    let j := jobs sh in
    if stop sh || closed j || (capacity j <=? length (queue j)) then (false, sh)
    else (true, set_jobs sh (MkJobs (queue j ++ [job]) (capacity j) (closed j))).

(** [Pool::close]. *)
Definition close (sh : Shared) : Shared :=
  if poisoned sh then raise_failed sh
  else raise_stop (set_jobs sh (MkJobs [] (capacity (jobs sh)) true)).

Inductive JobPoll := Ready (job : T) | Idle | Stopped.

(** [next_job] from taking the lock, or having it back, to its return or to the
    wait ([None]). *)
Definition next_job (sh : Shared) : option JobPoll * Shared :=
  if poisoned sh then (Some Stopped, raise_failed sh)
  else if stop sh || closed (jobs sh) then (Some Stopped, sh)
  else
    match queue (jobs sh) with
    | job :: rest => (Some (Ready job), set_jobs sh (MkJobs rest (capacity (jobs sh)) (closed (jobs sh))))
    | [] => (None, sh)
    end.

(** The end of the wait: the mutex may have been poisoned meanwhile, a quiet
    timeout is [Idle], otherwise the loop starts again, still under the lock. *)
Definition wake (timed_out : bool) (sh : Shared) : option JobPoll * Shared :=
  if poisoned sh then (Some Stopped, raise_failed sh)
  else if timed_out && (length (queue (jobs sh)) =? 0) && negb (closed (jobs sh)) && negb (stop sh)
  then (Some Idle, sh) else next_job sh.

(** ** Threads *)

(** Where a worker thread is: before the [while] test; before [maintain] and
    [next_job]; waiting on the condition variable; back from [next_job] with a
    job; in [handle]; past the loop, its state not dropped yet; out of
    [catch_unwind]; after its completion message. *)
Inductive Phase :=
| AtLoop | AtPoll | Waiting | Holding (job : T) | Handling (job : T) | Leaving | Finished | Done.

(** Where the owner of the pool is: in [Pool::new] with workers left to start,
    using the pool, collecting in [shutdown], returned from it with its result. *)
Inductive Control := Starting (left_ : nat) | Serving | Collecting | Returned (ok : bool).

Record PoolState := MkPool {
  shared : Shared; workers : list Phase; pending : nat; control : Control
}.

(** [Pool::new] before its loop. *)
Definition pool_new (count capacity : nat) (stop : bool) : PoolState :=
  MkPool (MkShared (MkJobs [] capacity false) false stop false 0) [] 0 (Starting count).

(** What a step does: a submission and its result, a worker's dequeue, start or
    discard of a job, another step of a worker, or a step outside the workers. *)
Inductive Label :=
| Submit (job : T) (accepted : bool)
| Take (worker : nat) (job : T)
| Start (worker : nat) (job : T)
| Discard (worker : nat) (job : T)
| Turn (worker : nat)
| Other.

Definition after_poll (o : option JobPoll) : Phase :=
  match o with
  | Some (Ready job) => Holding job
  | Some Idle => AtLoop
  | Some Stopped => Leaving
  | None => Waiting
  end.

Definition poll_label (i : nat) (o : option JobPoll) : Label :=
  match o with Some (Ready job) => Take i job | _ => Turn i end.

Definition send_completed (sh : Shared) : Shared :=
  MkShared (jobs sh) (poisoned sh) (stop sh) (failed sh) (S (completed sh)).

(** One step of worker [i]: its label, its next phase and the shared state.  A
    panic in [maintain], in [handle] or in dropping the worker's state leaves
    [catch_unwind] with an error, which raises both flags. *)
Inductive worker_step (i : nat) : Phase -> Shared -> Label -> Phase -> Shared -> Prop :=
| w_loop sh :
    worker_step i AtLoop sh (Turn i) (if stop sh then Leaving else AtPoll) sh
| w_maintain_panicked sh : worker_step i AtPoll sh (Turn i) Finished (raise_failed sh)
| w_poll sh o sh' :
    next_job sh = (o, sh') -> worker_step i AtPoll sh (poll_label i o) (after_poll o) sh'
| w_wake sh timed_out o sh' :
    wake timed_out sh = (o, sh') -> worker_step i Waiting sh (poll_label i o) (after_poll o) sh'
| w_start job sh :
    worker_step i (Holding job) sh (if stop sh then Discard i job else Start i job)
      (if stop sh then Leaving else Handling job) sh
| w_handled job sh : worker_step i (Handling job) sh (Turn i) AtLoop sh
| w_panicked job sh : worker_step i (Handling job) sh (Turn i) Finished (raise_failed sh)
| w_dropped sh : worker_step i Leaving sh (Turn i) Finished sh
| w_drop_panicked sh : worker_step i Leaving sh (Turn i) Finished (raise_failed sh)
| w_completed sh : worker_step i Finished sh (Turn i) Done (send_completed sh).

(** Steps of the whole pool: a worker is created and its thread starts, or either
    fails and the workers already started are shut down; a submission, a step of
    a worker, the service raising the shared stop flag, a panic under the lock,
    [shutdown] closing the queue, receiving a completion, running out of time and
    returning, and the [close] of [Drop], whose joins of finished threads change
    nothing.  [close] raises the flag before it takes the lock; a step
    of another thread in between is [s_stop], that step, then [s_shutdown]. *)
Inductive step : PoolState -> Label -> PoolState -> Prop :=
| s_spawn sh ws n left_ :
    step (MkPool sh ws n (Starting (S left_))) Other (MkPool sh (ws ++ [AtLoop]) (S n) (Starting left_))
| s_start_failed sh ws n left_ :
    step (MkPool sh ws n (Starting (S left_))) Other (MkPool (close sh) ws n Collecting)
| s_started sh ws n :
    step (MkPool sh ws n (Starting 0)) Other (MkPool sh ws n Serving)
| s_submit job ok sh sh' ws n c :
    submit job sh = (ok, sh') -> step (MkPool sh ws n c) (Submit job ok) (MkPool sh' ws n c)
| s_worker i p p' l sh sh' ws n c :
    ws !! i = Some p -> worker_step i p sh l p' sh' ->
    step (MkPool sh ws n c) l (MkPool sh' (<[i := p']> ws) n c)
| s_stop sh ws n c :
    step (MkPool sh ws n c) Other (MkPool (raise_stop sh) ws n c)
| s_poison sh ws n c :
    step (MkPool sh ws n c) Other
      (MkPool (MkShared (jobs sh) true (stop sh) (failed sh) (completed sh)) ws n c)
| s_shutdown sh ws n :
    step (MkPool sh ws n Serving) Other (MkPool (close sh) ws n Collecting)
| s_collect sh k ws n :
    completed sh = S k ->
    step (MkPool sh ws (S n) Collecting) Other
      (MkPool (MkShared (jobs sh) (poisoned sh) (stop sh) (failed sh) k) ws n Collecting)
| s_timeout sh ws n :
    step (MkPool sh ws (S n) Collecting) Other (MkPool sh ws (S n) (Returned false))
| s_return sh ws :
    step (MkPool sh ws 0 Collecting) Other (MkPool sh ws 0 (Returned (negb (failed sh))))
| s_drop sh ws n c :
    step (MkPool sh ws n c) Other (MkPool (close sh) ws n c).

(** Runs, with the labels of their steps. *)
Inductive run : PoolState -> list Label -> PoolState -> Prop :=
| run_nil st : run st [] st
| run_snoc st tr st' l st'' : run st tr st' -> step st' l st'' -> run st (tr ++ [l]) st''.

(** ** Reading a run *)

Definition accepted1 (l : Label) : list T := match l with Submit job true => [job] | _ => [] end.
Definition taken1 (l : Label) : list T := match l with Take _ job => [job] | _ => [] end.
Definition started1 (l : Label) : list T := match l with Start _ job => [job] | _ => [] end.
Definition discarded1 (l : Label) : list T := match l with Discard _ job => [job] | _ => [] end.

Definition accepted (tr : list Label) : list T := tr ≫= accepted1.
Definition taken (tr : list Label) : list T := tr ≫= taken1.
Definition started (tr : list Label) : list T := tr ≫= started1.
Definition discarded (tr : list Label) : list T := tr ≫= discarded1.

(** The jobs that workers took and have not started yet. *)
Definition held1 (p : Phase) : list T := match p with Holding job => [job] | _ => [] end.
Definition held (ws : list Phase) : list T := ws ≫= held1.

Lemma bind_snoc {A} (f : Label -> list A) tr l : (tr ++ [l]) ≫= f = (tr ≫= f) ++ f l.
Proof. rewrite bind_app. simpl. by rewrite app_nil_r. Qed.

Lemma held_insert ws i p p' :
  ws !! i = Some p -> held1 p' ++ held ws ≡ₚ held1 p ++ held (<[i := p']> ws).
Proof.
  intros Hi. rewrite <- (take_drop_middle ws i p Hi) at 1.
  rewrite insert_take_drop by by eapply lookup_lt_Some.
  unfold held. rewrite !bind_app, !bind_cons. solve_Permutation.
Qed.

Definition is_done (p : Phase) : nat := match p with Done => 1 | _ => 0 end.
Definition done_count (ws : list Phase) : nat := sum_list (is_done <$> ws).

Lemma done_count_insert ws i p p' :
  ws !! i = Some p -> is_done p' + done_count ws = is_done p + done_count (<[i := p']> ws).
Proof.
  intros Hi. rewrite <- (take_drop_middle ws i p Hi) at 1.
  rewrite insert_take_drop by by eapply lookup_lt_Some.
  unfold done_count. rewrite !fmap_app, !fmap_cons, !sum_list_with_app.
  unfold sum_list. simpl. lia.
Qed.

(** ** Invariants *)

(** A change of the shared state outside the queue and the completion channel:
    the flags only rise. *)
Record flags_up (sh sh' : Shared) : Prop := {
  fu_jobs : jobs sh' = jobs sh;
  fu_completed : completed sh' = completed sh;
  fu_stop : stop sh = true -> stop sh' = true;
  fu_failed : failed sh = true -> failed sh' = true
}.

Lemma flags_up_refl sh : flags_up sh sh.
Proof. by split. Qed.
Lemma flags_up_stop sh : flags_up sh (raise_stop sh).
Proof. by split. Qed.
Lemma flags_up_failed sh : flags_up sh (raise_failed sh).
Proof. by split. Qed.

(** The queue under its lock: bounded, empty once closed, and holding exactly the
    accepted jobs that were neither taken nor thrown away by [close], in order. *)
Record shared_ok (cap : nat) (acc tk : list T) (sh : Shared) : Prop := {
  so_capacity : capacity (jobs sh) = cap;
  so_bound : length (queue (jobs sh)) <= cap;
  so_closed : closed (jobs sh) = true -> queue (jobs sh) = [] /\ stop sh = true;
  so_fifo : exists cleared, acc = tk ++ cleared ++ queue (jobs sh)
    /\ (closed (jobs sh) = false -> cleared = [])
}.

Lemma shared_ok_flags cap acc tk sh sh' :
  flags_up sh sh' -> shared_ok cap acc tk sh -> shared_ok cap acc tk sh'.
Proof.
  intros [Hj _ Hs _] [? ? Hc ?]. split; rewrite ?Hj; try done.
  intros Hcl. destruct (Hc Hcl). auto.
Qed.

Lemma submit_ok cap acc tk job ok sh sh' :
  shared_ok cap acc tk sh -> submit job sh = (ok, sh') ->
  shared_ok cap (acc ++ accepted1 (Submit job ok)) tk sh'.
Proof.
  intros Hok H. unfold submit in H. destruct (poisoned sh).
  { simplify_eq. cbn [accepted1]. rewrite app_nil_r.
    exact (shared_ok_flags _ _ _ _ _ (flags_up_failed sh) Hok). }
  destruct (_ || _) eqn:Hc; simplify_eq; cbn [accepted1].
  { by rewrite app_nil_r. }
  apply orb_false_iff in Hc as [[Hs Hcl]%orb_false_iff Hlen]. apply Nat.leb_gt in Hlen.
  destruct Hok as [Hcap Hb Hclosed (gone & Hf & Hg)]. split; cbn [jobs set_jobs queue capacity closed].
  - done.
  - rewrite length_app. simpl. lia.
  - congruence.
  - exists gone. split; [by rewrite Hf, <- !app_assoc|done].
Qed.

Lemma submit_flags job ok sh sh' :
  submit job sh = (ok, sh') ->
  completed sh' = completed sh /\ (stop sh = true -> stop sh' = true /\ ok = false)
  /\ (failed sh = true -> failed sh' = true) /\ closed (jobs sh') = closed (jobs sh).
Proof.
  unfold submit. destruct (poisoned sh); [by intros [= <- <-]|].
  destruct (_ || _) eqn:Hc; intros [= <- <-]; [done|].
  apply orb_false_iff in Hc as [[Hs Hcl]%orb_false_iff Hlen]. split_and!; try done. congruence.
Qed.

Lemma close_ok cap acc tk sh : shared_ok cap acc tk sh -> shared_ok cap acc tk (close sh).
Proof.
  intros Hok. unfold close. destruct (poisoned sh).
  { exact (shared_ok_flags _ _ _ _ _ (flags_up_failed sh) Hok). }
  destruct Hok as [Hcap Hb Hclosed (gone & Hf & Hg)].
  split; cbn [jobs raise_stop set_jobs queue capacity closed stop].
  - done.
  - simpl. lia.
  - done.
  - exists (gone ++ queue (jobs sh)). split; [by rewrite app_nil_r|done].
Qed.

Lemma close_flags sh :
  stop (close sh) = true /\ completed (close sh) = completed sh
  /\ (failed sh = true -> failed (close sh) = true)
  /\ (closed (jobs sh) = true -> closed (jobs (close sh)) = true)
  /\ (closed (jobs (close sh)) = true \/ failed (close sh) = true).
Proof. unfold close. destruct (poisoned sh); cbn; auto 10. Qed.

(** What [next_job] leaves, whether it is entered from the loop or after a wait. *)
Record polled (cap : nat) (acc tk : list T) (sh : Shared) (o : option JobPoll) (sh' : Shared) : Prop := {
  pl_ok : shared_ok cap acc (tk ++ match o with Some (Ready job) => [job] | _ => [] end) sh';
  pl_completed : completed sh' = completed sh;
  pl_stop : stop sh = true -> stop sh' = true /\ o = Some Stopped;
  pl_failed : failed sh = true -> failed sh' = true;
  pl_closed : closed (jobs sh') = closed (jobs sh)
}.

Lemma next_job_ok cap acc tk o sh sh' :
  shared_ok cap acc tk sh -> next_job sh = (o, sh') -> polled cap acc tk sh o sh'.
Proof.
  intros Hok H. unfold next_job in H. destruct (poisoned sh).
  { simplify_eq. split; try done. rewrite app_nil_r.
    exact (shared_ok_flags _ _ _ _ _ (flags_up_failed sh) Hok). }
  destruct (_ || _) eqn:Hc; [simplify_eq; split; try done; by rewrite app_nil_r|].
  apply orb_false_iff in Hc as [Hs Hcl].
  destruct (queue (jobs sh)) as [|job rest] eqn:Hq; simplify_eq.
  { split; try done; [by rewrite app_nil_r|congruence]. }
  destruct Hok as [Hcap Hb Hclosed (gone & Hf & Hg)]. rewrite Hq in *.
  split; try done; [|congruence].
  split; cbn [jobs set_jobs queue capacity closed stop].
  - done.
  - simpl in *. lia.
  - congruence.
  - exists []. rewrite Hf, (Hg Hcl). split; [|done]. simpl. by rewrite <- app_assoc.
Qed.

Lemma wake_ok cap acc tk timed_out o sh sh' :
  shared_ok cap acc tk sh -> wake timed_out sh = (o, sh') -> polled cap acc tk sh o sh'.
Proof.
  intros Hok H. unfold wake in H. destruct (poisoned sh) eqn:Hp.
  { simplify_eq. split; try done. rewrite app_nil_r.
    exact (shared_ok_flags _ _ _ _ _ (flags_up_failed sh) Hok). }
  destruct (_ && _) eqn:Hc; [|by apply next_job_ok].
  apply andb_true_iff in Hc as [_ Hs%negb_true_iff]. simplify_eq.
  split; try done; [by rewrite app_nil_r|congruence].
Qed.

(** How many steps a worker still makes once the stop flag is up. *)
Definition rank (p : Phase) : nat :=
  match p with
  | Handling _ => 4
  | AtLoop | AtPoll | Waiting | Holding _ => 3
  | Leaving => 2
  | Finished => 1
  | Done => 0
  end.

(** What a step of a worker does to the queue, to the jobs in flight, to the
    completions and to the flags. *)
Record worked (cap : nat) (acc tk : list T) (p : Phase) (sh : Shared) (l : Label) (p' : Phase) (sh' : Shared) : Prop := {
  wk_shared : shared_ok cap (acc ++ accepted1 l) (tk ++ taken1 l) sh';
  wk_jobs : taken1 l ++ held1 p ≡ₚ started1 l ++ discarded1 l ++ held1 p';
  wk_completed : completed sh' + is_done p = completed sh + is_done p';
  wk_stop : stop sh = true -> stop sh' = true /\ started1 l = [] /\ rank p' < rank p;
  wk_failed : failed sh = true -> failed sh' = true;
  wk_closed : closed (jobs sh') = closed (jobs sh);
  wk_accepted : accepted1 l = []
}.

Lemma worked_flags cap acc tk i p sh p' sh' :
  shared_ok cap acc tk sh -> flags_up sh sh' ->
  held1 p = held1 p' -> is_done p = is_done p' -> (stop sh = true -> rank p' < rank p) ->
  worked cap acc tk p sh (Turn i) p' sh'.
Proof.
  intros Hok Hup Hh Hd Hr. pose proof (shared_ok_flags _ _ _ _ _ Hup Hok).
  destruct Hup as [Hj Hc Hs Hf].
  split; cbn [accepted1 taken1 started1 discarded1]; rewrite ?app_nil_r, ?Hj, ?Hh, ?Hd; auto.
Qed.

Lemma polled_worked cap acc tk i p sh o sh' :
  polled cap acc tk sh o sh' -> held1 p = [] -> is_done p = 0 -> rank p = 3 ->
  worked cap acc tk p sh (poll_label i o) (after_poll o) sh'.
Proof.
  intros [Hok Hc Hs Hf Hcl] Hh Hd Hr.
  split; rewrite ?Hh, ?Hd, ?Hr; destruct o as [[job| |]|];
    cbn [poll_label after_poll accepted1 taken1 started1 discarded1 held1 is_done rank app];
    rewrite ?app_nil_r in *; auto; intros [? ?]%Hs; try done; split_and!; [done..|lia].
Qed.

Lemma worker_step_ok cap acc tk i p sh l p' sh' :
  shared_ok cap acc tk sh -> worker_step i p sh l p' sh' -> worked cap acc tk p sh l p' sh'.
Proof.
  intros Hok Hw.
  destruct Hw as [sh|sh|sh o sh' Hn|sh b o sh' Hn|job sh|job sh|job sh|sh|sh|sh].
  - apply worked_flags; auto using flags_up_refl; destruct (stop sh); auto; done.
  - apply worked_flags; auto using flags_up_failed. cbn. lia.
  - eapply polled_worked; eauto using next_job_ok.
  - eapply polled_worked; eauto using wake_ok.
  - destruct (stop sh) eqn:Hs; split;
      cbn [accepted1 taken1 started1 discarded1 held1 is_done rank app]; rewrite ?app_nil_r; auto; congruence.
  - apply worked_flags; auto using flags_up_refl.
  - apply worked_flags; auto using flags_up_failed. cbn. lia.
  - apply worked_flags; auto using flags_up_refl.
  - apply worked_flags; auto using flags_up_failed.
  - split; cbn [accepted1 taken1 started1 discarded1 held1 is_done rank app send_completed completed];
      rewrite ?app_nil_r; auto; try lia; destruct Hok; by split.
Qed.

(** The pool: no job is lost or run twice, every completion is counted, and a
    shutdown that succeeded has closed the queue. *)
Record pool_ok (count cap : nat) (tr : list Label) (st : PoolState) : Prop := {
  po_shared : shared_ok cap (accepted tr) (taken tr) (shared st);
  po_taken : taken tr ≡ₚ started tr ++ discarded tr ++ held (workers st);
  po_workers : length (workers st) + (match control st with Starting n => n | _ => 0 end) <= count;
  po_count : done_count (workers st) + pending st = completed (shared st) + length (workers st);
  po_control : (control st = Collecting \/ exists ok, control st = Returned ok) ->
    stop (shared st) = true /\ (closed (jobs (shared st)) = true \/ failed (shared st) = true);
  po_returned : control st = Returned true ->
    pending st = 0 /\ closed (jobs (shared st)) = true
}.

Lemma pool_new_ok count cap b : pool_ok count cap [] (pool_new count cap b).
Proof.
  split; cbn [pool_new shared workers pending control completed jobs]; try done.
  - split; cbn; [done|lia|done|by exists []].
  - by intros [|[]].
Qed.

Lemma accepted_snoc tr l : accepted (tr ++ [l]) = accepted tr ++ accepted1 l.
Proof. apply bind_snoc. Qed.
Lemma taken_snoc tr l : taken (tr ++ [l]) = taken tr ++ taken1 l.
Proof. apply bind_snoc. Qed.
Lemma started_snoc tr l : started (tr ++ [l]) = started tr ++ started1 l.
Proof. apply bind_snoc. Qed.
Lemma discarded_snoc tr l : discarded (tr ++ [l]) = discarded tr ++ discarded1 l.
Proof. apply bind_snoc. Qed.

(** A step that is neither a submission nor a worker's keeps the invariant when
    the queue, the flags and the control do. *)
Lemma other_ok count cap tr sh ws n c sh' n' c' :
  pool_ok count cap tr (MkPool sh ws n c) ->
  shared_ok cap (accepted tr) (taken tr) sh' ->
  completed sh' + n = completed sh + n' ->
  match c' with Starting k => k | _ => 0 end <= match c with Starting k => k | _ => 0 end ->
  (c' = Collecting \/ (exists ok, c' = Returned ok) -> stop sh' = true /\ (closed (jobs sh') = true \/ failed sh' = true)) ->
  (c' = Returned true -> n' = 0 /\ closed (jobs sh') = true) ->
  pool_ok count cap (tr ++ [Other]) (MkPool sh' ws n' c').
Proof.
  intros [_ Ht Hw Hn _ _] Hs Hcomp Hk Hc Hr.
  split; cbn [shared workers pending control] in *;
    rewrite ?accepted_snoc, ?taken_snoc, ?started_snoc, ?discarded_snoc;
    cbn [accepted1 taken1 started1 discarded1]; rewrite ?app_nil_r; auto; lia.
Qed.

Lemma pool_submit_ok count cap tr job ok sh sh' ws n c :
  submit job sh = (ok, sh') ->
  pool_ok count cap tr (MkPool sh ws n c) ->
  pool_ok count cap (tr ++ [Submit job ok]) (MkPool sh' ws n c).
Proof.
  intros H [Hs Ht Hw Hn Hc Hr]. cbn [shared workers pending control] in *.
  destruct (submit_flags _ _ _ _ H) as (Hcomp & Hstop & Hf & Hcl).
  split; cbn [shared workers pending control];
    rewrite ?accepted_snoc, ?taken_snoc, ?started_snoc, ?discarded_snoc, ?Hcomp, ?Hcl;
    cbn [taken1 started1 discarded1]; rewrite ?app_nil_r; auto.
  - eauto using submit_ok.
  - intros [Hst Hor]%Hc. destruct (Hstop Hst). intuition.
Qed.

Lemma pool_worker_ok count cap tr i p p' l sh sh' ws n c :
  ws !! i = Some p -> worker_step i p sh l p' sh' ->
  pool_ok count cap tr (MkPool sh ws n c) ->
  pool_ok count cap (tr ++ [l]) (MkPool sh' (<[i := p']> ws) n c).
Proof.
  intros Hi Hstep [Hs Ht Hw Hn Hc Hr]. cbn [shared workers pending control] in *.
  destruct (worker_step_ok _ _ _ _ _ _ _ _ _ Hs Hstep) as [Hok Hjobs Hcomp Hstop Hf Hcl _].
  split; cbn [shared workers pending control];
    rewrite ?accepted_snoc, ?taken_snoc, ?started_snoc, ?discarded_snoc, ?Hcl; auto.
  - pose proof (held_insert ws i p p' Hi) as Hins.
    apply (Permutation_app_inv_r (held1 p)). rewrite <- !app_assoc.
    rewrite Hjobs, Ht. rewrite (Permutation_app_comm (held _) (held1 p)), <- Hins.
    solve_Permutation.
  - by rewrite length_insert.
  - pose proof (done_count_insert ws i p p' Hi). rewrite length_insert. lia.
  - intros [Hst Hor]%Hc. destruct (Hstop Hst) as [? _]. intuition.
Qed.

(** A worker is started. *)
Lemma pool_spawn_ok count cap tr sh ws n k :
  pool_ok count cap tr (MkPool sh ws n (Starting (S k))) ->
  pool_ok count cap (tr ++ [Other]) (MkPool sh (ws ++ [AtLoop]) (S n) (Starting k)).
Proof.
  intros [Hs Ht Hw Hn _ _]. cbn [shared workers pending control] in *.
  split; cbn [shared workers pending control];
    rewrite ?accepted_snoc, ?taken_snoc, ?started_snoc, ?discarded_snoc;
    cbn [accepted1 taken1 started1 discarded1]; rewrite ?app_nil_r; auto.
  - unfold held. rewrite bind_app. cbn. by rewrite app_nil_r.
  - rewrite length_app. simpl. lia.
  - unfold done_count. rewrite fmap_app, sum_list_with_app, length_app. cbn. fold (done_count ws). lia.
  - by intros [|[]].
  - done.
Qed.

Lemma step_ok count cap tr st l st' :
  pool_ok count cap tr st -> step st l st' -> pool_ok count cap (tr ++ [l]) st'.
Proof.
  intros Hp Hstep. pose proof (po_shared _ _ _ _ Hp) as Hs.
  pose proof (po_control _ _ _ _ Hp) as Hc. pose proof (po_returned _ _ _ _ Hp) as Hr.
  destruct Hstep as [sh ws n k|sh ws n k|sh ws n|job ok sh sh' ws n c H|i p p' l sh sh' ws n c Hi Hw
    |sh ws n c|sh ws n c|sh ws n|sh k ws n Hk|sh ws n|sh ws|sh ws n c];
    cbn [shared workers pending control] in *.
  - by apply pool_spawn_ok.
  - destruct (close_flags sh) as (? & ? & ? & ? & ?).
    eapply other_ok; eauto using close_ok; cbn; try lia; done.
  - eapply other_ok; eauto; [by intros [|[]]|done].
  - eauto using pool_submit_ok.
  - eauto using pool_worker_ok.
  - eapply other_ok; eauto using shared_ok_flags, flags_up_stop. intros [_ ?]%Hc. done.
  - eapply other_ok; eauto. eapply shared_ok_flags; [|exact Hs]. done.
  - destruct (close_flags sh) as (? & ? & ? & ? & ?).
    eapply other_ok; eauto using close_ok; cbn; try lia; done.
  - eapply other_ok; eauto; cbn [completed]; try lia; try done. destruct Hs. by split.
  - destruct (Hc (or_introl eq_refl)). eapply other_ok; eauto; done.
  - destruct (Hc (or_introl eq_refl)) as [? Hor]. eapply other_ok; eauto.
    intros [= Hf%negb_true_iff]. destruct Hor; [done|congruence].
  - destruct (close_flags sh) as (? & ? & ? & Hcl & ?).
    eapply other_ok; eauto using close_ok; try lia. intros [??]%Hr. auto.
Qed.

Lemma run_ok count cap b tr st : run (pool_new count cap b) tr st -> pool_ok count cap tr st.
Proof.
  remember (pool_new count cap b) as st0 eqn:Hst. induction 1 as [st|st tr st' l st'' _ IH Hstep].
  - subst. apply pool_new_ok.
  - eauto using step_ok.
Qed.

(** The steps of workers in a run. *)
Definition is_turn (l : Label) : nat :=
  match l with Take _ _ | Start _ _ | Discard _ _ | Turn _ => 1 | _ => 0 end.
Definition turns (tr : list Label) : nat := sum_list (is_turn <$> tr).

Definition ranks (ws : list Phase) : nat := sum_list (rank <$> ws).

Lemma sum_list_snoc (l : list nat) n : sum_list (l ++ [n]) = sum_list l + n.
Proof. rewrite sum_list_with_app. simpl. unfold id. lia. Qed.

Lemma turns_snoc tr l : turns (tr ++ [l]) = turns tr + is_turn l.
Proof. unfold turns. rewrite fmap_app. apply sum_list_snoc. Qed.

Lemma ranks_insert ws i p p' :
  ws !! i = Some p -> rank p' + ranks ws = rank p + ranks (<[i := p']> ws).
Proof.
  intros Hi. rewrite <- (take_drop_middle ws i p Hi) at 1.
  rewrite insert_take_drop by by eapply lookup_lt_Some.
  unfold ranks. rewrite !fmap_app, !fmap_cons, !sum_list_with_app.
  simpl. unfold id. lia.
Qed.

Lemma ranks_le ws : ranks ws <= 4 * length ws.
Proof.
  induction ws as [|p ws IH]; [done|]. unfold ranks in *. cbn [fmap list_fmap sum_list_with length].
  destruct p; cbn [rank id]; unfold id in *; lia.
Qed.

(** The shared state of any state at all is fit for [worker_step_ok]'s conclusions
    on flags and ranks. *)
Lemma worker_step_stopped i p sh l p' sh' :
  worker_step i p sh l p' sh' -> stop sh = true ->
  stop sh' = true /\ accepted1 l = [] /\ started1 l = [] /\ rank p' < rank p /\ is_turn l = 1.
Proof.
  assert (forall o sh2, next_job sh = (o, sh2) -> stop sh = true -> o = Some Stopped /\ stop sh2 = true) as Hnext.
  { intros o sh2. unfold next_job. destruct (poisoned sh); [by intros [= <- <-]|].
    destruct (stop sh) eqn:Hs; [|done]. by intros [= <- <-]. }
  assert (forall b o sh2, wake b sh = (o, sh2) -> stop sh = true -> o = Some Stopped /\ stop sh2 = true) as Hwake.
  { intros b o sh2. unfold wake. destruct (poisoned sh); [by intros [= <- <-]|].
    destruct (stop sh) eqn:Hs; [|done]. rewrite andb_false_r. auto. }
  destruct 1 as [sh|sh|sh o sh' Hn|sh b o sh' Hn|job sh|job sh|job sh|sh|sh|sh]; intros Hs;
    try (rewrite Hs; cbn; split_and!; auto; lia);
    try (cbn; split_and!; auto; lia).
  - destruct (Hnext _ _ Hn Hs) as [-> ?]. cbn. split_and!; auto.
  - destruct (Hwake _ _ _ Hn Hs) as [-> ?]. cbn. split_and!; auto.
Qed.

(** The threads of a pool, those still to be started included. *)
Definition to_start (c : Control) : nat := match c with Starting n => n | _ => 0 end.
Definition threads (st : PoolState) : nat := length (workers st) + to_start (control st).
Definition pool_rank (st : PoolState) : nat := ranks (workers st) + 3 * to_start (control st).

Lemma pool_rank_le st : pool_rank st <= 4 * threads st.
Proof. unfold pool_rank, threads. pose proof (ranks_le (workers st)). lia. Qed.

(** A step once the stop flag is up. *)
Lemma step_stopped st l st' :
  step st l st' -> stop (shared st) = true ->
  stop (shared st') = true /\ accepted1 l = [] /\ started1 l = []
  /\ is_turn l + pool_rank st' <= pool_rank st.
Proof.
  destruct 1 as [sh ws n k|sh ws n k|sh ws n|job ok sh sh' ws n c H|i p p' l sh sh' ws n c Hi Hw
    |sh ws n c|sh ws n c|sh ws n|sh k ws n Hk|sh ws n|sh ws|sh ws n c];
    unfold pool_rank, to_start; cbn [shared workers control]; intros Hs;
    try (destruct (close_flags sh) as (? & _));
    try (cbn; split_and!; auto; lia).
  - unfold ranks. rewrite fmap_app, sum_list_with_app. cbn. split_and!; auto. unfold id. lia.
  - destruct (submit_flags _ _ _ _ H) as (_ & Hst & _). destruct (Hst Hs) as [? ->].
    cbn. split_and!; auto.
  - destruct (worker_step_stopped _ _ _ _ _ _ Hw Hs) as (? & ? & ? & ? & ->).
    pose proof (ranks_insert ws i p p' Hi). split_and!; auto. lia.
Qed.

Lemma run_stopped st tr st' :
  run st tr st' -> stop (shared st) = true ->
  stop (shared st') = true /\ accepted tr = [] /\ started tr = []
  /\ turns tr + pool_rank st' <= pool_rank st.
Proof.
  induction 1 as [st|st tr st' l st'' _ IH Hstep]; intros Hs; [split_and!; auto|].
  destruct (IH Hs) as (Hs' & Ha & Hst & Ht).
  destruct (step_stopped _ _ _ Hstep Hs') as (? & Ha1 & Hst1 & Ht1).
  rewrite accepted_snoc, started_snoc, turns_snoc, Ha, Hst, Ha1, Hst1. split_and!; auto. lia.
Qed.

(** A worker that is not done can always make a step: nothing it does waits
    for another thread forever. *)
Lemma worker_progress i p sh : p <> Done -> exists l p' sh', worker_step i p sh l p' sh' /\ is_turn l = 1.
Proof.
  intros Hp. destruct p as [| | |job|job| | |]; try done.
  - by repeat econstructor.
  - do 3 eexists. split; [by apply w_maintain_panicked|done].
  - destruct (wake false sh) as [o sh'] eqn:Hw. do 3 eexists. split; [by eapply w_wake|].
    by destruct o as [[| |]|].
  - do 3 eexists. split; [by apply w_start|]. by destruct (stop sh).
  - by repeat econstructor.
  - by repeat econstructor.
  - by repeat econstructor.
Qed.

Lemma done_count_le ws : done_count ws <= length ws.
Proof.
  induction ws as [|p ws IH]; [done|]. unfold done_count in *.
  cbn [fmap list_fmap sum_list_with length]. unfold id in *. destruct p; cbn [is_done]; lia.
Qed.

Lemma all_done ws : done_count ws = length ws -> Forall (fun p => p = Done) ws.
Proof.
  induction ws as [|p ws IH]; [done|]. pose proof (done_count_le ws) as Hle.
  unfold done_count in *. cbn [fmap list_fmap sum_list_with length]. unfold id in *.
  intros H. constructor; [|apply IH]; destruct p; cbn [is_done] in *; done || lia.
Qed.

(** ** An executable scheduler *)

(** The choices of a schedule: which thread moves and, for a worker, whether what
    it does goes wrong ([bad]: a panic, or a wait that times out). *)
Inductive Move :=
| MSpawn | MStartFailed | MStarted
| MSubmit (job : T) | MWorker (i : nat) (bad : bool) | MStop | MShutdown | MCollect | MTimeout | MReturn
| MDropPool.

Definition worker_move (i : nat) (bad : bool) (p : Phase) (sh : Shared) : option (Label * Phase * Shared) :=
  match p with
  | AtLoop => Some (Turn i, if stop sh then Leaving else AtPoll, sh)
  | AtPoll =>
      if bad then Some (Turn i, Finished, raise_failed sh)
      else let '(o, sh') := next_job sh in Some (poll_label i o, after_poll o, sh')
  | Waiting => let '(o, sh') := wake bad sh in Some (poll_label i o, after_poll o, sh')
  | Holding job =>
      Some (if stop sh then Discard i job else Start i job, if stop sh then Leaving else Handling job, sh)
  | Handling _ => if bad then Some (Turn i, Finished, raise_failed sh) else Some (Turn i, AtLoop, sh)
  | Leaving => if bad then Some (Turn i, Finished, raise_failed sh) else Some (Turn i, Finished, sh)
  | Finished => Some (Turn i, Done, send_completed sh)
  | Done => None
  end.

Definition perform (m : Move) (st : PoolState) : option (Label * PoolState) :=
  let '(MkPool sh ws n c) := st in
  match m, n, c with
  | MSpawn, _, Starting (S k) => Some (Other, MkPool sh (ws ++ [AtLoop]) (S n) (Starting k))
  | MStartFailed, _, Starting (S _) => Some (Other, MkPool (close sh) ws n Collecting)
  | MStarted, _, Starting 0 => Some (Other, MkPool sh ws n Serving)
  | MSubmit job, _, _ =>
      let '(ok, sh') := submit job sh in Some (Submit job ok, MkPool sh' ws n c)
  | MWorker i bad, _, _ =>
      p ← ws !! i; r ← worker_move i bad p sh;
      let '(l, p', sh') := r in Some (l, MkPool sh' (<[i := p']> ws) n c)
  | MStop, _, _ => Some (Other, MkPool (raise_stop sh) ws n c)
  | MShutdown, _, Serving => Some (Other, MkPool (close sh) ws n Collecting)
  | MCollect, S n, Collecting =>
      match completed sh with
      | S k => Some (Other, MkPool (MkShared (jobs sh) (poisoned sh) (stop sh) (failed sh) k) ws n Collecting)
      | 0 => None
      end
  | MTimeout, S n, Collecting => Some (Other, MkPool sh ws (S n) (Returned false))
  | MReturn, 0, Collecting => Some (Other, MkPool sh ws 0 (Returned (negb (failed sh))))
  | MDropPool, _, _ => Some (Other, MkPool (close sh) ws n c)
  | _, _, _ => None
  end.

Lemma worker_move_step i bad p sh l p' sh' :
  worker_move i bad p sh = Some (l, p', sh') -> worker_step i p sh l p' sh'.
Proof.
  destruct p as [| | |job|job| | |]; cbn [worker_move]; intros H; destruct bad;
    repeat match type of H with context [let '(_, _) := ?e in _] => destruct e eqn:? end;
    simplify_eq; econstructor; eauto.
Qed.

Lemma perform_step m st l st' : perform m st = Some (l, st') -> step st l st'.
Proof.
  destruct st as [sh ws n c]. destruct m as [| | |job|i bad| | | | | |]; intros H; cbn in H.
  - destruct c as [[|k]| | |]; simplify_eq. constructor.
  - destruct c as [[|k]| | |]; simplify_eq. constructor.
  - destruct c as [[|k]| | |]; simplify_eq. constructor.
  - destruct (submit job sh) eqn:Hs. simplify_eq. by constructor.
  - destruct (ws !! i) as [p|] eqn:Hi; [|done]. cbn in H.
    destruct (worker_move i bad p sh) as [[[l1 p1] sh1]|] eqn:Hw; [|done]. cbn in H. simplify_eq.
    eauto using s_worker, worker_move_step.
  - simplify_eq. constructor.
  - destruct c; simplify_eq. constructor.
  - destruct n, c; try done. destruct (completed sh) eqn:Hk; simplify_eq. by constructor.
  - destruct n, c; simplify_eq; constructor.
  - destruct n, c; simplify_eq; constructor.
  - simplify_eq. constructor.
Qed.

Lemma run_cons st l st' tr st'' : step st l st' -> run st' tr st'' -> run st (l :: tr) st''.
Proof.
  intros Hstep. induction 1 as [st'|st' tr st1 l1 st2 _ IH Hs].
  - apply (run_snoc st [] st l st'); [constructor|done].
  - apply (run_snoc st (l :: tr) st1 l1 st2); auto.
Qed.

Fixpoint play (ms : list Move) (st : PoolState) : option (list Label * PoolState) :=
  match ms with
  | [] => Some ([], st)
  | m :: ms =>
      r ← perform m st; q ← play ms (snd r); Some (fst r :: fst q, snd q)
  end.

Lemma play_run ms st tr st' : play ms st = Some (tr, st') -> run st tr st'.
Proof.
  revert st tr. induction ms as [|m ms IH]; intros st tr H; cbn in H.
  { simplify_eq. constructor. }
  destruct (perform m st) as [[l st1]|] eqn:Hm; [|done]. cbn in H.
  destruct (play ms st1) as [[tr1 st2]|] eqn:Hp; [|done]. cbn in H. simplify_eq.
  eauto using run_cons, perform_step.
Qed.

(** C31: a pool delivers what it accepts: in every reachable state the queue is
    within its capacity and the workers took a prefix of the accepted jobs, in
    the order of submission; until the queue is closed the rest is exactly the
    queue; and each job taken was started once, discarded once or is in the
    hands of one worker. *)
Theorem pool_delivery (count cap : nat) (b : bool) (tr : list Label) (st : PoolState) :
  run (pool_new count cap b) tr st ->
  length (queue (jobs (shared st))) <= cap
  /\ taken tr `prefix_of` accepted tr
  /\ (closed (jobs (shared st)) = false -> accepted tr = taken tr ++ queue (jobs (shared st)))
  /\ taken tr ≡ₚ started tr ++ discarded tr ++ held (workers st).
Proof.
  intros [[_ Hb _ (gone & Hf & Hg)] Ht _ _ _ _]%run_ok. split_and!; [done| |intros Hc|done].
  - rewrite Hf. by eexists.
  - by rewrite Hf, (Hg Hc).
Qed.

(** What a successful [shutdown] leaves. *)
Record shut_down (count cap : nat) (st : PoolState) : Prop := {
  sd_workers : length (workers st) <= count /\ Forall (fun p => p = Done) (workers st);
  sd_pending : pending st = 0;
  sd_jobs : jobs (shared st) = MkJobs [] cap true;
  sd_stop : stop (shared st) = true
}.

Lemma shutdown_ok count cap tr st :
  pool_ok count cap tr st -> control st = Returned true -> shut_down count cap st.
Proof.
  intros [[Hcap _ Hcl _] _ Hw Hn Hc Hr] Hret.
  destruct (Hr Hret) as [Hp Hclosed]. destruct (Hcl Hclosed) as [Hq Hs].
  split; [split| | |]; auto.
  - lia.
  - apply all_done. pose proof (done_count_le (workers st)). lia.
  - destruct (jobs (shared st)). by simpl in *; subst.
Qed.

(** [shutdown] succeeds only when its work is complete: in every reachable
    state where it returned [Ok], every worker has finished, no completion is
    pending, the queue is closed and empty, and the stop flag is up; and from
    there on no run accepts or starts a job. *)
Theorem shutdown_complete (count cap : nat) (b : bool) (tr : list Label) (st : PoolState) :
  run (pool_new count cap b) tr st -> control st = Returned true ->
  (length (workers st) <= count /\ Forall (fun p => p = Done) (workers st))
  /\ pending st = 0 /\ jobs (shared st) = MkJobs [] cap true /\ stop (shared st) = true
  /\ forall tr' st', run st tr' st' -> accepted tr' = [] /\ started tr' = [].
Proof.
  intros Hrun Hret. destruct (shutdown_ok _ _ _ _ (run_ok _ _ _ _ _ Hrun) Hret) as [Hw Hp Hj Hs].
  split_and!; auto; [by apply Hw|by apply Hw|].
  intros tr' st' Hrun'. by destruct (run_stopped _ _ _ Hrun' Hs) as (_ & ? & ? & _).
Qed.

(** C32: raising the stop flag ends the workers: from any state where it is up, a
    run accepts no job, starts none and contains at most four steps of each
    worker; and as long as some worker is not done, that worker can step. *)
Theorem stop_ends_workers (st st' : PoolState) (tr : list Label) :
  run st tr st' -> stop (shared st) = true ->
  accepted tr = [] /\ started tr = [] /\ turns tr <= 4 * threads st
  /\ forall i p, workers st' !! i = Some p -> p <> Done ->
       exists l st'', step st' l st'' /\ is_turn l = 1.
Proof.
  intros Hrun Hs. destruct (run_stopped _ _ _ Hrun Hs) as (_ & Ha & Hst & Ht).
  pose proof (pool_rank_le st). split_and!; auto; [lia|].
  intros i p Hi Hp. destruct (worker_progress i p (shared st') Hp) as (l & p' & sh' & Hw & Hl).
  destruct st' as [sh ws n c]. eauto using s_worker.
Qed.
End pool.

(** ** A pool at work *)

(** Two workers and a queue of two: jobs 7 and 8 are accepted and 9 is refused;
    worker 0 runs job 7; worker 1 has taken job 8 when the service stops, and
    throws it away; job 10 is thrown away by [close]. *)
Definition busy : list (Move (T := nat)) :=
  [MSpawn; MSpawn; MStarted; MSubmit 7; MSubmit 8; MSubmit 9; MWorker 0 false; MWorker 0 false; MWorker 0 false;
   MWorker 1 false; MWorker 1 false; MSubmit 10; MWorker 0 false; MShutdown].
Definition winding_down : list (Move (T := nat)) :=
  [MWorker 1 false; MWorker 0 false; MWorker 0 false; MWorker 0 false; MCollect;
   MWorker 1 false; MWorker 1 false; MCollect; MReturn].

Definition busy_run : list (Label (T := nat)) * PoolState :=
  default ([], pool_new 2 2 false) (play busy (pool_new 2 2 false)).
Definition whole_run : list (Label (T := nat)) * PoolState :=
  default ([], pool_new 2 2 false) (play (busy ++ winding_down) (pool_new 2 2 false)).
Definition last_run : list (Label (T := nat)) * PoolState :=
  default ([], snd busy_run) (play winding_down (snd busy_run)).

Example busy_jobs :
  accepted (fst whole_run) = [7; 8; 10] /\ started (fst whole_run) = [7]
  /\ discarded (fst whole_run) = [8] /\ control (snd whole_run) = Returned true.
Proof. vm_compute. by split_and!. Qed.

Lemma pool_delivery_witness :
  run (pool_new 2 2 false) (fst busy_run) (snd busy_run) /\
  (length (queue (jobs (shared (snd busy_run)))) <= 2
   /\ taken (fst busy_run) `prefix_of` accepted (fst busy_run)
   /\ (closed (jobs (shared (snd busy_run))) = false ->
        accepted (fst busy_run) = taken (fst busy_run) ++ queue (jobs (shared (snd busy_run))))
   /\ taken (fst busy_run) ≡ₚ started (fst busy_run) ++ discarded (fst busy_run) ++ held (workers (snd busy_run))).
Proof.
  assert (run (pool_new 2 2 false) (fst busy_run) (snd busy_run)) as Hrun.
  { apply (play_run busy). vm_compute. reflexivity. }
  split; [exact Hrun|]. exact (pool_delivery 2 2 false (fst busy_run) (snd busy_run) Hrun).
Defined.

Lemma shutdown_complete_witness :
  run (pool_new 2 2 false) (fst whole_run) (snd whole_run) /\
  control (snd whole_run) = Returned true /\ pending (snd whole_run) = 0.
Proof.
  assert (run (pool_new 2 2 false) (fst whole_run) (snd whole_run)) as Hrun.
  { apply (play_run (busy ++ winding_down)). vm_compute. reflexivity. }
  assert (control (snd whole_run) = Returned true) as Hret by (vm_compute; reflexivity).
  split; [exact Hrun|]. split; [exact Hret|].
  exact (proj1 (proj2 (shutdown_complete 2 2 false (fst whole_run) (snd whole_run) Hrun Hret))).
Defined.

Lemma stop_ends_workers_witness :
  run (snd busy_run) (fst last_run) (snd last_run) /\ stop (shared (snd busy_run)) = true /\
  started (fst last_run) = [].
Proof.
  assert (run (snd busy_run) (fst last_run) (snd last_run)) as Hrun.
  { apply (play_run winding_down). vm_compute. reflexivity. }
  assert (stop (shared (snd busy_run)) = true) as Hs by (vm_compute; reflexivity).
  split; [exact Hrun|]. split; [exact Hs|].
  exact (proj1 (proj2 (stop_ends_workers (snd busy_run) (snd last_run) (fst last_run) Hrun Hs))).
Defined.
