(* ===== verification/Service.v ===== *)
(** * The UDP service

    [Server::run] as far as UDP goes: the listener of [Server] submits what it
    receives to a pool of [Pool], whose workers handle one datagram at a time.
    The three are modelled apart; a run of the service is a run of each that
    agree on the jobs, and its specification is a stateless responder. *)

From S2P Require Import Prelude Types Name Message Cookie Net Reply Parser Body Samples Sent.
From S2P Require Import LocalReply Answers Retry Routing Io Sim Transport Upstream Forwarding Isolation.
From S2P Require Import Server Pool.

(** ** The jobs as the listener and the pool see them *)

Definition submits1 {T} (l : Label (T:=T)) : list (T * bool) :=
  match l with Submit job ok => [(job, ok)] | _ => [] end.
Definition submits {T} (tr : list (Label (T:=T))) : list (T * bool) := tr ≫= submits1.

Definition udp_submits1 (ev : event) : list (Datagram * bool) :=
  let 'Ev e r := ev in
  match e in Sys R return R -> list (Datagram * bool) with
  | SubmitUdp w a d => fun b => [(MkDatagram w a (MkDeadline d), b)]
  | _ => fun _ => []
  end r.
Definition udp_submits (tr : list event) : list (Datagram * bool) := tr ≫= udp_submits1.

(** The datagrams that arrived. *)
Definition arrived1 (ev : event) : list (list byte * SocketAddr) :=
  let 'Ev e r := ev in
  match e in Sys R return R -> list (list byte * SocketAddr) with
  | RecvFrom _ => fun r => match r with inr d => [d] | inl _ => [] end
  | _ => fun _ => []
  end r.
Definition arrived (tr : list event) : list (list byte * SocketAddr) := tr ≫= arrived1.

Definition origin (d : Datagram) : list byte * SocketAddr := (dg_wire d, dg_peer d).

Lemma accepted_submits {T} (tr : list (Label (T:=T))) :
  sublist (accepted tr) (submits tr).*1.
Proof.
  unfold accepted, submits. induction tr as [|[job [|]| | | | |] tr IH]; cbn; try done.
  - by apply sublist_skip.
  - by apply sublist_cons.
Qed.

(** The listener submits datagrams that arrived, in their order, each once. *)
Lemma udp_submits_arrived o n l :
  loop_trace udp_pass (udp_last o) n l -> sublist (origin <$> (udp_submits l).*1) (arrived l).
Proof.
  unfold udp_submits, arrived. induction 1 as [l Hl|n l l' Hp _ IH].
  - destruct Hl; cbn; try done. by apply sublist_cons.
  - rewrite !bind_app, !fmap_app. apply sublist_app; [|done]. by destruct Hp as [|? ? ? []].
Qed.

Lemma started_accepted {T} count cap b (tr : list (Label (T:=T))) st :
  run (pool_new count cap b) tr st -> started tr ⊆+ accepted tr.
Proof.
  intros [[_ _ _ (gone & Hf & _)] Ht _ _ _ _]%run_ok.
  transitivity (taken tr); [rewrite Ht; by apply submseteq_inserts_r|].
  rewrite Hf. by apply submseteq_inserts_r.
Qed.

(** ** Runs of the service *)

Section service.
Context {W : Type} `{EnvLaws W} (fuel : nat) (table : RoutingTable).

(** A worker that handled a job: its view of the world before and after. *)
Record Handled := MkHandled {
  hl_job : Datagram; hl_before : state W RequestHandler; hl_after : state W RequestHandler
}.

(** The datagrams it sent meanwhile. *)
Definition outgoing (x : Handled) : list (list byte * SocketAddr) :=
  drop (length (sent_to (trace (hl_before x)))) (sent_to (trace (hl_after x))).

Definition handling (x : Handled) : Prop :=
  udp_handle (E:=unit) fuel (hl_job x) (hl_before x) = (Ok tt, hl_after x)
  /\ rh_routing (own (hl_before x)) = table
  /\ enough fuel (dg_deadline (hl_job x)) (hl_before x).

(** [serves l hs]: the calls [l] of the listener and the handled jobs [hs] belong
    to one run: the pool took the listener's submissions and answered them as the
    listener saw it, and the handled jobs are among those its workers started. *)
Record serves (l : list event) (hs : list Handled) : Prop := MkServes {
  sv_pool : exists b tr st,
    run (pool_new UDP_WORKERS UDP_QUEUE b) tr st /\ submits tr = udp_submits l
    /\ hl_job <$> hs ⊆+ started tr;
  sv_handled : Forall handling hs
}.

(** [bytes] is the reply of one of these workers to its job [d], given what its
    forwarding came to while it handled it. *)
Definition replied_by (hs : list Handled) (d : Datagram) (bytes : list byte) : Prop :=
  exists x, x ∈ hs /\ hl_job x = d
    /\ reply_to (relays (dg_deadline d) (hl_before x) (hl_after x)) table (dg_wire d) Udp bytes.

Lemma handling_answers x :
  table_wf table -> handling x ->
  exists answered : list (Datagram * list byte),
    outgoing x = (fun '(d, bytes) => (bytes, dg_peer d)) <$> answered
    /\ answered.*1 ⊆+ [hl_job x]
    /\ Forall (fun '(d, bytes) => replied_by [x] d bytes) answered.
Proof.
  intros Ht (Hrun & Htab & Hf). rewrite <- Htab in Ht.
  pose proof (udp_handle_wp (E:=unit) fuel (hl_job x) (hl_before x) Ht Hf) as Hw.
  unfold wpm in Hw. rewrite Hrun in Hw. destruct Hw as (reply & [_ Hs Hr]). rewrite Htab in Hr.
  unfold outgoing. rewrite Hs, drop_app_length. destruct reply as [bytes|].
  - exists [(hl_job x, bytes)]. split_and!; [done|done|]. constructor; [|constructor]. exists x. split; [by left|done].
  - exists []. split_and!; [done|apply submseteq_nil_l|constructor].
Qed.

Lemma handled_answers hs :
  table_wf table -> Forall handling hs ->
  exists answered : list (Datagram * list byte),
    concat (outgoing <$> hs) = (fun '(d, bytes) => (bytes, dg_peer d)) <$> answered
    /\ answered.*1 ⊆+ hl_job <$> hs
    /\ Forall (fun '(d, bytes) => replied_by hs d bytes) answered.
Proof.
  intros Ht. induction 1 as [|x hs Hx _ (answered & Ho & Hj & Hr)]; [by exists []|].
  destruct (handling_answers x Ht Hx) as (answered1 & Ho1 & Hj1 & Hr1).
  exists (answered1 ++ answered). cbn [fmap list_fmap concat]. split_and!.
  - by rewrite Ho1, Ho, fmap_app.
  - rewrite fmap_app. by apply (submseteq_app _ [hl_job x] _ (hl_job <$> hs)).
  - apply Forall_app. split; (eapply Forall_impl; [eassumption|]); intros [d bytes] (y & Hy & ?).
    + exists y. apply list_elem_of_singleton in Hy as ->. split; [by left|done].
    + exists y. split; [by right|done].
Qed.

Lemma serves_arrived o n l hs :
  loop_trace udp_pass (udp_last o) n l -> serves l hs -> origin <$> (hl_job <$> hs) ⊆+ arrived l.
Proof.
  intros Hl [(b & tr & st & Hrun & Hsub & Hj) _].
  transitivity (origin <$> (udp_submits l).*1); [|by apply sublist_submseteq, (udp_submits_arrived o n)].
  apply fmap_submseteq. transitivity (started tr); [done|].
  transitivity (accepted tr); [by eapply started_accepted|].
  rewrite <- Hsub. apply sublist_submseteq, accepted_submits.
Qed.
End service.
Arguments MkHandled {W} _ _ _.

(** C9: the UDP service is a stateless responder.  In a run of the listener, the
    pool and its workers, whatever the order of their steps: the datagrams sent
    to clients are replies, each to a datagram that arrived, to its sender, and
    at most one for each arrival; and each is a reply [respond] may give to it
    from the configured table, after what forwarding came to for the worker that
    handled it. *)
Theorem udp_service_answers {W X} `{EnvLaws W} fuel table rounds (s : state W X) l hs :
  table_wf table -> trace (snd (receive_udp rounds s)) = trace s ++ l -> serves fuel table l hs ->
  exists answered : list (Datagram * list byte),
    concat (outgoing <$> hs) = (fun '(d, bytes) => (bytes, dg_peer d)) <$> answered
    /\ origin <$> answered.*1 ⊆+ arrived l
    /\ Forall (fun '(d, bytes) => replied_by table hs d bytes) answered.
Proof.
  intros Ht Hl Hs. destruct (receive_udp_calls rounds s) as (n & l' & Hl' & Hloop & _).
  rewrite Hl in Hl'. apply app_inv_head in Hl' as <-.
  destruct (handled_answers fuel table hs Ht (sv_handled _ _ _ _ Hs)) as (answered & Ho & Hj & Hr).
  exists answered. split_and!; [done| |done].
  transitivity (origin <$> (hl_job <$> hs)); [by apply fmap_submseteq|].
  by eapply serves_arrived.
Qed.

(** ** A run *)

(** Two clients ask; the first question goes upstream, the second is local. *)
Definition sample_arrivals : state Sim unit := sim_start [sample_query] [sample_query; sample_lan_query] tt.
Definition sample_calls : list event := trace (snd (receive_udp 3 sample_arrivals)).
Definition sample_job (w : list byte) : Datagram := MkDatagram w sim_peer (MkDeadline REQUEST_TIMEOUT).

(** The second job is taken first, by another worker. *)
Definition sample_schedule : list (Move (T := Datagram)) :=
  repeat MSpawn UDP_WORKERS ++
  [MStarted; MSubmit (sample_job sample_query); MWorker 3 false; MWorker 3 false; MSubmit (sample_job sample_lan_query);
   MWorker 5 false; MWorker 5 false; MWorker 5 false; MWorker 3 false].
Definition sample_pool : list (Label (T := Datagram)) * PoolState :=
  default ([], pool_new UDP_WORKERS UDP_QUEUE false) (play sample_schedule (pool_new UDP_WORKERS UDP_QUEUE false)).

(** A worker near the end of the time for its job. *)
Definition sample_worker (datagrams : list (list byte)) : state Sim RequestHandler :=
  MkIo (MkSim (REQUEST_TIMEOUT - 1000) None [] datagrams [] [] []) [] (MkHandler sample_table (MkForwarder None)).
Definition sample_handled (w : list byte) (datagrams : list (list byte)) : Handled :=
  MkHandled (sample_job w) (sample_worker datagrams)
    (snd (udp_handle (E:=unit) sample_fuel (sample_job w) (sample_worker datagrams))).
Definition sample_work : list Handled := [sample_handled sample_lan_query []; sample_handled sample_query [sample_response]].

Lemma sample_handling w datagrams :
  fst (udp_handle (E:=unit) sample_fuel (sample_job w) (sample_worker datagrams)) = Ok tt ->
  handling sample_fuel sample_table (sample_handled w datagrams).
Proof.
  intros Hok. split; [|split; [done|vm_compute; reflexivity]]. cbn [sample_handled hl_job hl_before hl_after].
  by rewrite <- Hok, <- surjective_pairing.
Qed.

Lemma udp_service_answers_witness :
  (exists bytes, concat (outgoing <$> sample_work) = [(bytes, sim_peer); (sample_response, sim_peer)])
  /\ exists answered : list (Datagram * list byte),
       concat (outgoing <$> sample_work) = (fun '(d, bytes) => (bytes, dg_peer d)) <$> answered
       /\ origin <$> answered.*1 ⊆+ arrived sample_calls
       /\ Forall (fun '(d, bytes) => replied_by sample_table sample_work d bytes) answered.
Proof.
  split.
  { exists (match outgoing (sample_handled sample_lan_query []) with [(b, _)] => b | _ => [] end).
    vm_compute. reflexivity. }
  apply (udp_service_answers sample_fuel sample_table 3 sample_arrivals sample_calls sample_work).
  - exact sample_table_wf.
  - reflexivity.
  - split.
    + exists false, (fst sample_pool), (snd sample_pool). split; [|split].
      * apply (play_run sample_schedule). vm_compute. reflexivity.
      * vm_compute. reflexivity.
      * assert (hl_job <$> sample_work = started (fst sample_pool)) as -> by (vm_compute; reflexivity).
        generalize (started (fst sample_pool)). reflexivity.
    + apply Forall_cons_2; [|apply Forall_singleton]; apply sample_handling; vm_compute; reflexivity.
Defined.
