(* ===== verification/TcpService.v ===== *)
(** * The TCP service

    The counterpart of [Service] for TCP: the listener of [Server] submits the
    connections it accepts to a pool of [Pool], whose workers serve one
    connection at a time from its first frame to its end. *)

From S2P Require Import Prelude Types Name Message Cookie Net Reply Parser Body Samples Sent.
From S2P Require Import LocalReply Answers Retry Routing Io Sim Transport Upstream Forwarding Isolation.
From S2P Require Import Server Pool Service.

(** ** Connections as the listener and the pool see them *)

Definition tcp_submits1 (ev : event) : list (Connection * bool) :=
  let 'Ev e r := ev in
  match e in Sys R return R -> list (Connection * bool) with
  | SubmitTcp h d => fun b => [(MkConnection h (MkDeadline d), b)]
  | _ => fun _ => []
  end r.
Definition tcp_submits (tr : list event) : list (Connection * bool) := tr ≫= tcp_submits1.

(** The streams that were accepted. *)
Definition taken_in1 (ev : event) : list nat :=
  let 'Ev e r := ev in
  match e in Sys R return R -> list nat with
  | Accept => fun r => match r with inr (h, _) => [h] | inl _ => [] end
  | _ => fun _ => []
  end r.
Definition taken_in (tr : list event) : list nat := tr ≫= taken_in1.

(** The listener submits connections it accepted, in their order, each once. *)
Lemma tcp_submits_accepted o n l :
  loop_trace tcp_pass (tcp_last o) n l -> sublist (cn_stream <$> (tcp_submits l).*1) (taken_in l).
Proof.
  unfold tcp_submits, taken_in. induction 1 as [l Hl|n l l' Hp _ IH].
  - destruct Hl; cbn; try done. by apply sublist_cons.
  - rewrite !bind_app, !fmap_app. apply sublist_app; [|done]. by destruct Hp as [|? ? ? []].
Qed.

(** ** Runs of the service *)

Section service.
Context {W : Type} `{EnvLaws W} (fuel rounds : nat) (table : RoutingTable).

(** A worker that served a connection: its view of the world before and after. *)
Record Served := MkServed {
  sd_job : Connection; sd_before : state W RequestHandler; sd_after : state W RequestHandler
}.
Implicit Types x : Served.

(** The worker handled its job to the end, with the configured table and a stream
    the system gave to the client alone. *)
Record serving x : Prop := {
  sg_run : tcp_handle (E:=unit) fuel rounds (sd_job x) (sd_before x) = (Ok tt, sd_after x);
  sg_table : rh_routing (own (sd_before x)) = table;
  sg_reserved : reserved (W:=W) (eq (cn_stream (sd_job x)));
  sg_away : handler_away (eq (cn_stream (sd_job x))) (own (sd_before x));
  sg_deadline : (instant (cn_first_deadline (sd_job x)) <= clock (world (sd_before x)) + CLIENT_FRAME_TIMEOUT)%Z
}.

(** [tcp_serves l hs]: the calls [l] of the listener and the served connections
    [hs] belong to one run. *)
Record tcp_serves (l : list event) (hs : list Served) : Prop := {
  ts_pool : exists b tr st,
    run (pool_new TCP_WORKERS TCP_QUEUE b) tr st /\ submits tr = tcp_submits l
    /\ sd_job <$> hs ⊆+ started tr;
  ts_served : Forall serving hs
}.

(** What became of a served connection: a session, which answered every frame it read or
    had a reason not to; the bytes are its complete frames and the frames of their
    replies, in the same order, and [rx] and [tx]; there are none of these when the
    session ended well, on shutdown or at the end of the stream, and else they are what
    it was reading or writing when it broke. *)
Definition answered_in_order x : Prop :=
  let h := cn_stream (sd_job x) in
  exists ts o s' s1 rx tx,
    session_result h (cn_first_deadline (sd_job x)) rounds ts (o, s') (sd_before x) /\ o <> Diverge
    /\ session h ts (sd_before x) s1
    /\ received h (trace (sd_after x))
       = received h (trace (sd_before x)) ++ concat ((fun t => frame_of (fst t)) <$> ts) ++ rx
    /\ transmitted h (trace (sd_after x))
       = transmitted h (trace (sd_before x)) ++ concat ((fun t => reply_bytes (snd t)) <$> ts) ++ tx
    /\ (rx = [] /\ tx = []
        \/ exists dl e, frame_deadline (cn_first_deadline (sd_job x)) dl (sd_before x) s1 /\ o = Err e /\ broken h dl e s1 s'
             /\ received h (trace s') = received h (trace s1) ++ rx
             /\ transmitted h (trace s') = transmitted h (trace s1) ++ tx).

(** Reading the flag before an error is logged, and logging it, leave the stream
    alone. *)
Lemma tcp_handle_result job s s' :
  tcp_handle (E:=unit) fuel rounds job s = (Ok tt, s') ->
  let r := serve_tcp fuel rounds job s in
  fst r <> Diverge
  /\ received (cn_stream job) (trace s') = received (cn_stream job) (trace (snd r))
  /\ transmitted (cn_stream job) (trace s') = transmitted (cn_stream job) (trace (snd r)).
Proof.
  cbv zeta. unfold tcp_handle, mbind at 1, mtry. destruct (serve_tcp fuel rounds job s) as [[[]|e| |] s1]; try done.
  - intros [= <-]. by split.
  - rewrite run_call. destruct (env_step Stop (world s1)) as [b w].
    destruct (_ && _); [unfold warn, mcall; cbn [world trace own]; destruct (env_step (Warn _) w) as [u w']|];
      (intros [= <-] || intros [= -> <-]); (split; [done|]); cbn [trace snd];
      rewrite ?received_snoc, ?transmitted_snoc; cbn [received1 transmitted1]; by rewrite !app_nil_r.
Qed.

Lemma serving_answers x :
  table_wf table -> ample fuel -> serving x -> answered_in_order x.
Proof.
  intros Ht Hf [Hrun Htab Hres Haway Hdl]. set (h := cn_stream (sd_job x)) in *.
  assert (ready h (sd_before x)) as Hr by (split; [by rewrite Htab|done]).
  destruct (tcp_handle_result _ _ _ Hrun) as (Hnd & R & X).
  destruct (serve_tcp_result fuel rounds (sd_job x) (sd_before x) Hres Hr Hf Hdl) as (ts & Hts).
  fold h in R, X, Hts. destruct (serve_tcp fuel rounds (sd_job x) (sd_before x)) as [o s'] eqn:Hrun'.
  cbn [fst snd] in *. exists ts, o, s'. fold h. pose proof Hts as Hres'. unfold session_result in Hres'. cbn [fst snd] in Hres'.
  assert (forall s1, session h ts (sd_before x) s1 ->
    received h (trace s1) = received h (trace (sd_before x)) ++ concat ((fun t => frame_of (fst t)) <$> ts)
    /\ transmitted h (trace s1) = transmitted h (trace (sd_before x)) ++ concat ((fun t => reply_bytes (snd t)) <$> ts))
    as Hbytes by (intros s1 Hs; by destruct (session_bytes h _ _ _ Hs) as (? & ? & _)).
  destruct o as [[]|e| |]; try done.
  - destruct Hres' as (Hs & _ & _). destruct (Hbytes s' Hs) as [Rb Xb]. exists s', [], [].
    rewrite !app_nil_r, R, X. split_and!; auto.
  - destruct Hres' as (s1 & Hs & Hb). destruct (Hbytes s1 Hs) as [Rb Xb]. exists s1.
    assert (exists rx tx, received h (trace s') = received h (trace s1) ++ rx
      /\ transmitted h (trace s') = transmitted h (trace s1) ++ tx
      /\ (rx = [] /\ tx = [] \/ exists dl, frame_deadline (cn_first_deadline (sd_job x)) dl (sd_before x) s1 /\ broken h dl e s1 s'))
      as (rx & tx & Rs & Xs & Hend).
    { destruct Hb as [(dl & Hd & Hb)|[M _]].
      - destruct Hb as [rx S|w bytes k rd wd s2 s3 S];
          (eexists _, _; split; [apply (ss_received _ _ _ _ _ _ S)|]; split; [apply (ss_transmitted _ _ _ _ _ _ S)|]; right;
           exists dl; split; [done|]); [by eapply broken_read|by eapply broken_write].
      - exists [], []. rewrite !app_nil_r. destruct M as [_ _ _ Rm Xm]. rewrite app_nil_r in Rm, Xm. auto. }
    exists rx, tx. rewrite R, X, Rs, Xs, Rb, Xb, <- !app_assoc. split_and!; auto.
    destruct Hend as [?|(dl & Hd & Hbr)]; [by left|right]. exists dl, e. rewrite <- ?app_assoc. split_and!; auto.
Qed.

Lemma tcp_serves_accepted o n l hs :
  loop_trace tcp_pass (tcp_last o) n l -> tcp_serves l hs ->
  cn_stream <$> (sd_job <$> hs) ⊆+ taken_in l.
Proof.
  intros Hl [(b & tr & st & Hrun & Hsub & Hj) _].
  transitivity (cn_stream <$> (tcp_submits l).*1); [|by apply sublist_submseteq, (tcp_submits_accepted o n)].
  apply fmap_submseteq. transitivity (started tr); [done|].
  transitivity (accepted tr); [by eapply started_accepted|].
  rewrite <- Hsub. apply sublist_submseteq, accepted_submits.
Qed.
End service.
Arguments MkServed {W} _ _ _.


(** ** A run *)

(** Two clients connect.  The worker of the first serves [sample_session]; the
    second connection is still queued. *)
Definition sample_accepts : state Sim unit :=
  MkIo (MkSim 0 None [] [] [] [] [inr 9; inr 10]) [] tt.
Definition sample_accepting : list event := trace (snd (accept_tcp 2 sample_accepts)).
Definition sample_connection (h : nat) : Connection := MkConnection h (MkDeadline CLIENT_FRAME_TIMEOUT).
Definition sample_tcp_schedule : list (Move (T := Connection)) :=
  repeat MSpawn TCP_WORKERS ++
  [MStarted; MSubmit (sample_connection 9); MWorker 3 false; MWorker 3 false; MSubmit (sample_connection 10);
   MWorker 3 false].
Definition sample_tcp_pool : list (Label (T := Connection)) * PoolState :=
  default ([], pool_new TCP_WORKERS TCP_QUEUE false)
    (play sample_tcp_schedule (pool_new TCP_WORKERS TCP_QUEUE false)).

Definition sample_tcp_fuel : nat := Z.to_nat 20000000000.
Definition sample_served : Served :=
  MkServed (sample_connection 9) sample_session
    (snd (tcp_handle (E:=unit) sample_tcp_fuel 10 (sample_connection 9) sample_session)).

Lemma sample_serving : serving sample_tcp_fuel 10 sample_table sample_served.
Proof.
  assert (fst (tcp_handle (E:=unit) sample_tcp_fuel 10 (sample_connection 9) sample_session) = Ok tt) as Hok
    by (lazy; reflexivity).
  split; cbn [sample_served sd_job sd_before sd_after].
  - by rewrite <- Hok, <- surjective_pairing.
  - done.
  - by apply sample_reserved.
  - done.
  - done.
Qed.

