(* ===== verification/Lifecycle.v ===== *)
(** * The life of the service

    [Server::run] of [src/src/server.rs]: both pools are started, both listeners
    run, and whichever ends first takes the service down.  The main thread and
    the TCP thread are phases over the two pools of [Pool]; the stop flag is one
    flag, of which each pool's state holds a copy.  What a listener does with what
    it takes in is in [Server]; here its loop is a phase: a call of [recv_from]
    comes back within its read timeout, a call of [accept] only when a connection
    waits, which is what the wake connection of [Server::run] is for.  Each step
    has the events of its life: the lines it logs and the results of the two
    listeners. *)

From S2P Require Import Prelude Types Pool Server.

(** Where the loop of [receive_udp] or of [accept_clients] is: before the [while]
    test; in [recv_from] or [accept]; with what it returned, before the second
    test of the flag; past it, about to submit the job. *)
Inductive Looping := AtHead | InCall | Taken | Handing.

(** The loop goes on, or returns its result. *)
Inductive LoopEnd := On (l : Looping) | Over (ok : bool).

(** The two tests of the stop flag. *)
Definition look (flag : bool) (l : Looping) : option LoopEnd :=
  match l with
  | AtHead => Some (if flag then Over true else On InCall)
  | Taken => Some (if flag then Over true else On Handing)
  | InCall | Handing => None
  end.

(** How a call ends: with a datagram or a stream, with an error that the loop
    drains, with another error. *)
Inductive CallResult := Item | Retry | Failed.
Definition call_returns (r : CallResult) : LoopEnd :=
  match r with Item => On Taken | Retry => On AtHead | Failed => Over false end.

(** [accept] waits for a connection: it returns its stream, or the error of its
    handshake; only an error of the listening socket needs none. *)
Definition accepts (r : CallResult) (n n' : nat) : Prop :=
  match r with Item | Retry => n = S n' | Failed => n = n' \/ n = S n' end.

(** The main thread: starting the pools and the TCP thread; in [receive_udp];
    past it, with its result; at the wake connection; in [udp_pool.shutdown];
    waiting for the TCP thread with the results so far; returned. *)
Inductive MainPhase :=
| StartUdp | StartTcp | StartListener | Intake (l : Looping) | IntakeEnded (ok : bool) | Waking (ok : bool)
| ShutUdp (ok : bool) | AwaitTcp (ok workers_ok : bool) | Exit (ok : bool).

(** The TCP thread: not started; in [accept_tcp]; past it; in
    [tcp_pool.shutdown]; ended, its completion sent. *)
Inductive TcpPhase :=
| Absent | Accepting (l : Looping) | AcceptEnded (ok : bool) | ShutTcp (ok : bool) | Gone (ok workers_ok : bool).

(** [backlog]: the connections that wait to be accepted.  [woken]: whether the wake
    connection was made, once it was tried. *)
Record ServiceState := MkService {
  udp_pool : PoolState (T := Datagram); tcp_pool : PoolState (T := Connection);
  main_phase : MainPhase; tcp_phase : TcpPhase; backlog : nat; woken : option bool
}.

Definition service_start (stop : bool) : ServiceState :=
  MkService (pool_new UDP_WORKERS UDP_QUEUE stop) (pool_new TCP_WORKERS TCP_QUEUE stop) StartUdp Absent 0 None.

Definition udp_to (s : ServiceState) u := MkService u (tcp_pool s) (main_phase s) (tcp_phase s) (backlog s) (woken s).
Definition tcp_to (s : ServiceState) t := MkService (udp_pool s) t (main_phase s) (tcp_phase s) (backlog s) (woken s).
Definition main_to (s : ServiceState) p := MkService (udp_pool s) (tcp_pool s) p (tcp_phase s) (backlog s) (woken s).
Definition accept_to (s : ServiceState) q := MkService (udp_pool s) (tcp_pool s) (main_phase s) q (backlog s) (woken s).
Definition waiting_to (s : ServiceState) n := MkService (udp_pool s) (tcp_pool s) (main_phase s) (tcp_phase s) n (woken s).

Definition stop_pool {T} (st : PoolState (T := T)) : PoolState :=
  MkPool (raise_stop (shared st)) (workers st) (pending st) (control st).

(** The flag is shared: raised in one pool it is raised in both. *)
Definition raise_both (s : ServiceState) : ServiceState :=
  MkService (stop_pool (udp_pool s)) (stop_pool (tcp_pool s)) (main_phase s) (tcp_phase s) (backlog s) (woken s).
Definition share_stop (s : ServiceState) : ServiceState :=
  if stop (shared (udp_pool s)) || stop (shared (tcp_pool s)) then raise_both s else s.

(** The owner of a pool goes on when [Pool::new] or [shutdown] returns. *)
Definition main_next (p : MainPhase) (udp tcp : Control) : MainPhase :=
  match p, udp, tcp with
  | StartUdp, Serving, _ => StartTcp
  | StartUdp, Returned _, _ => Exit false
  | StartTcp, _, Serving => StartListener
  | StartTcp, _, Returned _ => Exit false
  | ShutUdp ok, Returned workers_ok, _ => AwaitTcp ok workers_ok
  | p, _, _ => p
  end.
Definition tcp_next (p : TcpPhase) (tcp : Control) : TcpPhase :=
  match p, tcp with
  | ShutTcp ok, Returned workers_ok => Gone ok workers_ok
  | p, _ => p
  end.

(** Who is inside [new] or [shutdown] of which pool. *)
Definition owns_udp (p : MainPhase) : Prop :=
  match p with StartUdp | ShutUdp _ => True | _ => False end.
Definition owns_tcp (p : MainPhase) (q : TcpPhase) : Prop :=
  p = StartTcp \/ match q with ShutTcp _ => True | _ => False end.

(** The lines of [Server::run]; [Texts] writes them out. *)
Inductive ServiceLine := Listening | ShuttingDown | ShutdownComplete.

(** What happens in the life of the service: a line is logged, [receive_udp] or
    [accept_tcp] returns, the TCP thread is joined. *)
Inductive ServiceEvent := Said (line : ServiceLine) | IntakeOver (ok : bool) | AcceptOver (ok : bool) | Joined.

Definition intake_at (e : LoopEnd) : MainPhase := match e with On l => Intake l | Over ok => IntakeEnded ok end.
Definition accept_at (e : LoopEnd) : TcpPhase := match e with On l => Accepting l | Over ok => AcceptEnded ok end.
Definition over (f : bool -> ServiceEvent) (e : LoopEnd) : list ServiceEvent :=
  match e with On _ => [] | Over ok => [f ok] end.

(** Only the listeners submit. *)
Definition is_submit {T} (l : Label (T := T)) : bool := match l with Submit _ _ => true | _ => false end.

Inductive server_step (s : ServiceState) : list ServiceEvent -> ServiceState -> Prop :=
(* Workers, signals, dropped pools. *)
| sv_udp l u :
    step (udp_pool s) l u -> is_submit l = false -> control u = control (udp_pool s) ->
    server_step s [] (share_stop (udp_to s u))
| sv_tcp l u :
    step (tcp_pool s) l u -> is_submit l = false -> control u = control (tcp_pool s) ->
    server_step s [] (share_stop (tcp_to s u))
(* [new] and [shutdown]. *)
| sv_udp_owner l u :
    owns_udp (main_phase s) -> step (udp_pool s) l u -> is_submit l = false ->
    server_step s [] (share_stop
      (main_to (udp_to s u) (main_next (main_phase s) (control u) (control (tcp_pool s)))))
| sv_tcp_owner l u :
    owns_tcp (main_phase s) (tcp_phase s) -> step (tcp_pool s) l u -> is_submit l = false ->
    server_step s [] (share_stop
      (accept_to (main_to (tcp_to s u) (main_next (main_phase s) (control (udp_pool s)) (control u)))
         (tcp_next (tcp_phase s) (control u))))
(* [local_addr] or starting the TCP thread fails; or the thread starts. *)
| sv_start_failed : main_phase s = StartListener -> server_step s [] (main_to s (Exit false))
| sv_started :
    main_phase s = StartListener -> tcp_phase s = Absent ->
    server_step s [Said Listening] (accept_to (main_to s (Intake AtHead)) (Accepting AtHead))
(* [receive_udp]. *)
| sv_intake_looks l e :
    main_phase s = Intake l -> look (stop (shared (udp_pool s))) l = Some e ->
    server_step s (over IntakeOver e) (main_to s (intake_at e))
| sv_intake_returns r :
    main_phase s = Intake InCall ->
    server_step s (over IntakeOver (call_returns r)) (main_to s (intake_at (call_returns r)))
| sv_intake_submits job ok u :
    main_phase s = Intake Handing -> step (udp_pool s) (Submit job ok) u ->
    server_step s [] (share_stop (main_to (udp_to s u) (Intake AtHead)))
(* [accept_tcp]; a client connects. *)
| sv_accept_looks l e :
    tcp_phase s = Accepting l -> look (stop (shared (tcp_pool s))) l = Some e ->
    server_step s (over AcceptOver e) (accept_to s (accept_at e))
| sv_accept_returns r n :
    tcp_phase s = Accepting InCall -> accepts r (backlog s) n ->
    server_step s (over AcceptOver (call_returns r)) (accept_to (waiting_to s n) (accept_at (call_returns r)))
| sv_accept_submits job ok u :
    tcp_phase s = Accepting Handing -> step (tcp_pool s) (Submit job ok) u ->
    server_step s [] (share_stop (accept_to (tcp_to s u) (Accepting AtHead)))
| sv_connects : server_step s [] (waiting_to s (S (backlog s)))
(* Whoever is past its loop raises the flag. *)
| sv_intake_stops ok :
    main_phase s = IntakeEnded ok ->
    server_step s [Said ShuttingDown] (raise_both (main_to s (Waking ok)))
| sv_accept_stops ok :
    tcp_phase s = AcceptEnded ok -> server_step s [] (raise_both (accept_to s (ShutTcp ok)))
(* The wake connection: made, it waits as any other does; or it fails. *)
| sv_wake ok (made : bool) :
    main_phase s = Waking ok ->
    server_step s []
      (MkService (udp_pool s) (tcp_pool s) (ShutUdp ok) (tcp_phase s)
         (if made then S (backlog s) else backlog s) (Some made))
(* The TCP thread is joined, or its completion does not come in time. *)
| sv_joined ok wok ok' wok' :
    main_phase s = AwaitTcp ok wok -> tcp_phase s = Gone ok' wok' ->
    server_step s (Joined :: if ok' && wok' then [Said ShutdownComplete] else [])
      (main_to s (Exit (ok && wok && (ok' && wok'))))
| sv_late ok wok :
    main_phase s = AwaitTcp ok wok -> (forall ok' wok', tcp_phase s <> Gone ok' wok') ->
    server_step s [] (main_to s (Exit false)).

(** Runs, with the events of their steps. *)
Inductive service_run (b : bool) : list ServiceEvent -> ServiceState -> Prop :=
| sr_start : service_run b [] (service_start b)
| sr_step es e s s' : service_run b es s -> server_step s e s' -> service_run b (es ++ e) s'.

Definition reachable (b : bool) (s : ServiceState) : Prop := exists es, service_run b es s.

Lemma reach_start b : reachable b (service_start b).
Proof. eexists. apply sr_start. Qed.
Lemma reach_step b s e s' : reachable b s -> server_step s e s' -> reachable b s'.
Proof. intros [es Hs] Hstep. eexists. by eapply sr_step. Qed.

(** ** Invariant *)

Definition udp_good (u : PoolState (T := Datagram)) : Prop := exists tr, pool_ok UDP_WORKERS UDP_QUEUE tr u.
Definition tcp_good (t : PoolState (T := Connection)) : Prop := exists tr, pool_ok TCP_WORKERS TCP_QUEUE tr t.

(** The flag is up once a listener has ended. *)
Definition stopping_main (p : MainPhase) : Prop :=
  match p with Waking _ | ShutUdp _ | AwaitTcp _ _ => True | _ => False end.
Definition stopping_tcp (q : TcpPhase) : Prop :=
  match q with ShutTcp _ | Gone _ _ => True | _ => False end.

(** Until the TCP thread is started. *)
Definition early (p : MainPhase) : Prop :=
  match p with StartUdp | StartTcp | StartListener => True | _ => False end.

(** The wake connection is tried once, between the intake and [udp_pool.shutdown]. *)
Definition wake_tried (p : MainPhase) (q : TcpPhase) (w : option bool) : Prop :=
  match p with
  | StartUdp | StartTcp | StartListener | Intake _ | IntakeEnded _ | Waking _ => w = None
  | ShutUdp _ | AwaitTcp _ _ => w <> None
  | Exit _ => q <> Absent -> w <> None
  end.

(** But for the flag being shared, of which a step raises at most one copy: what
    [share_stop] mends. *)
Record almost_ok (s : ServiceState) : Prop := {
  al_udp : udp_good (udp_pool s);
  al_tcp : tcp_good (tcp_pool s);
  al_stopping : stopping_main (main_phase s) \/ stopping_tcp (tcp_phase s) \/ woken s <> None ->
    stop (shared (udp_pool s)) = true \/ stop (shared (tcp_pool s)) = true;
  al_awaiting ok wok : main_phase s = AwaitTcp ok wok -> control (udp_pool s) = Returned wok;
  al_gone ok wok : tcp_phase s = Gone ok wok -> control (tcp_pool s) = Returned wok;
  al_early : early (main_phase s) -> tcp_phase s = Absent;
  al_wake : wake_tried (main_phase s) (tcp_phase s) (woken s);
  al_blocked : woken s = Some true -> tcp_phase s = Accepting InCall -> backlog s <> 0
}.

Record service_ok (s : ServiceState) : Prop := {
  sk_almost : almost_ok s;
  sk_shared : stop (shared (udp_pool s)) = stop (shared (tcp_pool s))
}.

Lemma stopping_up s :
  service_ok s -> stopping_main (main_phase s) \/ stopping_tcp (tcp_phase s) \/ woken s <> None ->
  stop (shared (udp_pool s)) = true.
Proof. intros [Ha Hs] H. destruct (al_stopping _ Ha H); congruence. Qed.

Section pools.
Context {T : Type} (count cap : nat).
Implicit Types u : PoolState (T := T).

Lemma good_step u l u' :
  (exists tr, pool_ok count cap tr u) -> step u l u' -> exists tr, pool_ok count cap tr u'.
Proof. intros [tr Hu] Hs. eexists. by eapply step_ok. Qed.

Lemma good_stop u : (exists tr, pool_ok count cap tr u) -> exists tr, pool_ok count cap tr (stop_pool u).
Proof. intros Hu. eapply good_step; [done|]. destruct u. apply s_stop. Qed.

(** No step lowers the flag. *)
Lemma step_keeps_stop u l u' : step u l u' -> stop (shared u) = true -> stop (shared u') = true.
Proof. intros Hs Hu. by destruct (step_stopped _ _ _ Hs Hu). Qed.

(** A submission is not the owner's. *)
Lemma submit_control u job ok u' : step u (Submit job ok) u' -> control u' = control u.
Proof. intros H. by inversion H. Qed.
End pools.

Lemma raise_both_ok s : almost_ok s -> service_ok (raise_both s).
Proof. intros []. split; [|done]. split; cbn; auto; by apply good_stop. Qed.

Lemma share_stop_ok s : almost_ok s -> service_ok (share_stop s).
Proof.
  intros Ha. unfold share_stop. destruct (_ || _) eqn:Hs; [by apply raise_both_ok|].
  apply orb_false_iff in Hs as [Hu Ht]. split; [done|congruence].
Qed.

(** A pool moves, and its owner follows if it is the one that moves. *)
Lemma udp_moves_ok s l u p :
  service_ok s -> step (udp_pool s) l u ->
  (p = main_phase s /\ control u = control (udp_pool s)
   \/ owns_udp (main_phase s) /\ p = main_next (main_phase s) (control u) (control (tcp_pool s))) ->
  almost_ok (main_to (udp_to s u) p).
Proof.
  intros Hok Hstep Hp. pose proof (stopping_up _ Hok) as Hst. destruct Hok as [[Hu Ht _ Ha Hg Hea Hw Hb] _].
  pose proof (step_keeps_stop _ _ _ Hstep) as Hkeep.
  split; cbn [main_to udp_to udp_pool tcp_pool main_phase tcp_phase backlog woken]; auto.
  - by eapply good_step.
  - intros Hph. left. apply Hkeep, Hst. destruct Hp as [[-> _]|[Ho ->]]; [done|].
    destruct Hph as [Hph|[Hph|Hph]]; [|by right; left|by right; right]. left.
    by destruct (main_phase s), (control u).
  - intros ok wok Hm. destruct Hp as [[-> Hc]|[Ho ->]]; [rewrite Hc; by eapply Ha|].
    by destruct (main_phase s), (control u); simplify_eq/=.
  - intros Hp'. apply Hea. destruct Hp as [[-> _]|[Ho ->]]; [done|].
    by destruct (main_phase s), (control u).
  - destruct Hp as [[-> _]|[Ho ->]]; [done|].
    destruct (main_phase s), (control u); cbn in *; try done; by rewrite (Hea I).
Qed.

Lemma tcp_moves_ok s l u p q :
  service_ok s -> step (tcp_pool s) l u ->
  (p = main_phase s /\ q = tcp_phase s /\ control u = control (tcp_pool s)
   \/ p = main_next (main_phase s) (control (udp_pool s)) (control u)
      /\ q = tcp_next (tcp_phase s) (control u) /\ owns_tcp (main_phase s) (tcp_phase s)) ->
  almost_ok (accept_to (main_to (tcp_to s u) p) q).
Proof.
  intros Hok Hstep Hp. pose proof (stopping_up _ Hok) as Hst. destruct Hok as [[Hu Ht _ Ha Hg Hea Hw Hb] _].
  split; cbn [main_to tcp_to accept_to udp_pool tcp_pool main_phase tcp_phase backlog woken]; auto.
  - by eapply good_step.
  - intros Hph. left. apply Hst. destruct Hp as [(-> & -> & _)|(-> & -> & Ho)]; [done|].
    destruct Hph as [Hph|[Hph|Hph]]; [left|right; left|by right; right].
    + by destruct (main_phase s), (control (udp_pool s)), (control u).
    + by destruct (tcp_phase s), (control u).
  - intros ok wok Hm. destruct Hp as [(-> & _)|(-> & _)]; [by eapply Ha|].
    destruct (main_phase s) eqn:Hmain, (control (udp_pool s)) eqn:Hc, (control u); simplify_eq/=;
      try done; specialize (Ha _ _ eq_refl); congruence.
  - intros ok wok Hm. destruct Hp as [(_ & -> & Hc)|(_ & -> & Ho)]; [rewrite Hc; by eapply Hg|].
    destruct (tcp_phase s) eqn:Hq; simplify_eq/=; [by destruct (control u); simplify_eq/=|].
    destruct Ho as [Hm'|[]]. rewrite Hm' in Hea. by specialize (Hea I).
  - intros Hp'. destruct Hp as [(-> & -> & _)|(-> & -> & _)]; [by apply Hea|].
    rewrite Hea; [done|]. by destruct (main_phase s), (control (udp_pool s)), (control u).
  - destruct Hp as [(-> & -> & _)|(-> & -> & Ho)]; [done|].
    destruct (main_phase s) eqn:Hmain, (control (udp_pool s)) eqn:Hc, (control u); try done; cbn in *;
      try (by rewrite (Hea I)); destruct (tcp_phase s); try done; intros _; by apply Hw.
  - intros Hwok Hq. apply Hb; [done|]. destruct Hp as [(_ & -> & _)|(_ & -> & _)]; [done|].
    by destruct (tcp_phase s), (control u).
Qed.

(** A loop moves. *)
Lemma intake_moves_ok s l e : almost_ok s -> main_phase s = Intake l -> almost_ok (main_to s (intake_at e)).
Proof.
  intros [? ? Hst Ha ? Hea Hw ?] Hm. rewrite Hm in *. split; cbn; auto; by destruct e.
Qed.

Lemma accept_moves_ok s l e n :
  almost_ok s -> tcp_phase s = Accepting l -> (woken s = Some true -> e <> On InCall) ->
  almost_ok (accept_to (waiting_to s n) (accept_at e)).
Proof.
  intros [? ? Hst Ha Hg Hea Hw Hb] Hq He. rewrite Hq in *. split; cbn; auto; try by destruct e.
  - intros Hp. by specialize (Hea Hp).
  - destruct (main_phase s); try done. intros _. by apply Hw.
  - intros Hwok Hl. destruct e as [l'|]; simplify_eq/=. by destruct (He Hwok).
Qed.

(** ** Every reachable state *)

Lemma service_start_ok b : service_ok (service_start b).
Proof.
  split; [|done]. split; cbn; try done; try (by intros [|[]]).
  - exists []. apply pool_new_ok.
  - exists []. apply pool_new_ok.
Qed.

(** With the flag up, [accept] is not called again. *)
Lemma looks_not_in_call flag l e : look flag l = Some e -> flag = true -> e <> On InCall.
Proof. intros H ->. by destruct l; simplify_eq/=. Qed.

Lemma woken_up s : service_ok s -> woken s = Some true -> stop (shared (tcp_pool s)) = true.
Proof. intros Hok Hw. rewrite <- (sk_shared _ Hok). apply stopping_up; [done|]. right; right. by rewrite Hw. Qed.

Lemma server_step_ok s e s' : service_ok s -> server_step s e s' -> service_ok s'.
Proof.
  intros Hok Hstep. pose proof (sk_almost _ Hok) as Hal. pose proof (sk_shared _ Hok) as Hsh.
  destruct Hstep as [l u Hs _ Hc|l u Hs _ Hc|l u Ho Hs _|l u Ho Hs _|Hm|Hm Hq|l e Hm He|r Hm|job ok u Hm Hs
    |l e Hq He|r n Hq Hn|job ok u Hq Hs| |ok Hm|ok Hq|ok made Hm|ok wok ok' wok' Hm Hq|ok wok Hm Hq].
  - apply share_stop_ok. apply (udp_moves_ok _ _ _ (main_phase s) Hok Hs). by left.
  - apply share_stop_ok. apply (tcp_moves_ok _ _ _ (main_phase s) (tcp_phase s) Hok Hs). by left.
  - apply share_stop_ok. apply (udp_moves_ok _ _ _ _ Hok Hs). by right.
  - apply share_stop_ok. apply (tcp_moves_ok _ _ _ _ _ Hok Hs). by right.
  - split; [|done]. destruct Hal as [? ? Hst Ha ? Hea Hw ?]. rewrite Hm in *. split; cbn; auto; try done.
    by rewrite (Hea I).
  - split; [|done]. destruct Hal as [? ? Hst Ha ? Hea Hw ?]. rewrite Hm in *. split; cbn; auto; try done.
    intros [[]|[[]|?]]; auto.
  - split; [|done]. by eapply intake_moves_ok.
  - split; [|done]. by eapply intake_moves_ok.
  - apply share_stop_ok. apply (intake_moves_ok (udp_to s u) Handing (On AtHead)); [|done].
    apply (udp_moves_ok _ _ _ (main_phase s) Hok Hs). left. eauto using submit_control.
  - split; [|done]. eapply (accept_moves_ok s); [done|done|].
    intros Hw%woken_up; [|done]. by eapply looks_not_in_call.
  - split; [|done]. eapply (accept_moves_ok s); [done|done|]. by destruct r.
  - apply share_stop_ok. apply (accept_moves_ok (tcp_to s u) Handing (On AtHead)); [|done|done].
    apply (tcp_moves_ok _ _ _ (main_phase s) (tcp_phase s) Hok Hs). left. eauto using submit_control.
  - split; [|done]. destruct Hal. by split.
  - split; [|done]. destruct (sk_almost _ (raise_both_ok _ Hal)) as [? ? Hst Ha ? Hea Hw ?]. cbn in *. rewrite Hm in *.
    split; cbn; auto; try done.
  - split; [|done]. destruct (sk_almost _ (raise_both_ok _ Hal)) as [? ? Hst Ha ? Hea Hw ?]. cbn in *. rewrite Hq in *.
    split; cbn; auto; try done; [intros Hp; by specialize (Hea Hp)|].
    destruct (main_phase s); try done; intros _; by apply Hw.
  - split; [|done]. destruct Hal as [? ? Hst Ha ? Hea Hw ?]. rewrite Hm in *. split; cbn; auto; try done.
    + intros _. apply Hst. by left.
    + by intros [= ->].
  - split; [|done]. destruct Hal as [? ? Hst Ha ? Hea Hw ?]. rewrite Hm in *. split; cbn; auto; try done.
  - split; [|done]. destruct Hal as [? ? Hst Ha ? Hea Hw ?]. rewrite Hm in *. split; cbn; auto; try done.
Qed.

Lemma service_run_ok b es s : service_run b es s -> service_ok s.
Proof. induction 1 as [|es e s s' _ IH Hs]; [apply service_start_ok|by eapply server_step_ok]. Qed.

Lemma reachable_ok b s : reachable b s -> service_ok s.
Proof. intros [es Hs]. by eapply service_run_ok. Qed.

(** No step lowers the flag. *)
Lemma server_step_stop s e s' :
  server_step s e s' -> stop (shared (udp_pool s)) = true -> stop (shared (udp_pool s')) = true.
Proof.
  intros Hstep Hu. destruct Hstep; try done; unfold share_stop;
    cbn [udp_pool tcp_pool main_to udp_to tcp_to accept_to waiting_to];
    repeat match goal with
    | Hs : step (udp_pool s) _ _ |- _ => rewrite (step_keeps_stop _ _ _ Hs Hu); clear Hs
    end; rewrite ?Hu; done.
Qed.

(** ** A run of the service *)

#[export] Instance control_eq_dec : EqDecision Control.
Proof. solve_decision. Defined.
#[export] Instance accepts_dec r n n' : Decision (accepts r n n').
Proof. destruct r; cbn; apply _. Defined.
#[export] Instance owns_udp_dec p : Decision (owns_udp p).
Proof. destruct p; apply _. Defined.
#[export] Instance looping_eq_dec : EqDecision Looping.
Proof. solve_decision. Defined.
#[export] Instance main_phase_eq_dec : EqDecision MainPhase.
Proof. solve_decision. Defined.
#[export] Instance owns_tcp_dec p q : Decision (owns_tcp p q).
Proof. apply or_dec; [apply _|destruct q; apply _]. Defined.

(** The choices of a schedule: a pool's thread moves, or its owner does in [new]
    or [shutdown]; the TCP thread is started; a listener tests the flag, comes back
    from its call or submits what it has; a client connects; a listener that is
    over raises the flag; the wake connection is tried; the TCP thread is joined or
    late. *)
Inductive Turning :=
| UdpMove (m : Move (T := Datagram)) | TcpMove (m : Move (T := Connection))
| UdpOwner (m : Move (T := Datagram)) | TcpOwner (m : Move (T := Connection))
| Listen (started : bool)
| IntakeLooks | IntakeReturns (r : CallResult) | IntakeSubmits (job : Datagram)
| AcceptLooks | AcceptReturns (r : CallResult) (left_ : nat) | AcceptSubmits (job : Connection)
| Connects | IntakeStops | AcceptStops | Wakes (made : bool) | Join | Late.

Definition advance (d : Turning) (s : ServiceState) : option (list ServiceEvent * ServiceState) :=
  match d, main_phase s, tcp_phase s with
  | UdpMove m, _, _ =>
      r ← perform m (udp_pool s);
      guard (is_submit (fst r) = false);; guard (control (snd r) = control (udp_pool s));;
      Some ([], share_stop (udp_to s (snd r)))
  | TcpMove m, _, _ =>
      r ← perform m (tcp_pool s);
      guard (is_submit (fst r) = false);; guard (control (snd r) = control (tcp_pool s));;
      Some ([], share_stop (tcp_to s (snd r)))
  | UdpOwner m, p, _ =>
      guard (owns_udp p);; r ← perform m (udp_pool s); guard (is_submit (fst r) = false);;
      Some ([], share_stop (main_to (udp_to s (snd r)) (main_next p (control (snd r)) (control (tcp_pool s)))))
  | TcpOwner m, p, q =>
      guard (owns_tcp p q);; r ← perform m (tcp_pool s); guard (is_submit (fst r) = false);;
      Some ([], share_stop (accept_to (main_to (tcp_to s (snd r))
        (main_next p (control (udp_pool s)) (control (snd r)))) (tcp_next q (control (snd r)))))
  | Listen false, StartListener, _ => Some ([], main_to s (Exit false))
  | Listen true, StartListener, Absent =>
      Some ([Said Listening], accept_to (main_to s (Intake AtHead)) (Accepting AtHead))
  | IntakeLooks, Intake l, _ =>
      e ← look (stop (shared (udp_pool s))) l; Some (over IntakeOver e, main_to s (intake_at e))
  | IntakeReturns r, Intake InCall, _ =>
      Some (over IntakeOver (call_returns r), main_to s (intake_at (call_returns r)))
  | IntakeSubmits job, Intake Handing, _ =>
      r ← perform (MSubmit job) (udp_pool s); Some ([], share_stop (main_to (udp_to s (snd r)) (Intake AtHead)))
  | AcceptLooks, _, Accepting l =>
      e ← look (stop (shared (tcp_pool s))) l; Some (over AcceptOver e, accept_to s (accept_at e))
  | AcceptReturns r n, _, Accepting InCall =>
      guard (accepts r (backlog s) n);;
      Some (over AcceptOver (call_returns r), accept_to (waiting_to s n) (accept_at (call_returns r)))
  | AcceptSubmits job, _, Accepting Handing =>
      r ← perform (MSubmit job) (tcp_pool s); Some ([], share_stop (accept_to (tcp_to s (snd r)) (Accepting AtHead)))
  | Connects, _, _ => Some ([], waiting_to s (S (backlog s)))
  | IntakeStops, IntakeEnded ok, _ => Some ([Said ShuttingDown], raise_both (main_to s (Waking ok)))
  | AcceptStops, _, AcceptEnded ok => Some ([], raise_both (accept_to s (ShutTcp ok)))
  | Wakes made, Waking ok, _ =>
      Some ([], MkService (udp_pool s) (tcp_pool s) (ShutUdp ok) (tcp_phase s)
        (if made : bool then S (backlog s) else backlog s) (Some made))
  | Join, AwaitTcp ok wok, Gone ok' wok' =>
      Some (Joined :: if ok' && wok' then [Said ShutdownComplete] else [],
            main_to s (Exit (ok && wok && (ok' && wok'))))
  | Late, AwaitTcp _ _, Gone _ _ => None
  | Late, AwaitTcp _ _, _ => Some ([], main_to s (Exit false))
  | _, _, _ => None
  end.

Lemma advance_step d s e s' : advance d s = Some (e, s') -> server_step s e s'.
Proof.
  assert (forall T (m : Move (T := T)) u r, perform m u = Some r -> step u (fst r) (snd r)) as Hp.
  { intros T m u [l u']. apply perform_step. }
  assert (forall T job (u : PoolState (T := T)) r, perform (MSubmit job) u = Some r ->
    exists ok, step u (Submit job ok) (snd r)) as Hsub.
  { intros T job u [l u'] H. exists (fst (submit job (shared u))). apply perform_step in H as Hs. destruct u as [sh ws n c].
    cbn in *. destruct (submit job sh) as [ok sh'] eqn:E. simplify_eq/=. done. }
  unfold advance. intros H. destruct d.
  - destruct (perform m _) as [r|] eqn:Hm; [|done]. cbn in H. repeat case_guard; simplify_eq/=. eauto using sv_udp.
  - destruct (perform m _) as [r|] eqn:Hm; [|done]. cbn in H. repeat case_guard; simplify_eq/=. eauto using sv_tcp.
  - case_guard as Ho; [|done]. destruct (perform m _) as [r|] eqn:Hm; [|done]. cbn in H. case_guard; simplify_eq/=.
    eauto using sv_udp_owner.
  - case_guard as Ho; [|done]. destruct (perform m _) as [r|] eqn:Hm; [|done]. cbn in H. case_guard; simplify_eq/=.
    eauto using sv_tcp_owner.
  - destruct started, (main_phase s) eqn:Hm, (tcp_phase s) eqn:Hq; simplify_eq; by constructor.
  - destruct (main_phase s) eqn:Hm; try done. destruct (look _ _) as [e'|] eqn:He; simplify_eq/=. by eapply sv_intake_looks.
  - destruct (main_phase s) as [| | |[]| | | | |] eqn:Hm; simplify_eq. by constructor.
  - destruct (main_phase s) as [| | |[]| | | | |] eqn:Hm; try done.
    destruct (perform _ _) as [r|] eqn:Hr; simplify_eq/=. apply Hsub in Hr as [ok Hr]. by eapply sv_intake_submits.
  - destruct (main_phase s), (tcp_phase s) eqn:Hq; try done;
      (destruct (look _ _) as [e'|] eqn:He; simplify_eq/=; by eapply sv_accept_looks).
  - destruct (main_phase s), (tcp_phase s) as [|[]| | |] eqn:Hq; try done; case_guard; simplify_eq/=; by constructor.
  - destruct (main_phase s), (tcp_phase s) as [|[]| | |] eqn:Hq; try done;
      (destruct (perform _ _) as [r|] eqn:Hr; simplify_eq/=; apply Hsub in Hr as [ok1 Hr]; by eapply sv_accept_submits).
  - destruct (main_phase s), (tcp_phase s); simplify_eq; constructor.
  - destruct (main_phase s) eqn:Hm; simplify_eq; by constructor.
  - destruct (main_phase s), (tcp_phase s) eqn:Hq; simplify_eq; by constructor.
  - destruct (main_phase s) eqn:Hm; simplify_eq; by constructor.
  - destruct (main_phase s) eqn:Hm, (tcp_phase s) eqn:Hq; simplify_eq; by constructor.
  - destruct (main_phase s) eqn:Hm, (tcp_phase s) eqn:Hq; simplify_eq; eapply sv_late; by rewrite ?Hm, ?Hq.
Qed.

Fixpoint direct (ds : list Turning) (s : ServiceState) : option (list ServiceEvent * ServiceState) :=
  match ds with
  | [] => Some ([], s)
  | d :: ds => r ← advance d s; r' ← direct ds (snd r); Some (fst r ++ fst r', snd r')
  end.

Lemma direct_run ds b : forall es s e s',
  service_run b es s -> direct ds s = Some (e, s') -> service_run b (es ++ e) s'.
Proof.
  induction ds as [|d ds IH]; intros es s e s' Hs H; cbn [direct] in H.
  { simplify_eq. by rewrite app_nil_r. }
  destruct (advance d s) as [[e1 s1]|] eqn:Hd; [|done]. cbn in H.
  destruct (direct ds s1) as [[e2 s2]|] eqn:Hr; [|done]. cbn in H. simplify_eq.
  rewrite app_assoc. eapply IH; [|done]. by eapply sr_step, advance_step.
Qed.

(** A service of all its workers, both listeners in their calls. *)
Definition started_day : list Turning :=
  repeat (UdpOwner MSpawn) 8 ++ [UdpOwner MStarted] ++ repeat (TcpOwner MSpawn) 16 ++ [TcpOwner MStarted]
  ++ [Listen true; IntakeLooks; AcceptLooks].
(** A signal: the intake ends after its timeout. *)
Definition stopping_day : list Turning := [UdpMove MStop; IntakeReturns Retry; IntakeLooks; IntakeStops].
Definition worker_ends (i : nat) : list nat := [i; i; i].
Definition udp_ends : list Turning :=
  ((fun i => UdpMove (MWorker i false)) <$> (seq 0 8 ≫= worker_ends))
  ++ [UdpOwner MShutdown] ++ repeat (UdpOwner MCollect) 8 ++ [UdpOwner MReturn].
Definition tcp_ends : list Turning :=
  ((fun i => TcpMove (MWorker i false)) <$> (seq 0 16 ≫= worker_ends))
  ++ [TcpOwner MShutdown] ++ repeat (TcpOwner MCollect) 16 ++ [TcpOwner MReturn].

(** A service started, stopped by a signal and shut down: the wake connection takes
    the TCP thread out of [accept]. *)
Definition calm_day : list Turning :=
  started_day ++ stopping_day ++ [Wakes true; AcceptReturns Item 0; AcceptLooks; AcceptStops]
  ++ udp_ends ++ tcp_ends ++ [Join].

(** The wake connection fails, and no client comes. *)
Definition stuck_day : list Turning := started_day ++ stopping_day ++ [Wakes false] ++ udp_ends ++ [Late].

Definition after (ds : list Turning) : list ServiceEvent * ServiceState :=
  default ([], service_start false) (direct ds (service_start false)).

Lemma after_run ds : is_Some (direct ds (service_start false)) -> service_run false (fst (after ds)) (snd (after ds)).
Proof.
  intros [[e s] Hd]. unfold after. rewrite Hd. cbn [default from_option fst snd id].
  apply (direct_run ds false [] (service_start false)); [apply sr_start|done].
Qed.

(** Without its wake connection the listener stays in [accept]; the main thread
    returns its error all the same. *)
Example stuck_in_accept :
  service_run false [Said Listening; IntakeOver true; Said ShuttingDown] (snd (after stuck_day))
  /\ main_phase (snd (after stuck_day)) = Exit false /\ tcp_phase (snd (after stuck_day)) = Accepting InCall
  /\ backlog (snd (after stuck_day)) = 0 /\ woken (snd (after stuck_day)) = Some false.
Proof.
  assert (fst (after stuck_day) = [Said Listening; IntakeOver true; Said ShuttingDown]) as <- by (vm_compute; reflexivity).
  split; [apply after_run; vm_compute; by eexists|]. by vm_compute.
Qed.
