(* ===== verification/ServiceLog.v ===== *)
(** * What the service says of its own life

    The events of [Lifecycle], read back: the lines that [Server::run] of
    [src/src/server.rs] logs by [logging::info], and the results of both listeners
    and of the TCP thread, from which its own result follows. *)

From S2P Require Import Prelude Types Pool Server Lifecycle.

(** ** Reading a run *)

Definition line1 (e : ServiceEvent) : list ServiceLine := match e with Said line => [line] | _ => [] end.
Definition intake1 (e : ServiceEvent) : list bool := match e with IntakeOver ok => [ok] | _ => [] end.
Definition accept1 (e : ServiceEvent) : list bool := match e with AcceptOver ok => [ok] | _ => [] end.
Definition join1 (e : ServiceEvent) : list unit := match e with Joined => [tt] | _ => [] end.

(** The lines, the results of [receive_udp] and of [accept_tcp], the joins. *)
Definition lines (es : list ServiceEvent) : list ServiceLine := es ≫= line1.
Definition intakes (es : list ServiceEvent) : list bool := es ≫= intake1.
Definition accepts_over (es : list ServiceEvent) : list bool := es ≫= accept1.
Definition joins (es : list ServiceEvent) : list unit := es ≫= join1.

Lemma lines_app es e : lines (es ++ e) = lines es ++ lines e.
Proof. apply bind_app. Qed.
Lemma intakes_app es e : intakes (es ++ e) = intakes es ++ intakes e.
Proof. apply bind_app. Qed.
Lemma accepts_over_app es e : accepts_over (es ++ e) = accepts_over es ++ accepts_over e.
Proof. apply bind_app. Qed.
Lemma joins_app es e : joins (es ++ e) = joins es ++ joins e.
Proof. apply bind_app. Qed.

Lemma share_stop_main s : main_phase (share_stop s) = main_phase s.
Proof. unfold share_stop. by destruct (_ || _). Qed.
Lemma share_stop_tcp s : tcp_phase (share_stop s) = tcp_phase s.
Proof. unfold share_stop. by destruct (_ || _). Qed.
Lemma share_stop_control s : control (udp_pool (share_stop s)) = control (udp_pool s).
Proof. unfold share_stop. by destruct (_ || _). Qed.

(** ** The main thread *)

(** The lines there are when the main thread is here. *)
Definition log_at (p : MainPhase) (ls : list ServiceLine) : Prop :=
  match p with
  | StartUdp | StartTcp | StartListener => ls = []
  | Intake _ | IntakeEnded _ => ls = [Listening]
  | Waking _ | ShutUdp _ | AwaitTcp _ _ => ls = [Listening; ShuttingDown]
  | Exit true => ls = [Listening; ShuttingDown; ShutdownComplete]
  | Exit false => ls ∈ [[]; [Listening; ShuttingDown]; [Listening; ShuttingDown; ShutdownComplete]]
  end.

(** The result of [receive_udp], once it is over. *)
Definition intake_result (p : MainPhase) : list bool :=
  match p with
  | StartUdp | StartTcp | StartListener | Intake _ | Exit _ => []
  | IntakeEnded ok | Waking ok | ShutUdp ok | AwaitTcp ok _ => [ok]
  end.

(** [Server::run] returned: without the TCP thread, or with every result. *)
Inductive returned (s : ServiceState) (es : list ServiceEvent) (ok : bool) : Prop :=
| rt_alone :
    joins es = [] -> ok = false -> lines es ∈ [[]; [Listening; ShuttingDown]] -> returned s es ok
| rt_joined ok0 wok ok' wok' :
    joins es = [tt] -> intakes es = [ok0] -> control (udp_pool s) = Returned wok -> tcp_phase s = Gone ok' wok' ->
    lines es = [Listening; ShuttingDown] ++ (if ok' && wok' then [ShutdownComplete] else []) ->
    ok = ok0 && wok && (ok' && wok') -> returned s es ok.

Definition main_tells (s : ServiceState) (es : list ServiceEvent) : Prop :=
  match main_phase s with
  | Exit ok => returned s es ok
  | p => log_at p (lines es) /\ intakes es = intake_result p /\ joins es = []
  end.

(** The result of [accept_tcp], once it is over. *)
Definition accept_result (q : TcpPhase) : list bool :=
  match q with Absent | Accepting _ => [] | AcceptEnded ok | ShutTcp ok | Gone ok _ => [ok] end.

(** Events that are not of the main thread. *)
Definition foreign (e : list ServiceEvent) : Prop := lines e = [] /\ intakes e = [] /\ joins e = [].

Lemma foreign_nil : foreign [].
Proof. done. Qed.
Lemma foreign_accept e : foreign (over AcceptOver e).
Proof. by destruct e. Qed.

(** What others do leaves what the main thread told as it is. *)
Lemma main_tells_foreign s es e s' :
  foreign e -> main_phase s' = main_phase s ->
  (forall ok, main_phase s = Exit ok -> control (udp_pool s') = control (udp_pool s)
     /\ (forall ok' wok', tcp_phase s = Gone ok' wok' -> tcp_phase s' = Gone ok' wok')) ->
  main_tells s es -> main_tells s' (es ++ e).
Proof.
  intros (Hl & Hi & Hj) Hm Hx. unfold main_tells. rewrite Hm, lines_app, intakes_app, joins_app, Hl, Hi, Hj, !app_nil_r.
  destruct (main_phase s); try done. destruct (Hx _ eq_refl) as [Hc Hg].
  intros [? ? ?|ok0 wok ok' wok' ? ? Hw Hq ? ?].
  - apply rt_alone; rewrite ?lines_app, ?joins_app, ?Hl, ?Hj, ?app_nil_r; done.
  - apply (rt_joined _ _ _ ok0 wok ok' wok'); rewrite ?lines_app, ?intakes_app, ?joins_app, ?Hl, ?Hi, ?Hj, ?app_nil_r; try done.
    + by rewrite Hc.
    + by apply Hg.
Qed.

(** Starting and shutting down a pool. *)
Lemma main_tells_next s es s' u t :
  main_phase s' = main_next (main_phase s) u t ->
  (forall ok, main_phase s = Exit ok -> control (udp_pool s') = control (udp_pool s)
     /\ (forall ok' wok', tcp_phase s = Gone ok' wok' -> tcp_phase s' = Gone ok' wok')) ->
  main_tells s es -> main_tells s' (es ++ []).
Proof.
  intros Hm Hx. destruct (decide (main_phase s' = main_phase s)) as [He|Hne].
  { by apply main_tells_foreign. }
  rewrite app_nil_r. unfold main_tells. rewrite Hm in *. clear Hx.
  destruct (main_phase s), u, t; cbn in *; try done; intros (Hl & _ & Hj); (apply rt_alone; [done..|]; rewrite Hl; by left).
Qed.

Lemma main_tells_step s es e s' :
  service_ok s -> server_step s e s' -> main_tells s es -> main_tells s' (es ++ e).
Proof.
  intros Hok Hs. destruct Hs as [l u Hs _ Hc|l u Hs _ Hc|l u Ho Hs _|l u Ho Hs _|Hm|Hm Hq|l e Hm He|r Hm|job ok u Hm Hs
    |l e Hq He|r n Hq Hn|job ok u Hq Hs| |ok Hm|ok Hq|ok made Hm|ok wok ok' wok' Hm Hq|ok wok Hm Hq];
    try (apply main_tells_foreign; rewrite ?share_stop_main, ?share_stop_tcp, ?share_stop_control;
      [first [done|apply foreign_accept]|done|]; cbn; rewrite ?Hq; by auto).
  - apply (main_tells_next _ _ _ (control u) (control (tcp_pool s)));
      rewrite ?share_stop_main, ?share_stop_tcp, ?share_stop_control; [done|].
    intros ok Hm. by rewrite Hm in Ho.
  - apply (main_tells_next _ _ _ (control (udp_pool s)) (control u));
      rewrite ?share_stop_main, ?share_stop_tcp, ?share_stop_control; [done|].
    intros ok Hm. split; [done|]. intros ok' wok' Hq. cbn. by rewrite Hq.
  - unfold main_tells. rewrite Hm, app_nil_r. cbn. intros (Hl & _ & Hj). apply rt_alone; [done..|]. rewrite Hl. by left.
  - unfold main_tells. rewrite Hm, lines_app, intakes_app, joins_app. cbn. by intros (-> & -> & ->).
  - unfold main_tells. rewrite Hm, lines_app, intakes_app, joins_app. cbn. intros (-> & -> & ->). by destruct e.
  - unfold main_tells. rewrite Hm, lines_app, intakes_app, joins_app. cbn. intros (-> & -> & ->). by destruct r.
  - unfold main_tells. rewrite share_stop_main, Hm, app_nil_r. done.
  - unfold main_tells. rewrite Hm, lines_app, intakes_app, joins_app. cbn. by intros (-> & -> & ->).
  - unfold main_tells. by rewrite Hm, app_nil_r.
  - unfold main_tells. rewrite Hm. cbn [main_phase main_to]. cbn. intros (Hl & Hi & Hj).
    apply (rt_joined _ _ _ ok wok ok' wok'); rewrite ?lines_app, ?intakes_app, ?joins_app, ?Hl, ?Hi, ?Hj;
      try done; try by destruct (ok' && wok').
    exact (al_awaiting _ (sk_almost _ Hok) _ _ Hm).
  - unfold main_tells. rewrite Hm, app_nil_r. cbn. intros (Hl & _ & Hj). apply rt_alone; [done..|]. rewrite Hl. by right; left.
Qed.

(** ** The TCP thread *)

(** What others do is no result of [accept_tcp]. *)
Lemma accept_tells_step s es e s' :
  service_ok s -> server_step s e s' ->
  accepts_over es = accept_result (tcp_phase s) -> accepts_over (es ++ e) = accept_result (tcp_phase s').
Proof.
  intros Hok Hs Ha. rewrite accepts_over_app, Ha.
  destruct Hs as [l u Hs _ Hc|l u Hs _ Hc|l u Ho Hs _|l u Ho Hs _|Hm|Hm Hq|l e Hm He|r Hm|job ok u Hm Hs
    |l e Hq He|r n Hq Hn|job ok u Hq Hs| |ok Hm|ok Hq|ok made Hm|ok wok ok' wok' Hm Hq|ok wok Hm Hq];
    rewrite ?share_stop_tcp, ?app_nil_r; cbn [tcp_phase main_to accept_to udp_to tcp_to waiting_to raise_both];
    rewrite ?Hq; try done.
  - by destruct (tcp_phase s), (control u).
  - destruct e; apply app_nil_r.
  - destruct (call_returns r); apply app_nil_r.
  - by destruct e.
  - by destruct r.
  - by destruct (ok' && wok').
Qed.

(** ** When a listener ends well *)

(** Only with the flag up. *)
Definition ended_stopped (s : ServiceState) (es : list ServiceEvent) : Prop :=
  true ∈ intakes es ++ accepts_over es -> stop (shared (udp_pool s)) = true.

Lemma look_over flag l e : look flag l = Some e -> e = Over true -> flag = true.
Proof. intros H ->. by destruct l, flag; simplify_eq/=. Qed.

Lemma ended_stopped_step s es e s' :
  service_ok s -> server_step s e s' -> ended_stopped s es -> ended_stopped s' (es ++ e).
Proof.
  intros Hok Hs He Hin.
  assert (true ∈ intakes es ++ accepts_over es \/ true ∈ intakes e ++ accepts_over e) as [H|H].
  { rewrite intakes_app, accepts_over_app in Hin. rewrite !elem_of_app in *. tauto. }
  { eapply server_step_stop; [done|]. by apply He. }
  eapply server_step_stop; [done|]. clear Hin He. pose proof (sk_shared _ Hok) as Hsh.
  destruct Hs as [l u Hs _ Hc|l u Hs _ Hc|l u Ho Hs _|l u Ho Hs _|Hm|Hm Hq|l e Hm He|r Hm|job ok u Hm Hs
    |l e Hq He|r n Hq Hn|job ok u Hq Hs| |ok Hm|ok Hq|ok made Hm|ok wok ok' wok' Hm Hq|ok wok Hm Hq];
    try (by apply elem_of_nil in H).
  - eapply look_over; [done|]. destruct e as [|[]]; cbn in H; [by apply elem_of_nil in H|done|].
    by apply list_elem_of_singleton in H.
  - destruct r; cbn in H; try (by apply elem_of_nil in H). by apply list_elem_of_singleton in H.
  - rewrite Hsh. eapply look_over; [done|]. destruct e as [|[]]; cbn in H; [by apply elem_of_nil in H|done|].
    by apply list_elem_of_singleton in H.
  - destruct r; cbn in H; try (by apply elem_of_nil in H). by apply list_elem_of_singleton in H.
  - destruct (ok' && wok'); by apply elem_of_nil in H.
Qed.

Record told (s : ServiceState) (es : list ServiceEvent) : Prop := {
  td_ok : service_ok s;
  td_main : main_tells s es;
  td_accept : accepts_over es = accept_result (tcp_phase s);
  td_stopped : ended_stopped s es
}.

Lemma service_run_told b es s : service_run b es s -> told s es.
Proof.
  induction 1 as [|es e s s' _ [Hok Hm Ha Hst] Hs].
  - split; [apply service_start_ok|done|done|]. by intros ?%elem_of_nil.
  - split; eauto using server_step_ok, main_tells_step, accept_tells_step, ended_stopped_step.
Qed.

(** ** Properties *)

Lemma told_lines s es : told s es -> log_at (main_phase s) (lines es).
Proof.
  intros [_ Hm _ _]. unfold main_tells in Hm. destruct (main_phase s) as [| | | | | | | |ok]; try by destruct Hm.
  destruct Hm as [_ -> Hl|ok0 wok ok' wok' _ _ _ _ -> ->].
  - apply elem_of_cons in Hl as [-> | ->%list_elem_of_singleton]; [by left|by right; left].
  - destruct (ok' && wok'); rewrite ?andb_true_r, ?andb_false_r; [|by right; left].
    destruct (ok0 && wok); [done|]. by right; right; left.
Qed.

(** The result of [Server::run], by those of its parts. *)
Lemma told_result s es ok :
  told s es -> main_phase s = Exit ok ->
  (ok = true <-> intakes es = [true] /\ accepts_over es = [true] /\ joins es = [tt]
     /\ control (udp_pool s) = Returned true /\ control (tcp_pool s) = Returned true).
Proof.
  intros [Hok Hm Ha _] He. unfold main_tells in Hm. rewrite He in Hm.
  destruct Hm as [Hj -> _|ok0 wok ok' wok' Hj Hi Hc Hq _ ->].
  - split; [done|]. rewrite Hj. by intros (_ & _ & ? & _).
  - rewrite Hi, Hj, Hc, Ha, Hq, (al_gone _ (sk_almost _ Hok) _ _ Hq). cbn. split.
    + by intros [[-> ->]%andb_true_iff [-> ->]%andb_true_iff]%andb_true_iff.
    + by intros ([= ->] & [= ->] & _ & [= ->] & [= ->]).
Qed.

Lemma told_complete s es :
  told s es -> ShutdownComplete ∈ lines es <-> joins es = [tt] /\ tcp_phase s = Gone true true.
Proof.
  intros [Hok Hm Ha _]. unfold main_tells in Hm.
  assert (joins es = [] -> ShutdownComplete ∉ lines es ->
    ShutdownComplete ∈ lines es <-> joins es = [tt] /\ tcp_phase s = Gone true true) as Hno.
  { intros -> Hl. split; [done|]. by intros [? _]. }
  destruct (main_phase s) as [| | | | | | | |ok];
    try (destruct Hm as (Hl & _ & Hj); apply Hno; [done|]; cbn in Hl; rewrite Hl, ?elem_of_cons, elem_of_nil; naive_solver).
  destruct Hm as [Hj _ Hl|ok0 wok ok' wok' Hj _ _ Hq -> _].
  - apply Hno; [done|]. apply elem_of_cons in Hl as [-> | ->%list_elem_of_singleton];
      rewrite ?elem_of_cons, elem_of_nil; naive_solver.
  - rewrite Hj, Hq. destruct ok', wok'; cbn; rewrite ?elem_of_cons, elem_of_nil; naive_solver.
Qed.

(** C33: [Server::run] ends well exactly when the whole service has ended well, and
    its log says no more than what is so.  In every run: the stop flag is one flag
    for both pools, it is up once either listener has ended, and neither ends well
    before.  When [run] returns, it returns [Ok] exactly if [receive_udp] and
    [accept_tcp] have each returned [Ok], the TCP thread was joined, and both pools'
    [shutdown] returned [Ok]; and then both pools are shut down with every worker
    finished, no queue keeps a job, and from there neither pool accepts or starts
    one.  The lines logged are those that belong to where the main thread is, in the
    order of its life; the last is there exactly if the TCP thread was joined with
    its listener and its pool having ended well. *)
Theorem service_run_tells (b : bool) (es : list ServiceEvent) (s : ServiceState) :
  service_run b es s ->
  stop (shared (udp_pool s)) = stop (shared (tcp_pool s))
  /\ (stopping_main (main_phase s) \/ stopping_tcp (tcp_phase s) -> stop (shared (udp_pool s)) = true)
  /\ (IntakeOver true ∈ es \/ AcceptOver true ∈ es -> stop (shared (udp_pool s)) = true)
  /\ (forall ok, main_phase s = Exit ok ->
       (ok = true <-> intakes es = [true] /\ accepts_over es = [true] /\ joins es = [tt]
          /\ control (udp_pool s) = Returned true /\ control (tcp_pool s) = Returned true))
  /\ (main_phase s = Exit true ->
       tcp_phase s = Gone true true
       /\ shut_down UDP_WORKERS UDP_QUEUE (udp_pool s) /\ shut_down TCP_WORKERS TCP_QUEUE (tcp_pool s)
       /\ (forall tr u, run (udp_pool s) tr u -> accepted tr = [] /\ started tr = [])
       /\ (forall tr t, run (tcp_pool s) tr t -> accepted tr = [] /\ started tr = []))
  /\ log_at (main_phase s) (lines es)
  /\ (ShutdownComplete ∈ lines es <-> joins es = [tt] /\ tcp_phase s = Gone true true).
Proof.
  intros Ht%service_run_told. pose proof Ht as [Hok _ _ Hst]. split_and!.
  - apply Hok.
  - intros H. apply stopping_up; [done|]. tauto.
  - intros H. apply Hst, elem_of_app. by destruct H as [H|H]; [left|right]; apply list_elem_of_bind; eexists; (split; [|exact H]); left.
  - intros ok He. by apply told_result.
  - intros He. pose proof (proj1 (told_result _ _ _ Ht He) eq_refl) as (_ & _ & Hj & Hu & Hc).
    assert (tcp_phase s = Gone true true) as Hq.
    { apply (told_complete _ _ Ht). pose proof (told_lines _ _ Ht) as Hl. rewrite He in Hl. cbn in Hl. rewrite Hl.
      by do 2 right; left. }
    pose proof (sk_almost _ Hok) as [[tru Hpu] [trt Hpt] _ _ _ _ _ _].
    pose proof (shutdown_ok _ _ _ _ Hpu Hu) as Hdu. pose proof (shutdown_ok _ _ _ _ Hpt Hc) as Hdt.
    split_and!; [done..| |]; intros tr st' Hrun.
    + by destruct (run_stopped _ _ _ Hrun (sd_stop _ _ _ Hdu)) as (_ & ? & ? & _).
    + by destruct (run_stopped _ _ _ Hrun (sd_stop _ _ _ Hdt)) as (_ & ? & ? & _).
  - by apply told_lines.
  - by apply told_complete.
Qed.

Lemma service_run_tells_witness :
  service_run false (fst (after calm_day)) (snd (after calm_day))
  /\ main_phase (snd (after calm_day)) = Exit true
  /\ fst (after calm_day)
     = [Said Listening; IntakeOver true; Said ShuttingDown; AcceptOver true; Joined; Said ShutdownComplete]
  /\ tcp_phase (snd (after calm_day)) = Gone true true.
Proof.
  assert (service_run false (fst (after calm_day)) (snd (after calm_day))) as Hr
    by (apply after_run; vm_compute; by eexists).
  assert (main_phase (snd (after calm_day)) = Exit true) as He by (vm_compute; reflexivity).
  split; [exact Hr|]. split; [exact He|]. split; [vm_compute; reflexivity|].
  exact (proj1 (proj1 (proj2 (proj2 (proj2 (proj2 (service_run_tells false _ _ Hr))))) He)).
Defined.

(** A failed intake is the service's failure, however well the rest ends. *)
Definition failing_day : list Turning :=
  started_day ++ [IntakeReturns Failed; IntakeStops; Wakes true; AcceptReturns Item 0; AcceptLooks; AcceptStops]
  ++ udp_ends ++ tcp_ends ++ [Join].

Example failed_intake_fails :
  main_phase (snd (after failing_day)) = Exit false
  /\ fst (after failing_day)
     = [Said Listening; IntakeOver false; Said ShuttingDown; AcceptOver true; Joined; Said ShutdownComplete].
Proof. by vm_compute. Qed.
