(* ===== verification/Shutdown.v ===== *)
(** * The end of the service

    [Server::run] of [src/src/server.rs] once the stop flag is up: the threads of
    [Lifecycle] make a bounded number of further moves; the main thread and the
    workers are never stuck before their end; the TCP thread is stuck only in
    [accept], with no connection waiting, and the wake connection of the main thread
    takes it out of there.  So the main thread returns, whatever the schedule, and
    the TCP thread ends unless the wake connection failed. *)

From stdpp Require Import relations.
From S2P Require Import Prelude Types Net Transport Pool Server Lifecycle.

(** ** Moves of a pool *)

(** How the owner of a pool goes on. *)
Definition follows (c c' : Control) : Prop :=
  c' = c
  \/ match c with
     | Starting _ => match c' with Returned _ => False | _ => True end
     | Serving => c' = Collecting
     | Collecting => exists ok, c' = Returned ok
     | Returned _ => False
     end.

Section pool.
Context {T : Type} (count cap : nat).
Implicit Types u : PoolState (T := T).

(** Where the threads of a pool are; the queue, the flags and the completion
    channel are not threads. *)
Definition pool_view u : list Phase * nat * Control := (workers u, pending u, control u).

(** What the owner of a pool has left to do in it. *)
Definition control_rank (n : nat) (c : Control) : nat :=
  match c with
  | Starting k => n + 2 * k + 4
  | Serving => n + 3
  | Collecting => n + 2
  | Returned _ => 0
  end.
Definition pool_work u : nat := pool_rank u + control_rank (pending u) (control u).

(** A step while the flag is up moves no thread, or leaves less work. *)
Lemma step_work u l u' :
  step u l u' -> stop (shared u) = true ->
  pool_view u' = pool_view u \/ pool_work u' < pool_work u.
Proof.
  intros Hstep Hs.
  destruct Hstep as [sh ws n k|sh ws n k|sh ws n|job ok sh sh' ws n c H|i p p' l sh sh' ws n c Hi Hw
    |sh ws n c|sh ws n c|sh ws n|sh k ws n Hk|sh ws n|sh ws|sh ws n c];
    unfold pool_view, pool_work, pool_rank; cbn [shared workers pending control to_start control_rank] in *;
    try (by left); try (right; lia); right.
  - unfold ranks. rewrite fmap_app, sum_list_with_app. cbn. unfold id. lia.
  - destruct (worker_step_stopped _ _ _ _ _ _ Hw Hs) as (_ & _ & _ & ? & _).
    pose proof (ranks_insert ws i p p' Hi). lia.
Qed.

(** The workers that the owner waits for are no more than were asked for. *)
Definition awaited u : nat := pending u + to_start (control u).

Lemma step_awaited u l u' : step u l u' -> awaited u' <= awaited u.
Proof.
  destruct 1; unfold awaited; cbn [pending control to_start]; lia.
Qed.

Lemma pool_work_le u :
  threads u <= count -> awaited u <= count -> pool_work u <= 6 * count + 4.
Proof.
  unfold pool_work, awaited. pose proof (pool_rank_le u). intros ? ?.
  assert (to_start (control u) <= count) by (unfold threads in *; lia).
  destruct (control u); cbn [control_rank to_start] in *; lia.
Qed.

Lemma step_control u l u' : step u l u' -> follows (control u) (control u').
Proof. unfold follows. destruct 1; cbn [control]; eauto. Qed.

(** The owner is inside [new] or [shutdown]. *)
Definition starting_up (c : Control) : Prop := match c with Starting _ | Collecting => True | _ => False end.
Definition shutting_down (c : Control) : Prop := match c with Serving | Collecting => True | _ => False end.

(** There it is never stuck. *)
Lemma owner_progress u :
  starting_up (control u) \/ shutting_down (control u) ->
  exists u', step u Other u' /\ pool_view u' <> pool_view u.
Proof.
  destruct u as [sh ws n c]. unfold pool_view. cbn [workers pending control]. intros Hc.
  assert (forall ws' n' c', (n', c') <> (n, c) -> (ws', n', c') <> (ws, n, c)) as Hne by congruence.
  destruct c as [[|k]| | |ok]; [| | | |by destruct Hc].
  - eexists. split; [apply s_started|]. by apply Hne.
  - eexists. split; [apply s_spawn|]. apply Hne. intros [= ?]. lia.
  - eexists. split; [apply s_shutdown|]. by apply Hne.
  - destruct n as [|n]; eexists; (split; [first [apply s_return|apply s_timeout]|]); by apply Hne.
Qed.

Lemma view_moves u l u' i p :
  workers u !! i = Some p -> step u l u' -> stop (shared u) = true -> is_turn l = 1 ->
  pool_view u' <> pool_view u.
Proof.
  intros Hi Hstep Hs Ht Hv. destruct (step_stopped _ _ _ Hstep Hs) as (_ & _ & _ & Hr).
  unfold pool_view in Hv. unfold pool_rank in Hr. simplify_eq. rewrite Ht in Hr.
  replace (workers u') with (workers u) in Hr by congruence.
  replace (control u') with (control u) in Hr by congruence. lia.
Qed.
End pool.

(** ** Moves of the service *)

Definition service_view (s : ServiceState) :=
  (pool_view (udp_pool s), pool_view (tcp_pool s), main_phase s, tcp_phase s).

Definition loop_rank (l : Looping) : nat := match l with InCall | Handing => 2 | AtHead | Taken => 1 end.
Definition main_rank (p : MainPhase) : nat :=
  match p with
  | StartUdp => 9 | StartTcp => 8 | StartListener => 7 | Intake l => 4 + loop_rank l | IntakeEnded _ => 4
  | Waking _ => 3 | ShutUdp _ => 2 | AwaitTcp _ _ => 1 | Exit _ => 0
  end.
Definition tcp_rank (q : TcpPhase) : nat :=
  match q with Absent => 4 | Accepting l => 2 + loop_rank l | AcceptEnded _ => 2 | ShutTcp _ => 1 | Gone _ _ => 0 end.

(** What all threads together have left to do. *)
Definition service_work (s : ServiceState) : nat :=
  pool_work (udp_pool s) + pool_work (tcp_pool s) + main_rank (main_phase s) + tcp_rank (tcp_phase s).

Lemma work_of_view {T} (u u' : PoolState (T := T)) : pool_view u' = pool_view u -> pool_work u' = pool_work u.
Proof. unfold pool_view, pool_work, pool_rank. by intros [= -> -> ->]. Qed.

Lemma stop_pool_work {T} (u : PoolState (T := T)) : pool_work (stop_pool u) = pool_work u.
Proof. done. Qed.

Lemma share_stop_fields s :
  pool_view (udp_pool (share_stop s)) = pool_view (udp_pool s)
  /\ pool_view (tcp_pool (share_stop s)) = pool_view (tcp_pool s)
  /\ main_phase (share_stop s) = main_phase s /\ tcp_phase (share_stop s) = tcp_phase s.
Proof. unfold share_stop. by destruct (_ || _). Qed.

Lemma share_stop_view s : service_view (share_stop s) = service_view s.
Proof. unfold service_view. by destruct (share_stop_fields s) as (-> & -> & -> & ->). Qed.

Lemma share_stop_work s : service_work (share_stop s) = service_work s.
Proof.
  unfold service_work. destruct (share_stop_fields s) as (Hu & Ht & -> & ->).
  by rewrite (work_of_view _ _ Hu), (work_of_view _ _ Ht).
Qed.

Lemma main_next_rank p u t : main_next p u t = p \/ main_rank (main_next p u t) < main_rank p.
Proof. destruct p, u, t; cbn; auto with lia. Qed.
Lemma tcp_next_rank q t : tcp_next q t = q \/ tcp_rank (tcp_next q t) < tcp_rank q.
Proof. destruct q, t; cbn; auto with lia. Qed.

(** With the flag up a loop only comes nearer to its end. *)
Lemma look_rank l e : look true l = Some e -> exists ok, e = Over ok.
Proof. destruct l; intros [= <-]; eauto. Qed.
Lemma returns_rank r : match call_returns r with On l => loop_rank l < loop_rank InCall | Over _ => True end.
Proof. destruct r; cbn; lia. Qed.

Lemma submit_view {T} (u u' : PoolState (T := T)) job ok : step u (Submit job ok) u' -> pool_view u' = pool_view u.
Proof.
  intros H. inversion H; [done|]. match goal with Hw : worker_step _ _ _ (Submit _ _) _ _ |- _ => inversion Hw end.
  - by destruct o as [[]|].
  - by destruct o as [[]|].
  - by destruct (stop _).
Qed.

(** A step while the flag is up moves no thread, or leaves less work. *)
Lemma server_step_work s e s' :
  server_step s e s' -> stop (shared (udp_pool s)) = true -> stop (shared (tcp_pool s)) = true ->
  service_view s' = service_view s \/ service_work s' < service_work s.
Proof.
  intros Hstep Hu Ht. destruct Hstep as [l u Hs _ Hc|l u Hs _ Hc|l u Ho Hs _|l u Ho Hs _|Hm|Hm Hq|l e Hm He|r Hm
    |job ok u Hm Hs|l e Hq He|r n Hq Hn|job ok u Hq Hs| |ok Hm|ok Hq|ok made Hm|ok wok ok' wok' Hm Hq|ok wok Hm Hq];
    rewrite ?share_stop_view, ?share_stop_work;
    try (right; unfold service_work, raise_both, main_to, accept_to; cbn [udp_pool tcp_pool main_phase tcp_phase];
         rewrite ?Hm, ?Hq, ?stop_pool_work; cbn [main_rank tcp_rank loop_rank]; lia).
  all: unfold service_view, service_work; cbn [udp_pool tcp_pool main_phase tcp_phase main_to accept_to udp_to tcp_to waiting_to].
  - destruct (step_work _ _ _ Hs Hu) as [->|?]; [by left|right; lia].
  - destruct (step_work _ _ _ Hs Ht) as [->|?]; [by left|right; lia].
  - destruct (step_work _ _ _ Hs Hu) as [Hv|?], (main_next_rank (main_phase s) (control u) (control (tcp_pool s)))
      as [Hm|?]; try (rewrite (work_of_view _ _ Hv)); try (right; lia); [by rewrite Hv, Hm; left|].
    right. rewrite Hm. lia.
  - destruct (step_work _ _ _ Hs Ht) as [Hv|?], (main_next_rank (main_phase s) (control (udp_pool s)) (control u))
      as [Hm|?], (tcp_next_rank (tcp_phase s) (control u)) as [Hq|?];
      try (rewrite (work_of_view _ _ Hv)); rewrite ?Hm, ?Hq; try (right; lia). rewrite Hv. by left.
  - right. rewrite Hu in He. destruct (look_rank _ _ He) as [ok ->]. rewrite Hm. destruct l; cbn; lia.
  - right. pose proof (returns_rank r). rewrite Hm. destruct (call_returns r); cbn in *; lia.
  - right. rewrite Hm, (work_of_view _ _ (submit_view _ _ _ _ Hs)). cbn. lia.
  - right. rewrite Ht in He. destruct (look_rank _ _ He) as [ok ->]. rewrite Hq. destruct l; cbn; lia.
  - right. pose proof (returns_rank r). rewrite Hq. destruct (call_returns r); cbn in *; lia.
  - right. rewrite Hq, (work_of_view _ _ (submit_view _ _ _ _ Hs)). cbn. lia.
  - by left.
Qed.

(** ** Where the owners of the pools are *)

(** The UDP pool, by the phase of the main thread; the TCP pool, by that of the
    main thread until the TCP thread owns it. *)
Definition udp_control (p : MainPhase) (c : Control) : Prop :=
  match p with
  | StartUdp => starting_up c
  | StartTcp | StartListener | Intake _ | IntakeEnded _ | Waking _ => c = Serving
  | ShutUdp _ => shutting_down c
  | AwaitTcp _ ok => c = Returned ok
  | Exit _ => True
  end.
Definition tcp_control (p : MainPhase) (q : TcpPhase) (c : Control) : Prop :=
  match q with
  | Absent =>
    match p with
    | StartUdp | StartTcp => starting_up c
    | StartListener => c = Serving
    | Exit _ => True
    | _ => False
    end
  | Accepting _ | AcceptEnded _ => c = Serving
  | ShutTcp _ => shutting_down c
  | Gone _ ok => c = Returned ok
  end.

Record places_ok (s : ServiceState) : Prop := {
  pc_udp : udp_control (main_phase s) (control (udp_pool s));
  pc_tcp : tcp_control (main_phase s) (tcp_phase s) (control (tcp_pool s));
  pc_early : early (main_phase s) -> tcp_phase s = Absent;
  pc_udp_awaited : awaited (udp_pool s) <= UDP_WORKERS;
  pc_tcp_awaited : awaited (tcp_pool s) <= TCP_WORKERS
}.

Lemma share_stop_places s : places_ok s -> places_ok (share_stop s).
Proof. unfold share_stop. destruct (_ || _); [|done]. intros []. by split. Qed.

Lemma follows_cases (c c' : Control) :
  follows c c' ->
  match c with
  | Starting _ => match c' with Returned _ => False | _ => True end
  | Serving => match c' with Serving | Collecting => True | _ => False end
  | Collecting => match c' with Collecting | Returned _ => True | _ => False end
  | Returned ok => c' = Returned ok
  end.
Proof. intros [->|H]; destruct c; try done; cbn in H; [by subst|by destruct H as [? ->]]. Qed.

Lemma udp_next p c c' t q :
  udp_control p c -> tcp_control p q t -> owns_udp p -> follows c c' ->
  udp_control (main_next p c' t) c' /\ tcp_control (main_next p c' t) q t.
Proof.
  destruct p; cbn [owns_udp]; try done; intros Hc Ht _ Hn%follows_cases;
    destruct c, c'; cbn in *; try done; split; try done; by destruct q, t.
Qed.

Lemma tcp_next_ok p u c c' q :
  udp_control p u -> tcp_control p q c -> (early p -> q = Absent) -> owns_tcp p q -> follows c c' ->
  udp_control (main_next p u c') u /\ tcp_control (main_next p u c') (tcp_next q c') c'.
Proof.
  intros Hu Hc He [->|Ho] Hn%follows_cases.
  - rewrite He in * by done. cbn in Hu. subst u. by destruct c, c'.
  - destruct q; try done. cbn in Hc.
    assert (main_next p u c' = p) as ->.
    { destruct p, u; try done; by specialize (He I). }
    split; [done|]. by destruct c, c'.
Qed.

Lemma server_step_places s e s' : places_ok s -> server_step s e s' -> places_ok s'.
Proof.
  intros Hok Hstep. pose proof Hok as [Hu Ht He Hua Hta].
  destruct Hstep as [l u Hs _ Hc|l u Hs _ Hc|l u Ho Hs _|l u Ho Hs _|Hm|Hm Hq|l e Hm Hl|r Hm
    |job ok u Hm Hs|l e Hq Hl|r n Hq Hn|job ok u Hq Hs| |ok Hm|ok Hq|ok made Hm|ok wok ok' wok' Hm Hq|ok wok Hm Hq];
    try apply share_stop_places; try (pose proof (step_awaited _ _ _ Hs)); try rewrite Hm in *; try rewrite Hq in *.
  - split; cbn; rewrite ?Hc; auto; lia.
  - split; cbn; rewrite ?Hc; auto; lia.
  - destruct (udp_next _ _ _ _ _ Hu Ht Ho (step_control _ _ _ Hs)).
    split; cbn [udp_pool tcp_pool main_phase tcp_phase main_to udp_to]; auto; [|lia].
    intros Hp. apply He. destruct (main_phase s); try done. by destruct (control u).
  - destruct (tcp_next_ok _ _ _ _ _ Hu Ht He Ho (step_control _ _ _ Hs)).
    split; cbn [udp_pool tcp_pool main_phase tcp_phase main_to tcp_to accept_to]; auto; [|lia].
    intros Hp. rewrite He; [done|]. by destruct (main_phase s), (control (udp_pool s)), (control u).
  - split; cbn in *; auto; try done; by destruct (tcp_phase s).
  - split; cbn in *; rewrite ?Hq; auto; done.
  - split; cbn in *; auto; destruct e; try done; by destruct (tcp_phase s).
  - split; cbn in *; auto; destruct (call_returns r); try done; by destruct (tcp_phase s).
  - split; cbn in *; rewrite ?(submit_control _ _ _ _ Hs); auto; try lia; by destruct (tcp_phase s).
  - split; cbn in *; auto; destruct e; try done; intros Hp; by specialize (He Hp).
  - split; cbn in *; auto; destruct (call_returns r); try done; intros Hp; by specialize (He Hp).
  - split; cbn in *; rewrite ?(submit_control _ _ _ _ Hs); auto; try lia; intros Hp; by specialize (He Hp).
  - by split.
  - split; cbn in *; auto; try done; by destruct (tcp_phase s).
  - split; cbn in *; auto; [by rewrite Ht|]. intros Hp; by specialize (He Hp).
  - split; cbn in *; auto; try done; try (by rewrite Hu); by destruct (tcp_phase s).
  - split; cbn in *; rewrite ?Hq; auto; done.
  - split; cbn in *; auto; try done; by destruct (tcp_phase s).
Qed.

Lemma service_start_places b : places_ok (service_start b).
Proof. by split. Qed.

Lemma reachable_places b s : reachable b s -> places_ok s.
Proof. intros [es Hs]. induction Hs; eauto using service_start_places, server_step_places. Qed.

(** ** Who can move *)

(** A step of the main thread: to another phase, or inside the pool it is in
    [new] or [shutdown] of. *)
Definition main_moves (s s' : ServiceState) : Prop :=
  (exists e, server_step s e s')
  /\ (main_phase s' <> main_phase s
      \/ owns_udp (main_phase s) /\ pool_view (udp_pool s') <> pool_view (udp_pool s)
      \/ main_phase s = StartTcp /\ pool_view (tcp_pool s') <> pool_view (tcp_pool s)).

(** The TCP thread is in [accept] and no connection waits: only an error of the
    listening socket could take it out. *)
Definition blocked (s : ServiceState) : Prop := tcp_phase s = Accepting InCall /\ backlog s = 0.

(** A step of the TCP thread that does not need such an error. *)
Definition tcp_moves (s s' : ServiceState) : Prop :=
  (exists e, server_step s e s') /\ ~ blocked s
  /\ (tcp_phase s' <> tcp_phase s
      \/ (exists ok, tcp_phase s = ShutTcp ok) /\ pool_view (tcp_pool s') <> pool_view (tcp_pool s)).

(** The connection that would wake it failed, or is still to be made. *)
Definition unwoken (s : ServiceState) : Prop :=
  woken s = Some false \/ woken s = None /\ forall ok, main_phase s <> Exit ok.

Lemma udp_owner_moves s :
  owns_udp (main_phase s) -> starting_up (control (udp_pool s)) \/ shutting_down (control (udp_pool s)) ->
  exists e s', server_step s e s' /\ pool_view (udp_pool s') <> pool_view (udp_pool s).
Proof.
  intros Ho (u & Hs & Hv)%owner_progress. do 2 eexists. split; [by eapply sv_udp_owner|].
  by rewrite (proj1 (share_stop_fields _)).
Qed.

Lemma tcp_owner_moves s :
  owns_tcp (main_phase s) (tcp_phase s) ->
  starting_up (control (tcp_pool s)) \/ shutting_down (control (tcp_pool s)) ->
  exists e s', server_step s e s' /\ pool_view (tcp_pool s') <> pool_view (tcp_pool s).
Proof.
  intros Ho (t & Hs & Hv)%owner_progress. do 2 eexists. split; [by eapply sv_tcp_owner|].
  by rewrite (proj1 (proj2 (share_stop_fields _))).
Qed.

Lemma submit_step {T} (u : PoolState (T := T)) job : exists ok u', step u (Submit job ok) u'.
Proof. destruct u as [sh ws n c], (submit job sh) as [ok sh'] eqn:E. do 2 eexists. by apply s_submit. Qed.

Definition any_datagram : Datagram := MkDatagram [] (SocketV6 [] 0 0 0) (MkDeadline 0).
Definition any_connection : Connection := MkConnection 0 (MkDeadline 0).

Lemma main_progress s :
  places_ok s -> stop (shared (udp_pool s)) = true -> (forall ok, main_phase s <> Exit ok) ->
  exists s', main_moves s s'.
Proof.
  intros [Hu Ht He _ _] Hs Hexit. unfold main_moves.
  destruct (main_phase s) as [| | |l|ok|ok|ok|ok wok|ok] eqn:Hm; cbn in Hu.
  - destruct (udp_owner_moves s) as (e & s' & ? & ?); rewrite ?Hm; cbn; eauto 10.
  - rewrite He in Ht by done. cbn in Ht.
    destruct (tcp_owner_moves s) as (e & s' & ? & ?); rewrite ?Hm; [by left|by left|eauto 10].
  - eexists. split; [eexists; by apply sv_start_failed|by left].
  - destruct l.
    + eexists. split; [eexists; eapply sv_intake_looks; [done|by rewrite Hs]|by left].
    + eexists. split; [eexists; by apply (sv_intake_returns _ Retry)|by left].
    + eexists. split; [eexists; eapply sv_intake_looks; [done|by rewrite Hs]|by left].
    + destruct (submit_step (udp_pool s) any_datagram) as (ok & u & Hsub).
      eexists. split; [eexists; by eapply sv_intake_submits|]. left.
      by rewrite (proj1 (proj2 (proj2 (share_stop_fields _)))).
  - eexists. split; [eexists; by apply sv_intake_stops|by left].
  - eexists. split; [eexists; by apply (sv_wake _ ok true)|by left].
  - destruct (udp_owner_moves s) as (e & s' & ? & ?); rewrite ?Hm; cbn; eauto 10.
  - destruct (tcp_phase s) eqn:Hq;
      try (eexists; split; [eexists; eapply sv_late; [done|]; by rewrite Hq|by left]).
    eexists. split; [eexists; by eapply sv_joined|by left].
  - by destruct (Hexit ok).
Qed.

Lemma blocked_dec s : blocked s \/ ~ blocked s.
Proof. unfold blocked. destruct (tcp_phase s) as [|[]| | |], (backlog s); try (by left); by right; intros []. Qed.

Lemma blocked_unwoken s : service_ok s -> blocked s -> unwoken s.
Proof.
  intros [[_ _ _ _ _ _ Hw Hb] _] [Hq Hn]. unfold unwoken. rewrite Hq in Hw.
  destruct (woken s) as [[]|] eqn:Hwok; [by destruct (Hb eq_refl Hq)|by left|]. right. split; [done|].
  intros ok Hm. rewrite Hm in Hw. by apply Hw.
Qed.

Lemma tcp_progress s :
  places_ok s -> stop (shared (tcp_pool s)) = true -> tcp_phase s <> Absent ->
  (forall ok wok, tcp_phase s <> Gone ok wok) -> ~ blocked s -> exists s', tcp_moves s s'.
Proof.
  intros [_ Ht _ _ _] Hs Ha Hgone Hb. unfold tcp_moves.
  destruct (tcp_phase s) as [|l|ok|ok|ok wok] eqn:Hq; cbn in Ht.
  - done.
  - destruct l.
    + eexists. split_and!; [eexists; eapply sv_accept_looks; [done|by rewrite Hs]|done|by left].
    + destruct (backlog s) as [|n] eqn:Hn; [by destruct Hb|].
      eexists. split_and!; [eexists; by eapply (sv_accept_returns _ Item n)|done|by left].
    + eexists. split_and!; [eexists; eapply sv_accept_looks; [done|by rewrite Hs]|done|by left].
    + destruct (submit_step (tcp_pool s) any_connection) as (ok & u & Hsub).
      eexists. split_and!; [eexists; by eapply sv_accept_submits|done|]. left.
      by rewrite (proj2 (proj2 (proj2 (share_stop_fields _)))).
  - eexists. split_and!; [eexists; by apply sv_accept_stops|done|by left].
  - destruct (tcp_owner_moves s) as (e & s' & ? & ?); rewrite ?Hq; [by right|by right|]. exists s'. split_and!; eauto.
  - by destruct (Hgone ok wok).
Qed.

Lemma worker_not_submit {T} i p sh l p' sh' : worker_step (T := T) i p sh l p' sh' -> is_submit l = false.
Proof. destruct 1; try done; [by destruct o as [[]|]|by destruct o as [[]|]|by destruct (stop sh)]. Qed.

Lemma pool_worker_progress {T} (u : PoolState (T := T)) i p :
  stop (shared u) = true -> workers u !! i = Some p -> p <> Done ->
  exists l u', step u l u' /\ is_submit l = false /\ control u' = control u /\ pool_view u' <> pool_view u.
Proof.
  intros Hs Hi Hp. destruct u as [sh ws n c]. destruct (worker_progress i p sh Hp) as (l & p' & sh' & Hw & Hl).
  exists l, (MkPool sh' (<[i := p']> ws) n c). split_and!; [by eapply s_worker|by eapply worker_not_submit|done|].
  eapply (view_moves (MkPool sh ws n c)); [done|by eapply s_worker|done|done].
Qed.

Lemma worker_moves s :
  (forall i p, stop (shared (udp_pool s)) = true -> workers (udp_pool s) !! i = Some p -> p <> Done ->
     exists e s', server_step s e s' /\ pool_view (udp_pool s') <> pool_view (udp_pool s))
  /\ (forall i p, stop (shared (tcp_pool s)) = true -> workers (tcp_pool s) !! i = Some p -> p <> Done ->
     exists e s', server_step s e s' /\ pool_view (tcp_pool s') <> pool_view (tcp_pool s)).
Proof.
  split; intros i p Hs Hi Hp; destruct (pool_worker_progress _ _ _ Hs Hi Hp) as (l & u & Hst & Hl & Hc & Hv).
  - do 2 eexists. split; [by eapply sv_udp|]. by rewrite (proj1 (share_stop_fields _)).
  - do 2 eexists. split; [by eapply sv_tcp|]. by rewrite (proj1 (proj2 (share_stop_fields _))).
Qed.

(** ** Winding down *)

Definition service_steps : ServiceState -> ServiceState -> Prop := rtc (fun s s' => exists e, server_step s e s').

(** A run of steps with the number of those that move a thread. *)
Inductive winds (s : ServiceState) : nat -> ServiceState -> Prop :=
| winds_nil : winds s 0 s
| winds_quiet n s1 e s2 :
    winds s n s1 -> server_step s1 e s2 -> service_view s2 = service_view s1 -> winds s n s2
| winds_move n s1 e s2 :
    winds s n s1 -> server_step s1 e s2 -> service_view s2 <> service_view s1 -> winds s (S n) s2.

Definition UDP_WORK : nat := 6 * UDP_WORKERS + 4.
Definition TCP_WORK : nat := 6 * TCP_WORKERS + 4.
(** The most moves that are left when the flag goes up. *)
Definition WINDING : nat := UDP_WORK + TCP_WORK + 13.

Section winding.
Context (b : bool).

Definition stopping (s : ServiceState) : Prop := reachable b s /\ stop (shared (udp_pool s)) = true.

Lemma stopping_both s : stopping s -> stop (shared (tcp_pool s)) = true.
Proof. intros [Hr <-]. symmetry. apply (sk_shared _ (reachable_ok _ _ Hr)). Qed.

Lemma stopping_step s e s' : stopping s -> server_step s e s' -> stopping s'.
Proof. intros [Hr Hs] Hstep. split; [by eapply reach_step|by eapply server_step_stop]. Qed.

Lemma service_view_eq s s' :
  service_view s' = service_view s ->
  pool_view (udp_pool s') = pool_view (udp_pool s) /\ pool_view (tcp_pool s') = pool_view (tcp_pool s)
  /\ main_phase s' = main_phase s /\ tcp_phase s' = tcp_phase s.
Proof.
  unfold service_view. intros H. split_and!.
  - exact (f_equal (fun v => fst (fst (fst v))) H).
  - exact (f_equal (fun v => snd (fst (fst v))) H).
  - exact (f_equal (fun v => snd (fst v)) H).
  - exact (f_equal snd H).
Qed.

Lemma work_of_same_view s s' : service_view s' = service_view s -> service_work s' = service_work s.
Proof.
  unfold service_work. intros (Hu & Ht & -> & ->)%service_view_eq.
  by rewrite (work_of_view _ _ Hu), (work_of_view _ _ Ht).
Qed.

Lemma stopping_work s e s' :
  stopping s -> server_step s e s' -> service_view s' = service_view s \/ service_work s' < service_work s.
Proof. intros Hs Hstep. eapply server_step_work; [done|by destruct Hs|by apply stopping_both]. Qed.

Lemma winds_bound s n s' : stopping s -> winds s n s' -> stopping s' /\ n + service_work s' <= service_work s.
Proof.
  intros Hs. induction 1 as [|n s1 e s2 _ [Hs1 IH] Hstep Hv|n s1 e s2 _ [Hs1 IH] Hstep Hv]; [done| |].
  - split; [by eapply stopping_step|]. by rewrite (work_of_same_view _ _ Hv).
  - split; [by eapply stopping_step|]. destruct (stopping_work _ _ _ Hs1 Hstep) as [?|?]; [done|lia].
Qed.

Lemma service_work_le s : stopping s -> service_work s <= WINDING.
Proof.
  intros [Hr _]. pose proof (sk_almost _ (reachable_ok _ _ Hr)) as [[tru Hu] [trt Ht] _ _ _ _ _ _].
  destruct (reachable_places _ _ Hr) as [_ _ _ Hua Hta].
  pose proof (pool_work_le UDP_WORKERS _ (po_workers _ _ _ _ Hu) Hua).
  pose proof (pool_work_le TCP_WORKERS _ (po_workers _ _ _ _ Ht) Hta).
  assert (main_rank (main_phase s) <= 9) by (destruct (main_phase s) as [| | |[]| | | | |]; cbn; lia).
  assert (tcp_rank (tcp_phase s) <= 4) by (destruct (tcp_phase s) as [|[]| | |]; cbn; lia).
  unfold service_work, WINDING, UDP_WORK, TCP_WORK. lia.
Qed.

(** Every run is one of [winds]. *)
Lemma stopping_winds s s' : stopping s -> service_steps s s' -> exists n, winds s n s'.
Proof.
  intros Hs. apply (rtc_ind_r (fun s' => exists n, winds s n s')); [by eexists; constructor|].
  intros s1 s2 _ [e Hstep] [n Hn]. destruct (winds_bound _ _ _ Hs Hn) as [Hs1 _].
  destruct (stopping_work _ _ _ Hs1 Hstep) as [Hv|Hlt]; [exists n; by eapply winds_quiet|].
  exists (S n). eapply winds_move; [done|done|]. intros Hv%work_of_same_view. lia.
Qed.

Lemma main_moves_view s s' : main_moves s s' -> service_view s' <> service_view s.
Proof. intros [_ H] (Hu & Ht & Hm & Hq)%service_view_eq. by destruct H as [H|[[_ H]|[_ H]]]. Qed.

Lemma exit_cases s : (exists ok, main_phase s = Exit ok) \/ (forall ok, main_phase s <> Exit ok).
Proof. destruct (main_phase s); eauto; by right. Qed.

(** The main thread can always be taken to its end. *)
Lemma stopping_exits s k : stopping s -> forall n s1,
  winds s n s1 -> service_work s1 < k -> exists n' s' ok, winds s n' s' /\ main_phase s' = Exit ok.
Proof.
  intros Hs. induction k as [|k IH]; intros n s1 Hn Hk; [lia|].
  destruct (winds_bound _ _ _ Hs Hn) as [Hs1 _].
  destruct (exit_cases s1) as [[ok He]|He]; [by exists n, s1, ok|].
  destruct (main_progress s1) as [s2 Hm]; [by eapply reachable_places, Hs1|by destruct Hs1|done|].
  pose proof (main_moves_view _ _ Hm) as Hv. destruct Hm as [[e Hstep] _].
  destruct (stopping_work _ _ _ Hs1 Hstep) as [?|Hlt]; [done|].
  eapply (IH (S n) s2); [by eapply winds_move|lia].
Qed.
End winding.

(** C34: once the stop flag is up the service ends, whatever the schedule.  From any
    reachable state with the flag up, the threads of the service make at most 165
    more moves in any run, however many signals, drops or connecting clients come
    between.  Until it has returned the main thread can always move, and so can
    every worker until it is done.  The TCP thread, until it has ended, can always
    move too, unless it is in [accept] with no connection waiting; and that is so
    only until the wake connection is made, or when it failed.  The main thread
    returns after some number of moves. *)
Theorem shutdown_terminates (b : bool) (s : ServiceState) :
  reachable b s -> stop (shared (udp_pool s)) = true ->
  (forall s', service_steps s s' -> exists n, winds s n s')
  /\ (forall n s', winds s n s' ->
       n <= 165
       /\ ((forall ok, main_phase s' <> Exit ok) -> exists s'', main_moves s' s'')
       /\ (tcp_phase s' <> Absent -> (forall ok wok, tcp_phase s' <> Gone ok wok) ->
             (exists s'', tcp_moves s' s'') \/ blocked s' /\ unwoken s')
       /\ (forall i p, workers (udp_pool s') !! i = Some p -> p <> Done ->
             exists e s'', server_step s' e s'' /\ pool_view (udp_pool s'') <> pool_view (udp_pool s'))
       /\ (forall i p, workers (tcp_pool s') !! i = Some p -> p <> Done ->
             exists e s'', server_step s' e s'' /\ pool_view (tcp_pool s'') <> pool_view (tcp_pool s')))
  /\ (exists n s' ok, winds s n s' /\ main_phase s' = Exit ok).
Proof.
  intros Hr Hu. assert (stopping b s) as Hs by done. split_and!.
  - intros s'. by apply (stopping_winds b).
  - intros n s' Hn. destruct (winds_bound b _ _ _ Hs Hn) as [Hs' Hle].
    pose proof (service_work_le b s Hs) as Hw. pose proof (stopping_both b _ Hs') as Ht.
    destruct Hs' as [Hr' Hu']. pose proof (reachable_places _ _ Hr') as Hp.
    destruct (worker_moves s') as [Hwu Hwt].
    split_and!; [change WINDING with 165 in Hw; lia|by apply main_progress| |eauto|eauto].
    intros Ha Hg. destruct (blocked_dec s') as [Hb|Hb]; [right|left; by apply tcp_progress].
    eauto using blocked_unwoken, reachable_ok.
  - apply (stopping_exits b s (S (service_work s)) Hs 0 s); [constructor|lia].
Qed.

(** A service stopped in its stride: eight UDP and sixteen TCP workers, both
    listeners in their calls, and the flag raised. *)
Definition stopped_state : ServiceState := snd (after (started_day ++ [UdpMove MStop])).

Lemma shutdown_terminates_witness :
  reachable false stopped_state /\ stop (shared (udp_pool stopped_state)) = true
  /\ main_phase stopped_state = Intake InCall /\ blocked stopped_state
  /\ exists n s' ok, winds stopped_state n s' /\ main_phase s' = Exit ok.
Proof.
  assert (reachable false stopped_state) as Hr.
  { eexists. apply (after_run (started_day ++ [UdpMove MStop])). vm_compute. by eexists. }
  assert (stop (shared (udp_pool stopped_state)) = true) as Hs by (vm_compute; reflexivity).
  split; [exact Hr|]. split; [exact Hs|]. split; [vm_compute; reflexivity|].
  split; [split; vm_compute; reflexivity|].
  exact (proj2 (proj2 (shutdown_terminates false stopped_state Hr Hs))).
Defined.
