(* ===== verification/Logging.v ===== *)
(** * Diagnostics: lines and the rate of warnings

    [src/src/logging.rs], the callers' side: a line cut to its size limit at a
    character boundary, the two bounded lanes to the writer thread, and the
    window that limits routine warnings.  [Logger] is the writer's side. *)

From Stdlib Require Import String.
From S2P Require Import Prelude Types Net Io Transport.

Definition INTERVAL : Z := 5 * SECOND.
Definition BURST : Z := 20.
Definition MAX_LINE : nat := 2048.
(** The capacities given to [sync_channel]. *)
Definition ROUTINE_LANE : nat := 64.
Definition IMPORTANT_LANE : nat := 16.

(** ** Text

    A Rust [String] is the UTF-8 encoding of a sequence of Unicode scalars. *)

Definition scalar (c : Z) : Prop := (0 <= c < 55296 \/ 57344 <= c < 1114112)%Z.

(** [char::encode_utf8]. *)
Definition encode_char (c : Z) : list byte :=
  if (c <? 128)%Z then [z2b c]
  else if (c <? 2048)%Z then [z2b (192 + c / 64); z2b (128 + c mod 64)]
  else if (c <? 65536)%Z then
    [z2b (224 + c / 4096); z2b (128 + (c / 64) mod 64); z2b (128 + c mod 64)]
  else
    [z2b (240 + c / 262144); z2b (128 + (c / 4096) mod 64); z2b (128 + (c / 64) mod 64);
     z2b (128 + c mod 64)].
Definition encode (cs : list Z) : list byte := cs ≫= encode_char.
Definition utf8 (text : list byte) : Prop := exists cs, Forall scalar cs /\ text = encode cs.

(** A byte that continues a character: [(b as i8) < -0x40]. *)
Definition continues (b : byte) : bool := (128 <=? b2z b)%Z && (b2z b <? 192)%Z.

(** [str::is_char_boundary]. *)
Definition is_char_boundary (text : list byte) (i : nat) : bool :=
  if i =? 0 then true
  else
    match text !! i with
    | Some b => negb (continues b)
    | None => i =? length text
    end.

(** The [while] loop of [emit]; the counter of a [usize] cannot go below zero. *)
Fixpoint char_floor {E} (text : list byte) (end_ : nat) : outcome E nat :=
  if is_char_boundary text end_ then Ok end_
  else match end_ with O => Panic | S end_ => char_floor text end_ end.

(** [String::truncate]. *)
Definition truncate {E} (text : list byte) (new_len : nat) : outcome E (list byte) :=
  if new_len <=? length text then
    if is_char_boundary text new_len then Ok (take new_len text) else Panic
  else Ok text.

(** The line [emit] sends, from what the formatting of [level] and message gave. *)
Definition cut_line {E} (line : list byte) : outcome E (list byte) :=
  if MAX_LINE <? length line then
    let* end_ := char_floor line MAX_LINE in truncate line end_
  else Ok line.

(** ** Lanes *)

(** [Output]: what waits in each channel.  A receiver that is gone is no
    different to a caller from a full lane. *)
Record Output := MkOutput { routine : list (list byte); important : list (list byte) }.

(** [SyncSender::try_send]. *)
Definition try_send {T} (capacity : nat) (line : T) (lane : list T) : list T :=
  if length lane <? capacity then lane ++ [line] else lane.

Definition send_line (line : list byte) (is_important : bool) (output : Output) : Output :=
  if is_important then MkOutput (routine output) (try_send IMPORTANT_LANE line (important output))
  else MkOutput (try_send ROUTINE_LANE line (routine output)) (important output).

(** [emit]; [None] before [initialize]. *)
Definition emit {E} (level message : list byte) (is_important : bool) (output : option Output)
    : outcome E (option Output) :=
  match output with
  | None => Ok None
  | Some output =>
    let* line := cut_line (level ++ [x20] ++ message) in
    Ok (Some (send_line line is_important output))
  end.

Definition INFO : list byte := Eval compute in list_byte_of_string "INFO".
Definition ERROR : list byte := Eval compute in list_byte_of_string "ERROR".
Definition WARN : list byte := Eval compute in list_byte_of_string "WARN".
Definition info {E} (message : list byte) := emit (E:=E) INFO message true.
Definition error {E} (message : list byte) := emit (E:=E) ERROR message true.

(** ** The window of routine warnings *)

Record WarningWindow := MkWindow { started_at : Z; emitted : Z; suppressed : Z }.

(** [u64::saturating_add]. *)
Definition saturating_add (a b : Z) : Z := Z.min (a + b) 18446744073709551615.

(** The block under the mutex, with the readings of the clock it may make: at
    the first use, for [elapsed], and for a new window.  The result says whether
    to emit the warning, and how many were suppressed before it. *)
Definition warn_window (first now later : Z) (state : option WarningWindow)
    : bool * Z * WarningWindow :=
  let window := match state with Some w => w | None => MkWindow first 0 0 end in
  let '(window, reported) :=
    if (INTERVAL <=? Z.max 0 (now - started_at window))%Z
    then (MkWindow later 0 0, suppressed window)
    else (window, 0%Z) in
  if (emitted window <? BURST)%Z
  then (true, reported, MkWindow (started_at window) (emitted window + 1) (suppressed window))
  else (false, reported, MkWindow (started_at window) (emitted window) (saturating_add (suppressed window) 1)).

(** The window behind its mutex ([None] when poisoned), and the output. *)
Record LogState := MkLog { window : option (option WarningWindow); output : option Output }.

(** [warn]; [count_text] is the text of a number. *)
Definition warn {E} (count_text : Z -> list byte) (first now later : Z) (message : list byte)
    (st : LogState) : outcome E LogState :=
  match window st with
  | None => Ok st
  | Some state =>
    let '(emit_warning, reported, w) := warn_window first now later state in
    let* out :=
      (if (0 <? reported)%Z
       then emit WARN (list_byte_of_string "suppressed " ++ count_text reported
                       ++ list_byte_of_string " repeated diagnostics") false (output st)
       else Ok (output st)) in
    let* out := (if emit_warning : bool then emit WARN message false out else Ok out) in
    Ok (MkLog (Some (Some w)) out)
  end.

(** ** Cutting a line *)

Lemma continues_spec b : continues b = true <-> (128 <= b2z b < 192)%Z.
Proof. unfold continues. rewrite andb_true_iff, Z.leb_le, Z.ltb_lt. done. Qed.

Lemma continues_z2b z : (128 <= z < 192)%Z -> continues (z2b z) = true.
Proof. intros Hz. apply continues_spec. rewrite b2z_z2b_small; lia. Qed.
Lemma leads_z2b z : (0 <= z < 128 \/ 192 <= z < 256)%Z -> continues (z2b z) = false.
Proof.
  intros Hz. apply not_true_iff_false. rewrite continues_spec, b2z_z2b_small; lia.
Qed.

(** A character is one leading byte and at most three that continue it. *)
Lemma encode_char_shape c :
  scalar c -> exists b bs, encode_char c = b :: bs /\ continues b = false
    /\ Forall (fun b => continues b = true) bs /\ length bs <= 3.
Proof.
  intros Hc. unfold scalar in Hc.
  assert (forall z, (128 <= 128 + z mod 64 < 192)%Z) as Hm by (intros z; pose proof (Z.mod_pos_bound z 64); lia).
  assert (c / 64 < 18000)%Z by (apply Z.div_lt_upper_bound; lia).
  unfold encode_char. repeat case_match; bool_to_prop; do 2 eexists; split_and!; try reflexivity;
    try (repeat constructor; apply continues_z2b, Hm); try (simpl; lia); apply leads_z2b.
  - lia.
  - right. assert (c / 64 < 32)%Z by (apply Z.div_lt_upper_bound; lia).
    assert (0 <= c / 64)%Z by (apply Z.div_pos; lia). lia.
  - right. assert (c / 4096 < 16)%Z by (apply Z.div_lt_upper_bound; lia).
    assert (0 <= c / 4096)%Z by (apply Z.div_pos; lia). lia.
  - right. assert (c / 262144 < 5)%Z by (apply Z.div_lt_upper_bound; lia).
    assert (0 <= c / 262144)%Z by (apply Z.div_pos; lia). lia.
Qed.

Lemma boundary_app b bs rest i :
  length (b :: bs) <= i -> continues b = false ->
  (exists c cs, rest = c :: cs /\ continues c = false) \/ rest = [] ->
  is_char_boundary (b :: bs ++ rest) i = is_char_boundary rest (i - length (b :: bs)).
Proof.
  intros Hi Hb Hr. unfold is_char_boundary. destruct (i =? 0) eqn:Hz; bool_to_prop; [simpl in *; lia|].
  change (b :: bs ++ rest) with ((b :: bs) ++ rest). rewrite lookup_app_r by done.
  destruct (i - length (b :: bs) =? 0) eqn:Hd; bool_to_prop.
  - replace (i - length (b :: bs)) with 0 by lia.
    destruct Hr as [(c & cs & -> & Hc)| ->]; cbn; [by rewrite Hc|].
    apply Nat.eqb_eq. rewrite app_nil_r. simpl in *. lia.
  - destruct (rest !! (i - length (b :: bs))); [done|].
    rewrite length_app. apply Bool.eq_iff_eq_true. rewrite !Nat.eqb_eq. simpl in *. lia.
Qed.

Lemma encode_head cs :
  Forall scalar cs -> (exists c rest, encode cs = c :: rest /\ continues c = false) \/ encode cs = [].
Proof.
  intros [|c cs' Hc _]; [by right|left].
  destruct (encode_char_shape c Hc) as (b & bs & He & Hb & _).
  exists b, (bs ++ encode cs'). unfold encode. by rewrite bind_cons, He.
Qed.

(** A boundary of valid text cuts between two characters. *)
Lemma boundary_cuts cs : Forall scalar cs -> forall i,
  is_char_boundary (encode cs) i = true -> i <= length (encode cs) ->
  exists k, take i (encode cs) = encode (take k cs).
Proof.
  induction 1 as [|c cs Hc Hcs IH]; intros i Hb Hi.
  { exists 0. by destruct i. }
  destruct (encode_char_shape c Hc) as (b & bs & He & Hlead & Hcont & _).
  assert (encode (c :: cs) = b :: bs ++ encode cs) as Hcons by (unfold encode; by rewrite bind_cons, He).
  rewrite Hcons in *. destruct (decide (i < length (b :: bs))) as [Hlt|Hge].
  - destruct i as [|i]; [by exists 0|]. exfalso. unfold is_char_boundary in Hb.
    change ((b :: bs ++ encode cs) !! S i) with ((bs ++ encode cs) !! i) in Hb.
    cbn [Nat.eqb] in Hb. simpl in Hlt. rewrite lookup_app_l in Hb by lia.
    destruct (bs !! i) as [d|] eqn:Hd; [|apply lookup_ge_None in Hd; lia].
    eapply Forall_lookup_1 in Hcont; [|exact Hd]. by rewrite Hcont in Hb.
  - rewrite boundary_app in Hb; [|lia|done|by apply encode_head].
    destruct (IH _ Hb) as (k & Hk). { simpl in *. rewrite length_app in Hi. lia. }
    exists (S k). cbn [take]. unfold encode at 2. rewrite bind_cons, He.
    change (b :: bs ++ encode cs) with ((b :: bs) ++ encode cs).
    rewrite take_app, take_ge by lia. by rewrite Hk.
Qed.

(** One of the last four positions is a boundary. *)
Lemma boundary_near cs : Forall scalar cs -> forall i,
  i <= length (encode cs) -> exists j, j <= i /\ i <= j + 3 /\ is_char_boundary (encode cs) j = true.
Proof.
  induction 1 as [|c cs Hc Hcs IH]; intros i Hi.
  { exists i. assert (i = 0) as -> by (simpl in *; lia). split_and!; [lia|lia|done]. }
  destruct (encode_char_shape c Hc) as (b & bs & He & Hlead & Hcont & Hl).
  assert (encode (c :: cs) = b :: bs ++ encode cs) as Hcons by (unfold encode; by rewrite bind_cons, He).
  rewrite Hcons in *. destruct (decide (i < length (b :: bs))) as [Hlt|Hge].
  - exists 0. simpl in Hlt. split_and!; [lia|lia|done].
  - destruct (IH (i - length (b :: bs))) as (j & Hj & Hj3 & Hb).
    { simpl in *. rewrite length_app in Hi. lia. }
    exists (j + length (b :: bs)). split_and!; [lia|lia|].
    rewrite boundary_app; [|lia|done|by apply encode_head].
    by replace (j + length (b :: bs) - length (b :: bs)) with j by lia.
Qed.

Lemma char_floor_spec {E} text n : exists m, char_floor (E:=E) text n = Ok m
  /\ m <= n /\ is_char_boundary text m = true
  /\ forall j, j <= n -> is_char_boundary text j = true -> j <= m.
Proof.
  induction n as [|n (m & Hm & Hle & Hb & Hmax)].
  { by exists 0. }
  cbn [char_floor]. destruct (is_char_boundary text (S n)) eqn:Hn.
  - exists (S n). split_and!; [done|lia|done|auto].
  - exists m. split_and!; [done|lia|done|]. intros j Hj Hbj.
    destruct (decide (j = S n)) as [->|]; [congruence|]. apply Hmax; [lia|done].
Qed.

Lemma cut_line_spec {E} text :
  utf8 text ->
  exists line, cut_line (E:=E) text = Ok line /\ utf8 line /\ line `prefix_of` text
    /\ length line <= MAX_LINE /\ (length text <= MAX_LINE -> line = text)
    /\ (MAX_LINE < length text -> MAX_LINE <= length line + 3).
Proof.
  intros (cs & Hcs & ->). unfold cut_line. destruct (MAX_LINE <? _) eqn:Hlong; bool_to_prop; cycle 1.
  { exists (encode cs). split_and!; [done|by exists cs|done|done|done|lia]. }
  destruct (char_floor_spec (E:=E) (encode cs) MAX_LINE) as (m & -> & Hm & Hb & Hmax).
  cbn [obind]. unfold truncate. rewrite (proj2 (Nat.leb_le m _)) by lia. rewrite Hb.
  destruct (boundary_cuts cs Hcs m Hb) as (k & Hk); [lia|].
  exists (take m (encode cs)). rewrite length_take. split_and!.
  - done.
  - exists (take k cs). split; [by apply Forall_take|done].
  - apply prefix_take.
  - lia.
  - lia.
  - intros _. destruct (boundary_near cs Hcs MAX_LINE) as (j & Hj & Hj3 & Hbj); [lia|].
    pose proof (Hmax j Hj Hbj). lia.
Qed.

(** ** Bounded lanes *)

Record lanes_ok (o : Output) : Prop := {
  lo_routine : length (routine o) <= ROUTINE_LANE;
  lo_important : length (important o) <= IMPORTANT_LANE
}.

Lemma try_send_bound {T} capacity (line : T) lane :
  length lane <= capacity -> length (try_send capacity line lane) <= capacity.
Proof.
  intros Hl. unfold try_send. destruct (_ <? _) eqn:Hc; bool_to_prop; [|lia].
  rewrite length_app. simpl. lia.
Qed.

Lemma send_line_ok line imp o : lanes_ok o -> lanes_ok (send_line line imp o).
Proof. intros []. destruct imp; split; cbn; auto using try_send_bound. Qed.

(** ** Limiting warnings *)

(** The clock as one call of [warn] reads it. *)
Record WarnCall := MkWarnCall { wc_first : Z; wc_now : Z; wc_later : Z }.

(** Calls one after the other, as the mutex orders them: whether each emits its
    warning and how many suppressed ones it reports, and the last window. *)
Fixpoint warn_run (calls : list WarnCall) (st : option WarningWindow)
    : list (bool * Z) * option WarningWindow :=
  match calls with
  | [] => ([], st)
  | c :: calls =>
    let '(b, r, w) := warn_window (wc_first c) (wc_now c) (wc_later c) st in
    let '(out, st') := warn_run calls (Some w) in
    ((b, r) :: out, st')
  end.

Fixpoint emissions (out : list (bool * Z)) : Z :=
  match out with [] => 0 | (b, _) :: out => (if b then 1 else 0) + emissions out end.
Fixpoint reports (out : list (bool * Z)) : Z :=
  match out with [] => 0 | (_, r) :: out => r + reports out end.
Definition pending_suppressed (st : option WarningWindow) : Z :=
  match st with Some w => suppressed w | None => 0 end.

Definition window_ok (w : WarningWindow) : Prop := (0 <= emitted w <= BURST /\ 0 <= suppressed w)%Z.
Definition state_ok (st : option WarningWindow) : Prop :=
  match st with Some w => window_ok w | None => True end.

Lemma saturating_add_one n : (0 <= n)%Z -> (0 <= saturating_add n 1)%Z.
Proof. unfold saturating_add. lia. Qed.

(** One call, with the window it leaves. *)
Lemma warn_window_cases first now later st b r w :
  state_ok st -> warn_window first now later st = (b, r, w) ->
  window_ok w
  /\ (b = true -> 1 <= emitted w)%Z
  /\ (0 <= pending_suppressed st < 18446744073709551615 ->
      pending_suppressed st + 1 = (if b then 1 else 0) + r + suppressed w)%Z
  /\ ((started_at w = later /\ emitted w = 1 /\ b = true)
      \/ exists w0, (st = Some w0 \/ st = None /\ w0 = MkWindow first 0 0)
         /\ started_at w = started_at w0 /\ emitted w = emitted w0 + (if b then 1 else 0))%Z.
Proof.
  intros Hok H. unfold warn_window in H.
  assert (exists w0, match st with Some w => w | None => MkWindow first 0 0 end = w0 /\ window_ok w0
    /\ pending_suppressed st = suppressed w0 /\ (st = Some w0 \/ st = None /\ w0 = MkWindow first 0 0))
    as (w0 & Hw0 & Hok0 & Hp & Hst).
  { destruct st as [w1|]; eexists; split_and!; eauto. unfold window_ok, BURST. cbn. lia. }
  cbv zeta in H. rewrite Hw0 in H. clear Hw0. unfold window_ok, BURST in *. rewrite Hp.
  destruct (INTERVAL <=? _)%Z; cbn in H.
  - injection H as <- <- <-. cbn. split_and!; try (intros; lia).
  - destruct (emitted w0 <? 20)%Z eqn:He; bool_to_prop; injection H as <- <- <-; cbn;
      unfold saturating_add; split_and!; try (intros; (done || lia)); right; exists w0;
      split_and!; done || lia.
Qed.

Lemma warn_run_ok calls : forall st, state_ok st -> state_ok (snd (warn_run calls st)).
Proof.
  induction calls as [|c calls IH]; intros st Hst; [done|]. cbn [warn_run].
  destruct (warn_window _ _ _ st) as [[b r] w] eqn:Hw.
  destruct (warn_window_cases _ _ _ _ _ _ _ Hst Hw) as (Hok & _).
  specialize (IH (Some w) Hok). by destruct (warn_run calls (Some w)).
Qed.

(** No warning is unaccounted for. *)
Lemma warn_run_accounts calls : forall st,
  state_ok st -> (pending_suppressed st + Z.of_nat (length calls) <= 18446744073709551615)%Z ->
  (pending_suppressed st + Z.of_nat (length calls)
   = emissions (fst (warn_run calls st)) + reports (fst (warn_run calls st))
     + pending_suppressed (snd (warn_run calls st)))%Z.
Proof.
  induction calls as [|c calls IH]; intros st Hst Hlt; [simpl; lia|]. cbn [warn_run length] in *.
  destruct (warn_window _ _ _ st) as [[b r] w] eqn:Hw.
  destruct (warn_window_cases _ _ _ _ _ _ _ Hst Hw) as (Hok & _ & Hacc & Hcases).
  assert (0 <= pending_suppressed st)%Z by (destruct st as [w0|]; [by destruct Hst|simpl; lia]).
  specialize (Hacc ltac:(lia)).
  assert (suppressed w <= pending_suppressed st + 1)%Z.
  { unfold warn_window in Hw. destruct st as [w0|]; cbn [pending_suppressed] in *;
      repeat case_match; simplify_eq; cbn [suppressed]; unfold saturating_add; lia. }
  specialize (IH (Some w) Hok). cbn [pending_suppressed] in IH. specialize (IH ltac:(lia)).
  destruct (warn_run calls (Some w)) as [out st'] eqn:Hrun. cbn [fst snd emissions reports] in *. lia.
Qed.

(** Within one window, only what its budget leaves. *)
Lemma steady_emissions calls : forall w,
  window_ok w -> Forall (fun c => wc_now c < started_at w + INTERVAL)%Z calls ->
  (emissions (fst (warn_run calls (Some w))) <= BURST - emitted w)%Z.
Proof.
  induction calls as [|c calls IH]; intros w Hok Hc; [unfold window_ok in Hok; simpl; lia|].
  apply Forall_cons in Hc as [Hc Hcs]. cbn [warn_run]. unfold warn_window.
  rewrite (proj2 (Z.leb_gt _ _)) by (unfold INTERVAL, SECOND in *; lia).
  unfold window_ok, BURST in *. destruct (emitted w <? 20)%Z eqn:He; bool_to_prop.
  - specialize (IH (MkWindow (started_at w) (emitted w + 1) (suppressed w)) ltac:(cbn; lia) Hcs).
    destruct (warn_run calls _) as [out st']. cbn [fst emissions emitted] in *. lia.
  - specialize (IH (MkWindow (started_at w) (emitted w) (saturating_add (suppressed w) 1))
      ltac:(cbn; unfold saturating_add; lia) Hcs).
    destruct (warn_run calls _) as [out st']. cbn [fst emissions emitted] in *. lia.
Qed.

(** A span shorter than the interval sees at most one change of window. *)
Lemma span_emissions t calls : forall w,
  window_ok w -> Forall (fun c => t <= wc_now c < t + INTERVAL /\ wc_now c <= wc_later c)%Z calls ->
  (emissions (fst (warn_run calls (Some w))) <= BURST - emitted w + BURST)%Z.
Proof.
  induction calls as [|c calls IH]; intros w Hok Hc; [unfold window_ok, BURST in *; simpl; lia|].
  apply Forall_cons in Hc as [[Ht Hl] Hcs]. cbn [warn_run]. unfold warn_window. cbv zeta.
  destruct (INTERVAL <=? _)%Z eqn:Hr; bool_to_prop; cbn [emitted suppressed started_at].
  - change (0 <? BURST)%Z with true. cbn iota.
    pose proof (steady_emissions calls (MkWindow (wc_later c) (0 + 1) 0)) as Hs.
    destruct (warn_run calls _) as [out st']. cbn [fst emissions emitted started_at] in *.
    unfold window_ok, BURST in *. cbn [emitted suppressed] in Hs. specialize (Hs ltac:(lia)).
    lapply Hs; [lia|]. eapply Forall_impl; [exact Hcs|]. intros c' [? ?]. lia.
  - unfold window_ok, BURST in *. destruct (emitted w <? 20)%Z eqn:He; bool_to_prop.
    + specialize (IH (MkWindow (started_at w) (emitted w + 1) (suppressed w)) ltac:(cbn; lia) Hcs).
      destruct (warn_run calls _) as [out st']. cbn [fst emissions emitted] in *. lia.
    + specialize (IH (MkWindow (started_at w) (emitted w) (saturating_add (suppressed w) 1))
        ltac:(cbn; unfold saturating_add; lia) Hcs).
      destruct (warn_run calls _) as [out st']. cbn [fst emissions emitted] in *. lia.
Qed.

Lemma span_emissions_any t calls st :
  state_ok st -> Forall (fun c => t <= wc_now c < t + INTERVAL /\ wc_now c <= wc_later c)%Z calls ->
  (emissions (fst (warn_run calls st)) <= 2 * BURST)%Z.
Proof.
  intros Hst Hc. destruct st as [w|].
  - pose proof (span_emissions t calls w Hst Hc). destruct Hst. unfold BURST in *. lia.
  - destruct calls as [|c calls]; [done|].
    assert (warn_run (c :: calls) None = warn_run (c :: calls) (Some (MkWindow (wc_first c) 0 0))) as -> by done.
    pose proof (span_emissions t (c :: calls) (MkWindow (wc_first c) 0 0) ltac:(unfold window_ok, BURST; simpl; lia) Hc).
    unfold BURST in *. cbn [emitted] in *. lia.
Qed.

(** ** Properties *)

(** C39: a diagnostic costs a bounded amount of memory.  For every level and
    message that make valid text, [emit] never panics: the line it sends is
    valid text, a prefix of what was formatted, complete when that has at most
    2048 bytes and otherwise cut to at most 2048 with at most three bytes more
    than necessary; it goes to the lane of its importance if that has room, and
    no lane ever exceeds its capacity. *)
Theorem emit_bounds {E} level message imp output :
  utf8 (level ++ [x20] ++ message) -> lanes_ok output ->
  exists line, emit (E:=E) level message imp (Some output) = Ok (Some (send_line line imp output))
    /\ lanes_ok (send_line line imp output)
    /\ utf8 line /\ line `prefix_of` level ++ [x20] ++ message /\ length line <= MAX_LINE
    /\ (length (level ++ [x20] ++ message) <= MAX_LINE -> line = level ++ [x20] ++ message)
    /\ (MAX_LINE < length (level ++ [x20] ++ message) -> MAX_LINE <= length line + 3).
Proof.
  intros Hu Ho. destruct (cut_line_spec (E:=E) _ Hu) as (line & Hc & H).
  exists line. split; [|split; [by apply send_line_ok|done]].
  unfold emit. by rewrite Hc.
Qed.

(** A line of 2050 bytes with a three-byte character across the limit. *)
Definition euro : Z := 8364.
Definition sample_long : list byte := encode (repeat 97%Z 2042 ++ [euro]).

Lemma emit_bounds_witness :
  (length sample_long = 2045 /\ cut_line (E:=unit) (INFO ++ [x20] ++ sample_long) = Ok (INFO ++ [x20] ++ repeat x61 2042))
  /\ exists line, emit (E:=unit) INFO sample_long true (Some (MkOutput [] [])) = Ok (Some (send_line line true (MkOutput [] [])))
    /\ lanes_ok (send_line line true (MkOutput [] []))
    /\ utf8 line /\ line `prefix_of` INFO ++ [x20] ++ sample_long /\ length line <= MAX_LINE
    /\ (length (INFO ++ [x20] ++ sample_long) <= MAX_LINE -> line = INFO ++ [x20] ++ sample_long)
    /\ (MAX_LINE < length (INFO ++ [x20] ++ sample_long) -> MAX_LINE <= length line + 3).
Proof.
  split; [split; vm_compute; reflexivity|].
  apply (emit_bounds (E:=unit) INFO sample_long true (MkOutput [] [])).
  - exists ([73; 78; 70; 79; 32]%Z ++ repeat 97%Z 2042 ++ [euro]). split.
    + apply Forall_app. split; [repeat (apply Forall_cons_2; [unfold scalar; lia|]); apply Forall_nil_2|].
      apply Forall_app. split; [apply Forall_forall; intros c Hc%list_elem_of_In%repeat_spec; unfold scalar; lia|].
      apply Forall_singleton. unfold scalar, euro. lia.
    + vm_compute. reflexivity.
  - split; cbn; lia.
Defined.

(** C38: warnings are limited, and none is lost silently.  However the clock runs
    and whatever came before: calls of [warn] within less than five seconds emit
    at most forty warnings, twenty for each of the two windows such a span can
    meet; and of all calls so far, each emitted its warning, or was reported in a
    count of suppressed ones, or is counted for the next report (up to the range
    of the counter). *)
Theorem warn_limits before span t :
  Forall (fun c => t <= wc_now c < t + INTERVAL /\ wc_now c <= wc_later c)%Z span ->
  (emissions (fst (warn_run span (snd (warn_run before None)))) <= 2 * BURST)%Z
  /\ (Z.of_nat (length before) <= 18446744073709551615 ->
      Z.of_nat (length before)
      = emissions (fst (warn_run before None)) + reports (fst (warn_run before None))
        + pending_suppressed (snd (warn_run before None)))%Z.
Proof.
  intros Hs. split.
  - apply (span_emissions_any t); [by apply warn_run_ok|done].
  - intros Hl. pose proof (warn_run_accounts before None I) as H. cbn [pending_suppressed] in H. lia.
Qed.

(** A burst at the end of one window and at the start of the next. *)
Definition at_time (t : Z) : WarnCall := MkWarnCall t t t.
Definition first_burst : list WarnCall := at_time 0 :: repeat (at_time 4999999999) 24.
Definition second_burst : list WarnCall := repeat (at_time 4999999999) 3 ++ repeat (at_time 5000000000) 25.

Lemma warn_limits_witness :
  (emissions (fst (warn_run second_burst (snd (warn_run first_burst None)))) = 20
   /\ reports (fst (warn_run second_burst (snd (warn_run first_burst None)))) = 8)%Z
  /\ (emissions (fst (warn_run second_burst (snd (warn_run first_burst None)))) <= 2 * BURST)%Z.
Proof.
  split; [split; vm_compute; reflexivity|].
  apply (warn_limits first_burst second_burst 4999999999).
  apply Forall_forall. intros c Hc. unfold second_burst, INTERVAL, SECOND in *.
  apply elem_of_app in Hc as [Hc%list_elem_of_In%repeat_spec|Hc%list_elem_of_In%repeat_spec]; subst; cbn; lia.
Defined.

(** Thirty-nine warnings in a nanosecond: the comment on [warn] promises at most
    twenty in five seconds. *)
Example burst_across_windows :
  emissions (fst (warn_run (repeat (at_time 4999999999) 19 ++ repeat (at_time 5000000000) 20)
                    (snd (warn_run [at_time 0] None)))) = 39%Z.
Proof. vm_compute. reflexivity. Qed.
