(* ===== verification/Logger.v ===== *)
(** * Diagnostics: the writer thread

    [Logger::start] and [Drop for Logger] of [src/src/logging.rs]: one thread
    moves lines from two bounded lanes to the sink, events first.  Senders, the
    guard that stops the thread, and the thread interleave as a step relation. *)

From S2P Require Import Prelude Types Net Io Transport Logging.

(** Where the writer is: about to look at the events; at the routine lane after
    the events were empty; writing a line; about to read the flag, both lanes
    found empty; in [recv_timeout]; past the loop; past [done.send]. *)
Inductive WriterPhase :=
| AtEvents | AtMessages | Writing (is_important : bool) (line : list byte) | AtFlag | Receiving | Exited | Reported.

(** Where the guard is: not dropped; in [recv_timeout] of [drop], the flag raised;
    in [join]; dropped, with or without a join. *)
Inductive GuardPhase := Held | Flushing | Joining | Dropped (joined : bool).

Record LoggerState := MkLogger {
  lanes : Output; stopping : bool; writer : WriterPhase; guard : GuardPhase
}.

(** [Logger::start]. *)
Definition logger_start : LoggerState := MkLogger (MkOutput [] []) false AtEvents Held.

Inductive LogLabel :=
| Send (is_important : bool) (line : list byte) (accepted : bool)
| Written (is_important : bool) (line : list byte)
| Move
| Report
| Raise
| Guard.

Definition with_writer (st : LoggerState) (p : WriterPhase) : LoggerState :=
  MkLogger (lanes st) (stopping st) p (guard st).
Definition with_lanes (st : LoggerState) (o : Output) (p : WriterPhase) : LoggerState :=
  MkLogger o (stopping st) p (guard st).

(** The writer's next step; on an empty lane [recv_timeout] ends by its time, and a
    write to the sink may take as long as it likes. *)
Definition writer_next (st : LoggerState) : option (LogLabel * LoggerState) :=
  match writer st with
  | AtEvents =>
    match important (lanes st) with
    | line :: rest => Some (Move, with_lanes st (MkOutput (routine (lanes st)) rest) (Writing true line))
    | [] => Some (Move, with_writer st AtMessages)
    end
  | AtMessages =>
    match routine (lanes st) with
    | line :: rest => Some (Move, with_lanes st (MkOutput rest (important (lanes st))) (Writing false line))
    | [] => Some (Move, with_writer st AtFlag)
    end
  | Writing imp line => Some (Written imp line, with_writer st AtEvents)
  | AtFlag => Some (Move, with_writer st (if stopping st then Exited else Receiving))
  | Receiving =>
    match routine (lanes st) with
    | line :: rest => Some (Move, with_lanes st (MkOutput rest (important (lanes st))) (Writing false line))
    | [] => Some (Move, with_writer st AtEvents)
    end
  | Exited => Some (Report, with_writer st Reported)
  | Reported => None
  end.

(** The next step of [drop]; [timed_out] is how [recv_timeout] ends. *)
Definition guard_next (timed_out : bool) (st : LoggerState) : option GuardPhase :=
  match guard st, writer st with
  | Flushing, p =>
    if timed_out then Some (Dropped false) else match p with Reported => Some Joining | _ => None end
  | Joining, Reported => Some (Dropped true)
  | _, _ => None
  end.

(** Does [send_line] take the line? *)
Definition has_room (imp : bool) (o : Output) : bool :=
  if imp then length (important o) <? IMPORTANT_LANE else length (routine o) <? ROUTINE_LANE.

Inductive logger_step : LoggerState -> LogLabel -> LoggerState -> Prop :=
| ls_send imp line st :
    logger_step st (Send imp line (has_room imp (lanes st)))
      (with_lanes st (send_line line imp (lanes st)) (writer st))
| ls_writer st l st' : writer_next st = Some (l, st') -> logger_step st l st'
| ls_drop st : guard st = Held -> logger_step st Raise (MkLogger (lanes st) true (writer st) Flushing)
| ls_guard timed_out st g :
    guard_next timed_out st = Some g -> logger_step st Guard (MkLogger (lanes st) (stopping st) (writer st) g).

Inductive logger_run : LoggerState -> list LogLabel -> LoggerState -> Prop :=
| lr_nil st : logger_run st [] st
| lr_snoc st tr st' l st'' : logger_run st tr st' -> logger_step st' l st'' -> logger_run st (tr ++ [l]) st''.

(** ** Reading a run *)

Definition sent1 (imp : bool) (l : LogLabel) : list (list byte) :=
  match l with Send i line true => if Bool.eqb i imp then [line] else [] | _ => [] end.
Definition written1 (imp : bool) (l : LogLabel) : list (list byte) :=
  match l with Written i line => if Bool.eqb i imp then [line] else [] | _ => [] end.
Definition sent (imp : bool) (tr : list LogLabel) : list (list byte) := tr ≫= sent1 imp.
Definition written (imp : bool) (tr : list LogLabel) : list (list byte) := tr ≫= written1 imp.

(** The writer's steps in its loop, and those of the guard. *)
Definition writer_turns1 (l : LogLabel) : nat := match l with Written _ _ | Move => 1 | _ => 0 end.
Definition writer_turns (tr : list LogLabel) : nat := sum_list (writer_turns1 <$> tr).
Definition guard_turns1 (l : LogLabel) : nat := match l with Raise | Guard => 1 | _ => 0 end.
Definition guard_turns (tr : list LogLabel) : nat := sum_list (guard_turns1 <$> tr).

Definition lane (imp : bool) (o : Output) : list (list byte) := if imp then important o else routine o.
Definition in_hand (imp : bool) (p : WriterPhase) : list (list byte) :=
  match p with Writing i line => if Bool.eqb i imp then [line] else [] | _ => [] end.

Lemma sent_snoc imp tr l : sent imp (tr ++ [l]) = sent imp tr ++ sent1 imp l.
Proof. unfold sent. rewrite bind_app. simpl. by rewrite app_nil_r. Qed.
Lemma written_snoc imp tr l : written imp (tr ++ [l]) = written imp tr ++ written1 imp l.
Proof. unfold written. rewrite bind_app. simpl. by rewrite app_nil_r. Qed.
Lemma writer_turns_snoc tr l : writer_turns (tr ++ [l]) = writer_turns tr + writer_turns1 l.
Proof. unfold writer_turns. rewrite fmap_app, sum_list_with_app. simpl. unfold id. lia. Qed.
Lemma guard_turns_snoc tr l : guard_turns (tr ++ [l]) = guard_turns tr + guard_turns1 l.
Proof. unfold guard_turns. rewrite fmap_app, sum_list_with_app. simpl. unfold id. lia. Qed.

(** ** Invariant *)

(** The lane was found empty at most [k] steps of the writer ago, and nothing
    has been written from it since. *)
Definition emptied (imp : bool) (k : nat) (tr : list LogLabel) : Prop :=
  exists tr1 tr2, tr = tr1 ++ tr2 /\ written imp tr = sent imp tr1 /\ writer_turns tr2 <= k.

Definition looked (tr : list LogLabel) (p : WriterPhase) : Prop :=
  match p with
  | AtMessages => emptied true 1 tr
  | AtFlag => emptied true 2 tr /\ emptied false 1 tr
  | Exited | Reported => emptied true 3 tr /\ emptied false 2 tr
  | _ => True
  end.

(** Past the loop. *)
Definition ended (p : WriterPhase) : Prop := match p with Exited | Reported => True | _ => False end.

Record logger_ok (tr : list LogLabel) (st : LoggerState) : Prop := {
  lg_fifo imp : sent imp tr = written imp tr ++ in_hand imp (writer st) ++ lane imp (lanes st);
  lg_lanes : lanes_ok (lanes st);
  lg_looked : looked tr (writer st);
  lg_ended : ended (writer st) -> stopping st = true
}.

Lemma emptied_snoc imp k tr l :
  emptied imp k tr -> written1 imp l = [] -> emptied imp (k + writer_turns1 l) (tr ++ [l]).
Proof.
  intros (tr1 & tr2 & -> & Hw & Hk) Hl. exists tr1, (tr2 ++ [l]). split_and!.
  - by rewrite app_assoc.
  - by rewrite written_snoc, Hl, app_nil_r.
  - rewrite writer_turns_snoc. lia.
Qed.

(** The writer finds the lane empty. *)
Lemma emptied_now imp tr st :
  logger_ok tr st -> in_hand imp (writer st) = [] -> lane imp (lanes st) = [] -> emptied imp 1 (tr ++ [Move]).
Proof.
  intros [Hf _ _ _] Hh Hl. exists tr, [Move]. split_and!; [done| |done].
  specialize (Hf imp). rewrite Hh, Hl, !app_nil_r in Hf. by rewrite written_snoc, app_nil_r.
Qed.

Lemma send_lane imp line i o :
  lane i (send_line line imp o) = lane i o ++ sent1 i (Send imp line (has_room imp o)).
Proof.
  unfold send_line, has_room, try_send. destruct imp, i; cbn; repeat case_match; by rewrite ?app_nil_r.
Qed.

Lemma logger_step_ok tr st l st' :
  logger_ok tr st -> logger_step st l st' -> logger_ok (tr ++ [l]) st'.
Proof.
  intros Hok Hstep. pose proof Hok as [Hf Hl Hlook Hex].
  assert (forall l p, writer_turns1 l = 0 -> (forall imp, written1 imp l = []) -> looked tr p -> looked (tr ++ [l]) p)
    as Hlater.
  { intros l0 p Ht Hw. pose proof (fun imp k H => emptied_snoc imp k tr l0 H (Hw imp)) as H. rewrite Ht in H.
    assert (forall imp k, emptied imp k tr -> emptied imp k (tr ++ [l0])) as H'
      by (intros imp k Hk; rewrite <- (Nat.add_0_r k); by apply H).
    destruct p; cbn; try done; [by apply H'|intros []; split; by apply H'..]. }
  destruct Hstep as [imp line st|st l st' Hn|st _|b st g _].
  - split; cbn [with_lanes lanes stopping writer]; [|by apply send_line_ok|by apply Hlater|done].
    intros i. rewrite sent_snoc, written_snoc, Hf, send_lane. cbn [written1]. by rewrite app_nil_r, <- !app_assoc.
  - destruct st as [[rt im] b p g]. unfold writer_next, with_writer, with_lanes in Hn.
    cbn [writer lanes stopping guard routine important] in *. destruct Hl as [Hrt Him]. cbn [routine important] in *.
    destruct p as [| |i line| | | |]; [destruct im as [|line im]|destruct rt as [|line rt]| | |destruct rt as [|line rt]| |done];
      simplify_eq; (split; cbn [lanes stopping writer guard];
        [intros i'; rewrite sent_snoc, written_snoc, Hf; destruct i'; cbn; rewrite ?app_nil_r; try done
        |split; cbn [routine important length] in *; lia| |]); try done.
    + by eapply (emptied_now true).
    + cbn in Hlook |- *. split; [by apply (emptied_snoc true 1 tr Move)|by eapply (emptied_now false)].
    + by rewrite <- app_assoc.
    + by rewrite <- app_assoc.
    + by destruct b.
    + by destruct b.
    + destruct b; [|done]. cbn in Hlook |- *. destruct Hlook as [H1 H2].
      split; [by apply (emptied_snoc true 2 tr Move)|by apply (emptied_snoc false 1 tr Move)].
    + by destruct b.
    + by apply (Hlater Report Exited).
  - split; cbn [lanes stopping writer]; [|done|by apply Hlater|done].
    intros i. rewrite sent_snoc, written_snoc, Hf. cbn. by rewrite !app_nil_r.
  - split; cbn [lanes stopping writer]; [|done|by apply Hlater|done].
    intros i. rewrite sent_snoc, written_snoc, Hf. cbn. by rewrite !app_nil_r.
Qed.

Lemma logger_run_ok tr st : logger_run logger_start tr st -> logger_ok tr st.
Proof.
  remember logger_start as st0 eqn:Hst. induction 1 as [st|st tr st' l st'' _ IH Hstep].
  - subst. split; cbn; [by intros []|by split; cbn; lia|done|done].
  - eauto using logger_step_ok.
Qed.

(** ** Dropping the guard *)

(** How many steps [drop] has left. *)
Definition guard_rank (g : GuardPhase) : nat :=
  match g with Held => 3 | Flushing => 2 | Joining => 1 | Dropped _ => 0 end.

Record guard_ok (tr : list LogLabel) (st : LoggerState) : Prop := {
  gd_joined : guard st = Joining \/ guard st = Dropped true -> writer st = Reported;
  gd_turns : guard_turns tr + guard_rank (guard st) <= 3
}.

Lemma writer_next_guard st l st' :
  writer_next st = Some (l, st') -> guard st' = guard st /\ guard_turns1 l = 0 /\ writer st <> Reported.
Proof.
  unfold writer_next. intros H. destruct (writer st); repeat case_match; by simplify_eq.
Qed.

Lemma guard_step_ok tr st l st' : guard_ok tr st -> logger_step st l st' -> guard_ok (tr ++ [l]) st'.
Proof.
  intros [Hj Ht] Hstep. destruct Hstep as [imp line st|st l st' Hn|st Hg|b st g Hg];
    (split; [|rewrite guard_turns_snoc]); cbn [with_lanes writer guard guard_turns1] in *.
  - done.
  - lia.
  - destruct (writer_next_guard _ _ _ Hn) as (-> & _ & Hw). intros Hg. by destruct Hw, Hj.
  - destruct (writer_next_guard _ _ _ Hn) as (-> & -> & _). lia.
  - by intros [].
  - rewrite Hg in Ht. cbn in *. lia.
  - unfold guard_next in Hg. destruct (guard st), (writer st), b; simplify_eq; by intros [].
  - unfold guard_next in Hg. destruct (guard st), (writer st), b; simplify_eq; cbn in *; lia.
Qed.

Lemma guard_run_ok tr st : logger_run logger_start tr st -> guard_ok tr st.
Proof.
  remember logger_start as st0 eqn:Hst. induction 1 as [st|st tr st' l st'' _ IH Hstep].
  - subst. split; cbn; [by intros []|lia].
  - eauto using guard_step_ok.
Qed.

(** [drop] is never stuck, whatever the writer does. *)
Lemma guard_progress tr st :
  guard_ok tr st -> guard st = Flushing \/ guard st = Joining -> exists b g, guard_next b st = Some g.
Proof.
  intros [Hj _] Hg. unfold guard_next. destruct Hg as [Hg|Hg]; [rewrite Hg; by exists true, (Dropped false)|].
  rewrite Hj by auto. rewrite Hg. by exists false, (Dropped true).
Qed.

(** ** Stopping *)

Definition waiting_lines (st : LoggerState) : nat :=
  length (important (lanes st)) + length (routine (lanes st)).
(** How many steps the writer has left once the flag is up, if nothing is sent. *)
Definition writer_rank (st : LoggerState) : nat :=
  3 * waiting_lines st
  + match writer st with
    | Writing _ _ | Receiving => 4 | AtEvents => 3 | AtMessages => 2 | AtFlag => 1 | Exited | Reported => 0
    end.

Definition accepted_line (l : LogLabel) : nat := match l with Send _ _ true => 1 | _ => 0 end.
Definition accepted_lines (tr : list LogLabel) : nat := sum_list (accepted_line <$> tr).

Lemma accepted_lines_snoc tr l : accepted_lines (tr ++ [l]) = accepted_lines tr + accepted_line l.
Proof. unfold accepted_lines. rewrite fmap_app, sum_list_with_app. simpl. unfold id. lia. Qed.

Lemma writer_next_rank st l st' :
  writer_next st = Some (l, st') -> stopping st = true ->
  stopping st' = true /\ writer_turns1 l + writer_rank st' <= writer_rank st /\ accepted_line l = 0.
Proof.
  destruct st as [[rt im] b p g]. unfold writer_next, writer_rank, waiting_lines, with_writer, with_lanes.
  cbn [writer lanes stopping guard routine important]. intros H ->.
  destruct p as [| |i line| | | |]; [destruct im as [|line im]|destruct rt as [|line rt]| | |destruct rt as [|line rt]| |done];
    simplify_eq; cbn [writer lanes stopping routine important length writer_turns1 accepted_line];
    split_and!; done || lia.
Qed.

Lemma send_line_waiting imp line o :
  length (important (send_line line imp o)) + length (routine (send_line line imp o))
  = length (important o) + length (routine o) + accepted_line (Send imp line (has_room imp o)).
Proof.
  unfold send_line, has_room, try_send. destruct imp; cbn; case_match; rewrite ?length_app; simpl; lia.
Qed.

Lemma logger_run_stopping st tr st' :
  logger_run st tr st' -> stopping st = true ->
  stopping st' = true /\ writer_turns tr + writer_rank st' <= writer_rank st + 3 * accepted_lines tr.
Proof.
  induction 1 as [st|st tr st' l st'' _ IH Hstep]; intros Hs; [split; [done|cbn; lia]|].
  destruct (IH Hs) as [Hs' Hr]. rewrite writer_turns_snoc, accepted_lines_snoc.
  destruct Hstep as [imp line st'|st' l st'' Hn|st' _|b st' g _].
  - split; [done|]. unfold writer_rank, waiting_lines in *. cbn [with_lanes lanes writer writer_turns1].
    pose proof (send_line_waiting imp line (lanes st')). lia.
  - destruct (writer_next_rank _ _ _ Hn Hs') as (? & ? & ->). split; [done|lia].
  - split; [done|]. cbn [writer_turns1 accepted_line]. unfold writer_rank, waiting_lines in *. cbn [lanes writer]. lia.
  - split; [done|]. cbn [writer_turns1 accepted_line]. unfold writer_rank, waiting_lines in *. cbn [lanes writer]. lia.
Qed.

(** The largest rank. *)
Lemma writer_rank_bound st : lanes_ok (lanes st) -> writer_rank st <= 244.
Proof.
  intros [Hr Hi]. unfold writer_rank, waiting_lines, ROUTINE_LANE, IMPORTANT_LANE in *. destruct (writer st); lia.
Qed.

(** The writer itself never waits without a limit. *)
Lemma writer_progress st :
  writer st <> Reported ->
  exists l st', writer_next st = Some (l, st') /\ (writer_turns1 l = 1 \/ l = Report).
Proof.
  intros H. unfold writer_next. destruct (writer st); try done;
    repeat case_match; do 2 eexists; (split; [reflexivity|]); first [by left|by right].
Qed.

Lemma logger_run_cons st l st' tr st'' :
  logger_step st l st' -> logger_run st' tr st'' -> logger_run st (l :: tr) st''.
Proof.
  intros Hstep. induction 1 as [st'|st' tr st1 l1 st2 _ IH Hs].
  - apply (lr_snoc st [] st l st'); [constructor|done].
  - apply (lr_snoc st (l :: tr) st1 l1 st2); auto.
Qed.

Lemma writer_turn_rank st l st' :
  writer_next st = Some (l, st') -> stopping st = true -> l <> Report -> writer_rank st' < writer_rank st.
Proof.
  intros Hn Hs Hl. destruct (writer_next_rank _ _ _ Hn Hs) as (_ & Hr & _).
  assert (writer_turns1 l = 1); [|lia].
  destruct (writer_progress st) as (l' & st1 & Hn' & Hl');
    [by destruct (writer_next_guard _ _ _ Hn) as (_ & _ & ?)|].
  rewrite Hn in Hn'. simplify_eq. by destruct Hl'.
Qed.

(** Alone, and asked to stop, the writer comes to its end. *)
Lemma writer_ends k : forall st,
  stopping st = true -> writer_rank st < k ->
  exists tr st', logger_run st tr st' /\ writer st' = Reported /\ accepted_lines tr = 0.
Proof.
  induction k as [|k IH]; intros st Hs Hk; [lia|].
  assert (writer st = Reported \/ writer st = Exited \/ writer st <> Reported /\ writer st <> Exited)
    as [Hw|[Hw|[Hw Hx]]] by (destruct (writer st); naive_solver).
  - exists [], st. split_and!; [constructor|done|done].
  - exists [Report], (with_writer st Reported). split_and!; [|done|done].
    apply (logger_run_cons _ _ (with_writer st Reported)); [|constructor].
    apply ls_writer. unfold writer_next. by rewrite Hw.
  - destruct (writer_progress st Hw) as (l & st1 & Hn & _).
    assert (l <> Report) as Hl.
    { intros ->. unfold writer_next in Hn. destruct (writer st); repeat case_match; simplify_eq. }
    destruct (writer_next_rank _ _ _ Hn Hs) as (Hs1 & _ & Ha).
    destruct (IH st1) as (tr & st2 & Hrun & Hend & Hacc); [done|pose proof (writer_turn_rank _ _ _ Hn Hs Hl); lia|].
    exists (l :: tr), st2. split_and!; [eapply logger_run_cons; [by apply ls_writer|done]|done|].
    change (accepted_lines (l :: tr)) with (accepted_line l + accepted_lines tr). lia.
Qed.

(** C37: the writer keeps every line it accepted in order, and stops; and dropping
    its guard never waits for the sink.  In every reachable state and for each lane:
    the lines accepted are the lines written, then the one in hand, then those
    waiting, within the lane's capacity.  Until its end the writer can always make
    its next step.  It ends its loop only on request, and then the lines left behind
    are those accepted in its last three steps for events, two for routine ones.
    Once the request is made the loop ends within 244 of its steps, and three for
    each line still accepted; and from there it reaches its end in a run that
    accepts no line.  [drop] makes at most three steps, can always make its next
    one, and joins only a thread that is past its loop. *)
Theorem logger_keeps_lines tr st :
  logger_run logger_start tr st ->
  (forall imp, sent imp tr = written imp tr ++ in_hand imp (writer st) ++ lane imp (lanes st))
  /\ lanes_ok (lanes st)
  /\ (writer st <> Reported -> exists l st', logger_step st l st' /\ (writer_turns1 l = 1 \/ l = Report))
  /\ (ended (writer st) -> stopping st = true /\ emptied true 3 tr /\ emptied false 2 tr)
  /\ (stopping st = true ->
       (forall tr' st', logger_run st tr' st' -> writer_turns tr' <= 244 + 3 * accepted_lines tr')
       /\ exists tr' st', logger_run st tr' st' /\ writer st' = Reported /\ accepted_lines tr' = 0)
  /\ guard_turns tr <= 3
  /\ (guard st = Flushing \/ guard st = Joining -> exists st', logger_step st Guard st')
  /\ (guard st = Joining \/ guard st = Dropped true -> ended (writer st)).
Proof.
  intros Hrun. destruct (logger_run_ok _ _ Hrun) as [Hf Hl Hlook Hex].
  pose proof (guard_run_ok _ _ Hrun) as Hg. pose proof (gd_turns _ _ Hg). split_and!; [done|done| | | |lia| |].
  - intros (l & st' & Hn & Ht)%writer_progress. eauto using ls_writer.
  - intros He. split; [by apply Hex|]. by destruct (writer st).
  - intros Hs. split; [|apply (writer_ends (S (writer_rank st)) st Hs); lia].
    intros tr' st' Hrun'. destruct (logger_run_stopping _ _ _ Hrun' Hs) as [_ Hr].
    pose proof (writer_rank_bound st Hl). lia.
  - intros (b & g & Hn)%(guard_progress _ _ Hg). eauto using ls_guard.
  - intros Hj%(gd_joined _ _ Hg). by rewrite Hj.
Qed.

(** ** Runs *)

Inductive LogMove := MSend (imp : bool) (line : list byte) | MWriter | MDrop | MGuard (timed_out : bool).

Definition log_move (m : LogMove) (st : LoggerState) : option (LogLabel * LoggerState) :=
  match m with
  | MSend imp line =>
    Some (Send imp line (has_room imp (lanes st)), with_lanes st (send_line line imp (lanes st)) (writer st))
  | MWriter => writer_next st
  | MDrop => match guard st with Held => Some (Raise, MkLogger (lanes st) true (writer st) Flushing) | _ => None end
  | MGuard timed_out =>
    g ← guard_next timed_out st; Some (Guard, MkLogger (lanes st) (stopping st) (writer st) g)
  end.

Fixpoint log_play (ms : list LogMove) (tr : list LogLabel) (st : LoggerState) : option (list LogLabel * LoggerState) :=
  match ms with
  | [] => Some (tr, st)
  | m :: ms => r ← log_move m st; log_play ms (tr ++ [fst r]) (snd r)
  end.

Lemma log_play_run st0 ms : forall tr st tr' st',
  logger_run st0 tr st -> log_play ms tr st = Some (tr', st') -> logger_run st0 tr' st'.
Proof.
  induction ms as [|m ms IH]; intros tr st tr' st' Hr H; cbn in H; [by simplify_eq|].
  destruct (log_move m st) as [[l st1]|] eqn:Hm; [|done]. cbn in H.
  eapply IH; [|exact H]. eapply lr_snoc; [exact Hr|].
  destruct m as [imp line| | |b]; cbn in Hm.
  - simplify_eq. constructor.
  - by constructor.
  - destruct (guard st) eqn:Hg; simplify_eq. by constructor.
  - destruct (guard_next b st) as [g|] eqn:Hg; [|done]. cbn in Hm. simplify_eq. by eapply ls_guard.
Qed.

(** An event overtakes a routine line sent before it; then the guard is dropped. *)
Definition sample_log : list LogMove :=
  [MSend false [x61]; MSend true [x62]; MWriter; MWriter; MWriter; MWriter; MWriter; MDrop;
   MWriter; MWriter; MWriter; MWriter; MGuard false; MGuard false].
Definition sample_log_run : list LogLabel * LoggerState :=
  default ([], logger_start) (log_play sample_log [] logger_start).

Lemma logger_keeps_lines_witness :
  (written true (fst sample_log_run) = [[x62]] /\ written false (fst sample_log_run) = [[x61]])
  /\ guard (snd sample_log_run) = Dropped true
  /\ (forall imp, sent imp (fst sample_log_run)
        = written imp (fst sample_log_run) ++ in_hand imp (writer (snd sample_log_run))
          ++ lane imp (lanes (snd sample_log_run))).
Proof.
  split; [split; vm_compute; reflexivity|]. split; [vm_compute; reflexivity|].
  apply (logger_keeps_lines (fst sample_log_run) (snd sample_log_run)).
  apply (log_play_run logger_start sample_log [] logger_start); [constructor|vm_compute; reflexivity].
Defined.

(** An event sent, and the stop requested, after the writer found the event lane
    empty and before it reads the flag: the event is never written.  This is how
    [main] ends after a fatal error. *)
Example last_event_lost :
  exists tr st, logger_run logger_start tr st /\ writer st = Exited
    /\ sent true tr = [[x65]] /\ written true tr = [].
Proof.
  set (ms := [MWriter; MWriter; MSend true [x65]; MDrop; MWriter]).
  exists (fst (default ([], logger_start) (log_play ms [] logger_start))),
    (snd (default ([], logger_start) (log_play ms [] logger_start))).
  split_and!; [|vm_compute; reflexivity..].
  apply (log_play_run logger_start ms [] logger_start); [constructor|vm_compute; reflexivity].
Qed.
