(* ===== verification/Main.v ===== *)
(** * The command

    [src/src/main.rs], with the end of [Server::run] of [src/src/server.rs]: the
    arguments, the configuration they lead to, and the exit status.  Reading the
    file, the signal library, binding sockets and running the service come in as
    their results. *)

From Stdlib Require Import String.
From S2P Require Import Prelude Types Name Net Addr Routing Io Forwarding Config Transport Logging.

(** ** Arguments *)

Definition HELP : list byte := Eval compute in list_byte_of_string "--help".
Definition HELP_SHORT : list byte := Eval compute in list_byte_of_string "-h".
Definition VERSION : list byte := Eval compute in list_byte_of_string "--version".
Definition VERSION_SHORT : list byte := Eval compute in list_byte_of_string "-V".
Definition CONFIG : list byte := Eval compute in list_byte_of_string "--config".
Definition CHECK : list byte := Eval compute in list_byte_of_string "--check".
Definition DEFAULT_CONFIG : list byte := Eval compute in list_byte_of_string "/etc/sederial/sederial.toml".

Inductive Request := ShowHelp | ShowVersion | Start (path : list byte) (check : bool).
Inductive ArgError := ConfigRequiresPath | BadArgument (arg : list byte).

(** The loop of [run] over the arguments after the program's name; paths stay OS
    strings. *)
Fixpoint args_loop (args : list (list byte)) (path : list byte) (seen_config check : bool)
    : outcome ArgError Request :=
  match args with
  | [] => Ok (Start path check)
  | arg :: args =>
    if bool_decide (arg = HELP) || bool_decide (arg = HELP_SHORT) then Ok ShowHelp
    else if bool_decide (arg = VERSION) || bool_decide (arg = VERSION_SHORT) then Ok ShowVersion
    else if bool_decide (arg = CONFIG) && negb seen_config then
      match args with
      | [] => Err ConfigRequiresPath
      | path :: args => args_loop args path true check
      end
    else if bool_decide (arg = CHECK) && negb check then args_loop args path seen_config true
    else Err (BadArgument arg)
  end.

Definition parse_args (args : list (list byte)) : outcome ArgError Request :=
  args_loop args DEFAULT_CONFIG false false.

(** ** The service *)

(** [Result::and]. *)
Definition result_and {A B} (r : ioresult A) (r' : ioresult B) : ioresult B :=
  match r with inl e => inl e | inr _ => r' end.

(** How the wait for the TCP listener ends. *)
Inductive Completion := Completed | Disconnected | TimedOut.

(** The results of a service that has ended: of the UDP listener, of the two
    pools' [shutdown], of the connection that wakes [accept], and of the TCP thread,
    [None] when it panicked. *)
Record ServiceEnd := MkEnd {
  se_receive : ioresult unit;
  se_udp_workers : ioresult unit;
  se_wake : ioresult unit;
  se_completion : Completion;
  se_tcp : option (ioresult unit * ioresult unit)
}.

(** [tcp_result] of [Server::run]. *)
Definition tcp_result (e : ServiceEnd) : ioresult unit :=
  match se_completion e with
  | Completed | Disconnected =>
    match se_tcp e with
    | Some (accept, workers) => result_and accept workers
    | None => inl (own_error KOther ListenerPanicked)
    end
  | TimedOut =>
    let wake := match se_wake e with inr _ => None | inl error => Some (err_kind error, err_os error) end in
    inl (own_error KTimedOut (ListenerLate wake))
  end.

Definition server_result (e : ServiceEnd) : ioresult unit :=
  result_and (result_and (se_receive e) (se_udp_workers e)) (tcp_result e).

(** ** The start-up log *)

Definition ROUTE_LOG_LIMIT : nat := 8.

(** What [run] reports about a configuration; [Texts] writes it out. *)
Inductive StartupLine :=
| Loaded (path : list byte)
| DefaultUpstreams (n : nat)
| LocalRecords (n : nat)
| Routes (n : nat)
| RouteTo (suffix : DomainName) (n : nat)
| RoutesOmitted (n : nat)
| ConfigurationValid.

Definition startup_lines (path : list byte) (table : RoutingTable) (check : bool) : list StartupLine :=
  [Loaded path;
   DefaultUpstreams (match rt_default table with Some group => length (servers group) | None => 0 end);
   LocalRecords (length (rt_local table));
   Routes (length (rt_routes table))]
  ++ ((fun route => RouteTo (route_suffix route) (length (servers (route_upstreams route))))
      <$> take ROUTE_LOG_LIMIT (rt_routes table))
  ++ (if ROUTE_LOG_LIMIT <? length (rt_routes table)
      then [RoutesOmitted (length (rt_routes table) - ROUTE_LOG_LIMIT)] else [])
  ++ (if check then [ConfigurationValid] else []).

(** The log of a start fits the lane for events, even if the writer has not
    written a line yet: nothing of it is lost. *)
Lemma startup_lines_fit path table check : length (startup_lines path table check) <= 14.
Proof.
  unfold startup_lines. rewrite !length_app, length_fmap, length_take. unfold ROUTE_LOG_LIMIT.
  destruct (8 <? _), check; cbn [length]; lia.
Qed.

Lemma send_all_important lines : forall output,
  length (important output) + length lines <= IMPORTANT_LANE ->
  important (fold_left (fun o line => send_line line true o) lines output) = important output ++ lines.
Proof.
  induction lines as [|line lines IH]; intros output Hl; [by rewrite app_nil_r|].
  cbn [fold_left]. simpl in Hl. unfold send_line at 2, try_send.
  rewrite (proj2 (Nat.ltb_lt _ _)) by lia. rewrite IH; cbn [important]; [by rewrite <- app_assoc|].
  rewrite length_app. simpl. lia.
Qed.

Lemma startup_log_complete (text : StartupLine -> list byte) path table check :
  let lines := text <$> startup_lines path table check in
  important (fold_left (fun o line => send_line line true o) lines (MkOutput [] [])) = lines.
Proof.
  cbv zeta. apply send_all_important. rewrite length_fmap. cbn [important length].
  pose proof (startup_lines_fit path table check). unfold IMPORTANT_LANE. lia.
Qed.

(** ** [run] and [main] *)

Section main.
Context {toml : Toml}.

Inductive MainError :=
| MainArgs (e : ArgError)
| MainConfig (path : list byte) (e : ConfigError)
| MainSignal (e : IoError)
| MainBind (e : IoError)
| MainService (e : IoError).

Definition from_result {E A} (f : IoError -> E) (r : ioresult A) : outcome E A :=
  match r with inl e => Err (f e) | inr a => Ok a end.

(** [run]: [read] gives the text of a file, [register] the result of installing
    the handlers, [bind] and [start] those of [Server]. *)
Definition run {S} (args : list (list byte)) (read : list byte -> ioresult (list byte))
    (register : ioresult unit) (bind : Config -> ioresult S) (start : S -> ioresult ServiceEnd)
    : outcome MainError unit :=
  let* request := map_err MainArgs (parse_args args) in
  match request with
  | ShowHelp => Ok tt
  | ShowVersion => Ok tt
  | Start path check =>
    let* config := map_err (MainConfig path) (config_load (read path)) in
    if check : bool then Ok tt
    else
      let* _ := from_result MainSignal register in
      let* server := from_result MainBind (bind config) in
      let* service_end := from_result MainService (start server) in
      from_result MainService (server_result service_end)
  end.

Definition exit_status {E} (result : outcome E unit) : outcome E Z :=
  match result with
  | Ok _ => Ok 0%Z
  | Err _ => Ok 1%Z
  | Panic => Panic
  | Diverge => Diverge
  end.

(** [main], given the result of starting the logger. *)
Definition main_ {E} (initialize : ioresult unit) (result : outcome E unit) : outcome E Z :=
  match initialize with inl _ => Ok 1%Z | inr _ => exit_status result end.
End main.

(** [Server] and [Server::bind], given what the system answers. *)
Record Server := MkServer { server_routing : RoutingTable; server_udp : nat; server_tcp : nat }.

Definition server_bind (udp_bind tcp_bind : SocketAddr -> ioresult nat)
    (set_read_timeout set_write_timeout : nat -> Z -> ioresult unit) (config : Config) : ioresult Server :=
  match udp_bind (listen config) with
  | inl e => inl e
  | inr udp =>
    match tcp_bind (listen config) with
    | inl e => inl e
    | inr tcp =>
      result_and (set_read_timeout udp IO_POLL)
        (result_and (set_write_timeout udp IO_POLL) (inr (MkServer (routing config) udp tcp)))
    end
  end.

(** ** The grammar of arguments *)

Inductive Option_ := OptConfig (path : list byte) | OptCheck.

Definition print_option (o : Option_) : list (list byte) :=
  match o with OptConfig path => [CONFIG; path] | OptCheck => [CHECK] end.
Definition print_options (os : list Option_) : list (list byte) := os ≫= print_option.

Definition config_paths1 (o : Option_) : list (list byte) := match o with OptConfig p => [p] | OptCheck => [] end.
Definition config_paths (os : list Option_) : list (list byte) := os ≫= config_paths1.
Definition checks1 (o : Option_) : list unit := match o with OptCheck => [tt] | _ => [] end.
Definition checks (os : list Option_) : list unit := os ≫= checks1.

(** Each option at most once. *)
Definition once (os : list Option_) : Prop := length (config_paths os) <= 1 /\ length (checks os) <= 1.

(** What a command line asks for. *)
Inductive command : list (list byte) -> Request -> Prop :=
| cmd_start os :
    once os ->
    command (print_options os) (Start (default DEFAULT_CONFIG (head (config_paths os))) (bool_decide (checks os <> [])))
| cmd_help os h rest :
    once os -> h = HELP \/ h = HELP_SHORT -> command (print_options os ++ h :: rest) ShowHelp
| cmd_version os v rest :
    once os -> v = VERSION \/ v = VERSION_SHORT -> command (print_options os ++ v :: rest) ShowVersion.

(** The loop from a state where some options were seen. *)
Definition once_more (seen_config check : bool) (os : list Option_) : Prop :=
  length (config_paths os) + (if seen_config then 1 else 0) <= 1
  /\ length (checks os) + (if check then 1 else 0) <= 1.

Inductive command_from (path : list byte) (seen_config check : bool) : list (list byte) -> Request -> Prop :=
| cf_start os :
    once_more seen_config check os ->
    command_from path seen_config check (print_options os)
      (Start (default path (head (config_paths os))) (check || bool_decide (checks os <> [])))
| cf_help os h rest :
    once_more seen_config check os -> h = HELP \/ h = HELP_SHORT ->
    command_from path seen_config check (print_options os ++ h :: rest) ShowHelp
| cf_version os v rest :
    once_more seen_config check os -> v = VERSION \/ v = VERSION_SHORT ->
    command_from path seen_config check (print_options os ++ v :: rest) ShowVersion.

Lemma command_from_config path check arg args r :
  command_from arg true check args r -> command_from path false check (CONFIG :: arg :: args) r.
Proof.
  assert (forall os, once_more true check os -> once_more false check (OptConfig arg :: os)
                     /\ config_paths os = []) as Hos.
  { intros os [H1 H2]. unfold once_more, config_paths, checks in *. rewrite !bind_cons. cbn.
    destruct (os ≫= config_paths1); [split; [split; [lia|exact H2]|done]|simpl in H1; lia]. }
  intros [os Ho|os h rest Ho Hh|os v rest Ho Hv]; destruct (Hos os Ho) as [Ho' He].
  - rewrite He. apply (cf_start path false check (OptConfig arg :: os) Ho').
  - apply (cf_help path false check (OptConfig arg :: os) h rest Ho' Hh).
  - apply (cf_version path false check (OptConfig arg :: os) v rest Ho' Hv).
Qed.

Lemma command_from_check path seen args r :
  command_from path seen true args r -> command_from path seen false (CHECK :: args) r.
Proof.
  assert (forall os, once_more seen true os -> once_more seen false (OptCheck :: os)) as Hos.
  { intros os [H1 H2]. unfold once_more, config_paths, checks in *. rewrite !bind_cons. cbn.
    split; [exact H1|lia]. }
  intros [os Ho|os h rest Ho Hh|os v rest Ho Hv]; apply Hos in Ho.
  - apply (cf_start path seen false (OptCheck :: os) Ho).
  - apply (cf_help path seen false (OptCheck :: os) h rest Ho Hh).
  - apply (cf_version path seen false (OptCheck :: os) v rest Ho Hv).
Qed.

(** Soundness: what the loop accepts is such a command line. *)
Lemma args_loop_sound n : forall args path seen check r,
  length args <= n -> args_loop args path seen check = Ok r -> command_from path seen check args r.
Proof.
  induction n as [|n IH]; intros args path seen check r Hn H.
  { destruct args; [|simpl in Hn; lia]. cbn in H. simplify_eq.
    replace check with (check || bool_decide (checks [] <> [])) at 2 by (by rewrite orb_false_r).
    apply (cf_start path seen check []). unfold once_more. cbn. destruct seen, check; lia. }
  assert (once_more seen check []) as Hnil by (unfold once_more; cbn; destruct seen, check; lia).
  destruct args as [|arg args].
  { cbn in H. simplify_eq. replace check with (check || bool_decide (checks [] <> [])) at 2 by (by rewrite orb_false_r).
    by apply (cf_start path seen check []). }
  cbn [args_loop] in H. simpl in Hn.
  destruct (bool_decide (arg = HELP) || _) eqn:E1.
  { simplify_eq. apply (cf_help path seen check [] arg args Hnil).
    apply orb_true_iff in E1 as [?%bool_decide_eq_true|?%bool_decide_eq_true]; auto. }
  destruct (bool_decide (arg = VERSION) || _) eqn:E2.
  { simplify_eq. apply (cf_version path seen check [] arg args Hnil).
    apply orb_true_iff in E2 as [?%bool_decide_eq_true|?%bool_decide_eq_true]; auto. }
  destruct (_ && negb seen) eqn:E3.
  { apply andb_true_iff in E3 as [->%bool_decide_eq_true Hs%negb_true_iff]. subst seen.
    destruct args as [|p args]; [done|]. apply command_from_config. apply IH; [simpl in *; lia|done]. }
  destruct (_ && negb check) eqn:E4; [|done].
  apply andb_true_iff in E4 as [->%bool_decide_eq_true Hs%negb_true_iff]. subst check.
  apply command_from_check. apply IH; [lia|done].
Qed.

(** The options of a command line take the loop to the state they describe. *)
Lemma args_loop_options os tail : forall path seen check,
  once_more seen check os ->
  args_loop (print_options os ++ tail) path seen check
  = args_loop tail (default path (head (config_paths os)))
      (seen || bool_decide (config_paths os <> [])) (check || bool_decide (checks os <> [])).
Proof.
  induction os as [|[p|] os IH]; intros path seen check [H1 H2].
  - cbn. by rewrite !orb_false_r.
  - unfold config_paths in H1. rewrite bind_cons in H1. cbn in H1.
    destruct seen; [lia|]. cbn in H1.
    assert (config_paths os = []) as He by (unfold config_paths; destruct (os ≫= config_paths1); [done|simpl in H1; lia]).
    transitivity (args_loop (print_options os ++ tail) p true check); [done|].
    rewrite IH; [|split; [rewrite He; simpl; lia|exact H2]].
    unfold config_paths, checks. rewrite !bind_cons. cbn [config_paths1 checks1 app head from_option].
    fold (config_paths os) (checks os). rewrite He. done.
  - unfold checks in H2. rewrite bind_cons in H2. cbn in H2.
    destruct check; [lia|]. cbn in H2.
    assert (checks os = []) as He by (unfold checks; destruct (os ≫= checks1); [done|simpl in H2; lia]).
    transitivity (args_loop (print_options os ++ tail) path seen true); [done|].
    rewrite IH; [|split; [exact H1|rewrite He; simpl; lia]].
    unfold config_paths, checks. rewrite !bind_cons. cbn [config_paths1 checks1 app].
    fold (config_paths os) (checks os). rewrite He. done.
Qed.

Lemma once_more_start os : once os <-> once_more false false os.
Proof. unfold once, once_more. rewrite !Nat.add_0_r. done. Qed.

Lemma command_parses args r : command args r -> parse_args args = Ok r.
Proof.
  unfold parse_args.
  intros [os Ho|os h rest Ho Hh|os v rest Ho Hv]; apply once_more_start in Ho.
  - rewrite <- (app_nil_r (print_options os)), args_loop_options by done. done.
  - rewrite args_loop_options by done. by destruct Hh as [-> | ->].
  - rewrite args_loop_options by done. by destruct Hv as [-> | ->].
Qed.

(** Neither the TOML library nor the file can make the command do more than
    report: what [config_load] returns is an error or a valid configuration. *)
Lemma config_load_wp {toml : Toml} read : wp (config_load read) config_wf.
Proof.
  unfold config_load. destruct read as [e|text]; [done|]. destruct (_ <? _)%Z; [done|apply config_parse_wp].
Qed.

Definition is_ok {A} (r : ioresult A) : bool := match r with inr _ => true | inl _ => false end.

(** Every part of the service ended well. *)
Definition ended_well (e : ServiceEnd) : Prop :=
  se_receive e = inr tt /\ se_udp_workers e = inr tt /\ se_completion e <> TimedOut
  /\ se_tcp e = Some (inr tt, inr tt).

Lemma server_result_ok e : server_result e = inr tt <-> ended_well e.
Proof.
  unfold server_result, tcp_result, ended_well, result_and.
  destruct e as [[e1|[]] [e2|[]] wake c [[[e3|[]] [e4|[]]]|]]; destruct c; cbn; naive_solver.
Qed.

Lemma parse_args_command args r : parse_args args = Ok r <-> command args r.
Proof.
  split; [|apply command_parses]. intros H. apply (args_loop_sound (length args)) in H; [|done].
  destruct H as [os Ho|os h rest Ho Hh|os v rest Ho Hv]; apply once_more_start in Ho; by constructor.
Qed.

Lemma args_loop_safe n : forall args path seen check,
  length args <= n -> safe (args_loop args path seen check).
Proof.
  induction n as [|n IH]; intros [|a l] path seen check Hn; cbn; try done; try (simpl in Hn; lia).
  simpl in Hn. repeat case_match; try done; apply IH; simpl in *; lia.
Qed.

Section main_spec.
Context {toml : Toml} {S : Type} (args : list (list byte)) (read : list byte -> ioresult (list byte))
  (register : ioresult unit) (bind : Config -> ioresult S) (start : S -> ioresult ServiceEnd).

(** How the command succeeds. *)
Inductive succeeds : Prop :=
| su_help : command args ShowHelp -> succeeds
| su_version : command args ShowVersion -> succeeds
| su_checked path config :
    command args (Start path true) -> config_load (read path) = Ok config -> config_wf config -> succeeds
| su_served path config server e :
    command args (Start path false) -> config_load (read path) = Ok config -> config_wf config ->
    register = inr tt -> bind config = inr server -> start server = inr e -> ended_well e -> succeeds.

Lemma from_result_Ok {E A} (f : IoError -> E) (r : ioresult A) a : from_result f r = Ok a <-> r = inr a.
Proof. destruct r; naive_solver. Qed.

Lemma run_succeeds : run args read register bind start = Ok tt <-> succeeds.
Proof.
  unfold run. split.
  - intros (request & Hargs%map_err_Ok%parse_args_command & H)%obind_Ok.
    destruct request as [| |path check]; [by apply su_help|by apply su_version|].
    apply obind_Ok in H as (config & Hl%map_err_Ok & H).
    pose proof (wp_Ok _ _ _ (config_load_wp _) Hl) as Hwf.
    destruct check; [by eapply su_checked|].
    apply obind_Ok in H as ([] & Hr%from_result_Ok & H).
    apply obind_Ok in H as (server & Hb%from_result_Ok & H).
    apply obind_Ok in H as (e & Hs%from_result_Ok & He%from_result_Ok%server_result_ok).
    by eapply su_served.
  - intros [Hc|Hc|path config Hc Hl _|path config server e Hc Hl _ Hr Hb Hs He];
      rewrite (command_parses _ _ Hc); cbn [map_err obind]; try done; rewrite Hl; cbn [map_err obind]; [done|].
    apply server_result_ok in He. by rewrite Hr, Hb; cbn; rewrite Hs; cbn; rewrite He.
Qed.

Lemma run_safe : safe (run args read register bind start).
Proof.
  unfold run. apply wp_bind, wp_map_err. eapply wp_mono; [by eapply args_loop_safe|].
  intros [| |path check] _; try done.
  apply wp_bind, wp_map_err. eapply wp_mono; [apply config_load_wp|]. intros config _.
  destruct check; [done|]. destruct register as [|[]]; [done|].
  destruct (bind config) as [|server]; [done|]. cbn. destruct (start server) as [|e]; [done|]. cbn.
  by destruct (server_result e).
Qed.
End main_spec.

(** ** Properties *)

(** C36: the command line means what its grammar says.  The argument loop asks for
    a start exactly for a sequence of [--config PATH] and [--check], each at most
    once, with the default path where none is given; for help or the version
    exactly when such a sequence is followed by that option, whatever comes
    after; and it rejects every other command line. *)
Theorem command_line_grammar args r : parse_args args = Ok r <-> command args r.
Proof. apply parse_args_command. Qed.

(** C35: success is reported only for success, and nothing is served from an
    invalid configuration.  [run] never panics, whatever its arguments and the
    file.  The exit status is 0 or 1; it is 0 exactly when the logger started and
    help or the version was asked for, or [--check] found a valid configuration -
    and opened nothing - or the service was started from a valid configuration
    and its listeners and all workers of both pools ended well, in time. *)
Theorem exit_status_means_success {toml : Toml} {S} initialize args read register
    (bind : Config -> ioresult S) start :
  exists status, main_ initialize (run args read register bind start) = Ok status
    /\ (status = 0 \/ status = 1)%Z
    /\ (status = 0%Z <-> initialize = inr tt /\ succeeds args read register bind start).
Proof.
  pose proof (run_safe args read register bind start) as Hs.
  pose proof (run_succeeds args read register bind start) as Hi.
  destruct initialize as [e|[]]; cbn [main_].
  { exists 1%Z. split_and!; [done|by right|]. split; [done|by intros [? _]]. }
  destruct (run args read register bind start) as [[]|e| |]; try done; eexists; (split; [done|]);
    rewrite <- Hi; (split; [auto|]); naive_solver.
Qed.

(** A server is bound where its configuration says, for both transports, and
    routes by its table. *)
Lemma server_bind_at udp_bind tcp_bind set_read_timeout set_write_timeout config server :
  server_bind udp_bind tcp_bind set_read_timeout set_write_timeout config = inr server ->
  server_routing server = routing config
  /\ udp_bind (listen config) = inr (server_udp server)
  /\ tcp_bind (listen config) = inr (server_tcp server).
Proof.
  unfold server_bind, result_and. intros H. repeat case_match; simplify_eq/=; done.
Qed.

(** Paths are taken as they come; a repeated option is an error; help wins over
    what follows it. *)
Example sample_command_lines :
  let c := list_byte_of_string "c"%string in
  parse_args [CONFIG; HELP; CHECK] = Ok (Start HELP true)
  /\ parse_args [CHECK; CONFIG; c] = Ok (Start c true)
  /\ parse_args [CONFIG; c; CONFIG; c] = Err (BadArgument CONFIG)
  /\ parse_args [CHECK; CONFIG] = Err ConfigRequiresPath
  /\ parse_args [CHECK; HELP_SHORT; CHECK] = Ok ShowHelp.
Proof. cbv zeta. split_and!; vm_compute; reflexivity. Qed.
