(* ===== verification/Texts.v ===== *)
(** * Diagnostic texts

    The [Display] implementations of the errors and names that reach the log, the
    lines [main] and [run] of [src/src/main.rs] write, and the warnings of the
    listeners, the workers and the exchanges.  Texts of the operating system, of
    the TOML library, of endpoints and of file paths are parameters.  A text of the program
    is one printable line, whatever a client or an upstream sent, unless it quotes
    a path that is none or a syntax error of the TOML library. *)

From Stdlib Require Import String Decimal DecimalString.
From S2P Require Import Prelude Types Name Message Cookie Net Reply Parser Body Samples Sent.
From S2P Require Import Lifecycle.
From S2P Require Import LocalReply Retry Routing Io Sim Transport Upstream Config Logging Main.

#[local] Open Scope string_scope.
#[local] Open Scope nat_scope.
#[local] Open Scope list_scope.
#[local] Coercion list_byte_of_string : string >-> list.

(** ** Texts *)

Definition parse_error_text (e : ParseError) : list byte :=
  match e with
  | UnexpectedEnd => "truncated DNS field"
  | OversizedMessage => "DNS message exceeds 65535 bytes"
  | InvalidLabel => "invalid DNS label encoding"
  | NameTooLong => "DNS name exceeds 255 wire bytes"
  | InvalidPointer => "invalid DNS compression pointer"
  | CompressionLoop => "DNS compression pointer cycle"
  | CompressionDepth => "DNS compression chain exceeds 128 pointers"
  | InvalidCount => "DNS section count cannot fit in message"
  | InvalidRecord => "invalid DNS resource record data"
  | InvalidEdns => "invalid, misplaced or duplicate OPT record"
  | TrailingData => "trailing bytes after DNS sections"
  end.

(** The text of a number. *)
Definition number_text (n : nat) : list byte := NilZero.string_of_uint (Nat.to_uint n).

Definition route_error_text (e : RouteError) : list byte :=
  match e with
  | InvalidAddress => "expected a unicast IP address with a nonzero port"
  | InvalidGroupSize => "each upstream group needs 1..=" ++ number_text MAX_UPSTREAMS ++ " servers"
  | DuplicateServer => "duplicate upstream server"
  | DuplicateRoute name => "duplicate route for " ++ name_display name
  end.

(** The [context] of a configuration error. *)
Definition place_text (p : Place) : list byte :=
  match p with
  | InConfiguration => "configuration"
  | InDefault => "default"
  | InRoute i => "route " ++ number_text i
  | InLocal i => "local " ++ number_text i
  end.

Section texts.
(** The texts of the system: of an error, a path and an endpoint. *)
Context (os_text : IoError -> list byte) (path_text : list byte -> list byte) (socket_text : SocketAddr -> list byte).
(** [{:?}] of a string, and the errors of the TOML library. *)
Context (debug_text : list byte -> list byte).
Context {toml : Toml} (toml_text : toml_error -> list byte).

(** The texts of the sources of the program's own errors. *)
Definition source_text (source : IoSource) : list byte :=
  match source with
  | Cancelled => "shutdown requested"
  | DeadlineExpired => "exchange deadline expired"
  | PartialFrame => "partial TCP frame"
  | ShortFrame => "TCP DNS frame shorter than header"
  | MissingBody => "missing TCP frame body"
  | BadFrameLength => "invalid TCP DNS frame length"
  | WroteZero => "TCP write returned zero"
  | WorkersIncomplete => "worker shutdown incomplete"
  | WorkersFailed => "worker or queue terminated unexpectedly"
  | ListenerPanicked => "TCP listener terminated unexpectedly"
  | ListenerLate wake =>
      "TCP listener shutdown timed out: " ++
      match wake with
      | None => "local wake connection succeeded"
      | Some (kind, os) => "local wake connection failed: " ++ os_text (MkIoError kind None os)
      end
  end.

(** [Display for io::Error]: the source, if the error has one. *)
Definition io_text (e : IoError) : list byte :=
  match err_source e with Some source => source_text source | None => os_text e end.

(** The texts of [ConfigError::Invalid]. *)
Definition invalid_text (reason : Invalid) : list byte :=
  match reason with
  | TooLarge => "configuration exceeds 1 MiB"
  | UnknownKey context key => place_text context ++ ": unknown key " ++ debug_text key
  | NotAString key => key ++ ": expected a string"
  | ListenSyntax =>
      "listen must be an IP address with an optional port (IPv6 with port: [address]:port)"
  | ListenEndpoint e => "listen: " ++ route_error_text e
  | DefaultNotTable => "default must be a table"
  | RouteNotArray => "route must be an array of tables"
  | LocalNotArray => "local must be an array of tables"
  | TooManyRoutes => "at most " ++ number_text MAX_ROUTES ++ " routes are supported"
  | TooManyEntries => "at most " ++ number_text MAX_ROUTES ++ " route and local entries are supported"
  | NotATable context => place_text context ++ ": expected a table"
  | BadDomain context e => place_text context ++ " domain: " ++ parse_error_text e
  | BadLocalAddress context => place_text context ++ " address: expected an IPv4 address"
  | BadTtl context => place_text context ++ " ttl: expected an integer in 0..=2147483647"
  | ServersNotArray => "servers: expected an array of IP address strings with optional ports"
  | ServerNotString => "server address must be a string"
  | BadServerAddress raw => "invalid upstream address " ++ debug_text raw
  end.

Definition config_error_text (e : ConfigError) : list byte :=
  match e with
  | CfgIo e => io_text e
  | CfgSyntax e => toml_text e
  | CfgInvalid reason => invalid_text reason
  | CfgForwardingLoop => "upstream points to the listener (forwarding loop)"
  | CfgRouting e => route_error_text e
  end.

(** The message [run] returns and [exit_status] logs. *)
Definition main_error_text (e : MainError) : list byte :=
  match e with
  | MainArgs ConfigRequiresPath => "--config requires a path"
  | MainArgs (BadArgument arg) => "unknown or repeated argument " ++ debug_text arg ++ "; use --help"
  | MainConfig path e => path_text path ++ ": " ++ config_error_text e
  | MainSignal e => "register shutdown signal: " ++ io_text e
  | MainBind e => "bind DNS listeners: " ++ io_text e
  | MainService e => "DNS service: " ++ io_text e
  end.

Definition forward_error_text (e : ForwardError) : list byte :=
  match e with
  | FwTimeout => "exchange timed out"
  | FwCancelled => "shutdown requested"
  | FwIo e => io_text e
  | FwParse e => parse_error_text e
  | FwInvalidResponse => "invalid or uncorrelated response"
  | FwServerFailure => "upstream returned SERVFAIL"
  | FwRefused => "upstream returned REFUSED"
  end.

(** [UpstreamAddress::fmt]. *)
Definition upstream_text (a : UpstreamAddress) : list byte := socket_text (upstream_socket a).

(** The arguments of [logging::warn]. *)
Definition warning_text (w : Warning) : list byte :=
  match w with
  | MalformedPacket e => "malformed client packet: " ++ parse_error_text e
  | ReplySuppressed => "local error suppressed: no validated response cookie"
  | ForwardingFailed e => "forwarding failed: " ++ forward_error_text e
  | UpstreamFailed a e => "upstream " ++ upstream_text a ++ ": " ++ forward_error_text e
  | UncorrelatedResponse a =>
      "upstream " ++ upstream_text a ++ ": ignored uncorrelated or malformed UDP response"
  | UdpCapacity => "UDP capacity reached; dropping packet"
  | TcpCapacity => "TCP capacity reached; closing connection"
  | HandshakeIgnored e => "TCP accept ignored a failed handshake: " ++ io_text e
  | UdpReplyFailed e => "UDP client response failed: " ++ io_text e
  | TcpClientFailed e => "TCP client connection failed: " ++ io_text e
  end.

(** The arguments of [logging::info] in [Server::run], for its address. *)
Definition service_text (address : SocketAddr) (line : ServiceLine) : list byte :=
  match line with
  | Listening => "startup: listening on " ++ socket_text address ++ " (UDP and TCP)"
  | ShuttingDown => "shutdown: stopping listeners and workers"
  | ShutdownComplete => "shutdown complete"
  end.

(** What [run] writes to the standard output, for the version of the package. *)
Definition help_text (package_version : list byte) : list byte :=
  "Sederial " ++ package_version ++ [x0a]
  ++ "Usage: sederial [--config PATH] [--check]" ++ [x0a; x0a]
  ++ "Default config: " ++ DEFAULT_CONFIG ++ [x0a]
  ++ "--check validates configuration without opening listeners." ++ [x0a]
  ++ "Use SIGTERM or SIGINT for graceful shutdown." ++ [x0a].
Definition version_text (package_version : list byte) : list byte := "sederial " ++ package_version ++ [x0a].
Definition standard_output (package_version : list byte) (request : Request) : list byte :=
  match request with
  | ShowHelp => help_text package_version
  | ShowVersion => version_text package_version
  | Start _ _ => []
  end.

(** The arguments of [logging::info] in [run]. *)
Definition startup_text (line : StartupLine) : list byte :=
  match line with
  | Loaded path => "configuration loaded from " ++ path_text path
  | DefaultUpstreams n => "default: " ++ number_text n ++ " upstream(s)"
  | LocalRecords n => number_text n ++ " local record(s)"
  | Routes n => number_text n ++ " route(s)"
  | RouteTo suffix n => "route " ++ name_display suffix ++ ": " ++ number_text n ++ " upstream(s)"
  | RoutesOmitted n => number_text n ++ " additional route(s) omitted from startup log"
  | ConfigurationValid => "configuration valid"
  end.
End texts.

(** ** One diagnostic, one line *)

(** Valid text without control characters of ASCII: one line of the log. *)
Definition visible (b : byte) : bool := (32 <=? b2z b)%Z && negb (b2z b =? 127)%Z.
Record one_line (text : list byte) : Prop := {
  ol_utf8 : utf8 text;
  ol_visible : Forall (fun b => visible b = true) text
}.

Definition printable (b : byte) : bool := (32 <=? b2z b)%Z && (b2z b <=? 126)%Z.

Lemma utf8_app l l' : utf8 l -> utf8 l' -> utf8 (l ++ l').
Proof.
  intros (cs & Hcs & ->) (cs' & Hcs' & ->). exists (cs ++ cs'). split; [by apply Forall_app|].
  unfold encode. by rewrite bind_app.
Qed.

Lemma ascii_line text : Forall (fun b => printable b = true) text -> one_line text.
Proof.
  intros Ht. split; [exists (b2z <$> text); split|].
  - apply Forall_fmap. eapply Forall_impl; [exact Ht|]. intros b Hb. unfold printable in Hb. bool_to_prop.
    cbn. unfold scalar. lia.
  - unfold encode. rewrite list_fmap_bind. induction Ht as [|b text Hb _ IH]; [done|].
    rewrite bind_cons, <- IH. unfold printable in Hb. bool_to_prop. cbn. unfold encode_char.
    rewrite (proj2 (Z.ltb_lt _ _)) by lia. by rewrite z2b_b2z.
  - eapply Forall_impl; [exact Ht|]. intros b. unfold printable, visible. intros H. bool_to_prop.
    rewrite (proj2 (Z.leb_le _ _)) by lia. by rewrite (proj2 (Z.eqb_neq _ _)) by lia.
Qed.

Lemma one_line_compute text : forallb printable text = true -> one_line text.
Proof.
  intros H. apply ascii_line, Forall_forall. intros b Hb. rewrite forallb_forall in H.
  by apply H, list_elem_of_In.
Qed.

Lemma one_line_app l l' : one_line l -> one_line l' -> one_line (l ++ l').
Proof. intros [? ?] [? ?]. split; [by apply utf8_app|by apply Forall_app]. Qed.

Lemma one_line_concat ls : Forall one_line ls -> one_line (concat ls).
Proof. induction 1; [by apply one_line_compute|by apply one_line_app]. Qed.

Lemma ascii_digits u : Forall (fun b => printable b = true) (list_byte_of_string (NilEmpty.string_of_uint u)).
Proof. induction u; cbn [NilEmpty.string_of_uint]; constructor; done. Qed.

Lemma one_line_number n : one_line (number_text n).
Proof.
  unfold number_text, NilZero.string_of_uint. pose proof (ascii_line _ (ascii_digits (Nat.to_uint n))) as H.
  destruct (Nat.to_uint n); [by apply one_line_compute|exact H..].
Qed.

Lemma one_line_display_byte b : one_line (display_byte b).
Proof. apply one_line_compute. by destruct b; vm_compute. Qed.

(** A name is printed on one line, whatever bytes its labels hold. *)
Lemma one_line_name n : one_line (name_display n).
Proof.
  unfold name_display. destruct (_ =? 0); [by apply one_line_compute|].
  apply one_line_concat, Forall_fmap, Forall_true. intros label. cbn.
  apply one_line_app; [|by apply one_line_compute].
  apply one_line_concat, Forall_fmap, Forall_true. apply one_line_display_byte.
Qed.

Create HintDb lines.
#[export] Hint Resolve one_line_app one_line_number one_line_name : lines.
#[export] Hint Extern 5 (one_line _) => apply one_line_compute; vm_compute; reflexivity : lines.
#[local] Ltac one_line := auto 10 with lines.

Lemma one_line_parse_error e : one_line (parse_error_text e).
Proof. destruct e; cbn [parse_error_text]; one_line. Qed.

Lemma one_line_route_error e : one_line (route_error_text e).
Proof. destruct e; cbn [route_error_text]; one_line. Qed.

Lemma one_line_place p : one_line (place_text p).
Proof. destruct p; cbn [place_text]; one_line. Qed.

#[export] Hint Resolve one_line_parse_error one_line_route_error one_line_place : lines.

(** ** Errors of the configuration *)

(** [raises P m]: the error of [m], if it has one, satisfies [P]. *)
Definition raises {E A} (P : E -> Prop) (m : outcome E A) : Prop :=
  match m with Err e => P e | _ => True end.

Lemma raises_bind {E A B} (P : E -> Prop) (m : outcome E A) (k : A -> outcome E B) :
  raises P m -> (forall a, raises P (k a)) -> raises P (let* a := m in k a).
Proof. intros Hm Hk. destruct m; cbn; auto. Qed.
Lemma raises_ok_or {E A} (P : E -> Prop) (o : option A) e : P e -> raises P (ok_or o e).
Proof. by destruct o. Qed.
Lemma raises_map_err {E F A} (P : F -> Prop) (f : E -> F) (m : outcome E A) :
  (forall e, P (f e)) -> raises P (map_err f m).
Proof. intros H. destruct m; cbn; auto. Qed.

Section config_errors.
Context {toml : Toml}.

(** An error quotes no text as it is but the name of a setting. *)
Definition names_setting (e : ConfigError) : Prop :=
  match e with CfgInvalid (NotAString key) => one_line key | _ => True end.

Lemma required_string_raises table key : one_line key -> raises names_setting (required_string table key).
Proof. intros. by apply raises_ok_or. Qed.

Lemma reject_raises table allowed context : raises names_setting (reject_unknown_keys table allowed context).
Proof.
  unfold reject_unknown_keys. induction (table_keys table) as [|k keys IH]; [done|]. cbn [reject_keys].
  by destruct (negb _).
Qed.

Lemma parse_servers_raises l values : forall acc, raises names_setting (parse_servers values l acc).
Proof.
  induction values as [|v values IH]; intros acc; [done|]. cbn [parse_servers].
  apply raises_bind; [by apply raises_ok_or|]. intros raw.
  apply raises_bind; [by apply raises_ok_or|]. intros a. destruct (_ && _); [done|].
  apply raises_bind; [by apply raises_map_err|]. intros ?. apply IH.
Qed.

Lemma parse_group_raises table l : raises names_setting (parse_upstream_group table l).
Proof.
  apply raises_bind; [by apply raises_ok_or|]. intros values.
  apply raises_bind; [apply parse_servers_raises|]. intros ?. by apply raises_map_err.
Qed.

Lemma parse_domain_raises table context : raises names_setting (parse_domain table context).
Proof.
  apply raises_bind; [by apply required_string_raises, one_line_compute|]. intros ?. by apply raises_map_err.
Qed.

Lemma parse_route_raises l i value : raises names_setting (parse_route l i value).
Proof.
  apply raises_bind; [by apply raises_ok_or|]. intros table.
  apply raises_bind; [apply reject_raises|]. intros _.
  apply raises_bind; [apply parse_domain_raises|]. intros suffix.
  by apply raises_bind; [apply parse_group_raises|].
Qed.

Lemma parse_local_record_raises i value : raises names_setting (parse_local_record i value).
Proof.
  apply raises_bind; [by apply raises_ok_or|]. intros table.
  apply raises_bind; [apply reject_raises|]. intros _.
  apply raises_bind; [apply parse_domain_raises|]. intros suffix.
  apply raises_bind; [by apply required_string_raises, one_line_compute|]. intros text.
  apply raises_bind; [by apply raises_ok_or|]. intros address.
  apply raises_bind; [|done]. unfold parse_ttl. destruct (table_get _ _); [by apply raises_ok_or|done].
Qed.

Lemma parse_entries_raises {A} (parse : nat -> toml_value -> outcome ConfigError A) values index acc :
  (forall i value, raises names_setting (parse i value)) ->
  raises names_setting (parse_entries parse index values acc).
Proof.
  intros Hp. revert index acc. induction values as [|v values IH]; intros index acc; [done|].
  by apply raises_bind; [|intros a; apply IH].
Qed.

(** An optional array of entries. *)
Lemma optional_array_raises {A} (value : option toml_value) (too_long : list toml_value -> bool)
    (parse : list toml_value -> outcome ConfigError (list A)) e1 e2 :
  names_setting e1 -> names_setting e2 -> (forall array, raises names_setting (parse array)) ->
  raises names_setting (match value with
    | None => Ok []
    | Some value => let* array := ok_or (value_array value) e1 in if too_long array then Err e2 else parse array
    end).
Proof.
  intros H1 H2 Hp. destruct value; [|done]. apply raises_bind; [by apply raises_ok_or|].
  intros array. by destruct (too_long array).
Qed.

Lemma config_parse_raises text : raises names_setting (config_parse text).
Proof.
  apply raises_bind; [by destruct (toml_parse text)|]. intros table.
  apply raises_bind; [apply reject_raises|]. intros _.
  apply raises_bind; [by apply required_string_raises, one_line_compute|]. intros raw.
  apply raises_bind; [by apply raises_ok_or|]. intros a.
  apply raises_bind; [by apply raises_map_err|]. intros l. cbv zeta.
  apply raises_bind.
  { destruct (table_get table KEY_DEFAULT); [|done]. apply raises_bind; [|done].
    apply raises_bind; [by apply raises_ok_or|]. intros ?.
    apply raises_bind; [apply reject_raises|]. intros _. apply parse_group_raises. }
  intros default. apply raises_bind.
  { apply (optional_array_raises _ (fun array => MAX_ROUTES <? length array)); [done..|].
    intros array. apply parse_entries_raises, parse_route_raises. }
  intros routes. apply raises_bind.
  { apply (optional_array_raises _ (fun array => MAX_ROUTES <? length routes + length array)); [done..|].
    intros array. apply parse_entries_raises, parse_local_record_raises. }
  intros local. by apply raises_bind; [apply raises_map_err|].
Qed.

Lemma config_load_raises read : raises names_setting (config_load read).
Proof. unfold config_load. destruct read; [done|]. destruct (_ <? _)%Z; [done|apply config_parse_raises]. Qed.
End config_errors.

(** ** What the program reports *)

Section reported.
Context {toml : Toml} (os_text : IoError -> list byte) (path_text debug_text : list byte -> list byte)
  (toml_text : toml_error -> list byte) (socket_text : SocketAddr -> list byte).

(** Texts that come from outside and are lines themselves: the system's texts for
    its errors, [Debug] of a string, which escapes control characters, and an
    endpoint.  A path is shown as it is, and the TOML library quotes the document:
    neither need be a line. *)
Record system_lines : Prop := {
  sl_os e : one_line (os_text e);
  sl_debug text : one_line (debug_text text);
  sl_socket a : one_line (socket_text a)
}.

(** What is quoted as it is: by a start, the path; by the final error, the path, and
    what the TOML library says of the syntax. *)
Definition startup_quotes (line : StartupLine) : Prop :=
  match line with Loaded path => one_line (path_text path) | _ => True end.
Definition final_quotes (e : MainError) : Prop :=
  match e with
  | MainConfig path (CfgSyntax _) => False
  | MainConfig path _ => one_line (path_text path)
  | _ => True
  end.

(** What the program reports of parsing, routing, forwarding, starting and
    stopping, each warning, and its final error; but for a quoted path that is not
    a line, and for an error of TOML syntax. *)
Inductive reported : list byte -> Prop :=
| rp_parse e : reported (parse_error_text e)
| rp_route e : reported (route_error_text e)
| rp_forward e : reported (forward_error_text os_text e)
| rp_warning w : reported (warning_text os_text socket_text w)
| rp_startup line : startup_quotes line -> reported (startup_text path_text line)
| rp_service address line : reported (service_text socket_text address line)
| rp_final {S} args read register (bind : Config -> ioresult S) start e :
    run args read register bind start = Err e -> final_quotes e ->
    reported (main_error_text os_text path_text debug_text toml_text e).

Context (Hsys : system_lines).

Lemma one_line_startup line : startup_quotes line -> one_line (startup_text path_text line).
Proof. intros. destruct Hsys, line; cbn [startup_text]; one_line. Qed.

Lemma one_line_service address line : one_line (service_text socket_text address line).
Proof. destruct Hsys, line; cbn [service_text]; one_line. Qed.

Lemma one_line_io e : one_line (io_text os_text e).
Proof.
  unfold io_text. destruct Hsys, (err_source e) as [source|]; [|done].
  destruct source as [| | | | | | | | | |[[kind os]|]]; cbn [source_text]; one_line.
Qed.

Lemma one_line_forward_error e : one_line (forward_error_text os_text e).
Proof. pose proof one_line_io. destruct e; cbn [forward_error_text]; one_line. Qed.

Lemma one_line_warning w : one_line (warning_text os_text socket_text w).
Proof.
  destruct w; cbn [warning_text]; unfold upstream_text;
    pose proof one_line_forward_error; pose proof one_line_io; destruct Hsys; one_line.
Qed.

Lemma one_line_config_error e :
  names_setting e -> (forall e', e <> CfgSyntax e') -> one_line (config_error_text os_text debug_text toml_text e).
Proof.
  intros Hn Hs. pose proof one_line_io. destruct Hsys, e as [e|e|reason| |e]; cbn [config_error_text]; [one_line|by destruct (Hs e)| |one_line..].
  destruct reason; cbn [invalid_text]; one_line.
Qed.

Lemma one_line_final {S} args read register (bind : Config -> ioresult S) start e :
  run args read register bind start = Err e -> final_quotes e ->
  one_line (main_error_text os_text path_text debug_text toml_text e).
Proof.
  intros Hrun Hs. pose proof one_line_io. destruct Hsys, e as [[|arg]|path e|e|e|e]; cbn [main_error_text]; one_line.
  assert (one_line (path_text path) /\ (forall e', e <> CfgSyntax e')) as [Hp Hs'] by (by destruct e).
  apply one_line_app; [done|]. apply one_line_app; [one_line|]. apply one_line_config_error; [|done].
  - assert (raises (fun m => match m with MainConfig _ e => names_setting e | _ => True end)
      (run args read register bind start)) as Hr; [|by rewrite Hrun in Hr].
    apply raises_bind; [by apply raises_map_err|]. intros [| |p check]; [done..|].
    apply raises_bind.
    { pose proof (config_load_raises (read p)) as Hl. destruct (config_load (read p)); cbn; auto. }
    intros config. destruct check; [done|].
    apply raises_bind; [by destruct register|]. intros _.
    apply raises_bind; [by destruct (bind config)|]. intros server.
    apply raises_bind; [by destruct (start server)|]. intros service_end. by destruct (server_result _).
Qed.

Lemma reported_one_line message : reported message -> one_line message.
Proof.
  intros [e|e|e|w|line|address line|S args read register bind start e Hr Hs];
    eauto using one_line_startup, one_line_service, one_line_forward_error, one_line_warning, one_line_final with lines.
Qed.
End reported.

(** C40: a diagnostic is one line of the log, and no client, upstream or setting can
    make it two.  Given that the system's texts of errors and endpoints and [Debug]
    of a string are lines themselves, every warning, and every text the program
    reports of parsing, routing, forwarding, its start and its end, is sent by
    [emit], without a panic, as one line of visible text of at most 2048 bytes.  Two
    texts are left out, since they are quoted as they come: a path that is not a line
    itself, and what the TOML library says of a syntax error. *)
Theorem diagnostics_are_lines {E} {toml : Toml} os_text path_text debug_text toml_text socket_text level message
    imp output :
  system_lines os_text debug_text socket_text -> one_line level ->
  reported os_text path_text debug_text toml_text socket_text message ->
  exists line, emit (E:=E) level message imp (Some output) = Ok (Some (send_line line imp output))
    /\ one_line line /\ length line <= MAX_LINE /\ line `prefix_of` level ++ [x20] ++ message.
Proof.
  intros Hsys Hl Hm%reported_one_line; [|done].
  assert (one_line (level ++ [x20] ++ message)) as Hall by one_line.
  destruct (cut_line_spec (E:=E) _ (ol_utf8 _ Hall)) as (line & Hc & Hu & [k Hk] & Hlen & _).
  exists line. split_and!; [unfold emit; by rewrite Hc| |done|by exists k].
  split; [done|]. pose proof (ol_visible _ Hall) as Hv. rewrite Hk in Hv. by apply Forall_app in Hv as [? _].
Qed.

(** A path is the operator's: one with a line break makes two lines of one. *)
Example path_breaks_line :
  ~ one_line (startup_text (fun path => path) (Loaded (list_byte_of_string "a" ++ [x0a] ++ list_byte_of_string "b"))).
Proof.
  intros [_ Hv]. rewrite Forall_forall in Hv. assert (visible x0a = true) as H; [|by vm_compute in H].
  apply Hv, list_elem_of_In. vm_compute. tauto.
Qed.

(** Names of hostile bytes, numbers, and an error with its place. *)
Example sample_texts :
  route_error_text (DuplicateRoute (MkName [list_byte_of_string "lan"; [x0a; x2e; xff]]))
  = "duplicate route for lan.\010\046\255."
  /\ startup_text (fun path => path) (RouteTo (MkName [list_byte_of_string "lan"]) 12)
     = "route lan.: 12 upstream(s)"
  /\ invalid_text (fun text => text) (BadDomain (InRoute 10) NameTooLong)
     = "route 10 domain: DNS name exceeds 255 wire bytes"
  /\ forward_error_text (fun _ => "") (FwIo (own_error KUnexpectedEof PartialFrame)) = "partial TCP frame"
  /\ io_text (fun _ => "refused") (own_error KTimedOut (ListenerLate (Some (KOther, Some 111%Z))))
     = "TCP listener shutdown timed out: local wake connection failed: refused"
  /\ standard_output "0.3.0" ShowVersion = "sederial 0.3.0" ++ [x0a].
Proof. split_and!; vm_compute; reflexivity. Qed.

(** The final error for an argument that tries to add a line, with a [Debug] that
    escapes it. *)
Definition sample_debug (text : list byte) : list byte := concat (display_byte <$> text).
Definition sample_argument : list byte := list_byte_of_string "x" ++ [x0a] ++ list_byte_of_string "ERROR".

Lemma diagnostics_are_lines_witness :
  exists line, emit (E:=unit) ERROR
      ("unknown or repeated argument " ++ "x\010ERROR" ++ "; use --help") true (Some (MkOutput [] []))
    = Ok (Some (send_line line true (MkOutput [] [])))
    /\ one_line line /\ length line <= MAX_LINE
    /\ line `prefix_of` ERROR ++ [x20] ++ "unknown or repeated argument " ++ "x\010ERROR" ++ "; use --help".
Proof.
  apply (diagnostics_are_lines (E:=unit) (toml := tree_toml []) (fun _ => "failed") (fun _ => "path") sample_debug
    (fun _ => "syntax") (fun _ => "192.0.2.1:53") ERROR _ true (MkOutput [] [])).
  - split; [by intros; apply one_line_compute| |by intros; apply one_line_compute].
    intros text. apply one_line_concat, Forall_fmap, Forall_true. apply one_line_display_byte.
  - by apply one_line_compute.
  - apply (rp_final (toml := tree_toml []) (fun _ => "failed") (fun _ => "path") sample_debug (fun _ => "syntax")
      (fun _ => "192.0.2.1:53") [sample_argument] (fun _ => inr []) (inr tt) (S := unit) (fun _ => inr tt) (fun _ => inl (io_error KOther))
      (MainArgs (BadArgument sample_argument))); [vm_compute; reflexivity|exact I].
Defined.
