(* ===== verification/Testing.v ===== *)
(** * Running the repository's own tests

    The functions marked [#\[test\]] under [src/src/] are written once more
    against the model, in the files [*Tests], and evaluated there: every example of
    the authors holds of the definitions as it holds of the code.  A test that
    passes returns; [unwrap] of an error and a failed assertion are [Panic], as in
    Rust. *)

From Stdlib Require Strings.String.
From S2P Require Import Prelude Types Name.

#[global] Open Scope list_scope.

(** A test has no error to return. *)
Notation test := (outcome Empty_set) (only parsing).

Definition unwrap {E A} (o : outcome E A) : test A :=
  match o with Ok a => Ok a | Diverge => Diverge | _ => Panic end.
Definition unwrap_err {E A} (o : outcome E A) : test E :=
  match o with Err e => Ok e | Diverge => Diverge | _ => Panic end.
Definition unwrap_some {A} (o : option A) : test A := or_panic o.

(** [assert!], and the [assert_eq!] of values whose equality is decidable. *)
Definition assert (b : bool) : test unit := if b then Ok tt else Panic.
Notation assert_eq a b := (assert (bool_decide (a = b))) (only parsing).

(** [assert!(r.is_ok())] and [assert!(r.is_err())]. *)
Definition assert_ok {E A} (o : outcome E A) : test unit := let* _ := unwrap o in Ok tt.
Definition assert_err {E A} (o : outcome E A) : test unit := let* _ := unwrap_err o in Ok tt.

(** [for x in l]. *)
Fixpoint for_each {A} (l : list A) (body : A -> test unit) : test unit :=
  match l with [] => Ok tt | x :: l => let* _ := body x in for_each l body end.

(** Byte strings. *)
Notation text s := (String.list_byte_of_string s%string) (only parsing).
Definition bytes (l : list nat) : list byte := n2b <$> l.

(** [w\[i\] |= mask], [w\[i\] = b] and [w\[i\] ^= mask], with [i] in range. *)
Definition set_at (i b : nat) (w : list byte) : list byte := <[i := n2b b]> w.
Definition or_at (i : nat) (mask : Z) (w : list byte) : list byte :=
  alter (fun b => z2b (Z.lor (b2z b) mask)) i w.
Definition xor_at (i : nat) (mask : Z) (w : list byte) : list byte :=
  alter (fun b => z2b (Z.lxor (b2z b) mask)) i w.
(** [w\[i..i + 2\].copy_from_slice(&n.to_be_bytes())]. *)
Definition word_set (i : nat) (n : Z) (w : list byte) : test (list byte) := copy_at w i (to_be16 n).

(** [text.parse::<DomainName>()], unwrapped. *)
Definition domain (s : list byte) : test DomainName := unwrap (name_from_str s).

(** A test passes when it returns; [run_tests] evaluates a list of them. *)
Definition pass (t : test unit) : Prop := t = Ok tt.
Ltac run_tests :=
  repeat (apply List.Forall_cons; [vm_compute; reflexivity|]); apply List.Forall_nil.
