(* ===== verification/DnsTests.v ===== *)
(** * Tests of the protocol boundary

    [src/src/dns/tests.rs] and the tests of [src/src/dns/cookie.rs], run on
    [Parser], [Message], [Reply], [Sent] and [Cookie]. *)

From S2P Require Import Prelude Types Name Message Cookie Net Reply Parser Sent Testing.

(** ** [src/src/dns/tests.rs] *)

(** [parse(..).unwrap()], and the decision on it. *)
Definition parsed_packet (w : list byte) : test Packet := unwrap (packet_parse w).
Definition decision (p : Packet) : test QueryDecision := validate_query p.

Definition is_forwarded (p : Packet) : test bool :=
  let* d := decision p in Ok (match d with Forward _ => true | _ => false end).
Definition forwardable_query (p : Packet) : test Query :=
  let* d := decision p in match d with Forward q => Ok q | _ => Panic end.
Definition forwarded_name (p : Packet) : test DomainName :=
  let* q := forwardable_query p in Ok (query_get_name q).
Definition rejected (p : Packet) : test ResponseCode :=
  let* d := decision p in match d with Reject code => Ok code | _ => Panic end.

(** Independent wire vector: ID 0x1234, RD, one A/IN question for www.example.com. *)
Definition QUERY : list byte :=
  bytes [18; 52; 1; 0; 0; 1; 0; 0; 0; 0; 0; 0; 3] ++ text "www" ++ bytes [7] ++ text "example"
  ++ bytes [3] ++ text "com" ++ bytes [0; 0; 1; 0; 1].

Definition local_a_replies_preserve_cookie_suppression_and_parse_as_complete_answers : test unit :=
  for_each [0; 8; 16; 40] (fun cookie_length =>
    let wire := set_at 11 1 QUERY ++ bytes [0; 0; 41; 4; 208; 0; 0; 0; 0]
                ++ to_be16 (if cookie_length =? 0 then 0 else Z.of_nat (4 + cookie_length)) in
    let wire := if cookie_length =? 0 then wire
                else wire ++ to_be16 10 ++ to_be16 (Z.of_nat cookie_length) ++ replicate cookie_length (n2b 42) in
    let* packet := parsed_packet wire in
    let* query := forwardable_query packet in
    let* reply := query_local_a_reply query (Ipv4 (n2b 10) (n2b 77) (n2b 20) (n2b 2)) 60 in
    if 8 <? cookie_length then assert (negb (is_some reply))
    else
      let* reply := unwrap_some reply in
      let* reply := parsed_packet reply in
      let* _ := assert_eq (response_code reply) NoError in
      let* _ := assert_eq (ancount (h_counts (header reply))) 1%Z in
      let* _ := assert_eq (arcount (h_counts (header reply))) 1%Z in
      let* _ := assert (corresponds_to reply query (query_id query)) in
      assert (negb (is_some (cookie reply)))).

Definition header_and_question_vector : test unit :=
  let* packet := parsed_packet QUERY in
  let* _ := assert_eq (h_id (header packet)) 0x1234%Z in
  let* _ := assert_eq (message_type (header packet)) MtQuery in
  let* _ := assert_eq (header_opcode (header packet)) OpQuery in
  let* _ := assert (negb (header_truncated (header packet))) in
  let* name := forwarded_name packet in
  let* expected := domain (text "WWW.EXAMPLE.COM.") in
  let* _ := assert (name_eqb name expected) in
  let* question := index (questions packet) 0 in
  let* _ := assert_eq (q_kind question) TA in
  let* _ := assert_eq (q_class question) CIn in
  assert_eq (wire packet) QUERY.

Definition responses_cannot_be_used_as_validated_queries : test unit :=
  let* packet := parsed_packet (or_at 2 0x80 QUERY) in
  let* d := decision packet in
  assert (match d with Ignore => true | _ => false end).

Definition malformed_query_flags_and_missing_question_are_rejected : test unit :=
  let* _ := for_each [(2, 2%Z); (3, 1%Z)] (fun '(offset, mask) =>
    let* packet := parsed_packet (or_at offset mask QUERY) in
    let* code := rejected packet in
    assert_eq code FormatError) in
  let* wire := index_range QUERY 0 HEADER_LENGTH in
  let* packet := parsed_packet (set_at 5 0 wire) in
  let* code := rejected packet in
  assert_eq code FormatError.

(** RFC example layout at offsets 20 (F.ISI.ARPA), 32 (FOO + pointer), 38 (pointer). *)
Definition compression_rfc1035_section_4_1_4 : test unit :=
  let w := replicate 20 x00 ++ bytes [1] ++ text "F" ++ bytes [3] ++ text "ISI" ++ bytes [4] ++ text "ARPA"
           ++ bytes [0; 3] ++ text "FOO" ++ bytes [192; 20; 192; 32] in
  for_each [(20, 32, text "F.ISI.ARPA"); (32, 38, text "FOO.F.ISI.ARPA"); (38, 40, text "FOO.F.ISI.ARPA")]
    (fun '(start, end_, expected) =>
      let* (name, cursor) := unwrap (name_decode w start) in
      let* expected := domain expected in
      let* _ := assert (name_eqb name expected) in
      assert_eq cursor end_).

Definition names_preserve_binary_labels_and_enforce_limits : test unit :=
  let w := bytes [3; 255] ++ text ".a" ++ bytes [0] in
  let* (name, _) := unwrap (name_decode w 0) in
  let* _ := assert_eq (name_encode name) w in
  let* _ := assert_eq (name_display name) (text "\255\046a.") in
  let max := join_dot [replicate 63 x61; replicate 63 x62; replicate 63 x63; replicate 61 x64] in
  let* _ := assert_ok (name_from_str max) in
  let* e := unwrap_err (name_from_str (max ++ text "d")) in
  let* _ := assert_eq e NameTooLong in
  let* _ := assert_err (name_from_str (replicate 64 x61)) in
  let* root := domain (text ".") in
  let* _ := assert_eq (label_count root) 0 in
  let* _ := for_each [[]; text "a..b"; text ".a"; text "é.test"; text "a b"; text "*.test"]
              (fun invalid => assert_err (name_from_str invalid)) in
  assert_ok (name_from_str (text "123._tcp.test")).

Fixpoint pointer_chain (hops : nat) (w : list byte) (previous : nat) : list byte * nat :=
  match hops with
  | O => (w, previous)
  | S hops => pointer_chain hops (w ++ to_be16 (Z.lor 0xc000 (Z.of_nat previous))) (length w)
  end.

Definition hostile_compression_and_labels : test unit :=
  let* _ := for_each
    [bytes [192; 12]; bytes [192; 255]; bytes [192]; bytes [192; 0]; bytes [64]; bytes [128];
     bytes [4] ++ text "abc"; bytes [192; 14; 192; 12]; bytes [1] ++ text "a" ++ bytes [192; 12]]
    (fun tail => assert_err (name_decode (replicate HEADER_LENGTH x00 ++ tail) HEADER_LENGTH)) in
  let '(w, previous) := pointer_chain 130 (replicate HEADER_LENGTH x00 ++ [x00]) HEADER_LENGTH in
  let* e := unwrap_err (name_decode w previous) in
  assert_eq e CompressionDepth.

Definition counts_trailing_data_and_all_truncations : test unit :=
  let* _ := for_each (seq 0 (length QUERY)) (fun len =>
    let* w := index_range QUERY 0 len in assert_err (packet_parse w)) in
  let* _ := for_each [4; 6; 8; 10] (fun field =>
    let* w := word_set field 65535 QUERY in
    let* e := unwrap_err (packet_parse w) in
    assert_eq e InvalidCount) in
  let* e := unwrap_err (packet_parse (QUERY ++ [x00])) in
  let* _ := assert_eq e TrailingData in
  let* e := unwrap_err (packet_parse (replicate (Z.to_nat (MAX_MESSAGE_LENGTH + 1)) x00)) in
  assert_eq e OversizedMessage.

Definition unknown_types_classes_opcodes_and_records_are_representable : test unit :=
  let* w := copy_at QUERY (length QUERY - 4) (bytes [253; 232; 253; 233]) in
  let w := set_at 11 1 (set_at 2 0x79 w)
           ++ bytes [192; 12; 253; 234; 0; 1; 0; 0; 0; 60; 0; 2; 255; 192] in
  let* packet := parsed_packet w in
  let* question := index (questions packet) 0 in
  let* _ := assert_eq (q_kind question) (TUnknown 65000) in
  let* _ := assert_eq (q_class question) (CUnknown 65001) in
  let* _ := assert_eq (header_opcode (header packet)) (OpUnknown 15) in
  let* code := rejected packet in
  let* _ := assert_eq code NotImplemented in
  assert_eq (wire packet) w.

Definition with_opt (v : nat) : list byte :=
  set_at 11 1 QUERY ++ bytes [0; 0; 41; 16; 0; 0; v; 128; 0; 0; 5; 253; 232; 0; 1; 42].

Definition edns_size_options_version_and_generated_errors : test unit :=
  let size_at := length QUERY + 3 in
  let* packet := parsed_packet (with_opt 0) in
  let* f := is_forwarded packet in
  let* _ := assert f in
  let* _ := assert_eq (udp_limit packet) SERVER_UDP_LENGTH in
  let* plain := parsed_packet QUERY in
  let* _ := assert_eq (udp_limit plain) CLASSIC_UDP_LENGTH in
  let* error := parsed_packet (error_reply packet ServerFailure) in
  let* _ := assert_eq (response_code error) ServerFailure in
  let* opt := unwrap_some (edns error) in
  let* _ := assert (dnssec_ok opt) in
  let* bad := parsed_packet (with_opt 1) in
  let* code := rejected bad in
  let* _ := assert_eq code BadVersion in
  let* error := parsed_packet (error_reply bad BadVersion) in
  let* _ := assert_eq (response_code error) BadVersion in
  let* opt := unwrap_some (edns error) in
  let* _ := assert_eq (version opt) 0%Z in
  let* small := word_set size_at 128 (with_opt 0) in
  let* small := parsed_packet small in
  let* _ := assert_eq (udp_limit small) CLASSIC_UDP_LENGTH in
  let* _ := for_each [1; 3; 4]%Z (fun size =>
    let* w := word_set size_at size (with_opt 0) in
    let* packet := parsed_packet w in
    let* opt := unwrap_some (edns packet) in
    assert_eq (udp_size opt) size) in
  let* _ := assert_eq (rcode_from_wire 23) BadCookie in
  let* _ := assert_eq (rcode_wire BadCookie) 23%Z in
  let* h := unwrap (header_parse QUERY) in
  let* reply := parsed_packet (header_error_reply h HRC_FORMAT_ERROR) in
  let* _ := assert_eq (response_code reply) FormatError in
  assert (negb (is_some (edns reply))).

Definition malformed_opt_and_resource_data_rejected : test unit :=
  let duplicated := set_at 11 2 (with_opt 0) ++ drop (length QUERY) (with_opt 0) in
  let* e := unwrap_err (packet_parse duplicated) in
  let* _ := assert_eq e InvalidEdns in
  let misplaced := set_at 7 1 (set_at 11 0 (with_opt 0)) in
  let* e := unwrap_err (packet_parse misplaced) in
  let* _ := assert_eq e InvalidEdns in
  let option := set_at (length (with_opt 0) - 2) 2 (with_opt 0) in
  let* e := unwrap_err (packet_parse option) in
  let* _ := assert_eq e InvalidEdns in
  for_each
    [bytes [192; 12; 0; 1; 0; 1; 0; 0; 0; 0; 0; 3; 1; 2; 3];
     bytes [192; 12; 0; 5; 0; 1; 0; 0; 0; 0; 0; 2; 192; 255];
     bytes [192; 12; 0; 16; 0; 1; 0; 0; 0; 0; 0; 2; 5] ++ text "a"]
    (fun data => assert_err (packet_parse (set_at 7 1 QUERY ++ data))).

Definition response_correlation_and_safe_truncation : test unit :=
  let* packet := parsed_packet QUERY in
  let* query := forwardable_query packet in
  let* response := parsed_packet (error_reply packet NoError) in
  let* sent := query_sent query (query_id query) in
  let* response := validate_response sent response in
  let* response := unwrap_some response in
  let* w := query_truncated_reply query response in
  let* reply := parsed_packet w in
  let* _ := assert (header_truncated (header reply)) in
  let* _ := assert (corresponds_to reply query (query_id query)) in
  let* _ := assert (negb (corresponds_to reply query 0)) in
  let* _ := assert (negb (corresponds_to packet query (query_id query))) in
  for_each [2; 13; length QUERY - 1; length QUERY - 3] (fun i =>
    let other := xor_at i (if i =? 2 then 8 else 1) w in
    let* other := parsed_packet other in
    assert (negb (corresponds_to other query (query_id query)))).

Definition structured_opt_mutations_retain_only_safe_error_context : test unit :=
  let* _ := for_each [0; 1; 4; 5; 6; 255; 65535]%Z (fun len =>
    let* w := word_set (length QUERY + 9) len (with_opt 0) in
    if (len =? 5)%Z then assert_ok (packet_parse w)
    else
      let* failure := unwrap_err (parse w) in
      let* reply := unwrap_some (failure_format_reply failure) in
      let* _ := assert_eq (take 2 reply) (take 2 QUERY) in
      if ((5 <? len) || ((1 <=? len) && (len <? 5)))%Z then
        let* counts := index_range reply 4 12 in
        let* _ := assert_eq counts (bytes [0; 1; 0; 0; 0; 0; 0; 1]) in
        assert_eq (drop (length QUERY) reply) (bytes [0; 0; 41; 4; 208; 0; 0; 128; 0; 0; 0])
      else assert_eq (length reply) 12) in
  let response := removelast (or_at 2 0x80 (with_opt 0)) in
  let* failure := unwrap_err (parse response) in
  let* _ := assert (negb (is_some (failure_format_reply failure))) in
  let other := set_at 5 2 (set_at 2 0x79 QUERY) ++ drop 12 QUERY in
  let* packet := parsed_packet other in
  let* code := rejected packet in
  assert_eq code NotImplemented.

(** ** Tests of [src/src/dns/cookie.rs] *)

Definition WWW : list byte :=
  bytes [3] ++ text "www" ++ bytes [7] ++ text "example" ++ bytes [3] ++ text "com" ++ bytes [0; 0; 1; 0; 1].

Definition query_with_cookie (server : option (list byte)) : list byte :=
  let server := default [] server in
  let data_len := Z.of_nat (8 + length server) in
  bytes [18; 52; 1; 0; 0; 1; 0; 0; 0; 0; 0; 1] ++ WWW ++ bytes [0; 0; 41; 4; 208; 0; 0; 0; 0]
  ++ to_be16 (4 + data_len) ++ to_be16 COOKIE_OPTION ++ to_be16 data_len ++ bytes [1; 2; 3; 4; 5; 6; 7; 8] ++ server.

Definition as_badcookie (w : list byte) : list byte :=
  let opt := 12 + length WWW in set_at (opt + 5) 1 (set_at 3 0x87 (or_at 2 0x80 w)).

Definition present_slot (p : Packet) : test CookieSlot :=
  match cookie p with Some (Present slot) => Ok slot | _ => Panic end.

Definition retry_inserts_the_server_cookie_and_rejects_a_mismatch : test unit :=
  let* sent := parsed_packet (query_with_cookie None) in
  let* _ := forwardable_query sent in
  let server := replicate 8 x11 in
  let* response := parsed_packet (as_badcookie (query_with_cookie (Some server))) in
  let* retry := cookie_retry sent response in
  let* rewritten := match retry with Rewrite w => Ok w | _ => Panic end in
  let* packet := parsed_packet rewritten in
  let* slot := present_slot packet in
  let* client := index_range rewritten (data_at slot) (data_at slot + 8) in
  let* _ := assert_eq client (bytes [1; 2; 3; 4; 5; 6; 7; 8]) in
  let* rest := index_range rewritten (data_at slot + 8) (data_at slot + data_len slot) in
  let* _ := assert_eq rest server in
  let* _ := forwardable_query packet in
  let* again := cookie_retry packet response in
  let* _ := assert (match again with Current => true | _ => false end) in
  let mismatched := as_badcookie (query_with_cookie (Some server)) in
  let* p := parsed_packet mismatched in
  let* slot := present_slot p in
  let* mismatched := parsed_packet (xor_at (data_at slot) 0xff mismatched) in
  let* retry := cookie_retry sent mismatched in
  assert (match retry with Discard => true | _ => false end).

(** Another EDNS option after COOKIE: its bytes would move. *)
Definition growing_a_cookie_before_later_bytes_is_not_rewritten : test unit :=
  let sent := query_with_cookie None in
  let rdlen_at := length sent - 4 - 8 - 2 in
  let* rdlen := u16_at sent rdlen_at in
  let* sent := word_set rdlen_at (rdlen + 4) sent in
  let* sent := parsed_packet (sent ++ bytes [0; 1; 0; 0]) in
  let* _ := forwardable_query sent in
  let* response := parsed_packet (as_badcookie (query_with_cookie (Some (replicate 8 x11)))) in
  let* retry := cookie_retry sent response in
  assert (match retry with Cookie.Tcp => true | _ => false end).

Definition response_cookie_lengths_and_local_error_policy : test unit :=
  let query := bytes [18; 52; 1; 0; 0; 1; 0; 0; 0; 0; 0; 1; 0; 0; 1; 0; 1; 0; 0; 41; 4; 208; 0; 0; 0; 0; 0; 12;
                      0; 10; 0; 8] ++ replicate 8 x03 in
  let* packet := parsed_packet query in
  let* _ := for_each [0; 2; 5; 23] (fun code =>
    for_each (seq 0 42) (fun len =>
      let w := set_at 22 (code / 16) (set_at 3 (128 + code mod 16) (set_at 2 0x81 query)) in
      let* w := word_set 26 (Z.of_nat (len + 4)) w in
      let* w := word_set 30 (Z.of_nat len) w in
      let* response := parsed_packet (take 32 w ++ replicate len x03) in
      let* valid := valid_response packet response true in
      assert_eq valid ((16 <=? len) && (len <=? 40)))) in
  let* local := local_error_reply packet ServerFailure in
  let* local := unwrap_some local in
  let* _ := assert_eq (drop (length local - 2) local) (bytes [0; 0]) in
  let* packet := parsed_packet (set_at 31 16 (set_at 27 20 query) ++ replicate 8 x04) in
  let* reply := local_error_reply packet ServerFailure in
  let* _ := assert (negb (is_some reply)) in
  let* reply := local_error_reply packet FormatError in
  assert (negb (is_some reply)).

(** ** Results *)

(** The remaining test of [tests.rs], that a corpus of hostile messages never
    panics, is [Parser.packet_parse_total] for all messages. *)
Example dns_tests_pass :
  Forall pass
    [local_a_replies_preserve_cookie_suppression_and_parse_as_complete_answers;
     header_and_question_vector;
     responses_cannot_be_used_as_validated_queries;
     malformed_query_flags_and_missing_question_are_rejected;
     compression_rfc1035_section_4_1_4;
     names_preserve_binary_labels_and_enforce_limits;
     hostile_compression_and_labels;
     counts_trailing_data_and_all_truncations;
     unknown_types_classes_opcodes_and_records_are_representable;
     edns_size_options_version_and_generated_errors;
     malformed_opt_and_resource_data_rejected;
     response_correlation_and_safe_truncation;
     structured_opt_mutations_retain_only_safe_error_context].
Proof. run_tests. Qed.

Example cookie_tests_pass :
  Forall pass
    [retry_inserts_the_server_cookie_and_rejects_a_mismatch;
     growing_a_cookie_before_later_bytes_is_not_rewritten;
     response_cookie_lengths_and_local_error_policy].
Proof. run_tests. Qed.
