(* ===== verification/ConfigTests.v ===== *)
(** * Tests of routing and configuration

    The tests of [src/src/routing.rs] and [src/src/config.rs], run on [Routing],
    [Config] and [Addr].  The documents are the trees that the TOML library makes of
    the texts of the tests. *)

From S2P Require Import Prelude Types Name Net Addr Routing Config Testing.

(** ** Tests of [src/src/routing.rs] *)

Definition group (port : Z) : test UpstreamGroup :=
  let* address := unwrap (upstream_address_new (SocketV4 (Ipv4 (n2b 127) x00 x00 x01) port)) in
  unwrap (upstream_group_new [address]).

Definition route_to (name : list byte) (port : Z) : test Route :=
  let* suffix := domain name in let* upstreams := group port in Ok (MkRoute suffix upstreams).

(** [.map(..).collect()]. *)
Fixpoint collect {A} (l : list (test A)) : test (list A) :=
  match l with
  | [] => Ok []
  | a :: l => let* a := a in let* l := collect l in Ok (a :: l)
  end.

Definition selected_group (s : Selection) : test UpstreamGroup :=
  match s with SelDefault group => Ok group | SelRouted route => Ok (route_upstreams route) | _ => Panic end.

Definition exact_subdomain_longest_boundary_default_and_reverse : test unit :=
  let* routes := collect
    [route_to (text "exceeds.test") 100; route_to (text "ad.lab.exceeds.test") 101;
     route_to (text "lab.exceeds.test") 102; route_to (text "100.168.192.in-addr.arpa") 103] in
  let* default := group 53 in
  let* table := unwrap (routing_table_new (Some default) routes []) in
  for_each
    [(text "ad.lab.exceeds.test", 101); (text "HOST.AD.LAB.EXCEEDS.TEST.", 101);
     (text "_ldap._tcp.dc._msdcs.ad.lab.exceeds.test", 101); (text "lab.exceeds.test", 102);
     (text "host.exceeds.test", 100); (text "badexceeds.test", 53); (text "example.com", 53);
     (text "github.com", 53); (text "1.100.168.192.in-addr.arpa", 103); (text ".", 53)]%Z
    (fun '(name, port) =>
       let* name := domain name in
       let* group := selected_group (select table name) in
       let* server := index (servers group) 0 in
       assert_eq (socket_port (upstream_socket server)) port).

Definition root_route_and_duplicate_normalization : test unit :=
  let* default := group 53 in
  let* root := route_to (text ".") 54 in
  let* table := unwrap (routing_table_new (Some default) [root] []) in
  let* name := domain (text "anything.test") in
  let* _ := assert (match select table name with SelRouted _ => true | _ => false end) in
  let* routes := collect [route_to (text "EXAMPLE.COM") 54; route_to (text "example.com.") 55] in
  assert_err (routing_table_new (Some default) routes []).

(** ** Tests of [src/src/config.rs] *)

Notation document := (list (list byte * tree)) (only parsing).

(** [Config::parse] of the text that stands for a document. *)
Definition parse_document (d : document) : outcome (ConfigError (toml := tree_toml d)) Config :=
  config_parse (toml := tree_toml d) [].

Definition listen_on (address : list byte) : list byte * tree := (KEY_LISTEN, TString address).
Definition servers_at (addresses : list (list byte)) : list byte * tree :=
  (KEY_SERVERS, TArray (TString <$> addresses)).
Definition domain_at (name : list byte) : list byte * tree := (KEY_DOMAIN, TString name).
Definition address_at (address : list byte) : list byte * tree := (KEY_ADDRESS, TString address).
Definition default_group (addresses : list (list byte)) : list byte * tree :=
  (KEY_DEFAULT, TTable [servers_at addresses]).
(** [\[\[route\]\]] and [\[\[local\]\]]. *)
Definition route_tables (l : list document) : list byte * tree := (KEY_ROUTE, TArray (TTable <$> l)).
Definition local_tables (l : list document) : list byte * tree := (KEY_LOCAL, TArray (TTable <$> l)).

Definition LISTEN : document := [listen_on (text "127.0.0.1:5300")].
Definition VALID : document := LISTEN ++ [default_group [text "1.1.1.1:53"]].

Definition rejects (d : document) : test unit := assert_err (parse_document d).
Definition accepts (d : document) : test Config := unwrap (parse_document d).

Definition LAB : document := [domain_at (text "LAB.test."); address_at (text "10.77.20.2")].
Definition PRIVATE : document := [domain_at (text "private.test"); servers_at [text "192.0.2.53"]].
Definition is_none {A} (o : option A) : bool := negb (is_some o).

Definition optional_default_and_local_records : test unit :=
  let* config := accepts LISTEN in
  let* _ := assert (negb (has_upstreams (routing config))) in
  let* config := accepts (LISTEN ++ [local_tables [LAB]]) in
  let* _ := assert (is_none (rt_default (routing config))) in
  let* record := index (rt_local (routing config)) 0 in
  let* _ := assert_eq (octets (local_address record)) (bytes [10; 77; 20; 2]) in
  let* _ := assert_eq (local_ttl record) 0%Z in
  let* _ := for_each [(text "60", 10); (text "0", 10); (text "2147483647", 10); (text "7fffffff", 16); (text "+60", 10)]%Z
    (fun '(digits, radix) =>
       assert_ok (parse_document (VALID ++ [local_tables [LAB ++ [(KEY_TTL, TInteger digits radix)]]]))) in
  let* config := accepts (LISTEN ++ [route_tables [PRIVATE]]) in
  let* _ := assert (has_upstreams (routing config)) in
  assert (is_none (rt_default (routing config))).

Definition lab : list byte * tree := domain_at (text "lab.test").
Definition lab_address : list byte * tree := address_at (text "10.77.20.2").

Definition numbered_locals (n : nat) : list document :=
  (fun i => [domain_at (text "d" ++ decimal (Z.of_nat i) ++ text ".test"); lab_address]) <$> seq 0 n.

(** That [MAX_ROUTES] entries themselves are accepted is left to [Document]: comparing all
    their suffixes is too long a computation. *)
Definition rejects_invalid_local_settings_and_ambiguous_suffixes : test unit :=
  let* _ := for_each
    [[(KEY_DEFAULT, TInteger (text "42") 10)];
     [(KEY_DEFAULT, TTable [])];
     [default_group []];
     [(KEY_LOCAL, TInteger (text "42") 10)];
     [(KEY_LOCAL, TTable [lab])];
     [(KEY_LOCAL, TArray [TInteger (text "1") 10])];
     [local_tables [[lab]]];
     [local_tables [[lab_address]]];
     [local_tables [[domain_at (text "*.lab.test"); lab_address]]];
     [local_tables [[lab; address_at (text "::1")]]];
     [local_tables [[lab; address_at (text "localhost")]]];
     [local_tables [[lab; address_at (text "10.77.20.2:53")]]];
     [local_tables [[lab; (KEY_ADDRESS, TInteger (text "42") 10)]]];
     [local_tables [[lab; lab_address; (text "unknown", TOther)]]];
     [local_tables [[lab; lab_address]; [domain_at (text "LAB.TEST."); address_at (text "10.77.20.3")]]];
     [local_tables [[lab; lab_address]];
      route_tables [[domain_at (text "LAB.TEST."); servers_at [text "192.0.2.53"]]]]]
    (fun settings => rejects (LISTEN ++ settings)) in
  let* _ := for_each
    [TInteger (text "-1") 10; TInteger (text "2147483648") 10; TInteger (text "999999999999999999999999") 10;
     TOther; TString (text "60"); TOther]
    (fun ttl => rejects (VALID ++ [local_tables [[lab; lab_address; (KEY_TTL, ttl)]]])) in
  let settings := numbered_locals MAX_ROUTES in
  let* _ := rejects (LISTEN ++ [local_tables settings;
                                route_tables [[domain_at (text "other.test"); servers_at [text "192.0.2.53"]]]]) in
  rejects (LISTEN ++ [local_tables (settings ++ [[domain_at (text "other.test"); lab_address]])]).

Definition is_ipv6 (a : SocketAddr) : bool := negb (is_ipv4 (socket_ip a)).

Definition parses_complete_toml_and_ipv6 : test unit :=
  let* config := accepts
    [listen_on (text "[::1]:5300"); default_group [text "[::1]:5353"];
     route_tables [[domain_at (text "_tcp.EXAMPLE.test."); servers_at [text "127.0.0.1:5354"]]]] in
  let* _ := assert (is_ipv6 (listen config)) in
  assert_eq (length (rt_routes (routing config))) 1.

Definition example_route (server : list byte) : list byte * tree :=
  route_tables [[domain_at (text "example.test"); servers_at [server]]].

Definition first_socket (g : UpstreamGroup) : test SocketAddr :=
  let* server := index (servers g) 0 in Ok (upstream_socket server).

Definition defaults_omitted_ports_and_preserves_explicit_ports : test unit :=
  for_each
    [(text "127.0.0.1", text "127.0.0.1:53"); (text "127.0.0.1:53", text "127.0.0.1:53");
     (text "127.0.0.1:5353", text "127.0.0.1:5353"); (text "::1", text "[::1]:53"); (text "[::1]", text "[::1]:53");
     (text "[::1]:53", text "[::1]:53"); (text "[::1]:5353", text "[::1]:5353");
     (text "2001:db8::1:5353", text "[2001:db8::1:5353]:53")]
    (fun '(raw, expected) =>
       let* expected := unwrap_some (socket_from_str expected) in
       let* config := accepts [listen_on raw; default_group [text "192.0.2.53"]] in
       let* _ := assert_eq (listen config) expected in
       let* config := accepts [listen_on (text "127.0.0.2:5300"); default_group [raw]; example_route raw] in
       let* default := unwrap_some (rt_default (routing config)) in
       let* server := first_socket default in
       let* _ := assert_eq server expected in
       let* route := index (rt_routes (routing config)) 0 in
       let* server := first_socket (route_upstreams route) in
       assert_eq server expected).

Definition default_ports_preserve_loop_and_duplicate_detection : test unit :=
  let* _ := for_each
    [(text "127.0.0.1", text "127.0.0.1:53"); (text "127.0.0.1:53", text "127.0.0.1"); (text "::1", text "[::1]:53");
     (text "[::1]:53", text "[::1]"); (text "127.0.0.1", text "::ffff:127.0.0.1")]
    (fun '(listen, upstream) =>
       for_each [[default_group [upstream]]; [default_group [text "192.0.2.53"]; example_route upstream]]
         (fun group =>
            let* error := unwrap_err (parse_document (listen_on listen :: group)) in
            assert (match error with CfgForwardingLoop => true | _ => false end))) in
  for_each
    [[text "1.1.1.1"; text "1.1.1.1:53"]; [text "::1"; text "[::1]:53"]; [text "[::1]"; text "::1"];
     [text "192.0.2.53"; text "[::ffff:192.0.2.53]:53"]; [text "::ffff:192.0.2.53"; text "192.0.2.53:53"]]
    (fun servers =>
       let* error := unwrap_err (parse_document (LISTEN ++ [default_group servers])) in
       assert (match error with CfgRouting DuplicateServer => true | _ => false end)).

Definition listen_keeps_the_canonical_unicast_address : test unit :=
  let* config := accepts [listen_on (text "[::ffff:127.0.0.1]"); default_group [text "192.0.2.53"]] in
  let* expected := unwrap_some (socket_from_str (text "127.0.0.1:53")) in
  assert_eq (listen config) expected.

Definition bad_route (name server : list byte) : list byte * tree :=
  route_tables [[domain_at name; servers_at [server]]].

Definition rejects_invalid_config_as_a_whole : test unit :=
  let* _ := for_each
    [[]; [listen_on (text "localhost:53")];
     [listen_on (text "0.0.0.0:53"); default_group [text "1.1.1.1:53"]];
     [listen_on (text "127.0.0.1:0"); default_group [text "1.1.1.1:53"]];
     [(KEY_LISTEN, TInteger (text "42") 10)]] rejects in
  let* _ := for_each
    [[]; [text "0.0.0.0:53"]; [text "0.0.0.0"]; [text "::"]; [text "1.1.1.1:0"]; [text "1.1.1.1:"];
     [text "1.1.1.1:65536"]; [text "1.1.1.1:dns"]; [text "[::1]:0"]; [text "[::1]:"]; [text "[::1]:65536"];
     [text "[::1]:dns"]; [text "[1.1.1.1]"]; [text ":53"]; [text "localhost"]; [text "224.0.0.1:53"];
     [text "255.255.255.255:53"]; [text "127.0.0.1:5300"]; [text "1.1.1.1:53"; text "1.1.1.1:53"]; [text "bad"]]
    (fun servers => rejects (LISTEN ++ [default_group servers])) in
  let* _ := rejects (LISTEN ++ [(KEY_DEFAULT, TTable [(KEY_SERVERS, TArray [TInteger (text "1") 10])])]) in
  for_each
    [(text "unknown", TOther);
     bad_route (text "bad..test") (text "1.1.1.1:53");
     route_tables [[domain_at (text "test")]];
     route_tables [[domain_at (text "test"); servers_at []]];
     bad_route (text "*.test") (text "1.1.1.1:53");
     route_tables [[domain_at (text "test"); servers_at [text "1.1.1.1:53"]];
                   [domain_at (text "TEST."); servers_at [text "1.0.0.1:53"]]]]
    (fun extra => rejects (VALID ++ [extra])).

(** ** Results *)

Example routing_tests_pass :
  Forall pass [exact_subdomain_longest_boundary_default_and_reverse; root_route_and_duplicate_normalization].
Proof. run_tests. Qed.

Example config_tests_pass :
  Forall pass
    [optional_default_and_local_records;
     rejects_invalid_local_settings_and_ambiguous_suffixes;
     parses_complete_toml_and_ipv6;
     defaults_omitted_ports_and_preserves_explicit_ports;
     default_ports_preserve_loop_and_duplicate_detection;
     listen_keeps_the_canonical_unicast_address;
     rejects_invalid_config_as_a_whole].
Proof. run_tests. Qed.
