(* ===== verification/ExchangeTests.v ===== *)
(** * Tests of framing and of exchanges with resolvers

    The tests of [src/src/transport.rs] and [src/src/upstream.rs], run on
    [Transport] and [Upstream].  The threads that play the other side are the
    instance [peers_env] of [Env]: servers that react to datagrams, and streams whose
    bytes arrive at given times. *)

From S2P Require Import Prelude Types Name Message Cookie Net Reply Parser Body Samples Sent.
From S2P Require Import LocalReply Retry Routing Io Sim Transport Upstream Testing DnsTests.

Definition MILLI : Z := 1000000.

(** ** Peers *)

(** What a UDP server does with one datagram: the datagrams it answers, and
    whether it raises the stop flag before. *)
Definition reaction : Type := list byte -> list (list byte) * bool.

(** The clock, the stop flag, the time-out set on the socket in use, the UDP servers
    with their next reactions, the server the socket is connected to, the datagrams
    waiting on it, what each endpoint received, the bytes that arrive on new streams
    with their times, the streams the peer closed, and the entropy source. *)
Record Peers := MkPeers {
  pw_time : Z;
  pw_stop : bool;
  pw_timeout : Z;
  pw_servers : list (SocketAddr * list reaction);
  pw_connected : option SocketAddr;
  pw_inbox : list (list byte);
  pw_received : list (SocketAddr * list byte);
  pw_arrivals : list (Z * list byte);
  pw_closed : list nat;
  pw_entropy : list (byte * byte)
}.

(** A call that blocks until the time-out. *)
Definition pw_wait (t : Z) (w : Peers) : Peers :=
  MkPeers t (pw_stop w) (pw_timeout w) (pw_servers w) (pw_connected w) (pw_inbox w) (pw_received w)
    (pw_arrivals w) (pw_closed w) (pw_entropy w).
Definition pw_set_timeout (d : Z) (w : Peers) : Peers :=
  MkPeers (pw_time w) (pw_stop w) d (pw_servers w) (pw_connected w) (pw_inbox w) (pw_received w)
    (pw_arrivals w) (pw_closed w) (pw_entropy w).
Definition pw_connect (a : option SocketAddr) (w : Peers) : Peers :=
  MkPeers (pw_time w) (pw_stop w) (pw_timeout w) (pw_servers w) a [] (pw_received w)
    (pw_arrivals w) (pw_closed w) (pw_entropy w).

Definition next_reaction (a : SocketAddr) (servers : list (SocketAddr * list reaction)) (bs : list byte)
    : list (list byte) * bool * list (SocketAddr * list reaction) :=
  match find (fun s => bool_decide (fst s = a)) servers with
  | Some (_, react :: rest) =>
    (react bs, (fun s => if bool_decide (fst s = a) then (a, rest) else s) <$> servers)
  | _ => ([], false, servers)
  end.

Definition pw_send (bs : list byte) (w : Peers) : Peers :=
  match pw_connected w with
  | None => w
  | Some a =>
    let '(replies, stopping, servers) := next_reaction a (pw_servers w) bs in
    MkPeers (pw_time w) (pw_stop w || stopping) (pw_timeout w) servers (Some a) (pw_inbox w ++ replies)
      (pw_received w ++ [(a, bs)]) (pw_arrivals w) (pw_closed w) (pw_entropy w)
  end.

(** A read: what has arrived, or arrives before the time-out. *)
Definition pw_read (n : nat) (w : Peers) : ioresult (list byte) * Peers :=
  let give t bs rest :=
    (inr (take n bs),
     MkPeers t (pw_stop w) (pw_timeout w) (pw_servers w) (pw_connected w) (pw_inbox w) (pw_received w)
       (if length bs <=? n then rest else (t, drop n bs) :: rest) (pw_closed w) (pw_entropy w)) in
  match pw_arrivals w with
  | (t, bs) :: rest =>
    if (t <=? pw_time w + pw_timeout w)%Z then give (Z.max t (pw_time w)) bs rest
    else (inl (io_error KWouldBlock), pw_wait (pw_time w + pw_timeout w) w)
  | [] => (inl (io_error KWouldBlock), pw_wait (pw_time w + pw_timeout w) w)
  end.

Definition peers_step (R : Type) (e : Sys R) (w : Peers) : R * Peers :=
  match e in Sys R return R * Peers with
  | Now => (pw_time w, w)
  | Stop => (pw_stop w, w)
  | TcpConnect a _ => (inr 1, w)
  | SetNodelay _ => (inr tt, w)
  | SetReadTimeout _ d => (inr tt, pw_set_timeout d w)
  | SetWriteTimeout _ _ => (inr tt, w)
  | Read h n => if bool_decide (h ∈ pw_closed w) then (inr [], w) else pw_read n w
  | Write _ bs => (inr (length bs), w)
  | UdpBind _ => (inr 2, pw_connect None w)
  | UdpConnect _ a => (inr tt, pw_connect (Some a) w)
  | UdpSend _ bs => (inr (length bs), pw_send bs w)
  | UdpRecv _ n =>
    match pw_inbox w with
    | [] => (inl (io_error KWouldBlock), pw_wait (pw_time w + pw_timeout w) w)
    | d :: ds =>
      (inr (take n d),
       MkPeers (pw_time w) (pw_stop w) (pw_timeout w) (pw_servers w) (pw_connected w) ds (pw_received w)
         (pw_arrivals w) (pw_closed w) (pw_entropy w))
    end
  | Entropy =>
    match pw_entropy w with
    | [] => (inr (x34, x12), w)
    | bs :: rest =>
      (inr bs,
       MkPeers (pw_time w) (pw_stop w) (pw_timeout w) (pw_servers w) (pw_connected w) (pw_inbox w) (pw_received w)
         (pw_arrivals w) (pw_closed w) rest)
    end
  | SetNonblocking _ _ => (inr tt, w)
  | Accept => (inl (io_error KWouldBlock), w)
  | RecvFrom _ => (inl (io_error KWouldBlock), w)
  | SendTo bs _ => (inr (length bs), w)
  | SubmitUdp _ _ _ => (false, w)
  | SubmitTcp _ _ => (false, w)
  | Warn _ => (tt, w)
  end.

#[export] Instance peers_env : Env Peers := { env_step := peers_step }.

(** Nothing happened yet; [stream] arrives on the streams. *)
Definition peers (servers : list (SocketAddr * list reaction)) (arrivals : list (Z * list byte)) : Peers :=
  MkPeers 0 false 0 servers None [] [] arrivals [7] [(x01, x02); (x03, x04); (x05, x06); (x07, x08)].

Definition run_on {E A X} (w : Peers) (own : X) (m : M Peers X E A) : test (outcome E A * state Peers X) :=
  Ok (m (MkIo w [] own)).

(** ** Tests of [src/src/transport.rs] *)

Definition framing_retains_partial_prefix_across_read_timeouts : test unit :=
  let* (frame, _) := run_on (peers [] [(0, [x00]); (2 * IO_POLL, [x0c]); (2 * IO_POLL, replicate HEADER_LENGTH x00)]%Z) tt
    (let! deadline := deadline_after (2 * SECOND) in read_frame 100 1 deadline) in
  let* frame := unwrap frame in
  assert_eq frame (Some (replicate HEADER_LENGTH x00)).

Definition framing_deadline_is_absolute_despite_partial_progress : test unit :=
  let arrivals := imap (fun i b => (20 * MILLI * Z.of_nat i, [b]))%Z (bytes [0; 12; 0; 0; 0; 0; 0; 0; 0; 0; 0; 0; 0; 0]) in
  let* (frame, s) := run_on (peers [] arrivals) tt
    (let! deadline := deadline_after (90 * MILLI) in read_frame 100 1 deadline) in
  let* error := unwrap_err frame in
  let* _ := assert_eq (err_kind error) KTimedOut in
  assert (pw_time (world s) <? 250 * MILLI)%Z.

(** ** Tests of [src/src/upstream.rs] *)

Definition QUERY_A : list byte :=
  bytes [18; 52; 1; 0; 0; 1; 0; 0; 0; 0; 0; 0; 1] ++ text "a" ++ bytes [4] ++ text "test" ++ bytes [0; 0; 1; 0; 1].
Definition BUDGET : Z := 150 * MILLI.
Definition GUARD : Z := 2 * SECOND.

Definition local_socket (port : Z) : SocketAddr := SocketV4 (Ipv4 (n2b 127) x00 x00 x01) port.
Definition first : SocketAddr := local_socket 40001.
Definition silent : SocketAddr := local_socket 40002.
Definition never : SocketAddr := local_socket 40003.

Fixpoint group_addresses (sockets : list SocketAddr) : test (list UpstreamAddress) :=
  match sockets with
  | [] => Ok []
  | s :: sockets =>
    let* a := unwrap (upstream_address_new s) in let* l := group_addresses sockets in Ok (a :: l)
  end.
Definition group_of (sockets : list SocketAddr) : test UpstreamGroup :=
  let* addresses := group_addresses sockets in unwrap (upstream_group_new addresses).

(** Datagrams that arrived at an endpoint. *)
Definition arrived (a : SocketAddr) (w : Peers) : list (list byte) :=
  snd <$> filter (fun e => fst e = a) (pw_received w).
Definition untouched (a : SocketAddr) (w : Peers) : test unit := assert_eq (arrived a w) [].

Definition is_timeout {A} (r : outcome ForwardError A) : bool :=
  match r with Err FwTimeout => true | _ => false end.
Definition is_cancelled {A} (r : outcome ForwardError A) : bool :=
  match r with Err FwCancelled => true | _ => false end.

Definition request_budget_bounds_failover_and_shutdown_never_contacts_next_server : test unit :=
  for_each [false; true] (fun cancel =>
    let* upstreams := group_of [first; silent; never] in
    let refuse q := ([set_at 3 0x85 (or_at 2 0x80 q)], cancel) in
    let* packet := parsed_packet QUERY_A in
    let* query := forwardable_query packet in
    let* (result, s) := run_on (peers [(first, [refuse])] []) (MkForwarder None)
      (let! deadline := deadline_after BUDGET in forward 100 query upstreams Udp deadline) in
    let* _ := (if cancel : bool then
                 let* _ := assert (is_cancelled result) in untouched silent (world s)
               else
                 let* _ := assert (is_timeout result) in
                 assert (negb (bool_decide (arrived silent (world s) = [])))) in
    untouched never (world s)).

Inductive Mode := ModeTc | ModeCookie | ModeReconnect.

(** What the peer of the second test sends back: BADCOOKIE with a server cookie,
    and to the retry BADCOOKIE again; or a truncated response. *)
Definition peer_reactions (mode : Mode) : list reaction :=
  let opt := length QUERY_A in
  match mode with
  | ModeCookie =>
    [fun q => ([set_at (opt + 14) 16 (set_at (opt + 10) 20 (set_at (opt + 5) 1 (set_at 3 0x87 (or_at 2 0x80 q))))
                ++ replicate 8 x09], false);
     fun q => ([set_at (opt + 5) 1 (set_at 3 0x87 (or_at 2 0x80 q))], false)]
  | ModeTc => [fun q => ([set_at 7 1 (or_at 2 0x82 q) ++ [xc0]], false)]
  | ModeReconnect => []
  end.

(** The frames the streams carried to the peer. *)
Definition framed (s : state Peers Forwarder) : list byte := transmitted 1 (trace s).

Definition tc_cookie_and_reused_tcp_share_the_original_request_budget : test unit :=
  for_each [ModeTc; ModeCookie; ModeReconnect] (fun mode =>
    let* upstreams := group_of [first; never] in
    let* server := index (servers upstreams) 0 in
    let wire := match mode with
                | ModeCookie => set_at 11 1 QUERY_A ++ bytes [0; 0; 41; 4; 208; 0; 0; 0; 0; 0; 12; 0; 10; 0; 8] ++ replicate 8 x07
                | _ => QUERY_A
                end in
    let forwarder := match mode with ModeReconnect => MkForwarder (Some (MkCached server 7 0)) | _ => MkForwarder None end in
    let* packet := parsed_packet wire in
    let* query := forwardable_query packet in
    let* (result, s) := run_on (peers [(first, peer_reactions mode)] []) forwarder
      (let! deadline := deadline_after BUDGET in
       forward 100 query upstreams (match mode with ModeReconnect => Tcp | _ => Udp end) deadline) in
    (* The peer read one whole frame, and held the stream. *)
    let* _ := assert (length (frame_of wire) <=? length (framed s)) in
    let* _ := assert (is_timeout result) in
    let* _ := assert (pw_time (world s) <? GUARD)%Z in
    untouched never (world s)).

Definition cancellation_is_distinct_from_an_interrupted_io_call : test unit :=
  let* _ := assert (match forward_error_from (io_error KInterrupted) with FwIo _ => true | _ => false end) in
  let stopped := MkPeers 0 true 0 [] None [] [] [] [] [] in
  let* (cancelled, _) := run_on stopped tt (let! deadline := deadline_after SECOND in remaining deadline) in
  let* cancelled := unwrap_err cancelled in
  let* _ := assert (match forward_error_from cancelled with FwCancelled => true | _ => false end) in
  let* (timeout, _) := run_on (peers [] []) tt (let! deadline := deadline_after 0 in remaining deadline) in
  let* timeout := unwrap_err timeout in
  assert (match forward_error_from timeout with FwTimeout => true | _ => false end).

(** ** Results *)

Example transport_tests_pass :
  Forall pass
    [framing_retains_partial_prefix_across_read_timeouts; framing_deadline_is_absolute_despite_partial_progress].
Proof. run_tests. Qed.

Example upstream_tests_pass :
  Forall pass
    [request_budget_bounds_failover_and_shutdown_never_contacts_next_server;
     tc_cookie_and_reused_tcp_share_the_original_request_budget;
     cancellation_is_distinct_from_an_interrupted_io_call].
Proof. run_tests. Qed.
