(* ===== verification/ServiceTests.v ===== *)
(** * Tests of the pool, the listeners and the log

    The tests of [src/src/server/pool.rs], [src/src/server.rs] and
    [src/src/logging.rs], run on [Pool], [Server] with [Forwarding], and [Logger].
    Where a test waits for threads, one schedule takes them to where they are. *)

From S2P Require Import Prelude Types Name Message Cookie Net Reply Parser Body Samples Sent.
From S2P Require Import LocalReply Answers Retry Routing Io Sim Transport Upstream Forwarding Isolation.
From S2P Require Import Server Service Logging Logger Config Main Pool Testing ConfigTests ExchangeTests.

(** ** Tests of [src/src/server/pool.rs] *)

(** A schedule of a new pool. *)
Definition schedule {T} (count cap : nat) (ms : list Move) : test (list (Label (T := T)) * PoolState) :=
  unwrap_some (play ms (pool_new count cap false)).

Definition turns_of {T} (i k : nat) : list (Move (T := T)) := replicate k (MWorker i false).

(** Workers whose state was dropped. *)
Definition dropped_workers {T} (st : PoolState (T := T)) : nat :=
  length (filter (fun p => match p with Finished | Done => true | _ => false end = true) (workers st)).

(** The result of [Pool::shutdown], and the exit status of a process with it. *)
Definition shutdown_result {T} (st : PoolState (T := T)) : test (outcome unit unit) :=
  match control st with Returned true => Ok (Ok tt) | Returned false => Ok (Err tt) | _ => Panic end.
Definition assert_exit {E} (result : outcome E unit) (status : Z) : test unit :=
  let* s := unwrap (exit_status (E := E) result) in assert_eq s status.

Definition initialization_failure_stops_and_joins_started_workers : test unit :=
  let* (_, st) := schedule (T := unit) 2 1 ([MSpawn; MStartFailed] ++ turns_of 0 3 ++ [MCollect; MReturn]) in
  let* _ := assert (stop (shared st)) in
  assert_eq (dropped_workers st) 1.

(** Calls of [maintain] in a run: steps of a worker from [AtPoll]. *)
Fixpoint maintains {T} (ms : list (Move (T := T))) (st : PoolState) : nat :=
  match ms with
  | [] => 0
  | m :: ms =>
    (match m with
     | MWorker i _ => match workers st !! i with Some AtPoll => 1 | _ => 0 end
     | _ => 0
     end)
    + match perform m st with Some (_, st') => maintains ms st' | None => 0 end
  end.

(** In each of six intervals every worker times out, and is back in its wait. *)
Definition idle_workers_maintain_without_sharing_the_queue_wait : test unit :=
  let interval := seq 0 4 ≫= (fun i => MWorker i true :: turns_of i 2) in
  let ms := repeat MSpawn 4 ++ [MStarted] ++ (seq 0 4 ≫= (fun i => turns_of i 2)) ++ concat (repeat interval 6) in
  let* (_, st) := schedule (T := unit) 4 4 ms in
  assert (14 <=? maintains ms (pool_new 4 4 false)).

Definition handle_and_maintain_panics_request_service_shutdown : test unit :=
  for_each
    [turns_of 0 3 ++ [MWorker 0 true]; (* [handle] *)
     turns_of 0 1 ++ [MWorker 0 true]] (* [maintain] *)
    (fun ms =>
       let start := [MSpawn; MStarted; MSubmit tt] in
       let* (_, st) := schedule (T := unit) 1 1 (start ++ ms) in
       let* _ := assert (stop (shared st)) in
       let* (_, st) := schedule 1 1 (start ++ ms ++ [MShutdown] ++ turns_of 0 1 ++ [MCollect; MReturn]) in
       let* result := shutdown_result st in
       assert_exit result 1).

Definition timed_out_shutdown_does_not_join_a_blocked_worker_in_drop : test unit :=
  let ms := [MSpawn; MStarted; MSubmit 1] ++ turns_of 0 3 ++ [MSubmit 2; MShutdown; MTimeout; MDropPool] in
  let* (_, st) := schedule 1 1 ms in
  let* result := shutdown_result st in
  let* _ := assert_exit result 1 in
  (* The worker is released; the second job never enters the handler. *)
  let* (tr, st) := schedule 1 1 (ms ++ turns_of 0 4) in
  let* _ := assert_eq (started tr) [1] in
  let* _ := assert_eq (dropped_workers st) 1 in
  assert_exit (E := unit) (Ok tt) 0.

(** ** Tests of [src/src/server.rs] *)

(** [io::Error::from_raw_os_error] for the codes of the tests: the kinds that the
    program names. *)
Definition from_raw_os_error (code : Z) : IoError :=
  let kind :=
    match code with
    | 100 => KNetworkDown
    | 101 => KNetworkUnreachable
    | 103 => KConnectionAborted
    | 104 => KConnectionReset
    | 113 => KHostUnreachable
    | _ => KOther
    end%Z in
  MkIoError kind None (Some code).

Definition is_accept (ev : event) : bool := let 'Ev e _ := ev in match e with Accept => true | _ => false end.

Definition per_connection_accept_errors_do_not_stop_the_listener : test unit :=
  let errors := [io_error KConnectionAborted; io_error KHostUnreachable; from_raw_os_error 71; io_error KInvalidInput] in
  let s := MkIo (MkSim 0 None [] [] [] [] (inl <$> errors)) [] tt in
  let (result, s) := accept_clients 10 (mcall Accept) (fun _ => mret true) s in
  let* error := unwrap_err result in
  let* _ := assert_eq (length (filter (fun ev => is_accept ev = true) (trace s))) 4 in
  assert_eq (err_kind error) KInvalidInput.

Definition extended_accept_errnos_are_retryable : test unit :=
  let* _ := for_each [64; 71; 92; 95; 100; 101; 103; 104; 112; 113]%Z (fun code =>
    assert (accept_error_is_retryable (from_raw_os_error code))) in
  assert (negb (accept_error_is_retryable (io_error KInvalidInput))).

Definition private_query : list byte :=
  bytes [18; 52; 1; 0; 0; 1; 0; 0; 0; 0; 0; 0; 7] ++ text "private" ++ bytes [4] ++ text "test" ++ bytes [0; 0; 1; 0; 1].

Definition is_reply (ev : event) : bool := let 'Ev e _ := ev in match e with SendTo _ _ => true | _ => false end.

(** The worker is in [maintain] when the job is queued; its deadline is the moment
    of its receipt. *)
Definition expired_udp_job_waiting_in_queue_never_reaches_any_upstream : test unit :=
  let* private := group_of [first] in
  let* public := group_of [silent] in
  let* suffix := domain (text "private.test") in
  let* table := unwrap (routing_table_new (Some public) [MkRoute suffix private] []) in
  let job := MkDatagram private_query never (MkDeadline 0) in
  let ms := [MSpawn; MStarted] ++ turns_of 0 1 ++ [MSubmit job] ++ turns_of 0 2 in
  let* (tr, _) := schedule 1 1 ms in
  let* _ := assert_eq (length (accepted tr)) 1 in
  let* job := index (started tr) 0 in
  let s := MkIo (MkSim 0 None [] [] [] [] []) [] (MkHandler table (MkForwarder None)) in
  let (result, s) := udp_handle (E := unit) 100 job s in
  let* _ := unwrap result in
  let* (_, st) := schedule 1 1 (ms ++ turns_of 0 1 ++ [MShutdown] ++ turns_of 0 3 ++ [MCollect; MReturn]) in
  let* result := shutdown_result st in
  let* _ := unwrap result in
  let* _ := assert_eq (contacted (trace s)) [] in
  assert_eq (length (filter (fun ev => is_reply ev = true) (trace s))) 0.

(** ** Test of [src/src/logging.rs] *)

(** Whether the last send of a run was accepted. *)
Definition sent_last (tr : list LogLabel) : test bool :=
  match last tr with Some (Send _ _ accepted) => Ok accepted | _ => Panic end.
Definition log_schedule (ms : list LogMove) : test (list LogLabel * LoggerState) :=
  unwrap_some (log_play ms [] logger_start).

(** The writer is blocked in the write of the first line until the guard is gone. *)
Definition blocked_sink_has_bounded_queues_and_bounded_teardown : test unit :=
  let blocked := [MSend false (text "first"); MWriter; MWriter] in
  let full := blocked ++ repeat (MSend false (text "queued")) 64 in
  let* (tr, st) := log_schedule full in
  let* _ := assert (match writer st with Writing false _ => true | _ => false end) in
  let* _ := assert_eq (length (sent false tr)) 65 in
  let* (tr, _) := log_schedule (full ++ [MSend false (text "overflow")]) in
  let* overflow := sent_last tr in
  let* _ := assert (negb overflow) in
  let* (tr, _) := log_schedule (full ++ [MSend true (text "fatal")]) in
  let* fatal := sent_last tr in
  let* _ := assert fatal in
  let* (_, st) := log_schedule (full ++ [MSend true (text "fatal"); MDrop; MGuard true]) in
  assert (match guard st, writer st with Dropped false, Writing _ _ => true | _, _ => false end).

(** ** Results *)

Example pool_tests_pass :
  Forall pass
    [initialization_failure_stops_and_joins_started_workers;
     idle_workers_maintain_without_sharing_the_queue_wait;
     handle_and_maintain_panics_request_service_shutdown;
     timed_out_shutdown_does_not_join_a_blocked_worker_in_drop].
Proof. run_tests. Qed.

Example server_tests_pass :
  Forall pass
    [per_connection_accept_errors_do_not_stop_the_listener;
     extended_accept_errnos_are_retryable;
     expired_udp_job_waiting_in_queue_never_reaches_any_upstream].
Proof. run_tests. Qed.

Example logging_tests_pass : Forall pass [blocked_sink_has_bounded_queues_and_bounded_teardown].
Proof. run_tests. Qed.
